(* ===== verification/_CoqProject ===== *)
-Q . S2P
Prelude.v
Decimals.v
LabGob.v
GobCheck.v
Persister.v
Raft.v
RaftLog.v
RaftState.v
Voting.v
RaftElection.v
Replication.v
RaftSafety.v
RaftRepair.v
RaftFrame.v
ApplyStream.v
RaftHarness.v
RaftApi.v
Dedup.v
Clerk.v
KVRaft.v
ShardCtrler.v
Rebalance.v
CtrlerState.v
ShardKV.v
Migration.v
ShardService.v
ShardGroups.v
ShardReplicas.v
MapReduce.v
Bitset.v
Porcupine.v
LinkedList.v
Linearize.v
LinearSearch.v
LinearCheck.v
Histories.v
LinearVerdict.v
KvModel.v
Visualize.v
Recording.v
KvHistory.v
KvCluster.v
ShardSystem.v
ShardSafety.v
ShardLinear.v
LabRpc.v
RpcContract.v
HarnessNet.v
ServiceHarness.v
CtrlerHarness.v
ShardHarness.v
Reports.v
MRSequential.v
MRProcesses.v
MRApps.v
MRTiming.v
