(* ===== verification/Prelude.v ===== *)
(** * Verification of the 6.824 (2022) distributed-systems labs

    The program (Go, under src/src) is a stack of services: a Raft consensus
    library ([raft]); a key/value server replicated by it ([kvraft]); a controller
    that assigns shards to replica groups ([shardctrler]), replicated by it too; a
    sharded key/value service ([shardkv]) whose groups replicate themselves with
    Raft, follow the controller's configurations and hand shards to each other; and,
    on its own, a MapReduce coordinator with its workers ([mr]).  A service gives
    commands to its Raft peer ([Start]) and applies what Raft commits ([ApplyMsg] on
    the apply channel); clerks retry requests until a server answers, so services
    recognise repeated requests by client and request number.  Below and beside them
    are the tools the tests stand on: the simulated network [labrpc] all calls of the
    services go through, the linearizability checker [porcupine] with its model of a
    key/value store, and the sequential MapReduce with the example applications.

    ** How Go is modelled

    A critical section of a mutex is one definition from state to state; a handler
    that waits on a condition variable or channel is two definitions, up to the wait
    and after it.  A function that can panic returns an option ([None] is a panic).
    A goroutine loop is the definition of one round.  [int] is [Z]; int64 counters
    wrap ([wrap64]).  A Go map is a [gmap]; where the order of a range loop over a
    map is visible in the code, that order is an argument constrained only to be a
    permutation.  RPCs that leave the component, the clock and random numbers are
    arguments.  Loops that poll until something happens take fuel, and the theorems
    about them state how much is enough.  The helpers are in this file: slices
    ([index], [store], [slice]), record update ([r <| f := v |>]), the tactics
    [zbool], [zlen_lia], [inv_bind] and the lemmas on lists the components share.

    ** Files

    - [Decimals]: decimal numbers as strconv and fmt read and print them.
    - [LabGob] (labgob/labgob.go): serialisation as the interface [Gob], a
      round-trip law, and a concrete codec that inhabits it.  [GobCheck]: the walks over
      types and values with which labgob warns, [checkType_complete].
    - [Persister] (raft/persister.go): stable storage.
    - [Raft] (raft/raft.go): the peer, record [Raft], and every function of the file:
      [AppendEntries] ([checkPrev], [mergeEntries], [advanceCommit]),
      [RequestVote], [InstallSnapshot], [Snapshot], [Start], [replicateLog] and the
      handling of replies, [updateCommitIndex], the apply loop, [ticker], [Make],
      [persist] and [readPersist].
    - [RaftLog], [RaftState]: one peer.  [AppendEntries_correct] gives the contract of
      the handler on each branch (log, reply, commit index, term and vote);
      [replicate_success] and [conflict_backs_up] relate
      what a leader sends to what a follower does; [updateCommitIndex_correct],
      [applyLog_delivers], [Snapshot_correct], [RequestVote_correct] are the other
      operations; [peer_invariant] and [peer_total] cover all of them (well-formed
      state kept, the log always on stable storage, no panic);
      [promises_survive_restart] says when term and vote are there too.
      [conflict_term_not_persisted], [install_term_not_persisted] and
      [commit_index_regresses] show where the code falls short of Raft.
    - [Voting]: an abstract voting machine with its safety invariant.
    - [RaftElection]: a cluster of peers and messages, executable ([cstep]), its
      refinement to the voting machine ([cluster_refines_voting]) and
      [election_safety]: at most one leader per term in runs without restarts.
      [two_leaders_after_restart] is a run with a restart and two leaders.
    - [Replication]: an abstract machine of terms, logs, votes and agreements with
      the safety argument of Raft: logs that agree on a term agree below it, a later
      leader has what was committed, committed logs never disagree.  [RaftSafety]:
      the cluster refines it in runs without snapshots and restarts
      ([cluster_refines_replication]), hence [log_matching], [leader_completeness],
      and [state_machine_safety] (no two peers apply different commands at an index).
      [install_keeps_conflict] is a run with a snapshot that leaves conflicting entries
      in a log.  [RaftRepair]: what every reply in flight says of the logs when it was
      sent, so that conflicts are handled rightly however late they come, and rounds of
      replication end with the follower holding the leader's log
      ([cluster_repairs_logs]).
    - [RaftFrame], [ApplyStream]: what the events of a cluster leave alone, and the
      rounds of the apply loops: a service receives the commands of one log in order
      ([CRel], [round_ok]).
    - [RaftHarness] (raft/config.go): the checks of the Raft tests; the appliers never
      object to what a cluster commits ([harness_never_objects]; [nCommitted] reads the
      copies of the servers one after another), [checkOneLeader_round] and
      [one_correct].
    - [RaftApi]: the class of what a service uses of Raft, with the instance for
      [Raft]; the services are proved against the class.
    - [Dedup]: sessions: executing a log with duplicates equals executing the first
      occurrence of each request.  [Clerk]: the retry loop of the clerks.
    - [KVRaft] (kvraft/server.go, client.go, common.go): the server and the clerk;
      [applyLog_exactly_once], [kv_exactly_once] (acknowledged requests are executed
      exactly once), [snapshot_equals_replay], [clerkGet_correct].
    - [ShardCtrler] (shardctrler/server.go, client.go, common.go): the controller.
      [Rebalance]: [rebalanceConfig] ends within one round per group (its fuel) and
      what it leaves.  [CtrlerState]: histories of configurations, with any number of groups
      ([join_leave_correct]), [query_retry_loses_config], agreement of replicas whatever the map order
      ([replicas_agree]), [ctrler_exactly_once], [Query_correct]; the module
      [CtrlerExamples] has runs in which balance, shards or answers are lost.
    - [ShardKV] (shardkv/server.go, client.go, common.go): the sharded server and its
      clerk.  [Migration]: the log of a group ([shardkv_invariant],
      [applyOp_request], [request_once]), configuration changes
      ([doUpdateConfig_partition]) and the transfer of a shard from the dock of one
      group to another ([shard_handover]).  [ShardService]: snapshots
      ([shard_snapshot_replay]; [agrees] lists what two servers have in common), garbage collection ([clean_correct], and
      [clean_drops_unpulled], a run in which it loses a shard), the pulls a leader
      starts ([checkMissShards_correct]) and the clerk ([clerkGet_finds_owner]).
    - [ShardGroups]: the groups of a sharded service as their logs leave them.  All
      logs are one sequence of commits; [winv] says that every shard is with one group
      or in one dock, with the data of one map and the sessions of the requests
      executed, and whatever the groups propose keeps it ([committed_winv]).
      [ShardReplicas]: a server is a replica of its group ([rep]), whatever the order
      of its maps and the docks it has cleaned.
    - [ShardSystem]: the controller, servers, clerks and clients as one system,
      executable ([step]): requests, handlers that wait, the apply loop, snapshots,
      restarts, configurations, pulls and Hellos are its events, over [Peer], a Raft
      peer as the servers see it.  [ShardSafety]: its invariant [sinv], kept by every
      event ([sinv_step]).  [ShardLinear]: in every run the groups are one store
      ([shardkv_one_store]) and the clients' histories are linearizable
      ([shardkv_linearizable]), as long as the configurations keep assigning shard 0;
      [leave_all_loses_data] is a run in which they do not.
    - [MapReduce] (mr/coordinator.go, worker.go, rpc.go): the coordinator, the worker
      loops as a step relation with crashes, [mapreduce_correct] (the output of a
      finished job) and [DispatchTask_lease].  [MRSequential] (main/mrsequential.go):
      the sequential program and [mapreduce_equals_sequential].  [MRProcesses]
      (main/mrcoordinator.go, main/mrworker.go): the programs as processes with their
      command lines, plugins and calls; when one of them returns the job is done
      ([mrprocesses_correct]), and workers do not outlive the coordinator, whatever the
      order of events ([mrworkers_end]).  [MRApps] (mrapps/wc.go,
      indexer.go, crash.go, nocrash.go, early_exit.go): the applications, splitting
      into words ([FieldsFunc_correct]), [wc_counts] and [indexer_lists].  [MRTiming]
      (mrapps/mtiming.go, rtiming.go, jobcount.go): the applications that watch the
      workers through files; a system call of [nparallel] is a step of its own, and
      numbers of dead processes are used again ([nparallel_counts], [jobcount_counts]).
    - [Bitset] (porcupine/bitset.go): sets of operations in words of 64 bits,
      [bitset_refines_set].  [Porcupine] (porcupine/checker.go, model.go,
      porcupine.go): entries, the linked list in a heap, the search ([checkRound] is
      one round of its loop), the parallel check and the interface.  [LinkedList]:
      the list as a chain of nodes; [lift] takes an operation out and [unlift] puts
      the heap back as it was.  [Linearize]: histories of entries, partial
      linearizations ([linp]) and the part of the list that is left ([cur]).
      [LinearSearch]: what a run of the loop does from a pair of operations left and
      state ([explore]).  [LinearCheck]: the whole of [checkSingle].  [Histories]:
      [linearizable] for lists of operations, and that the entries say the same.
      [LinearVerdict]: [checkSingle_correct], and the verdict of [checkParallel] for
      any arrival of results and timeout ([arrivals]).
    - [KvModel] (models/kv.go): the key/value model, [kv_locality] (checking key by
      key is enough) and [kv_check_correct], from a recorded history to the verdict.
      [Visualize] (porcupine/visualization.go): the data of the checker's web page,
      [visualization_faithful].
    - [Recording] (the clients of kvraft/test_test.go and shardkv/test_test.go): clients
      that call clerks and record operations with times, for any service, and how a
      history is shown to be linearizable ([blocks_linearizable]).
    - [KvHistory]: these clients on the abstract service of [KVRaft]; the recorded
      history is linearizable ([recorded_linearizable]).  [lstep]: a service with one
      log and no servers.  [KvCluster]: the whole kvraft
      service, [KVServer]s on the Raft cluster with clerks and clients, executable
      ([wstep]); it refines the service with one log ([kvraft_refines_log]), so the tests'
      histories are linearizable and porcupine says so ([kvraft_linearizable]).
    - [LabRpc] (labrpc/labrpc.go): network, servers, services and calls, the goroutines
      of a call as steps ([step]).  [RpcContract]: what a call means
      ([call_contract], [deleted_server_silent], [reliable_call], [call_returns],
      [counters_correct], [dispatch_runs_method]).
    - [HarnessNet] (raft/config.go): end points and links; module [RaftNet]: connecting,
      crashing and restarting the servers of a Raft test, with what they save in between
      ([links_follow_connections]).
      [ServiceHarness] (kvraft/config.go): servers, clerks and partitions
      ([leader_in_minority]).  [CtrlerHarness] (shardctrler/config.go): the same code with
      another [Leader].  [Reports] (util.go, config.go): debug output, and what
      tests do before and after their bodies.  [ShardHarness] (shardkv/config.go): controllers, groups and
      clerks ([shard_links]).

    The modules [PeerExamples], [ElectionExamples], [SafetyExamples], [RepairExamples], [KVExamples], [CtrlerExamples],
    [ShardExamples], [MRExamples], [AppExamples], [CheckerExamples], [RpcExamples],
    [BenchExamples], [ServiceExamples], [VisualizeExamples], [GobCheckExamples],
    [HarnessExamples], [ShardHarnessExamples], [ShardSystemExamples], [ProcessExamples]
    and [TimingExamples] apply the theorems with hypotheses to concrete runs.

    ** Fuel

    [balanceLoop] gets one round per group and is proved to need no more.  The loops
    that wait for another process ([retry], [pullLoop], [clerkLoop]) have no bound of
    their own; the theorems give the number of rounds in terms of when the other side
    answers.  The loop of [checkSingle] is exponential; [enoughFor] bounds its rounds
    by the number of operations, and more fuel does not change the answer.
    [reduceLoop] gets one round more than there are pairs.  [checkType] needs one more
    than there are types left to look at.  [poll] and [oneLoop] end when the clock has
    gone on for long enough.

    ** What is not modelled

    The tests themselves, apart from the clients that record histories; random strings
    and seeds.  Restarts and snapshots in the runs of [KvCluster] and [RaftHarness]:
    with them the code does not keep Raft's guarantees ([two_leaders_after_restart],
    [install_keeps_conflict]).  [ShardSystem] has both, over a peer that keeps them;
    it is not put on the cluster of [RaftElection].  A coordinator that
    cannot open its socket.  Errors of [os.CreateTemp] and [os.Rename] that worker.go
    ignores.  Writes of a crashed Raft instance to its own persister, which the harness
    has replaced by a copy.  Names whose first letter is not ASCII ([upperFirst]).
    Decoding a reply into a variable that is not new ([LabRpc] says who does).
    Sharing of a slice's backing array between the log and messages in flight: slices
    are values, so [replicateLog] sends a copy of the entries.  Time in the network: a delay is a step taken later, so nothing is said
    about how long a call takes.  A handler is one step of the network; its critical
    sections are in the models of the services.  The HTML page of porcupine's
    visualisation, and the command lines of servers that are not in the repository
    (lockd, viewd, pbd, diskvd and their clients).

    ** Next

    Safety of Raft with snapshots, for runs in which no log conflicts with a snapshot,
    and the sharded service on it; progress of a migration; the event interface of the
    checker. *)

From stdpp Require Export prelude gmap strings list sorting.
From Stdlib Require Export ZArith Lia.

#[export] Set Default Goal Selector "!".
Open Scope Z_scope.

(** ** Go values

    A Go [int] is an unbounded [Z]; the machine word is written out only where
    the program depends on its width.  A run-time panic (index or slice bounds
    out of range, division by zero) is the value [None] of an option, threaded
    with stdpp's [x ← e; k]. *)

Definition zlen {A} (l : list A) : Z := Z.of_nat (length l).

(** [l[i]]: panics outside [0, len). *)
Definition index {A} (l : list A) (i : Z) : option A :=
  if 0 <=? i then l !! Z.to_nat i else None.

(** [l[i] = v]: panics outside [0, len). *)
Definition store {A} (l : list A) (i : Z) (v : A) : option (list A) :=
  if (0 <=? i) && (i <? zlen l) then Some (<[Z.to_nat i := v]> l) else None.

(** [l[lo:hi]].  Go lets [hi] run up to the capacity; the program never means
    to read past the length, so this is a panic here. *)
Definition slice {A} (l : list A) (lo hi : Z) : option (list A) :=
  if (0 <=? lo) && (lo <=? hi) && (hi <=? zlen l)
  then Some (take (Z.to_nat (hi - lo)) (drop (Z.to_nat lo) l))
  else None.

(** [l[lo:]] *)
Definition slice_from {A} (l : list A) (lo : Z) : option (list A) :=
  slice l lo (zlen l).

(** [m[k]] of a Go map: the zero value of the element type when absent. *)
Definition getz {K V} `{Countable K} (zero : V) (m : gmap K V) (k : K) : V :=
  default zero (m !! k).

Definition last_entry {A} (l : list A) : option A := index l (zlen l - 1).

(** ** Record update

    [r <| f := v |>] is the Go assignment [r.f = v] on a struct value.  A
    record declares its eta expansion once ([Eta]) and each field gets its
    [Setter] from it with the tactic [setter]. *)

Class Eta (R : Type) := eta : R → R.

Class Setter {R T : Type} (proj : R → T) := upd : (T → T) → R → R.
Arguments upd {R T} proj {_} _ _.

Ltac setter :=
  match goal with
  | |- Setter ?p =>
    match type of p with
    | ?R → _ =>
      let f := fresh "f" in let r := fresh "r" in
      intros f r;
      let i := constr:(_ : Eta R) in
      let e := eval hnf in (@eta R i r) in
      match eval pattern (p r) in e with
      | ?F _ => let t := eval cbv beta in (F (f (p r))) in exact t
      end
    end
  end.

Declare Scope go_scope.
Delimit Scope go_scope with go.
Notation "r <| proj := v |>" := (upd proj (λ _, v) r)
  (at level 1, left associativity, format "r  <| proj  :=  v |>") : go_scope.
Open Scope go_scope.

(** A byte string; [nil] and the empty slice are the same value. *)
Definition bytes := list Byte.byte.

(** ** Automation *)

Create HintDb go discriminated.
Create Rewrite HintDb golen.

(** Case analysis on every [if], boolean test and option in sight, with the
    arithmetic facts each test carries. *)
Ltac zbool :=
  repeat match goal with
  | H : context [?a <? ?b] |- _ => destruct (Z.ltb_spec a b)
  | H : context [?a <=? ?b] |- _ => destruct (Z.leb_spec a b)
  | H : context [?a =? ?b] |- _ => destruct (Z.eqb_spec a b)
  | |- context [?a <? ?b] => destruct (Z.ltb_spec a b)
  | |- context [?a <=? ?b] => destruct (Z.leb_spec a b)
  | |- context [?a =? ?b] => destruct (Z.eqb_spec a b)
  end; simpl in *.

(** [lia] with Euclidean division by constants. *)
Ltac div_lia := Z.to_euclidean_division_equations; lia.

Ltac zbool_lia := zbool; try lia; try done.

(** int64 arithmetic wraps around. *)
Definition wrap64 (x : Z) : Z := (x + 2 ^ 63) mod 2 ^ 64 - 2 ^ 63.

Lemma wrap64_id x : - 2 ^ 63 <= x < 2 ^ 63 → wrap64 x = x.
Proof. intros Hx. unfold wrap64. rewrite Z.mod_small; lia. Qed.

(** Peel one layer of a panic-monad computation in hypothesis [H]. *)
Ltac inv_bind H :=
  let x := fresh "x" in let E := fresh "E" in
  apply bind_Some in H as (x & E & H).

(** ** Lemmas on slices *)

Section slices.
Context {A : Type}.
Implicit Types (l : list A) (i : Z).

Lemma zlen_nonneg l : 0 <= zlen l.
Proof. unfold zlen; lia. Qed.

Lemma zlen_nil : zlen (@nil A) = 0.
Proof. done. Qed.

Lemma zlen_cons x l : zlen (x :: l) = zlen l + 1.
Proof. unfold zlen; simpl; lia. Qed.

Lemma zlen_app l1 l2 : zlen (l1 ++ l2) = zlen l1 + zlen l2.
Proof. unfold zlen; rewrite length_app; lia. Qed.

Lemma zlen_take n l : zlen (take n l) = Z.min (Z.of_nat n) (zlen l).
Proof. unfold zlen; rewrite length_take; lia. Qed.

Lemma zlen_drop n l : zlen (drop n l) = Z.max 0 (zlen l - Z.of_nat n).
Proof. unfold zlen; rewrite length_drop; lia. Qed.

Lemma zlen_0_nil l : zlen l = 0 → l = [].
Proof. destruct l; [done|]. rewrite zlen_cons. pose proof (zlen_nonneg l). lia. Qed.

Lemma index_Some l i x : index l i = Some x ↔ 0 <= i ∧ l !! Z.to_nat i = Some x.
Proof. unfold index; zbool; naive_solver lia. Qed.

Lemma index_lookup l i : 0 <= i → index l i = l !! Z.to_nat i.
Proof. unfold index; zbool_lia. Qed.

Lemma index_lt l i x : index l i = Some x → 0 <= i < zlen l.
Proof. intros [? H]%index_Some. apply lookup_lt_Some in H. unfold zlen; lia. Qed.

Lemma index_is_Some l i : 0 <= i < zlen l → ∃ x, index l i = Some x.
Proof.
  intros. rewrite index_lookup by lia. apply lookup_lt_is_Some_2. unfold zlen in *; lia.
Qed.

Lemma index_elem_of l i x : index l i = Some x → x ∈ l.
Proof. intros [_ H]%index_Some. by eapply list_elem_of_lookup_2. Qed.

Lemma elem_of_index l x : x ∈ l ↔ ∃ i, index l i = Some x.
Proof.
  rewrite list_elem_of_lookup. split.
  - intros [i Hi]. exists (Z.of_nat i). rewrite index_lookup by lia. by rewrite Nat2Z.id.
  - intros [i [_ Hi]%index_Some]. eauto.
Qed.

Lemma index_neg l i : i < 0 → index l i = None.
Proof. intros. unfold index. zbool_lia. Qed.

Lemma index_app_l l1 l2 i : i < zlen l1 → index (l1 ++ l2) i = index l1 i.
Proof.
  intros. unfold index; zbool; [|done]. rewrite lookup_app_l; [done|].
  unfold zlen in *; lia.
Qed.

Lemma index_app_r l1 l2 i : zlen l1 <= i → index (l1 ++ l2) i = index l2 (i - zlen l1).
Proof.
  intros. pose proof (zlen_nonneg l1). rewrite !index_lookup by lia.
  rewrite lookup_app_r by (unfold zlen in *; lia). f_equal. unfold zlen in *; lia.
Qed.

Lemma index_take l n i : 0 <= i < Z.of_nat n → index (take n l) i = index l i.
Proof. intros. rewrite !index_lookup by lia. apply lookup_take_lt. lia. Qed.

Lemma index_drop l n i : 0 <= i → index (drop n l) i = index l (Z.of_nat n + i).
Proof. intros. rewrite !index_lookup by lia. rewrite lookup_drop. f_equal. lia. Qed.

Lemma index_None_ge l i : zlen l <= i → index l i = None.
Proof.
  intros. destruct (index l i) eqn:E; [|done]. apply index_lt in E. lia.
Qed.

Lemma store_Some l i v l' :
  store l i v = Some l' ↔ 0 <= i < zlen l ∧ l' = <[Z.to_nat i := v]> l.
Proof. unfold store; zbool; naive_solver lia. Qed.

Lemma store_is_Some l i v : 0 <= i < zlen l → store l i v = Some (<[Z.to_nat i := v]> l).
Proof. intros. by apply store_Some. Qed.

Lemma index_insert_eq l i v :
  0 <= i < zlen l → index (<[Z.to_nat i := v]> l) i = Some v.
Proof.
  intros. rewrite index_lookup by lia. apply list_lookup_insert_eq. unfold zlen in *. lia.
Qed.

Lemma index_insert_ne l i j v :
  i ≠ j → 0 <= i → index (<[Z.to_nat i := v]> l) j = index l j.
Proof.
  intros. destruct (Z.lt_ge_cases j 0); [by rewrite !index_neg by lia|].
  rewrite !index_lookup by lia. apply list_lookup_insert_ne. lia.
Qed.

Lemma zlen_insert l n v : zlen (<[n := v]> l) = zlen l.
Proof. unfold zlen. by rewrite length_insert. Qed.

Lemma slice_Some l lo hi l' :
  slice l lo hi = Some l' ↔
  0 <= lo <= hi ∧ hi <= zlen l ∧ l' = take (Z.to_nat (hi - lo)) (drop (Z.to_nat lo) l).
Proof. unfold slice; zbool; naive_solver lia. Qed.

Lemma slice_to l hi : 0 <= hi <= zlen l → slice l 0 hi = Some (take (Z.to_nat hi) l).
Proof. intros. apply slice_Some. rewrite Z.sub_0_r, drop_0. naive_solver lia. Qed.

Lemma slice_from_drop l lo :
  0 <= lo <= zlen l → slice_from l lo = Some (drop (Z.to_nat lo) l).
Proof.
  intros. apply slice_Some. split_and!; [lia|lia|lia|].
  symmetry. apply take_ge. rewrite length_drop. unfold zlen in *. lia.
Qed.

Lemma last_entry_nil : last_entry (@nil A) = None.
Proof. done. Qed.

Lemma last_entry_snoc l x : last_entry (l ++ [x]) = Some x.
Proof.
  unfold last_entry. rewrite zlen_app, zlen_cons, zlen_nil.
  rewrite index_app_r by lia. by replace (_ - _) with 0 by lia.
Qed.

End slices.

(** Counting through indices and through the list is the same. *)
Lemma zlen_filter_cons {A} (P : A → Prop) `{∀ x, Decision (P x)} x l :
  zlen (filter P (x :: l)) = (if decide (P x) then 1 else 0) + zlen (filter P l).
Proof. rewrite filter_cons. case_decide; rewrite ?zlen_cons; lia. Qed.

Lemma filter_all {A} (P : A → Prop) `{∀ x, Decision (P x)} (l : list A) :
  (∀ x, x ∈ l → P x) → filter P l = l.
Proof.
  induction l as [|x l IH]; intros Hl; [done|]. rewrite filter_cons.
  rewrite decide_True by (apply Hl; left). f_equal. apply IH. intros y Hy. apply Hl. by right.
Qed.

Lemma filter_none {A} (P : A → Prop) `{∀ x, Decision (P x)} (l : list A) :
  (∀ x, x ∈ l → ¬ P x) → filter P l = [].
Proof.
  induction l as [|x l IH]; intros Hl; [done|]. rewrite filter_cons.
  rewrite decide_False by (apply Hl; left). apply IH. intros y Hy. apply Hl. by right.
Qed.

Lemma mapM_total {A B} (f : A → option B) (l : list A) :
  (∀ x, x ∈ l → is_Some (f x)) → is_Some (mapM f l).
Proof. intros Hf. apply mapM_is_Some_2, Forall_forall. done. Qed.

#[export] Hint Rewrite @zlen_nil @zlen_cons @zlen_app @zlen_take @zlen_drop
  @zlen_insert : golen.
#[export] Hint Resolve zlen_nonneg : go.

(** Arithmetic over lengths of slices. *)
Ltac zlen_lia :=
  autorewrite with golen in *;
  repeat match goal with
  | |- context [zlen ?l] => pose proof (zlen_nonneg l); generalize dependent (zlen l); intros
  | H : context [zlen ?l] |- _ => pose proof (zlen_nonneg l); generalize dependent (zlen l); intros
  end; lia.

(** The indices [0 .. n-1] of [for i := 0; i < n; i++]. *)
Definition upto (n : Z) : list Z := Z.of_nat <$> seq 0 (Z.to_nat n).

Lemma upto_elem n i : i ∈ upto n ↔ 0 <= i < n.
Proof.
  unfold upto. rewrite list_elem_of_fmap. split.
  - intros (k & -> & Hk%elem_of_seq). lia.
  - intros. exists (Z.to_nat i). split; [lia|]. apply elem_of_seq. lia.
Qed.

Lemma upto_length n : length (upto n) = Z.to_nat n.
Proof. unfold upto. by rewrite length_fmap, length_seq. Qed.

Lemma upto_NoDup n : NoDup (upto n).
Proof. apply (NoDup_fmap_2 _), NoDup_seq. Qed.

Lemma Forall2_perm_l {A B} (R : A → B → Prop) l1 l2 k1 :
  Forall2 R l1 l2 → l1 ≡ₚ k1 → ∃ k2, l2 ≡ₚ k2 ∧ Forall2 R k1 k2.
Proof.
  intros HF HP. revert l2 HF. induction HP as [|x l1 k1 HP IH|x y l|l1 k1 m1 HP1 IH1 HP2 IH2]; intros l2 HF.
  - exists l2. by inversion HF.
  - inversion HF as [|? y ? l2' Hxy HF']; subst. destruct (IH _ HF') as (k2 & ? & ?). exists (y :: k2).
    split; [by constructor|by constructor].
  - inversion HF as [|? y' ? l2' Hy HF']; subst. inversion HF' as [|? x' ? l2'' Hx HF'']; subst.
    exists (x' :: y' :: l2''). split; [constructor|by repeat constructor].
  - destruct (IH1 _ HF) as (k2 & ? & HF1). destruct (IH2 _ HF1) as (m2 & ? & ?). exists m2. split; [by etrans|done].
Qed.

Lemma Forall2_perm_r {A B} (R : A → B → Prop) l1 l2 k2 :
  Forall2 R l1 l2 → l2 ≡ₚ k2 → ∃ k1, l1 ≡ₚ k1 ∧ Forall2 R k1 k2.
Proof.
  intros HF%Forall2_flip HP. destruct (Forall2_perm_l _ _ _ _ HF HP) as (k1 & ? & HF'). exists k1.
  split; [done|]. by apply Forall2_flip.
Qed.

Lemma Forall2_det {A B} (R : A → B → Prop) l k k' :
  (∀ x y y', R x y → R x y' → y = y') → Forall2 R l k → Forall2 R l k' → k = k'.
Proof.
  intros HR HF. revert k'. induction HF as [|x y l k Hxy HF IH]; intros k' HF'; inversion HF'; subst; [done|].
  f_equal; eauto.
Qed.

Lemma choose_list {K A} `{EqDecision K} (d : A) (P : K → A → Prop) (ks : list K) :
  (∀ k, k ∈ ks → ∃ x, P k x) → ∃ g : K → A, (∀ k, k ∈ ks → P k (g k)) ∧ (∀ k, k ∉ ks → g k = d).
Proof.
  induction ks as [|k ks IH]; intros Hks.
  { exists (λ _, d). split; [by intros k ?%elem_of_nil|done]. }
  destruct IH as (g & Hg & Hd); [intros k' Hk'; apply Hks; by right|]. destruct (Hks k) as [x Hx]; [by left|].
  exists (λ k', if decide (k' = k) then x else g k'). split; intros k' Hk'.
  - destruct (decide (k' = k)) as [->|]; [done|]. apply Hg. by apply elem_of_cons in Hk' as [?|?].
  - apply not_elem_of_cons in Hk' as [? ?]. rewrite decide_False by done. by apply Hd.
Qed.

Lemma StronglySorted_lookup {A} (R : relation A) l i j x y :
  StronglySorted R l → l !! i = Some x → l !! j = Some y → (i < j)%nat → R x y.
Proof.
  intros HS. revert i j. induction HS as [|z l _ IH HF]; intros [|i] [|j] Hi Hj Hij; try done; try lia; cbn in *.
  - injection Hi as <-. eapply Forall_lookup_1; eauto.
  - eapply IH; eauto. lia.
Qed.

Lemma list_filter_fmap {A B} (P : B → Prop) `{∀ x, Decision (P x)} (f : A → B) (l : list A) :
  filter P (f <$> l) = f <$> filter (λ x, P (f x)) l.
Proof. induction l as [|x l IH]; cbn [fmap list_fmap]; [done|]. rewrite !filter_cons. destruct (decide (P (f x))); cbn; by rewrite ?IH. Qed.

Lemma concat_fmap_fmap {A B C} (f : B → C) (g : A → list B) l : f <$> concat (g <$> l) = concat ((λ x, f <$> g x) <$> l).
Proof. induction l as [|x l IH]; cbn; [done|]. by rewrite fmap_app, IH. Qed.

Lemma NoDup_concat_fmap {A B} (g : A → list B) l :
  NoDup l → (∀ x, x ∈ l → NoDup (g x)) → (∀ x y z, x ∈ l → y ∈ l → z ∈ g x → z ∈ g y → x = y) → NoDup (concat (g <$> l)).
Proof.
  induction 1 as [|x l Hx HN IH]; intros H1 H2; cbn; [constructor|]. apply NoDup_app. split_and!.
  - apply H1. by left.
  - intros z Hz Hin. apply list_elem_of_In, in_concat in Hin as (k & Hk%list_elem_of_In & Hzk%list_elem_of_In).
    apply list_elem_of_fmap in Hk as (y & -> & Hy). apply Hx. replace x with y; [done|].
    symmetry. apply (H2 x y z); [by left|by right|done..].
  - apply IH; [intros y Hy; apply H1; by right|]. intros y y' z Hy Hy'. apply H2; by right.
Qed.

Lemma elem_of_concat {A} (x : A) ls : x ∈ concat ls ↔ ∃ l, l ∈ ls ∧ x ∈ l.
Proof.
  induction ls as [|l ls IH]; simpl; [set_solver|]. rewrite elem_of_app, IH. set_solver.
Qed.
