(* ===== verification/Decimals.v ===== *)
(** * Decimal numbers as Go reads and prints them

    [strconv.Itoa] and the verb %d print as [pretty] does; here are [strconv.Atoi],
    the verb %d of [fmt.Sscanf], and %06d, with the fact that reading gives back what
    was printed. *)

From Stdlib Require Import Ascii.
From stdpp Require Import pretty.
From S2P Require Import Prelude.

(** ** Reading *)

Definition digitOf (c : ascii) : option Z :=
  let n := Z.of_N (N_of_ascii c) - 48 in if (0 <=? n) && (n <=? 9) then Some n else None.

Fixpoint digitsFrom (acc : Z) (s : string) : option Z :=
  match s with
  | EmptyString => Some acc
  | String c s => match digitOf c with Some d => digitsFrom (10 * acc + d) s | None => None end
  end.

Definition signOf (s : string) : Z * string :=
  match s with
  | String c t => if ascii_dec c "-" then (-1, t) else if ascii_dec c "+" then (1, t) else (1, s)
  | EmptyString => (1, s)
  end.

(** [strconv.Atoi], and [strconv.ParseInt] in base 10, for 64 bits. *)
Definition Atoi (s : string) : option Z :=
  let '(sign, digits) := signOf s in
  if String.eqb digits "" then None
  else n ← digitsFrom 0 digits;
    if (- 2 ^ 63 <=? sign * n) && (sign * n <? 2 ^ 63) then Some (sign * n) else None.

(** The text after a literal beginning. *)
Fixpoint afterPrefix (p s : string) : option string :=
  match p, s with
  | EmptyString, _ => Some s
  | String c p, String d s => if ascii_dec c d then afterPrefix p s else None
  | _, EmptyString => None
  end.

Definition isBlank (c : ascii) : bool :=
  let n := Z.of_N (N_of_ascii c) in (n =? 32) || ((9 <=? n) && (n <=? 13) && negb (n =? 10)).
Fixpoint skipBlanks (s : string) : string :=
  match s with String c t => if isBlank c then skipBlanks t else s | EmptyString => s end.

(** The longest beginning of digits and underscores. *)
Fixpoint numberToken (s : string) : string :=
  match s with
  | String c t => if bool_decide (is_Some (digitOf c)) || (if ascii_dec c "_" then true else false) then String c (numberToken t) else EmptyString
  | EmptyString => EmptyString
  end.

(** [fmt.Sscanf(name, prefix + "%d", &x)] with one item read and no error; what
    follows the number is not looked at. *)
Definition Sscanf_d (prefix name : string) : option Z :=
  rest ← afterPrefix prefix name;
  let '(sign, t) := signOf (skipBlanks rest) in
  match numberToken t with
  | EmptyString => None
  | tok => Atoi (if sign =? -1 then String "-" tok else tok)
  end.

(** ** Printing *)

(** %06d *)
Fixpoint zeros (n : nat) (s : string) : string := match n with O => s | S n => String "0" (zeros n s) end.
Definition pad6 (x : Z) : string :=
  let digits := pretty (Z.abs x) in
  if x <? 0 then String "-" (zeros (5 - String.length digits) digits) else zeros (6 - String.length digits) digits.

(** ** Reading what was printed *)

Fixpoint allDigits (s : string) : Prop :=
  match s with EmptyString => True | String c s => is_Some (digitOf c) ∧ allDigits s end.

Lemma digitOf_char x : (x < 10)%N → digitOf (pretty_N_char x) = Some (Z.of_N x).
Proof.
  intros Hx. assert (x = 0 ∨ x = 1 ∨ x = 2 ∨ x = 3 ∨ x = 4 ∨ x = 5 ∨ x = 6 ∨ x = 7 ∨ x = 8 ∨ x = 9)%N as H by lia.
  naive_solver.
Qed.

Lemma digitsFrom_go x s : digitsFrom 0 (pretty_N_go x s) = digitsFrom (Z.of_N x) s.
Proof.
  revert s. induction (N.lt_wf_0 x) as [x _ IH]; intros s. destruct (decide (0 < x)%N) as [Hx|Hx].
  - rewrite pretty_N_go_step by done. rewrite IH by by apply N.div_lt. cbn. rewrite digitOf_char by by apply N.mod_lt.
    f_equal. rewrite N2Z.inj_div, N2Z.inj_mod. pose proof (Z.div_mod (Z.of_N x) 10). lia.
  - assert (x = 0)%N as -> by lia. by rewrite pretty_N_go_0.
Qed.

Lemma allDigits_go x s : allDigits s → allDigits (pretty_N_go x s).
Proof.
  revert s. induction (N.lt_wf_0 x) as [x _ IH]; intros s Hs. destruct (decide (0 < x)%N) as [Hx|Hx].
  - rewrite pretty_N_go_step by done. apply IH; [by apply N.div_lt|]. split; [|done].
    rewrite digitOf_char by by apply N.mod_lt. by eexists.
  - assert (x = 0)%N as -> by lia. by rewrite pretty_N_go_0.
Qed.

Lemma pretty_digits z : 0 <= z → digitsFrom 0 (pretty z) = Some z ∧ allDigits (pretty z) ∧ pretty z ≠ ""%string.
Proof.
  intros Hz. assert (pretty z = pretty (Z.to_N z)) as -> by by destruct z.
  unfold pretty, pretty_N. case_decide as H0; [replace z with 0 by lia; split_and!; [done|cbn; eauto|done]|].
  split_and!; [rewrite digitsFrom_go; cbn; f_equal; lia|by apply allDigits_go|].
  rewrite pretty_N_go_step by lia. intros HE. pose proof (digitsFrom_go (Z.to_N z `div` 10) (String (pretty_N_char (Z.to_N z `mod` 10)) "")) as HD.
  rewrite HE in HD. cbn in HD. rewrite digitOf_char in HD by by apply N.mod_lt. injection HD as HD.
  rewrite N2Z.inj_div, N2Z.inj_mod, Z2N.id in HD by done. pose proof (Z.div_mod z 10). lia.
Qed.

Lemma digit_plain c : is_Some (digitOf c) → c ≠ "-"%char ∧ c ≠ "+"%char ∧ isBlank c = false.
Proof.
  intros [n Hn]. unfold digitOf in Hn. destruct (_ && _) eqn:H; [|done]. apply andb_true_iff in H as [H1%Z.leb_le H2%Z.leb_le].
  split_and!; [intros ->; cbn in *; lia..|]. unfold isBlank. set (m := Z.of_N (N_of_ascii c)) in *.
  destruct (Z.eqb_spec m 32); [lia|]. destruct (Z.leb_spec m 13); [lia|]. by rewrite andb_false_r.
Qed.

Lemma digits_head s : allDigits s → s ≠ ""%string → signOf s = (1, s) ∧ skipBlanks s = s ∧ numberToken s = s.
Proof.
  intros Hd Hs. assert (numberToken s = s) as Hn.
  { clear Hs. induction s as [|c s IH]; [done|]. destruct Hd as [Hc Hd]. cbn. rewrite bool_decide_eq_true_2 by done. cbn. by rewrite IH. }
  destruct s as [|c s]; [done|]. destruct Hd as [Hc _]. destruct (digit_plain c Hc) as (H1 & H2 & H3). split_and!; [| |done]; cbn.
  - destruct (ascii_dec c "-"); [done|]. by destruct (ascii_dec c "+").
  - by rewrite H3.
Qed.

Lemma Atoi_pretty z : 0 <= z < 2 ^ 63 → Atoi (pretty z) = Some z.
Proof.
  intros Hz. destruct (pretty_digits z) as (H1 & H2 & H3); [lia|]. unfold Atoi. destruct (digits_head _ H2 H3) as (-> & _).
  destruct (String.eqb_spec (pretty z) ""); [done|]. rewrite H1. cbn [mbind option_bind]. rewrite Z.mul_1_l. zbool; [done|lia..].
Qed.

Lemma afterPrefix_app p s : afterPrefix p (p +:+ s) = Some s.
Proof.
  induction p as [|c p IH]; [by destruct s|].
  change (String c p +:+ s) with (String c (p +:+ s)). cbn -[ascii_dec]. by destruct (ascii_dec c c).
Qed.

Lemma Sscanf_pretty p z : 0 <= z < 2 ^ 63 → Sscanf_d p (p +:+ pretty z) = Some z.
Proof.
  intros Hz. destruct (pretty_digits z) as (H1 & H2 & H3); [lia|]. unfold Sscanf_d. rewrite afterPrefix_app. cbn [mbind option_bind].
  destruct (digits_head _ H2 H3) as (E1 & -> & E3). rewrite E1, E3. pose proof (Atoi_pretty z Hz). by destruct (pretty z).
Qed.
