(* ===== verification/LabGob.v ===== *)
(** * Serialisation: [labgob/labgob.go]

    The program serialises with [labgob], a checking wrapper around Go's
    [encoding/gob].  [Gob] is what its clients rely on; the theorems of the
    other components hold for every instance.  The second half gives a concrete
    codec for the types the program encodes, so that the interface is inhabited
    and the other components can be run. *)

From S2P Require Import Prelude.

(** A stream decodes to the values it was encoded from, and is never empty
    ([persist] and the snapshots tell "nothing saved" by the empty string). *)
Class Gob (A : Type) := {
  gob_encode : A → bytes;
  gob_decode : bytes → option A;
  gob_decode_encode : ∀ a, gob_decode (gob_encode a) = Some a;
  gob_encode_nonempty : ∀ a, gob_encode a ≠ [];
}.

(** ** A concrete codec *)

(** Values as sequences of integers that can be read back from the front of a
    longer sequence. *)
Class Wire (A : Type) := {
  wput : A → list Z;
  wget : list Z → option (A * list Z);
  wget_put : ∀ a r, wget (wput a ++ r) = Some (a, r);
}.

#[export] Program Instance wire_Z : Wire Z := {|
  wput z := [z];
  wget l := match l with z :: r => Some (z, r) | [] => None end;
|}.
Next Obligation. done. Qed.

Definition wire_iso {A B} `{Wire B} (f : A → B) (g : B → A) (Hgf : ∀ a, g (f a) = a) : Wire A.
Proof.
  refine {| wput a := wput (f a); wget l := '(b, r) ← wget l; Some (g b, r) |}.
  intros a r. rewrite wget_put. simpl. by rewrite Hgf.
Defined.

#[export] Instance wire_bool : Wire bool :=
  wire_iso (λ b : bool, if b then 1 else 0) (λ z, z =? 1) ltac:(by intros []).

#[export] Instance wire_ascii : Wire Ascii.ascii :=
  wire_iso (λ c, Z.of_N (Ascii.N_of_ascii c)) (λ z, Ascii.ascii_of_N (Z.to_N z))
    ltac:(intros c; cbv beta; by rewrite N2Z.id, Ascii.ascii_N_embedding).

#[export] Program Instance wire_prod {A B} `{Wire A, Wire B} : Wire (A * B) := {|
  wput p := wput p.1 ++ wput p.2;
  wget l := '(a, l) ← wget l; '(b, l) ← wget l; Some ((a, b), l);
|}.
Next Obligation.
  intros A B ? ? [a b] r. cbn. rewrite <-app_assoc, wget_put. cbn. by rewrite wget_put.
Qed.

Fixpoint wget_list {A} `{Wire A} (n : nat) (l : list Z) : option (list A * list Z) :=
  match n with
  | O => Some ([], l)
  | S n => '(a, l) ← wget l; '(rest, l) ← wget_list n l; Some (a :: rest, l)
  end.

Lemma wget_list_put {A} `{Wire A} (xs : list A) r :
  wget_list (length xs) (concat (wput <$> xs) ++ r) = Some (xs, r).
Proof.
  induction xs as [|x xs IH]; [done|]. cbn. rewrite <-app_assoc, wget_put. cbn. by rewrite IH.
Qed.

#[export] Program Instance wire_list {A} `{Wire A} : Wire (list A) := {|
  wput xs := zlen xs :: concat (wput <$> xs);
  wget l := match l with n :: l => wget_list (Z.to_nat n) l | [] => None end;
|}.
Next Obligation.
  intros A ? xs r. simpl. unfold zlen. rewrite Nat2Z.id. apply wget_list_put.
Qed.

#[export] Instance wire_option {A} `{Wire A} : Wire (option A) :=
  wire_iso option_list head ltac:(by intros []).

#[export] Instance wire_string : Wire string :=
  wire_iso String.list_ascii_of_string String.string_of_list_ascii
    String.string_of_list_ascii_of_string.

#[export] Instance wire_gmap {K V} `{Countable K, Wire K, Wire V} : Wire (gmap K V) :=
  wire_iso map_to_list list_to_map (list_to_map_to_list (M:=gmap K)).

(** Integers as bytes: the bits of the positive that encodes the integer, then
    an end mark. *)
Fixpoint positive_bytes (p : positive) : bytes :=
  match p with
  | xH => [Byte.x02]
  | xO p => Byte.x00 :: positive_bytes p
  | xI p => Byte.x01 :: positive_bytes p
  end.

Definition put_bytes (l : list Z) : bytes := concat ((λ z, positive_bytes (encode z)) <$> l).

(** [k] rebuilds the positive from the bits read so far. *)
Fixpoint get_bytes (k : positive → positive) (b : bytes) : option (list Z) :=
  match b with
  | [] => Some []
  | Byte.x00 :: b => get_bytes (λ p, k (xO p)) b
  | Byte.x01 :: b => get_bytes (λ p, k (xI p)) b
  | Byte.x02 :: b => z ← decode (k xH); l ← get_bytes (λ p, p) b; Some (z :: l)
  | _ => None
  end.

Lemma get_positive_bytes p k b :
  get_bytes k (positive_bytes p ++ b) =
  (z ← decode (k p); l ← get_bytes (λ p, p) b; Some (z :: l)).
Proof.
  revert k. induction p as [p IH|p IH|]; intros k; cbn; [apply IH|apply IH|done].
Qed.

Lemma get_put_bytes l : get_bytes (λ p, p) (put_bytes l) = Some l.
Proof.
  induction l as [|z l IH]; [done|]. unfold put_bytes in *. rewrite fmap_cons. cbn [concat].
  rewrite get_positive_bytes, decode_encode. cbn. by rewrite IH.
Qed.

(** Not an instance: a theorem must not pick it where any codec will do. *)
Definition wire_gob (A : Type) `{Wire A} : Gob A.
Proof.
  refine {| gob_encode a := Byte.x03 :: put_bytes (wput a);
            gob_decode b := match b with
              | Byte.x03 :: b => l ← get_bytes (λ p, p) b; p ← wget l; Some p.1
              | _ => None
              end |}.
  - intros a. rewrite get_put_bytes. cbn. rewrite <-(app_nil_r (wput a)), wget_put. done.
  - done.
Defined.
