(* ===== verification/GobCheck.v ===== *)
(** * The checks of [labgob/labgob.go]

    Before it hands a value to [encoding/gob], labgob walks over the value's type and
    complains about fields that are not exported, once for each type; before it decodes
    into a variable it complains about parts that are not zero.  Types are what
    [reflect] shows of them: a graph, since a type can point to itself.  [encoding/gob]
    is an argument.  Calls are modelled one after the other. *)

From S2P Require Import Prelude.

(** The global [errorCount], [checked] and what was printed. *)
Inductive Message := LowerCase (field of_ : string) | NonDefault (what : string).

Record State {ty : Type} `{Countable ty} := mkState { checked : gset ty; errorCount : Z; printed : list Message }.
Arguments State ty {_ _}.

(** What [reflect] shows of a type. *)
Inductive Kind (ty : Type) :=
  | Struct (name : string) (fields : list (string * ty))
  | Slice (elem : ty) | Array (elem : ty) | Ptr (elem : ty)
  | Map (key elem : ty)
  | Basic (name : string)        (* Bool, the integers, Float32, Float64, String *)
  | OtherKind.
Arguments Struct {ty} name fields.
Arguments Slice {ty} elem.
Arguments Array {ty} elem.
Arguments Ptr {ty} elem.
Arguments Map {ty} key elem.
Arguments Basic {ty} name.
Arguments OtherKind {ty}.

(** A value as [reflect] shows it, as far as the walk goes: a nil pointer is [None],
    a basic value is zero or not. *)
Inductive Value :=
  | VStruct (fields : list (string * Value))
  | VPtr (to : option Value)
  | VBasic (tname : string) (isZero : bool)
  | VOther.

(** [unicode.IsUpper] of the first rune, for names in ASCII. *)
Definition upperFirst (s : string) : bool :=
  match s with
  | EmptyString => false
  | String a _ => let c := Z.of_nat (Ascii.nat_of_ascii a) in (65 <=? c) && (c <=? 90)
  end.

Section check.
Context {ty : Type} `{Countable ty} (kindOf : ty → Kind ty).

(** One struct field, before the walk goes on to its type. *)
Definition complain (of_ name : string) (st : State ty) : State ty :=
  if upperFirst name then st
  else mkState _ _ _ (checked st) (errorCount st + 1) (printed st ++ [LowerCase name of_]).

(** [None] when the fuel runs out. *)
Fixpoint checkType (fuel : nat) (t : ty) (st : State ty) : option (State ty) :=
  match fuel with
  | O => None
  | S fuel =>
    if decide (t ∈ checked st) then Some st
    else
      let st := mkState _ _ _ ({[t]} ∪ checked st) (errorCount st) (printed st) in
      match kindOf t with
      | Struct name fields => foldl (λ acc f, st ← acc; checkType fuel f.2 (complain name f.1 st)) (Some st) fields
      | Slice e | Array e | Ptr e => checkType fuel e st
      | Map k e => st ← checkType fuel e st; checkType fuel k st
      | Basic _ | OtherKind => Some st
      end
  end.

(** ** Values to decode into *)

Definition dotted (name field : string) : string :=
  if String.eqb name "" then field else name +:+ "." +:+ field.

(** [left_] is [4 - depth]: the walk ends below depth 3.  [ro]: the value was reached
    through a field that is not exported; [value.Interface()] then panics, [None]. *)
Fixpoint checkDefault1 (left_ : nat) (name : string) (ro : bool) (value : Value) (st : State ty) : option (State ty) :=
  match left_ with
  | O => Some st
  | S left_ =>
    match value with
    | VStruct fields =>
      foldl (λ acc f, st ← acc; checkDefault1 left_ (dotted name f.1) (ro || negb (upperFirst f.1)) f.2 st) (Some st) fields
    | VPtr None => Some st
    | VPtr (Some v) => checkDefault1 left_ name ro v st
    | VBasic tname isZero =>
      if ro then None
      else if isZero then Some st
      else Some (mkState _ _ _ (checked st) (errorCount st + 1)
             (if errorCount st <? 1 then printed st ++ [NonDefault (if String.eqb name "" then tname else name)] else printed st))
    | VOther => Some st
    end
  end.

(** A nil interface is [None]. *)
Definition checkDefault (value : option Value) (st : State ty) : option (State ty) :=
  match value with None => Some st | Some v => checkDefault1 3 "" false v st end.

(** ** Encoding and decoding, with [encoding/gob] an argument *)

Definition Encode {A} (fuel : nat) (t : ty) (gobEncode : A → bytes) (e : A) (st : State ty) : option (State ty * bytes) :=
  st ← checkType fuel t st; Some (st, gobEncode e).

(** [into]: the variable as it is before.  [None]: the fuel runs out, or a panic. *)
Definition Decode {A} (fuel : nat) (t : ty) (into : option Value) (gobDecode : bytes → option A) (b : bytes) (st : State ty)
    : option (State ty * option A) :=
  st ← checkType fuel t st; st ← checkDefault into st; Some (st, gobDecode b).

Definition Register (fuel : nat) (t : ty) (st : State ty) : option (State ty) := checkType fuel t st.

(** ** What the walk over a type does *)

Definition children (t : ty) : list ty :=
  match kindOf t with
  | Struct _ fields => snd <$> fields
  | Slice e | Array e | Ptr e => [e]
  | Map k e => [e; k]
  | Basic _ | OtherKind => []
  end.

(** The fields of a type that will be complained about. *)
Definition lowerFields (t : ty) : Z :=
  match kindOf t with Struct _ fields => zlen (filter (λ f, upperFirst f.1 = false) fields) | _ => 0 end.

Definition total (s : gset ty) : Z := foldr (λ t a, lowerFields t + a) 0 (elements s).

Inductive reachable (t : ty) : ty → Prop :=
  | reach_refl : reachable t t
  | reach_step u v : reachable t u → v ∈ children u → reachable t v.

(** From [st] to [st'] the walk has visited types it had to, completely, and counted
    the lower-case fields of each once, and [extra] besides. *)
Record walked (from : ty → Prop) (extra : Z) (st st' : State ty) : Prop := {
  wk_mono : checked st ⊆ checked st';
  wk_done : ∀ u v, u ∈ checked st' → u ∉ checked st → v ∈ children u → v ∈ checked st';
  wk_from : ∀ u, u ∈ checked st' → u ∈ checked st ∨ ∃ v, from v ∧ reachable v u;
  wk_count : errorCount st' = errorCount st + extra + total (checked st' ∖ checked st);
}.

Lemma total_union s1 s2 : s1 ## s2 → total (s1 ∪ s2) = total s1 + total s2.
Proof.
  intros Hd. assert (∀ l1 l2 : list ty, l1 ≡ₚ l2 → foldr (λ t a, lowerFields t + a) 0 l1 = foldr (λ t a, lowerFields t + a) 0 l2) as HP.
  { induction 1; cbn; lia. }
  unfold total. rewrite (HP _ _ (elements_disj_union s1 s2 Hd)). induction (elements s1) as [|x l IH]; [done|]. cbn. lia.
Qed.

Lemma total_singleton t : total {[t]} = lowerFields t.
Proof. unfold total. rewrite elements_singleton. cbn. lia. Qed.

Lemma reachable_trans t u v : reachable t u → reachable u v → reachable t v.
Proof. intros Ht. induction 1 as [|u' v' _ IH Hc]; [done|]. by eapply reach_step. Qed.

Lemma walked_refl from st : walked from 0 st st.
Proof. split; [done|done|auto|]. rewrite difference_diag_L. unfold total. rewrite elements_empty. cbn. lia. Qed.

Lemma walked_trans from1 from2 e1 e2 st1 st2 st3 : walked from1 e1 st1 st2 → walked from2 e2 st2 st3 →
  walked (λ v, from1 v ∨ from2 v) (e1 + e2) st1 st3.
Proof.
  intros [M1 D1 F1 C1] [M2 D2 F2 C2]. split.
  - set_solver.
  - intros u v Hu3 Hu1 Hv. destruct (decide (u ∈ checked st2)); [apply M2; by eapply D1|by eapply D2].
  - intros u [Hu|(v & ? & ?)]%F2; [|right; eauto]. apply F1 in Hu as [?|(v & ? & ?)]; eauto.
  - rewrite C2, C1. assert (checked st3 ∖ checked st1 = (checked st2 ∖ checked st1) ∪ (checked st3 ∖ checked st2)) as ->.
    { apply set_eq. intros x. destruct (decide (x ∈ checked st2)); set_solver. }
    rewrite total_union by set_solver. lia.
Qed.

Lemma walked_weaken (from from' : ty → Prop) e e' st st' : (∀ v, from v → from' v) → e = e' → walked from e st st' → walked from' e' st st'.
Proof. intros Hf -> [M D F C]. split; [done..| |done]. intros u [?|(v & ? & ?)]%F; eauto. Qed.

Lemma complain_walked name f st : walked (λ _, False) (if upperFirst f then 0 else 1) st (complain name f st).
Proof.
  unfold complain. destruct (upperFirst f); [apply walked_refl|]. split; cbn; [done|done|auto|]. rewrite difference_diag_L. unfold total. rewrite elements_empty. cbn. lia.
Qed.

(** The loop over the fields of a struct, for any walk over their types. *)
Lemma fields_walked (check : ty → State ty → option (State ty)) name fields st st' :
  (∀ u s s', check u s = Some s' → walked (u =.) 0 s s' ∧ u ∈ checked s') →
  foldl (λ acc f, st ← acc; check f.2 (complain name f.1 st)) (Some st) fields = Some st' →
  walked (.∈ fields.*2) (zlen (filter (λ f, upperFirst f.1 = false) fields)) st st' ∧ ∀ u, u ∈ fields.*2 → u ∈ checked st'.
Proof.
  intros Hc. revert st'. induction fields as [|[f u] fields IH] using rev_ind; intros st' HF.
  { injection HF as <-. split; [apply (walked_weaken (λ _, False) _ 0); [done|done|apply walked_refl]|by intros ? ?%elem_of_nil]. }
  rewrite foldl_app in HF. cbn [foldl] in HF. destruct (foldl _ (Some st) fields) as [st1|] eqn:E; [|done]. cbn [mbind option_bind fst snd] in HF.
  destruct (IH st1 eq_refl) as [W1 H1]. destruct (Hc _ _ _ HF) as [W2 H2]. rewrite fmap_app, filter_app, zlen_app. split.
  - eapply walked_weaken; [| |eapply walked_trans; [exact W1|eapply walked_trans; [apply (complain_walked name f)|exact W2]]].
    + intros v [?|[[]| <-]]; apply elem_of_app; [by left|right; by left].
    + rewrite filter_cons, filter_nil. cbn [fst]. destruct (upperFirst f); [rewrite decide_False by done|rewrite decide_True by done]; unfold zlen; cbn; lia.
  - intros v [Hv|Hv]%elem_of_app; [apply (wk_mono _ _ _ _ W2); unfold complain; by destruct (upperFirst f); apply H1|]. cbn in Hv. apply list_elem_of_singleton in Hv as ->. done.
Qed.

Lemma checkType_walked fuel t st st' : checkType fuel t st = Some st' → walked (t =.) 0 st st' ∧ t ∈ checked st'.
Proof.
  revert t st st'. induction fuel as [|fuel IH]; intros t st st' HC; [done|]. cbn [checkType] in HC. case_decide as Hin.
  { injection HC as <-. split; [apply (walked_weaken (λ _, False) _ 0); [done|done|apply walked_refl]|done]. }
  set (st1 := mkState _ _ _ ({[t]} ∪ checked st) (errorCount st) (printed st)) in HC.
  assert (∃ from, walked from (lowerFields t) st1 st' ∧ (∀ v, from v → v ∈ children t) ∧ ∀ v, v ∈ children t → v ∈ checked st') as (from & [M D F C] & Hfrom & Hch).
  { unfold lowerFields, children. destruct (kindOf t) as [name fields|e|e|e|k e|b|].
    - destruct (fields_walked (checkType fuel) name fields st1 st' IH HC) as [? ?]. eexists. split_and!; [done|done|done].
    - destruct (IH _ _ _ HC) as [? ?]. eexists. split_and!; [done|intros v <-; by left|intros v ->%list_elem_of_singleton; done].
    - destruct (IH _ _ _ HC) as [? ?]. eexists. split_and!; [done|intros v <-; by left|intros v ->%list_elem_of_singleton; done].
    - destruct (IH _ _ _ HC) as [? ?]. eexists. split_and!; [done|intros v <-; by left|intros v ->%list_elem_of_singleton; done].
    - inv_bind HC. destruct (IH _ _ _ E) as [W1 H1], (IH _ _ _ HC) as [W2 H2]. eexists. split_and!; [exact (walked_trans _ _ _ _ _ _ _ W1 W2)| |].
      + intros v [<-| <-]; [by left|right; by left].
      + intros v [->| ->%list_elem_of_singleton]%elem_of_cons; [by apply (wk_mono _ _ _ _ W2)|done].
    - injection HC as <-. eexists. split_and!; [apply (walked_refl (λ _, False))|done|by intros ? ?%elem_of_nil].
    - injection HC as <-. eexists. split_and!; [apply (walked_refl (λ _, False))|done|by intros ? ?%elem_of_nil]. }
  cbn [st1 checked errorCount] in *. assert (t ∈ checked st') as Ht by set_solver. split; [|done]. split.
  - set_solver.
  - intros u v Hu Hu' Hv. destruct (decide (u = t)) as [->|Hne]; [by apply Hch|]. eapply D; [done|set_solver|done].
  - intros u [Hu|(v & Hv & Hr)]%F.
    + apply elem_of_union in Hu as [->%elem_of_singleton|?]; [right; exists t; split; [done|constructor]|by left].
    + right. exists t. split; [done|]. eapply reachable_trans; [|done]. eapply reach_step; [constructor|by apply Hfrom].
  - rewrite C. assert (checked st' ∖ checked st = {[t]} ∪ checked st' ∖ ({[t]} ∪ checked st)) as ->.
    { apply set_eq. intros x. destruct (decide (x = t)); set_solver. }
    rewrite total_union, total_singleton by set_solver. lia.
Qed.

(** Enough fuel: one more than the types not yet checked. *)
Lemma checkType_total (D : gset ty) fuel t st :
  (∀ u v, u ∈ D → v ∈ children u → v ∈ D) → t ∈ D → (size (D ∖ checked st) < fuel)%nat → ∃ st', checkType fuel t st = Some st'.
Proof.
  intros HD. revert t st. induction fuel as [|fuel IH]; intros t st Ht Hf; [lia|]. cbn [checkType]. case_decide as Hin; [by eexists|].
  set (st1 := mkState _ _ _ ({[t]} ∪ checked st) (errorCount st) (printed st)).
  assert (size (D ∖ checked st1) < fuel)%nat as Hf1.
  { assert (size (D ∖ checked st1) < size (D ∖ checked st))%nat; [|lia]. apply subset_size. cbn. set_solver. }
  assert (∀ u s, u ∈ children t → checked st1 ⊆ checked s → ∃ s', checkType fuel u s = Some s' ∧ checked st1 ⊆ checked s') as Hgo.
  { intros u s Hu Hs. destruct (IH u s) as [s' Hs']; [by eapply HD|eapply Nat.le_lt_trans; [|exact Hf1]; apply subseteq_size; set_solver|].
    exists s'. split; [done|]. destruct (checkType_walked _ _ _ _ Hs') as [[M _ _ _] _]. set_solver. }
  unfold children in Hgo. destruct (kindOf t) as [name fields|e|e|e|k e|b|]; [|..|by eexists|by eexists].
  - assert (∀ fs, fs ⊆ fields → ∃ s', foldl (λ acc f, st ← acc; checkType fuel f.2 (complain name f.1 st)) (Some st1) fs = Some s' ∧ checked st1 ⊆ checked s') as Hfs.
    { induction fs as [|f fs IHf] using rev_ind; intros Hsub; [by exists st1|]. destruct IHf as (s & Hs & Hm); [set_solver|]. rewrite foldl_app, Hs. cbn [foldl mbind option_bind].
      apply Hgo; [apply list_elem_of_fmap_2; set_solver|]. unfold complain. by destruct (upperFirst f.1). }
    destruct (Hfs fields) as (s & Hs & _); [done|eauto].
  - destruct (Hgo e st1) as (s & ? & _); [by left|done|eauto].
  - destruct (Hgo e st1) as (s & ? & _); [by left|done|eauto].
  - destruct (Hgo e st1) as (s & ? & _); [by left|done|eauto].
  - destruct (Hgo e st1) as (s & -> & Hm); [by left|done|]. cbn. destruct (Hgo k s) as (s' & ? & _); [right; by left|done|eauto].
Qed.

(** C37: labgob complains about every lower-case field, once.  When the types in the
    table [checked] were walked over with everything they consist of, and [D] holds the
    types [t] consists of, a walk over [t] with more fuel than types are left ends; then
    exactly the types [t] consists of have been added to the table, again with
    everything they consist of, and the error count has grown by the number of
    lower-case fields of the types added. *)
Theorem checkType_complete (D : gset ty) fuel t st :
  (∀ u v, u ∈ D → v ∈ children u → v ∈ D) → t ∈ D → (size (D ∖ checked st) < fuel)%nat →
  (∀ u v, u ∈ checked st → v ∈ children u → v ∈ checked st) →
  ∃ st', checkType fuel t st = Some st' ∧ (∀ u, u ∈ checked st' ↔ u ∈ checked st ∨ reachable t u) ∧
    errorCount st' = errorCount st + total (checked st' ∖ checked st) ∧
    ∀ u v, u ∈ checked st' → v ∈ children u → v ∈ checked st'.
Proof.
  intros HD Ht Hf Hcl. destruct (checkType_total D fuel t st HD Ht Hf) as [st' HC]. exists st'. destruct (checkType_walked _ _ _ _ HC) as [[M Dn F C] Hin].
  assert (∀ u v, u ∈ checked st' → v ∈ children u → v ∈ checked st') as Hcl'.
  { intros u v Hu Hv. destruct (decide (u ∈ checked st)); [apply M; by eapply Hcl|by eapply Dn]. }
  split_and!; [done| |lia|done]. intros u. split; [intros [?|(v & <- & ?)]%F; auto|]. intros [?|Hr]; [by apply M|]. induction Hr; [done|by eapply Hcl'].
Qed.

(** ** Warnings about variables *)

(** New variables of types whose fields are exported. *)
Inductive allZero : Value → Prop :=
  | az_struct fields : Forall (λ f, upperFirst f.1 = true ∧ allZero f.2) fields → allZero (VStruct fields)
  | az_nil : allZero (VPtr None)
  | az_ptr v : allZero v → allZero (VPtr (Some v))
  | az_basic tname : allZero (VBasic tname true)
  | az_other : allZero VOther.

(** Decoding into them neither warns nor panics. *)
Lemma checkDefault_zero v st : allZero v → checkDefault (Some v) st = Some st.
Proof.
  unfold checkDefault. generalize 3%nat EmptyString. intros k. revert v st. induction k as [|k IH]; intros v st name Hz; [done|].
  destruct Hz as [fields Hf| |v Hv| |]; cbn; [|done|by apply IH|done|done]. induction Hf as [|f fields [Hu Hz] _ IHf] in st |- *; [done|].
  cbn. rewrite Hu. cbn. rewrite IH by done. apply IHf.
Qed.

Lemma foldl_None {A B} (g : A → B → option A) l : foldl (λ acc x, a ← acc; g a x) None l = None.
Proof. by induction l. Qed.

Lemma checkDefault1_mono k name ro v st st' : checkDefault1 k name ro v st = Some st' → errorCount st <= errorCount st'.
Proof.
  revert name ro v st st'. induction k as [|k IH]; intros name ro v st st' HC; [by simplify_eq/=|]. destruct v as [fields|[v|]|tname []|]; cbn in HC; [|by eapply IH|destruct ro; simplify_eq/=; lia..].
  induction fields as [|f fields IHf] in st, HC |- *; [by simplify_eq/=|]. cbn in HC.
  destruct (checkDefault1 k _ _ f.2 st) as [s1|] eqn:E; [|by rewrite (foldl_None (λ st f, checkDefault1 _ _ _ f.2 st)) in HC]. etransitivity; [by eapply IH|by apply IHf].
Qed.

(** A basic field of the struct a reply points to that is not zero is counted, and one that
    is not exported panics. *)
Lemma checkDefault_field fields f tname isZero st st' : (f, VBasic tname isZero) ∈ fields →
  checkDefault (Some (VPtr (Some (VStruct fields)))) st = Some st' → upperFirst f = true ∧ (isZero = false → errorCount st < errorCount st').
Proof.
  intros Hin. change (checkDefault _ st) with (foldl (λ acc f, st ← acc; checkDefault1 1 (dotted "" f.1) (negb (upperFirst f.1)) f.2 st) (Some st) fields).
  revert st. induction fields as [|f' fields IH]; intros st HC; [by apply elem_of_nil in Hin|]. cbn [foldl mbind option_bind] in HC.
  destruct (checkDefault1 1 _ _ f'.2 st) as [s1|] eqn:E; [|by rewrite (foldl_None (λ st f, checkDefault1 _ _ _ f.2 st)) in HC].
  assert (errorCount s1 <= errorCount st') as Hfs.
  { clear -HC. induction fields as [|g fields IHf] in s1, HC |- *; [by simplify_eq/=|]. cbn [foldl mbind option_bind] in HC.
    destruct (checkDefault1 1 _ _ g.2 s1) as [s2|] eqn:E2; [|by rewrite (foldl_None (λ st f, checkDefault1 _ _ _ f.2 st)) in HC]. etransitivity; [by eapply checkDefault1_mono|by apply IHf]. }
  apply elem_of_cons in Hin as [<-|Hin].
  - cbn in E. destruct (upperFirst f); [|done]. split; [done|]. intros ->. cbn in E. simplify_eq/=. lia.
  - destruct (IH Hin s1 HC) as [? Hlt]. split; [done|]. intros Hz. apply checkDefault1_mono in E. specialize (Hlt Hz). lia.
Qed.

End check.

Module GobCheckExamples.

(** A list type that points to itself, with an exported and an unexported field. *)
Definition kinds (t : nat) : Kind nat :=
  match t with 0%nat => Struct "Node" [("Next", 1%nat); ("val", 2%nat)] | 1%nat => Ptr 0%nat | _ => Basic "int" end%string.

Lemma checkType_complete_witness :
  ∃ st', checkType kinds 4 0%nat (mkState _ _ _ ∅ 0 []) = Some st' ∧ errorCount st' = 0 + total kinds (checked st' ∖ ∅) ∧ errorCount st' = 1.
Proof.
  destruct (checkType_complete kinds {[0%nat; 1%nat; 2%nat]} 4 0%nat (mkState _ _ _ ∅ 0 [])) as (st' & HC & _ & HE & _).
  - intros u v Hu Hv. rewrite !elem_of_union, !elem_of_singleton in Hu. destruct Hu as [[->| ->]| ->]; cbn in Hv;
      rewrite ?elem_of_cons, ?elem_of_nil in Hv; rewrite !elem_of_union, !elem_of_singleton; tauto.
  - apply (bool_decide_unpack _). vm_compute. exact I.
  - vm_compute. lia.
  - intros u v Hu. apply elem_of_empty in Hu as [].
  - exists st'. split_and!; [exact HC|exact HE|].
    assert (errorCount <$> checkType kinds 4 0%nat (mkState _ _ _ ∅ 0 []) = Some 1) as Hx by (vm_compute; reflexivity). rewrite HC in Hx. cbn in Hx. congruence.
Defined.

(** A field that is not exported ends the program. *)
Lemma unexported_panics (st : State nat) : checkDefault (Some (VPtr (Some (VStruct [("a", VBasic "int" true)]%string)))) st = None.
Proof. reflexivity. Qed.

(** A field two structs down is below the depth the walk reaches. *)
Lemma deep_not_noticed (st : State nat) :
  checkDefault (Some (VPtr (Some (VStruct [("A", VStruct [("B", VBasic "int" false)])]%string)))) st = Some st.
Proof. reflexivity. Qed.

End GobCheckExamples.
