(* ===== verification/Persister.v ===== *)
(** * Stable storage: [raft/persister.go]

    A [Persister] keeps the last saved Raft state and the last saved service
    snapshot as byte strings ([nil] and the empty slice are both [[]]; every
    client tests [data == nil || len(data) < 1]).  Each operation is one
    critical section of [ps.mu]. *)

From S2P Require Import Prelude.

Record Persister := mkPersister { raftstate : bytes; snapshot : bytes }.

#[export] Instance eta_Persister : Eta Persister :=
  λ p, mkPersister (raftstate p) (snapshot p).
#[export] Instance set_raftstate : Setter raftstate.
Proof. setter. Defined.
#[export] Instance set_snapshot : Setter snapshot.
Proof. setter. Defined.

Definition MakePersister : Persister := mkPersister [] [].

(** [make([]byte, len(orig))] followed by [copy]: element by element. *)
Definition clone (orig : bytes) : bytes :=
  let x := replicate (length orig) Byte.x00 in
  take (length x) orig ++ drop (length orig) x.

Definition Copy (ps : Persister) : Persister :=
  MakePersister <| raftstate := raftstate ps |> <| snapshot := snapshot ps |>.

Definition SaveRaftState (state : bytes) (ps : Persister) : Persister :=
  ps <| raftstate := clone state |>.

Definition ReadRaftState (ps : Persister) : bytes := clone (raftstate ps).

Definition RaftStateSize (ps : Persister) : Z := zlen (raftstate ps).

Definition SaveStateAndSnapshot (state snap : bytes) (ps : Persister) : Persister :=
  ps <| raftstate := clone state |> <| snapshot := clone snap |>.

Definition ReadSnapshot (ps : Persister) : bytes := clone (snapshot ps).

Definition SnapshotSize (ps : Persister) : Z := zlen (snapshot ps).

(** ** Lemmas *)

Lemma clone_id b : clone b = b.
Proof.
  unfold clone. rewrite length_replicate, take_ge by lia.
  rewrite drop_ge by (rewrite length_replicate; lia). apply app_nil_r.
Qed.

Lemma Read_SaveRaftState b ps : ReadRaftState (SaveRaftState b ps) = b.
Proof. unfold ReadRaftState; simpl. by rewrite !clone_id. Qed.

Lemma ReadSnapshot_SaveRaftState b ps : ReadSnapshot (SaveRaftState b ps) = ReadSnapshot ps.
Proof. done. Qed.

Lemma Read_SaveStateAndSnapshot s b ps :
  ReadRaftState (SaveStateAndSnapshot s b ps) = s ∧
  ReadSnapshot (SaveStateAndSnapshot s b ps) = b.
Proof. unfold ReadRaftState, ReadSnapshot; simpl. by rewrite !clone_id. Qed.

Lemma raftstate_SaveRaftState b ps : raftstate (SaveRaftState b ps) = b.
Proof. simpl. apply clone_id. Qed.

Lemma raftstate_SaveStateAndSnapshot s b ps : raftstate (SaveStateAndSnapshot s b ps) = s.
Proof. simpl. apply clone_id. Qed.

#[export] Hint Rewrite clone_id Read_SaveRaftState ReadSnapshot_SaveRaftState
  raftstate_SaveRaftState raftstate_SaveStateAndSnapshot : go.
