(* ===== verification/Raft.v ===== *)
(** * One Raft peer: [raft/raft.go]

    The peer's struct, its RPC handlers, the code that runs on an RPC's reply,
    the bodies of its background loops and its constructor.  Every definition
    is one critical section of [rf.mu]: it maps the peer to the peer after the
    unlock, with the reply and the RPCs it sends.  [None] is a run-time panic. *)

From S2P Require Import Prelude LabGob Persister.

Section raft.
Context {Cmd : Type}.

(** ** Data *)

Record ApplyMsg := mkApplyMsg {
  CommandValid : bool;
  MsgCommand : option Cmd;       (* Command; the nil interface is None *)
  CommandIndex : Z;
  SnapshotValid : bool;
  Snapshot_ : bytes;             (* Snapshot *)
  SnapshotTerm : Z;
  SnapshotIndex : Z;
}.

Definition ApplyMsg0 : ApplyMsg := mkApplyMsg false None 0 false [] 0 0.

Record RaftLogEntry := mkEntry { Command : Cmd; Term : Z; Index : Z }.

Inductive Role := Leader | Follower | Candidate.

#[export] Instance role_eq_dec : EqDecision Role.
Proof. solve_decision. Defined.

#[export] Instance entry_eq_dec `{!EqDecision Cmd} : EqDecision RaftLogEntry.
Proof. solve_decision. Defined.
#[export] Instance wire_entry `{Wire Cmd} : Wire RaftLogEntry :=
  wire_iso (λ e, (Command e, Term e, Index e)) (λ p, mkEntry p.1.1 p.1.2 p.2)
    ltac:(by intros []).

(** [peers] is only used for its length and, through [sender] RPCs, by index;
    the condition variables carry no data. *)
Record Raft := mkRaft {
  npeers : Z;                    (* len(rf.peers) *)
  persister : Persister;
  me : Z;
  dead : Z;
  snapshotMsg : ApplyMsg;
  CurrentTerm : Z;
  VotedFor : Z;
  Logs : list RaftLogEntry;
  CommitIndex : Z;
  LastApplied : Z;
  NextIndex : list Z;
  MatchIndex : list Z;
  State : Role;
  LastReceive : Z;               (* nanoseconds *)
  ElectionTimeout : Z;           (* nanoseconds *)
  Half : Z;
  TotalNum : Z;
  LeaderTerm : Z;
  LastNewEntryIndex : Z;
  SnapshotLastIncludedIndex : Z;
  SnapshotLastIncludedTerm : Z;
}.

#[export] Instance eta_Raft : Eta Raft := λ r,
  mkRaft (npeers r) (persister r) (me r) (dead r) (snapshotMsg r) (CurrentTerm r)
    (VotedFor r) (Logs r) (CommitIndex r) (LastApplied r) (NextIndex r)
    (MatchIndex r) (State r) (LastReceive r) (ElectionTimeout r) (Half r)
    (TotalNum r) (LeaderTerm r) (LastNewEntryIndex r)
    (SnapshotLastIncludedIndex r) (SnapshotLastIncludedTerm r).
#[export] Instance set_persister : Setter persister.
Proof. setter. Defined.
#[export] Instance set_dead : Setter dead.
Proof. setter. Defined.
#[export] Instance set_snapshotMsg : Setter snapshotMsg.
Proof. setter. Defined.
#[export] Instance set_CurrentTerm : Setter CurrentTerm.
Proof. setter. Defined.
#[export] Instance set_VotedFor : Setter VotedFor.
Proof. setter. Defined.
#[export] Instance set_Logs : Setter Logs.
Proof. setter. Defined.
#[export] Instance set_CommitIndex : Setter CommitIndex.
Proof. setter. Defined.
#[export] Instance set_LastApplied : Setter LastApplied.
Proof. setter. Defined.
#[export] Instance set_NextIndex : Setter NextIndex.
Proof. setter. Defined.
#[export] Instance set_MatchIndex : Setter MatchIndex.
Proof. setter. Defined.
#[export] Instance set_State : Setter State.
Proof. setter. Defined.
#[export] Instance set_LastReceive : Setter LastReceive.
Proof. setter. Defined.
#[export] Instance set_ElectionTimeout : Setter ElectionTimeout.
Proof. setter. Defined.
#[export] Instance set_LeaderTerm : Setter LeaderTerm.
Proof. setter. Defined.
#[export] Instance set_LastNewEntryIndex : Setter LastNewEntryIndex.
Proof. setter. Defined.
#[export] Instance set_SnapshotLastIncludedIndex : Setter SnapshotLastIncludedIndex.
Proof. setter. Defined.
#[export] Instance set_SnapshotLastIncludedTerm : Setter SnapshotLastIncludedTerm.
Proof. setter. Defined.

Record AppendEntriesArgs := mkAEArgs {
  ae_Term : Z;
  ae_LeaderId : Z;
  ae_PrevLogIndex : Z;
  ae_PrevLogTerm : Z;
  ae_Entries : list RaftLogEntry;
  ae_LeaderCommit : Z;
}.

Record AppendEntriesReply := mkAEReply {
  aer_Term : Z;
  aer_Success : bool;
  aer_Conflict : bool;
  aer_ConflictTerm : Z;
  aer_ConflictIndex : Z;
}.

Record InstallSnapshotArg := mkISArgs {
  is_Term : Z;
  is_LeaderId : Z;
  is_LastIncludedIndex : Z;
  is_LastIncludedTerm : Z;
  is_Data : bytes;
}.

Record InstallSnapshotReply := mkISReply { isr_Term : Z; isr_Success : bool }.

Record RequestVoteArgs := mkRVArgs {
  rv_Term : Z;
  rv_CandidateId : Z;
  rv_LastLogIndex : Z;
  rv_LastLogTerm : Z;
}.

Record RequestVoteReply := mkRVReply { rvr_Term : Z; rvr_VoteGranted : bool }.

(** An RPC a critical section starts ([go rf.send...]) with its target. *)
Inductive Rpc :=
  | CallAppendEntries (server : Z) (args : AppendEntriesArgs)
  | CallInstallSnapshot (server : Z) (args : InstallSnapshotArg)
  | CallRequestVote (server : Z) (args : RequestVoteArgs).

(** The readings of the clock and of [rand.Intn(500)] a handler makes. *)
Record Env := mkEnv { now : Z; rnd : Z }.

Definition max (x y : Z) : Z := if x <? y then y else x.
Definition min (x y : Z) : Z := if x <? y then x else y.

Definition Millisecond : Z := 1000000.
Definition randElectionTimeout (rnd : Z) : Z := (rnd + 300) * Millisecond.

(** ** Persistence *)

(** What [persist] and [makeRaftState] encode, in their order. *)
Definition PersistentState : Type := Z * list RaftLogEntry * Z * Z * Z.

Context `{Gob PersistentState}.

Definition persist (rf : Raft) : Raft :=
  let data := gob_encode (CurrentTerm rf, Logs rf, VotedFor rf,
                SnapshotLastIncludedIndex rf, SnapshotLastIncludedTerm rf) in
  rf <| persister := SaveRaftState data (persister rf) |>.

Definition readPersist (data : bytes) (rf : Raft) : Raft :=
  if bool_decide (data = []) then rf
  else match gob_decode data with
  | None => rf
  | Some (currentTerm, logs, votedFor, sidx, sterm) =>
    rf <| CurrentTerm := currentTerm |> <| VotedFor := votedFor |> <| Logs := logs |>
       <| SnapshotLastIncludedIndex := sidx |> <| SnapshotLastIncludedTerm := sterm |>
       <| CommitIndex := sidx |> <| LastApplied := sidx |>
  end.

(** The step-down block that follows every sight of a larger term. *)
Definition stepDown (term : Z) (rf : Raft) : Raft :=
  persist (rf <| State := Follower |> <| CurrentTerm := term |> <| VotedFor := -1 |>
              <| LeaderTerm := term |> <| LastNewEntryIndex := CommitIndex rf |>).

(** ** AppendEntries *)

(** The head that [AppendEntries] and [InstallSnapshot] share once the term is
    not stale: become a follower, reset the timer, adopt the leader's term.
    The boolean is [stateChange]. *)
Definition acceptLeader (env : Env) (term : Z) (rf : Raft) : Raft * bool :=
  let rf := rf <| State := Follower |> <| LastReceive := now env |>
               <| ElectionTimeout := randElectionTimeout (rnd env) |> in
  let '(rf, stateChange) :=
    if negb (term =? LeaderTerm rf)
    then (rf <| LeaderTerm := term |> <| LastNewEntryIndex := CommitIndex rf |>
             <| VotedFor := -1 |>, true)
    else (rf, false) in
  if CurrentTerm rf <? term
  then (rf <| CurrentTerm := term |> <| VotedFor := -1 |> <| LeaderTerm := term |>
           <| LastNewEntryIndex := CommitIndex rf |>, true)
  else (rf, stateChange).

(** [for i := n-1; i >= 0; i--]: the index of the entry after the last one
    whose term differs from [prevTerm]; [ci] when there is none. *)
Fixpoint conflictScan (logs : list RaftLogEntry) (prevTerm ci : Z) (n : nat) : option Z :=
  match n with
  | O => Some ci
  | S i =>
    e ← logs !! i;
    if negb (Term e =? prevTerm)
    then e' ← logs !! S i; Some (Index e')
    else conflictScan logs prevTerm ci i
  end.

(** Step 2, the consistency check.  [Some None]: it passes; [Some (Some r)]: the
    conflict reply [r]. *)
Definition checkPrev (args : AppendEntriesArgs) (rf : Raft) (reply : AppendEntriesReply)
    : option (option AppendEntriesReply) :=
  let snap := SnapshotLastIncludedIndex rf in
  let endIndex := snap + zlen (Logs rf) in
  if ae_PrevLogIndex args <=? snap then Some None
  else if endIndex <? ae_PrevLogIndex args then
    Some (Some (mkAEReply (aer_Term reply) false true 0 endIndex))
  else
    e ← index (Logs rf) (ae_PrevLogIndex args - snap - 1);
    if negb (Term e =? ae_PrevLogTerm args) then
      ci ← conflictScan (Logs rf) (Term e) (Index e)
             (Z.to_nat (ae_PrevLogIndex args - snap));
      Some (Some (mkAEReply (aer_Term reply) false true (Term e) ci))
    else Some None.

(** Step 3's loop over [index] and [i]; [rest] is [args.Entries[i:]]. *)
Fixpoint skipMatching (logs : list RaftLogEntry) (idx : Z) (rest : list RaftLogEntry)
    : option (Z * list RaftLogEntry) :=
  match rest with
  | [] => Some (idx, [])
  | e :: rest' =>
    if idx <? zlen logs then
      if idx <? 0 then skipMatching logs (idx + 1) rest'
      else
        old ← index logs idx;
        if negb (Index old =? Index e) || negb (Term old =? Term e)
        then Some (idx, rest)
        else skipMatching logs (idx + 1) rest'
    else Some (idx, rest)
  end.

(** Steps 3 and 4: drop what conflicts, append what is missing. *)
Definition mergeEntries (args : AppendEntriesArgs) (rf : Raft) : option (Raft * bool) :=
  if zlen (ae_Entries args) =? 0 then Some (rf, false)
  else
    '(idx, rest) ← skipMatching (Logs rf)
        (ae_PrevLogIndex args - SnapshotLastIncludedIndex rf) (ae_Entries args);
    '(rf, stateChange) ←
      (if 0 <? zlen rest then
         kept ← slice (Logs rf) 0 idx;
         Some (rf <| Logs := kept ++ rest |>, true)
       else Some (rf, false));
    Some (rf <| LastNewEntryIndex :=
                  max (LastNewEntryIndex rf)
                      (ae_PrevLogIndex args + zlen (ae_Entries args)) |>,
          stateChange).

(** Step 5. *)
Definition advanceCommit (leaderCommit : Z) (rf : Raft) : Raft :=
  if CommitIndex rf <? leaderCommit
  then rf <| CommitIndex := min leaderCommit (LastNewEntryIndex rf) |>
  else rf.

Definition AppendEntries (env : Env) (args : AppendEntriesArgs) (rf : Raft)
    : option (Raft * AppendEntriesReply) :=
  let reply := mkAEReply (CurrentTerm rf) false false 0 0 in
  if ae_Term args <? CurrentTerm rf then Some (rf, reply)
  else
    let '(rf, change1) := acceptLeader env (ae_Term args) rf in
    conflict ← checkPrev args rf reply;
    match conflict with
    | Some reply => Some (rf, reply)
    | None =>
      '(rf, change2) ← mergeEntries args rf;
      let rf := advanceCommit (ae_LeaderCommit args) rf in
      let rf := if change1 || change2 then persist rf else rf in
      Some (rf, mkAEReply (aer_Term reply) true false 0 0)
    end.

(** The leading entries satisfying [p]: the two scanning loops of
    [sendAppendEntries]. *)
Fixpoint countWhile (p : RaftLogEntry → bool) (l : list RaftLogEntry) : nat :=
  match l with
  | [] => 0
  | e :: l => if p e then S (countWhile p l) else 0
  end.

(** [rf.NextIndex[server]] after a conflict reply. *)
Definition conflictNext (reply : AppendEntriesReply) (rf : Raft) : option Z :=
  let ct := aer_ConflictTerm reply in
  if negb (ct =? 0) then
    let i := countWhile (λ e, negb (Term e =? ct)) (Logs rf) in
    if (i <? length (Logs rf))%nat then
      let j := (i + countWhile (λ e, (Term e =? ct)%Z) (drop i (Logs rf)))%nat in
      e ← index (Logs rf) (Z.of_nat j);
      Some (Index e)
    else Some (aer_ConflictIndex reply)
  else Some (max (aer_ConflictIndex reply) 1).

(** [sendAppendEntries] once [Call] has returned [ok]; a lost RPC leaves the
    zero reply. *)
Definition sendAppendEntries (server : Z) (args : AppendEntriesArgs)
    (ok : bool) (reply : AppendEntriesReply) (rf : Raft) : option (Raft * bool) :=
  if CurrentTerm rf <? aer_Term reply then Some (stepDown (aer_Term reply) rf, false)
  else if aer_Term reply <? CurrentTerm rf then Some (rf, false)
  else if CurrentTerm rf =? ae_Term args then
    if aer_Success reply then
      m ← index (MatchIndex rf) server;
      mi ← store (MatchIndex rf) server
             (max m (ae_PrevLogIndex args + zlen (ae_Entries args)));
      n ← index (NextIndex rf) server;
      ni ← store (NextIndex rf) server
             (max n (ae_PrevLogIndex args + zlen (ae_Entries args) + 1));
      Some (rf <| MatchIndex := mi |> <| NextIndex := ni |>, ok)
    else if aer_Conflict reply then
      n ← index (NextIndex rf) server;
      if n =? ae_PrevLogIndex args + 1 then
        n' ← conflictNext reply rf;
        ni ← store (NextIndex rf) server n';
        Some (rf <| NextIndex := ni |>, ok)
      else Some (rf, ok)
    else Some (rf, ok)
  else Some (rf, ok).

Definition GetState (rf : Raft) : Z * bool :=
  (CurrentTerm rf, bool_decide (State rf = Leader)).

(** ** Snapshots *)

Definition CondInstallSnapshot (lastIncludedTerm lastIncludedIndex : Z)
  (snap : bytes) : bool := true.

Definition makeRaftState (upperbound : Z) (rf : Raft)
    : option (bytes * list RaftLogEntry * Z * Z) :=
  let logs := Logs rf in
  let length := zlen logs in
  let si := SnapshotLastIncludedIndex rf in
  let st := SnapshotLastIncludedTerm rf in
  '(logs, si, st) ←
    (if length =? 0 then Some (logs, si, st)
     else
       e0 ← index logs 0;
       if upperbound <=? Index e0 then Some (logs, si, st)
       else
         let startIndex := upperbound - Index e0 in
         '(si, st) ←
           (if 0 <? startIndex then
              e ← index logs (min startIndex length - 1);
              Some (Index e, Term e)
            else Some (si, st));
         logs ← slice_from logs (min startIndex length);
         Some (logs, si, st));
  let si := max si (upperbound - 1) in
  let data := gob_encode (CurrentTerm rf, logs, VotedFor rf, si, st) in
  Some (data, logs, si, st).

Definition InstallSnapshot (env : Env) (args : InstallSnapshotArg) (rf : Raft)
    : option (Raft * InstallSnapshotReply) :=
  let reply := mkISReply (CurrentTerm rf) false in
  if is_Term args <? CurrentTerm rf then Some (rf, reply)
  else
    let '(rf, _) := acceptLeader env (is_Term args) rf in
    let reply := mkISReply (isr_Term reply) true in
    if (is_LastIncludedIndex args <=? SnapshotLastIncludedIndex rf)
       || (is_LastIncludedIndex args <? SnapshotIndex (snapshotMsg rf))
    then Some (persist rf, reply)
    else
      let rf := rf <| snapshotMsg :=
        mkApplyMsg false None 0 true (is_Data args) (is_LastIncludedTerm args)
          (is_LastIncludedIndex args) |> in
      '(raftstate, logs, _, _) ← makeRaftState (is_LastIncludedIndex args + 1) rf;
      let rf := rf <| persister :=
                  SaveStateAndSnapshot raftstate (is_Data args) (persister rf) |>
        <| Logs := logs |>
        <| SnapshotLastIncludedIndex := is_LastIncludedIndex args |>
        <| SnapshotLastIncludedTerm := is_LastIncludedTerm args |> in
      let rf := rf
        <| CommitIndex := max (CommitIndex rf) (is_LastIncludedIndex args) |>
        <| LastApplied := max (LastApplied rf) (is_LastIncludedIndex args) |> in
      Some (rf, reply).

Definition sendInstallSnapshot (server : Z) (args : InstallSnapshotArg)
    (ok : bool) (reply : InstallSnapshotReply) (rf : Raft) : option (Raft * bool) :=
  if CurrentTerm rf <? isr_Term reply then Some (stepDown (isr_Term reply) rf, false)
  else if isr_Term reply <? CurrentTerm rf then Some (rf, false)
  else if (CurrentTerm rf =? is_Term args) && isr_Success reply then
    m ← index (MatchIndex rf) server;
    mi ← store (MatchIndex rf) server (max m (is_LastIncludedIndex args));
    n ← index (NextIndex rf) server;
    ni ← store (NextIndex rf) server (max n (is_LastIncludedIndex args + 1));
    Some (rf <| MatchIndex := mi |> <| NextIndex := ni |>, ok)
  else Some (rf, ok).

(** [advanceToIndex] has no caller left in the program. *)
Definition advanceToIndex (idx : Z) (rf : Raft) : option Raft :=
  if idx <=? SnapshotLastIncludedIndex rf then Some rf
  else if zlen (Logs rf) =? 0 then Some rf
  else
    e0 ← index (Logs rf) 0;
    let startIndex := idx - Index e0 in
    rf ←
      (if 0 <? startIndex then
         e ← index (Logs rf) (min startIndex (zlen (Logs rf)) - 1);
         Some (rf <| SnapshotLastIncludedIndex := Index e |>
                  <| SnapshotLastIncludedTerm := Term e |>)
       else Some rf);
    logs ← slice_from (Logs rf) (min startIndex (zlen (Logs rf)));
    Some (rf <| Logs := logs |>).

(** The service has a snapshot of everything up to [idx]. *)
Definition Snapshot (idx : Z) (snap : bytes) (rf : Raft) : option Raft :=
  if idx <? SnapshotLastIncludedIndex rf then Some rf
  else
    '(raftstate, logs, si, st) ← makeRaftState (idx + 1) rf;
    let rf := rf <| persister := SaveStateAndSnapshot raftstate snap (persister rf) |>
                 <| Logs := logs |> <| SnapshotLastIncludedIndex := si |>
                 <| SnapshotLastIncludedTerm := st |> in
    Some (rf <| CommitIndex := max (CommitIndex rf) idx |>
             <| LastApplied := max (LastApplied rf) idx |>
             <| SnapshotLastIncludedIndex := max (SnapshotLastIncludedIndex rf) idx |>).

Definition GetRaftStateSize (rf : Raft) : Z := RaftStateSize (persister rf).

(** ** Elections *)

(** Index and term of the last entry, the snapshot's when the log is empty. *)
Definition lastLog (rf : Raft) : option (Z * Z) :=
  if negb (zlen (Logs rf) =? 0)
  then e ← last_entry (Logs rf); Some (Index e, Term e)
  else Some (SnapshotLastIncludedIndex rf, SnapshotLastIncludedTerm rf).

Definition RequestVote (env : Env) (args : RequestVoteArgs) (rf : Raft)
    : option (Raft * RequestVoteReply) :=
  let reply := mkRVReply (CurrentTerm rf) false in
  if rv_Term args <? CurrentTerm rf then Some (rf, reply)
  else
    let rf := if CurrentTerm rf <? rv_Term args then stepDown (rv_Term args) rf else rf in
    if (VotedFor rf =? -1) || (VotedFor rf =? rv_CandidateId args) then
      '(lastLogIndex, lastLogTerm) ← lastLog rf;
      if rv_LastLogTerm args <? lastLogTerm then Some (rf, reply)
      else if (rv_LastLogTerm args =? lastLogTerm)
              && (rv_LastLogIndex args <? lastLogIndex) then Some (rf, reply)
      else
        Some (persist (rf <| VotedFor := rv_CandidateId args |>
                          <| LastReceive := now env |>
                          <| ElectionTimeout := randElectionTimeout (rnd env) |>),
              mkRVReply (rvr_Term reply) true)
    else Some (rf, reply).

Definition prepareElection (env : Env) (rf : Raft) : option (Raft * RequestVoteArgs) :=
  let rf := rf <| CurrentTerm := CurrentTerm rf + 1 |> <| VotedFor := me rf |>
               <| State := Candidate |> <| LastReceive := now env |>
               <| ElectionTimeout := randElectionTimeout (rnd env) |> in
  '(lastLogIndex, lastLogTerm) ← lastLog rf;
  Some (persist rf, mkRVArgs (CurrentTerm rf) (me rf) lastLogIndex lastLogTerm).

(** [sendHeartBeat]'s argument for one peer. *)
Definition heartBeatArgs (i : Z) (rf : Raft) : option AppendEntriesArgs :=
  let snap := SnapshotLastIncludedIndex rf in
  ni ← index (NextIndex rf) i;
  '(pi, pt) ←
    (if negb (zlen (Logs rf) =? 0) && (snap + 1 <? ni) then
       e ← index (Logs rf) (ni - snap - 2);
       Some (Index e, Term e)
     else Some (snap, SnapshotLastIncludedTerm rf));
  Some (mkAEArgs (CurrentTerm rf) (me rf) pi pt [] (CommitIndex rf)).

Definition sendHeartBeat (rf : Raft) : option (list Rpc) :=
  mapM (λ i, args ← heartBeatArgs i rf; Some (CallAppendEntries i args))
       (filter (λ i, i ≠ me rf) (upto (TotalNum rf))).

(** [becomeLeader]: the leader's volatile state and the first heartbeats.  The
    loops it starts, [replicateLog] for every peer and [updateCommitIndex], are
    tied to the current term. *)
Definition becomeLeader (rf : Raft) : option (Raft * list Rpc) :=
  '(lastLogIndex, _) ← lastLog rf;
  let n := length (NextIndex rf) in
  mi ← (if (n <=? length (MatchIndex rf))%nat
        then Some (imap (λ i _, if Z.of_nat i =? me rf then lastLogIndex else 0)
                        (take n (MatchIndex rf))
                   ++ drop n (MatchIndex rf))
        else None);
  let rf := rf <| MatchIndex := mi |>
               <| NextIndex := (λ _, lastLogIndex + 1) <$> NextIndex rf |> in
  calls ← sendHeartBeat rf;
  Some (rf, calls).

(** The closure variables of one run of [issueLeaderElection]. *)
Record Election := mkElection { el_args : RequestVoteArgs; votes : Z; done : bool }.

#[export] Instance eta_Election : Eta Election :=
  λ e, mkElection (el_args e) (votes e) (done e).
#[export] Instance set_votes : Setter votes.
Proof. setter. Defined.
#[export] Instance set_done : Setter done.
Proof. setter. Defined.

Definition issueLeaderElection (args : RequestVoteArgs) (rf : Raft)
    : Election * list Rpc :=
  (mkElection args 1 false,
   (λ i, CallRequestVote i args) <$> filter (λ i, i ≠ me rf) (upto (npeers rf))).

(** The goroutine of [issueLeaderElection] after its RPC has returned.  The
    boolean tells that [becomeLeader] ran. *)
Definition voteReply (ok : bool) (reply : RequestVoteReply) (el : Election) (rf : Raft)
    : option (Raft * Election * bool * list Rpc) :=
  if negb ok then Some (rf, el, false, [])
  else if rvr_VoteGranted reply then
    let el := el <| votes := votes el + 1 |> in
    if done el || (votes el <=? Half rf) then Some (rf, el, false, [])
    else if negb (CurrentTerm rf =? rv_Term (el_args el)) then Some (rf, el, false, [])
    else
      '(rf, calls) ← becomeLeader (rf <| State := Leader |>);
      Some (rf, el <| done := true |>, true, calls)
  else if CurrentTerm rf <? rvr_Term reply
    then Some (stepDown (rvr_Term reply) rf, el, false, [])
  else Some (rf, el, false, []).

(** One round of [ticker]. *)
Definition ticker (env : Env) (rf : Raft) : option (Raft * option Election * list Rpc) :=
  match State rf with
  | Leader => calls ← sendHeartBeat rf; Some (rf, None, calls)
  | Follower | Candidate =>
    if ElectionTimeout rf <? now env - LastReceive rf then
      '(rf, args) ← prepareElection env rf;
      let '(el, calls) := issueLeaderElection args rf in
      Some (rf, Some el, calls)
    else Some (rf, None, [])
  end.

(** ** Replication *)

Definition Start (command : Cmd) (rf : Raft) : option (Raft * (Z * Z * bool)) :=
  if negb (bool_decide (State rf = Leader)) then Some (rf, (-1, -1, false))
  else
    idx ← (if negb (zlen (Logs rf) =? 0)
           then e ← last_entry (Logs rf); Some (Index e + 1)
           else Some (SnapshotLastIncludedIndex rf + 1));
    let entry := mkEntry command (CurrentTerm rf) idx in
    let rf := rf <| Logs := Logs rf ++ [entry] |> in
    ni ← store (NextIndex rf) (me rf) (Index entry + 1);
    mi ← store (MatchIndex rf) (me rf) (Index entry);
    Some (persist (rf <| NextIndex := ni |> <| MatchIndex := mi |>),
          (Index entry, Term entry, true)).

(** One round of [replicateLog]; [Some None] when the loop returns. *)
Definition replicateLog (server leaderTerm : Z) (rf : Raft) : option (option (list Rpc)) :=
  if negb (CurrentTerm rf =? leaderTerm) then Some None
  else
    let snap := SnapshotLastIncludedIndex rf in
    ni ← index (NextIndex rf) server;
    mine ← index (NextIndex rf) (me rf);
    if ni =? mine then Some (Some [])
    else if ni <=? snap then
      Some (Some [CallInstallSnapshot server
        (mkISArgs (CurrentTerm rf) (me rf) snap (SnapshotLastIncludedTerm rf)
           (snapshot (persister rf)))])
    else
      entries ← slice_from (Logs rf) (ni - snap - 1);
      '(pi, pt) ←
        (if negb (ni =? snap + 1) then
           e ← index (Logs rf) (ni - snap - 2);
           Some (Index e, Term e)
         else Some (snap, SnapshotLastIncludedTerm rf));
      Some (Some [CallAppendEntries server
        (mkAEArgs (CurrentTerm rf) (me rf) pi pt entries (CommitIndex rf))]).

(** The inner loop of [updateCommitIndex] from peer [j] on, [fuel] peers left:
    it stops as soon as [count > rf.Half]. *)
Fixpoint countMatch (rf : Raft) (target : Z) (count : Z) (peers : list Z) : option Z :=
  match peers with
  | [] => Some count
  | j :: peers =>
    m ← index (MatchIndex rf) j;
    let count := if target <=? m then count + 1 else count in
    if Half rf <? count then Some count else countMatch rf target count peers
  end.

(** The outer loop, [for i := n-1; i >= 0; i--]. *)
Fixpoint commitScan (leaderTerm : Z) (rf : Raft) (n : nat) : option Raft :=
  match n with
  | O => Some rf
  | S i =>
    e ← Logs rf !! i;
    if negb (Term e =? leaderTerm) then Some rf
    else
      count ← countMatch rf (Index e) 0 (upto (npeers rf));
      if Half rf <? count
      then Some (rf <| CommitIndex := max (CommitIndex rf) (Index e) |>)
      else commitScan leaderTerm rf i
  end.

(** One round of [updateCommitIndex]; [Some None] when the loop returns. *)
Definition updateCommitIndex (leaderTerm : Z) (rf : Raft) : option (option Raft) :=
  if negb (CurrentTerm rf =? leaderTerm) then Some None
  else rf ← commitScan leaderTerm rf (length (Logs rf)); Some (Some rf).

(** ** Applying *)

Definition applyWaits (rf : Raft) : bool :=
  (CommitIndex rf <=? LastApplied rf) && (SnapshotIndex (snapshotMsg rf) =? 0).

(** First critical section of a round of [applyLog], once it stops waiting:
    what will be sent on [applyCh], and the entries it covers. *)
Definition applyLogTake (rf : Raft) : option (Raft * list ApplyMsg * list RaftLogEntry) :=
  applyLogs ←
    (if negb (max 0 (CommitIndex rf - LastApplied rf) =? 0) then
       slice (Logs rf) (LastApplied rf - SnapshotLastIncludedIndex rf)
                       (CommitIndex rf - SnapshotLastIncludedIndex rf)
     else Some []);
  let si := SnapshotIndex (snapshotMsg rf) in
  let msgs := (if negb (si =? 0) then [snapshotMsg rf] else [])
    ++ ((λ e, mkApplyMsg true (Some (Command e)) (Index e) false [] 0 0) <$>
        filter (λ e, si = 0 ∨ si < Index e) applyLogs) in
  Some (rf <| snapshotMsg := ApplyMsg0 |>, msgs, applyLogs).

(** Second critical section, after the sends. *)
Definition applyLogDone (applyLogs : list RaftLogEntry) (rf : Raft) : Raft :=
  match last_entry applyLogs with
  | Some e => rf <| LastApplied := max (LastApplied rf) (Index e) |>
  | None => rf
  end.

(** ** Life cycle *)

Definition Kill (rf : Raft) : Raft := rf <| dead := 1 |>.
Definition killed (rf : Raft) : bool := dead rf =? 1.

Definition Make (env : Env) (peers my : Z) (ps : Persister) : Raft :=
  let zeros := replicate (Z.to_nat peers) 0 in
  let rf := mkRaft peers ps my 0 ApplyMsg0 0 (-1) [] 0 0 zeros zeros Follower
              (now env) (randElectionTimeout (rnd env)) (peers / 2) peers
              (-1) 0 0 0 in
  readPersist (ReadRaftState ps) rf.

End raft.

Arguments ApplyMsg : clear implicits.
Arguments RaftLogEntry : clear implicits.
Arguments Raft : clear implicits.
Arguments AppendEntriesArgs : clear implicits.
Arguments Rpc : clear implicits.
Arguments PersistentState : clear implicits.
