(* ===== verification/RaftLog.v ===== *)
(** * The log of a Raft peer

    Well-formedness of a peer, that every operation keeps it and does not
    panic, and what each operation does to the log: the merge of
    [AppendEntries], conflict replies and the leader's back-up, snapshots,
    commitment and delivery. *)

From S2P Require Import Prelude LabGob Persister Raft.

Section raft_log.
Context {Cmd : Type} `{!Gob (PersistentState Cmd)}.
Implicit Types (rf : Raft Cmd) (e : RaftLogEntry Cmd) (l logs : list (RaftLogEntry Cmd)).

(** ** Views of a peer *)

(** The entry a peer holds at a log index, and the term it knows for one (its
    snapshot's at the snapshot's index). *)
Definition entryAt rf (i : Z) : option (RaftLogEntry Cmd) :=
  index (Logs rf) (i - SnapshotLastIncludedIndex rf - 1).

Definition termAt rf (i : Z) : option Z :=
  if i =? SnapshotLastIncludedIndex rf then Some (SnapshotLastIncludedTerm rf)
  else Term <$> entryAt rf i.

Definition lastIndex rf : Z := SnapshotLastIncludedIndex rf + zlen (Logs rf).

(** Entries numbered consecutively from [base + 1]. *)
Definition contiguous (base : Z) l : Prop :=
  ∀ i e, index l i = Some e → Index e = base + 1 + i.

(** What an operation must keep for its log to be readable: a snapshot index
    that is a log index, a log numbered from it, and leader arrays with one slot
    for every peer. *)
Record wf rf : Prop := {
  wf_snap : 0 <= SnapshotLastIncludedIndex rf;
  wf_log : contiguous (SnapshotLastIncludedIndex rf) (Logs rf);
  wf_me : 0 <= me rf < npeers rf;
  wf_next : zlen (NextIndex rf) = npeers rf;
  wf_match : zlen (MatchIndex rf) = npeers rf;
  wf_half : Half rf = npeers rf / 2;
  wf_total : TotalNum rf = npeers rf;
}.

Definition log_view rf :=
  (Logs rf, SnapshotLastIncludedIndex rf, SnapshotLastIncludedTerm rf).

Definition peer_view rf :=
  (npeers rf, me rf, NextIndex rf, MatchIndex rf, Half rf, TotalNum rf).

(** ** Contiguous logs *)

Lemma contiguous_nil b : contiguous b [].
Proof. intros i e Hi. apply index_lt in Hi. change (zlen []) with 0 in Hi. lia. Qed.

Lemma contiguous_app b l1 l2 :
  contiguous b (l1 ++ l2) ↔ contiguous b l1 ∧ contiguous (b + zlen l1) l2.
Proof.
  split.
  - intros H; split; intros i e Hi; pose proof (index_lt _ _ _ Hi).
    + apply H. rewrite index_app_l; [done|lia].
    + pose proof (zlen_nonneg l1). specialize (H (zlen l1 + i) e).
      rewrite index_app_r in H by lia.
      replace (zlen l1 + i - zlen l1) with i in H by lia. specialize (H Hi). lia.
  - intros [H1 H2] i e Hi. destruct (Z.lt_ge_cases i (zlen l1)).
    + apply H1. by rewrite index_app_l in Hi by lia.
    + rewrite index_app_r in Hi by lia. apply H2 in Hi. lia.
Qed.

Lemma contiguous_cons b e l : contiguous b (e :: l) ↔ Index e = b + 1 ∧ contiguous (b + 1) l.
Proof.
  change (e :: l) with ([e] ++ l). rewrite contiguous_app. autorewrite with golen.
  rewrite Z.add_0_l. split; intros [H1 H2]; (split; [|done]).
  - rewrite (H1 0 e) by done. lia.
  - intros i e' Hi. pose proof (index_lt _ _ _ Hi) as Hlt. autorewrite with golen in Hlt.
    assert (i = 0) as -> by lia. injection Hi as <-. lia.
Qed.

Lemma contiguous_take b n l : contiguous b l → contiguous b (take n l).
Proof. intros H. rewrite <-(take_drop n l) in H. by apply contiguous_app in H as [? _]. Qed.

Lemma contiguous_drop b n l :
  Z.of_nat n <= zlen l → contiguous b l → contiguous (b + Z.of_nat n) (drop n l).
Proof.
  intros Hn H. rewrite <-(take_drop n l) in H. apply contiguous_app in H as [_ H].
  autorewrite with golen in H. by rewrite Z.min_l in H by lia.
Qed.

Lemma contiguous_last b l e : contiguous b l → last_entry l = Some e → Index e = b + zlen l.
Proof. intros H He. rewrite (H _ _ He). lia. Qed.

Lemma wf_views rf rf' :
  log_view rf' = log_view rf → peer_view rf' = peer_view rf → wf rf → wf rf'.
Proof.
  unfold log_view, peer_view. intros [= H1 H2 H3] [= H4 H5 H6 H7 H8 H9] [].
  split; rewrite ?H1, ?H2, ?H4, ?H5, ?H6, ?H7, ?H8, ?H9; done.
Qed.

Lemma wf_log_view rf rf' logs si :
  Logs rf' = logs → SnapshotLastIncludedIndex rf' = si →
  peer_view rf' = peer_view rf → 0 <= si → contiguous si logs → wf rf → wf rf'.
Proof.
  unfold peer_view. intros <- <- [= H4 H5 H6 H7 H8 H9] ?? [].
  split; rewrite ?H4, ?H5, ?H6, ?H7, ?H8, ?H9; done.
Qed.

Lemma entryAt_Index rf i e : wf rf → entryAt rf i = Some e → Index e = i.
Proof. intros W H. rewrite (wf_log _ W _ _ H). lia. Qed.

Lemma entryAt_range rf i e :
  entryAt rf i = Some e → SnapshotLastIncludedIndex rf < i <= lastIndex rf.
Proof. intros H%index_lt. unfold lastIndex. lia. Qed.

Lemma entryAt_is_Some rf i :
  SnapshotLastIncludedIndex rf < i <= lastIndex rf → ∃ e, entryAt rf i = Some e.
Proof. intros. apply index_is_Some. unfold lastIndex in *. lia. Qed.

Lemma lastLog_spec rf :
  wf rf → ∃ t, lastLog rf = Some (lastIndex rf, t) ∧ termAt rf (lastIndex rf) = Some t.
Proof.
  intros W. unfold lastLog, termAt, lastIndex. destruct (Logs rf) as [|e0 l] eqn:El.
  - exists (SnapshotLastIncludedTerm rf). change (zlen []) with 0. rewrite Z.add_0_r.
    by rewrite !Z.eqb_refl.
  - destruct (index_is_Some (e0 :: l) (zlen (e0 :: l) - 1)) as [e He].
    { pose proof (zlen_nonneg l). autorewrite with golen. lia. }
    unfold last_entry. rewrite He. simpl. exists (Term e).
    rewrite zlen_cons in *. pose proof (zlen_nonneg l).
    destruct (Z.eqb_spec (zlen l + 1) 0) as [|_]; [lia|].
    destruct (Z.eqb_spec (SnapshotLastIncludedIndex rf + (zlen l + 1))
                (SnapshotLastIncludedIndex rf)) as [|_]; [lia|].
    pose proof (wf_log _ W) as C. rewrite El in C. rewrite (C _ _ He). simpl.
    split; [do 2 f_equal; lia|]. unfold entryAt. rewrite El.
    replace (_ - _ - 1) with (zlen l + 1 - 1) by lia. by rewrite He.
Qed.

(** ** Merging entries into the log *)

(** What [skipMatching] establishes: [pre] is the part of the new entries the
    log already has, [rest] is empty or starts where the log ends or differs. *)
Record skip_spec logs (idx : Z) (entries pre rest : list (RaftLogEntry Cmd)) : Prop := {
  sk_split : entries = pre ++ rest;
  sk_have : ∀ k e, index pre k = Some e → 0 <= idx + k →
    ∃ old, index logs (idx + k) = Some old ∧ Term old = Term e;
  sk_le : idx + zlen pre <= zlen logs;
  sk_stop : rest = [] ∨ 0 <= idx + zlen pre ∧
    (idx + zlen pre = zlen logs ∨
     ∃ old e r, rest = e :: r ∧ index logs (idx + zlen pre) = Some old ∧ Term old ≠ Term e);
}.

Lemma skip_spec_nil logs idx entries :
  idx <= zlen logs →
  (entries = [] ∨ 0 <= idx ∧ (idx = zlen logs ∨
     ∃ old e r, entries = e :: r ∧ index logs idx = Some old ∧ Term old ≠ Term e)) →
  skip_spec logs idx entries [] entries.
Proof.
  intros Hle Hs. split; [done| | |]; change (zlen []) with 0; rewrite ?Z.add_0_r; [|done..].
  intros k e Hk%index_lt. change (zlen []) with 0 in Hk. lia.
Qed.

Lemma skip_spec_cons logs idx e entries pre rest :
  (0 <= idx → ∃ old, index logs idx = Some old ∧ Term old = Term e) →
  skip_spec logs (idx + 1) entries pre rest →
  skip_spec logs idx (e :: entries) (e :: pre) rest.
Proof.
  intros He [-> Hh Hle Hs].
  split; [done| | |]; autorewrite with golen;
    replace (idx + (zlen pre + 1)) with (idx + 1 + zlen pre) by lia; [|done..].
  intros k e' Hk Hk0. pose proof (index_lt _ _ _ Hk).
  destruct (Z.eq_dec k 0) as [->|].
  - injection Hk as <-. rewrite Z.add_0_r in *. auto.
  - specialize (Hh (k - 1) e').
    replace (idx + 1 + (k - 1)) with (idx + k) in Hh by lia. apply Hh; [|done].
    change (e :: pre) with ([e] ++ pre) in Hk.
    by rewrite index_app_r in Hk by (change (zlen [e]) with 1; lia).
Qed.

Lemma skipMatching_spec base logs idx entries :
  contiguous base logs → contiguous (base + idx) entries → idx <= zlen logs →
  ∃ pre rest, skipMatching logs idx entries = Some (idx + zlen pre, rest) ∧
              skip_spec logs idx entries pre rest.
Proof.
  intros Hl. revert idx. induction entries as [|e entries IH]; intros idx He Hle; simpl.
  { exists [], []. change (zlen []) with 0. rewrite Z.add_0_r. split; [done|].
    apply skip_spec_nil; auto. }
  apply contiguous_cons in He as [Hi He]. rewrite <-Z.add_assoc in He.
  destruct (Z.ltb_spec idx (zlen logs)).
  2:{ exists [], (e :: entries). change (zlen []) with 0. rewrite Z.add_0_r. split; [done|].
      apply skip_spec_nil; [done|]. right. pose proof (zlen_nonneg logs). split; [lia|].
      left. lia. }
  destruct (IH (idx + 1) He ltac:(lia)) as (pre & rest & Hs & Hsp).
  assert (idx + zlen (e :: pre) = idx + 1 + zlen pre) as Hz by (autorewrite with golen; lia).
  destruct (Z.ltb_spec idx 0).
  { exists (e :: pre), rest. rewrite Hz. split; [done|]. apply skip_spec_cons; [lia|done]. }
  destruct (index_is_Some logs idx) as [old Hold]; [lia|]. rewrite Hold. simpl.
  rewrite (Hl _ _ Hold), Hi.
  replace (base + 1 + idx =? base + idx + 1) with true by (symmetry; apply Z.eqb_eq; lia).
  destruct (Z.eqb_spec (Term old) (Term e)) as [Ht|Ht]; simpl.
  - exists (e :: pre), rest. rewrite Hz. split; [done|]. apply skip_spec_cons; eauto.
  - exists [], (e :: entries). change (zlen []) with 0. rewrite Z.add_0_r. split; [done|].
    apply skip_spec_nil; [done|]. right. split; [lia|]. right. eauto 10.
Qed.

(** The log [rf'] is the log [rf] after the entries that follow [prev] were
    merged into it by the rules of the Raft paper: nothing up to [prev]
    changes, every new entry beyond the snapshot is present, entries are removed
    only when one of them conflicts, and then everything after the new ones is. *)
Record merged rf rf' (prev : Z) (entries : list (RaftLogEntry Cmd)) : Prop := {
  mg_snap : SnapshotLastIncludedIndex rf' = SnapshotLastIncludedIndex rf ∧
            SnapshotLastIncludedTerm rf' = SnapshotLastIncludedTerm rf;
  mg_below : ∀ i, i <= prev → entryAt rf' i = entryAt rf i;
  mg_have : ∀ e, e ∈ entries → SnapshotLastIncludedIndex rf < Index e →
    ∃ e', entryAt rf' (Index e) = Some e' ∧ Term e' = Term e ∧
          (e' = e ∨ entryAt rf (Index e) = Some e');
  mg_keep : (∀ e old, e ∈ entries → entryAt rf (Index e) = Some old → Term old = Term e) →
    ∃ suffix, Logs rf' = Logs rf ++ suffix;
  mg_len : lastIndex rf' = prev + zlen entries ∨
           Logs rf' = Logs rf ∧ prev + zlen entries <= lastIndex rf;
}.

Section merge.
Context rf rf' (prev : Z) (entries pre rest : list (RaftLogEntry Cmd)).
Let idx := prev - SnapshotLastIncludedIndex rf.
Hypothesis W : wf rf.
Hypothesis He : contiguous prev entries.
Hypothesis Hskip : skip_spec (Logs rf) idx entries pre rest.
Hypothesis Hs1 : SnapshotLastIncludedIndex rf' = SnapshotLastIncludedIndex rf.
Hypothesis Hs2 : SnapshotLastIncludedTerm rf' = SnapshotLastIncludedTerm rf.

Lemma merge_pre_contiguous : contiguous prev pre ∧ contiguous (prev + zlen pre) rest.
Proof. rewrite (sk_split _ _ _ _ _ Hskip) in He. by apply contiguous_app. Qed.

(** The new entries [pre] stand for are in the old log, by term. *)
Lemma merge_pre_have e :
  e ∈ pre → SnapshotLastIncludedIndex rf < Index e →
  ∃ old, entryAt rf (Index e) = Some old ∧ Term old = Term e ∧ Index e <= prev + zlen pre.
Proof.
  intros [k Hk]%elem_of_index Hse. pose proof (proj1 merge_pre_contiguous _ _ Hk) as HI.
  pose proof (index_lt _ _ _ Hk).
  destruct (sk_have _ _ _ _ _ Hskip _ _ Hk) as (old & Ho & Ht); [unfold idx; lia|].
  exists old. split_and!; [|done|lia]. unfold entryAt. rewrite HI, <-Ho. f_equal. unfold idx; lia.
Qed.

Lemma merged_same :
  rest = [] → Logs rf' = Logs rf → merged rf rf' prev entries.
Proof.
  intros Hr Hl. destruct Hskip as [Hsplit _ Hle _]. rewrite Hr, app_nil_r in Hsplit.
  assert (∀ i, entryAt rf' i = entryAt rf i) as HE by (intros i; unfold entryAt; congruence).
  split; [done| | | |].
  - intros i _. apply HE.
  - intros e Hin Hse. rewrite Hsplit in Hin. destruct (merge_pre_have _ Hin Hse) as (old & ?&?&?).
    exists old. rewrite HE. auto.
  - intros _. exists []. by rewrite app_nil_r.
  - right. split; [done|]. rewrite Hsplit. unfold lastIndex, idx in *. lia.
Qed.

Hypothesis Hrest : rest ≠ [].
Hypothesis Hl : Logs rf' = take (Z.to_nat (idx + zlen pre)) (Logs rf) ++ rest.

Lemma merge_cut : 0 <= idx + zlen pre ∧ zlen (take (Z.to_nat (idx + zlen pre)) (Logs rf)) = idx + zlen pre.
Proof.
  destruct Hskip as [_ _ Hle [?|[? _]]]; [done|]. split; [done|]. autorewrite with golen. lia.
Qed.

Lemma merge_low i : i <= prev + zlen pre → entryAt rf' i = entryAt rf i.
Proof.
  destruct merge_cut as [H0 Hn]. intros Hi. unfold entryAt. rewrite Hs1, Hl.
  rewrite index_app_l by (unfold idx in *; lia).
  destruct (Z.lt_ge_cases i (SnapshotLastIncludedIndex rf + 1)).
  - rewrite !index_neg by lia. done.
  - apply index_take. unfold idx in *. lia.
Qed.

Lemma merge_new e : e ∈ rest → entryAt rf' (Index e) = Some e.
Proof.
  destruct merge_cut as [H0 Hn]. intros [k Hk]%elem_of_index.
  rewrite (proj2 merge_pre_contiguous _ _ Hk). pose proof (index_lt _ _ _ Hk).
  unfold entryAt. rewrite Hs1, Hl, index_app_r; rewrite Hn; [|unfold idx in *; lia].
  rewrite <-Hk. f_equal. unfold idx in *. lia.
Qed.

Lemma merged_append : merged rf rf' prev entries.
Proof.
  destruct merge_cut as [H0 Hn]. pose proof (zlen_nonneg pre).
  pose proof (sk_split _ _ _ _ _ Hskip) as Hsplit.
  split; [done| | | |].
  - intros i ?. apply merge_low. lia.
  - intros e Hin Hse. rewrite Hsplit in Hin. apply elem_of_app in Hin as [Hin|Hin].
    + destruct (merge_pre_have _ Hin Hse) as (old & ? & ? & ?).
      exists old. rewrite merge_low by done. auto.
    + exists e. rewrite merge_new by done. auto.
  - intros Hagree. destruct Hskip as [_ _ _ [?|[_ [Hend|(old & e & r & Hr & Ho & Ht)]]]]; [done| |].
    + exists rest. rewrite Hl, Hend. f_equal. apply take_ge. unfold zlen. lia.
    + destruct Ht. apply Hagree; [rewrite Hsplit, Hr; set_solver|].
      rewrite (proj2 merge_pre_contiguous 0 e) by (by rewrite Hr).
      unfold entryAt. rewrite <-Ho. f_equal. unfold idx. lia.
  - left. unfold lastIndex. rewrite Hs1, Hl, Hsplit, !zlen_app, Hn. unfold idx. lia.
Qed.

Lemma merged_append_contiguous : contiguous (SnapshotLastIncludedIndex rf) (Logs rf').
Proof.
  destruct merge_cut as [H0 Hn]. rewrite Hl. apply contiguous_app. rewrite Hn. split.
  - apply contiguous_take, W.
  - replace (_ + (idx + zlen pre)) with (prev + zlen pre) by (unfold idx; lia).
    apply merge_pre_contiguous.
Qed.

End merge.

(** ** AppendEntries *)

Lemma acceptLeader_frame env t rf rf1 ch :
  acceptLeader env t rf = (rf1, ch) →
  log_view rf1 = log_view rf ∧ peer_view rf1 = peer_view rf ∧
  CommitIndex rf1 = CommitIndex rf ∧ LastApplied rf1 = LastApplied rf ∧
  persister rf1 = persister rf ∧ snapshotMsg rf1 = snapshotMsg rf.
Proof. unfold acceptLeader. intros. by repeat case_match; simplify_eq. Qed.

Lemma log_view_eq rf rf' :
  log_view rf' = log_view rf →
  Logs rf' = Logs rf ∧ SnapshotLastIncludedIndex rf' = SnapshotLastIncludedIndex rf ∧
  SnapshotLastIncludedTerm rf' = SnapshotLastIncludedTerm rf ∧
  (∀ i, entryAt rf' i = entryAt rf i) ∧ (∀ i, termAt rf' i = termAt rf i) ∧
  lastIndex rf' = lastIndex rf.
Proof.
  unfold log_view, termAt, entryAt, lastIndex. intros [= -> -> ->]. by split_and!.
Qed.

Lemma conflictScan_spec logs t ci n :
  (n <= length logs)%nat → (∀ e, logs !! pred n = Some e → Term e = t) →
  ∃ m, (m <= n)%nat ∧
    conflictScan logs t ci n = (if (m =? 0)%nat then Some ci else Index <$> logs !! m) ∧
    (∀ k e, (m <= k < n)%nat → logs !! k = Some e → Term e = t) ∧
    (m ≠ 0%nat → (m < n)%nat ∧ ∃ e, logs !! pred m = Some e ∧ Term e ≠ t).
Proof.
  induction n as [|i IH]; intros Hn Hlast.
  { exists 0%nat. split_and!; [done|done|lia|done]. }
  destruct (lookup_lt_is_Some_2 logs i) as [e He]; [lia|].
  simpl in Hlast. pose proof (Hlast _ He) as Ht. cbn [conflictScan]. rewrite He. simpl.
  rewrite Ht, Z.eqb_refl. simpl. destruct i as [|i].
  { exists 0%nat. split_and!; [lia|done| |done]. intros k e' Hk. replace k with 0%nat by lia. naive_solver. }
  destruct (lookup_lt_is_Some_2 logs i) as [e1 He1]; [lia|].
  destruct (Z.eq_dec (Term e1) t) as [Ht1|Ht1].
  - destruct IH as (m & Hm & Hs & Hrun & Hb); [lia|simpl; naive_solver|].
    exists m. split_and!; [lia|done| |].
    + intros k e' Hk. destruct (decide (k = S i)) as [->|]; [naive_solver|]. apply Hrun. lia.
    + intros H0. destruct (Hb H0) as [? ?]. split; [lia|done].
  - exists (S i). cbn [conflictScan]. rewrite He1. simpl.
    replace (Term e1 =? t) with false by (symmetry; by apply Z.eqb_neq). simpl. rewrite He.
    split_and!; [lia|done| |].
    + intros k e' Hk. replace k with (S i) by lia. naive_solver.
    + intros _. split; [lia|]. eauto.
Qed.

(** What a conflict reply tells the leader: the follower's log ends before
    [PrevLogIndex], or it holds another term there; then [ConflictIndex] is the
    first index of the run of that term, or [PrevLogIndex] itself when the run
    starts with the follower's log. *)
Definition conflict_reply rf (prev prevTerm ct ci : Z) : Prop :=
  lastIndex rf < prev ∧ ct = 0 ∧ ci = lastIndex rf ∨
  prev <= lastIndex rf ∧ ct ≠ prevTerm ∧ SnapshotLastIncludedIndex rf < ci <= prev ∧
  (∀ i, ci <= i <= prev → Term <$> entryAt rf i = Some ct) ∧
  ((∃ t, Term <$> entryAt rf (ci - 1) = Some t ∧ t ≠ ct) ∨
   ci = prev ∧ ∀ i, SnapshotLastIncludedIndex rf < i <= prev →
                    Term <$> entryAt rf i = Some ct).

Lemma entryAt_lookup rf (k : nat) :
  entryAt rf (SnapshotLastIncludedIndex rf + 1 + Z.of_nat k) = Logs rf !! k.
Proof.
  unfold entryAt. rewrite index_lookup by lia. f_equal. lia.
Qed.

Lemma conflictScan_reply rf prev prevTerm e :
  wf rf → SnapshotLastIncludedIndex rf < prev → entryAt rf prev = Some e →
  Term e ≠ prevTerm →
  ∃ ci, conflictScan (Logs rf) (Term e) (Index e)
          (Z.to_nat (prev - SnapshotLastIncludedIndex rf)) = Some ci ∧
        conflict_reply rf prev prevTerm (Term e) ci.
Proof.
  intros W Hs He Ht. set (snap := SnapshotLastIncludedIndex rf) in *.
  pose proof (entryAt_range _ _ _ He) as Hr. fold snap in Hr.
  set (n := Z.to_nat (prev - snap)).
  assert (∀ k, entryAt rf (snap + 1 + Z.of_nat k) = Logs rf !! k) as HL by apply entryAt_lookup.
  destruct (conflictScan_spec (Logs rf) (Term e) (Index e) n) as (m & Hm & Hc & Hrun & Hb).
  { unfold n, lastIndex, zlen in *. fold snap in Hr. lia. }
  { intros e'. rewrite <-HL. replace (snap + 1 + Z.of_nat (pred n)) with prev by lia. congruence. }
  assert (∀ i, snap + 1 + Z.of_nat m <= i <= prev → Term <$> entryAt rf i = Some (Term e)) as Hrun'.
  { intros i Hi. destruct (entryAt_is_Some rf i) as [e' He']; [fold snap; lia|].
    rewrite He'. simpl. f_equal. apply (Hrun (Z.to_nat (i - snap - 1))); [lia|].
    rewrite <-HL. by replace (snap + 1 + _) with i by lia. }
  assert (Index e = prev) as HI by by eapply entryAt_Index.
  rewrite Hc. destruct (Nat.eqb_spec m 0) as [->|H0].
  - exists (Index e). split; [done|]. right. rewrite HI. split_and!; try done; try lia.
    + intros i Hi. apply Hrun'. lia.
    + right. split; [done|]. intros i Hi. apply Hrun'. fold snap in Hi. lia.
  - destruct (Hb H0) as (Hlt & e1 & He1 & Ht1).
    destruct (lookup_lt_is_Some_2 (Logs rf) m) as [e' He'].
    { unfold n, lastIndex, zlen in *. fold snap in Hr. lia. }
    exists (Index e'). rewrite He'. split; [done|].
    assert (Index e' = snap + 1 + Z.of_nat m) as HI'.
    { eapply entryAt_Index; [done|]. by rewrite HL. }
    right. rewrite HI'. fold snap. split_and!; try done; try lia.
    left. exists (Term e1). split; [|done]. rewrite <-HL in He1.
    replace (snap + 1 + Z.of_nat m - 1) with (snap + 1 + Z.of_nat (pred m)) by lia. by rewrite He1.
Qed.

Lemma checkPrev_spec args rf reply :
  wf rf →
  (checkPrev args rf reply = Some None ∧ ae_PrevLogIndex args <= lastIndex rf ∧
   (SnapshotLastIncludedIndex rf < ae_PrevLogIndex args →
    termAt rf (ae_PrevLogIndex args) = Some (ae_PrevLogTerm args))) ∨
  ∃ ct ci, checkPrev args rf reply = Some (Some (mkAEReply (aer_Term reply) false true ct ci)) ∧
    SnapshotLastIncludedIndex rf < ae_PrevLogIndex args ∧
    conflict_reply rf (ae_PrevLogIndex args) (ae_PrevLogTerm args) ct ci.
Proof.
  intros W. unfold checkPrev. fold (lastIndex rf). pose proof (zlen_nonneg (Logs rf)).
  destruct (Z.leb_spec (ae_PrevLogIndex args) (SnapshotLastIncludedIndex rf)).
  { left. split_and!; [done|unfold lastIndex; lia|lia]. }
  destruct (Z.ltb_spec (lastIndex rf) (ae_PrevLogIndex args)).
  { right. eexists _, _. split_and!; [done|done|]. by left. }
  destruct (entryAt_is_Some rf (ae_PrevLogIndex args)) as [e He]; [lia|].
  pose proof He as He'. unfold entryAt in He'. rewrite He'. simpl.
  destruct (Z.eqb_spec (Term e) (ae_PrevLogTerm args)) as [Ht|Ht]; simpl.
  - left. split_and!; [done|done|]. intros _. unfold termAt.
    destruct (Z.eqb_spec (ae_PrevLogIndex args) (SnapshotLastIncludedIndex rf)); [lia|].
    rewrite He. simpl. by rewrite Ht.
  - right. destruct (conflictScan_reply rf _ _ _ W H0 He Ht) as (ci & -> & Hc). simpl. eauto.
Qed.

Lemma mergeEntries_spec args rf :
  wf rf → contiguous (ae_PrevLogIndex args) (ae_Entries args) →
  ae_PrevLogIndex args <= lastIndex rf →
  ∃ rf' ch, mergeEntries args rf = Some (rf', ch) ∧
    merged rf rf' (ae_PrevLogIndex args) (ae_Entries args) ∧ wf rf' ∧
    peer_view rf' = peer_view rf ∧ (ch = false → Logs rf' = Logs rf) ∧
    LastNewEntryIndex rf' = (if zlen (ae_Entries args) =? 0 then LastNewEntryIndex rf
      else max (LastNewEntryIndex rf) (ae_PrevLogIndex args + zlen (ae_Entries args))) ∧
    (CurrentTerm rf', VotedFor rf', LeaderTerm rf', State rf', CommitIndex rf',
     LastApplied rf', persister rf', snapshotMsg rf') =
    (CurrentTerm rf, VotedFor rf, LeaderTerm rf, State rf, CommitIndex rf,
     LastApplied rf, persister rf, snapshotMsg rf).
Proof.
  intros W He Hp. unfold mergeEntries. destruct (Z.eqb_spec (zlen (ae_Entries args)) 0) as [Hz|Hz].
  { apply zlen_0_nil in Hz. rewrite Hz. eexists _, _. split_and!; try done.
    rewrite Hz in He. eapply (merged_same _ _ _ _ [] []); [done| |done..].
    apply skip_spec_nil; [unfold lastIndex in Hp; lia|auto]. }
  set (idx := ae_PrevLogIndex args - SnapshotLastIncludedIndex rf).
  destruct (skipMatching_spec (SnapshotLastIncludedIndex rf) (Logs rf) idx (ae_Entries args))
    as (pre & rest & Hskip & Hsp).
  { apply W. } { unfold idx. by rewrite Zplus_minus. } { unfold idx, lastIndex in *. lia. }
  rewrite Hskip. simpl. destruct (Z.ltb_spec 0 (zlen rest)) as [Hr|Hr].
  - assert (rest ≠ []) as Hne by (intros ->; by change (zlen []) with 0 in Hr).
    destruct (merge_cut rf (ae_PrevLogIndex args) _ _ _ Hsp Hne) as [H0 _].
    fold idx in H0. rewrite slice_to; [|pose proof (sk_le _ _ _ _ _ Hsp); lia]. simpl.
    eexists _, _. split_and!; try done.
    + by eapply merged_append.
    + eapply (wf_log_view rf); [done..|apply W| |done].
      by apply (merged_append_contiguous rf _ _ _ _ _ W He Hsp Hne).
  - assert (rest = []) as ->.
    { apply zlen_0_nil. pose proof (zlen_nonneg rest). lia. }
    simpl. eexists _, _. split_and!; try done.
    + by eapply merged_same.
    + by apply (wf_views rf).
Qed.

Lemma merged_acceptLeader env t rf rf1 ch rf' prev entries :
  acceptLeader env t rf = (rf1, ch) → merged rf1 rf' prev entries → merged rf rf' prev entries.
Proof.
  intros Ha [M1 M2 M3 M4 M5]. apply acceptLeader_frame in Ha as [Hv _].
  apply log_view_eq in Hv as (Hl & Hs & Ht & HE & _ & HL).
  split; rewrite <-?Hs, <-?Ht, <-?Hl, <-?HL; try done.
  - intros i Hi. rewrite <-HE. auto.
  - intros e ??. rewrite <-HE. auto.
  - intros Hag. apply M4. intros e old. rewrite HE. auto.
Qed.

Lemma persist_views (b : bool) rf :
  log_view (if b then persist rf else rf) = log_view rf ∧
  peer_view (if b then persist rf else rf) = peer_view rf.
Proof. by destruct b. Qed.

Lemma advanceCommit_views c rf :
  log_view (advanceCommit c rf) = log_view rf ∧ peer_view (advanceCommit c rf) = peer_view rf.
Proof. unfold advanceCommit. by case_match. Qed.

Lemma merged_views rf rf' rf'' prev entries :
  log_view rf'' = log_view rf' → merged rf rf' prev entries → merged rf rf'' prev entries.
Proof.
  intros (Hl & Hs & Ht & HE & _ & HL)%log_view_eq [M1 M2 M3 M4 M5].
  split; rewrite ?Hs, ?Ht, ?Hl, ?HL; try done.
  - intros i Hi. rewrite HE. auto.
  - intros e ??. rewrite HE. auto.
Qed.

(** The three outcomes of [AppendEntries] on a well-formed peer. *)
Lemma AppendEntries_cases env args rf :
  wf rf → contiguous (ae_PrevLogIndex args) (ae_Entries args) →
  ∃ rf' reply, AppendEntries env args rf = Some (rf', reply) ∧ wf rf' ∧
    aer_Term reply = CurrentTerm rf ∧
    ((aer_Success reply = false ∧ aer_Conflict reply = false ∧ rf' = rf ∧
      ae_Term args < CurrentTerm rf) ∨
     (CurrentTerm rf <= ae_Term args ∧
      aer_Success reply = false ∧ aer_Conflict reply = true ∧
      (∃ ch, acceptLeader env (ae_Term args) rf = (rf', ch)) ∧
      SnapshotLastIncludedIndex rf < ae_PrevLogIndex args ∧
      conflict_reply rf (ae_PrevLogIndex args) (ae_PrevLogTerm args)
        (aer_ConflictTerm reply) (aer_ConflictIndex reply)) ∨
     (CurrentTerm rf <= ae_Term args ∧
      aer_Success reply = true ∧ aer_Conflict reply = false ∧
      merged rf rf' (ae_PrevLogIndex args) (ae_Entries args) ∧
      (SnapshotLastIncludedIndex rf < ae_PrevLogIndex args →
       termAt rf (ae_PrevLogIndex args) = Some (ae_PrevLogTerm args)) ∧
      ae_PrevLogIndex args <= lastIndex rf ∧
      ∃ rf1 ch1 rf2 ch2, acceptLeader env (ae_Term args) rf = (rf1, ch1) ∧
        mergeEntries args rf1 = Some (rf2, ch2) ∧
        rf' = (if ch1 || ch2 then persist (advanceCommit (ae_LeaderCommit args) rf2)
               else advanceCommit (ae_LeaderCommit args) rf2))).
Proof.
  intros W He. unfold AppendEntries.
  destruct (Z.ltb_spec (ae_Term args) (CurrentTerm rf)) as [Hlt|Hge].
  { eexists _, _. split_and!; try done. left. done. }
  destruct (acceptLeader env (ae_Term args) rf) as [rf1 ch1] eqn:Ha.
  pose proof (acceptLeader_frame _ _ _ _ _ Ha) as (Hv & Hpv & _).
  assert (wf rf1) as W1 by by eapply wf_views.
  pose proof (log_view_eq _ _ Hv) as (Hl & Hs & Ht & HE & HT & HL).
  set (reply := mkAEReply (CurrentTerm rf) false false 0 0).
  destruct (checkPrev_spec args rf1 reply W1) as [(-> & Hp & Hterm)|(ct & ci & -> & Hsp & Hc)]; simpl.
  - destruct (mergeEntries_spec args rf1 W1 He Hp) as (rf2 & ch2 & HM & Hm & W2 & Hpv2 & _).
    rewrite HM. simpl. eexists _, _. split; [done|].
    destruct (persist_views (ch1 || ch2) (advanceCommit (ae_LeaderCommit args) rf2)) as [V1 V2].
    destruct (advanceCommit_views (ae_LeaderCommit args) rf2) as [V3 V4].
    split_and!; [apply (wf_views rf2); [by rewrite V1|by rewrite V2|done]|done|].
    right; right. split_and!; try done.
    + eapply merged_acceptLeader; [done|]. by apply (merged_views _ rf2); [rewrite V1|].
    + rewrite <-Hs, <-HT. done.
    + by rewrite <-HL.
    + eauto 10.
  - eexists _, _. split_and!; try done. right; left. split_and!; try done; [eauto|by rewrite <-Hs|].
    unfold conflict_reply in *. rewrite <-Hs, <-HL. setoid_rewrite <-HE. done.
Qed.

(** ** Repairing a follower's log *)

Lemma countWhile_spec p l :
  (∀ k e, (k < countWhile p l)%nat → l !! k = Some e → p e = true) ∧
  (∀ e, l !! countWhile p l = Some e → p e = false) ∧ (countWhile p l <= length l)%nat.
Proof.
  induction l as [|x l (IH1 & IH2 & IH3)]; simpl; [split_and!; [lia|done|lia]|].
  destruct (p x) eqn:Hp; simpl.
  - split_and!; [|done|lia]. intros [|k] e Hk He; simplify_eq/=; [done|]. apply (IH1 k); [lia|done].
  - split_and!; [lia|by intros e [= <-]|lia].
Qed.

(** What one round of [replicateLog] puts in an [AppendEntries] call: the
    leader's log from the peer's next index on, with the entry before it. *)
Lemma replicateLog_args server lt L args :
  wf L → replicateLog server lt L = Some (Some [CallAppendEntries server args]) →
  ∃ n, index (NextIndex L) server = Some n ∧ CurrentTerm L = lt ∧
    ae_Term args = lt ∧ ae_PrevLogIndex args = n - 1 ∧
    SnapshotLastIncludedIndex L < n <= lastIndex L + 1 ∧
    termAt L (n - 1) = Some (ae_PrevLogTerm args) ∧
    contiguous (n - 1) (ae_Entries args) ∧
    n - 1 + zlen (ae_Entries args) = lastIndex L ∧
    (∀ e, e ∈ ae_Entries args → entryAt L (Index e) = Some e).
Proof.
  intros W. unfold replicateLog. set (snap := SnapshotLastIncludedIndex L).
  destruct (Z.eqb_spec (CurrentTerm L) lt) as [Hlt|]; [|done]. simpl. intros H.
  inv_bind H. inv_bind H. destruct (x =? x0); [done|].
  destruct (Z.leb_spec x snap) as [|Hn]; [done|]. inv_bind H.
  apply slice_Some in E1 as (Hr & Hr' & ->).
  assert (zlen (Logs L) - (x - snap - 1) = Z.of_nat (length (drop (Z.to_nat (x - snap - 1)) (Logs L)))) as Hd.
  { rewrite length_drop. unfold zlen in *. lia. }
  rewrite take_ge in H by lia. inv_bind H. destruct x1 as [pi pt].
  assert (pi = x - 1 ∧ termAt L (x - 1) = Some pt) as [-> Hpt].
  { destruct (Z.eqb_spec x (snap + 1)) as [Hs|Hs]; simpl in E1.
    - injection E1 as <- <-. split; [lia|]. unfold termAt. fold snap.
      by destruct (Z.eqb_spec (x - 1) snap); [|lia].
    - inv_bind E1. injection E1 as <- <-. assert (entryAt L (x - 1) = Some x1) as He.
      { unfold entryAt. rewrite <-E2. f_equal. fold snap. lia. }
      split; [by eapply entryAt_Index|]. unfold termAt. fold snap.
      destruct (Z.eqb_spec (x - 1) snap); [lia|]. by rewrite He. }
  injection H as <-. simpl. exists x.
  pose proof (contiguous_drop snap (Z.to_nat (x - snap - 1)) (Logs L)) as C.
  replace (snap + Z.of_nat (Z.to_nat (x - snap - 1))) with (x - 1) in C by lia.
  split_and!; try done; try lia.
  - unfold lastIndex. fold snap. lia.
  - apply C; [lia|apply W].
  - unfold lastIndex. fold snap. unfold zlen at 1. lia.
  - intros e [k Hk]%elem_of_index. pose proof (index_lt _ _ _ Hk).
    rewrite (C ltac:(lia) (wf_log _ W) _ _ Hk). unfold entryAt. fold snap.
    rewrite index_drop in Hk by lia. rewrite <-Hk. f_equal. lia.
Qed.

(** Entries of one term are created by one leader, one after the other: where
    two peers both hold a term, the one whose entry comes later holds it at the
    earlier index too.  Raft's Log Matching provides this of any two peers. *)
Definition term_aligned L F : Prop :=
  ∀ t a b, a <= b → Term <$> entryAt F a = Some t → Term <$> entryAt L b = Some t →
    SnapshotLastIncludedIndex L <= a → termAt L a = Some t.

Lemma termAt_entry rf i : SnapshotLastIncludedIndex rf < i → termAt rf i = Term <$> entryAt rf i.
Proof. intros. unfold termAt. by destruct (Z.eqb_spec i (SnapshotLastIncludedIndex rf)); [lia|]. Qed.

(** The run of the conflict term in the leader's log ends before [prev]. *)
Lemma conflict_run_before L prev pt ct i (n : nat) e :
  (∀ b, prev <= b → Term <$> entryAt L b = Some ct → termAt L prev = Some ct) →
  SnapshotLastIncludedIndex L <= prev →
  termAt L prev = Some pt → ct ≠ pt →
  Logs L !! i = Some e → Term e = ct →
  (∀ k e, (i <= k < i + n)%nat → Logs L !! k = Some e → Term e = ct) → (0 < n)%nat →
  SnapshotLastIncludedIndex L + 1 + Z.of_nat (i + n) <= prev.
Proof.
  intros Hal Hprev Hpt Hne He Het Hrun Hn. set (snap := SnapshotLastIncludedIndex L) in *.
  destruct (Z.lt_ge_cases prev (snap + 1 + Z.of_nat (i + n))) as [Hlt|]; [exfalso|lia].
  destruct (Z.lt_ge_cases prev (snap + 1 + Z.of_nat i)) as [Hp|Hp].
  - apply Hne. specialize (Hal (snap + 1 + Z.of_nat i)).
    rewrite Hal in Hpt; [congruence|lia|].
    unfold snap. rewrite entryAt_lookup, He. simpl. congruence.
  - apply Hne. rewrite termAt_entry in Hpt by (fold snap; lia).
    apply fmap_Some in Hpt as (e' & He' & ->). symmetry.
    apply (Hrun (Z.to_nat (prev - snap - 1))); [lia|].
    unfold snap. rewrite <-entryAt_lookup, <-He'. f_equal. fold snap. lia.
Qed.

(** The next index after a conflict, when the leader does not hold the conflict term
    from [prev] on. *)
Lemma conflictNext_bounds L prev pt reply :
  wf L → 1 <= prev → SnapshotLastIncludedIndex L <= prev <= lastIndex L → termAt L prev = Some pt →
  aer_ConflictIndex reply <= prev →
  (aer_ConflictTerm reply ≠ 0 → aer_ConflictTerm reply ≠ pt ∧ 1 <= aer_ConflictIndex reply ∧
   ∀ b, prev <= b → Term <$> entryAt L b = Some (aer_ConflictTerm reply) → termAt L prev = Some (aer_ConflictTerm reply)) →
  ∃ n, conflictNext reply L = Some n ∧ 1 <= n <= prev.
Proof.
  intros WL Hp1 HL Hpt Hci Hc. unfold conflictNext.
  set (ct := aer_ConflictTerm reply) in *. set (ci := aer_ConflictIndex reply) in *.
  pose proof (wf_snap _ WL) as HsL.
  destruct (Z.eqb_spec ct 0) as [H0|H0]; simpl.
  { eexists. split; [done|]. unfold max. zbool_lia. }
  destruct (Hc H0) as (Hne & Hci1 & Hal).
  set (i := countWhile (λ e, negb (Term e =? ct)) (Logs L)).
  destruct (Nat.ltb_spec i (length (Logs L))) as [Hi|Hi]; [|exists ci; split; [done|lia]].
  destruct (lookup_lt_is_Some_2 (Logs L) i Hi) as [e He].
  destruct (countWhile_spec (λ e, negb (Term e =? ct)) (Logs L)) as (_ & He0 & _).
  pose proof (He0 _ He) as Het. apply negb_false_iff, Z.eqb_eq in Het.
  destruct (countWhile_spec (λ e, (Term e =? ct)%Z) (drop i (Logs L))) as (Hw1 & Hw2 & Hw3).
  set (n := countWhile (λ e, (Term e =? ct)%Z) (drop i (Logs L))) in *.
  assert (0 < n)%nat as Hn.
  { destruct n as [|]; [|lia]. specialize (Hw2 e). rewrite lookup_drop, Nat.add_0_r in Hw2.
    specialize (Hw2 He). apply Z.eqb_neq in Hw2. done. }
  assert (SnapshotLastIncludedIndex L + 1 + Z.of_nat (i + n) <= prev) as Hbefore.
  { eapply (conflict_run_before L prev pt ct); try done; [lia|].
    intros k e' Hk He'. apply Z.eqb_eq, (Hw1 (k - i)%nat); [lia|].
    rewrite lookup_drop, <-He'. f_equal. lia. }
  destruct (index_is_Some (Logs L) (Z.of_nat (i + n))) as [e' He'].
  { unfold lastIndex in HL. lia. }
  rewrite He'. simpl. eexists. split; [done|]. rewrite (wf_log _ WL _ _ He'). lia.
Qed.

Lemma conflictNext_spec L F prev pt reply :
  wf L → wf F → term_aligned L F →
  SnapshotLastIncludedIndex L <= prev <= lastIndex L →
  termAt L prev = Some pt → SnapshotLastIncludedIndex F < prev →
  conflict_reply F prev pt (aer_ConflictTerm reply) (aer_ConflictIndex reply) →
  ∃ n, conflictNext reply L = Some n ∧ 1 <= n <= prev.
Proof.
  intros WL WF Hal HL Hpt HF Hc. pose proof (wf_snap _ WF). apply (conflictNext_bounds L prev pt); try done; [lia|destruct Hc as [|]; lia|].
  intros H0. destruct Hc as [(_ & ? & _)|(_ & Hne & Hr & Hrun & _)]; [done|]. split_and!; [done|lia|].
  intros b Hb HLb. apply (Hal _ prev b); [done|apply Hrun; lia|done|lia].
Qed.

Lemma max_Z x y : max x y = Z.max x y.
Proof. unfold max. destruct (Z.ltb_spec x y); lia. Qed.

Lemma min_Z x y : min x y = Z.min x y.
Proof. unfold min. destruct (Z.ltb_spec x y); lia. Qed.

(** The index of the last new entry after a request: that of the leader followed
    already, or the commit index when the leader or the term is new, and at
    least the last entry the request carries. *)
Definition lastNew (args : AppendEntriesArgs Cmd) (rf : Raft Cmd) : Z :=
  let known := if decide (LeaderTerm rf = ae_Term args ∧ CurrentTerm rf = ae_Term args)
               then LastNewEntryIndex rf else CommitIndex rf in
  match ae_Entries args with
  | [] => known
  | _ => Z.max known (ae_PrevLogIndex args + zlen (ae_Entries args))
  end.

Lemma acceptLeader_follows env (args : AppendEntriesArgs Cmd) rf rf1 ch :
  CurrentTerm rf <= ae_Term args → acceptLeader env (ae_Term args) rf = (rf1, ch) →
  State rf1 = Follower ∧ CurrentTerm rf1 = ae_Term args ∧ LeaderTerm rf1 = ae_Term args ∧
  VotedFor rf1 = (if decide (LeaderTerm rf = ae_Term args ∧ CurrentTerm rf = ae_Term args)
                  then VotedFor rf else -1) ∧
  LastNewEntryIndex rf1 =
    (if decide (LeaderTerm rf = ae_Term args ∧ CurrentTerm rf = ae_Term args)
     then LastNewEntryIndex rf else CommitIndex rf).
Proof.
  intros Hle. unfold acceptLeader. cbn.
  destruct (Z.eqb_spec (ae_Term args) (LeaderTerm rf)); cbn;
    destruct (Z.ltb_spec (CurrentTerm rf) (ae_Term args)); cbn; intros Ha; simplify_eq; cbn;
    repeat case_decide; split_and!; done || lia.
Qed.

Lemma advanceCommit_index c rf :
  CommitIndex (advanceCommit c rf) =
    (if CommitIndex rf <? c then Z.min c (LastNewEntryIndex rf) else CommitIndex rf) ∧
  LastNewEntryIndex (advanceCommit c rf) = LastNewEntryIndex rf ∧
  (State (advanceCommit c rf), CurrentTerm (advanceCommit c rf), LeaderTerm (advanceCommit c rf),
   VotedFor (advanceCommit c rf), LastApplied (advanceCommit c rf)) =
  (State rf, CurrentTerm rf, LeaderTerm rf, VotedFor rf, LastApplied rf).
Proof. unfold advanceCommit. rewrite <-min_Z. by case_match. Qed.

(** The commit index and the election state after a request that succeeds. *)
Lemma AppendEntries_commits env args rf rf1 ch1 rf2 ch2 (b : bool) rf' :
  wf rf → contiguous (ae_PrevLogIndex args) (ae_Entries args) →
  ae_PrevLogIndex args <= lastIndex rf → CurrentTerm rf <= ae_Term args →
  acceptLeader env (ae_Term args) rf = (rf1, ch1) → mergeEntries args rf1 = Some (rf2, ch2) →
  rf' = (if b then persist (advanceCommit (ae_LeaderCommit args) rf2)
         else advanceCommit (ae_LeaderCommit args) rf2) →
  (State rf', CurrentTerm rf', LeaderTerm rf', VotedFor rf', LastApplied rf') =
  (State rf1, CurrentTerm rf1, LeaderTerm rf1, VotedFor rf1, LastApplied rf) ∧
  LastNewEntryIndex rf' = lastNew args rf ∧
  CommitIndex rf' = (if CommitIndex rf <? ae_LeaderCommit args
                     then Z.min (ae_LeaderCommit args) (lastNew args rf) else CommitIndex rf).
Proof.
  intros W He Hp Hle Ha HM ->.
  pose proof (acceptLeader_frame _ _ _ _ _ Ha) as (Hv & Hpv & HC & HL & _).
  pose proof (log_view_eq _ _ Hv) as (_ & _ & _ & _ & _ & Hlast).
  destruct (acceptLeader_follows _ _ _ _ _ Hle Ha) as (_ & _ & _ & _ & HN).
  destruct (mergeEntries_spec args rf1) as (? & ? & HM' & _ & _ & _ & _ & HN2 & Hf);
    [by eapply wf_views|done|by rewrite Hlast|].
  rewrite HM in HM'. injection HM' as <- <-. injection Hf as E1 E2 E3 E4 E5 E6 _ _.
  destruct (advanceCommit_index (ae_LeaderCommit args) rf2) as (HC' & HN' & Hf').
  assert (LastNewEntryIndex rf2 = lastNew args rf) as HN3.
  { rewrite HN2, max_Z. unfold lastNew. rewrite HN.
    destruct (ae_Entries args) as [|e l]; [done|].
    destruct (Z.eqb_spec (zlen (e :: l)) 0) as [Hz%zlen_0_nil|]; done. }
  injection Hf' as ?????.
  assert (CommitIndex (advanceCommit (ae_LeaderCommit args) rf2) =
    if CommitIndex rf <? ae_LeaderCommit args
    then Z.min (ae_LeaderCommit args) (lastNew args rf) else CommitIndex rf).
  { rewrite HC', E5, HC, HN3. done. }
  destruct b; split_and!; try done; cbn; congruence.
Qed.

(** C10: [AppendEntries] on a well-formed peer never panics, leaves it
    well-formed and answers with the term the peer had.  A request of a smaller
    term is refused and changes nothing.  Any other makes the peer a follower of
    the request's term that keeps its vote only if it followed that term's
    leader already.  If the consistency check passes, that is the previous entry matches or is
    inside the snapshot, the request succeeds: the log is the old one with the
    new entries merged in (nothing up to [PrevLogIndex] changes, every new entry
    is there, entries disappear only at a conflict) and the commit index moves,
    if the leader's is larger, to the smaller of the leader's and the index of
    the last new entry.  If it fails, log and commit index are untouched and the
    reply points at the conflicting run of terms. *)
Theorem AppendEntries_correct env args rf :
  wf rf → contiguous (ae_PrevLogIndex args) (ae_Entries args) →
  ∃ rf' reply, AppendEntries env args rf = Some (rf', reply) ∧ wf rf' ∧
    aer_Term reply = CurrentTerm rf ∧
    if ae_Term args <? CurrentTerm rf then
      rf' = rf ∧ aer_Success reply = false ∧ aer_Conflict reply = false
    else
      State rf' = Follower ∧ CurrentTerm rf' = ae_Term args ∧ LeaderTerm rf' = ae_Term args ∧
      VotedFor rf' = (if decide (LeaderTerm rf = ae_Term args ∧ CurrentTerm rf = ae_Term args)
                      then VotedFor rf else -1) ∧
      LastApplied rf' = LastApplied rf ∧ aer_Conflict reply = negb (aer_Success reply) ∧
      if aer_Success reply then
        ae_PrevLogIndex args <= lastIndex rf ∧
        (SnapshotLastIncludedIndex rf < ae_PrevLogIndex args →
         termAt rf (ae_PrevLogIndex args) = Some (ae_PrevLogTerm args)) ∧
        merged rf rf' (ae_PrevLogIndex args) (ae_Entries args) ∧
        LastNewEntryIndex rf' = lastNew args rf ∧
        CommitIndex rf' = (if CommitIndex rf <? ae_LeaderCommit args
                           then Z.min (ae_LeaderCommit args) (lastNew args rf)
                           else CommitIndex rf)
      else
        log_view rf' = log_view rf ∧ CommitIndex rf' = CommitIndex rf ∧
        SnapshotLastIncludedIndex rf < ae_PrevLogIndex args ∧
        conflict_reply rf (ae_PrevLogIndex args) (ae_PrevLogTerm args)
          (aer_ConflictTerm reply) (aer_ConflictIndex reply).
Proof.
  intros W He.
  destruct (AppendEntries_cases env args rf W He) as (rf' & reply & HA & W' & HT & HC).
  exists rf', reply. split_and!; [done..|].
  destruct HC as [(-> & -> & -> & ?)|[(Hle & -> & -> & (ch & Ha) & ? & ?)|
      (Hle & -> & -> & HM & Hprev & Hp & rf1 & ch1 & rf2 & ch2 & Ha & Hm & Hrf)]].
  { destruct (Z.ltb_spec (ae_Term args) (CurrentTerm rf)); [done|lia]. }
  all: destruct (Z.ltb_spec (ae_Term args) (CurrentTerm rf)) as [|_]; [lia|];
    pose proof (acceptLeader_follows _ _ _ _ _ Hle Ha) as (F1 & F2 & F3 & F4 & _);
    pose proof (acceptLeader_frame _ _ _ _ _ Ha) as (Hv & _ & HC & HL & _).
  - by split_and!.
  - destruct (AppendEntries_commits env args rf _ _ _ _ _ _ W He Hp Hle Ha Hm Hrf)
      as (Hf & HN & HCi).
    injection Hf as -> -> -> -> ->. split_and!; done.
Qed.

Lemma sendAppendEntries_success server args reply L m n :
  CurrentTerm L = ae_Term args → aer_Term reply = CurrentTerm L → aer_Success reply = true →
  index (MatchIndex L) server = Some m → index (NextIndex L) server = Some n →
  ∃ L', sendAppendEntries server args true reply L = Some (L', true) ∧
    log_view L' = log_view L ∧ CurrentTerm L' = CurrentTerm L ∧
    index (MatchIndex L') server =
      Some (Z.max m (ae_PrevLogIndex args + zlen (ae_Entries args))) ∧
    index (NextIndex L') server =
      Some (Z.max n (ae_PrevLogIndex args + zlen (ae_Entries args) + 1)).
Proof.
  intros Ht Hr Hs Hm Hn. unfold sendAppendEntries.
  rewrite Hr, Hs, Z.ltb_irrefl, Ht, Z.eqb_refl, Hm. simpl.
  rewrite store_is_Some by (by eapply index_lt). simpl. rewrite Hn. simpl.
  rewrite store_is_Some by (by eapply index_lt). simpl.
  eexists. split_and!; try done; simpl; rewrite max_Z; apply index_insert_eq; by eapply index_lt.
Qed.

(** a successful round of replication.  When a round of [replicateLog] sends
    entries to a peer and its [AppendEntries] succeeds, the peer holds the
    leader's terms at every index the call covered beyond its own snapshot, its
    log reaches at least as far as the leader's, and handling the reply in the
    same term moves the peer's match index to the leader's last index. *)
Theorem replicate_success server lt L F env args F' reply m :
  wf L → wf F → index (MatchIndex L) server = Some m → m <= lastIndex L →
  replicateLog server lt L = Some (Some [CallAppendEntries server args]) →
  AppendEntries env args F = Some (F', reply) → aer_Success reply = true →
  (∀ i, ae_PrevLogIndex args < i <= lastIndex L → SnapshotLastIncludedIndex F < i →
        Term <$> entryAt F' i = Term <$> entryAt L i) ∧
  lastIndex L <= lastIndex F' ∧
  (aer_Term reply = CurrentTerm L →
   ∃ L', sendAppendEntries server args true reply L = Some (L', true) ∧
     index (MatchIndex L') server = Some (lastIndex L) ∧
     index (NextIndex L') server = Some (lastIndex L + 1)).
Proof.
  intros WL WF Hm Hml HR HA Hs.
  destruct (replicateLog_args _ _ _ _ WL HR) as (n & Hn & HT & Ht & Hp & Hnr & Hpt & He & Hlen & HE).
  rewrite <-Hp in He. destruct (AppendEntries_cases env args F WF He) as (F1 & r1 & HA' & _ & _ & HC).
  rewrite HA in HA'. injection HA' as <- <-.
  destruct HC as [(?&_)|[(_ & ? & _)|(_ & _ & _ & M & _)]]; [congruence..|].
  split_and!.
  - intros i Hi HF. destruct (index_is_Some (ae_Entries args) (i - n)) as [e Hk]; [lia|].
    pose proof (He _ _ Hk) as HI. assert (Index e = i) as Hei by lia.
    assert (e ∈ ae_Entries args) as Hin by (apply elem_of_index; eauto).
    destruct (mg_have _ _ _ _ M e Hin) as (e' & He' & Hte & _); [lia|].
    rewrite <-Hei, He', (HE e Hin). simpl. by rewrite Hte.
  - destruct (mg_len _ _ _ _ M) as [?|[HL ?]]; [lia|].
    unfold lastIndex in *. destruct (mg_snap _ _ _ _ M) as [-> _]. rewrite HL. lia.
  - intros Hrt. destruct (sendAppendEntries_success server args reply L m n)
      as (L' & HS & _ & _ & Hm' & Hn'); try done; [congruence|].
    exists L'. rewrite HS, Hm', Hn', Hp. split_and!; try done; f_equal; lia.
Qed.

(** Log repair makes progress.  When a peer of the same term answers a round
    of replication with a conflict, the leader handles the reply without running
    off its log, and the peer's next index gets strictly smaller but stays
    positive; so the rounds of conflicts on one peer are finitely many. *)
Theorem conflict_backs_up server lt L F env args F' reply n :
  wf L → wf F → term_aligned L F → index (NextIndex L) server = Some n →
  replicateLog server lt L = Some (Some [CallAppendEntries server args]) →
  AppendEntries env args F = Some (F', reply) → aer_Conflict reply = true →
  aer_Term reply = CurrentTerm L →
  ∃ L' n', sendAppendEntries server args true reply L = Some (L', true) ∧
    index (NextIndex L') server = Some n' ∧ 1 <= n' < n ∧ wf L'.
Proof.
  intros WL WF Hal Hn HR HA Hc Hrt.
  destruct (replicateLog_args _ _ _ _ WL HR) as (n0 & Hn0 & HT & Ht & Hp & Hnr & Hpt & He & Hlen & HE).
  assert (n0 = n) as -> by congruence. rewrite <-Hp in He.
  destruct (AppendEntries_cases env args F WF He) as (F1 & r1 & HA' & _ & _ & HC).
  rewrite HA in HA'. injection HA' as <- <-.
  destruct HC as [(?&?&_)|[(_ & Hs & _ & _ & Hsn & Hcr)|(?&?&?&_)]]; [congruence| |congruence].
  rewrite Hp in *.
  destruct (conflictNext_spec L F (n - 1) (ae_PrevLogTerm args) reply) as (n' & Hnx & Hn'); try done; [lia|].
  unfold sendAppendEntries.
  rewrite Hrt, Hs, Hc, Z.ltb_irrefl, HT, Ht, Z.eqb_refl, Hn, Hp. simpl.
  replace (n =? n - 1 + 1) with true by (symmetry; apply Z.eqb_eq; lia).
  rewrite Hnx. simpl. rewrite store_is_Some by (by eapply index_lt). simpl.
  eexists _, n'. split_and!; [done| |lia|lia|].
  - simpl. apply index_insert_eq. by eapply index_lt.
  - destruct WL. split; try done. simpl. by rewrite zlen_insert.
Qed.

End raft_log.
