(* ===== verification/RaftState.v ===== *)
(** * The state of a Raft peer over its life

    Snapshots, elections, replication, commitment, delivery and restarts of one
    peer: totality of the operations, the invariant every step keeps, what is
    on stable storage, and what the leader may commit. *)

From S2P Require Import Prelude LabGob Persister Raft RaftLog.

Section raft_state.
Context {Cmd : Type} `{!Gob (PersistentState Cmd)}.
Implicit Types (rf : Raft Cmd) (e : RaftLogEntry Cmd) (l logs : list (RaftLogEntry Cmd)).

(** ** Snapshots *)

(** The term [makeRaftState] records for a snapshot up to [upperbound - 1]: the
    one the peer knows at that index, or its last one when the log is shorter. *)
Definition cut_term (upperbound : Z) rf : option Z :=
  termAt rf (Z.min (Z.max (SnapshotLastIncludedIndex rf) (upperbound - 1)) (lastIndex rf)).

Lemma makeRaftState_spec ub rf :
  wf rf → ∃ st,
    let snap := SnapshotLastIncludedIndex rf in
    let logs := drop (Z.to_nat (ub - 1 - snap)) (Logs rf) in
    cut_term ub rf = Some st ∧
    makeRaftState ub rf =
      Some (gob_encode (CurrentTerm rf, logs, VotedFor rf, Z.max snap (ub - 1), st),
            logs, Z.max snap (ub - 1), st).
Proof.
  intros W. set (snap := SnapshotLastIncludedIndex rf). pose proof (wf_log _ W) as C.
  fold snap in C. pose proof (zlen_nonneg (Logs rf)) as H0. unfold makeRaftState, cut_term, lastIndex.
  fold snap. destruct (Z.eqb_spec (zlen (Logs rf)) 0) as [Hz|Hz].
  { exists (SnapshotLastIncludedTerm rf). simpl. rewrite max_Z.
    rewrite (zlen_0_nil _ Hz), drop_nil. split; [|done].
    unfold termAt. fold snap. by destruct (Z.eqb_spec (Z.min (Z.max snap (ub - 1)) (snap + zlen (@nil (RaftLogEntry Cmd)))) snap); [|change (zlen []) with 0 in *; lia]. }
  destruct (index_is_Some (Logs rf) 0) as [e0 He0]; [lia|]. rewrite He0. simpl.
  rewrite (C _ _ He0). destruct (Z.leb_spec ub (snap + 1 + 0)) as [Hu|Hu].
  { exists (SnapshotLastIncludedTerm rf). simpl. rewrite max_Z.
    replace (Z.to_nat (ub - 1 - snap)) with 0%nat by lia. rewrite drop_0. split; [|done].
    unfold termAt. fold snap. by destruct (Z.eqb_spec (Z.min (Z.max snap (ub - 1)) (snap + zlen (Logs rf))) snap); [|lia]. }
  replace (0 <? ub - (snap + 1 + 0)) with true by (symmetry; apply Z.ltb_lt; lia).
  rewrite min_Z. set (s := ub - (snap + 1 + 0)).
  destruct (index_is_Some (Logs rf) (Z.min s (zlen (Logs rf)) - 1)) as [e He]; [lia|].
  rewrite He. simpl. rewrite slice_from_drop by lia. simpl. rewrite max_Z, (C _ _ He).
  assert (drop (Z.to_nat (Z.min s (zlen (Logs rf)))) (Logs rf)
          = drop (Z.to_nat (ub - 1 - snap)) (Logs rf)) as ->.
  { destruct (Z.lt_ge_cases (zlen (Logs rf)) s).
    - rewrite !drop_ge; [done|unfold zlen in *; lia..].
    - f_equal. unfold s. lia. }
  exists (Term e). split.
  - rewrite termAt_entry by (fold snap; lia). unfold entryAt. fold snap.
    replace (_ - snap - 1) with (Z.min s (zlen (Logs rf)) - 1) by lia. by rewrite He.
  - by replace (Z.max _ (ub - 1)) with (Z.max snap (ub - 1)) by lia.
Qed.

(** Cutting the log at an index it covers. *)
Lemma cut_log_views rf rf' (i : Z) :
  wf rf → SnapshotLastIncludedIndex rf <= i →
  Logs rf' = drop (Z.to_nat (i - SnapshotLastIncludedIndex rf)) (Logs rf) →
  SnapshotLastIncludedIndex rf' = i →
  (∀ k, i < k → entryAt rf' k = entryAt rf k) ∧ lastIndex rf' = Z.max i (lastIndex rf) ∧
  contiguous i (Logs rf').
Proof.
  intros W Hi Hl Hs. pose proof (wf_snap _ W). split_and!.
  - intros k Hk. unfold entryAt. rewrite Hl, Hs, index_drop by lia. f_equal. lia.
  - unfold lastIndex. rewrite Hs, Hl, zlen_drop. pose proof (zlen_nonneg (Logs rf)). lia.
  - rewrite Hl. destruct (Z.lt_ge_cases (zlen (Logs rf)) (i - SnapshotLastIncludedIndex rf)).
    + rewrite drop_ge by (unfold zlen in *; lia). apply contiguous_nil.
    + replace i with (SnapshotLastIncludedIndex rf + Z.of_nat (Z.to_nat (i - SnapshotLastIncludedIndex rf))) at 1 by lia.
      apply contiguous_drop; [lia|apply W].
Qed.

(** Stable storage holds what the peer must not forget. *)
Definition persisted rf : Prop :=
  ReadRaftState (persister rf) =
  gob_encode (CurrentTerm rf, Logs rf, VotedFor rf,
    SnapshotLastIncludedIndex rf, SnapshotLastIncludedTerm rf).

Lemma persist_persisted rf : persisted (persist rf).
Proof. unfold persisted; simpl. by rewrite Read_SaveRaftState. Qed.

(** [Snapshot] at an index the log covers keeps every later entry and the
    term at the index, frees the rest, never panics, and leaves stable storage
    with the cut log and the service's snapshot, saved together. *)
Theorem Snapshot_correct idx data rf :
  wf rf → SnapshotLastIncludedIndex rf <= idx <= lastIndex rf →
  ∃ rf', Snapshot idx data rf = Some rf' ∧ wf rf' ∧
    SnapshotLastIncludedIndex rf' = idx ∧ lastIndex rf' = lastIndex rf ∧
    (∀ i, idx < i → entryAt rf' i = entryAt rf i) ∧
    termAt rf' idx = termAt rf idx ∧
    persisted rf' ∧ ReadSnapshot (persister rf') = data ∧
    (CurrentTerm rf', VotedFor rf') = (CurrentTerm rf, VotedFor rf) ∧
    CommitIndex rf' = Z.max (CommitIndex rf) idx ∧
    LastApplied rf' = Z.max (LastApplied rf) idx.
Proof.
  intros W Hi. unfold Snapshot. destruct (Z.ltb_spec idx (SnapshotLastIncludedIndex rf)); [lia|].
  destruct (makeRaftState_spec (idx + 1) rf W) as (st & Hst & ->). simpl.
  rewrite !max_Z. replace (idx + 1 - 1) with idx by lia.
  rewrite !(Z.max_r (SnapshotLastIncludedIndex rf) idx), Z.max_id by lia.
  unfold cut_term in Hst. replace (Z.min _ _) with idx in Hst by lia.
  eexists. split; [done|].
  match goal with |- wf ?r ∧ _ => destruct (cut_log_views rf r idx) as (HE & HL & HC) end;
    [done|lia|done|simpl; lia|].
  split_and!; simpl; try done; try lia.
  - eapply (wf_log_view rf); [done..| | |done]; simpl; [pose proof (wf_snap _ W); lia|done].
  - unfold termAt at 1; simpl. rewrite Z.eqb_refl. congruence.
  - unfold persisted. simpl. by rewrite (proj1 (Read_SaveStateAndSnapshot _ _ _)).
  - apply (proj2 (Read_SaveStateAndSnapshot _ _ _)).
Qed.

(** [InstallSnapshot] of a snapshot newer than what the peer has. *)
Lemma InstallSnapshot_installs env args rf :
  wf rf → CurrentTerm rf <= is_Term args →
  SnapshotLastIncludedIndex rf < is_LastIncludedIndex args →
  SnapshotIndex (snapshotMsg rf) <= is_LastIncludedIndex args →
  ∃ rf' st, InstallSnapshot env args rf = Some (rf', mkISReply (CurrentTerm rf) true) ∧ wf rf' ∧
    SnapshotLastIncludedIndex rf' = is_LastIncludedIndex args ∧
    SnapshotLastIncludedTerm rf' = is_LastIncludedTerm args ∧
    (∀ i, is_LastIncludedIndex args < i → entryAt rf' i = entryAt rf i) ∧
    lastIndex rf' = Z.max (is_LastIncludedIndex args) (lastIndex rf) ∧
    CommitIndex rf' = Z.max (CommitIndex rf) (is_LastIncludedIndex args) ∧
    LastApplied rf' = Z.max (LastApplied rf) (is_LastIncludedIndex args) ∧
    snapshotMsg rf' = mkApplyMsg false None 0 true (is_Data args)
      (is_LastIncludedTerm args) (is_LastIncludedIndex args) ∧
    ReadSnapshot (persister rf') = is_Data args ∧
    cut_term (is_LastIncludedIndex args + 1) rf = Some st ∧
    ReadRaftState (persister rf') = gob_encode (CurrentTerm rf', Logs rf', VotedFor rf',
      is_LastIncludedIndex args, st).
Proof.
  intros W Ht Hs Hm. unfold InstallSnapshot.
  destruct (Z.ltb_spec (is_Term args) (CurrentTerm rf)); [lia|].
  destruct (acceptLeader env (is_Term args) rf) as [rf1 ch] eqn:Ha.
  apply acceptLeader_frame in Ha as (Hv & Hpv & Hci & Hla & Hps & Hsm).
  pose proof (log_view_eq _ _ Hv) as (Hl & Hs1 & _ & HE & HT & HL).
  rewrite Hs1, Hsm. destruct (Z.leb_spec (is_LastIncludedIndex args) (SnapshotLastIncludedIndex rf)); [lia|].
  destruct (Z.ltb_spec (is_LastIncludedIndex args) (SnapshotIndex (snapshotMsg rf))); [lia|]. cbn [orb].
  match goal with |- context [makeRaftState _ ?r] => set (rf2 := r) end.
  assert (log_view rf2 = log_view rf) as Hv2 by done.
  assert (wf rf2) as W2 by by apply (wf_views rf).
  destruct (makeRaftState_spec (is_LastIncludedIndex args + 1) rf2 W2) as (st & Hst & ->). simpl.
  rewrite !max_Z, Hl, Hs1, Hci, Hla. replace (_ + 1 - 1) with (is_LastIncludedIndex args) by lia.
  rewrite !(Z.max_r (SnapshotLastIncludedIndex rf)) by lia. eexists _, st. split; [done|].
  match goal with |- wf ?r ∧ _ =>
    destruct (cut_log_views rf r (is_LastIncludedIndex args)) as (HE' & HL' & HC') end;
    [done|lia|done|done|].
  split_and!; try done.
  - eapply (wf_log_view rf); [done..| |done|done]. simpl. pose proof (wf_snap _ W). lia.
  - apply (proj2 (Read_SaveStateAndSnapshot _ _ _)).
  - rewrite <-Hst. unfold cut_term. 
    pose proof (log_view_eq _ _ Hv2) as (_ & -> & _ & _ & HT2 & ->). by rewrite HT2.
  - simpl. rewrite (proj1 (Read_SaveStateAndSnapshot _ _ _)). done.
Qed.

(** ** Commitment *)

(** The peers known to hold the log up to [i]. *)
Definition replicas rf (i : Z) : Z := zlen (filter (λ m, i <= m) (MatchIndex rf)).

Lemma countMatch_spec rf i ms (j : nat) c :
  ms = drop j (MatchIndex rf) → c <= Half rf →
  ∃ r, countMatch rf i c (Z.of_nat <$> seq j (length ms)) = Some r ∧
       (Half rf <? r) = (Half rf <? c + zlen (filter (λ m, i <= m) ms)).
Proof.
  revert j c. induction ms as [|m ms IH]; intros j c Hms Hc; simpl.
  { exists c. split; [done|]. change (zlen (filter _ [])) with 0. by rewrite Z.add_0_r. }
  assert (MatchIndex rf !! j = Some m) as Hm.
  { pose proof (lookup_drop (MatchIndex rf) j 0) as Hd. rewrite <-Hms, Nat.add_0_r in Hd. done. }
  rewrite index_lookup, Nat2Z.id, Hm by lia. simpl. rewrite zlen_filter_cons.
  assert (ms = drop (S j) (MatchIndex rf)) as Hms'.
  { apply (f_equal (drop 1)) in Hms. rewrite drop_drop, Nat.add_1_r in Hms. done. }
  pose proof (zlen_nonneg (filter (λ m, i <= m) ms)).
  destruct (Z.leb_spec i m); [rewrite decide_True by done|rewrite decide_False by lia].
  - destruct (Z.ltb_spec (Half rf) (c + 1)).
    + exists (c + 1). split; [done|]. zbool_lia.
    + destruct (IH (S j) (c + 1) Hms' ltac:(lia)) as (r & Hr1 & Hr). exists r. split; [exact Hr1|].
      rewrite Hr. f_equal. lia.
  - destruct (Z.ltb_spec (Half rf) c); [lia|].
    destruct (IH (S j) c Hms' Hc) as (r & Hr1 & Hr). exists r. split; [exact Hr1|]. rewrite Hr. f_equal.
Qed.

Lemma countMatch_quorum rf i :
  wf rf → ∃ r, countMatch rf i 0 (upto (npeers rf)) = Some r ∧
               (Half rf < r ↔ npeers rf < 2 * replicas rf i).
Proof.
  intros W. pose proof (wf_match _ W) as Hm. pose proof (wf_half _ W) as Hh. pose proof (wf_me _ W).
  destruct (countMatch_spec rf i (MatchIndex rf) 0 0) as (r & Hr & Hq); [done|div_lia|].
  exists r. split.
  - rewrite <-Hr. unfold upto. do 3 f_equal. unfold zlen in Hm. lia.
  - rewrite <-Z.ltb_lt, Hq, Z.ltb_lt, Z.add_0_l. fold (replicas rf i). rewrite Hh. div_lia.
Qed.

(** An index the leader of term [t] may commit: an entry of its own term, held
    by a majority. *)
Definition committable (t : Z) rf (i : Z) : Prop :=
  Term <$> entryAt rf i = Some t ∧ npeers rf < 2 * replicas rf i.

Lemma commitScan_spec t rf n :
  wf rf → (n <= length (Logs rf))%nat →
  ∃ c, commitScan t rf n = Some (rf <| CommitIndex := c |>) ∧
    (c = CommitIndex rf ∨ CommitIndex rf < c ∧ committable t rf c) ∧
    (∀ i, SnapshotLastIncludedIndex rf < i <= SnapshotLastIncludedIndex rf + Z.of_nat n →
       (∀ k, i <= k <= SnapshotLastIncludedIndex rf + Z.of_nat n →
             Term <$> entryAt rf k = Some t) →
       committable t rf i → i <= c).
Proof.
  intros W. set (snap := SnapshotLastIncludedIndex rf). assert (rf = rf <| CommitIndex := CommitIndex rf |>) as Heta by by destruct rf.
  induction n as [|n IH]; intros Hn; simpl.
  { exists (CommitIndex rf). split_and!; [by f_equal|by left|lia]. }
  destruct (lookup_lt_is_Some_2 (Logs rf) n) as [e He]; [lia|]. rewrite He. simpl.
  assert (entryAt rf (snap + 1 + Z.of_nat n) = Some e) as He' by by unfold snap; rewrite entryAt_lookup.
  destruct (Z.eqb_spec (Term e) t) as [Ht|Ht]; simpl.
  2:{ exists (CommitIndex rf). split_and!; [by f_equal|by left|]. intros i Hi Hall.
      specialize (Hall (snap + 1 + Z.of_nat n)). rewrite He' in Hall. simpl in Hall.
      assert (Some (Term e) = Some t) by (apply Hall; lia). congruence. }
  destruct (countMatch_quorum rf (Index e) W) as (r & -> & Hq). simpl.
  assert (Index e = snap + 1 + Z.of_nat n) as HI by by eapply entryAt_Index.
  destruct (Z.ltb_spec (Half rf) r) as [Hr|Hr].
  - exists (Z.max (CommitIndex rf) (Index e)). rewrite max_Z. split_and!; [done| |].
    + destruct (Z.le_gt_cases (Index e) (CommitIndex rf)); [left; lia|right].
      rewrite Z.max_r by lia. split; [lia|]. split; [rewrite HI, He'; simpl; congruence|].
      by apply Hq.
    + intros i Hi _ _. lia.
  - destruct IH as (c & -> & Hc & Hmax); [lia|]. exists c. split_and!; [done..|].
    intros i Hi Hall Hci. destruct (Z.eq_dec i (snap + 1 + Z.of_nat n)) as [->|].
    + destruct Hci as [_ Hci]. rewrite <-HI in Hci. apply Hq in Hci. lia.
    + apply Hmax; [lia| |done]. intros k Hk. apply Hall. lia.
Qed.

(** a round of [updateCommitIndex] by the leader of the current term never
    panics, changes nothing but the commit index, moves it only forward and only
    to an entry of the leader's own term that a majority of the peers holds, and
    misses no such entry in the last stretch of the log written in this term. *)
Theorem updateCommitIndex_correct rf :
  wf rf →
  ∃ c, updateCommitIndex (CurrentTerm rf) rf = Some (Some (rf <| CommitIndex := c |>)) ∧
    (c = CommitIndex rf ∨ CommitIndex rf < c ∧ committable (CurrentTerm rf) rf c) ∧
    (∀ i, (∀ k, i <= k <= lastIndex rf → Term <$> entryAt rf k = Some (CurrentTerm rf)) →
       committable (CurrentTerm rf) rf i → i <= c).
Proof.
  intros W. destruct (commitScan_spec (CurrentTerm rf) rf (length (Logs rf)) W) as (c & Hc & Hcc & Hmax); [done|].
  exists c. unfold updateCommitIndex. rewrite Z.eqb_refl, Hc. simpl. split_and!; [done..|].
  intros i Hall [Hi Hq]. apply Hmax; [|done|done].
  apply fmap_Some in Hi as (e & He & _). by apply entryAt_range in He.
Qed.

(** ** Delivery *)

Lemma filter_contiguous_drop (b si : Z) l :
  contiguous b l → b <= si → filter (λ e, si < Index e) l = drop (Z.to_nat (si - b)) l.
Proof.
  revert b. induction l as [|e l IH]; intros b C Hb; [by rewrite drop_nil|].
  apply contiguous_cons in C as [HI C]. rewrite filter_cons. case_decide as Hd.
  - replace (Z.to_nat (si - b)) with 0%nat by lia. rewrite drop_0. f_equal.
    assert (b = si) as -> by lia. apply filter_all. intros x [k Hk]%elem_of_index. rewrite (C _ _ Hk).
    apply index_lt in Hk. lia.
  - rewrite (IH (b + 1)) by (done || lia).
    by replace (Z.to_nat (si - b)) with (S (Z.to_nat (si - (b + 1)))) by lia.
Qed.

Definition commandMsg e : ApplyMsg Cmd :=
  mkApplyMsg true (Some (Command e)) (Index e) false [] 0 0.

(** The entries a round covers: from the last applied index to the commit index. *)
Definition toApply rf : list (RaftLogEntry Cmd) :=
  take (Z.to_nat (CommitIndex rf - LastApplied rf))
       (drop (Z.to_nat (LastApplied rf - SnapshotLastIncludedIndex rf)) (Logs rf)).

Section delivery.
Context rf (W : wf rf).
Context (Hs : SnapshotLastIncludedIndex rf <= LastApplied rf).
Context (Hc : CommitIndex rf <= lastIndex rf).
Let si := SnapshotIndex (snapshotMsg rf).

Lemma applyLogTake_eq :
  applyLogTake rf = Some (rf <| snapshotMsg := ApplyMsg0 |>,
    (if si =? 0 then [] else [snapshotMsg rf]) ++
    (commandMsg <$> filter (λ e, si = 0 ∨ si < Index e) (toApply rf)), toApply rf).
Proof.
  unfold applyLogTake. fold si. rewrite max_Z.
  destruct (Z.eqb_spec (Z.max 0 (CommitIndex rf - LastApplied rf)) 0) as [Hz|Hz]; simpl.
  - unfold toApply. replace (Z.to_nat (CommitIndex rf - LastApplied rf)) with 0%nat by lia.
    by destruct (si =? 0).
  - rewrite (proj2 (slice_Some _ _ _ (toApply rf))); [by destruct (si =? 0)|].
    unfold lastIndex in Hc. split_and!; [lia..|]. unfold toApply. f_equal. lia.
Qed.

Lemma toApply_zlen : zlen (toApply rf) = Z.max 0 (CommitIndex rf - LastApplied rf).
Proof. unfold toApply. rewrite zlen_take, zlen_drop. unfold lastIndex in Hc. lia. Qed.

Lemma toApply_entry k e :
  index (toApply rf) k = Some e → entryAt rf (LastApplied rf + 1 + k) = Some e.
Proof.
  intros Hk. pose proof (index_lt _ _ _ Hk). rewrite toApply_zlen in *. unfold toApply in Hk.
  rewrite index_take, index_drop in Hk by lia. unfold entryAt. rewrite <-Hk. f_equal. lia.
Qed.

Lemma toApply_contiguous : contiguous (LastApplied rf) (toApply rf).
Proof. intros k e Hk. by apply (entryAt_Index rf), toApply_entry. Qed.

Lemma toApply_filter :
  filter (λ e, si = 0 ∨ si < Index e) (toApply rf)
  = drop (Z.to_nat (Z.max (LastApplied rf) si - LastApplied rf)) (toApply rf).
Proof.
  pose proof (wf_snap _ W). destruct (Z.le_gt_cases si (LastApplied rf)).
  - rewrite Z.max_l, Z.sub_diag by lia. apply filter_all. intros e [k Hk]%elem_of_index.
    pose proof (index_lt _ _ _ Hk). rewrite (toApply_contiguous _ _ Hk). lia.
  - rewrite <-(filter_contiguous_drop _ _ _ toApply_contiguous) by lia.
    apply list_filter_iff. intros e. lia.
Qed.

End delivery.

(** What a round of [applyLog] delivers.  With the applied index inside the
    log and the commit index at most its end, the round does not panic; it sends
    the pending snapshot, if there is one, and then exactly the commands of the
    log at the indices after the snapshot and the last applied one up to the
    commit index, in order, without gap or repetition; and it ends with the
    applied index at the commit index. *)
Theorem applyLog_delivers rf :
  wf rf → SnapshotLastIncludedIndex rf <= LastApplied rf → CommitIndex rf <= lastIndex rf →
  let si := SnapshotIndex (snapshotMsg rf) in
  let first := Z.max (LastApplied rf) si in
  ∃ rf' es cmds,
    applyLogTake rf = Some (rf', (if si =? 0 then [] else [snapshotMsg rf]) ++ cmds, es) ∧
    zlen cmds = Z.max 0 (CommitIndex rf - first) ∧
    (∀ k m, index cmds k = Some m → ∃ e, entryAt rf (first + 1 + k) = Some e ∧ m = commandMsg e) ∧
    snapshotMsg rf' = ApplyMsg0 ∧
    LastApplied (applyLogDone es rf') = Z.max (LastApplied rf) (CommitIndex rf).
Proof.
  intros W Hs Hc si first. pose proof (toApply_zlen rf Hs Hc) as Hlen.
  pose proof (applyLogTake_eq rf Hs Hc) as HT. rewrite toApply_filter in HT by done.
  fold si first in HT. eexists _, (toApply rf), _. split_and!; [done| | |done|].
  - unfold zlen in *. rewrite length_fmap, length_drop. unfold first. lia.
  - intros k m Hk. pose proof (index_lt _ _ _ Hk). rewrite index_lookup in Hk by lia.
    rewrite list_lookup_fmap, <-index_lookup in Hk by lia.
    apply fmap_Some in Hk as (e & He & ->). exists e. split; [|done].
    rewrite index_drop in He by lia. rewrite <-(toApply_entry rf Hs Hc _ _ He).
    f_equal. unfold first. lia.
  - unfold applyLogDone, last_entry. destruct (Z.eq_dec (zlen (toApply rf)) 0) as [Hz|Hz].
    + rewrite index_neg by lia. simpl. lia.
    + destruct (index_is_Some (toApply rf) (zlen (toApply rf) - 1)) as [e He]; [lia|].
      rewrite He. simpl. rewrite max_Z, (toApply_contiguous rf W Hs Hc _ _ He). lia.
Qed.

(** ** Steps of a peer *)

(** Stable storage is empty or holds a readable log. *)
Definition stored_ok (ps : Persister) : Prop :=
  ReadRaftState ps = [] ∨
  ∃ ct logs vf si st, ReadRaftState ps = gob_encode (ct, logs, vf, si, st) ∧
    0 <= si ∧ contiguous (Cmd:=Cmd) si logs.

(** The log of the peer is the one on stable storage; before anything was saved
    it is empty.  The term, the vote and the snapshot's term there may be older. *)
Definition saved_log rf : Prop :=
  (ReadRaftState (persister rf) = [] ∧ Logs rf = [] ∧ SnapshotLastIncludedIndex rf = 0) ∨
  ∃ ct vf st, ReadRaftState (persister rf) =
    gob_encode (ct, Logs rf, vf, SnapshotLastIncludedIndex rf, st).

Definition inv rf : Prop := wf rf ∧ saved_log rf.

Lemma inv_stored rf : inv rf → stored_ok (persister rf).
Proof.
  intros [W [[HR _]|(ct & vf & st & HR)]]; [by left|]. right. eexists _, _, _, _, _.
  split; [exact HR|]. split; apply W.
Qed.

Lemma inv_frame rf rf' :
  inv rf → wf rf' →
  (persister rf', Logs rf', SnapshotLastIncludedIndex rf') =
  (persister rf, Logs rf, SnapshotLastIncludedIndex rf) ∨ persisted rf' → inv rf'.
Proof.
  intros [_ HS] W' [[= H1 H2 H3]|HP]; (split; [done|]).
  - unfold saved_log. by rewrite H1, H2, H3.
  - right. by eexists _, _, _.
Qed.

Lemma inv_views rf rf' :
  log_view rf' = log_view rf → peer_view rf' = peer_view rf → persister rf' = persister rf →
  inv rf → inv rf'.
Proof.
  intros V1 V2 V3 I. apply (inv_frame rf); [done|by apply (wf_views rf), I|].
  left. injection V1 as -> -> _. by rewrite V3.
Qed.

Lemma stepDown_frame t rf :
  log_view (stepDown t rf) = log_view rf ∧ peer_view (stepDown t rf) = peer_view rf ∧
  persisted (stepDown t rf).
Proof. split_and!; [done..|]. apply persist_persisted. Qed.

Lemma stepDown_inv t rf : inv rf → inv (stepDown t rf).
Proof.
  intros I. destruct (stepDown_frame t rf) as (V1 & V2 & HP).
  apply (inv_frame rf); [done|by apply (wf_views rf), I|by right].
Qed.

Lemma wf_arrays rf rf' :
  log_view rf' = log_view rf →
  (npeers rf', me rf', Half rf', TotalNum rf') = (npeers rf, me rf, Half rf, TotalNum rf) →
  zlen (NextIndex rf') = zlen (NextIndex rf) → zlen (MatchIndex rf') = zlen (MatchIndex rf) →
  wf rf → wf rf'.
Proof.
  unfold log_view. intros [= H1 H2 H3] [= H4 H5 H6 H7] H8 H9 [].
  split; rewrite ?H1, ?H2, ?H4, ?H5, ?H6, ?H7, ?H8, ?H9; done.
Qed.

Lemma AppendEntries_inv env args rf rf' reply :
  inv rf → contiguous (ae_PrevLogIndex args) (ae_Entries args) →
  AppendEntries env args rf = Some (rf', reply) → inv rf'.
Proof.
  intros [W HS] He HA. destruct (AppendEntries_cases env args rf W He) as (? & ? & HA' & W' & _ & HC).
  rewrite HA in HA'. injection HA' as <- <-. apply (inv_frame rf); [done..|].
  destruct HC as [(_&_&->&_)|[(_&_&_&(ch & Ha)&_)|(_&_&_&_&_&Hlast&rf1&ch1&rf2&ch2&Ha&HM&->)]].
  - by left.
  - left. by apply acceptLeader_frame in Ha as ([= -> -> _]&_&_&_&->&_).
  - destruct ch1; [right; apply persist_persisted|].
    destruct ch2; [right; apply persist_persisted|left; simpl].
    pose proof (acceptLeader_frame _ _ _ _ _ Ha) as (Hv&Hpv&_&_&Hp&_).
    pose proof (log_view_eq _ _ Hv) as (Hl & Hs & _ & _ & _ & HL).
    destruct (mergeEntries_spec args rf1) as (? & ? & HM' & M & _ & _ & HLg & _ & [= _ _ _ _ _ _ HP _]);
      [by apply (wf_views rf)|done|by rewrite HL|].
    rewrite HM in HM'. injection HM' as <- <-. specialize (HLg eq_refl).
    destruct (mg_snap _ _ _ _ M) as [Hs2 _].
    unfold advanceCommit. destruct (_ <? _); simpl; congruence.
Qed.

Lemma sendAppendEntries_inv server args ok reply rf rf' b :
  inv rf → sendAppendEntries server args ok reply rf = Some (rf', b) → inv rf'.
Proof.
  intros I HS. unfold sendAppendEntries in HS.
  repeat first [case_match | progress simplify_eq | inv_bind HS]; try done;
    [by apply stepDown_inv| |];
    repeat match goal with H : store _ _ _ = Some _ |- _ => apply store_Some in H as [? ->] end;
    (apply (inv_frame rf); [done| |by left]);
    apply (wf_arrays rf); try done; try apply I; simpl; apply zlen_insert.
Qed.

Lemma sendInstallSnapshot_inv server args ok reply rf rf' b :
  inv rf → sendInstallSnapshot server args ok reply rf = Some (rf', b) → inv rf'.
Proof.
  intros I HS. unfold sendInstallSnapshot in HS.
  repeat first [case_match | progress simplify_eq | inv_bind HS]; try done;
    [by apply stepDown_inv|].
  repeat match goal with H : store _ _ _ = Some _ |- _ => apply store_Some in H as [? ->] end.
  apply (inv_frame rf); [done| |by left].
  apply (wf_arrays rf); try done; try apply I; simpl; apply zlen_insert.
Qed.

Lemma Snapshot_inv idx data rf :
  inv rf → ∃ rf', Snapshot idx data rf = Some rf' ∧ inv rf'.
Proof.
  intros [W HS]. unfold Snapshot. destruct (Z.ltb_spec idx (SnapshotLastIncludedIndex rf)).
  { eexists. split; [done|]. done. }
  destruct (makeRaftState_spec (idx + 1) rf W) as (st & Hst & ->). simpl.
  rewrite !max_Z. replace (idx + 1 - 1) with idx by lia.
  rewrite !(Z.max_r (SnapshotLastIncludedIndex rf) idx), Z.max_id by lia.
  eexists. split; [done|].
  match goal with |- inv ?r => destruct (cut_log_views rf r idx) as (_ & _ & HC) end;
    [done..|]. pose proof (wf_snap _ W).
  split; [eapply (wf_log_view rf); [done..|simpl; lia|done|done]|].
  right. eexists _, _, _. simpl. by rewrite (proj1 (Read_SaveStateAndSnapshot _ _ _)).
Qed.

Lemma InstallSnapshot_inv env args rf :
  inv rf → ∃ rf' reply, InstallSnapshot env args rf = Some (rf', reply) ∧ inv rf'.
Proof.
  intros [W HS]. destruct (Z.lt_ge_cases (is_Term args) (CurrentTerm rf)) as [Ht|Ht].
  { unfold InstallSnapshot. rewrite (proj2 (Z.ltb_lt _ _) Ht). by eexists _, _. }
  destruct (decide (is_LastIncludedIndex args <= SnapshotLastIncludedIndex rf ∨
                    is_LastIncludedIndex args < SnapshotIndex (snapshotMsg rf))) as [Ho|Hn].
  - unfold InstallSnapshot. rewrite (proj2 (Z.ltb_ge _ _) Ht).
    destruct (acceptLeader env (is_Term args) rf) as [rf1 ch] eqn:Ha.
    apply acceptLeader_frame in Ha as (Hv & Hpv & _ & _ & _ & Hsm).
    pose proof (log_view_eq _ _ Hv) as (_ & -> & _). rewrite Hsm.
    rewrite (proj2 (orb_true_iff _ _)) by (rewrite Z.leb_le, Z.ltb_lt; done).
    eexists _, _. split; [done|]. apply (inv_frame rf); [done| |right; apply persist_persisted].
    by apply (wf_views rf).
  - destruct (InstallSnapshot_installs env args rf) as (rf' & st & HI & W' & Hs & _ & _ & _ & _ & _ & _ & _ & _ & HR);
      [done|lia..|].
    eexists _, _. split; [done|]. split; [done|]. right. rewrite <-Hs in HR. eauto.
Qed.

Lemma lastLog_log_view rf rf' : log_view rf' = log_view rf → lastLog rf' = lastLog rf.
Proof. unfold log_view, lastLog. by intros [= -> -> ->]. Qed.

(** The peer after it has seen the candidate's term. *)
Definition seenTerm (t : Z) rf : Raft Cmd := if CurrentTerm rf <? t then stepDown t rf else rf.

Lemma seenTerm_frame t rf :
  log_view (seenTerm t rf) = log_view rf ∧ peer_view (seenTerm t rf) = peer_view rf ∧
  (inv rf → inv (seenTerm t rf)) ∧ (persisted rf → persisted (seenTerm t rf)) ∧
  (CurrentTerm rf <= t → CurrentTerm (seenTerm t rf) = t) ∧
  VotedFor (seenTerm t rf) = (if CurrentTerm rf <? t then -1 else VotedFor rf).
Proof.
  unfold seenTerm. destruct (Z.ltb_spec (CurrentTerm rf) t).
  - destruct (stepDown_frame t rf) as (V1 & V2 & HP). split_and!; try done. apply stepDown_inv.
  - split_and!; try done. lia.
Qed.

(** The candidate's log is at least as up-to-date as the peer's: a larger last
    term, or the same with a last index that is not smaller. *)
Definition up_to_date rf (args : RequestVoteArgs) : Prop :=
  ∃ t, termAt rf (lastIndex rf) = Some t ∧
    (t < rv_LastLogTerm args ∨ t = rv_LastLogTerm args ∧ lastIndex rf <= rv_LastLogIndex args).

Definition may_vote rf (args : RequestVoteArgs) : Prop :=
  CurrentTerm rf <= rv_Term args ∧
  (CurrentTerm rf < rv_Term args ∨ VotedFor rf = -1 ∨ VotedFor rf = rv_CandidateId args) ∧
  up_to_date rf args.

Definition voted env (args : RequestVoteArgs) rf : Raft Cmd :=
  persist ((seenTerm (rv_Term args) rf) <| VotedFor := rv_CandidateId args |>
     <| LastReceive := now env |> <| ElectionTimeout := randElectionTimeout (rnd env) |>).

Lemma RequestVote_cases env args rf :
  wf rf →
  (may_vote rf args ∧
   RequestVote env args rf = Some (voted env args rf, mkRVReply (CurrentTerm rf) true)) ∨
  (¬ may_vote rf args ∧
   RequestVote env args rf =
     Some (if rv_Term args <? CurrentTerm rf then rf else seenTerm (rv_Term args) rf,
           mkRVReply (CurrentTerm rf) false)).
Proof.
  intros W. unfold RequestVote, may_vote.
  destruct (Z.ltb_spec (rv_Term args) (CurrentTerm rf)); [right; split; [lia|done]|].
  fold (seenTerm (rv_Term args) rf).
  destruct (seenTerm_frame (rv_Term args) rf) as (V1 & V2 & _ & _ & _ & HV).
  destruct (lastLog_spec rf W) as (t & HL & Ht).
  rewrite (lastLog_log_view rf), HL, HV by done. cbn [mbind option_bind].
  match goal with |- context [if ?b then _ else _] =>
    lazymatch b with _ || _ => destruct b eqn:Hg end end.
  2:{ right. split; [|done]. intros (_ & Hv & _). revert Hg.
      destruct (Z.ltb_spec (CurrentTerm rf) (rv_Term args)); zbool_lia. }
  assert (CurrentTerm rf < rv_Term args ∨ VotedFor rf = -1 ∨ VotedFor rf = rv_CandidateId args) as Hv.
  { revert Hg. destruct (Z.ltb_spec (CurrentTerm rf) (rv_Term args)); zbool; auto; lia. }
  destruct (Z.ltb_spec (rv_LastLogTerm args) t).
  { right. split; [|done]. intros (_ & _ & t' & Ht' & Hu). simplify_eq. lia. }
  destruct (Z.eqb_spec (rv_LastLogTerm args) t); cbn [andb];
    [destruct (Z.ltb_spec (rv_LastLogIndex args) (lastIndex rf))|].
  - right. split; [|done]. intros (_ & _ & t' & Ht' & Hu). simplify_eq. lia.
  - left. split; [|done]. split_and!; [done..|]. exists t. split; [done|]. lia.
  - left. split; [|done]. split_and!; [done..|]. exists t. split; [done|]. lia.
Qed.

Lemma voted_frame env args rf :
  log_view (voted env args rf) = log_view rf ∧ peer_view (voted env args rf) = peer_view rf ∧
  persisted (voted env args rf).
Proof.
  destruct (seenTerm_frame (rv_Term args) rf) as (V1 & V2 & _).
  split_and!; [by rewrite <-V1|by rewrite <-V2|apply persist_persisted].
Qed.

Lemma RequestVote_inv env args rf :
  inv rf → ∃ rf' reply, RequestVote env args rf = Some (rf', reply) ∧ inv rf' ∧
    (persisted rf → persisted rf').
Proof.
  intros I. destruct (seenTerm_frame (rv_Term args) rf) as (_ & _ & HI & HP & _).
  destruct (RequestVote_cases env args rf (proj1 I)) as [[_ ->]|[_ ->]]; eexists _, _; (split; [done|]).
  - destruct (voted_frame env args rf) as (V1 & V2 & V3). split; [|done].
    apply (inv_frame rf); [done|by apply (wf_views rf), I|by right].
  - destruct (rv_Term args <? CurrentTerm rf); auto.
Qed.

Lemma prepareElection_inv env rf :
  inv rf → ∃ rf' args, prepareElection env rf = Some (rf', args) ∧ inv rf' ∧ persisted rf' ∧
    args = mkRVArgs (CurrentTerm rf + 1) (me rf) (lastIndex rf) (rv_LastLogTerm args) ∧
    termAt rf (lastIndex rf) = Some (rv_LastLogTerm args).
Proof.
  intros I. unfold prepareElection. destruct (lastLog_spec rf) as (t & Hl & Ht); [apply I|].
  match goal with |- context [lastLog ?r] => set (rf1 := r) end.
  rewrite (lastLog_log_view rf rf1), Hl by done. simpl. eexists _, _. split; [done|].
  split_and!; [|apply persist_persisted|done|done].
  apply (inv_frame rf); [done| |right; apply persist_persisted]. by apply (wf_views rf), I.
Qed.

Lemma Start_inv cmd rf :
  inv rf → ∃ rf' r, Start cmd rf = Some (rf', r) ∧ inv rf' ∧
    (State rf = Leader → r = (lastIndex rf + 1, CurrentTerm rf, true) ∧
       Logs rf' = Logs rf ++ [mkEntry cmd (CurrentTerm rf) (lastIndex rf + 1)] ∧
       SnapshotLastIncludedIndex rf' = SnapshotLastIncludedIndex rf ∧ persisted rf') ∧
    (State rf ≠ Leader → r = (-1, -1, false) ∧ rf' = rf).
Proof.
  intros I. pose proof (proj1 I) as W. unfold Start.
  destruct (decide (State rf = Leader)) as [Hl|Hl].
  2:{ rewrite bool_decide_false by done. by eexists _, _. }
  rewrite bool_decide_true by done. cbn [negb].
  assert ((if negb (zlen (Logs rf) =? 0) then e ← last_entry (Logs rf); Some (Index e + 1)
           else Some (SnapshotLastIncludedIndex rf + 1)) = Some (lastIndex rf + 1)) as ->.
  { destruct (lastLog_spec rf W) as (t & HL & _). unfold lastLog in HL.
    destruct (negb _); [destruct (last_entry (Logs rf)); simplify_eq/=|]; congruence. }
  pose proof (wf_me _ W). simpl.
  rewrite !store_is_Some by (rewrite ?(wf_next _ W), ?(wf_match _ W); lia). cbn [mbind option_bind].
  eexists _, _. split; [done|]. split_and!; [|intros _; split_and!; [done..|apply persist_persisted]|done].
  apply (inv_frame rf); [done| |right; apply persist_persisted].
  destruct W as [W1 W2 W3 W4 W5 W6 W7]. split; simpl; try done; rewrite ?zlen_insert; try done.
  apply contiguous_app. split; [done|]. apply contiguous_cons. split; [done|apply contiguous_nil].
Qed.

(** Heartbeats do not run off the log while every next index is in it. *)
Lemma sendHeartBeat_total rf :
  wf rf → (∀ i n, index (NextIndex rf) i = Some n → n <= lastIndex rf + 1) →
  is_Some (sendHeartBeat rf).
Proof.
  intros W Hn. apply mapM_total. intros i [_ Hi]%list_elem_of_filter.
  rewrite (wf_total _ W), upto_elem in Hi. unfold heartBeatArgs.
  destruct (index_is_Some (NextIndex rf) i) as [n HN]; [rewrite (wf_next _ W); lia|].
  specialize (Hn _ _ HN). rewrite HN. simpl.
  destruct (Z.eqb_spec (zlen (Logs rf)) 0); simpl; [by eexists|].
  destruct (Z.ltb_spec (SnapshotLastIncludedIndex rf + 1) n); simpl; [|by eexists].
  destruct (index_is_Some (Logs rf) (n - SnapshotLastIncludedIndex rf - 2)) as [e ->]; [|by eexists].
  unfold lastIndex in Hn. lia.
Qed.

Lemma becomeLeader_inv rf :
  inv rf → ∃ rf' calls, becomeLeader rf = Some (rf', calls) ∧ inv rf' ∧
    log_view rf' = log_view rf ∧ persister rf' = persister rf ∧
    (∀ i n, index (NextIndex rf') i = Some n → n = lastIndex rf + 1) ∧
    (∀ i m, index (MatchIndex rf') i = Some m → m = if i =? me rf then lastIndex rf else 0).
Proof.
  intros I. pose proof (proj1 I) as W. unfold becomeLeader.
  destruct (lastLog_spec rf W) as (t & -> & _). simpl.
  pose proof (wf_next _ W) as HN. pose proof (wf_match _ W) as HM. unfold zlen in HN, HM.
  replace (_ <=? _)%nat with true by (symmetry; apply Nat.leb_le; lia). simpl.
  rewrite take_ge, drop_ge, app_nil_r by lia.
  match goal with |- context [sendHeartBeat ?r] => set (rf1 := r) end.
  assert (inv rf1) as I1.
  { apply (inv_frame rf); [done| |by left]. apply (wf_arrays rf); try done; simpl; unfold zlen.
    - by rewrite length_fmap.
    - by rewrite length_imap. }
  assert (∀ i n, index (NextIndex rf1) i = Some n → n = lastIndex rf + 1) as HN1.
  { intros i n Hi. apply index_elem_of, list_elem_of_fmap in Hi as (? & -> & _). done. }
  destruct (sendHeartBeat_total rf1) as [calls ->]; [apply I1| |].
  { intros i n Hi. rewrite (HN1 _ _ Hi). done. }
  simpl. eexists _, _. split; [done|]. split_and!; [done..|].
  intros i m Hi. pose proof (index_lt _ _ _ Hi). simpl in Hi. rewrite index_lookup in Hi by lia.
  rewrite list_lookup_imap in Hi. apply fmap_Some in Hi as (? & _ & ->).
  by rewrite Z2Nat.id by lia.
Qed.

Lemma voteReply_inv ok reply el rf :
  inv rf → ∃ rf' el' b calls, voteReply ok reply el rf = Some (rf', el', b, calls) ∧ inv rf'.
Proof.
  intros I. unfold voteReply. destruct ok; simpl; [|by eexists _, _, _, _].
  case_match; [|case_match; eexists _, _, _, _; (split; [done|]); [by apply stepDown_inv|done]].
  case_match; [by eexists _, _, _, _|]. case_match; [by eexists _, _, _, _|].
  destruct (becomeLeader_inv (rf <| State := Leader |>)) as (rf' & calls & -> & I' & _).
  { apply (inv_frame rf); [done| |by left]. by apply (wf_views rf), I. }
  by eexists _, _, _, _.
Qed.

Lemma ticker_inv env rf rf' el calls :
  inv rf → ticker env rf = Some (rf', el, calls) → inv rf'.
Proof.
  intros I HT. unfold ticker in HT. destruct (prepareElection_inv env rf I) as (rf1 & args & HP & I1 & _).
  rewrite HP in HT. destruct (State rf).
  - inv_bind HT. by simplify_eq.
  - case_match; by simplify_eq/=.
  - case_match; by simplify_eq/=.
Qed.

Lemma Make_inv env n my ps :
  0 <= my < n → stored_ok ps → inv (Make env n my ps).
Proof.
  intros Hn HS. unfold Make. set (rf0 := mkRaft _ _ _ _ _ _ _ _ _ _ _ _ _ _ _ _ _ _ _ _ _).
  assert (wf rf0) as W0.
  { split; simpl; try done; try apply contiguous_nil; unfold zlen; rewrite length_replicate; lia. }
  destruct HS as [Hnil|(ct & logs & vf & si & st & Hps & Hsi & HC)].
  - unfold readPersist. rewrite bool_decide_true by done. split; [done|]. by left.
  - unfold readPersist. rewrite Hps, bool_decide_false by apply gob_encode_nonempty.
    rewrite gob_decode_encode. split; [by apply (wf_log_view rf0 _ logs si)|]. right.
    by exists ct, vf, st.
Qed.

(** Everything that can happen to a peer: an RPC handler, the reply of one of
    its own RPCs, a round of a background loop, a call by the service, a restart
    from stable storage.  The only thing asked of a message is that the entries
    of an [AppendEntries] are numbered from [PrevLogIndex + 1] on. *)
Inductive peer_step : Raft Cmd → Raft Cmd → Prop :=
  | step_AppendEntries env args rf rf' reply :
      contiguous (ae_PrevLogIndex args) (ae_Entries args) →
      AppendEntries env args rf = Some (rf', reply) → peer_step rf rf'
  | step_sendAppendEntries server args ok reply rf rf' b :
      sendAppendEntries server args ok reply rf = Some (rf', b) → peer_step rf rf'
  | step_InstallSnapshot env args rf rf' reply :
      InstallSnapshot env args rf = Some (rf', reply) → peer_step rf rf'
  | step_sendInstallSnapshot server args ok reply rf rf' b :
      sendInstallSnapshot server args ok reply rf = Some (rf', b) → peer_step rf rf'
  | step_RequestVote env args rf rf' reply :
      RequestVote env args rf = Some (rf', reply) → peer_step rf rf'
  | step_ticker env rf rf' el calls :
      ticker env rf = Some (rf', el, calls) → peer_step rf rf'
  | step_voteReply ok reply el rf rf' el' b calls :
      voteReply ok reply el rf = Some (rf', el', b, calls) → peer_step rf rf'
  | step_Start cmd rf rf' r : Start cmd rf = Some (rf', r) → peer_step rf rf'
  | step_Snapshot idx data rf rf' : Snapshot idx data rf = Some rf' → peer_step rf rf'
  | step_updateCommitIndex t rf rf' :
      updateCommitIndex t rf = Some (Some rf') → peer_step rf rf'
  | step_applyLogTake rf rf' msgs es :
      applyLogTake rf = Some (rf', msgs, es) → peer_step rf rf'
  | step_applyLogDone es rf : peer_step rf (applyLogDone es rf)
  | step_Kill rf : peer_step rf (Kill rf)
  | step_restart env rf : peer_step rf (Make env (npeers rf) (me rf) (persister rf)).

Lemma peer_step_inv rf rf' : peer_step rf rf' → inv rf → inv rf'.
Proof.
  destruct 1 as [env args rf rf' reply C HA|server args ok reply rf rf' b HS
    |env args rf rf' reply HI|server args ok reply rf rf' b HS|env args rf rf' reply HV
    |env rf rf' el calls HT|ok reply el rf rf' el' b calls HV|cmd rf rf' r HS
    |idx data rf rf' HS|t rf rf' HU|rf rf' msgs es HA|es rf|rf|env rf]; intros I.
  - by eapply AppendEntries_inv.
  - by eapply sendAppendEntries_inv.
  - destruct (InstallSnapshot_inv env args rf I) as (? & ? & ? & ?). by simplify_eq.
  - by eapply sendInstallSnapshot_inv.
  - destruct (RequestVote_inv env args rf I) as (? & ? & ? & ? & _). by simplify_eq.
  - by eapply ticker_inv.
  - destruct (voteReply_inv ok reply el rf I) as (? & ? & ? & ? & ? & ?). by simplify_eq.
  - destruct (Start_inv cmd rf I) as (? & ? & ? & ? & _). by simplify_eq.
  - destruct (Snapshot_inv idx data rf I) as (? & ? & ?). by simplify_eq.
  - unfold updateCommitIndex in HU. case_match; [done|]. inv_bind HU. simplify_eq.
    destruct (commitScan_spec t rf (length (Logs rf)) (proj1 I)) as (c & Hc & _); [done|].
    simplify_eq. by apply (inv_views rf).
  - unfold applyLogTake in HA. inv_bind HA. simplify_eq. by apply (inv_views rf).
  - unfold applyLogDone. case_match; [|done]. by apply (inv_views rf).
  - by apply (inv_views rf).
  - apply Make_inv; [apply I|by apply inv_stored].
Qed.

Lemma peer_reachable env n my rf :
  0 <= my < n → rtc peer_step (Make env n my MakePersister) rf → inv rf.
Proof.
  intros Hn HR. remember (Make env n my MakePersister) as rf0 eqn:E.
  assert (inv rf0) as I0 by (rewrite E; apply Make_inv; [done|by left]). clear E Hn.
  induction HR as [rf|rf1 rf2 rf3 HS _ IH]; [done|]. by apply IH, (peer_step_inv rf1).
Qed.

(** C18: whatever happens to a peer from its first start on, restarts included,
    its log stays numbered without gaps from its snapshot index, its leader
    arrays keep one slot per peer, and stable storage holds exactly its log. *)
Theorem peer_invariant env n my rf :
  0 <= my < n → rtc peer_step (Make env n my MakePersister) rf → inv rf.
Proof. apply peer_reachable. Qed.

(** On a well-formed peer no handler, no service call and no round of the
    commit loop panics, and neither does a vote reply that makes it leader;
    a ticker round does not either while every next index is inside the log. *)
Theorem peer_total env rf :
  inv rf →
  (∀ args, contiguous (ae_PrevLogIndex args) (ae_Entries args) →
           is_Some (AppendEntries env args rf)) ∧
  (∀ args, is_Some (InstallSnapshot env args rf)) ∧
  (∀ args, is_Some (RequestVote env args rf)) ∧
  (∀ ok reply el, is_Some (voteReply ok reply el rf)) ∧
  (∀ cmd, is_Some (Start cmd rf)) ∧
  (∀ idx data, is_Some (Snapshot idx data rf)) ∧
  (∀ t, is_Some (updateCommitIndex t rf)) ∧
  ((∀ i k, index (NextIndex rf) i = Some k → k <= lastIndex rf + 1) →
   is_Some (ticker env rf)).
Proof.
  intros I. split_and!.
  - intros args C. destruct (AppendEntries_cases env args rf (proj1 I) C) as (? & ? & -> & _). by eexists.
  - intros args. destruct (InstallSnapshot_inv env args rf I) as (? & ? & -> & _). by eexists.
  - intros args. destruct (RequestVote_inv env args rf I) as (? & ? & -> & _). by eexists.
  - intros ok reply el. destruct (voteReply_inv ok reply el rf I) as (? & ? & ? & ? & -> & _). by eexists.
  - intros cmd. destruct (Start_inv cmd rf I) as (? & ? & -> & _). by eexists.
  - intros idx data. destruct (Snapshot_inv idx data rf I) as (? & -> & _). by eexists.
  - intros t. unfold updateCommitIndex. case_match; [by eexists|].
    destruct (commitScan_spec t rf (length (Logs rf)) (proj1 I)) as (c & -> & _); [done|]. by eexists.
  - intros Hn. unfold ticker. destruct (sendHeartBeat_total rf (proj1 I) Hn) as [calls ->].
    destruct (prepareElection_inv env rf I) as (rf1 & args & -> & _).
    destruct (State rf); repeat case_match; by eexists.
Qed.

(** ** Restarts *)

(** What a peer must not forget. *)
Definition durable_view rf := (CurrentTerm rf, VotedFor rf, log_view rf).

Definition restart env rf : Raft Cmd := Make env (npeers rf) (me rf) (persister rf).

Lemma restart_reads env rf ct logs vf si st :
  ReadRaftState (persister rf) = gob_encode (ct, logs, vf, si, st) →
  durable_view (restart env rf) = (ct, vf, (logs, si, st)) ∧
  CommitIndex (restart env rf) = si ∧ LastApplied (restart env rf) = si.
Proof.
  intros HR. unfold restart, Make, readPersist. rewrite HR.
  rewrite bool_decide_false by apply gob_encode_nonempty. by rewrite gob_decode_encode.
Qed.

Lemma persisted_restart env rf :
  persisted rf → durable_view (restart env rf) = durable_view rf.
Proof. intros HP. by apply (restart_reads env) in HP as [-> _]. Qed.

Lemma persisted_mono rf rf' :
  durable_view rf' = durable_view rf → persister rf' = persister rf → persisted rf → persisted rf'.
Proof. unfold persisted, durable_view, log_view. by intros [= -> -> -> -> ->] ->. Qed.

Lemma acceptLeader_unchanged env t rf rf1 :
  CurrentTerm rf <= t → acceptLeader env t rf = (rf1, false) →
  CurrentTerm rf1 = CurrentTerm rf ∧ VotedFor rf1 = VotedFor rf ∧
  LeaderTerm rf = t ∧ CurrentTerm rf = t.
Proof.
  intros Hle. unfold acceptLeader.
  destruct (Z.eqb_spec t (LeaderTerm (rf <| State := Follower |> <| LastReceive := now env |>
               <| ElectionTimeout := randElectionTimeout (rnd env) |>))) as [E|]; simpl;
    destruct (Z.ltb_spec (CurrentTerm rf) t) as [?|?]; intros [= <-]; simpl in *.
  split_and!; done || lia.
Qed.

(** A successful [AppendEntries] saves whatever it changed: nothing is left to
    save unless the peer followed this very leader and had all the entries. *)
Lemma AppendEntries_success_persisted env args rf rf' reply :
  wf rf → contiguous (ae_PrevLogIndex args) (ae_Entries args) →
  AppendEntries env args rf = Some (rf', reply) → aer_Success reply = true →
  persisted rf ∨ LeaderTerm rf ≠ ae_Term args ∨ CurrentTerm rf ≠ ae_Term args ∨
    Logs rf' ≠ Logs rf →
  persisted rf'.
Proof.
  intros W C HA Hs HP. destruct (AppendEntries_cases env args rf W C) as (? & ? & HA' & _ & _ & HC).
  rewrite HA in HA'. injection HA' as <- <-.
  destruct HC as [(?&_)|[(_&?&_)|(Hle&_&_&_&_&Hp&rf1&ch1&rf2&ch2&Ha&HM&->)]]; [congruence..|].
  destruct ch1; [apply persist_persisted|]. destruct ch2; [apply persist_persisted|]. simpl in *.
  pose proof (acceptLeader_frame _ _ _ _ _ Ha) as (V1 & V2 & _ & _ & V3 & _).
  pose proof (log_view_eq _ _ V1) as (Hl1 & _ & _ & _ & _ & HL).
  assert (CurrentTerm rf1 = CurrentTerm rf ∧ VotedFor rf1 = VotedFor rf ∧
    LeaderTerm rf = ae_Term args ∧ CurrentTerm rf = ae_Term args) as (Hct & Hvf & Hlt & Hct').
  { by eapply acceptLeader_unchanged. }
  destruct (mergeEntries_spec args rf1) as (? & ? & HM' & M & _ & _ & Hl & _ & [= ? ? ? ? ? ? Hps ?]);
    [by apply (wf_views rf)|done|by rewrite HL|].
  rewrite HM in HM'. injection HM' as <- <-. specialize (Hl eq_refl).
  destruct (mg_snap _ _ _ _ M) as [Hs1 Hs2].
  pose proof (advanceCommit_views (ae_LeaderCommit args) rf2) as [HV _].
  assert (log_view rf2 = log_view rf) as HV2 by (rewrite <-V1; unfold log_view; congruence).
  destruct HP as [HP|[?|[?|HN]]]; [|done..|destruct HN; injection HV as -> _ _; congruence].
  apply (persisted_mono rf); [|unfold advanceCommit; case_match; simpl; congruence|done].
  unfold durable_view. rewrite HV, HV2.
  unfold advanceCommit. case_match; simpl; congruence.
Qed.

(** What a peer does that others rely on after a crash: it grants a vote, stands
    for election, takes a command as the leader, takes a snapshot of what it has
    applied, or acknowledges entries.  For the last, stable storage was up to
    date, or the request came from a new leader or term, or it changed the log. *)
Definition promises env rf rf' : Prop :=
  (∃ args reply, RequestVote env args rf = Some (rf', reply) ∧ rvr_VoteGranted reply = true) ∨
  (∃ args, prepareElection env rf = Some (rf', args)) ∨
  (∃ cmd r, State rf = Leader ∧ Start cmd rf = Some (rf', r)) ∨
  (∃ idx data, SnapshotLastIncludedIndex rf <= idx <= lastIndex rf ∧
     Snapshot idx data rf = Some rf') ∨
  (∃ args reply, contiguous (ae_PrevLogIndex args) (ae_Entries args) ∧
     AppendEntries env args rf = Some (rf', reply) ∧ aer_Success reply = true ∧
     (persisted rf ∨ LeaderTerm rf ≠ ae_Term args ∨ CurrentTerm rf ≠ ae_Term args ∨
      Logs rf' ≠ Logs rf)).

Lemma promises_persisted env rf rf' : inv rf → promises env rf rf' → persisted rf'.
Proof.
  intros I [(args & reply & HV & Hg)|[(args & HE)|[(cmd & r & Hl & HS)|
    [(idx & data & Hi & HS)|(args & reply & C & HA & Hs & HP)]]]].
  - destruct (RequestVote_cases env args rf (proj1 I)) as [[_ HV']|[_ HV']]; simplify_eq/=.
    apply voted_frame.
  - destruct (prepareElection_inv env rf I) as (? & ? & ? & _ & HP' & _). by simplify_eq.
  - destruct (Start_inv cmd rf I) as (? & ? & HS' & _ & Hld & _). simplify_eq. by apply Hld.
  - destruct (Snapshot_correct idx data rf (proj1 I) Hi) as (? & HS' & _ & _ & _ & _ & _ & HP' & _).
    by simplify_eq.
  - by eapply AppendEntries_success_persisted; [apply I|..].
Qed.

Lemma saved_log_restart env rf :
  inv rf → Logs (restart env rf) = Logs rf ∧
    SnapshotLastIncludedIndex (restart env rf) = SnapshotLastIncludedIndex rf.
Proof.
  intros [W [(HR & -> & ->)|(ct & vf & st & HR)]].
  - unfold restart, Make, readPersist. by rewrite HR.
  - by apply (restart_reads env) in HR as [[= _ _ -> -> _] _].
Qed.

(** C25: promises survive a crash.  At any moment of a peer's life, restarts
    included, a crash and restart give back its whole log.  And once it has
    granted a vote, started an election, taken a command as leader or taken a
    snapshot, they give back its term and vote too; so they do after it has
    acknowledged entries, if its storage was up to date before or the request
    came from a new leader or term or changed the log. *)
Theorem promises_survive_restart env0 n my rf :
  0 <= my < n → rtc peer_step (Make env0 n my MakePersister) rf →
  (∀ env, Logs (restart env rf) = Logs rf ∧
     SnapshotLastIncludedIndex (restart env rf) = SnapshotLastIncludedIndex rf) ∧
  (∀ env env' rf', promises env rf rf' →
     durable_view (restart env' rf') = durable_view rf').
Proof.
  intros Hn HR. pose proof (peer_reachable _ _ _ _ Hn HR) as I. split.
  - intros env. by apply saved_log_restart.
  - intros env env' rf' HP. by eapply persisted_restart, promises_persisted.
Qed.

(** When [RequestVote] grants.  It never panics, answers with the old term,
    leaves the log alone and ends in the larger of the two terms; it grants
    exactly when the request is not from the past, the peer has not voted for
    somebody else in that term, and the candidate's log is at least as
    up-to-date; a granted vote is recorded and on stable storage. *)
Theorem RequestVote_correct env args rf :
  wf rf →
  ∃ rf' reply, RequestVote env args rf = Some (rf', reply) ∧
    rvr_Term reply = CurrentTerm rf ∧ log_view rf' = log_view rf ∧
    CurrentTerm rf' = Z.max (CurrentTerm rf) (rv_Term args) ∧
    (rvr_VoteGranted reply = true ↔ may_vote rf args) ∧
    (rvr_VoteGranted reply = true → VotedFor rf' = rv_CandidateId args ∧ persisted rf') ∧
    (rvr_VoteGranted reply = false → CurrentTerm rf' = CurrentTerm rf →
     VotedFor rf' = VotedFor rf).
Proof.
  intros W. destruct (seenTerm_frame (rv_Term args) rf) as (V1 & _ & _ & _ & Ht & Hv).
  destruct (voted_frame env args rf) as (V3 & _ & V4).
  destruct (RequestVote_cases env args rf W) as [[Hm ->]|[Hm ->]]; eexists _, _; (split; [done|]).
  - split_and!; try done. destruct Hm as [Hm _]. rewrite Z.max_r by lia.
    change (CurrentTerm (seenTerm (rv_Term args) rf) = rv_Term args). auto.
  - destruct (Z.ltb_spec (rv_Term args) (CurrentTerm rf)) as [Hlt|Hge].
    + split_and!; try done. lia.
    + split_and!; try done; [rewrite Ht; lia|]. intros _. rewrite Ht, Hv by lia.
      destruct (Z.ltb_spec (CurrentTerm rf) (rv_Term args)); [lia|done].
Qed.

(** An adopted term that is not saved.  When [AppendEntries] of a newer term
    ends in a conflict reply the peer has moved to that term in memory, but the
    handler returns before [rf.persist()]: after a crash it is back in the old
    one. *)
Theorem conflict_term_not_persisted env env' args rf rf' reply :
  inv rf → persisted rf → contiguous (ae_PrevLogIndex args) (ae_Entries args) →
  CurrentTerm rf < ae_Term args → AppendEntries env args rf = Some (rf', reply) →
  aer_Conflict reply = true →
  CurrentTerm rf' = ae_Term args ∧ CurrentTerm (restart env' rf') = CurrentTerm rf.
Proof.
  intros I HP C Ht HA Hc.
  destruct (AppendEntries_cases env args rf (proj1 I) C) as (? & ? & HA' & _ & _ & HC).
  rewrite HA in HA'. injection HA' as <- <-.
  destruct HC as [(_&?&_)|[(_&_&_&(ch & Ha)&_)|(_&_&?&_)]]; [congruence| |congruence].
  pose proof (acceptLeader_frame _ _ _ _ _ Ha) as (_ & _ & _ & _ & HPs & _). split.
  - unfold acceptLeader in Ha. simpl in Ha. destruct (negb _); simpl in Ha;
      rewrite (proj2 (Z.ltb_lt _ _) Ht) in Ha; by injection Ha as <- _.
  - unfold persisted in HP. rewrite <-HPs in HP.
    apply (restart_reads env') in HP as [[= -> _ _] _]. done.
Qed.

(** A snapshot's term that is not saved.  When a peer whose log ends before
    the snapshot installs one from the leader, it holds the leader's term for
    the snapshot in memory but has saved the term of its own last entry:
    after a crash it comes back with that one. *)
Theorem install_term_not_persisted env env' args rf rf' reply :
  inv rf → CurrentTerm rf <= is_Term args → lastIndex rf < is_LastIncludedIndex args →
  SnapshotIndex (snapshotMsg rf) <= is_LastIncludedIndex args →
  InstallSnapshot env args rf = Some (rf', reply) →
  SnapshotLastIncludedTerm rf' = is_LastIncludedTerm args ∧
  Some (SnapshotLastIncludedTerm (restart env' rf')) = termAt rf (lastIndex rf).
Proof.
  intros I Ht Hl Hs HI. pose proof (zlen_nonneg (Logs rf)).
  destruct (InstallSnapshot_installs env args rf) as (? & st & HI' & _ & _ & HT & _ & _ & _ & _ & _ & _ & Hcut & HR);
    [apply I|done|unfold lastIndex in Hl; lia|done|].
  rewrite HI in HI'. injection HI' as <- _. split; [done|].
  apply (restart_reads env') in HR as [[= _ _ _ _ ->] _]. rewrite <-Hcut. unfold cut_term.
  f_equal. unfold lastIndex in *. lia.
Qed.

End raft_state.

(** ** Concrete peers *)

Module PeerExamples.

#[local] Instance gobZ : Gob (PersistentState Z) := wire_gob _.

Definition env0 := mkEnv 0 0.
Definition peer (n my : Z) : Raft Z := Make env0 n my MakePersister.
Definition entry (t i : Z) : RaftLogEntry Z := mkEntry (100 + i) t i.

(** A follower with three entries of term 1, as a leader of term 1 left it. *)
Definition args3 := mkAEArgs 1 0 0 0 [entry 1 1; entry 1 2; entry 1 3] 2.
Definition follower3 : Raft Z :=
  from_option fst (peer 3 1) (AppendEntries env0 args3 (peer 3 1)).

(** A leader of term 2 with four entries, about to replicate from index 3. *)
Definition leader4 : Raft Z :=
  (peer 3 0) <| CurrentTerm := 2 |> <| VotedFor := 0 |> <| LeaderTerm := 1 |>
    <| State := Leader |> <| Logs := [entry 1 1; entry 1 2; entry 2 3; entry 2 4] |>
    <| CommitIndex := 2 |> <| NextIndex := [5; 3; 5] |> <| MatchIndex := [4; 0; 0] |>.

Lemma peer_reachable_inv n my : 0 <= my < n → inv (peer n my).
Proof. intros. apply Make_inv; [done|by left]. Qed.

Ltac solve_contiguous := repeat (apply contiguous_cons; split; [reflexivity|]); apply contiguous_nil.

Lemma follower3_inv : inv follower3.
Proof.
  eapply (AppendEntries_inv env0 args3 (peer 3 1)); [apply (peer_reachable_inv 3 1); lia| |].
  - solve_contiguous.
  - vm_compute. reflexivity.
Qed.

Lemma leader4_wf : wf leader4.
Proof. split; try done; try lia. simpl. solve_contiguous. Qed.

(** The commit index can move backwards.  A follower at commit index 2
    installs a snapshot up to 10 in the same term, which takes the commit index
    to 10 but leaves the index of the last new entry at 3; the next heartbeat
    with a larger leader commit takes the commit index back to 3. *)
Theorem commit_index_regresses :
  ∃ rf1 r1 rf2 r2,
    CommitIndex follower3 = 2 ∧
    InstallSnapshot env0 (mkISArgs 1 0 10 1 [Byte.x00]) follower3 = Some (rf1, r1) ∧
    CommitIndex rf1 = 10 ∧
    AppendEntries env0 (mkAEArgs 1 0 10 1 [] 12) rf1 = Some (rf2, r2) ∧
    aer_Success r2 = true ∧ CommitIndex rf2 = 3.
Proof. do 4 eexists. split_and!; [vm_compute; reflexivity..]. Qed.

(** ** Witnesses *)

Lemma AppendEntries_correct_witness :
  let args := mkAEArgs 2 0 2 1 [entry 2 3; entry 2 4] 4 in
  ∃ rf' reply, AppendEntries env0 args follower3 = Some (rf', reply) ∧ wf rf' ∧
    aer_Success reply = true ∧ merged follower3 rf' 2 [entry 2 3; entry 2 4] ∧
    CommitIndex rf' = 4.
Proof.
  destruct (AppendEntries_correct env0 (mkAEArgs 2 0 2 1 [entry 2 3; entry 2 4] 4) follower3)
    as (rf' & reply & HA & W & _ & HC).
  - apply follower3_inv.
  - solve_contiguous.
  - assert (aer_Success reply = true) as Hs by (vm_compute in HA; by simplify_eq).
    rewrite Hs in HC. destruct HC as (_ & _ & _ & _ & _ & _ & _ & _ & HM & _ & HC).
    exists rf', reply. by split_and!.
Defined.

Lemma replicate_success_witness :
  ∃ args F' reply,
    replicateLog 1 2 leader4 = Some (Some [CallAppendEntries 1 args]) ∧
    AppendEntries env0 args follower3 = Some (F', reply) ∧ lastIndex leader4 <= lastIndex F'.
Proof.
  eexists _, _, _. split; [vm_compute; reflexivity|]. split; [vm_compute; reflexivity|].
  eapply (replicate_success 1 2 leader4 follower3 env0 _ _ _ 0);
    [apply leader4_wf|apply follower3_inv|vm_compute; reflexivity|vm_compute; discriminate
    |vm_compute; reflexivity|vm_compute; reflexivity|vm_compute; reflexivity].
Defined.

Definition leader4' : Raft Z := leader4 <| NextIndex := [5; 4; 5] |>.
Definition follower3' : Raft Z := follower3 <| CurrentTerm := 2 |> <| LeaderTerm := 2 |>.

Lemma leader4'_follower3'_aligned : term_aligned leader4' follower3'.
Proof.
  intros t a b Hab HF HL _.
  assert (1 <= a <= 3) as Ha.
  { apply fmap_Some in HF as (e & He & _). apply entryAt_range in He.
    replace (lastIndex follower3') with 3 in He by (vm_compute; reflexivity).
    change (SnapshotLastIncludedIndex follower3') with 0 in He. lia. }
  assert (1 <= b <= 4) as Hb.
  { apply fmap_Some in HL as (e & He & _). apply entryAt_range in He.
    replace (lastIndex leader4') with 4 in He by (vm_compute; reflexivity).
    change (SnapshotLastIncludedIndex leader4') with 0 in He. lia. }
  assert (a = 1 ∨ a = 2 ∨ a = 3) as [-> |[-> | ->]] by lia;
    assert (b = 1 ∨ b = 2 ∨ b = 3 ∨ b = 4) as [-> |[-> |[-> | ->]]] by lia; try lia;
    vm_compute in HF, HL; simplify_eq; reflexivity.
Qed.

Lemma conflict_backs_up_witness :
  ∃ args F' reply L' n',
    replicateLog 1 2 leader4' = Some (Some [CallAppendEntries 1 args]) ∧
    AppendEntries env0 args follower3' = Some (F', reply) ∧
    sendAppendEntries 1 args true reply leader4' = Some (L', true) ∧ 1 <= n' < 4.
Proof.
  edestruct (conflict_backs_up 1 2 leader4' follower3' env0) as (L' & n' & HS & _ & Hn & _);
    [| |apply leader4'_follower3'_aligned|vm_compute; reflexivity|vm_compute; reflexivity
    |vm_compute; reflexivity|vm_compute; reflexivity|vm_compute; reflexivity|].
  - apply (wf_arrays leader4); try done. apply leader4_wf.
  - apply (wf_views follower3); try done. apply follower3_inv.
  - eexists _, _, _, L', n'. split_and!; [vm_compute; reflexivity|vm_compute; reflexivity|exact HS|lia..].
Defined.

Lemma Snapshot_correct_witness :
  ∃ rf', Snapshot 2 [Byte.x01] follower3 = Some rf' ∧ SnapshotLastIncludedIndex rf' = 2.
Proof.
  destruct (Snapshot_correct 2 [Byte.x01] follower3) as (rf' & HS & _ & Hi & _).
  - apply follower3_inv.
  - vm_compute. split; discriminate.
  - by exists rf'.
Defined.

Lemma updateCommitIndex_correct_witness :
  ∃ c, updateCommitIndex 2 leader4 = Some (Some (leader4 <| CommitIndex := c |>)).
Proof.
  destruct (updateCommitIndex_correct leader4 leader4_wf) as (c & HU & _). exists c. exact HU.
Defined.

Lemma applyLog_delivers_witness :
  ∃ rf' es cmds, applyLogTake follower3 = Some (rf', cmds, es) ∧ zlen cmds = 2.
Proof.
  destruct (applyLog_delivers follower3) as (rf' & es & cmds & HA & Hl & _).
  - apply follower3_inv.
  - vm_compute. discriminate.
  - vm_compute. discriminate.
  - exists rf', es, cmds. split; [exact HA|exact Hl].
Defined.

Lemma peer_invariant_witness : inv (Kill (peer 3 1)).
Proof.
  apply (peer_invariant env0 3 1); [lia|]. apply rtc_once, step_Kill.
Defined.

Lemma peer_total_witness : is_Some (Start 7 follower3).
Proof. apply (peer_total env0 follower3 follower3_inv). Defined.

Lemma follower3_persisted : persisted follower3.
Proof. vm_compute. reflexivity. Qed.

Lemma promises_survive_restart_witness :
  rtc peer_step (Make env0 3 1 MakePersister) follower3 ∧
  ∃ rf' reply, RequestVote env0 (mkRVArgs 2 2 4 1) follower3 = Some (rf', reply) ∧
    durable_view (restart env0 rf') = durable_view rf'.
Proof.
  assert (rtc peer_step (Make env0 3 1 MakePersister) follower3) as HR.
  { eapply rtc_l; [|apply rtc_refl]. eapply (step_AppendEntries env0 args3); [solve_contiguous|].
    vm_compute. reflexivity. }
  destruct (promises_survive_restart env0 3 1 follower3 ltac:(lia) HR) as [_ HP].
  destruct (RequestVote env0 (mkRVArgs 2 2 4 1) follower3) as [[rf' reply]|] eqn:HV;
    [|vm_compute in HV; discriminate HV].
  split; [exact HR|]. exists rf', reply. split; [reflexivity|].
  apply (HP env0 env0 rf'). left. exists (mkRVArgs 2 2 4 1), reply. split; [exact HV|].
  vm_compute in HV. by injection HV as <- <-.
Defined.

Lemma RequestVote_correct_witness :
  ∃ rf' reply, RequestVote env0 (mkRVArgs 2 2 4 1) follower3 = Some (rf', reply) ∧ CurrentTerm rf' = 2.
Proof.
  destruct (RequestVote_correct env0 (mkRVArgs 2 2 4 1) follower3) as (rf' & reply & HR & _ & _ & Ht & _).
  - apply follower3_inv.
  - exists rf', reply. split; [exact HR|exact Ht].
Defined.

Lemma conflict_term_not_persisted_witness :
  ∃ rf' reply, AppendEntries env0 (mkAEArgs 5 2 9 4 [] 0) follower3 = Some (rf', reply) ∧
    CurrentTerm rf' = 5 ∧ CurrentTerm (restart env0 rf') = 1.
Proof.
  eexists _, _. split; [vm_compute; reflexivity|].
  eapply (conflict_term_not_persisted env0 env0 (mkAEArgs 5 2 9 4 [] 0) follower3);
    [apply follower3_inv|apply follower3_persisted|solve_contiguous|vm_compute; reflexivity
    |vm_compute; reflexivity|vm_compute; reflexivity].
Defined.

Lemma install_term_not_persisted_witness :
  ∃ rf' reply, InstallSnapshot env0 (mkISArgs 4 2 10 3 [Byte.x00]) follower3 = Some (rf', reply) ∧
    SnapshotLastIncludedTerm rf' = 3 ∧ Some (SnapshotLastIncludedTerm (restart env0 rf')) = Some 1.
Proof.
  eexists _, _. split; [vm_compute; reflexivity|].
  eapply (install_term_not_persisted env0 env0 (mkISArgs 4 2 10 3 [Byte.x00]) follower3);
    [apply follower3_inv|vm_compute; discriminate|vm_compute; reflexivity|vm_compute; discriminate
    |vm_compute; reflexivity].
Defined.

End PeerExamples.
