(* ===== verification/Voting.v ===== *)
(** * The voting machine

    What the election code of raft.go amounts to, with logs, timers and messages
    left out: every peer has its term, its vote and the term of the leader it
    last heard of; [ballots] records the votes ever cast and [leaders] the
    elections ever won.  [RaftElection] shows that a cluster of peers running
    the handlers of [Raft] follows this machine.

    A candidate that hears of a leader of its own term gives its vote free
    again ([v_reset]), so a peer can vote twice in a term.  The machine is safe
    all the same, because only a candidate that voted for itself does so, and
    only once a leader exists. *)

From S2P Require Import Prelude.

(** Term, vote and leader term of one peer. *)
Definition View : Type := Z * Z * Z.

Record VState := mkVState {
  views : gmap Z View;
  ballots : list (Z * Z * Z);    (* voter, term, candidate *)
  leaders : list (Z * Z);        (* leader, term *)
}.

Inductive vstep (n : Z) : VState → VState → Prop :=
  | v_join vs bs ls i ct vf lt t :
    vs !! i = Some (ct, vf, lt) → ct < t →
    vstep n (mkVState vs bs ls) (mkVState (<[i := (t, -1, t)]> vs) bs ls)
  | v_reset vs bs ls i ct vf lt l :
    vs !! i = Some (ct, vf, lt) → ct ≠ lt → (l, ct) ∈ ls → l ≠ i →
    vstep n (mkVState vs bs ls) (mkVState (<[i := (ct, -1, ct)]> vs) bs ls)
  | v_stand vs bs ls i ct vf lt :
    vs !! i = Some (ct, vf, lt) → 0 <= i < n →
    vstep n (mkVState vs bs ls)
      (mkVState (<[i := (ct + 1, i, lt)]> vs) ((i, ct + 1, i) :: bs) ls)
  | v_grant vs bs ls i ct vf lt c :
    vs !! i = Some (ct, vf, lt) → 1 <= ct → vf = -1 ∨ vf = c → 0 <= i < n → 0 <= c < n →
    vstep n (mkVState vs bs ls) (mkVState (<[i := (ct, c, lt)]> vs) ((i, ct, c) :: bs) ls)
  | v_elect vs bs ls l t Q :
    NoDup Q → n / 2 < zlen Q → (∀ j, j ∈ Q → (j, t, l) ∈ bs) →
    vstep n (mkVState vs bs ls) (mkVState vs bs ((l, t) :: ls)).

Definition vinit (n : Z) (s : VState) : Prop :=
  0 < n ∧ ballots s = [] ∧ leaders s = [] ∧
  ∀ i v, views s !! i = Some v → v.1.1 = 0.

(** A majority of the peers that have voted for [l] in [t] and for no one else. *)
Definition locked (n : Z) (bs : list (Z * Z * Z)) (l t : Z) (Q : list Z) : Prop :=
  NoDup Q ∧ n / 2 < zlen Q ∧
  ∀ j, j ∈ Q → (j, t, l) ∈ bs ∧ ∀ c, (j, t, c) ∈ bs → c = l.

Record VInv (n : Z) (s : VState) : Prop := {
  vi_size : 0 < n;
  vi_ballot : ∀ j t c, (j, t, c) ∈ ballots s →
    0 <= j < n ∧ 0 <= c < n ∧ 1 <= t ∧ ∃ v, views s !! j = Some v ∧ t <= v.1.1;
  vi_term : ∀ i v, views s !! i = Some v → 0 <= v.1.1;
  vi_heard : ∀ i ct vf lt, views s !! i = Some (ct, vf, lt) →
    ct = lt ∨ ct = 0 ∨ (i, ct, i) ∈ ballots s;
  vi_vote : ∀ i ct vf lt c, views s !! i = Some (ct, vf, lt) → (i, ct, c) ∈ ballots s →
    vf = c ∨ ((i, ct, i) ∈ ballots s ∧ ct = lt ∧ ∃ l, l ≠ i ∧ (l, ct) ∈ leaders s);
  vi_first : ∀ j t c c', (j, t, c) ∈ ballots s → (j, t, c') ∈ ballots s → c ≠ c' →
    ∃ l, (l, t) ∈ leaders s;
  vi_locked : ∀ l t, (l, t) ∈ leaders s → ∃ Q, locked n (ballots s) l t Q;
}.

(** Two majorities of the peers [0 .. n-1] share a peer. *)
Lemma quorum_intersect n (P Q : list Z) :
  0 < n → NoDup P → NoDup Q → n / 2 < zlen P → n / 2 < zlen Q →
  (∀ j, j ∈ P → 0 <= j < n) → (∀ j, j ∈ Q → 0 <= j < n) → ∃ j, j ∈ P ∧ j ∈ Q.
Proof.
  intros Hn NP NQ HP HQ BP BQ.
  destruct (decide (Exists (λ j, j ∈ Q) P)) as [(j & ? & ?)%Exists_exists|Hno]; [eauto|exfalso].
  assert (NoDup (P ++ Q)) as ND.
  { apply NoDup_app. split_and!; try done. intros j ??. apply Hno, Exists_exists. eauto. }
  assert (P ++ Q ⊆ Z.of_nat <$> seq 0 (Z.to_nat n)) as Hsub.
  { intros j [Hj%BP|Hj%BQ]%elem_of_app; apply list_elem_of_fmap; exists (Z.to_nat j);
      (split; [lia|apply elem_of_seq; lia]). }
  pose proof (submseteq_length _ _ (NoDup_submseteq _ _ ND Hsub)) as Hl.
  rewrite length_app, length_fmap, length_seq in Hl. unfold zlen in *.
  assert (n < 2 * (n / 2) + 2) by (pose proof (Z.mod_pos_bound n 2); pose proof (Z.div_mod n 2); lia).
  lia.
Qed.

Lemma locked_unique n s l t Q m P :
  VInv n s → locked n (ballots s) l t Q →
  NoDup P → n / 2 < zlen P → (∀ j, j ∈ P → (j, t, m) ∈ ballots s) → m = l.
Proof.
  intros V (NQ & LQ & HQ) NP LP HP.
  destruct (quorum_intersect n P Q) as (j & Hj & Hj'); try done; [apply V|..].
  - intros j Hj%HP. by apply (vi_ballot _ _ V) in Hj as [? _].
  - intros j [Hj _]%HQ. by apply (vi_ballot _ _ V) in Hj as [? _].
  - apply (HQ j Hj'), HP, Hj.
Qed.

Lemma VInv_leader_unique n s l m t :
  VInv n s → (l, t) ∈ leaders s → (m, t) ∈ leaders s → l = m.
Proof.
  intros V Hl Hm. destruct (vi_locked _ _ V _ _ Hl) as (Q & HQ).
  destruct (vi_locked _ _ V _ _ Hm) as (P & NP & LP & HP).
  symmetry. eapply (locked_unique n s l t Q m P); try done. intros j Hj. by apply HP.
Qed.

Lemma VInv_init n s : vinit n s → VInv n s.
Proof.
  intros (? & Hb & Hl & Ht). split; rewrite ?Hb, ?Hl; try (intros; set_solver).
  intros i v Hi. rewrite (Ht _ _ Hi). lia.
Qed.

(** A peer that moves to a later view of its term, or to a later term, keeps the
    bounds on the ballots. *)
Lemma vi_ballot_mono n vs bs ls i v v' :
  VInv n (mkVState vs bs ls) → vs !! i = Some v → v.1.1 <= v'.1.1 →
  ∀ j t c, (j, t, c) ∈ bs →
    0 <= j < n ∧ 0 <= c < n ∧ 1 <= t ∧ ∃ w, <[i := v']> vs !! j = Some w ∧ t <= w.1.1.
Proof.
  intros V Hi Hle j t c Hb. destruct (vi_ballot _ _ V _ _ _ Hb) as (? & ? & ? & w & Hw & ?).
  do 3 (split; [done|]). destruct (decide (i = j)) as [->|].
  - rewrite lookup_insert_eq. simpl in Hw. simplify_eq. eexists; split; [done|lia].
  - rewrite lookup_insert_ne by done. eauto.
Qed.

Lemma vi_term_mono n vs bs ls i v v' :
  VInv n (mkVState vs bs ls) → vs !! i = Some v → v.1.1 <= v'.1.1 →
  ∀ j w, <[i := v']> vs !! j = Some w → 0 <= w.1.1.
Proof.
  intros V Hi Hle j w [[<- <-]|[_ Hw]]%lookup_insert_Some; [|by eapply (vi_term _ _ V)].
  pose proof (vi_term _ _ V _ _ Hi). lia.
Qed.

(** No ballot of a peer is for a term it has not reached. *)
Lemma no_future_ballot n vs bs ls i ct vf lt t c :
  VInv n (mkVState vs bs ls) → vs !! i = Some (ct, vf, lt) → ct < t → (i, t, c) ∉ bs.
Proof.
  intros V Hi Ht Hb. destruct (vi_ballot _ _ V _ _ _ Hb) as (_ & _ & _ & w & Hw & ?).
  simpl in Hw. simplify_eq. simpl in *. lia.
Qed.

Lemma VInv_join n vs bs ls i ct vf lt t :
  VInv n (mkVState vs bs ls) → vs !! i = Some (ct, vf, lt) → ct < t →
  VInv n (mkVState (<[i := (t, -1, t)]> vs) bs ls).
Proof.
  intros V Hi Ht. split; try apply V.
  - eapply vi_ballot_mono; [done..|simpl; lia].
  - eapply vi_term_mono; [done..|simpl; lia].
  - simpl. intros j ??? [[<- ?]|[_ Hj]]%lookup_insert_Some; [simplify_eq; by left|by eapply (vi_heard _ _ V)].
  - simpl. intros j ???? [[<- ?]|[_ Hj]]%lookup_insert_Some Hb; [|by eapply (vi_vote _ _ V)].
    simplify_eq. by eapply no_future_ballot in Hb.
Qed.

Lemma VInv_reset n vs bs ls i ct vf lt l :
  VInv n (mkVState vs bs ls) → vs !! i = Some (ct, vf, lt) → ct ≠ lt → (l, ct) ∈ ls → l ≠ i →
  VInv n (mkVState (<[i := (ct, -1, ct)]> vs) bs ls).
Proof.
  intros V Hi Hne Hl Hli. split; try apply V.
  - eapply vi_ballot_mono; [done..|simpl; lia].
  - eapply vi_term_mono; [done..|simpl; lia].
  - simpl. intros j ??? [[<- ?]|[_ Hj]]%lookup_insert_Some; [simplify_eq; by left|by eapply (vi_heard _ _ V)].
  - simpl. intros j ???? [[<- ?]|[_ Hj]]%lookup_insert_Some Hb; [|by eapply (vi_vote _ _ V)].
    simplify_eq. right. destruct (vi_heard _ _ V _ _ _ _ Hi) as [?|[->|?]]; [done| |eauto].
    apply (vi_ballot _ _ V) in Hb as (_ & _ & ? & _). lia.
Qed.

(** Casting a ballot of peer [i] in [t] that is its first one in that term, or
    its second one once the first was given free. *)
Lemma locked_cast n bs i t c l u Q :
  locked n bs l u Q → (u = t → i ∈ Q → c = l) → locked n ((i, t, c) :: bs) l u Q.
Proof.
  intros (NQ & LQ & HQ) Hc. split_and!; [done..|]. intros j Hj. destruct (HQ j Hj) as [Hb Hu].
  split; [by right|]. intros c' [?|?]%elem_of_cons; [simplify_eq; auto|auto].
Qed.

Lemma VInv_stand n vs bs ls i ct vf lt :
  VInv n (mkVState vs bs ls) → vs !! i = Some (ct, vf, lt) → 0 <= i < n →
  VInv n (mkVState (<[i := (ct + 1, i, lt)]> vs) ((i, ct + 1, i) :: bs) ls).
Proof.
  intros V Hi Hr. pose proof (vi_term _ _ V _ _ Hi) as H0. simpl in H0.
  assert (∀ c, (i, ct + 1, c) ∉ bs) as Hno by (intros c; eapply no_future_ballot; [done..|lia]).
  split; [apply V|..].
  - simpl. intros j t c [?|Hb]%elem_of_cons.
    + simplify_eq. split_and!; try lia. rewrite lookup_insert_eq. eexists; split; [done|simpl; lia].
    + eapply (vi_ballot_mono n vs bs ls i); [done..|simpl; lia|done].
  - eapply vi_term_mono; [done..|simpl; lia].
  - simpl. intros j ??? [[<- ?]|[_ Hj]]%lookup_insert_Some.
    + simplify_eq. right; right. apply elem_of_cons. by left.
    + destruct (vi_heard _ _ V _ _ _ _ Hj) as [?|[?|?]]; [auto..|]. right; right. by right.
  - simpl. intros j ???? [[<- ?]|[Hij Hj]]%lookup_insert_Some [?|Hb]%elem_of_cons; simplify_eq; auto.
    + by destruct (Hno c).
    + destruct (vi_vote _ _ V _ _ _ _ _ Hj Hb) as [?|(? & ?)]; [by left|right; split; [by right|done]].
  - simpl. intros j t c c' [?|Hb]%elem_of_cons [?|Hb']%elem_of_cons Hne; simplify_eq;
      [by destruct (Hno c')|by destruct (Hno c)|by apply (vi_first _ _ V j t c c')].
  - simpl. intros l t Hl. destruct (vi_locked _ _ V _ _ Hl) as (Q & HQ). exists Q.
    apply locked_cast; [done|]. intros -> Hin. destruct HQ as (_ & _ & HQ).
    destruct (HQ _ Hin) as [Hb _]. by destruct (Hno l).
Qed.

(** A peer free to vote for [c] that has voted for another in its term has given
    its own vote free, and another peer leads the term. *)
Lemma second_vote n vs bs ls i ct vf lt c c0 :
  VInv n (mkVState vs bs ls) → vs !! i = Some (ct, vf, lt) → vf = -1 ∨ vf = c →
  (i, ct, c0) ∈ bs → c0 ≠ c →
  (i, ct, i) ∈ bs ∧ ct = lt ∧ ∃ l, l ≠ i ∧ (l, ct) ∈ ls.
Proof.
  intros V Hi Hf Hb Hne. pose proof (vi_ballot _ _ V _ _ _ Hb) as (_ & ? & _).
  destruct (vi_vote _ _ V _ _ _ _ _ Hi Hb) as [?|?]; [lia|done].
Qed.

Lemma VInv_grant n vs bs ls i ct vf lt c :
  VInv n (mkVState vs bs ls) → vs !! i = Some (ct, vf, lt) → 1 <= ct → vf = -1 ∨ vf = c →
  0 <= i < n → 0 <= c < n →
  VInv n (mkVState (<[i := (ct, c, lt)]> vs) ((i, ct, c) :: bs) ls).
Proof.
  intros V Hi H1 Hf Hr Hc.
  assert (∀ c0, (i, ct, c0) ∈ bs → c0 ≠ c → (i, ct, i) ∈ bs ∧ ct = lt ∧ ∃ l, l ≠ i ∧ (l, ct) ∈ ls)
    as Hsec by (intros; by eapply second_vote).
  split; [apply V|..].
  - simpl. intros j t c' [?|Hb]%elem_of_cons.
    + simplify_eq. split_and!; try lia. rewrite lookup_insert_eq. eexists; split; [done|simpl; lia].
    + eapply (vi_ballot_mono n vs bs ls i); [done..|simpl; lia|done].
  - eapply vi_term_mono; [done..|simpl; lia].
  - simpl. intros j ??? [[<- ?]|[_ Hj]]%lookup_insert_Some; simplify_eq.
    + destruct (vi_heard _ _ V _ _ _ _ Hi) as [?|[?|?]]; [auto..|]. right; right. by right.
    + destruct (vi_heard _ _ V _ _ _ _ Hj) as [?|[?|?]]; [auto..|]. right; right. by right.
  - simpl. intros j ??? c0 [[<- ?]|[Hij Hj]]%lookup_insert_Some [?|Hb]%elem_of_cons; simplify_eq; auto.
    + destruct (decide (c0 = vf0)) as [->|Hne]; [by left|]. destruct (Hsec _ Hb Hne) as (? & ? & ?).
      right. split; [by right|done].
    + destruct (vi_vote _ _ V _ _ _ _ _ Hj Hb) as [?|(? & ?)]; [by left|right; split; [by right|done]].
  - simpl. intros j t c1 c2 [?|Hb]%elem_of_cons [?|Hb']%elem_of_cons Hne; simplify_eq.
    + destruct (Hsec _ Hb') as (_ & _ & l & _ & ?); eauto.
    + destruct (Hsec _ Hb) as (_ & _ & l & _ & ?); eauto.
    + by apply (vi_first _ _ V j t c1 c2).
  - simpl. intros l t Hl. destruct (vi_locked _ _ V _ _ Hl) as (Q & HQ). exists Q.
    apply locked_cast; [done|]. intros -> Hin. destruct (decide (c = l)) as [|Hne]; [done|exfalso].
    destruct HQ as (_ & _ & HQ). destruct (HQ _ Hin) as [Hb Hu].
    destruct (Hsec l Hb) as (Hself & _ & l' & Hl' & Hlead); [done|].
    apply Hu in Hself. assert (l' = l) by by eapply (VInv_leader_unique _ _ l' l ct V). congruence.
Qed.

Lemma VInv_elect n vs bs ls l t Q :
  VInv n (mkVState vs bs ls) → NoDup Q → n / 2 < zlen Q → (∀ j, j ∈ Q → (j, t, l) ∈ bs) →
  VInv n (mkVState vs bs ((l, t) :: ls)).
Proof.
  intros V NQ LQ HQ. split; try apply V.
  - simpl. intros i ct vf lt c Hi Hb.
    destruct (vi_vote _ _ V _ _ _ _ _ Hi Hb) as [?|(? & ? & m & ? & ?)]; [by left|right].
    split_and!; [done..|]. exists m. split; [done|by right].
  - simpl. intros j u c c' Hb Hb' Hne. destruct (vi_first _ _ V _ _ _ _ Hb Hb' Hne) as [m ?].
    exists m. by right.
  - simpl. intros m u [?|Hm]%elem_of_cons; [simplify_eq|by apply (vi_locked _ _ V)].
    destruct (decide (Exists (λ x, x.2 = t) ls)) as [((m & ?) & Hm & Ht)%Exists_exists|Hno].
    + simpl in Ht. subst. destruct (vi_locked _ _ V _ _ Hm) as (P & HP). exists P.
      by rewrite (locked_unique n _ m t P l Q V HP NQ LQ HQ).
    + exists Q. split_and!; [done..|]. intros j Hj. split; [by apply HQ|]. intros c Hb.
      destruct (decide (c = l)) as [|Hne]; [done|]. exfalso. apply Hno, Exists_exists.
      destruct (vi_first _ _ V j t c l Hb (HQ _ Hj) Hne) as [m Hm]. by exists (m, t).
Qed.

Lemma VInv_step n s s' : vstep n s s' → VInv n s → VInv n s'.
Proof.
  intros [] V; [by eapply VInv_join|by eapply VInv_reset|by eapply VInv_stand
    |by eapply VInv_grant|by eapply VInv_elect].
Qed.

Lemma VInv_reachable n s s' : vinit n s → rtc (vstep n) s s' → VInv n s'.
Proof.
  intros Hi Hs. apply VInv_init in Hi. induction Hs as [|s1 s2 s3 Hs _ IH]; [done|].
  apply IH. by eapply VInv_step.
Qed.
