(* ===== verification/RaftElection.v ===== *)
(** * A cluster of Raft peers and its elections

    Peers run the handlers of [Raft] and exchange RPCs over a network that may
    delay, reorder or lose a request or its reply, and delivers each at most
    once.  [cstep] performs one event.  Without restarts the cluster follows the
    machine of [Voting], so a term has at most one leader; with a restart it can
    have two. *)

From S2P Require Import Prelude LabGob Persister Raft RaftLog RaftState Voting.

Section cluster.
Context {Cmd : Type} `{!Gob (PersistentState Cmd)}.
Implicit Types (rf : Raft Cmd).

(** The reply of an AppendEntries or InstallSnapshot call on its way back. *)
Inductive Ack :=
  | AckAppendEntries (src server : Z) (args : AppendEntriesArgs Cmd) (reply : AppendEntriesReply)
  | AckInstallSnapshot (src server : Z) (args : InstallSnapshotArg) (reply : InstallSnapshotReply).

Record Cluster := mkCluster {
  nodes : gmap Z (Raft Cmd);
  elections : list Election;                            (* one per issueLeaderElection *)
  rvcalls : gmap (nat * Z) (option RequestVoteReply);   (* its goroutines, by election and server *)
  net : list (Z * Rpc Cmd);                             (* requests in flight, with the caller *)
  acks : list Ack;
  loops : list (Z * Z);                                 (* terms for which becomeLeader started its loops *)
  cast : list (Z * Z * Z);                              (* the votes cast so far, for the proofs *)
}.

#[export] Instance eta_Cluster : Eta Cluster := λ c,
  mkCluster (nodes c) (elections c) (rvcalls c) (net c) (acks c) (loops c) (cast c).
#[export] Instance set_nodes : Setter nodes.
Proof. setter. Defined.
#[export] Instance set_elections : Setter elections.
Proof. setter. Defined.
#[export] Instance set_rvcalls : Setter rvcalls.
Proof. setter. Defined.
#[export] Instance set_net : Setter net.
Proof. setter. Defined.
#[export] Instance set_acks : Setter acks.
Proof. setter. Defined.
#[export] Instance set_loops : Setter loops.
Proof. setter. Defined.
#[export] Instance set_cast : Setter cast.
Proof. setter. Defined.

(** The operations of a peer that send nothing and do not concern its vote. *)
Inductive LocalOp :=
  | OpStart (command : Cmd)
  | OpSnapshot (idx : Z) (data : bytes)
  | OpUpdateCommit (leaderTerm : Z)
  | OpApplyTake
  | OpApplyDone (applyLogs : list (RaftLogEntry Cmd))
  | OpKill.

Definition localOp (op : LocalOp) rf : option (Raft Cmd) :=
  match op with
  | OpStart command => fst <$> Start command rf
  | OpSnapshot idx data => Snapshot idx data rf
  | OpUpdateCommit leaderTerm => from_option id rf <$> updateCommitIndex leaderTerm rf
  | OpApplyTake => '(rf, _, _) ← applyLogTake rf; Some rf
  | OpApplyDone applyLogs => Some (applyLogDone applyLogs rf)
  | OpKill => Some (Kill rf)
  end.

Inductive Event :=
  | Tick (i : Z) (env : Env)                  (* a round of [ticker] *)
  | Deliver (k : nat) (env : Env)             (* the [k]-th request in flight is handled *)
  | Drop (k : nat)                            (* it is lost: its call returns false *)
  | Return (k : nat) (ok : bool)              (* a reply reaches its caller, or is lost *)
  | Vote (k : nat) (server : Z) (env : Env)   (* [server] handles election [k]'s RequestVote *)
  | VoteBack (k : nat) (server : Z) (ok : bool)
  | Replicate (i server t : Z)                (* a round of [replicateLog] *)
  | Local (i : Z) (op : LocalOp).

Definition set_node (i : Z) rf (c : Cluster) : Cluster := c <| nodes := <[i := rf]> (nodes c) |>.

(** New goroutines: those of an election, those that send AppendEntries and
    InstallSnapshot. *)
Definition start_election (el : Election) (calls : list (Rpc Cmd)) (c : Cluster) : Cluster :=
  let k := length (elections c) in
  c <| elections := elections c ++ [el] |>
    <| rvcalls := foldr (λ r m, match r with CallRequestVote s _ => <[(k, s) := None]> m | _ => m end)
                        (rvcalls c) calls |>
    <| cast := (rv_CandidateId (el_args el), rv_Term (el_args el), rv_CandidateId (el_args el)) :: cast c |>.

Definition send (i : Z) (calls : list (Rpc Cmd)) (c : Cluster) : Cluster :=
  c <| net := net c ++ ((i,.) <$> calls) |>.

(** The zero replies [Call] leaves when it returns false. *)
Definition lostAE := mkAEReply 0 false false 0 0.
Definition lostIS := mkISReply 0 false.
Definition lostRV := mkRVReply 0 false.

(** [sendAppendEntries] or [sendInstallSnapshot] goes on at the caller. *)
Definition callReturns (ok : bool) (a : Ack) (c : Cluster) : option Cluster :=
  match a with
  | AckAppendEntries src server args reply =>
    rf ← nodes c !! src;
    '(rf, _) ← sendAppendEntries server args ok (if ok then reply else lostAE) rf;
    Some (set_node src rf c)
  | AckInstallSnapshot src server args reply =>
    rf ← nodes c !! src;
    '(rf, _) ← sendInstallSnapshot server args ok (if ok then reply else lostIS) rf;
    Some (set_node src rf c)
  end.

Definition deliver (env : Env) (src : Z) (r : Rpc Cmd) (c : Cluster) : option Cluster :=
  match r with
  | CallAppendEntries server args =>
    rf ← nodes c !! server;
    '(rf, reply) ← AppendEntries env args rf;
    Some (set_node server rf (c <| acks := AckAppendEntries src server args reply :: acks c |>))
  | CallInstallSnapshot server args =>
    rf ← nodes c !! server;
    '(rf, reply) ← InstallSnapshot env args rf;
    Some (set_node server rf (c <| acks := AckInstallSnapshot src server args reply :: acks c |>))
  | CallRequestVote _ _ => None
  end.

Definition lost (src : Z) (r : Rpc Cmd) : option Ack :=
  match r with
  | CallAppendEntries server args => Some (AckAppendEntries src server args lostAE)
  | CallInstallSnapshot server args => Some (AckInstallSnapshot src server args lostIS)
  | CallRequestVote _ _ => None
  end.

(** [updateCommitIndex] only runs in the loops that [becomeLeader] started. *)
Definition running (op : LocalOp) (i : Z) rf (c : Cluster) : bool :=
  match op with
  | OpUpdateCommit t => negb (killed rf) && bool_decide ((i, t) ∈ loops c)
  | _ => true
  end.

Definition cstep (ev : Event) (c : Cluster) : option Cluster :=
  match ev with
  | Tick i env =>
    rf ← nodes c !! i;
    if killed rf then None
    else
      '(rf, el, calls) ← ticker env rf;
      let c := set_node i rf c in
      Some (match el with Some el => start_election el calls c | None => send i calls c end)
  | Deliver k env =>
    '(src, r) ← net c !! k;
    deliver env src r (c <| net := delete k (net c) |>)
  | Drop k =>
    '(src, r) ← net c !! k;
    a ← lost src r;
    callReturns false a (c <| net := delete k (net c) |>)
  | Return k ok =>
    a ← acks c !! k;
    callReturns ok a (c <| acks := delete k (acks c) |>)
  | Vote k server env =>
    el ← elections c !! k;
    call ← rvcalls c !! (k, server);
    rf ← nodes c !! server;
    match call with
    | Some _ => None
    | None =>
      '(rf, reply) ← RequestVote env (el_args el) rf;
      let c := set_node server rf (c <| rvcalls := <[(k, server) := Some reply]> (rvcalls c) |>) in
      Some (if rvr_VoteGranted reply
            then c <| cast := (server, CurrentTerm rf, rv_CandidateId (el_args el)) :: cast c |>
            else c)
    end
  | VoteBack k server ok =>
    el ← elections c !! k;
    call ← rvcalls c !! (k, server);
    let i := rv_CandidateId (el_args el) in
    rf ← nodes c !! i;
    reply ← (if ok then call else Some lostRV);
    '(rf, el, won, calls) ← voteReply ok reply el rf;
    let c := send i calls (set_node i rf
      (c <| rvcalls := delete (k, server) (rvcalls c) |>
         <| elections := <[k := el]> (elections c) |>)) in
    Some (if (won : bool) then c <| loops := (i, CurrentTerm rf) :: loops c |> else c)
  | Replicate i server t =>
    rf ← nodes c !! i;
    if killed rf || negb (bool_decide ((i, t) ∈ loops c)) || (server =? i) then None
    else
      r ← replicateLog server t rf;
      Some (match r with Some calls => send i calls c | None => c end)
  | Local i op =>
    rf ← nodes c !! i;
    if negb (running op i rf c) then None
    else
      rf ← localOp op rf;
      Some (set_node i rf c)
  end.

Definition step (c c' : Cluster) : Prop := ∃ ev, cstep ev c = Some c'.

(** A fresh cluster of [n] peers with empty stable storage. *)
Definition init_cluster (env : Z → Env) (n : Z) : Cluster :=
  mkCluster (list_to_map ((λ i, (i, Make (env i) n i MakePersister)) <$> upto n)) [] ∅ [] [] [] [].

(** Peer [i] crashes and is made again from its persister.  Its goroutines and
    the calls it had in flight are gone. *)
Definition ack_src (a : Ack) : Z :=
  match a with AckAppendEntries src _ _ _ | AckInstallSnapshot src _ _ _ => src end.

Definition restart_node (i : Z) (env : Env) (c : Cluster) : option Cluster :=
  rf ← nodes c !! i;
  Some (set_node i (restart env rf)
    (c <| net := filter (λ m, m.1 ≠ i) (net c) |>
       <| acks := filter (λ a, ack_src a ≠ i) (acks c) |>
       <| loops := filter (λ l, l.1 ≠ i) (loops c) |>
       <| rvcalls := filter (λ kv, (rv_CandidateId ∘ el_args <$> elections c !! kv.1.1) ≠ Some i) (rvcalls c) |>)).

(** ** What each operation does to the vote *)

Definition vview rf : View := (CurrentTerm rf, VotedFor rf, LeaderTerm rf).
Definition ids rf : Z * Z * Z * Z := (me rf, npeers rf, Half rf, TotalNum rf).

(** [t = CurrentTerm rf] is the term of a leader's message in the last case. *)
Inductive moved (leads : Z → Prop) rf rf' : Prop :=
  | moved_same :
    ids rf' = ids rf → vview rf' = vview rf → (State rf' = Leader → State rf = Leader) →
    moved leads rf rf'
  | moved_join t :
    ids rf' = ids rf → CurrentTerm rf < t → vview rf' = (t, -1, t) → State rf' = Follower →
    moved leads rf rf'
  | moved_reset :
    ids rf' = ids rf → leads (CurrentTerm rf) → CurrentTerm rf ≠ LeaderTerm rf →
    vview rf' = (CurrentTerm rf, -1, CurrentTerm rf) → State rf' = Follower →
    moved leads rf rf'.

(** The parts of the state the vote depends on. *)
Definition vote_state rf := (ids rf, vview rf, State rf).

Lemma moved_then leads rf rf1 rf' :
  moved leads rf rf1 → vote_state rf' = vote_state rf1 → moved leads rf rf'.
Proof.
  intros M [= H1 H2 H3 H4 H5 H6 H7 H8].
  assert (ids rf' = ids rf1) as Hi by (unfold ids; congruence).
  assert (vview rf' = vview rf1) as Hv by (unfold vview; congruence).
  destruct M as [? ? ?|t ? ? ? ?|]; [eapply moved_same|eapply (moved_join _ _ _ t)|eapply moved_reset]; try congruence; try done.
  by rewrite H8.
Qed.

Lemma moved_refl leads rf rf' : vote_state rf' = vote_state rf → moved leads rf rf'.
Proof. intros E. eapply moved_then; [|done]. by apply moved_same. Qed.

Lemma stepDown_moved leads t rf : CurrentTerm rf < t → moved leads rf (stepDown t rf).
Proof. intros. by eapply moved_join. Qed.

Lemma acceptLeader_moved env t rf rf1 b :
  CurrentTerm rf <= t → acceptLeader env t rf = (rf1, b) → moved (λ u, u = t) rf rf1.
Proof.
  unfold acceptLeader. simpl. intros Hle.
  destruct (Z.eqb_spec t (LeaderTerm rf)) as [Hl|Hl]; simpl;
    destruct (Z.ltb_spec (CurrentTerm rf) t) as [Ht|Ht]; intros [= <- <-].
  - by eapply moved_join.
  - by apply moved_same.
  - by eapply moved_join.
  - replace t with (CurrentTerm rf) in * by lia. by apply moved_reset.
Qed.

Lemma mergeEntries_vote args rf rf' b :
  mergeEntries args rf = Some (rf', b) → vote_state rf' = vote_state rf.
Proof.
  unfold mergeEntries. intros HM. destruct (_ =? 0); [by simplify_eq|].
  inv_bind HM. destruct x as [idx rest]. inv_bind HM. destruct x as [rf1 ch]. simplify_eq.
  destruct (0 <? _); [|by simplify_eq]. inv_bind E0. by simplify_eq.
Qed.

Lemma AppendEntries_moved env args rf rf' reply :
  AppendEntries env args rf = Some (rf', reply) → moved (λ u, u = ae_Term args) rf rf'.
Proof.
  unfold AppendEntries. intros HA.
  destruct (Z.ltb_spec (ae_Term args) (CurrentTerm rf)); [simplify_eq; by apply moved_refl|].
  destruct (acceptLeader env (ae_Term args) rf) as [rf1 ch1] eqn:EL.
  apply acceptLeader_moved in EL; [|done]. inv_bind HA. destruct x as [r|]; [by simplify_eq|].
  inv_bind HA. destruct x as [rf2 ch2]. apply mergeEntries_vote in E0. injection HA as <- _.
  eapply moved_then; [done|]. etransitivity; [|exact E0]. unfold advanceCommit.
  by destruct (_ <? _), (ch1 || ch2).
Qed.

Lemma InstallSnapshot_moved env args rf rf' reply :
  InstallSnapshot env args rf = Some (rf', reply) → moved (λ u, u = is_Term args) rf rf'.
Proof.
  unfold InstallSnapshot. intros HI.
  destruct (Z.ltb_spec (is_Term args) (CurrentTerm rf)); [simplify_eq; by apply moved_refl|].
  destruct (acceptLeader env (is_Term args) rf) as [rf1 ch1] eqn:EL.
  apply acceptLeader_moved in EL; [|done].
  destruct (_ || _); [injection HI as <- _; by eapply moved_then|].
  inv_bind HI. destruct x as [[[? ?] ?] ?]. injection HI as <- _. by eapply moved_then.
Qed.

Lemma sendAppendEntries_moved leads server args ok reply rf rf' b :
  sendAppendEntries server args ok reply rf = Some (rf', b) → moved leads rf rf'.
Proof.
  unfold sendAppendEntries. intros HS.
  destruct (Z.ltb_spec (CurrentTerm rf) (aer_Term reply)).
  { injection HS as <- _. by apply stepDown_moved. }
  apply moved_refl. repeat (case_match; [|]); simplify_eq; try done;
    repeat (inv_bind HS); try case_match; repeat (inv_bind HS); by simplify_eq.
Qed.

Lemma sendInstallSnapshot_moved leads server args ok reply rf rf' b :
  sendInstallSnapshot server args ok reply rf = Some (rf', b) → moved leads rf rf'.
Proof.
  unfold sendInstallSnapshot. intros HS.
  destruct (Z.ltb_spec (CurrentTerm rf) (isr_Term reply)).
  { injection HS as <- _. by apply stepDown_moved. }
  apply moved_refl. repeat (case_match; [|]); simplify_eq; try done; repeat (inv_bind HS); by simplify_eq.
Qed.

Lemma commitScan_vote t rf n rf' : commitScan t rf n = Some rf' → vote_state rf' = vote_state rf.
Proof.
  induction n as [|n IH]; simpl; intros HC; [by simplify_eq|]. inv_bind HC.
  destruct (negb _); [by simplify_eq|]. inv_bind HC. case_match; [by simplify_eq|auto].
Qed.

Lemma localOp_vote op rf rf' : localOp op rf = Some rf' → vote_state rf' = vote_state rf.
Proof.
  destruct op; simpl; intros HO.
  - apply fmap_Some in HO as ([r ?] & HS & ->). unfold Start in HS.
    destruct (negb _); [by simplify_eq|]. inv_bind HS. inv_bind HS. inv_bind HS. by simplify_eq.
  - unfold Snapshot in HO. destruct (_ <? _); [by simplify_eq|].
    inv_bind HO. destruct x as [[[? ?] ?] ?]. by simplify_eq.
  - apply fmap_Some in HO as (r & HU & ->). unfold updateCommitIndex in HU.
    destruct (negb _); [by simplify_eq|]. inv_bind HU. simplify_eq. by eapply commitScan_vote.
  - inv_bind HO. destruct x as [[? ?] ?]. unfold applyLogTake in E. inv_bind E. by simplify_eq.
  - simplify_eq. unfold applyLogDone. by case_match.
  - by simplify_eq.
Qed.

Lemma RequestVote_moved env args rf rf' reply :
  RequestVote env args rf = Some (rf', reply) →
  ∃ rf1, moved (λ _, False) rf rf1 ∧ ids rf' = ids rf1 ∧ State rf' = State rf1 ∧
    if rvr_VoteGranted reply
    then CurrentTerm rf1 = rv_Term args ∧ (VotedFor rf1 = -1 ∨ VotedFor rf1 = rv_CandidateId args) ∧
         vview rf' = (CurrentTerm rf1, rv_CandidateId args, LeaderTerm rf1)
    else vview rf' = vview rf1.
Proof.
  unfold RequestVote. intros HR.
  destruct (Z.ltb_spec (rv_Term args) (CurrentTerm rf)) as [|Hle].
  { simplify_eq. exists rf'. split_and!; try done. by apply moved_refl. }
  set (rf1 := if CurrentTerm rf <? rv_Term args then stepDown (rv_Term args) rf else rf) in *.
  assert (moved (λ _, False) rf rf1 ∧ CurrentTerm rf1 = rv_Term args) as [M HT].
  { subst rf1. destruct (Z.ltb_spec (CurrentTerm rf) (rv_Term args)).
    - split; [by apply stepDown_moved|done].
    - split; [by apply moved_refl|lia]. }
  exists rf1. split; [done|].
  destruct (_ || _) eqn:EV; [|by simplify_eq].
  inv_bind HR. destruct x as [li lt]. destruct (_ <? lt); [by simplify_eq|].
  destruct (_ && _); [by simplify_eq|]. injection HR as <- <-. simpl.
  split_and!; try done. apply orb_true_iff in EV as [?%Z.eqb_eq|?%Z.eqb_eq]; auto.
Qed.

(** The requests of a leader carry its term and go to other peers. *)
Definition from_leader (i t : Z) (r : Rpc Cmd) : Prop :=
  match r with
  | CallAppendEntries s args => s ≠ i ∧ ae_Term args = t
  | CallInstallSnapshot s args => s ≠ i ∧ is_Term args = t
  | CallRequestVote _ _ => False
  end.

Lemma sendHeartBeat_calls rf calls :
  sendHeartBeat rf = Some calls → Forall (from_leader (me rf) (CurrentTerm rf)) calls.
Proof.
  unfold sendHeartBeat. intros HS. apply Forall_forall. intros r Hr.
  apply mapM_Some_1 in HS. apply list_elem_of_lookup in Hr as [k Hr].
  destruct (Forall2_lookup_r _ _ _ _ _ HS Hr) as (i & Hi%list_elem_of_lookup_2 & Hc).
  apply list_elem_of_filter in Hi as [Hi _]. inv_bind Hc. simplify_eq. unfold heartBeatArgs in E.
  inv_bind E. inv_bind E. destruct x1. by simplify_eq.
Qed.

Lemma becomeLeader_calls rf rf' calls :
  becomeLeader rf = Some (rf', calls) →
  vote_state rf' = vote_state rf ∧ Forall (from_leader (me rf) (CurrentTerm rf)) calls.
Proof.
  unfold becomeLeader. intros HB. inv_bind HB. destruct x as [li lt]. inv_bind HB. inv_bind HB.
  injection HB as <- <-. apply sendHeartBeat_calls in E1. done.
Qed.

Lemma ticker_moved env rf rf' el calls :
  ticker env rf = Some (rf', el, calls) →
  ids rf' = ids rf ∧
  match el with
  | Some el => vview rf' = (CurrentTerm rf + 1, me rf, LeaderTerm rf) ∧ State rf' = Candidate ∧
      votes el = 1 ∧ rv_Term (el_args el) = CurrentTerm rf + 1 ∧ rv_CandidateId (el_args el) = me rf ∧
      Forall (λ r, ∃ s a, r = CallRequestVote s a ∧ s ≠ me rf) calls
  | None => rf' = rf ∧ Forall (from_leader (me rf) (CurrentTerm rf)) calls ∧
      (calls ≠ [] → State rf = Leader)
  end.
Proof.
  assert (∀ rf1 args, prepareElection env rf = Some (rf1, args) →
    ids rf1 = ids rf ∧ vview rf1 = (CurrentTerm rf + 1, me rf, LeaderTerm rf) ∧ State rf1 = Candidate ∧
    rv_Term args = CurrentTerm rf + 1 ∧ rv_CandidateId args = me rf) as HP.
  { unfold prepareElection. intros rf1 args HP. inv_bind HP. destruct x. by simplify_eq. }
  assert (∀ rf1 args, me rf1 = me rf →
    Forall (λ r : Rpc Cmd, ∃ s a, r = CallRequestVote s a ∧ s ≠ me rf) (issueLeaderElection args rf1).2) as HC.
  { intros rf1 args Hm. apply Forall_fmap, Forall_forall. intros s Hs.
    apply list_elem_of_filter in Hs as [Hs _]. exists s, args. split; [done|congruence]. }
  unfold ticker. intros HT. destruct (State rf) eqn:ES.
  { inv_bind HT. simplify_eq. apply sendHeartBeat_calls in E. done. }
  all: case_match; [|by simplify_eq]; inv_bind HT; destruct x as [rf1 args];
    apply HP in E as (Hi & ? & ? & ? & ?); injection HT as <- <- <-;
    split_and!; try done; apply (HC rf1 args); unfold ids in Hi; congruence.
Qed.

Lemma voteReply_moved ok reply el rf rf' el' won calls :
  voteReply ok reply el rf = Some (rf', el', won, calls) →
  el_args el' = el_args el ∧
  votes el' = (if ok && rvr_VoteGranted reply then votes el + 1 else votes el) ∧
  if won
  then vview rf' = vview rf ∧ ids rf' = ids rf ∧ Half rf < votes el' ∧
       CurrentTerm rf = rv_Term (el_args el) ∧
       Forall (from_leader (me rf) (CurrentTerm rf)) calls
  else moved (λ _, False) rf rf' ∧ calls = [].
Proof.
  unfold voteReply. intros HV.
  destruct ok; simpl in HV; [|simplify_eq; split_and!; try done; by apply moved_refl].
  destruct (rvr_VoteGranted reply); simpl.
  - destruct (done el || _) eqn:ED; [simplify_eq; split_and!; try done; by apply moved_refl|].
    apply orb_false_iff in ED as [_ Hv%Z.leb_gt].
    destruct (Z.eqb_spec (CurrentTerm rf) (rv_Term (el_args el))) as [HT|]; simpl in HV;
      [|simplify_eq; split_and!; try done; by apply moved_refl].
    inv_bind HV. destruct x as [rf1 calls1]. apply becomeLeader_calls in E as [E HF].
    injection HV as <- <- <- <-. injection E as ???????. 
    split_and!; try done; unfold vview, ids; simpl in *; congruence.
  - destruct (Z.ltb_spec (CurrentTerm rf) (rvr_Term reply)); simplify_eq; split_and!; try done;
      [by apply stepDown_moved|by apply moved_refl].
Qed.

Lemma replicateLog_calls server t rf calls :
  server ≠ me rf → replicateLog server t rf = Some (Some calls) →
  Forall (from_leader (me rf) t) calls.
Proof.
  unfold replicateLog. intros Hs HR.
  destruct (Z.eqb_spec (CurrentTerm rf) t) as [<-|]; [|done]. simpl in HR.
  inv_bind HR. inv_bind HR. case_match; [simplify_eq; constructor|].
  case_match; [simplify_eq; by repeat constructor|].
  inv_bind HR. inv_bind HR. destruct x2. simplify_eq. by repeat constructor.
Qed.

(** ** The cluster follows the voting machine *)

Definition abs (c : Cluster) : VState := mkVState (vview <$> nodes c) (cast c) (loops c).

Definition node_ok (n : Z) (ls : list (Z * Z)) (i : Z) rf : Prop :=
  0 <= i < n ∧ ids rf = (i, n, n / 2, n) ∧ 0 <= CurrentTerm rf ∧
  (State rf = Leader → (i, CurrentTerm rf) ∈ ls).

(** A request in flight was sent by a peer that won its term. *)
Definition rpc_ok (ls : list (Z * Z)) (m : Z * Rpc Cmd) : Prop :=
  ∃ t, from_leader m.1 t m.2 ∧ (m.1, t) ∈ ls.

Definition cand (el : Election) : Z := rv_CandidateId (el_args el).
Definition eterm (el : Election) : Z := rv_Term (el_args el).

(** The votes an election has counted are those of distinct peers, whose
    goroutines have ended. *)
Definition counted_ok (calls : gmap (nat * Z) (option RequestVoteReply)) (bs : list (Z * Z * Z))
    (k : nat) (el : Election) : Prop :=
  ∃ counted, NoDup counted ∧ votes el = 1 + zlen counted ∧
    ∀ s, s ∈ counted → s ≠ cand el ∧ calls !! (k, s) = None ∧ (s, eterm el, cand el) ∈ bs.

Record CInv (n : Z) (c : Cluster) : Prop := {
  ci_nodes : ∀ i rf, nodes c !! i = Some rf → node_ok n (loops c) i rf;
  ci_net : ∀ m, m ∈ net c → rpc_ok (loops c) m;
  ci_calls : ∀ k s r, rvcalls c !! (k, s) = Some r → ∃ el, elections c !! k = Some el ∧ s ≠ cand el ∧
    ∀ reply, r = Some reply → rvr_VoteGranted reply = true → (s, eterm el, cand el) ∈ cast c;
  ci_elections : ∀ k el, elections c !! k = Some el →
    0 <= cand el < n ∧ 1 <= eterm el ∧ (cand el, eterm el, cand el) ∈ cast c ∧
    counted_ok (rvcalls c) (cast c) k el;
}.

Definition follows (n : Z) (c c' : Cluster) : Prop := rtc (vstep n) (abs c) (abs c') ∧ CInv n c'.

(** A peer whose vote moves, the rest of the cluster untouched. *)
Lemma CInv_set_node n c i rf rf' :
  CInv n c → nodes c !! i = Some rf → node_ok n (loops c) i rf' → CInv n (set_node i rf' c).
Proof.
  intros C Hi Hok. split; try apply C. simpl.
  intros j r [[<- <-]|[_ Hj]]%lookup_insert_Some; [done|by apply (ci_nodes _ _ C)].
Qed.

Lemma abs_set_node i rf c :
  abs (set_node i rf c) = mkVState (<[i := vview rf]> (vview <$> nodes c)) (cast c) (loops c).
Proof. unfold abs. simpl. by rewrite fmap_insert. Qed.

Lemma abs_lookup c i rf : nodes c !! i = Some rf → (vview <$> nodes c) !! i = Some (vview rf).
Proof. intros Hi. by rewrite lookup_fmap, Hi. Qed.

Lemma vview_terms rf ct vf lt : vview rf = (ct, vf, lt) → CurrentTerm rf = ct ∧ VotedFor rf = vf ∧ LeaderTerm rf = lt.
Proof. by intros [= ]. Qed.

Lemma moved_follows n c i rf rf' leads :
  CInv n c → nodes c !! i = Some rf → moved leads rf rf' →
  (∀ t, leads t → ∃ l, l ≠ i ∧ (l, t) ∈ loops c) → follows n c (set_node i rf' c).
Proof.
  intros C Hi M Hlead. destruct (ci_nodes _ _ C _ _ Hi) as (Hr & Hid & H0 & HL).
  unfold follows. rewrite abs_set_node. pose proof (abs_lookup c i rf Hi) as Hv.
  destruct M as [Hids Hvv HS|t Hids Ht Hvv HS|Hids Hl Hne Hvv HS]; rewrite Hvv.
  - split; [by rewrite insert_id|]. eapply CInv_set_node; [done..|].
    apply vview_terms in Hvv as (E & _). split_and!; try lia; [congruence|]. rewrite E. auto.
  - split; [eapply rtc_once, v_join; [done|lia]|].
    eapply CInv_set_node; [done..|]. apply vview_terms in Hvv as (E & _).
    split_and!; try lia; congruence.
  - destruct (Hlead _ Hl) as (l & Hli & Hin).
    split; [eapply rtc_once, v_reset; [done|done|done|congruence]|].
    eapply CInv_set_node; [done..|]. apply vview_terms in Hvv as (E & _).
    split_and!; try lia; congruence.
Qed.

(** Dropping messages, or adding requests of a peer that won its term. *)
Lemma CInv_send n c i t calls :
  CInv n c → Forall (from_leader i t) calls → (calls ≠ [] → (i, t) ∈ loops c) → CInv n (send i calls c).
Proof.
  intros C HF Hl. split; try apply C. simpl. intros m [Hm|Hm]%elem_of_app; [by apply (ci_net _ _ C)|].
  apply list_elem_of_fmap in Hm as (r & -> & Hr). exists t. simpl. split.
  - by eapply Forall_forall.
  - apply Hl. by destruct calls; [apply not_elem_of_nil in Hr|].
Qed.

Lemma CInv_drop n c ms as' :
  CInv n c → (∀ m, m ∈ ms → m ∈ net c) → CInv n (c <| net := ms |> <| acks := as' |>).
Proof. intros C Hm. split; try apply C. simpl. intros m ?. by apply (ci_net _ _ C), Hm. Qed.

Lemma elem_of_delete {A} (l : list A) k x : x ∈ delete k l → x ∈ l.
Proof. intros Hx. by eapply elem_of_submseteq, sublist_submseteq, sublist_delete. Qed.

Lemma callReturns_follows n c ok a c' :
  CInv n c → callReturns ok a c = Some c' → follows n c c'.
Proof.
  intros C HR. destruct a; simpl in HR; inv_bind HR; inv_bind HR; destruct x0; injection HR as <-;
    (eapply moved_follows; [done..| |]).
  - by eapply (sendAppendEntries_moved (λ _, False)).
  - done.
  - by eapply (sendInstallSnapshot_moved (λ _, False)).
  - done.
Qed.

Lemma deliver_follows n c env src r c' :
  CInv n c → rpc_ok (loops c) (src, r) → deliver env src r c = Some c' → follows n c c'.
Proof.
  intros C (t & HF & Hl) HD.
  destruct r as [s args|s args|]; simpl in HD, HF; [..|done]; destruct HF as [Hs Ht];
    inv_bind HD; inv_bind HD; destruct x0 as [rf' reply]; injection HD as <-.
  - destruct (moved_follows n (c <| acks := AckAppendEntries src s args reply :: acks c |>) s x rf'
      (λ u, u = ae_Term args)) as [HR HC]; try done.
    + by apply (CInv_drop n c (net c)).
    + by eapply AppendEntries_moved.
    + intros u ->. exists src. simpl. split; [congruence|by rewrite Ht].
  - destruct (moved_follows n (c <| acks := AckInstallSnapshot src s args reply :: acks c |>) s x rf'
      (λ u, u = is_Term args)) as [HR HC]; try done.
    + by apply (CInv_drop n c (net c)).
    + by eapply InstallSnapshot_moved.
    + intros u ->. exists src. simpl. split; [congruence|by rewrite Ht].
Qed.

Lemma follows_trans n c1 c2 c3 : follows n c1 c2 → (CInv n c2 → follows n c2 c3) → follows n c1 c3.
Proof. intros [R1 C1] H2. destruct (H2 C1) as [R2 C2]. split; [by etrans|done]. Qed.

(** New keys of the goroutine table belong to the new election. *)
Lemma start_calls (k : nat) (calls : list (Rpc Cmd)) (m : gmap (nat * Z) (option RequestVoteReply)) (k' : nat) (s : Z) r :
  foldr (λ r m, match r with CallRequestVote s _ => <[(k, s) := None]> m | _ => m end) m calls !! (k', s) = Some r →
  m !! (k', s) = Some r ∨ (k' = k ∧ r = None ∧ ∃ a, CallRequestVote s a ∈ calls).
Proof.
  induction calls as [|[s' a|s' a|s' a] calls IH]; simpl; [by left|intros H..].
  1,2: destruct (IH H) as [?|(? & ? & ? & ?)]; [by left|right; set_solver].
  apply lookup_insert_Some in H as [[[= -> ->] <-]|[_ H]]; [right; set_solver|].
  destruct (IH H) as [?|(? & ? & ? & ?)]; [by left|right; set_solver].
Qed.

Lemma start_election_follows n c i rf rf' el calls :
  CInv n c → nodes c !! i = Some rf → ids rf' = ids rf →
  vview rf' = (CurrentTerm rf + 1, i, LeaderTerm rf) → State rf' = Candidate →
  votes el = 1 → eterm el = CurrentTerm rf + 1 → cand el = i →
  Forall (λ r, ∃ s a, r = CallRequestVote s a ∧ s ≠ i) calls →
  follows n c (start_election el calls (set_node i rf' c)).
Proof.
  intros C Hi Hids Hv HS Hvotes HT Hc HF. destruct (ci_nodes _ _ C _ _ Hi) as (Hr & Hid & H0 & HL).
  unfold cand, eterm in *. split.
  - unfold abs. simpl. rewrite fmap_insert, Hv, HT, Hc.
    eapply rtc_once, v_stand; [by apply abs_lookup|done].
  - apply vview_terms in Hv as (E & _). split; simpl.
    + intros j r [[<- <-]|[_ Hj]]%lookup_insert_Some; [|by apply (ci_nodes _ _ C)].
      split_and!; try lia; congruence.
    + apply C.
    + intros k s r Hk. apply start_calls in Hk as [Hk|(-> & -> & a & Ha)].
      * destruct (ci_calls _ _ C _ _ _ Hk) as (e & He & Hs & Hg). exists e.
        rewrite lookup_app_l by (by eapply lookup_lt_Some). split_and!; try done.
        intros reply -> Hgr. right. by eapply Hg.
      * exists el. rewrite lookup_app_r, Nat.sub_diag by lia. split_and!; [done| |done].
        rewrite Forall_forall in HF. destruct (HF _ Ha) as (? & ? & [= -> ->] & ?).
        unfold cand. congruence.
    + intros k e [He|[? He]]%lookup_app_Some.
      * destruct (ci_elections _ _ C _ _ He) as (? & ? & ? & counted & ND & Hvo & Hall).
        do 2 (split; [done|]). split; [by right|]. exists counted. split_and!; [done..|].
        intros s Hs. destruct (Hall _ Hs) as (? & Hnone & ?). split_and!; [done| |by right].
        apply eq_None_ne_Some_2. intros r Hr'. apply start_calls in Hr' as [?|(-> & _)]; [congruence|].
        apply lookup_lt_Some in He. simpl in He. lia.
      * apply list_lookup_singleton_Some in He as [_ <-]. unfold cand, eterm.
        split_and!; [lia..|by left|]. exists []. split_and!; [constructor|done|set_solver].
Qed.

(** A goroutine of election [k] ends, its vote counted when it was granted. *)
Lemma CInv_count n c k server call el el' (g : bool) :
  CInv n c → elections c !! k = Some el → rvcalls c !! (k, server) = Some call →
  (g = true → (server, eterm el, cand el) ∈ cast c) → el_args el' = el_args el →
  votes el' = (if g then votes el + 1 else votes el) →
  CInv n (c <| rvcalls := delete (k, server) (rvcalls c) |> <| elections := <[k := el']> (elections c) |>).
Proof.
  intros C Hel Hcall Hg Ha Hv. pose proof (lookup_lt_Some _ _ _ Hel) as Hk.
  assert (cand el' = cand el ∧ eterm el' = eterm el) as [Hc Ht] by (unfold cand, eterm; by rewrite Ha).
  destruct (ci_calls _ _ C _ _ _ Hcall) as (e & He & Hs & _). simplify_eq.
  split; simpl; try apply C.
  - intros k' s r [Hne Hr]%lookup_delete_Some. destruct (ci_calls _ _ C _ _ _ Hr) as (e & He & Hse & Hgr).
    destruct (decide (k' = k)) as [->|]; [|exists e; by rewrite list_lookup_insert_ne].
    exists el'. rewrite list_lookup_insert_eq, Hc, Ht by done. by simplify_eq.
  - assert (∀ e k' (counted : list Z), (∀ s, s ∈ counted → s ≠ cand e ∧ rvcalls c !! (k', s) = None ∧ (s, eterm e, cand e) ∈ cast c) →
      ∀ s, s ∈ counted → s ≠ cand e ∧ delete (k, server) (rvcalls c) !! (k', s) = None ∧ (s, eterm e, cand e) ∈ cast c) as Hdel.
    { intros e k' counted Hall s [? [Hn ?]]%Hall. split_and!; [done| |done].
      apply lookup_delete_None. by right. }
    intros k' e He. apply list_lookup_insert_Some in He as [(-> & <- & _)|[Hne He]].
    + destruct (ci_elections _ _ C _ _ Hel) as (? & ? & ? & counted & ND & Hvo & Hall).
      unfold counted_ok. rewrite Hc, Ht. do 3 (split; [done|]).
      destruct g; [exists (server :: counted)|exists counted; split_and!; [done|lia|by apply Hdel]].
      split_and!; [|rewrite Hv; change (zlen (server :: counted)) with (Z.of_nat (S (length counted))); unfold zlen in *; lia|].
      * constructor; [|done]. intros [_ [Hn _]]%Hall. congruence.
      * intros s [->|Hin]%elem_of_cons; [|by apply (Hdel _ _ _ Hall)].
        split_and!; [done|by rewrite lookup_delete_eq|auto].
    + destruct (ci_elections _ _ C _ _ He) as (? & ? & ? & counted & ND & Hvo & Hall).
      do 3 (split; [done|]). exists counted. split_and!; [done..|by apply Hdel].
Qed.

Lemma VoteBack_follows n c k server ok c' :
  CInv n c → cstep (VoteBack k server ok) c = Some c' → follows n c c'.
Proof.
  intros C HS. simpl in HS. inv_bind HS. rename x into el, E into Hel.
  inv_bind HS. rename x into call, E into Hcall. inv_bind HS. rename x into rf, E into Hrf.
  inv_bind HS. rename x into reply, E into Hreply. inv_bind HS. destruct x as [[[rf' el'] won] calls].
  apply voteReply_moved in E as (Ha & Hv & Hwon).
  assert (CInv n (c <| rvcalls := delete (k, server) (rvcalls c) |> <| elections := <[k := el']> (elections c) |>)) as C1.
  { eapply (CInv_count n c k server call el el' (ok && rvr_VoteGranted reply)); try done.
    intros [-> Hg]%andb_true_iff. destruct (ci_calls _ _ C _ _ _ Hcall) as (e & He & _ & Hgr). simplify_eq.
    by eapply Hgr. }
  set (c1 := c <| rvcalls := _ |> <| elections := _ |>) in *. fold (cand el) in *.
  change (nodes c) with (nodes c1) in Hrf. change (abs c) with (abs c1) in *.
  destruct (ci_nodes _ _ C1 _ _ Hrf) as (Hr & Hid & H0 & HL). injection Hid as Hme Hnp Hhalf Htot.
  destruct won; injection HS as <-.
  - destruct Hwon as (Hvv & Hids & Hmaj & HT & HF). pose proof (vview_terms _ _ _ _ Hvv) as (Hct & _).
    destruct (ci_elections _ _ C1 k el') as (_ & _ & Hself & counted & ND & Hvo & Hall).
    { apply list_lookup_insert_eq. by eapply lookup_lt_Some. }
    assert (cand el' = cand el ∧ eterm el' = eterm el) as [Hc Ht] by (unfold cand, eterm; by rewrite Ha).
    rewrite Hc, Ht in *. split.
    + change (rtc (vstep n) (abs c1) (mkVState (vview <$> <[cand el := rf']> (nodes c1)) (cast c) ((cand el, CurrentTerm rf') :: loops c))).
      rewrite fmap_insert, Hvv, insert_id by by apply abs_lookup.
      eapply rtc_once, (v_elect n _ _ _ _ _ (cand el :: counted)).
      * constructor; [|done]. intros [? _]%Hall. done.
      * change (zlen (cand el :: counted)) with (Z.of_nat (S (length counted))). unfold zlen in *. lia.
      * rewrite Hct, HT. intros j [->|Hj]%elem_of_cons; [done|by apply Hall].
    + assert (CInv n (set_node (cand el) rf' (c1 <| loops := (cand el, CurrentTerm rf') :: loops c |>))) as C2.
      { split; simpl.
        - intros j r [[<- <-]|[_ Hj]]%lookup_insert_Some.
          + split_and!; [lia..|unfold ids in *; congruence|lia|]. intros _. by left.
          + destruct (ci_nodes _ _ C1 _ _ Hj) as (? & ? & ? & Hl). split_and!; try done; try lia.
            intros ?. right. by apply Hl.
        - intros m (t & ? & ?)%(ci_net _ _ C1). exists t. split; [done|by right].
        - apply (ci_calls _ _ C1).
        - apply (ci_elections _ _ C1). }
      apply (CInv_send n _ (cand el) (CurrentTerm rf') calls) in C2; [done|by rewrite Hct, <-Hme|].
      intros _. by left.
  - destruct Hwon as [M ->].
    destruct (moved_follows n c1 (cand el) rf rf' (λ _, False) C1 Hrf M) as [HR HC]; [done|].
    split; [done|]. by apply (CInv_send n _ (cand el) 0 []).
Qed.

(** A goroutine's request has been handled; a granted vote is in [bs]. *)
Lemma CInv_handled n c k server el reply bs :
  CInv n c → elections c !! k = Some el → rvcalls c !! (k, server) = Some None →
  (∀ b, b ∈ cast c → b ∈ bs) → (rvr_VoteGranted reply = true → (server, eterm el, cand el) ∈ bs) →
  CInv n (c <| rvcalls := <[(k, server) := Some reply]> (rvcalls c) |> <| cast := bs |>).
Proof.
  intros C Hel Hcall Hsub Hg. split; simpl; try apply C.
  - intros k' s r [[[= <- <-] <-]|[_ Hr]]%lookup_insert_Some.
    + destruct (ci_calls _ _ C _ _ _ Hcall) as (e & ? & ? & _). simplify_eq. exists el.
      split_and!; try done. by intros ? [= <-].
    + destruct (ci_calls _ _ C _ _ _ Hr) as (e & ? & ? & ?). exists e. split_and!; eauto.
  - intros k' e He. destruct (ci_elections _ _ C _ _ He) as (? & ? & ? & counted & ND & Hvo & Hall).
    do 2 (split; [done|]). split; [auto|]. exists counted. split_and!; [done..|].
    intros s Hs. destruct (Hall _ Hs) as (? & Hn & ?). split_and!; auto.
    apply lookup_insert_None. split; [done|]. intros [= -> ->]. congruence.
Qed.

Lemma Vote_follows n c k server env c' :
  CInv n c → cstep (Vote k server env) c = Some c' → follows n c c'.
Proof.
  intros C HS. simpl in HS. inv_bind HS. rename x into el, E into Hel.
  inv_bind HS. rename x into call, E into Hcall. inv_bind HS. rename x into rf, E into Hrf.
  destruct call; [done|]. inv_bind HS. destruct x as [rf' reply].
  apply RequestVote_moved in E as (rf1 & M & Hids & HSt & HV). injection HS as <-.
  apply (follows_trans n c (set_node server rf1 c)); [by eapply moved_follows|]. intros C1.
  assert (nodes (set_node server rf1 c) !! server = Some rf1) as Hrf1 by apply lookup_insert_eq.
  destruct (ci_nodes _ _ C1 _ _ Hrf1) as (Hr & Hid & H0 & HL).
  destruct (ci_elections _ _ C _ _ Hel) as (Hc & Ht & _).
  destruct (rvr_VoteGranted reply) eqn:EG.
  - destruct HV as (HT & Hfree & Hvv). pose proof (vview_terms _ _ _ _ Hvv) as (Hct & _). split.
    + rewrite abs_set_node. unfold abs. simpl. rewrite fmap_insert, Hvv, Hct.
      rewrite <-(insert_insert_eq (vview <$> nodes c) server (CurrentTerm rf1, rv_CandidateId (el_args el), LeaderTerm rf1) (vview rf1)).
      eapply rtc_once, v_grant; [apply lookup_insert_eq|unfold eterm in Ht; lia|done|lia|done].
    + apply (CInv_handled n _ k server el reply ((server, CurrentTerm rf', cand el) :: cast c)) in C1; try done.
      * apply (CInv_set_node n _ server rf1 rf') in C1; [|apply lookup_insert_eq|].
        -- simpl in C1. unfold set_node in *. simpl in *. by rewrite insert_insert_eq in C1.
        -- split_and!; try lia; [congruence|]. intros HLd. rewrite Hct. apply HL. congruence.
      * intros b ?. by right.
      * intros _. rewrite Hct, HT. by left.
  - pose proof (vview_terms _ _ _ _ HV) as (Hct & _). split.
    + rewrite !abs_set_node. simpl. by rewrite HV.
    + apply (CInv_handled n _ k server el reply (cast c)) in C1; try done; [|by rewrite EG].
      apply (CInv_set_node n _ server rf1 rf') in C1; [|apply lookup_insert_eq|].
      * simpl in C1. unfold set_node in *. simpl in *. by rewrite insert_insert_eq in C1.
      * split_and!; try lia; [congruence|]. intros HLd. rewrite Hct. apply HL. congruence.
Qed.

Lemma cstep_follows n c ev c' : CInv n c → cstep ev c = Some c' → follows n c c'.
Proof.
  intros C HS. destruct ev as [i env|k env|k|k ok|k s env|k s ok|i s t|i op]; cycle 4.
  - by eapply Vote_follows.
  - by eapply VoteBack_follows.
  - simpl in HS. inv_bind HS. destruct (_ || _) eqn:EG; [done|].
    apply orb_false_iff in EG as [[_ Hin]%orb_false_iff Hs%Z.eqb_neq].
    apply negb_false_iff, bool_decide_eq_true in Hin. inv_bind HS. injection HS as <-.
    destruct (ci_nodes _ _ C _ _ E) as (_ & [= Hme _ _ _] & _).
    destruct x0 as [calls|]; [|split; done].
    split; [done|]. apply (CInv_send n c i t); [done| |done].
    rewrite <-Hme. apply (replicateLog_calls s); [congruence|done].
  - simpl in HS. inv_bind HS. destruct (running op i x c); [|done]. cbn [negb] in HS. inv_bind HS. injection HS as <-.
    eapply (moved_follows n c i _ _ (λ _, False)); [done..|by apply moved_refl, (localOp_vote op)|done].
  - simpl in HS. inv_bind HS. destruct (killed x); [done|]. inv_bind HS. destruct x0 as [[rf' el] calls].
    destruct (ci_nodes _ _ C _ _ E) as (_ & [= Hme _ _ _] & _ & HL).
    apply ticker_moved in E0 as [Hids HT]. injection HS as <-. rewrite Hme in HT. destruct el as [el|].
    + destruct HT as (? & ? & ? & ? & ? & ?). by eapply start_election_follows.
    + destruct HT as (-> & HF & Hl). split.
      * change (rtc (vstep n) (abs c) (abs (set_node i x c))). by rewrite abs_set_node, insert_id by by apply abs_lookup.
      * eapply CInv_send; [|done|simpl; auto]. eapply CInv_set_node; [done..|by apply (ci_nodes _ _ C)].
  - simpl in HS. inv_bind HS. destruct x as [src r].
    assert (CInv n (c <| net := delete k (net c) |>)) as C1 by (apply (CInv_drop n c _ (acks c)); [done|intros ?; apply elem_of_delete]).
    eapply (deliver_follows n _ env src r) in HS; [done|done|]. eapply (ci_net _ _ C), list_elem_of_lookup_2, E.
  - simpl in HS. inv_bind HS. destruct x as [src r]. inv_bind HS.
    assert (CInv n (c <| net := delete k (net c) |>)) as C1 by (apply (CInv_drop n c _ (acks c)); [done|intros ?; apply elem_of_delete]).
    by eapply callReturns_follows in HS.
  - simpl in HS. inv_bind HS.
    assert (CInv n (c <| acks := delete k (acks c) |>)) as C1 by by apply (CInv_drop n c (net c)).
    by eapply callReturns_follows in HS.
Qed.

Lemma init_lookup env n i rf :
  nodes (init_cluster env n) !! i = Some rf → 0 <= i < n ∧ rf = Make (env i) n i MakePersister.
Proof.
  simpl. intros Hi%elem_of_list_to_map_2. apply list_elem_of_fmap in Hi as (j & [= -> ->] & Hj%upto_elem).
  done.
Qed.

Lemma init_CInv env n : CInv n (init_cluster env n).
Proof.
  split; try (simpl; set_solver).
  - intros i rf [Hi ->]%init_lookup. by split_and!; try lia.
Qed.

Lemma step_follows env n c :
  rtc step (init_cluster env n) c →
  rtc (vstep n) (abs (init_cluster env n)) (abs c) ∧ CInv n c.
Proof.
  intros HR. assert (follows n (init_cluster env n) (init_cluster env n)) as H0.
  { split; [done|apply init_CInv]. }
  revert H0. generalize (init_cluster env n) at 1 3. induction HR as [|c1 c2 c3 [ev Hs] _ IH]; [done|].
  intros c0 H0. apply IH. eapply follows_trans; [done|]. intros C1. by eapply cstep_follows.
Qed.

Lemma init_vinit env n : 0 < n → vinit n (abs (init_cluster env n)).
Proof.
  intros Hn. split_and!; [done..|]. intros i v Hv. unfold abs in Hv. simpl in Hv.
  rewrite lookup_fmap in Hv. apply fmap_Some in Hv as (rf & Hrf & ->).
  by apply init_lookup in Hrf as [_ ->].
Qed.

(** the elections of raft.go refine the voting machine.  Whatever sequence
    of ticks, deliveries, losses, replies and local operations a fresh cluster
    goes through, its terms, votes and leaders go through steps of [vstep], and
    a peer in the Leader state has won the election of its current term. *)
Theorem cluster_refines_voting env n c :
  rtc step (init_cluster env n) c →
  rtc (vstep n) (abs (init_cluster env n)) (abs c) ∧
  ∀ i rf, nodes c !! i = Some rf → State rf = Leader → (i, CurrentTerm rf) ∈ leaders (abs c).
Proof.
  intros [HR HC]%step_follows. split; [done|]. intros i rf Hi HL.
  by apply (ci_nodes _ _ HC _ _ Hi).
Qed.

(** C9: election safety without restarts.  In any reachable state two peers
    that lead the same term are the same peer, and so are any two peers that
    ever won that term, although a peer may vote twice in a term. *)
Theorem election_safety env n c :
  0 < n → rtc step (init_cluster env n) c →
  (∀ i j rf rf', nodes c !! i = Some rf → nodes c !! j = Some rf' →
     State rf = Leader → State rf' = Leader → CurrentTerm rf = CurrentTerm rf' → i = j) ∧
  (∀ i j t, (i, t) ∈ loops c → (j, t) ∈ loops c → i = j).
Proof.
  intros Hn [HR HC]%step_follows.
  pose proof (VInv_reachable n _ _ (init_vinit env n Hn) HR) as V.
  assert (∀ i j t, (i, t) ∈ loops c → (j, t) ∈ loops c → i = j) as HU.
  { intros i j t. apply (VInv_leader_unique n (abs c) i j t V). }
  split; [|done]. intros i j rf rf' Hi Hj HL HL' HT. apply (HU i j (CurrentTerm rf)).
  - by apply (ci_nodes _ _ HC _ _ Hi).
  - rewrite HT. by apply (ci_nodes _ _ HC _ _ Hj).
Qed.

End cluster.

Arguments Cluster : clear implicits.
Arguments Event : clear implicits.
Arguments LocalOp : clear implicits.
Arguments Ack : clear implicits.

(** ** Concrete runs *)

Module ElectionExamples.

#[export] Instance gobZ : Gob (PersistentState Z) := wire_gob _.

Definition later := mkEnv 1000000000 0.
Definition c0 : Cluster Z := init_cluster (λ _, mkEnv 0 0) 3.

Fixpoint run (evs : list (Event Z)) (c : Cluster Z) : option (Cluster Z) :=
  match evs with
  | [] => Some c
  | ev :: evs => c ← cstep ev c; run evs c
  end.

Lemma run_steps evs c c' : run evs c = Some c' → rtc step c c'.
Proof.
  revert c. induction evs as [|ev evs IH]; simpl; intros c HR; [by simplify_eq|].
  inv_bind HR. eapply rtc_l; [by exists ev|auto].
Qed.

(** Peers 0 and 1 stand in term 1, peer 2 votes for 0, which wins. *)
Definition first_leader : list (Event Z) :=
  [Tick 0 later; Tick 1 later; Vote 0 2 later; VoteBack 0 2 true].

(** Peer 2 handles the leader's heartbeat, then peer 1's request for its vote. *)
Definition second_vote_run : list (Event Z) :=
  [Deliver 1 later; Vote 1 2 later; VoteBack 1 2 true].

Definition leads (c : Cluster Z) (i t : Z) : bool :=
  match nodes c !! i with
  | Some rf => bool_decide (State rf = Leader) && (CurrentTerm rf =? t)
  | None => false
  end.

(** C30: two leaders in one term after a restart.  Peers 0 and 1 stand in term 1
    and peer 2's vote makes 0 the leader.  Peer 2 restarts with its vote
    restored, but the first heartbeat of the term clears it, because the leader
    term is not saved; peer 1's delayed request then gets a second vote of peer
    2, and peer 1 leads term 1 beside peer 0. *)
Theorem two_leaders_after_restart :
  ∃ c1 c2 c3,
    run first_leader c0 = Some c1 ∧ restart_node 2 later c1 = Some c2 ∧
    run second_vote_run c2 = Some c3 ∧
    (VotedFor <$> nodes c2 !! 2) = Some 0 ∧ leads c3 0 1 = true ∧ leads c3 1 1 = true.
Proof. do 3 eexists. split_and!; vm_compute; reflexivity. Qed.

Lemma cluster_refines_voting_witness :
  ∃ c, run first_leader c0 = Some c ∧ rtc (vstep 3) (abs c0) (abs c) ∧ leads c 0 1 = true.
Proof.
  eexists. split; [vm_compute; reflexivity|]. split; [|vm_compute; reflexivity].
  apply (cluster_refines_voting (λ _, mkEnv 0 0) 3), (run_steps first_leader). vm_compute. reflexivity.
Defined.

Lemma election_safety_witness :
  ∃ c, run first_leader c0 = Some c ∧ (0, 1) ∈ loops c ∧ ∀ j, (j, 1) ∈ loops c → 0 = j.
Proof.
  eexists. split; [vm_compute; reflexivity|]. split; [by left|]. intros j Hj.
  refine (proj2 (election_safety (λ _, mkEnv 0 0) 3 _ _ _) 0 j 1 _ Hj);
    [lia|apply (run_steps first_leader); vm_compute; reflexivity|by left].
Defined.

End ElectionExamples.
