(* ===== verification/Replication.v ===== *)
(** * The replication machine

    What raft.go's elections and log replication amount to when messages, timers
    and indices are left out.  Every peer has a term and a log.  A term that was
    won has a [Reign]: its leader, the log the leader had when it won, and the
    log it has written since.  Votes are kept with the logs they were given on,
    and so are the peers' agreements to a part of a leader's log.  The theorems
    are the safety argument of Raft: logs that agree on the term of an entry
    agree up to it, a later leader has every committed entry, committed logs
    never disagree.  [RaftSafety] shows that a cluster of peers running the
    handlers of [Raft] follows this machine. *)

From S2P Require Import Prelude Voting.

(** ** Prefixes *)

Section prefixes.
Context {A : Type}.
Implicit Types l k : list A.

Lemma prefix_take_of l k : l `prefix_of` k → take (length l) k = l.
Proof. intros [x ->]. by rewrite take_app_length. Qed.

Lemma take_prefix_of n l : take n l `prefix_of` l.
Proof. apply prefix_take. Qed.

Lemma prefix_take_mono n l k : (n <= length l)%nat → l `prefix_of` k → take n k = take n l.
Proof. intros Hn [x ->]. by rewrite take_app_le. Qed.

Lemma prefix_lookup_eq l k p : l `prefix_of` k → (p < length l)%nat → k !! p = l !! p.
Proof. intros [x ->] Hp. by rewrite lookup_app_l. Qed.

Lemma prefix_by_length l k m :
  l `prefix_of` m → k `prefix_of` m → (length l <= length k)%nat → l `prefix_of` k.
Proof.
  intros Hl Hk Hn. destruct (prefix_weak_total l k m) as [|Hkl]; [done..|].
  pose proof (prefix_length _ _ Hkl). rewrite (prefix_length_eq _ _ Hkl); [done|lia].
Qed.

Lemma take_prefix_take n m l : (n <= m)%nat → take n l `prefix_of` take m l.
Proof. intros Hn. rewrite <-(Nat.min_l n m), <-take_take by done. apply prefix_take. Qed.

(** Taking [L] for a log that does not have it keeps what the log shares with
    an extension of [L]. *)
Lemma prefix_replaced x l L K :
  x `prefix_of` l → x `prefix_of` K → L `prefix_of` K → ¬ L `prefix_of` l → x `prefix_of` L.
Proof.
  intros Hl HK HL Hn. destruct (prefix_weak_total x L K) as [|HLx]; [done..|].
  destruct Hn. by etransitivity.
Qed.

End prefixes.

Section replication.
Context {E : Type} (tm : E → Z).
Implicit Types (l : list E) (k : nat).

Record Reign := mkReign {
  ruler : Z;
  inherited : list E;     (* the leader's log when it won the term *)
  written : list E;       (* its log by now *)
}.

Record RState := mkRState {
  logs : gmap Z (Z * list E);               (* term and log of every peer *)
  reigns : gmap Z Reign;                    (* by term *)
  stood : list (Z * Z * list E);            (* candidate, term, its log *)
  given : list (Z * Z * Z * list E);        (* voter, term, candidate, the voter's log *)
  agreed : list (Z * Z * nat);              (* peer, term, length of the leader's log it has *)
}.

Implicit Types s : RState.

(** The comparison of RequestVote. *)
Definition lastTerm l : Z := from_option tm 0 (last l).
Definition upToDate l lv : Prop :=
  lastTerm lv < lastTerm l ∨ lastTerm lv = lastTerm l ∧ (length lv <= length l)%nat.

Definition majority (n : Z) (Q : list Z) : Prop :=
  NoDup Q ∧ n / 2 < zlen Q ∧ ∀ j, j ∈ Q → 0 <= j < n.

(** A log that is offered the part [L] of the leader's: it stays when it has [L]
    already, otherwise [L] takes its place. *)
Definition accepted l L l' : Prop :=
  L `prefix_of` l ∧ l' = l ∨ ¬ L `prefix_of` l ∧ l' = L.

Inductive rstep (n : Z) : RState → RState → Prop :=
  | r_join ps rs st gv ag i ct l t :
    ps !! i = Some (ct, l) → ct < t →
    rstep n (mkRState ps rs st gv ag) (mkRState (<[i := (t, l)]> ps) rs st gv ag)
  | r_stand ps rs st gv ag i ct l :
    ps !! i = Some (ct, l) →
    rstep n (mkRState ps rs st gv ag)
      (mkRState (<[i := (ct + 1, l)]> ps) rs ((i, ct + 1, l) :: st) ((i, ct + 1, i, l) :: gv) ag)
  | r_vote ps rs st gv ag i t l c lc :
    ps !! i = Some (t, l) → (c, t, lc) ∈ st → upToDate lc l →
    rstep n (mkRState ps rs st gv ag) (mkRState ps rs st ((i, t, c, l) :: gv) ag)
  | r_elect ps rs st gv ag i t l Q :
    ps !! i = Some (t, l) → rs !! t = None → majority n Q →
    (∀ j, j ∈ Q → ∃ lj, (j, t, i, lj) ∈ gv) →
    rstep n (mkRState ps rs st gv ag)
      (mkRState ps (<[t := mkReign i l l]> rs) st gv ((i, t, length l) :: ag))
  | r_append ps rs st gv ag i t l r e :
    ps !! i = Some (t, l) → rs !! t = Some r → ruler r = i → tm e = t →
    rstep n (mkRState ps rs st gv ag)
      (mkRState (<[i := (t, l ++ [e])]> ps) (<[t := mkReign i (inherited r) (l ++ [e])]> rs)
        st gv ((i, t, S (length l)) :: ag))
  | r_accept ps rs st gv ag i t l r m l' :
    ps !! i = Some (t, l) → rs !! t = Some r → ruler r ≠ i → (m <= length (written r))%nat →
    accepted l (take m (written r)) l' →
    rstep n (mkRState ps rs st gv ag)
      (mkRState (<[i := (t, l')]> ps) rs st gv ((i, t, m) :: ag)).

Definition rinit s : Prop :=
  (∀ i v, logs s !! i = Some v → v = (0, [])) ∧
  reigns s = ∅ ∧ stood s = [] ∧ given s = [] ∧ agreed s = [].

(** The first [k] entries of term [t]'s leader are committed: the last of them
    is of term [t], and a majority agreed to them in [t]. *)
Definition committed (n : Z) s (t : Z) (k : nat) : Prop :=
  ∃ r e Q, reigns s !! t = Some r ∧ written r !! pred k = Some e ∧ tm e = t ∧ (0 < k)%nat ∧
    majority n Q ∧ ∀ j, j ∈ Q → ∃ k', (k <= k')%nat ∧ (j, t, k') ∈ agreed s.

(** [l] is part of a log that was committed in a term up to [t]. *)
Definition safe (n : Z) s (t : Z) l : Prop :=
  l = [] ∨ ∃ u k r, u <= t ∧ committed n s u k ∧ reigns s !! u = Some r ∧ l `prefix_of` take k (written r).

(** ** The invariant *)

(** Every entry of [l] was written by the leader of its term, after what [l] has
    before it. *)
Definition stems s l : Prop :=
  ∀ p e, l !! p = Some e → ∃ r, reigns s !! tm e = Some r ∧
    take (S p) l `prefix_of` written r ∧ (length (inherited r) <= p)%nat.

(** What a peer agreed to in [t] is in the log [l] it has at [u], unless a leader
    in between did not have it. *)
Definition stands s (t : Z) (k : nat) (u : Z) l : Prop :=
  ∀ r m, reigns s !! t = Some r → (m <= k)%nat →
    take m (written r) `prefix_of` l ∨
    ∃ t' r', t < t' <= u ∧ reigns s !! t' = Some r' ∧ ¬ take m (written r) `prefix_of` inherited r'.

Definition reached s (i t : Z) : Prop := ∃ ct l, logs s !! i = Some (ct, l) ∧ t <= ct.

(** A vote of [j] in [t] that [clog] was good enough for. *)
Record ballot s (j t : Z) (u : Z) clog vlog : Prop := {
  ba_upToDate : upToDate clog vlog;
  ba_stems : stems s vlog;
  ba_reached : reached s j t;
  ba_stands : ∀ t' k, (j, t', k) ∈ agreed s → t' < t → stands s t' k u vlog;
}.

Record reign_ok s (t : Z) (r : Reign) : Prop := {
  re_term : 0 <= t;
  re_inherited : inherited r `prefix_of` written r;
  re_stems : stems s (written r);
  re_old : ∀ p e, written r !! p = Some e → (p < length (inherited r))%nat → tm e < t;
  re_new : ∀ p e, written r !! p = Some e → (length (inherited r) <= p)%nat → tm e = t;
  re_ruler : ∃ ct l, logs s !! ruler r = Some (ct, l) ∧ t <= ct ∧ (ct = t → l = written r);
}.

Record RInv (n : Z) s : Prop := {
  ri_log : ∀ i ct l, logs s !! i = Some (ct, l) → 0 <= ct ∧ stems s l ∧ ∀ e, e ∈ l → tm e <= ct;
  ri_reign : ∀ t r, reigns s !! t = Some r → reign_ok s t r;
  ri_stood : ∀ i t l, (i, t, l) ∈ stood s → ∃ ct li, logs s !! i = Some (ct, li) ∧ t <= ct ∧
    (ct = t → reigns s !! t = None → li = l);
  ri_given : ∀ j t c l, (j, t, c, l) ∈ given s → ∃ lc, (c, t, lc) ∈ stood s ∧ ballot s j t t lc l;
  ri_agreed : ∀ i t k, (i, t, k) ∈ agreed s → ∃ r ct l, reigns s !! t = Some r ∧
    (k <= length (written r))%nat ∧ logs s !! i = Some (ct, l) ∧ t <= ct ∧ stands s t k ct l;
  ri_won : ∀ t r, reigns s !! t = Some r → ∃ Q, majority n Q ∧
    ∀ j, j ∈ Q → ∃ l, ballot s j t (t - 1) (inherited r) l;
}.

(** ** Logs *)

Lemma stems_prefix s l l' : stems s l → l' `prefix_of` l → stems s l'.
Proof.
  intros H Hl p e Hp. pose proof (lookup_lt_Some _ _ _ Hp) as Hlt.
  destruct (H p e) as (r & ? & ? & ?); [by rewrite (prefix_lookup_eq _ _ _ Hl)|].
  exists r. split_and!; [done| |done]. by rewrite <-(prefix_take_mono _ _ _ Hlt Hl).
Qed.

Lemma stems_last s l e : stems s l → last l = Some e →
  ∃ r, reigns s !! tm e = Some r ∧ l `prefix_of` written r ∧ (length (inherited r) < length l)%nat.
Proof.
  intros H He. apply last_Some in He as [l' ->].
  destruct (H (length l') e) as (r & Hr & Hp & Hi); [by rewrite list_lookup_middle|].
  exists r. rewrite take_ge in Hp by (rewrite length_app; cbn; lia).
  split_and!; [done..|]. rewrite length_app. cbn. lia.
Qed.

Lemma stems_agree s l1 l2 p e1 e2 :
  stems s l1 → stems s l2 → l1 !! p = Some e1 → l2 !! p = Some e2 → tm e1 = tm e2 →
  take (S p) l1 = take (S p) l2.
Proof.
  intros H1 H2 He1 He2 Ht. destruct (H1 _ _ He1) as (r & Hr & P1 & _), (H2 _ _ He2) as (r' & Hr' & P2 & _).
  rewrite Ht in Hr. simplify_eq. pose proof (lookup_lt_Some _ _ _ He1). pose proof (lookup_lt_Some _ _ _ He2).
  rewrite <-(prefix_take_of _ _ P1), <-(prefix_take_of _ _ P2), !length_take. f_equal. lia.
Qed.

Lemma reign_le s t r p e : reign_ok s t r → written r !! p = Some e → tm e <= t.
Proof.
  intros R He. destruct (decide (p < length (inherited r))%nat) as [Hp|Hp].
  - pose proof (re_old _ _ _ R _ _ He Hp). lia.
  - rewrite (re_new _ _ _ R _ _ He); lia.
Qed.

(** Terms do not go down along a log. *)
Lemma stems_ordered n s l p q e e' :
  RInv n s → stems s l → l !! p = Some e → l !! q = Some e' → (p <= q)%nat → tm e <= tm e'.
Proof.
  intros I H Hp Hq Hle. destruct (H _ _ Hq) as (r & Hr & Hpre & _).
  eapply (reign_le s _ r p); [by eapply ri_reign|]. pose proof (lookup_lt_Some _ _ _ Hq).
  rewrite (prefix_lookup_eq _ _ _ Hpre); [|rewrite length_take; lia]. by rewrite lookup_take_lt by lia.
Qed.

(** ** Committed entries *)

Lemma committed_length n s t k r :
  committed n s t k → reigns s !! t = Some r → (k <= length (written r))%nat.
Proof. intros (? & ? & ? & ? & He%lookup_lt_Some & ? & ? & ?) ?. simplify_eq. lia. Qed.

(** A log with an entry of term [t] ends in a term that is not smaller. *)
Lemma lastTerm_ge n s l p e :
  RInv n s → stems s l → l !! p = Some e →
  ∃ el, last l = Some el ∧ tm e <= tm el.
Proof.
  intros I H Hp. pose proof (lookup_lt_Some _ _ _ Hp). destruct (last l) as [el|] eqn:Hl.
  - exists el. split; [done|]. rewrite last_lookup in Hl. eapply (stems_ordered n s l p); [done..|lia].
  - apply last_None in Hl as ->. cbn in *. lia.
Qed.

(** A candidate that is as up to date as a log with a part of term [t]'s leader
    has that part, if every leader in between had. *)
Lemma upToDate_has n s (t u : Z) x l r' e :
  RInv n s → reigns s !! u = Some r' → 0 <= t → stems s l → x `prefix_of` l → last x = Some e → tm e = t →
  upToDate (inherited r') l →
  (∀ v rv, t < v < u → reigns s !! v = Some rv → x `prefix_of` inherited rv) → x `prefix_of` inherited r'.
Proof.
  intros I Hr' Ht0 Hl Hx He Ht Hup IH. pose proof (ri_reign _ _ I _ _ Hr') as R.
  assert (l !! pred (length x) = Some e) as Hle.
  { rewrite last_lookup in He. rewrite (prefix_lookup_eq _ _ _ Hx); [done|by eapply lookup_lt_Some]. }
  destruct (lastTerm_ge _ _ _ _ _ I Hl Hle) as (el & Hel & Hge). rewrite Ht in Hge.
  assert (stems s (inherited r')) as HC by (eapply stems_prefix; apply R).
  unfold upToDate, lastTerm in Hup. rewrite Hel in Hup. cbn [from_option] in Hup.
  destruct (last (inherited r')) as [c|] eqn:Hc; cbn [from_option] in Hup.
  2:{ apply last_None in Hc. rewrite Hc in Hup. apply lookup_lt_Some in Hle. cbn in Hup. lia. }
  destruct (stems_last _ _ _ HC Hc) as (rc & Hrc & Hpre & Hlen).
  destruct Hup as [Hlt|[Heq Hle']].
  - trans (inherited rc).
    + eapply IH; [|done]. split; [lia|]. rewrite last_lookup in Hc. pose proof (lookup_lt_Some _ _ _ Hc).
      eapply (re_old _ _ _ R (pred (length (inherited r')))); [|lia].
      rewrite (prefix_lookup_eq _ _ _ (re_inherited _ _ _ R)) by lia. done.
    + eapply prefix_by_length; [apply (ri_reign _ _ I _ _ Hrc)|done|lia].
  - destruct (stems_last _ _ _ Hl Hel) as (rl & Hrl & Hprel & _). rewrite Heq in Hrl. simplify_eq.
    trans l; [done|]. by eapply prefix_by_length.
Qed.

Lemma completeness n s t k r u r' :
  0 < n → RInv n s → committed n s t k → reigns s !! t = Some r → t < u → reigns s !! u = Some r' →
  take k (written r) `prefix_of` inherited r'.
Proof.
  intros Hn I HC Hr. revert r'. induction (Z.lt_wf t u) as [u _ IH]. intros r' Hlt Hr'.
  pose proof (committed_length _ _ _ _ _ HC Hr) as Hk.
  destruct HC as (r0 & e & Q & Hr0 & He & <- & Hk0 & HQ & Hag). assert (r0 = r) as -> by congruence.
  destruct (ri_won _ _ I _ _ Hr') as (V & HV & Hb).
  destruct (quorum_intersect n Q V) as (j & HjQ & HjV); [done|apply HQ|apply HV|apply HQ|apply HV|apply HQ|apply HV|].
  destruct (Hb j HjV) as (l & B). destruct (Hag j HjQ) as (k' & Hk' & Hj).
  assert (∀ v rv, tm e < v < u → reigns s !! v = Some rv → take k (written r) `prefix_of` inherited rv) as IH'.
  { intros v rv Hv Hrv. apply (IH v); [lia..|done]. }
  destruct (ba_stands _ _ _ _ _ _ B _ _ Hj ltac:(lia) r k Hr ltac:(lia)) as [Hx|(v & rv & Hv & Hrv & Hno)].
  2:{ destruct Hno. apply (IH' v); [lia|done]. }
  eapply (upToDate_has n s (tm e) u _ l r' e I Hr'); try done; [by eapply ri_reign|apply B| |apply B].
  rewrite last_lookup, length_take, Nat.min_l by done. by rewrite lookup_take_lt by lia.
Qed.

Lemma safe_in_reign n s t l r :
  0 < n → RInv n s → safe n s t l → reigns s !! t = Some r → l `prefix_of` written r.
Proof.
  intros Hn I [->|(u & k & ru & Hu & HC & Hru & Hl)] Hr; [apply prefix_nil|].
  destruct (decide (u = t)) as [->|].
  - assert (ru = r) as -> by congruence. trans (take k (written r)); [done|apply prefix_take].
  - trans (take k (written ru)); [done|]. trans (inherited r); [|by eapply ri_reign].
    apply (completeness n s u k ru t r); try done; lia.
Qed.

(** Committed logs never disagree. *)
Lemma safe_comparable n s t1 t2 l1 l2 :
  0 < n → RInv n s → safe n s t1 l1 → safe n s t2 l2 → l1 `prefix_of` l2 ∨ l2 `prefix_of` l1.
Proof.
  intros Hn I [->|(u1 & k1 & r1 & _ & C1 & R1 & P1)]; [left; apply prefix_nil|].
  intros [->|(u2 & k2 & r2 & _ & C2 & R2 & P2)]; [right; apply prefix_nil|].
  assert (safe n s u1 l1) as S1 by (right; exists u1, k1, r1; done).
  assert (safe n s u2 l2) as S2 by (right; exists u2, k2, r2; done).
  destruct (Z.le_ge_cases u1 u2) as [Hle|Hle].
  - apply (prefix_weak_total _ _ (written r2)); [|by eapply safe_in_reign].
    eapply safe_in_reign; [done..| |done]. right. by exists u1, k1, r1.
  - apply (prefix_weak_total _ _ (written r1)); [by eapply safe_in_reign|].
    eapply safe_in_reign; [done..| |done]. right. by exists u2, k2, r2.
Qed.

(** ** What a step keeps *)

Record extends s s' : Prop := {
  ex_grows : ∀ t r, reigns s !! t = Some r → ∃ r', reigns s' !! t = Some r' ∧
    ruler r' = ruler r ∧ inherited r' = inherited r ∧ written r `prefix_of` written r';
  ex_agreed : ∀ a, a ∈ agreed s → a ∈ agreed s';
  ex_stood : ∀ a, a ∈ stood s → a ∈ stood s';
  ex_given : ∀ a, a ∈ given s → a ∈ given s';
  ex_reached : ∀ i t, reached s i t → reached s' i t;
  ex_new : ∀ i t k, (i, t, k) ∈ agreed s' → (i, t, k) ∈ agreed s ∨ ∃ l, logs s !! i = Some (t, l);
}.

Lemma reached_insert s i ct l t l' rs st gv ag :
  logs s !! i = Some (ct, l) → ct <= t →
  ∀ j u, reached s j u → reached (mkRState (<[i := (t, l')]> (logs s)) rs st gv ag) j u.
Proof.
  intros Hi Hle j u (cj & lj & Hj & Hu). unfold reached. cbn. destruct (decide (i = j)) as [<-|].
  - rewrite lookup_insert_eq. simplify_eq. exists t, l'. split; [done|lia].
  - rewrite lookup_insert_ne by done. eauto.
Qed.

(** The steps leave the other reigns alone and write only at the end of one. *)
Lemma rstep_extends n s s' : RInv n s → rstep n s s' → extends s s'.
Proof.
  intros I HS. destruct HS as [????? i ct l t Hi Ht|????? i ct l Hi|????? i t l c lc Hi|????? i t l Q Hi Hno
    |????? i t l r e Hi Hr Hru|????? i t l r m l' Hi Hr Hru]; split; cbn; try (by eauto); try (by right);
    try (intros j u k [[= -> -> ->]|?]%elem_of_cons; by eauto);
    try (eapply (reached_insert (mkRState ps rs st gv ag)); [done|cbn; lia]).
  - intros u ru Hu. exists ru. rewrite lookup_insert_ne by congruence. done.
  - intros u ru Hu. destruct (ri_reign _ _ I _ _ Hr) as [_ _ _ _ _ (cr & lr & Hlr & _ & Heq)].
    cbn in Hlr. rewrite Hru, Hi in Hlr. injection Hlr as <- <-. destruct (decide (u = t)) as [->|].
    + rewrite lookup_insert_eq. eexists. split; [done|]. cbn. assert (ru = r) as -> by congruence.
      rewrite (Heq eq_refl). split_and!; [done..|]. by exists [e].
    + rewrite lookup_insert_ne by done. eauto.
Qed.

Lemma extends_trans s1 s2 s3 :
  (∀ i t k, (i, t, k) ∈ agreed s3 → (i, t, k) ∈ agreed s1 ∨ ∃ l, logs s1 !! i = Some (t, l)) →
  extends s1 s2 → extends s2 s3 → extends s1 s3.
Proof.
  intros Hn [G1 A1 B1 C1 D1 _] [G2 A2 B2 C2 D2 _]. split; [|by auto..]. intros t r Hr.
  destruct (G1 _ _ Hr) as (r1 & Hr1 & E1 & F1 & P1), (G2 _ _ Hr1) as (r2 & Hr2 & E2 & F2 & P2).
  exists r2. split_and!; [done|congruence|congruence|by trans (written r1)].
Qed.

Section extending.
Context s s' (X : extends s s').

Lemma stems_extends l : stems s l → stems s' l.
Proof.
  intros H p e Hp. destruct (H _ _ Hp) as (r & Hr & Hpre & Hle).
  destruct (ex_grows _ _ X _ _ Hr) as (r' & Hr' & _ & Hi & Hw). exists r'. rewrite Hi.
  split_and!; [done|by trans (written r)|done].
Qed.

Lemma stands_extends t k u l r :
  reigns s !! t = Some r → (k <= length (written r))%nat → stands s t k u l → stands s' t k u l.
Proof.
  intros Hr Hk H r' m Hr' Hm. destruct (ex_grows _ _ X _ _ Hr) as (r1 & Hr1 & _ & _ & Hw).
  assert (r1 = r') as -> by congruence. rewrite (prefix_take_mono m (written r) (written r')) by (done || lia). destruct (H r m Hr Hm) as [|(v & rv & Hv & Hrv & Hno)]; [by left|].
  right. destruct (ex_grows _ _ X _ _ Hrv) as (rv' & Hrv' & _ & Hi & _). exists v, rv'. by rewrite Hi.
Qed.

Lemma committed_extends n t k : committed n s t k → committed n s' t k.
Proof.
  intros (r & e & Q & Hr & He & Ht & Hk & HQ & Hag). destruct (ex_grows _ _ X _ _ Hr) as (r' & Hr' & _ & _ & Hw).
  exists r', e, Q. split_and!; try done.
  - rewrite (prefix_lookup_eq _ _ _ Hw); [done|by eapply lookup_lt_Some].
  - intros j Hj. destruct (Hag j Hj) as (k' & ? & ?). exists k'. split; [done|by apply X].
Qed.

Lemma safe_extends n t t' l : safe n s t l → t <= t' → safe n s' t' l.
Proof.
  intros [->|(u & k & r & Hu & HC & Hr & Hl)] Ht; [by left|right].
  pose proof (committed_length _ _ _ _ _ HC Hr) as Hk. destruct (ex_grows _ _ X _ _ Hr) as (r' & Hr' & _ & _ & Hw).
  exists u, k, r'. split_and!; [lia|by apply committed_extends|done|]. by rewrite (prefix_take_mono k _ _ Hk Hw).
Qed.

Lemma ballot_extends n j t u c v : RInv n s → ballot s j t u c v → ballot s' j t u c v.
Proof.
  intros I [Hup Hst Hre Hs]. split; [done|by apply stems_extends|by apply X|].
  intros t' k Hin Hlt. destruct (ex_new _ _ X _ _ _ Hin) as [Hold|(l & Hl)].
  - destruct (ri_agreed _ _ I _ _ _ Hold) as (r & _ & _ & Hr & Hk & _). eapply stands_extends; eauto.
  - destruct Hre as (ct & l0 & Hl0 & ?). simplify_eq. lia.
Qed.

Lemma given_extends n j t c l :
  RInv n s → (j, t, c, l) ∈ given s → ∃ lc, (c, t, lc) ∈ stood s' ∧ ballot s' j t t lc l.
Proof.
  intros I (lc & Hc & Hb)%(ri_given _ _ I). exists lc. split; [by apply X|by eapply ballot_extends].
Qed.

Lemma won_extends n t r r' :
  RInv n s → reigns s !! t = Some r → inherited r' = inherited r →
  ∃ Q, majority n Q ∧ ∀ j, j ∈ Q → ∃ l, ballot s' j t (t - 1) (inherited r') l.
Proof.
  intros I Hr ->. destruct (ri_won _ _ I _ _ Hr) as (Q & HQ & Hb). exists Q. split; [done|].
  intros j Hj. destruct (Hb j Hj) as (l & ?). exists l. by eapply ballot_extends.
Qed.

Lemma reign_extends t r :
  reign_ok s t r → (∃ ct l, logs s' !! ruler r = Some (ct, l) ∧ t <= ct ∧ (ct = t → l = written r)) → reign_ok s' t r.
Proof. intros [] ?. split; [done|done|by apply stems_extends|done..]. Qed.

End extending.

Lemma stands_log s t k u u' l l' : stands s t k u l → u <= u' → l `prefix_of` l' → stands s t k u' l'.
Proof.
  intros H Hu Hl r m Hr Hm. destruct (H r m Hr Hm) as [|(v & rv & ? & ? & ?)]; [left; by trans l|right].
  exists v, rv. split_and!; [lia..|done|done].
Qed.

(** ** The invariant is kept *)

(** The ballot of a peer on the log it has. *)
Lemma own_ballot n s s' i ct l t lc :
  RInv n s → extends s s' → logs s !! i = Some (ct, l) → agreed s' = agreed s → reached s' i t → ct <= t →
  upToDate lc l → ballot s' i t t lc l.
Proof.
  intros I X Hi Ha Hre Hle Hup. split; [done| |done|].
  - by eapply stems_extends, (ri_log _ _ I _ _ _ Hi).
  - rewrite Ha. intros t' k (r & cj & lj & Hr & Hk & Hj & _ & Hs)%(ri_agreed _ _ I) _. simplify_eq.
    eapply stands_extends; [done..|]. by eapply stands_log.
Qed.

(** A peer [i] moves to a later term, perhaps as a candidate. *)
Lemma RInv_later n ps rs st gv ag st' gv' i ct l t :
  let s := mkRState ps rs st gv ag in let s' := mkRState (<[i := (t, l)]> ps) rs st' gv' ag in
  RInv n s → extends s s' → ps !! i = Some (ct, l) → ct < t →
  (∀ a, a ∈ st' → a ∈ st ∨ a = (i, t, l)) →
  (∀ a, a ∈ gv' → a ∈ gv ∨ a = (i, t, i, l) ∧ (i, t, l) ∈ st') → RInv n s'.
Proof.
  intros s s' I X Hi Ht Hst Hgv.
  destruct (ri_log _ _ I _ _ _ Hi) as (H0 & Hs & He).
  assert (∀ j v, logs s' !! j = Some v → (j = i ∧ v = (t, l)) ∨ (j ≠ i ∧ logs s !! j = Some v)) as Hlk.
  { cbn. intros j v [[<- <-]|[? ?]]%lookup_insert_Some; auto. }
  assert (∀ j cj lj, logs s !! j = Some (cj, lj) → ∃ cj', logs s' !! j = Some (cj', lj) ∧ cj <= cj' ∧ (cj' = cj ∨ j = i ∧ cj' = t)) as Hup.
  { intros j cj lj Hj. cbn. destruct (decide (j = i)) as [->|].
    - rewrite lookup_insert_eq. cbn in Hj. simplify_eq. exists t. split_and!; [done|lia|auto].
    - rewrite lookup_insert_ne by done. exists cj. split_and!; [done|lia|auto]. }
  split.
  - intros j cj lj [[-> [= -> ->]]|[_ Hj]]%Hlk.
    + split_and!; [lia|by eapply stems_extends|]. intros e Hin. specialize (He e Hin). lia.
    + destruct (ri_log _ _ I _ _ _ Hj) as (? & ? & ?). split_and!; [done|by eapply stems_extends|done].
  - intros u r Hr. pose proof (ri_reign _ _ I _ _ Hr) as R. eapply reign_extends; [done..|].
    destruct (re_ruler _ _ _ R) as (cr & lr & Hlr & Hle & Heq). destruct (Hup _ _ _ Hlr) as (c' & Hc' & ? & [->|[Hru ->]]); [eauto|].
    exists t, lr. rewrite Hru in *. cbn in Hlr. simplify_eq. split_and!; [done|lia|lia].
  - intros j u lj [Hj| [= -> -> ->]]%Hst.
    + destruct (ri_stood _ _ I _ _ _ Hj) as (cj & li & Hlj & Hle & Heq). destruct (Hup _ _ _ Hlj) as (c' & Hc' & ? & [->|[-> ->]]); [eauto|].
      exists t, li. cbn in Hlj. simplify_eq. split_and!; [done|lia|lia].
    + exists t, l. cbn. by rewrite lookup_insert_eq.
  - intros j u c lj [Hj|[[= -> -> -> ->] Hin]]%Hgv; [by eapply given_extends|]. exists l. split; [done|].
    apply (own_ballot n s s' i ct l t l); try done; [|lia|right; done].
    exists t, l. cbn. by rewrite lookup_insert_eq.
  - intros j u k Hj. destruct (ri_agreed _ _ I _ _ _ Hj) as (r & cj & lj & Hr & Hk & Hlj & Hle & Hsj).
    destruct (Hup _ _ _ Hlj) as (c' & Hc' & ? & _). exists r, c', lj. split_and!; try done; [lia|].
    eapply stands_extends; [done..|]. by eapply stands_log.
  - intros u r Hr. by eapply won_extends.
Qed.

Lemma RInv_vote n ps rs st gv ag i t l c lc :
  let s := mkRState ps rs st gv ag in let s' := mkRState ps rs st ((i, t, c, l) :: gv) ag in
  RInv n s → extends s s' → ps !! i = Some (t, l) → (c, t, lc) ∈ st → upToDate lc l → RInv n s'.
Proof.
  intros s s' I X Hi Hc Hup. split.
  - intros j cj lj Hj. destruct (ri_log _ _ I _ _ _ Hj) as (? & ? & ?). split_and!; [done|by eapply stems_extends|done].
  - intros u r Hr. pose proof (ri_reign _ _ I _ _ Hr) as R. eapply reign_extends; [done..|]. apply R.
  - apply (ri_stood _ _ I).
  - intros j u c' lj [[= -> -> -> ->]|Hj]%elem_of_cons; [|by eapply given_extends]. exists lc. split; [done|].
    apply (own_ballot n s s' i t l t lc); try done. exists t, l. done.
  - intros j u k Hj. destruct (ri_agreed _ _ I _ _ _ Hj) as (r & cj & lj & Hr & Hk & Hlj & Hle & Hsj).
    exists r, cj, lj. split_and!; try done; by eapply stands_extends.
  - intros u r Hr. by eapply won_extends.
Qed.

(** A step in which peer [i], in its term [t], comes to have the log [l']. *)
Section update.
Context (n : Z) (s s' : RState) (i t : Z) (l l' : list E).
Hypothesis I : RInv n s.
Hypothesis X : extends s s'.
Hypothesis Hi : logs s !! i = Some (t, l).
Hypothesis Hlogs : logs s' = <[i := (t, l')]> (logs s).

Lemma update_here : logs s' !! i = Some (t, l').
Proof. by rewrite Hlogs, lookup_insert_eq. Qed.

Lemma update_other j : j ≠ i → logs s' !! j = logs s !! j.
Proof. intros. by rewrite Hlogs, lookup_insert_ne. Qed.

Lemma update_log :
  stems s' l' → (∀ e, e ∈ l' → tm e <= t) →
  ∀ j ct lj, logs s' !! j = Some (ct, lj) → 0 <= ct ∧ stems s' lj ∧ ∀ e, e ∈ lj → tm e <= ct.
Proof.
  intros Hs He j ct lj Hj. destruct (decide (j = i)) as [->|Hne].
  - rewrite update_here in Hj. simplify_eq. split_and!; [|done..]. by eapply (ri_log _ _ I).
  - rewrite update_other in Hj by done. destruct (ri_log _ _ I _ _ _ Hj) as (? & ? & ?).
    split_and!; [done|by eapply stems_extends|done].
Qed.

Lemma update_ruler u r :
  reigns s !! u = Some r → (u = t → ruler r = i → l' = l) →
  ∃ ct lr, logs s' !! ruler r = Some (ct, lr) ∧ u <= ct ∧ (ct = u → lr = written r).
Proof.
  intros Hr Hne. destruct (re_ruler _ _ _ (ri_reign _ _ I _ _ Hr)) as (ct & lr & Hlr & Hle & Heq).
  destruct (decide (ruler r = i)) as [Hru|Hru]; [|rewrite update_other by done; eauto].
  rewrite Hru, update_here. rewrite Hru, Hi in Hlr. injection Hlr as <- <-. exists t, l'. split_and!; [done..|].
  intros <-. rewrite Hne by done. by apply Heq.
Qed.

Lemma update_stood :
  l' = l ∨ (∃ r, reigns s' !! t = Some r) →
  ∀ j u lj, (j, u, lj) ∈ stood s → ∃ ct li, logs s' !! j = Some (ct, li) ∧ u <= ct ∧
    (ct = u → reigns s' !! u = None → li = lj).
Proof.
  intros Hsame j u lj Hj. destruct (ri_stood _ _ I _ _ _ Hj) as (ct & li & Hlj & Hle & Heq).
  assert (reigns s' !! u = None → reigns s !! u = None) as Hno.
  { intros Hn. destruct (reigns s !! u) as [r|] eqn:Hr; [|done].
    destruct (ex_grows _ _ X _ _ Hr) as (? & ? & _). congruence. }
  destruct (decide (j = i)) as [->|]; [|rewrite update_other by done; exists ct, li; auto].
  rewrite update_here. rewrite Hi in Hlj. injection Hlj as <- <-. exists t, l'. split_and!; [done..|].
  intros <- Hn. destruct Hsame as [->|(r & Hr)]; [auto|congruence].
Qed.

Lemma update_agreed j u k :
  (∀ r, u <= t → reigns s !! u = Some r → (k <= length (written r))%nat → stands s u k t l → stands s u k t l') →
  (j, u, k) ∈ agreed s → ∃ r ct lj, reigns s' !! u = Some r ∧
    (k <= length (written r))%nat ∧ logs s' !! j = Some (ct, lj) ∧ u <= ct ∧ stands s' u k ct lj.
Proof.
  intros Hst Hj. destruct (ri_agreed _ _ I _ _ _ Hj) as (r & cj & lj & Hr & Hk & Hlj & Hle & Hsj).
  destruct (ex_grows _ _ X _ _ Hr) as (r' & Hr' & _ & _ & Hw%prefix_length). exists r'.
  destruct (decide (j = i)) as [->|].
  - rewrite Hi in Hlj. injection Hlj as <- <-. exists t, l'. rewrite update_here. split_and!; [done|lia|done..|].
    eapply stands_extends; [done..|]. by eapply Hst.
  - exists cj, lj. rewrite update_other by done. split_and!; [done|lia|done..|]. by eapply stands_extends.
Qed.

End update.

(** Before the term is won, its ballots are not affected by it. *)
Lemma ballot_before s j t lc l : reigns s !! t = None → ballot s j t t lc l → ballot s j t (t - 1) lc l.
Proof.
  intros Hno [? ? ? Hs]. split; [done..|]. intros u k Hin Hlt r m Hr Hm.
  destruct (Hs u k Hin Hlt r m Hr Hm) as [|(v & rv & Hv & Hrv & Hn)]; [by left|right].
  exists v, rv. split_and!; [lia| |done..]. assert (v ≠ t) by congruence. lia.
Qed.

Lemma RInv_elect n ps rs st gv ag i t l Q :
  let s := mkRState ps rs st gv ag in
  let s' := mkRState ps (<[t := mkReign i l l]> rs) st gv ((i, t, length l) :: ag) in
  RInv n s → extends s s' → ps !! i = Some (t, l) → rs !! t = None → majority n Q →
  (∀ j, j ∈ Q → ∃ lj, (j, t, i, lj) ∈ gv) → RInv n s'.
Proof.
  intros s s' I X Hi Hno HQ Hv. destruct (ri_log _ _ I _ _ _ Hi) as (H0 & Hs & He).
  assert (logs s' = <[i := (t, l)]> (logs s)) as Hlogs by (cbn; by rewrite insert_id).
  assert (reigns s' !! t = Some (mkReign i l l)) as Hnew by apply lookup_insert_eq.
  assert (∀ u, u ≠ t → reigns s' !! u = reigns s !! u) as Hold by (intros; by apply lookup_insert_ne).
  assert (stems s' l) as Hs' by by eapply stems_extends.
  split.
  - by eapply (update_log n s s').
  - intros u r Hr. destruct (decide (u = t)) as [->|Hut].
    + rewrite Hnew in Hr. injection Hr as <-. split; cbn; try done.
      * intros p e Hp _. destruct (Hs _ _ Hp) as (re & Hre & _). assert (tm e ≠ t) by (intros <-; cbn in Hre; congruence).
        specialize (He e (list_elem_of_lookup_2 _ _ _ Hp)). lia.
      * intros p e Hp%lookup_lt_Some ?. lia.
      * by exists t, l.
    + rewrite Hold in Hr by done. pose proof (ri_reign _ _ I _ _ Hr) as R. eapply reign_extends; [done..|].
      by eapply (update_ruler n s s').
  - eapply (update_stood n s s'); [done..|by left].
  - intros j u c lj Hj. by eapply given_extends.
  - intros j u k [[= -> -> ->]|Hj]%elem_of_cons.
    + exists (mkReign i l l), t, l. split_and!; try done. intros r m Hr Hm. left.
      rewrite Hnew in Hr. injection Hr as <-. apply prefix_take.
    + by eapply (update_agreed n s s' i t l l).
  - intros u r Hr. destruct (decide (u = t)) as [->|Hut].
    + rewrite Hnew in Hr. injection Hr as <-. cbn [inherited]. exists Q. split; [done|]. intros j Hj.
      destruct (Hv j Hj) as (lj & (lc & Hlc & Hb)%(ri_given _ _ I)). exists lj.
      destruct (ri_stood _ _ I _ _ _ Hlc) as (ct & li & Hli & _ & Heq). cbn in Hli, Heq.
      rewrite Hi in Hli. injection Hli as <- <-. rewrite Heq by done.
      eapply ballot_extends; [done..|]. by apply ballot_before.
    + rewrite Hold in Hr by done. by eapply won_extends.
Qed.

Lemma stems_snoc s l e r :
  stems s l → reigns s !! tm e = Some r → written r = l ++ [e] → (length (inherited r) <= length l)%nat → stems s (l ++ [e]).
Proof.
  intros Hs Hr Hw Hi p e' Hp. apply lookup_app_Some in Hp as [Hp|[Hge Hp]].
  - destruct (Hs _ _ Hp) as (r' & ? & ? & ?). exists r'. split_and!; try done.
    by rewrite take_app_le by (apply lookup_lt_Some in Hp; lia).
  - apply list_lookup_singleton_Some in Hp as [Hp <-]. exists r. rewrite Hw.
    split_and!; [done|apply prefix_take|lia].
Qed.

Lemma RInv_append n ps rs st gv ag i t l r e :
  let s := mkRState ps rs st gv ag in
  let s' := mkRState (<[i := (t, l ++ [e])]> ps) (<[t := mkReign i (inherited r) (l ++ [e])]> rs)
        st gv ((i, t, S (length l)) :: ag) in
  RInv n s → extends s s' → ps !! i = Some (t, l) → rs !! t = Some r → ruler r = i → tm e = t → RInv n s'.
Proof.
  intros s s' I X Hi Hr Hru He. destruct (ri_log _ _ I _ _ _ Hi) as (H0 & Hs & Hle).
  pose proof (ri_reign _ _ I _ _ Hr) as R. set (r' := mkReign i (inherited r) (l ++ [e])) in *.
  assert (l = written r) as Hl.
  { destruct (re_ruler _ _ _ R) as (ct & lr & Hlr & _ & Heq). rewrite Hru in Hlr. cbn in Hlr.
    rewrite Hi in Hlr. injection Hlr as <- <-. auto. }
  pose proof (prefix_length _ _ (re_inherited _ _ _ R)) as Hlen. rewrite <-Hl in Hlen.
  assert (logs s' = <[i := (t, l ++ [e])]> (logs s)) as Hlogs by done.
  assert (reigns s' !! t = Some r') as Hnew by apply lookup_insert_eq.
  assert (∀ u, u ≠ t → reigns s' !! u = reigns s !! u) as Hold by (intros; by apply lookup_insert_ne).
  assert (stems s' (l ++ [e])) as Hs' by (apply (stems_snoc s' l e r'); [by eapply stems_extends|by rewrite He|done..]).
  split.
  - eapply (update_log n s s'); [done..|]. intros x [Hx| ->%list_elem_of_singleton]%elem_of_app; [auto|lia].
  - intros u ru Hu. destruct (decide (u = t)) as [->|Hut].
    + rewrite Hnew in Hu. injection Hu as <-. split; cbn; try done.
      * rewrite Hl. apply prefix_app_r, R.
      * intros p x [Hp|[? ?]]%lookup_app_Some ?; [|lia]. rewrite Hl in Hp. by eapply (re_old _ _ _ R).
      * intros p x [Hp|[? Hp]]%lookup_app_Some ?; [rewrite Hl in Hp; by eapply (re_new _ _ _ R)|].
        by apply list_lookup_singleton_Some in Hp as [_ <-].
      * exists t, (l ++ [e]). by rewrite lookup_insert_eq.
    + rewrite Hold in Hu by done. pose proof (ri_reign _ _ I _ _ Hu) as R'. eapply reign_extends; [done..|].
      by eapply (update_ruler n s s').
  - eapply (update_stood n s s'); [done..|by right; eauto].
  - intros j u c lj Hj. by eapply given_extends.
  - intros j u k [[= -> -> ->]|Hj]%elem_of_cons.
    + exists r', t, (l ++ [e]). split_and!; try done.
      * cbn. rewrite length_app. cbn. lia.
      * by eapply update_here.
      * intros r1 m Hr1 Hm. left. rewrite Hnew in Hr1. injection Hr1 as <-. apply prefix_take.
    + eapply (update_agreed n s s' i t l (l ++ [e])); [done..| |done]. intros r1 _ _ _ Hst.
      eapply stands_log; [done..|]. by apply prefix_app_r.
  - intros u ru Hu. destruct (decide (u = t)) as [->|Hut].
    + rewrite Hnew in Hu. injection Hu as <-. by eapply won_extends.
    + rewrite Hold in Hu by done. by eapply won_extends.
Qed.

(** Between logs of the machine the prefix order can be decided by the terms. *)
Lemma stems_prefix_dec s x y : stems s x → stems s y → x `prefix_of` y ∨ ¬ x `prefix_of` y.
Proof.
  intros Hx Hy. destruct (last x) as [e|] eqn:He.
  2:{ apply last_None in He as ->. left. apply prefix_nil. }
  rewrite last_lookup in He. pose proof (lookup_lt_Some _ _ _ He) as Hlt.
  destruct (y !! pred (length x)) as [e'|] eqn:He'.
  - destruct (decide (tm e = tm e')) as [Ht|Ht].
    + left. pose proof (stems_agree _ _ _ _ _ _ Hx Hy He He' Ht) as Heq.
      rewrite take_ge in Heq by lia. rewrite Heq. apply prefix_take.
    + right. intros Hp. rewrite (prefix_lookup_eq _ _ _ Hp) in He' by done. congruence.
  - right. intros Hp. rewrite (prefix_lookup_eq _ _ _ Hp) in He' by done. congruence.
Qed.

Lemma accepted_has l L l' : accepted l L l' → L `prefix_of` l'.
Proof. by intros [[? ->]|[_ ->]]. Qed.

(** Accepting a part of the leader's log keeps what was agreed to before. *)
Lemma accept_stands n s t r m l l' u k :
  RInv n s → reigns s !! t = Some r → accepted l (take m (written r)) l' → u <= t →
  stands s u k t l → stands s u k t l'.
Proof.
  intros I Hr [[_ ->]|[Hno ->]] Hu Hs; [done|]. intros ru m' Hru Hm'.
  destruct (Hs ru m' Hru Hm') as [Hx|]; [|by right].
  assert (take m' (written ru) `prefix_of` written r → take m' (written ru) `prefix_of` take m (written r)) as Hkeep.
  { intros Hp. eapply (prefix_replaced _ l _ (written r)); [done..|apply prefix_take|done]. }
  pose proof (ri_reign _ _ I _ _ Hr) as R. pose proof (ri_reign _ _ I _ _ Hru) as Ru.
  destruct (decide (u = t)) as [->|Hut].
  { left. apply Hkeep. assert (ru = r) as -> by congruence. apply prefix_take. }
  destruct (stems_prefix_dec s (take m' (written ru)) (inherited r)) as [Hp|Hn].
  - eapply stems_prefix; [apply Ru|apply prefix_take].
  - eapply stems_prefix; apply R.
  - left. apply Hkeep. trans (inherited r); [done|apply R].
  - right. exists t, r. split_and!; [lia..|done|done].
Qed.

Lemma RInv_accept n ps rs st gv ag i t l r m l' :
  let s := mkRState ps rs st gv ag in
  let s' := mkRState (<[i := (t, l')]> ps) rs st gv ((i, t, m) :: ag) in
  RInv n s → extends s s' → ps !! i = Some (t, l) → rs !! t = Some r → ruler r ≠ i →
  (m <= length (written r))%nat → accepted l (take m (written r)) l' → RInv n s'.
Proof.
  intros s s' I X Hi Hr Hru Hm Hac. destruct (ri_log _ _ I _ _ _ Hi) as (H0 & Hs & Hle).
  pose proof (ri_reign _ _ I _ _ Hr) as R.
  assert (logs s' = <[i := (t, l')]> (logs s)) as Hlogs by done.
  assert (stems s' l' ∧ ∀ e, e ∈ l' → tm e <= t) as [Hs' Hle'].
  { destruct Hac as [[_ ->]|[_ ->]]; [split; [by eapply stems_extends|done]|]. split.
    - eapply stems_extends; [done|]. eapply stems_prefix; [apply R|apply prefix_take].
    - intros e [p Hp]%list_elem_of_lookup. apply lookup_take_Some in Hp as [Hp _]. by eapply reign_le. }
  split.
  - by eapply (update_log n s s').
  - intros u ru Hu. pose proof (ri_reign _ _ I _ _ Hu) as R'. eapply reign_extends; [done..|].
    eapply (update_ruler n s s'); [done..|]. intros -> ?. cbn in Hu. congruence.
  - eapply (update_stood n s s'); [done..|by right; eauto].
  - intros j u c lj Hj. by eapply given_extends.
  - intros j u k [[= -> -> ->]|Hj]%elem_of_cons.
    + exists r, t, l'. split_and!; try done; [by eapply update_here|].
      intros r1 k Hr1 Hk. left. cbn in Hr1. assert (r1 = r) as -> by congruence.
      trans (take m (written r)); [by apply take_prefix_take|by eapply accepted_has].
    + eapply (update_agreed n s s' i t l l'); [done..| |done]. intros r1 Hu _ _ Hst. by eapply accept_stands.
  - intros u ru Hu. by eapply won_extends.
Qed.

Lemma RInv_step n s s' : RInv n s → rstep n s s' → RInv n s'.
Proof.
  intros I HS. pose proof (rstep_extends _ _ _ I HS) as X. destruct HS.
  - eapply RInv_later; try done; auto.
  - eapply RInv_later; try done; [lia|..]; intros a [->|?]%elem_of_cons; auto. right. split; [done|by left].
  - by eapply RInv_vote.
  - by eapply RInv_elect.
  - by eapply RInv_append.
  - by eapply RInv_accept.
Qed.

Lemma RInv_init n s : rinit s → RInv n s.
Proof.
  intros (Hl & Hr & Hs & Hg & Ha). split; rewrite ?Hr, ?Hs, ?Hg, ?Ha; try set_solver.
  intros i ct l Hi. apply Hl in Hi as [= -> ->]. split_and!; [lia| |set_solver]. intros p e Hp. by rewrite lookup_nil in Hp.
Qed.

End replication.

Arguments Reign : clear implicits.
Arguments RState : clear implicits.
