(* ===== verification/RaftSafety.v ===== *)
(** * Safety of a cluster of Raft peers

    A cluster of peers that take no snapshots follows the machine of
    [Replication], whatever the network loses, delays or reorders.  So the logs
    of its peers match, a leader has every committed entry of the earlier terms,
    and no two peers ever apply different commands at one index. *)

From S2P Require Import Prelude LabGob Persister Raft RaftLog RaftState Voting RaftElection Replication.

Section safety.
Context {Cmd : Type} `{!Gob (PersistentState Cmd)}.
Implicit Types (rf : Raft Cmd) (c : Cluster Cmd) (s : RState (RaftLogEntry Cmd)) (l : list (RaftLogEntry Cmd)).

(** ** Peers, messages and the machine *)

(** [l] is known to be part of the log of [t]'s leader, if there is one. *)
Definition heard (n : Z) s (t : Z) l : Prop :=
  safe Term n s t l ∨ ∃ r, reigns s !! t = Some r ∧ l `prefix_of` written r.

Record peer_ok (n : Z) s (i : Z) rf : Prop := {
  po_inv : inv rf;
  po_me : me rf = i ∧ npeers rf = n ∧ snapshotMsg rf = ApplyMsg0;
  po_snap : SnapshotLastIncludedIndex rf = 0 ∧ SnapshotLastIncludedTerm rf = 0;
  po_heard : LeaderTerm rf <= CurrentTerm rf;
  po_commit : 0 <= CommitIndex rf <= zlen (Logs rf);
  po_safe : safe Term n s (CurrentTerm rf) (take (Z.to_nat (CommitIndex rf)) (Logs rf));
  po_new : LeaderTerm rf = CurrentTerm rf → 0 <= LastNewEntryIndex rf <= zlen (Logs rf) ∧
    heard n s (CurrentTerm rf) (take (Z.to_nat (LastNewEntryIndex rf)) (Logs rf));
  po_match : ∀ r j m, reigns s !! CurrentTerm rf = Some r → ruler r = i → index (MatchIndex rf) j = Some m →
    m <= 0 ∨ ∃ k, m <= Z.of_nat k ∧ (j, CurrentTerm rf, k) ∈ agreed s;
}.

(** The requests of a leader: a part of its log, and a commit index below which
    its log is committed.  Without snapshots InstallSnapshot carries nothing. *)
Definition rpc_rel (n : Z) s (src : Z) (m : Rpc Cmd) : Prop :=
  match m with
  | CallAppendEntries server args => ∃ r (p k : nat), reigns s !! ae_Term args = Some r ∧
      ruler r = src ∧ server ≠ src ∧ ae_PrevLogIndex args = Z.of_nat p ∧
      contiguous (ae_PrevLogIndex args) (ae_Entries args) ∧
      take p (written r) ++ ae_Entries args `prefix_of` written r ∧ (p <= length (written r))%nat ∧
      ((0 < p)%nat → Term <$> written r !! pred p = Some (ae_PrevLogTerm args)) ∧
      ae_LeaderCommit args = Z.of_nat k ∧ (k <= length (written r))%nat ∧
      safe Term n s (ae_Term args) (take k (written r))
  | CallInstallSnapshot server args => is_LastIncludedIndex args = 0
  | CallRequestVote _ _ => False
  end.

(** A successful reply of the request's own term is an agreement. *)
Definition ack_rel s (a : Ack Cmd) : Prop :=
  match a with
  | AckAppendEntries src server args reply =>
    aer_Success reply = true → aer_Term reply = ae_Term args →
    ∃ k, ae_PrevLogIndex args + zlen (ae_Entries args) = Z.of_nat k ∧ (server, ae_Term args, k) ∈ agreed s
  | AckInstallSnapshot src server args reply => is_LastIncludedIndex args = 0
  end.

Definition plog rf : Z * list (RaftLogEntry Cmd) := (CurrentTerm rf, Logs rf).

Record Rel (n : Z) c s : Prop := {
  rl_logs : logs s = plog <$> nodes c;
  rl_peer : ∀ i rf, nodes c !! i = Some rf → peer_ok n s i rf;
  rl_loops : ∀ i t, (i, t) ∈ loops c ↔ ∃ r, reigns s !! t = Some r ∧ ruler r = i;
  rl_net : ∀ m, m ∈ net c → rpc_rel n s m.1 m.2;
  rl_acks : ∀ a, a ∈ acks c → ack_rel s a;
  rl_elections : ∀ k el, elections c !! k = Some el → ∃ l, (cand el, eterm el, l) ∈ stood s ∧
    rv_LastLogIndex (el_args el) = zlen l ∧ rv_LastLogTerm (el_args el) = lastTerm Term l ∧
    ((cand el, eterm el) ∈ loops c → done el = true);
  rl_unique : ∀ k k' el el', elections c !! k = Some el → elections c !! k' = Some el' →
    cand el = cand el' → eterm el = eterm el' → k = k';
  rl_cast : ∀ j t i, (j, t, i) ∈ cast c → ∃ l, (j, t, i, l) ∈ given s;
}.

(** What [peer_ok] looks at. *)
Definition safety_view rf :=
  (CurrentTerm rf, log_view rf, CommitIndex rf, (LeaderTerm rf, LastNewEntryIndex rf), MatchIndex rf, (me rf, npeers rf, snapshotMsg rf)).

Lemma peer_ok_view n s i rf rf' : peer_ok n s i rf → safety_view rf' = safety_view rf → inv rf' → peer_ok n s i rf'.
Proof.
  intros [] [= E1 E2 E3 E4 E5 E6 E7 E8 E9 E10 E11] W. split; rewrite ?E1, ?E2, ?E3, ?E4, ?E5, ?E6, ?E7, ?E8, ?E9, ?E10, ?E11; done.
Qed.

Lemma heard_extends n s s' t t' l : extends s s' → heard n s t l → t = t' → heard n s' t' l.
Proof.
  intros X [HS|(r & Hr & Hl)] <-; [left; by eapply safe_extends|right].
  destruct (ex_grows _ _ X _ _ Hr) as (r' & Hr' & _ & _ & Hw). exists r'. split; [done|by trans (written r)].
Qed.

Lemma heard_reign n s t l r :
  0 < n → RInv Term n s → heard n s t l → reigns s !! t = Some r → l `prefix_of` written r.
Proof.
  intros Hn I [HS|(r' & Hr' & Hl)] Hr; [by eapply safe_in_reign|]. by assert (r' = r) as -> by congruence.
Qed.

Lemma peer_ok_extends n s s' i rf :
  extends s s' →
  (∀ r', reigns s' !! CurrentTerm rf = Some r' → ruler r' = i → ∃ r, reigns s !! CurrentTerm rf = Some r ∧ ruler r = i) →
  peer_ok n s i rf → peer_ok n s' i rf.
Proof.
  intros X Hr [W ? ? ? ? HS HN HM]. split; try done.
  - by eapply safe_extends.
  - intros HL. destruct (HN HL) as [? ?]. split; [done|]. by eapply heard_extends.
  - intros r' j m Hr' Hru Hm. destruct (Hr r' Hr' Hru) as (r & Hr0 & Hru0).
    destruct (HM r j m Hr0 Hru0 Hm) as [|(k & ? & ?)]; [by left|right]. exists k. split; [done|by apply X].
Qed.

Lemma rpc_rel_extends n s s' src m : extends s s' → rpc_rel n s src m → rpc_rel n s' src m.
Proof.
  intros X. destruct m as [server args| |]; cbn; try done.
  intros (r & p & k & Hr & Hru & Hne & Hp & Hcon & Hpre & Hpl & Hpt & Hk & Hkl & HS).
  destruct (ex_grows _ _ X _ _ Hr) as (r' & Hr' & Hru' & _ & Hw). pose proof (prefix_length _ _ Hw).
  exists r', p, k. rewrite (prefix_take_mono p (written r) (written r')) by done.
  rewrite (prefix_take_mono k (written r) (written r')) by done.
  split_and!; try done; [congruence|by trans (written r)|lia| |lia|by eapply safe_extends].
  intros H0. rewrite (prefix_lookup_eq (written r) (written r')); [auto|done|lia].
Qed.

Lemma ack_rel_extends s s' a : extends s s' → ack_rel s a → ack_rel s' a.
Proof.
  intros X. destruct a as [src server args reply|]; cbn; [|done]. intros H Hs Ht.
  destruct (H Hs Ht) as (k & ? & ?). exists k. split; [done|by apply X].
Qed.

(** No reign begins or changes hands. *)
Definition same_rulers s s' : Prop := ∀ t, ruler <$> reigns s' !! t = ruler <$> reigns s !! t.

Lemma same_rulers_back s s' t r' :
  same_rulers s s' → reigns s' !! t = Some r' → ∃ r, reigns s !! t = Some r ∧ ruler r = ruler r'.
Proof.
  intros HR Hr'. specialize (HR t). rewrite Hr' in HR. cbn in HR. symmetry in HR. by apply fmap_Some in HR as (r & ? & ?); eauto.
Qed.

(** One peer changes, and the machine with it. *)
Lemma Rel_set n c s s' i rf' :
  Rel n c s → extends s s' → same_rulers s s' → logs s' = <[i := plog rf']> (logs s) → peer_ok n s' i rf' →
  Rel n (set_node i rf' c) s'.
Proof.
  intros R X HR HL HP. split; cbn.
  - by rewrite HL, (rl_logs _ _ _ R), fmap_insert.
  - intros j rf [[<- <-]|[_ Hj]]%lookup_insert_Some; [done|].
    eapply peer_ok_extends; [done| |by eapply (rl_peer _ _ _ R)].
    intros r' Hr' <-. by eapply same_rulers_back.
  - intros j t. rewrite (rl_loops _ _ _ R). split; intros (r & Hr & <-).
    + destruct (ex_grows _ _ X _ _ Hr) as (r' & ? & ? & _). eauto.
    + by eapply same_rulers_back.
  - intros m Hm. eapply rpc_rel_extends; [done|]. by apply (rl_net _ _ _ R).
  - intros a Ha. eapply ack_rel_extends; [done|]. by apply (rl_acks _ _ _ R).
  - intros k el Hel. destruct (rl_elections _ _ _ R _ _ Hel) as (l & ? & ? & ? & ?). exists l.
    split_and!; [by apply X|done..].
  - apply (rl_unique _ _ _ R).
  - intros j t d Hd. destruct (rl_cast _ _ _ R _ _ _ Hd) as (l & ?). exists l. by apply X.
Qed.

Lemma extends_refl s : extends s s.
Proof. split; eauto. Qed.

Lemma Rel_quiet n c s i rf rf' :
  Rel n c s → nodes c !! i = Some rf → plog rf' = plog rf → peer_ok n s i rf' → Rel n (set_node i rf' c) s.
Proof.
  intros R Hi Hp HP. apply (Rel_set n c s s); [done|apply extends_refl|done| |done].
  rewrite Hp, insert_id; [done|]. by rewrite (rl_logs _ _ _ R), lookup_fmap, Hi.
Qed.

Lemma Rel_messages n c s ms as' :
  Rel n c s → (∀ m, m ∈ ms → rpc_rel n s m.1 m.2) → (∀ a, a ∈ as' → ack_rel s a) →
  Rel n (c <| net := ms |> <| acks := as' |>) s.
Proof. intros R Hm Ha. split; try apply R; done. Qed.

(** ** The steps of a peer *)

Lemma po_wf n s i rf : peer_ok n s i rf → wf rf.
Proof. intros P. apply (po_inv _ _ _ _ P). Qed.

Lemma Rel_lookup n c s i rf : Rel n c s → nodes c !! i = Some rf → logs s !! i = Some (CurrentTerm rf, Logs rf).
Proof. intros R Hi. by rewrite (rl_logs _ _ _ R), lookup_fmap, Hi. Qed.

(** A reign a peer rules is not of a term it has yet to reach. *)
Lemma ruler_reached n c s i rf t r :
  RInv Term n s → Rel n c s → nodes c !! i = Some rf → reigns s !! t = Some r → ruler r = i → t <= CurrentTerm rf.
Proof.
  intros I R Hi Hr Hru. destruct (re_ruler _ _ _ _ (ri_reign _ _ _ I _ _ Hr)) as (ct & lr & Hlr & Hle & _).
  rewrite Hru, (Rel_lookup _ _ _ _ _ R Hi) in Hlr. by injection Hlr as <- <-.
Qed.

(** The cluster [c] goes to [c'] and the machine with it. *)
Definition sim (n : Z) s c' : Prop := ∃ s', rtc (rstep Term n) s s' ∧ RInv Term n s' ∧ Rel n c' s'.

Lemma sim_refl n s c : RInv Term n s → Rel n c s → sim n s c.
Proof. intros. by exists s. Qed.

Lemma sim_step n s s' c' : RInv Term n s → rstep Term n s s' → Rel n c' s' → sim n s c'.
Proof. intros I HS R. exists s'. split_and!; [by apply rtc_once|by eapply RInv_step|done]. Qed.

Lemma sim_trans n s c c' : sim n s c → (∀ s1, RInv Term n s1 → Rel n c s1 → sim n s1 c') → sim n s c'.
Proof.
  intros (s1 & HR & I & R) H. destruct (H s1 I R) as (s2 & HR2 & I2 & R2). exists s2. split_and!; [by etrans|done..].
Qed.

(** A later term, with everything up to the commit index still to be heard. *)
Lemma sim_join n c s i rf rf' :
  RInv Term n s → Rel n c s → nodes c !! i = Some rf → CurrentTerm rf < CurrentTerm rf' → inv rf' →
  log_view rf' = log_view rf → CommitIndex rf' = CommitIndex rf → LeaderTerm rf' = CurrentTerm rf' →
  LastNewEntryIndex rf' = CommitIndex rf → (me rf', npeers rf', snapshotMsg rf') = (me rf, npeers rf, snapshotMsg rf) →
  sim n s (set_node i rf' c).
Proof.
  intros I R Hi Ht W HV HC HL HN [= Hme Hnp Hmsg]. pose proof (rl_peer _ _ _ R _ _ Hi) as P.
  apply log_view_eq in HV as (EL & ES & ET & _). pose proof (Rel_lookup _ _ _ _ _ R Hi) as Hlk.
  assert (rstep Term n s (mkRState (<[i := plog rf']> (logs s)) (reigns s) (stood s) (given s) (agreed s))) as HS.
  { destruct s. unfold plog. rewrite EL. by eapply r_join. }
  pose proof (rstep_extends _ _ _ _ I HS) as X. eapply sim_step; [done..|]. eapply Rel_set; [done..|].
  assert (safe Term n (mkRState (<[i := plog rf']> (logs s)) (reigns s) (stood s) (given s) (agreed s)) (CurrentTerm rf') (take (Z.to_nat (CommitIndex rf)) (Logs rf))) as HSafe.
  { eapply safe_extends; [done|apply P|lia]. }
  destruct P as [_ (? & ? & ?) [? ?] ? ? ? _ _].
  split; rewrite ?HC, ?EL, ?ES, ?ET, ?HN; [done|split_and!; congruence|done|lia|done|done|split; [done|by left]|].
  cbn. intros r j m Hr Hru _. pose proof (ruler_reached _ _ _ _ _ _ _ I R Hi Hr Hru). lia.
Qed.

Lemma sim_stepDown n c s i rf t :
  RInv Term n s → Rel n c s → nodes c !! i = Some rf → CurrentTerm rf < t → sim n s (set_node i (stepDown t rf) c).
Proof. intros I R Hi Ht. eapply sim_join; try done. eapply stepDown_inv, po_inv. by apply (rl_peer _ _ _ R). Qed.

(** A peer that hears of the leader of [t]. *)
Lemma acceptLeader_new env t rf rf1 ch :
  CurrentTerm rf <= t → acceptLeader env t rf = (rf1, ch) →
  CurrentTerm rf1 = t ∧ LeaderTerm rf1 = t ∧
  (LastNewEntryIndex rf1 = CommitIndex rf ∨
   CurrentTerm rf = t ∧ LeaderTerm rf = t ∧ LastNewEntryIndex rf1 = LastNewEntryIndex rf).
Proof.
  unfold acceptLeader. simpl. intros Hle.
  destruct (Z.eqb_spec t (LeaderTerm rf)) as [Hl|Hl]; simpl;
    destruct (Z.ltb_spec (CurrentTerm rf) t) as [Ht|Ht]; intros [= <- <-]; simpl; split_and!; try done; try lia; auto.
Qed.

Lemma sim_acceptLeader n c s i rf env t rf1 ch :
  RInv Term n s → Rel n c s → nodes c !! i = Some rf → CurrentTerm rf <= t → acceptLeader env t rf = (rf1, ch) →
  sim n s (set_node i rf1 c).
Proof.
  intros I R Hi Ht HA. pose proof (rl_peer _ _ _ R _ _ Hi) as P. pose proof (acceptLeader_frame _ _ _ _ _ HA) as (V1 & V2 & HC & _ & HP & HSm).
  assert (inv rf1) as W1 by (apply (inv_views rf); [done..|apply P]).
  assert ((me rf1, npeers rf1, snapshotMsg rf1) = (me rf, npeers rf, snapshotMsg rf) ∧ MatchIndex rf1 = MatchIndex rf) as [HM HMi].
  { unfold peer_view in V2. split; congruence. }
  destruct (acceptLeader_new _ _ _ _ _ Ht HA) as (T1 & T2 & HN). clear HA.
  destruct (Z.lt_ge_cases (CurrentTerm rf) t) as [Hlt|Hge].
  { destruct HN as [HN|[? _]]; [|lia]. eapply (sim_join n c s i rf); try done; [lia|congruence]. }
  assert (CurrentTerm rf = t) as ET by lia. apply log_view_eq in V1 as (EL & ES & EST & _).
  apply sim_refl; [done|]. eapply Rel_quiet; [done..|by unfold plog; rewrite EL, T1, ET|].
  destruct P as [_ ? ? ? HB HS HNew HMt]. injection HM as E1 E2 E3.
  split; rewrite ?EL, ?ES, ?EST, ?HC, ?E1, ?E2, ?E3, ?T1, ?T2, ?HMi, <-?ET; try done.
  intros _. destruct HN as [->|(? & HLT & ->)]; [split; [done|by left]|]. apply HNew. by rewrite HLT.
Qed.

Lemma rpc_rel_rtc n s s' src m :
  RInv Term n s → rtc (rstep Term n) s s' → rpc_rel n s src m → rpc_rel n s' src m.
Proof.
  intros I HR. induction HR as [|s1 s2 s3 HS _ IH]; [done|]. intros H. apply IH; [by eapply RInv_step|].
  eapply rpc_rel_extends; [by eapply rstep_extends|done].
Qed.

(** ** AppendEntries *)

(** What [skipMatching] leaves in place is the leader's. *)
Lemma skip_agree s l W (p : nat) es pre rest :
  stems Term s l → stems Term s W → take p l = take p W → (p <= length W)%nat → take p W ++ es `prefix_of` W →
  skip_spec l (Z.of_nat p) es pre rest → take (p + length pre) l = take p W ++ pre.
Proof.
  intros Hl HW Hp HpW Hes [-> Hhave _ _]. destruct pre as [|e pre _] using rev_ind.
  { by rewrite Nat.add_0_r, app_nil_r. }
  destruct (Hhave (Z.of_nat (length pre)) e) as (old & Hold & Ht); [|lia|].
  { rewrite index_lookup, Nat2Z.id by lia. by rewrite list_lookup_middle. }
  rewrite index_lookup in Hold by lia. replace (Z.to_nat _) with (p + length pre)%nat in Hold by lia.
  assert (take p W ++ pre ++ [e] `prefix_of` W) as HpreW.
  { trans (take p W ++ (pre ++ [e]) ++ rest); [|done]. exists rest. by rewrite <-!app_assoc. }
  assert (length (take p W ++ pre ++ [e]) = S (p + length pre)) as Hlen.
  { rewrite !length_app, length_take. cbn. lia. }
  rewrite <-(prefix_take_of _ _ HpreW), Hlen. rewrite length_app. cbn [length].
  replace (p + (length pre + 1))%nat with (S (p + length pre)) by lia.
  eapply stems_agree; [done..| |done]. rewrite (prefix_lookup_eq _ _ _ HpreW) by lia.
  rewrite app_assoc, lookup_app_r by (rewrite length_app, length_take; lia).
  rewrite length_app, length_take. by replace (_ - _)%nat with 0%nat by lia.
Qed.

Lemma skip_accepted s l W (p : nat) es pre rest :
  stems Term s l → stems Term s W → take p l = take p W → (p <= length W)%nat → take p W ++ es `prefix_of` W →
  skip_spec l (Z.of_nat p) es pre rest →
  accepted l (take p W ++ es) (if (0 <? zlen rest) then take (Z.to_nat (Z.of_nat p + zlen pre)) l ++ rest else l).
Proof.
  intros Hl HW Hp HpW Hes Hsk. pose proof (skip_agree _ _ _ _ _ _ _ Hl HW Hp HpW Hes Hsk) as Hag.
  destruct Hsk as [-> _ Hle Hstop]. replace (Z.to_nat (Z.of_nat p + zlen pre)) with (p + length pre)%nat by (unfold zlen; lia).
  rewrite app_assoc, <-Hag. destruct (Z.ltb_spec 0 (zlen rest)) as [Hr|Hr].
  - right. split; [|done]. intros Hpre. destruct Hstop as [->|[_ Hstop]]; [done|].
    unfold zlen in *. assert (length (take (p + length pre) l) = p + length pre)%nat as Hn by (rewrite length_take; lia).
    pose proof (prefix_length _ _ Hpre) as HL. rewrite length_app, Hn in HL.
    destruct Hstop as [?|(old & e & r & -> & Ho & Ht)]; [lia|].
    rewrite index_lookup in Ho by lia. replace (Z.to_nat _) with (p + length pre)%nat in Ho by lia.
    rewrite (prefix_lookup_eq _ _ _ Hpre), lookup_app_r, Hn, Nat.sub_diag in Ho by (rewrite ?length_app, ?Hn; cbn; lia).
    cbn in Ho. congruence.
  - left. assert (rest = []) as -> by (apply zlen_0_nil; unfold zlen in *; lia). rewrite app_nil_r. split; [apply prefix_take|done].
Qed.

(** The merge of [AppendEntries] is the machine's acceptance. *)
Lemma mergeEntries_accepted s rf args W (p : nat) rf' ch :
  wf rf → SnapshotLastIncludedIndex rf = 0 → stems Term s (Logs rf) → stems Term s W →
  ae_PrevLogIndex args = Z.of_nat p → contiguous (ae_PrevLogIndex args) (ae_Entries args) → (p <= length W)%nat →
  take p W ++ ae_Entries args `prefix_of` W → (p <= length (Logs rf))%nat → take p (Logs rf) = take p W →
  mergeEntries args rf = Some (rf', ch) → accepted (Logs rf) (take p W ++ ae_Entries args) (Logs rf').
Proof.
  intros HW HS0 Hl HsW Hp Hcon HpW Hes Hpl Hag HM. unfold mergeEntries in HM.
  destruct (Z.eqb_spec (zlen (ae_Entries args)) 0) as [Hz|Hz].
  { apply zlen_0_nil in Hz. rewrite Hz, app_nil_r. injection HM as <- <-. left. rewrite <-Hag. split; [apply prefix_take|done]. }
  rewrite HS0, Z.sub_0_r, Hp in HM.
  destruct (skipMatching_spec 0 (Logs rf) (Z.of_nat p) (ae_Entries args)) as (pre & rest & Hskip & Hsp).
  { rewrite <-HS0. apply HW. } { by rewrite Z.add_0_l, <-Hp. } { unfold zlen. lia. }
  rewrite Hskip in HM. cbn [mbind option_bind] in HM.
  pose proof (skip_accepted _ _ _ _ _ _ _ Hl HsW Hag HpW Hes Hsp) as Hac.
  destruct (0 <? zlen rest); cbn [mbind option_bind] in HM; [|by injection HM as <- <-].
  pose proof (sk_le _ _ _ _ _ Hsp). pose proof (zlen_nonneg pre). rewrite slice_to in HM by lia.
  cbn [mbind option_bind] in HM. by injection HM as <- <-.
Qed.

(** What a log shares with the leader's stays when it accepts a part of it. *)
Lemma accepted_keeps l L l' W (k : nat) :
  accepted l L l' → L `prefix_of` W → (k <= length l)%nat → take k l `prefix_of` W →
  take k l' = take k l ∧ (k <= length l')%nat.
Proof.
  intros Hac HL Hk HW. assert (take k l `prefix_of` l') as Hp.
  { destruct Hac as [[_ ->]|[Hno ->]]; [apply prefix_take|].
    eapply (prefix_replaced _ l _ W); [apply prefix_take|done..]. }
  pose proof (prefix_length _ _ Hp) as Hlen. rewrite length_take in Hlen. split; [|lia].
  rewrite <-(prefix_take_of _ _ Hp), length_take. f_equal. lia.
Qed.

Lemma safe_prefix n s t l l' : safe Term n s t l → l' `prefix_of` l → safe Term n s t l'.
Proof.
  intros [->|(u & k & r & ? & ? & ? & ?)] Hp; [left; by apply prefix_nil_inv in Hp|right].
  exists u, k, r. split_and!; try done. by trans l.
Qed.

(** The consistency check compares with the leader's log. *)
Lemma checkPrev_agree s rf (args : AppendEntriesArgs Cmd) W (p : nat) :
  wf rf → SnapshotLastIncludedIndex rf = 0 → stems Term s (Logs rf) → stems Term s W → ae_PrevLogIndex args = Z.of_nat p →
  ((0 < p)%nat → Term <$> W !! pred p = Some (ae_PrevLogTerm args)) → ae_PrevLogIndex args <= lastIndex rf →
  (SnapshotLastIncludedIndex rf < ae_PrevLogIndex args → termAt rf (ae_PrevLogIndex args) = Some (ae_PrevLogTerm args)) →
  (p <= length (Logs rf))%nat ∧ take p (Logs rf) = take p W.
Proof.
  intros HW HS0 Hl HsW Hp HpW Hle Hterm. unfold lastIndex in Hle. rewrite HS0, Hp in *. unfold zlen in Hle. split; [lia|].
  destruct p as [|p]; [done|]. specialize (HpW ltac:(lia)). specialize (Hterm ltac:(lia)).
  rewrite termAt_entry in Hterm by (rewrite HS0; lia). cbn [pred] in HpW.
  replace (Z.of_nat (S p)) with (SnapshotLastIncludedIndex rf + 1 + Z.of_nat p) in Hterm by lia. rewrite entryAt_lookup in Hterm.
  apply fmap_Some in HpW as (e & He & HeT), Hterm as (e' & He' & HeT'). eapply stems_agree; try done. congruence.
Qed.

(** The peer after it has merged [L], a part of the leader's log [W]: the commit
    and new-entry indices stay within what it shares with [W]. *)
Lemma merged_ok n s i rf rf2 args L W r (k : nat) (b : bool) ch :
  0 < n → RInv Term n s → peer_ok n s i rf → CurrentTerm rf = ae_Term args → LeaderTerm rf = ae_Term args →
  wf rf → contiguous (ae_PrevLogIndex args) (ae_Entries args) → ae_PrevLogIndex args <= lastIndex rf →
  mergeEntries args rf = Some (rf2, ch) → accepted (Logs rf) L (Logs rf2) →
  reigns s !! ae_Term args = Some r → W = written r → ruler r ≠ i → L `prefix_of` W → 0 <= ae_PrevLogIndex args →
  zlen L = ae_PrevLogIndex args + zlen (ae_Entries args) →
  ae_LeaderCommit args = Z.of_nat k → safe Term n s (ae_Term args) (take k W) →
  let rf' := if b then persist (advanceCommit (ae_LeaderCommit args) rf2) else advanceCommit (ae_LeaderCommit args) rf2 in
  inv rf' → peer_ok n s i rf' ∧ plog rf' = (ae_Term args, Logs rf2).
Proof.
  intros Hn I P HT HLT HWf Hcon Hp HM Hac Hr -> Hru HL Hp0 HLlen Hk Hsk rf' Hinv.
  destruct (mergeEntries_spec args rf HWf Hcon Hp) as (rf3 & ch' & HM' & Mg & _ & V2 & _ & HN & EQ).
  rewrite HM in HM'. injection HM' as <- <-. injection EQ as E1 E2 E3 E4 E5 E6 E7 E8.
  destruct P as [_ (Hme & Hnp & Hmsg) [Hs1 Hs2] ? HB HS HNew HMt]. destruct (HNew ltac:(congruence)) as [HNb HNh].
  destruct (mg_snap _ _ _ _ Mg) as [G1 G2].
  pose proof (safe_in_reign _ _ _ _ _ _ Hn I HS ltac:(by rewrite HT)) as HcW.
  pose proof (heard_reign _ _ _ _ _ Hn I HNh ltac:(by rewrite HT)) as HnW.
  destruct (accepted_keeps (Logs rf) L (Logs rf2) (written r) (Z.to_nat (CommitIndex rf))) as [Hc1 Hc2]; try done; [unfold zlen in *; lia|].
  destruct (accepted_keeps (Logs rf) L (Logs rf2) (written r) (Z.to_nat (LastNewEntryIndex rf))) as [Hn1 Hn2]; try done; [unfold zlen in *; lia|].
  assert (take (length L) (Logs rf2) = L ∧ (length L <= length (Logs rf2))%nat) as [HL1 HL2].
  { pose proof (accepted_has _ _ _ Hac) as Hh. split; [by apply prefix_take_of|by apply prefix_length]. }
  assert (0 <= LastNewEntryIndex rf2 <= zlen (Logs rf2) ∧
    take (Z.to_nat (LastNewEntryIndex rf2)) (Logs rf2) `prefix_of` written r) as [HNb' HNW].
  { rewrite HN. destruct (_ =? 0); [split; [unfold zlen; lia|by rewrite Hn1]|]. rewrite max_Z, <-HLlen.
    destruct (Z.max_spec (LastNewEntryIndex rf) (zlen L)) as [[_ ->]|[_ ->]]; [|split; [unfold zlen; lia|by rewrite Hn1]].
    unfold zlen in *. rewrite Nat2Z.id, HL1. split; [lia|done]. }
  set (ci := if CommitIndex rf <? Z.of_nat k then Z.min (Z.of_nat k) (LastNewEntryIndex rf2) else CommitIndex rf).
  assert (0 <= ci <= zlen (Logs rf2) ∧ safe Term n s (ae_Term args) (take (Z.to_nat ci) (Logs rf2))) as [Hci Hsafe].
  { unfold ci. destruct (Z.ltb_spec (CommitIndex rf) (Z.of_nat k)); [|rewrite Hc1, <-HT; split; [unfold zlen; lia|done]].
    split; [lia|]. eapply safe_prefix; [exact Hsk|].
    apply (prefix_by_length _ _ (written r)); [|apply prefix_take|].
    - trans (take (Z.to_nat (LastNewEntryIndex rf2)) (Logs rf2)); [apply take_prefix_take; lia|done].
    - pose proof (prefix_length _ _ HNW) as Hlen. rewrite !length_take in *. unfold zlen in *. lia. }
  assert (safety_view rf' = (CurrentTerm rf2, log_view rf2, ci, (LeaderTerm rf2, LastNewEntryIndex rf2), MatchIndex rf2, (me rf2, npeers rf2, snapshotMsg rf2))) as HV.
  { unfold rf', advanceCommit, ci. rewrite Hk, E5, min_Z, <-E5. by destruct b, (CommitIndex rf2 <? Z.of_nat k). }
  injection HV as V1 V3 V4 V5 V6 V7 V8 V9 V10 V11 V12. injection V2 as U1 U2 U3 U4 U5 U6.
  split; [|unfold plog; congruence].
  split; rewrite ?V1, ?V3, ?V4, ?V5, ?V6, ?V7, ?V8, ?V9, ?V10, ?V11, ?V12, ?E1, ?E3, ?HT; try done; [split_and!; congruence..|lia| |].
  - intros _. split; [done|]. right. by exists r.
  - intros r' j m Hr' Hru'. assert (r' = r) as -> by congruence. done.
Qed.

Lemma set_node_twice i rf rf' c : set_node i rf' (set_node i rf c) = set_node i rf' c.
Proof. unfold set_node. cbn. by rewrite insert_insert_eq. Qed.

(** A peer that has adopted the leader's term and passed the check. *)
Lemma sim_merge n c s src i rf args rf2 ch (b : bool) :
  0 < n → RInv Term n s → Rel n c s → nodes c !! i = Some rf → CurrentTerm rf = ae_Term args → LeaderTerm rf = ae_Term args →
  rpc_rel n s src (CallAppendEntries i args) → ae_PrevLogIndex args <= lastIndex rf →
  (SnapshotLastIncludedIndex rf < ae_PrevLogIndex args → termAt rf (ae_PrevLogIndex args) = Some (ae_PrevLogTerm args)) →
  mergeEntries args rf = Some (rf2, ch) →
  let rf' := if b then persist (advanceCommit (ae_LeaderCommit args) rf2) else advanceCommit (ae_LeaderCommit args) rf2 in
  inv rf' → ∃ s' k, rstep Term n s s' ∧ Rel n (set_node i rf' c) s' ∧
    ae_PrevLogIndex args + zlen (ae_Entries args) = Z.of_nat k ∧ (i, ae_Term args, k) ∈ agreed s'.
Proof.
  intros Hn I R Hi HT HLT Hrpc Hle Hterm HM rf' Hinv.
  destruct Hrpc as (r & p & k & Hr & Hru & Hne & Hp & Hcon & Hpre & Hpl & Hpt & Hk & Hkl & HS).
  pose proof (rl_peer _ _ _ R _ _ Hi) as P. pose proof (po_wf _ _ _ _ P) as HW. pose proof (Rel_lookup _ _ _ _ _ R Hi) as Hlk.
  destruct (po_snap _ _ _ _ P) as [Hs1 Hs2]. pose proof (proj1 (proj2 (ri_log _ _ _ I _ _ _ Hlk))) as Hst.
  pose proof (re_stems _ _ _ _ (ri_reign _ _ _ I _ _ Hr)) as HstW.
  destruct (checkPrev_agree s rf args (written r) p) as [Hpl' Hag]; try done.
  pose proof (mergeEntries_accepted s rf args (written r) p rf2 ch HW Hs1 Hst HstW Hp Hcon Hpl Hpre Hpl' Hag HM) as Hac.
  set (L := take p (written r) ++ ae_Entries args) in *.
  assert (zlen L = ae_PrevLogIndex args + zlen (ae_Entries args)) as HLlen.
  { unfold L. rewrite zlen_app, zlen_take, Hp. unfold zlen. lia. }
  assert (rstep Term n s (mkRState (<[i := (ae_Term args, Logs rf2)]> (logs s)) (reigns s) (stood s) (given s) ((i, ae_Term args, length L) :: agreed s))) as HStep.
  { rewrite HT in Hlk. pose proof (prefix_length _ _ Hpre). destruct s. eapply (r_accept Term n _ _ _ _ _ i _ (Logs rf) r); [done..|congruence|done|].
    by rewrite (prefix_take_of _ _ Hpre). }
  pose proof (rstep_extends _ _ _ _ I HStep) as X.
  assert (peer_ok n s i rf' ∧ plog rf' = (ae_Term args, Logs rf2)) as [P' Hpl2].
  { apply (merged_ok n s i rf rf2 args L (written r) r k b ch); try done; [congruence|lia]. }
  eexists _, (length L). split_and!; [exact HStep| |by rewrite <-HLlen|by left].
  eapply Rel_set; [done..|by rewrite Hpl2|]. eapply peer_ok_extends; [done| |done]. eauto.
Qed.

Lemma sim_AppendEntries n c s src i rf env args rf' reply :
  0 < n → RInv Term n s → Rel n c s → nodes c !! i = Some rf → rpc_rel n s src (CallAppendEntries i args) →
  AppendEntries env args rf = Some (rf', reply) →
  sim n s (set_node i rf' (c <| acks := AckAppendEntries src i args reply :: acks c |>)).
Proof.
  intros Hn I R Hi Hrpc HA. pose proof (rl_peer _ _ _ R _ _ Hi) as P. pose proof (po_wf _ _ _ _ P) as HW.
  assert (contiguous (ae_PrevLogIndex args) (ae_Entries args)) as Hcon by (destruct Hrpc as (? & ? & ? & ? & ? & ? & ? & ? & _); done).
  pose proof (AppendEntries_inv env args rf rf' reply (po_inv _ _ _ _ P) Hcon HA) as Hinv.
  destruct (AppendEntries_cases env args rf HW Hcon) as (rf0 & reply0 & HA' & _ & Hrt & HC).
  rewrite HA in HA'. injection HA' as <- <-.
  assert (∀ cc, sim n s cc → aer_Success reply = false →
    sim n s (cc <| acks := AckAppendEntries src i args reply :: acks cc |>)) as Hfail.
  { intros cc (s1 & HR1 & I1 & R1) Hs. exists s1. split_and!; [done..|].
    apply (Rel_messages n cc s1 (net cc)); [done|apply R1|]. intros a [->|Ha]%elem_of_cons; [|by apply R1]. cbn. congruence. }
  destruct HC as [(Hs & _ & -> & _)|[(Hle & Hs & _ & (ch & Ha) & _)|(Hle & Hs & _ & _ & Hterm & _ & rf1 & ch1 & rf2 & ch2 & Ha & HM & Hrf')]].
  - apply (Hfail (set_node i rf c)); [|done]. apply sim_refl; [done|]. by eapply Rel_quiet.
  - apply (Hfail (set_node i rf' c)); [|done]. by eapply sim_acceptLeader.
  - pose proof (sim_acceptLeader _ _ _ _ _ _ _ _ _ I R Hi Hle Ha) as (s1 & HR1 & I1 & R1).
    pose proof (acceptLeader_new _ _ _ _ _ Hle Ha) as (T1 & T2 & _). pose proof (acceptLeader_frame _ _ _ _ _ Ha) as (V1 & _).
    apply log_view_eq in V1 as (_ & ES & _ & _ & ETm & EL).
    assert (ae_PrevLogIndex args <= lastIndex rf) as Hlast.
    { destruct (po_snap _ _ _ _ P) as [H0 _]. destruct (Z.lt_ge_cases 0 (ae_PrevLogIndex args)) as [Hgt|].
      - specialize (Hterm ltac:(lia)). rewrite termAt_entry in Hterm by lia.
        apply fmap_Some in Hterm as (e & He%entryAt_range & _). lia.
      - unfold lastIndex. pose proof (zlen_nonneg (Logs rf)). lia. }
    destruct (sim_merge n (set_node i rf1 c) s1 src i rf1 args rf2 ch2 (ch1 || ch2)) as (s2 & k & HS2 & R2 & Hk & Hin); try done.
    + apply lookup_insert_eq.
    + by apply (rpc_rel_rtc n s s1).
    + by rewrite EL.
    + by rewrite ES, ETm.
    + by rewrite <-Hrf'.
    + rewrite <-Hrf', set_node_twice in R2. exists s2. split_and!; [by eapply rtc_r|by eapply RInv_step|].
      apply (Rel_messages n (set_node i rf' c) s2 (net c) (_ :: acks c)); [done|apply R2|].
      intros a [->|Ha']%elem_of_cons; [|by apply R2]. intros _ _. eauto.
Qed.

(** ** InstallSnapshot and the replies *)

Lemma sim_InstallSnapshot n c s src i rf env args rf' reply :
  RInv Term n s → Rel n c s → nodes c !! i = Some rf → is_LastIncludedIndex args = 0 →
  InstallSnapshot env args rf = Some (rf', reply) →
  sim n s (set_node i rf' (c <| acks := AckInstallSnapshot src i args reply :: acks c |>)).
Proof.
  intros I R Hi H0 HI. pose proof (rl_peer _ _ _ R _ _ Hi) as P.
  assert (∀ cc, sim n s cc → sim n s (cc <| acks := AckInstallSnapshot src i args reply :: acks cc |>)) as Hack.
  { intros cc (s1 & HR1 & I1 & R1). exists s1. split_and!; [done..|].
    apply (Rel_messages n cc s1 (net cc)); [done|apply R1|]. by intros a [->|Ha]%elem_of_cons; [|apply R1]. }
  apply (Hack (set_node i rf' c)). unfold InstallSnapshot in HI.
  destruct (Z.ltb_spec (is_Term args) (CurrentTerm rf)) as [|Hle].
  { injection HI as <- _. apply sim_refl; [done|]. by eapply Rel_quiet. }
  destruct (acceptLeader env (is_Term args) rf) as [rf1 ch] eqn:Ha.
  pose proof (acceptLeader_frame _ _ _ _ _ Ha) as (V1 & _). apply log_view_eq in V1 as (_ & ES & _).
  rewrite H0, ES, (proj1 (po_snap _ _ _ _ P)) in HI. cbn [Z.leb Z.compare orb] in HI. injection HI as <- _.
  eapply sim_trans; [by eapply sim_acceptLeader|]. intros s1 I1 R1. apply sim_refl; [done|].
  rewrite <-(set_node_twice i rf1). assert (nodes (set_node i rf1 c) !! i = Some rf1) as Hi1 by apply lookup_insert_eq.
  eapply Rel_quiet; [done..|]. pose proof (rl_peer _ _ _ R1 _ _ Hi1) as P1. eapply peer_ok_view; [done..|].
  apply (inv_frame rf1); [apply P1|by apply (wf_views rf1), P1|right; apply persist_persisted].
Qed.

Lemma Rel_match n c s i rf rf' server m v mi :
  Rel n c s → nodes c !! i = Some rf → inv rf' →
  index (MatchIndex rf) server = Some m → store (MatchIndex rf) server (max m v) = Some mi →
  (v <= 0 ∨ ∃ k, v <= Z.of_nat k ∧ (server, CurrentTerm rf, k) ∈ agreed s) →
  safety_view rf' = (CurrentTerm rf, log_view rf, CommitIndex rf, (LeaderTerm rf, LastNewEntryIndex rf), mi, (me rf, npeers rf, snapshotMsg rf)) →
  Rel n (set_node i rf' c) s.
Proof.
  intros R Hi Hinv Hm Hmi Hv HV. pose proof (rl_peer _ _ _ R _ _ Hi) as P.
  injection HV as V1 V2 V3 V4 V5 V6 V7 V8 V9 V10 V11. eapply Rel_quiet; [done..|unfold plog; congruence|].
  destruct P as [W ? ? ? ? ? ? HM].
  split; rewrite ?V1, ?V2, ?V3, ?V4, ?V5, ?V6, ?V7, ?V8, ?V9, ?V10, ?V11; try done.
  intros r j m' Hr Hru Hj. apply store_Some in Hmi as [Hb ->]. destruct (decide (j = server)) as [->|Hne].
  - rewrite index_insert_eq, max_Z in Hj by done. injection Hj as <-.
    destruct (HM r server m Hr Hru Hm) as [?|(k & ? & ?)], Hv as [?|(k' & ? & ?)]; [left; lia| | |].
    + destruct (Z.le_gt_cases v 0); [left; lia|]. right. exists k'. split; [lia|done].
    + right. exists k. split; [lia|done].
    + right. destruct (Z.max_spec m v) as [[_ ->]|[_ ->]]; eauto.
  - apply (HM r j m' Hr Hru). pose proof (index_lt _ _ _ Hj). by rewrite index_insert_ne in Hj by lia.
Qed.

Lemma sim_sendAppendEntries n c s i server args ok reply rf rf' b :
  RInv Term n s → Rel n c s → nodes c !! i = Some rf → ack_rel s (AckAppendEntries i server args reply) →
  sendAppendEntries server args ok reply rf = Some (rf', b) → sim n s (set_node i rf' c).
Proof.
  intros I R Hi Hack HS. pose proof (rl_peer _ _ _ R _ _ Hi) as P.
  pose proof (sendAppendEntries_inv _ _ _ _ _ _ _ (po_inv _ _ _ _ P) HS) as Hinv. unfold sendAppendEntries in HS.
  assert (safety_view rf' = safety_view rf → sim n s (set_node i rf' c)) as Hquiet.
  { intros HV. apply sim_refl; [done|]. pose proof (peer_ok_view _ _ _ _ _ P HV Hinv).
    injection HV as ? ? ? ? ? ? ? ? ? ?. eapply Rel_quiet; [done..|unfold plog; congruence|done]. }
  destruct (Z.ltb_spec (CurrentTerm rf) (aer_Term reply)) as [Hlt|Hge].
  { injection HS as <- _. by apply (sim_stepDown n c s i rf). }
  destruct (Z.ltb_spec (aer_Term reply) (CurrentTerm rf)) as [|Hge']; [injection HS as <- _; by apply Hquiet|].
  destruct (Z.eqb_spec (CurrentTerm rf) (ae_Term args)) as [HT|]; [|injection HS as <- _; by apply Hquiet].
  destruct (aer_Success reply) eqn:Hsu.
  - inv_bind HS. rename x into m. inv_bind HS. rename x into mi. inv_bind HS. inv_bind HS. injection HS as <- _.
    apply sim_refl; [done|]. eapply (Rel_match n c s i rf); try done. right.
    destruct (Hack Hsu) as (k & Hk & Hin); [lia|]. exists k. rewrite HT. split; [lia|done].
  - destruct (aer_Conflict reply); [|injection HS as <- _; by apply Hquiet]. inv_bind HS.
    destruct (_ =? _); [|injection HS as <- _; by apply Hquiet]. inv_bind HS. inv_bind HS. injection HS as <- _. by apply Hquiet.
Qed.

Lemma sim_sendInstallSnapshot n c s i server args ok reply rf rf' b :
  RInv Term n s → Rel n c s → nodes c !! i = Some rf → is_LastIncludedIndex args = 0 →
  sendInstallSnapshot server args ok reply rf = Some (rf', b) → sim n s (set_node i rf' c).
Proof.
  intros I R Hi H0 HS. pose proof (rl_peer _ _ _ R _ _ Hi) as P.
  pose proof (sendInstallSnapshot_inv _ _ _ _ _ _ _ (po_inv _ _ _ _ P) HS) as Hinv. unfold sendInstallSnapshot in HS.
  destruct (Z.ltb_spec (CurrentTerm rf) (isr_Term reply)) as [Hlt|Hge].
  { injection HS as <- _. by apply (sim_stepDown n c s i rf). }
  destruct (_ <? _); [injection HS as <- _; apply sim_refl; [done|by eapply Rel_quiet]|].
  destruct (_ && _); [|injection HS as <- _; apply sim_refl; [done|by eapply Rel_quiet]].
  inv_bind HS. rename x into m. inv_bind HS. rename x into mi. inv_bind HS. inv_bind HS. injection HS as <- _.
  apply sim_refl; [done|]. eapply (Rel_match n c s i rf); try done. left. lia.
Qed.

(** ** Votes *)

Lemma lastTerm_termAt rf :
  wf rf → SnapshotLastIncludedIndex rf = 0 → SnapshotLastIncludedTerm rf = 0 →
  termAt rf (lastIndex rf) = Some (lastTerm Term (Logs rf)).
Proof.
  intros W H0 H1. unfold lastTerm, lastIndex. rewrite H0, Z.add_0_l. destruct (last (Logs rf)) as [e|] eqn:He.
  - rewrite last_lookup in He. pose proof (lookup_lt_Some _ _ _ He). rewrite termAt_entry by (unfold zlen; lia).
    replace (zlen (Logs rf)) with (SnapshotLastIncludedIndex rf + 1 + Z.of_nat (pred (length (Logs rf)))) by (unfold zlen; lia).
    rewrite entryAt_lookup, He. done.
  - apply last_None in He. rewrite He. unfold termAt. change (zlen []) with 0. by rewrite H0, H1.
Qed.

Lemma sim_seenTerm n c s i rf t :
  RInv Term n s → Rel n c s → nodes c !! i = Some rf → sim n s (set_node i (seenTerm t rf) c).
Proof.
  intros I R Hi. unfold seenTerm. destruct (Z.ltb_spec (CurrentTerm rf) t); [by apply (sim_stepDown n c s i rf)|].
  apply sim_refl; [done|]. eapply Rel_quiet; [done..|]. by apply (rl_peer _ _ _ R).
Qed.

(** The candidate's log behind a request for votes. *)
Definition candidate_log s (args : RequestVoteArgs) l : Prop :=
  (rv_CandidateId args, rv_Term args, l) ∈ stood s ∧
  rv_LastLogIndex args = zlen l ∧ rv_LastLogTerm args = lastTerm Term l.

Lemma candidate_log_rtc n s s' args l :
  RInv Term n s → rtc (rstep Term n) s s' → candidate_log s args l → candidate_log s' args l.
Proof.
  intros I HR. induction HR as [|s1 s2 s3 HS _ IH]; [done|]. intros (H1 & H2 & H3). apply IH; [by eapply RInv_step|].
  split_and!; [|done..]. by apply (ex_stood _ _ (rstep_extends _ _ _ _ I HS)).
Qed.

Lemma sim_RequestVote n c s i rf env args l rf' reply :
  RInv Term n s → Rel n c s → nodes c !! i = Some rf → candidate_log s args l →
  RequestVote env args rf = Some (rf', reply) →
  sim n s (if rvr_VoteGranted reply
           then (set_node i rf' c) <| cast := (i, CurrentTerm rf', rv_CandidateId args) :: cast c |>
           else set_node i rf' c).
Proof.
  intros I R Hi Hcand HV. pose proof (rl_peer _ _ _ R _ _ Hi) as P. pose proof (po_wf _ _ _ _ P) as W.
  destruct (RequestVote_cases env args rf W) as [[Hmay HV']|[_ HV']]; rewrite HV in HV'; injection HV' as -> ->; cbn [rvr_VoteGranted].
  2:{ destruct (_ <? _); [apply sim_refl; [done|by eapply Rel_quiet]|]. by apply sim_seenTerm. }
  destruct Hmay as (Hle & _ & t & Ht & Hup). destruct (po_snap _ _ _ _ P) as [Hs1 Hs2].
  rewrite (lastTerm_termAt rf W Hs1 Hs2) in Ht. injection Ht as <-. unfold lastIndex in Hup. rewrite Hs1, Z.add_0_l in Hup.
  destruct (seenTerm_frame (rv_Term args) rf) as (V1 & _ & _ & _ & HT & _). specialize (HT Hle).
  apply log_view_eq in V1 as (EL & _).
  pose proof (sim_seenTerm n c s i rf (rv_Term args) I R Hi) as (s1 & HR1 & I1 & R1).
  pose proof (candidate_log_rtc _ _ _ _ _ I HR1 Hcand) as (Hst & HLi & HLt).
  assert (nodes (set_node i (seenTerm (rv_Term args) rf) c) !! i = Some (seenTerm (rv_Term args) rf)) as Hi1 by apply lookup_insert_eq.
  pose proof (Rel_lookup _ _ _ _ _ R1 Hi1) as Hlk. rewrite HT, EL in Hlk.
  assert (upToDate Term l (Logs rf)) as HU.
  { unfold upToDate. rewrite HLi, HLt in Hup. unfold zlen in Hup. destruct Hup as [|[? ?]]; [left; done|right; split; [done|lia]]. }
  assert (rstep Term n s1 (mkRState (logs s1) (reigns s1) (stood s1) ((i, rv_Term args, rv_CandidateId args, Logs rf) :: given s1) (agreed s1))) as HS.
  { destruct s1. by eapply r_vote. }
  pose proof (rstep_extends _ _ _ _ I1 HS) as X. pose proof (rl_peer _ _ _ R1 _ _ Hi1) as P1.
  eexists. split_and!; [by eapply rtc_r|by eapply RInv_step|].
  assert (Rel n (set_node i (voted env args rf) c) (mkRState (logs s1) (reigns s1) (stood s1) ((i, rv_Term args, rv_CandidateId args, Logs rf) :: given s1) (agreed s1))) as R2.
  { rewrite <-(set_node_twice i (seenTerm (rv_Term args) rf)). eapply Rel_set; [done..| |].
    - cbn. rewrite insert_id; [done|]. rewrite Hlk. unfold plog. cbn. by rewrite HT, EL.
    - eapply peer_ok_extends; [done|eauto|]. eapply peer_ok_view; [done..|].
      apply (inv_frame (seenTerm (rv_Term args) rf)); [apply P1|by apply (wf_views (seenTerm (rv_Term args) rf)), P1|right; apply persist_persisted]. }
  split; try apply R2. intros j t d [[= -> -> ->]|Hd]%elem_of_cons; [|by apply R2].
  exists (Logs rf). cbn. rewrite HT. by left.
Qed.

(** ** What a leader sends *)

Lemma leader_log n c s i rf r :
  RInv Term n s → Rel n c s → nodes c !! i = Some rf → reigns s !! CurrentTerm rf = Some r → ruler r = i → written r = Logs rf.
Proof.
  intros I R Hi Hr Hru. destruct (re_ruler _ _ _ _ (ri_reign _ _ _ I _ _ Hr)) as (ct & lr & Hlr & _ & Heq).
  rewrite Hru, (Rel_lookup _ _ _ _ _ R Hi) in Hlr. injection Hlr as <- <-. symmetry. auto.
Qed.

Lemma leader_rpc n s i rf r server (p : nat) pt es :
  peer_ok n s i rf → reigns s !! CurrentTerm rf = Some r → ruler r = i → written r = Logs rf → server ≠ i →
  (p <= length (Logs rf))%nat → take p (Logs rf) ++ es `prefix_of` Logs rf → contiguous (Z.of_nat p) es →
  ((0 < p)%nat → Term <$> Logs rf !! pred p = Some pt) →
  rpc_rel n s i (CallAppendEntries server (mkAEArgs (CurrentTerm rf) (me rf) (Z.of_nat p) pt es (CommitIndex rf))).
Proof.
  intros P Hr Hru Hw Hs Hp Hes Hcon Hpt. exists r, p, (Z.to_nat (CommitIndex rf)). cbn. rewrite Hw.
  destruct P as [_ _ _ _ HB HS _ _]. unfold zlen in HB. split_and!; try done; lia.
Qed.

(** The entry before a peer's next index, with [es] after it. *)
Lemma leader_prev n s i rf r server (ni : Z) e es :
  peer_ok n s i rf → reigns s !! CurrentTerm rf = Some r → ruler r = i → written r = Logs rf → server ≠ i →
  index (Logs rf) (ni - 2) = Some e → take (Z.to_nat (ni - 1)) (Logs rf) ++ es `prefix_of` Logs rf →
  contiguous (ni - 1) es →
  rpc_rel n s i (CallAppendEntries server (mkAEArgs (CurrentTerm rf) (me rf) (Index e) (Term e) es (CommitIndex rf))).
Proof.
  intros P Hr Hru Hw Hs He Hes Hcon. pose proof (index_lt _ _ _ He) as Hb.
  pose proof (wf_log _ (po_wf _ _ _ _ P) _ _ He) as HI. rewrite (proj1 (po_snap _ _ _ _ P)) in HI.
  replace (Index e) with (Z.of_nat (Z.to_nat (ni - 1))) by lia. eapply leader_rpc; try done.
  - unfold zlen in Hb. lia.
  - by rewrite Z2Nat.id by lia.
  - intros _. rewrite index_lookup in He by lia. replace (pred _) with (Z.to_nat (ni - 2)) by lia. by rewrite He.
Qed.

Lemma heartBeat_rel n s i rf r server args :
  peer_ok n s i rf → reigns s !! CurrentTerm rf = Some r → ruler r = i → written r = Logs rf → server ≠ i →
  heartBeatArgs server rf = Some args → rpc_rel n s i (CallAppendEntries server args).
Proof.
  intros P Hr Hru Hw Hs HB. unfold heartBeatArgs in HB. inv_bind HB. inv_bind HB. destruct x0 as [pi pt].
  destruct (po_snap _ _ _ _ P) as [Hs1 Hs2]. rewrite Hs1, Hs2 in E0. injection HB as <-.
  destruct (negb _ && _).
  - rewrite Z.sub_0_r in E0. inv_bind E0. injection E0 as <- <-. eapply leader_prev; try done.
    + rewrite app_nil_r. apply prefix_take.
    + apply contiguous_nil.
  - injection E0 as <- <-. apply (leader_rpc n s i rf r server 0); try done; [lia|apply prefix_nil|apply contiguous_nil|lia].
Qed.

Lemma sendHeartBeat_rel n s i rf r calls :
  peer_ok n s i rf → reigns s !! CurrentTerm rf = Some r → ruler r = i → written r = Logs rf →
  sendHeartBeat rf = Some calls → ∀ m, m ∈ calls → rpc_rel n s i m.
Proof.
  intros P Hr Hru Hw HS m [k Hm]%list_elem_of_lookup. unfold sendHeartBeat in HS. apply mapM_Some_1 in HS.
  destruct (Forall2_lookup_r _ _ _ _ _ HS Hm) as (j & Hj%list_elem_of_lookup_2 & Hc).
  apply list_elem_of_filter in Hj as [Hj _]. rewrite (proj1 (po_me _ _ _ _ P)) in Hj. inv_bind Hc. injection Hc as <-.
  by eapply heartBeat_rel.
Qed.

Lemma replicateLog_rel n s i rf r server calls :
  peer_ok n s i rf → reigns s !! CurrentTerm rf = Some r → ruler r = i → written r = Logs rf → server ≠ i →
  replicateLog server (CurrentTerm rf) rf = Some (Some calls) → ∀ m, m ∈ calls → rpc_rel n s i m.
Proof.
  intros P Hr Hru Hw Hs HR m Hm. unfold replicateLog in HR. rewrite Z.eqb_refl in HR. cbn [negb] in HR.
  destruct (po_snap _ _ _ _ P) as [Hs1 Hs2]. rewrite Hs1, Hs2 in HR. inv_bind HR. inv_bind HR. rename x into ni.
  destruct (_ =? _); [injection HR as <-; by apply elem_of_nil in Hm|].
  destruct (Z.leb_spec ni 0); [injection HR as <-; by apply list_elem_of_singleton in Hm as ->|].
  rewrite Z.sub_0_r in HR. inv_bind HR. rename x into es. inv_bind HR. destruct x as [pi pt].
  pose proof E1 as Hsl. apply slice_Some in Hsl as (Hb & _). rewrite slice_from_drop in E1 by lia. injection E1 as <-.
  injection HR as <-. apply list_elem_of_singleton in Hm as ->.
  assert (contiguous (ni - 1) (drop (Z.to_nat (ni - 1)) (Logs rf))) as Hcon.
  { replace (ni - 1) with (0 + Z.of_nat (Z.to_nat (ni - 1))) at 1 by lia. apply contiguous_drop; [lia|].
    rewrite <-Hs1. apply (po_wf _ _ _ _ P). }
  destruct (Z.eqb_spec ni (0 + 1)) as [->|Hni]; cbn [negb] in E2.
  - injection E2 as <- <-. apply (leader_rpc n s i rf r server 0); try done; [lia|lia].
  - inv_bind E2. injection E2 as <- <-. eapply leader_prev; try done. by rewrite take_drop.
Qed.

(** ** Elections *)

Lemma rl_done n c s k el : Rel n c s → elections c !! k = Some el → (cand el, eterm el) ∈ loops c → done el = true.
Proof. intros R Hel Hin. destruct (rl_elections _ _ _ R _ _ Hel) as (l & _ & _ & _ & H). auto. Qed.

Lemma prepareElection_view env rf rf' args :
  prepareElection env rf = Some (rf', args) →
  safety_view rf' = (CurrentTerm rf + 1, log_view rf, CommitIndex rf, (LeaderTerm rf, LastNewEntryIndex rf), MatchIndex rf, (me rf, npeers rf, snapshotMsg rf)).
Proof. unfold prepareElection. intros HP. inv_bind HP. destruct x. by injection HP as <- _. Qed.

Lemma sim_stand n c s i rf env rf' el calls :
  RInv Term n s → Rel n c s → nodes c !! i = Some rf → prepareElection env rf = Some (rf', el_args el) →
  sim n s (start_election el calls (set_node i rf' c)).
Proof.
  intros I R Hi HP. pose proof (rl_peer _ _ _ R _ _ Hi) as P. pose proof (po_wf _ _ _ _ P) as W. destruct (po_snap _ _ _ _ P) as [Hs1 Hs2].
  pose proof (Rel_lookup _ _ _ _ _ R Hi) as Hlk.
  destruct (prepareElection_inv env rf (po_inv _ _ _ _ P)) as (rf0 & args & HP' & Hinv & _ & Hargs & Hterm).
  rewrite HP in HP'. injection HP' as <- <-. rewrite (lastTerm_termAt rf W Hs1 Hs2) in Hterm. injection Hterm as Hterm.
  pose proof (prepareElection_view _ _ _ _ HP) as HV. clear HP. injection HV as V1 V2 V3 V4 V5 V6 V7 V8 V9 V10 V11.
  assert (cand el = i ∧ eterm el = CurrentTerm rf + 1 ∧ rv_LastLogIndex (el_args el) = zlen (Logs rf)) as (Hc & Ht & HLi).
  { unfold cand, eterm. rewrite Hargs. cbn. unfold lastIndex. rewrite Hs1. split_and!; [apply P|done|lia]. }
  set (s' := mkRState (<[i := (CurrentTerm rf + 1, Logs rf)]> (logs s)) (reigns s) ((i, CurrentTerm rf + 1, Logs rf) :: stood s)
    ((i, CurrentTerm rf + 1, i, Logs rf) :: given s) (agreed s)).
  assert (rstep Term n s s') as HS by (destruct s; by eapply r_stand). pose proof (rstep_extends _ _ _ _ I HS) as X.
  assert (∀ r, reigns s !! (CurrentTerm rf + 1) = Some r → ruler r ≠ i) as Hnew.
  { intros r Hr Hru. pose proof (ruler_reached _ _ _ _ _ _ _ I R Hi Hr Hru). lia. }
  assert (Rel n (set_node i rf' c) s') as R'.
  { eapply Rel_set; [done..|by unfold plog; rewrite V1, V2|]. destruct P as [_ ? ? HLT ? HSafe HNw _].
    split; rewrite ?V1, ?V2, ?V3, ?V4, ?V5, ?V6, ?V7, ?V8, ?V9, ?V10, ?V11; try done.
    - lia.
    - eapply safe_extends; [done..|lia].
    - lia.
    - intros r j m Hr Hru. by destruct (Hnew r Hr). }
  assert (∀ k e, elections c !! k = Some e → cand e = i → eterm e = CurrentTerm rf + 1 → False) as Hfresh.
  { intros k e He Hce Hte. destruct (rl_elections _ _ _ R _ _ He) as (l & Hst & _). rewrite Hce, Hte in Hst.
    destruct (ri_stood _ _ _ I _ _ _ Hst) as (ct & li & Hli & Hle & _). rewrite Hlk in Hli. injection Hli as <- <-. lia. }
  eapply sim_step; [done..|]. split; try apply R'; cbn.
  - intros k e [He|[_ He]]%lookup_app_Some; [by apply (rl_elections _ _ _ R' k)|].
    apply list_lookup_singleton_Some in He as [_ <-]. exists (Logs rf). rewrite Hc, Ht. split_and!; [by left|done..|].
    intros (r & Hr & Hru)%(rl_loops _ _ _ R). by destruct (Hnew r Hr).
  - intros k k' e e' He He' Hce Hte. apply lookup_app_Some in He as [He|[Hk He]], He' as [He'|[Hk' He']].
    + by apply (rl_unique _ _ _ R _ _ e e').
    + apply list_lookup_singleton_Some in He' as [_ <-]. exfalso. eapply (Hfresh k e); [done|congruence..].
    + apply list_lookup_singleton_Some in He as [_ <-]. exfalso. eapply (Hfresh k' e'); [done|congruence..].
    + apply list_lookup_singleton_Some in He as [? _], He' as [? _]. lia.
  - fold (cand el) (eterm el). rewrite Hc, Ht. intros j t d [[= -> -> ->]|Hd]%elem_of_cons; [|by apply R'].
    exists (Logs rf). by left.
Qed.

Lemma becomeLeader_view rf rf' calls :
  inv rf → becomeLeader (rf <| State := Leader |>) = Some (rf', calls) →
  inv rf' ∧ sendHeartBeat rf' = Some calls ∧ log_view rf' = log_view rf ∧
  (∀ j m, index (MatchIndex rf') j = Some m → m = if j =? me rf then lastIndex rf else 0) ∧
  (CurrentTerm rf', CommitIndex rf', LeaderTerm rf', LastNewEntryIndex rf', me rf', npeers rf', snapshotMsg rf') =
  (CurrentTerm rf, CommitIndex rf, LeaderTerm rf, LastNewEntryIndex rf, me rf, npeers rf, snapshotMsg rf).
Proof.
  intros Hinv HB. destruct (becomeLeader_inv (rf <| State := Leader |>)) as (rf0 & calls0 & HB' & Hinv' & HV & _ & _ & HMi).
  { apply (inv_frame rf); [done|by apply (wf_views rf), Hinv|by left]. }
  rewrite HB in HB'. injection HB' as <- <-. do 2 (split; [done||idtac|]); [|split_and!; [done..|]];
    unfold becomeLeader in HB; inv_bind HB; destruct x; inv_bind HB; inv_bind HB; by injection HB as <- <-.
Qed.

Section elect.
Context (n : Z) (c c' : Cluster Cmd) (s : RState (RaftLogEntry Cmd)) (i : Z) (rf rf' : Raft Cmd).
Context (k : nat) (el el' : Election) (calls : list (Rpc Cmd)).
Let t := CurrentTerm rf.
Let l := Logs rf.
Let s' := mkRState (logs s) (<[t := mkReign i l l]> (reigns s)) (stood s) (given s) ((i, t, length l) :: agreed s).
Hypothesis I : RInv Term n s.
Hypothesis R : Rel n c s.
Hypothesis V : VInv n (abs c').
Hypothesis Hi : nodes c !! i = Some rf.
Hypothesis Hel : elections c !! k = Some el.
Hypothesis Hc : cand el = i.
Hypothesis Hargs : el_args el' = el_args el.
Hypothesis Hd : done el = false.
Hypothesis Hd' : done el' = true.
Hypothesis HT : t = eterm el.
Hypothesis HB : becomeLeader (rf <| State := Leader |>) = Some (rf', calls).
Hypothesis Cn : nodes c' = <[i := rf']> (nodes c).
Hypothesis Cl : loops c' = (i, t) :: loops c.
Hypothesis Cm : net c' = net c ++ ((i,.) <$> calls).
Hypothesis Ca : acks c' = acks c.
Hypothesis Ce : elections c' = <[k := el']> (elections c).
Hypothesis Cc : cast c' = cast c.

(** Nobody has won the term before: it would be the same candidate, whose
    election is not done. *)
Lemma elect_new : reigns s !! t = None.
Proof.
  destruct (reigns s !! t) as [r|] eqn:Hr; [exfalso|done].
  assert ((ruler r, t) ∈ loops c) as Hin by (apply (rl_loops _ _ _ R); eauto).
  assert (ruler r = i) as Hri.
  { apply (VInv_leader_unique n (abs c') (ruler r) i t V); cbn; rewrite Cl; [by right|by left]. }
  rewrite Hri, HT, <-Hc in Hin. pose proof (rl_done _ _ _ _ _ R Hel Hin). congruence.
Qed.

Lemma elect_step : rstep Term n s s'.
Proof.
  destruct (vi_locked _ _ V i t) as (Q & HQ1 & HQ2 & HQ); [cbn; rewrite Cl; by left|]. cbn in HQ. rewrite Cc in HQ.
  assert (∀ j, j ∈ Q → ∃ lj, (j, t, i, lj) ∈ given s) as Hg by (intros j [Hj _]%HQ; by apply (rl_cast _ _ _ R)).
  assert (majority n Q) as HMj.
  { split_and!; [done..|]. intros j [Hj _]%HQ. apply (vi_ballot _ _ V j t i). cbn. by rewrite Cc. }
  pose proof elect_new as Hno. pose proof (Rel_lookup _ _ _ _ _ R Hi) as Hlk. unfold s'. destruct s. by eapply r_elect.
Qed.

Lemma elect_extends : extends s s'.
Proof. eapply rstep_extends; [apply I|apply elect_step]. Qed.

Lemma elect_reign : reigns s' !! t = Some (mkReign i l l).
Proof. apply lookup_insert_eq. Qed.

Lemma elect_peer : peer_ok n s' i rf' ∧ plog rf' = (t, l) ∧ ∀ m, m ∈ calls → rpc_rel n s' i m.
Proof.
  pose proof (rl_peer _ _ _ R _ _ Hi) as P. pose proof elect_extends as X.
  destruct (becomeLeader_view _ _ _ (po_inv _ _ _ _ P) HB) as (Hinv & HHB & HV & HMi & HE).
  injection HE as E1 E2 E3 E4 E5 E6 E10. injection HV as E7 E8 E9.
  assert (peer_ok n s' i rf') as P'.
  { destruct P as [_ (Hme & ? & ?) [Hs1 ?] ? ? HSf HNw _]. fold t l in HSf, HNw.
    split; rewrite ?E1, ?E2, ?E3, ?E4, ?E5, ?E6, ?E7, ?E8, ?E9, ?E10; try done; fold t l.
    - by eapply safe_extends.
    - intros HL. destruct (HNw HL) as [? ?]. split; [done|]. by eapply heard_extends.
    - intros r j m Hr _ ->%HMi. rewrite Hme. destruct (Z.eqb_spec j i) as [->|]; [right|by left].
      exists (length l). unfold lastIndex, zlen. rewrite Hs1. fold l. split; [lia|by left]. }
  split_and!; [done|unfold plog; by rewrite E1, E7|]. apply (sendHeartBeat_rel n s' i rf' (mkReign i l l)); [done| |done| |done].
  - rewrite E1. apply elect_reign.
  - by rewrite E7.
Qed.

Lemma Rel_elect : Rel n c' s'.
Proof.
  destruct elect_peer as (P' & Hp & Hcalls). pose proof elect_extends as X. pose proof elect_new as Hno.
  pose proof (lookup_lt_Some _ _ _ Hel) as Hk.
  assert (cand el' = i ∧ eterm el' = t) as [Hc' Ht'] by (unfold cand, eterm in *; by rewrite Hargs).
  split; rewrite ?Cn, ?Cl, ?Cm, ?Ca, ?Ce, ?Cc.
  - cbn. rewrite fmap_insert, Hp, (rl_logs _ _ _ R), insert_id; [done|]. by rewrite lookup_fmap, Hi.
  - intros j rfj [[<- <-]|[Hne Hj]]%lookup_insert_Some; [done|].
    eapply peer_ok_extends; [done| |by apply (rl_peer _ _ _ R)]. cbn. intros r' [[_ <-]|[_ Hr']]%lookup_insert_Some Hru; [done|eauto].
  - intros j u. rewrite elem_of_cons, (rl_loops _ _ _ R). cbn. split.
    + intros [[= -> ->]|(r & Hr & Hru)]; [rewrite lookup_insert_eq; eauto|].
      exists r. rewrite lookup_insert_ne; [done|]. congruence.
    + intros (r & [[<- <-]|[_ Hr]]%lookup_insert_Some & <-); [by left|right; eauto].
  - intros m [Hm|(q & -> & Hq)%list_elem_of_fmap]%elem_of_app; [|by apply Hcalls].
    eapply rpc_rel_extends; [done|]. by apply (rl_net _ _ _ R).
  - intros a Ha. eapply ack_rel_extends; [done|]. by apply (rl_acks _ _ _ R).
  - intros k' e He. apply list_lookup_insert_Some in He as [(-> & <- & _)|[Hne He]].
    + destruct (rl_elections _ _ _ R _ _ Hel) as (lc & Hst & HLi & HLt & _). exists lc.
      rewrite Hargs, Hc', Ht', <-Hc, HT. split_and!; [by apply X|done..].
    + destruct (rl_elections _ _ _ R _ _ He) as (lc & Hst & HLi & HLt & Hdn). exists lc.
      split_and!; [by apply X|done..|]. intros [Heq|]%elem_of_cons; [|by auto].
      injection Heq as Hce Hte. destruct Hne. eapply (rl_unique _ _ _ R _ _ el e); [done..|congruence|congruence].
  - intros k1 k2 e1 e2 He1 He2 Hce Hte.
    assert (∀ k' e, <[k := el']> (elections c) !! k' = Some e → ∃ e0, elections c !! k' = Some e0 ∧ cand e0 = cand e ∧ eterm e0 = eterm e) as Hback.
    { intros k' e He. apply list_lookup_insert_Some in He as [(-> & <- & _)|[_ He]]; [|eauto].
      exists el. split_and!; [done|congruence|congruence]. }
    destruct (Hback _ _ He1) as (d1 & ? & ? & ?), (Hback _ _ He2) as (d2 & ? & ? & ?).
    eapply (rl_unique _ _ _ R _ _ d1 d2); [done..|congruence|congruence].
  - intros j u d Hj. by apply (rl_cast _ _ _ R).
Qed.

Lemma sim_elect : sim n s c'.
Proof. eapply sim_step; [done|apply elect_step|apply Rel_elect]. Qed.

End elect.

(** ** Local operations *)

Lemma Start_view cmd rf rf' res :
  inv rf → State rf = Leader → Start cmd rf = Some (rf', res) →
  inv rf' ∧ let e := mkEntry cmd (CurrentTerm rf) (lastIndex rf + 1) in
  ∃ mi, store (MatchIndex rf) (me rf) (lastIndex rf + 1) = Some mi ∧
    safety_view rf' = (CurrentTerm rf, (Logs rf ++ [e], SnapshotLastIncludedIndex rf, SnapshotLastIncludedTerm rf),
      CommitIndex rf, (LeaderTerm rf, LastNewEntryIndex rf), mi, (me rf, npeers rf, snapshotMsg rf)).
Proof.
  intros Hinv HL HS. destruct (Start_inv cmd rf Hinv) as (rf0 & r0 & HS' & Hinv' & Hlead & _).
  rewrite HS in HS'. injection HS' as <- <-. destruct (Hlead HL) as (Hres & Hlogs & _). split; [done|].
  unfold Start in HS. rewrite bool_decide_true in HS by done. cbn [negb] in HS. inv_bind HS. inv_bind HS. inv_bind HS.
  injection HS as <- <-. injection Hres as Hx. cbn in Hx, E1. subst x. eexists. split; [exact E1|]. done.
Qed.

Lemma sim_Start n c s i rf cmd rf' res :
  RInv Term n s → Rel n c s → nodes c !! i = Some rf → (State rf = Leader → (i, CurrentTerm rf) ∈ loops c) →
  Start cmd rf = Some (rf', res) → sim n s (set_node i rf' c).
Proof.
  intros I R Hi Hlead HS. pose proof (rl_peer _ _ _ R _ _ Hi) as P. destruct (decide (State rf = Leader)) as [HL|HL].
  2:{ unfold Start in HS. rewrite bool_decide_false in HS by done. injection HS as <- _. apply sim_refl; [done|]. by eapply Rel_quiet. }
  destruct (proj1 (rl_loops _ _ _ R i (CurrentTerm rf)) (Hlead HL)) as (r & Hr & Hru).
  destruct (Start_view _ _ _ _ (po_inv _ _ _ _ P) HL HS) as (Hinv & mi & Hmi & HV). clear HS.
  set (e := mkEntry cmd (CurrentTerm rf) (lastIndex rf + 1)) in *. injection HV as V1 V2 V3 V4 V5 V6 V7 V8 V9 V10 V11.
  set (s' := mkRState (<[i := (CurrentTerm rf, Logs rf ++ [e])]> (logs s)) (<[CurrentTerm rf := mkReign i (inherited r) (Logs rf ++ [e])]> (reigns s))
    (stood s) (given s) ((i, CurrentTerm rf, S (length (Logs rf))) :: agreed s)).
  assert (rstep Term n s s') as HStep.
  { pose proof (Rel_lookup _ _ _ _ _ R Hi). destruct s. by eapply (r_append Term n _ _ _ _ _ i (CurrentTerm rf) (Logs rf) r e). }
  pose proof (rstep_extends _ _ _ _ I HStep) as X. eapply sim_step; [done..|]. eapply Rel_set; [done..| |by unfold plog; rewrite V1, V2|].
  { intros t. cbn. destruct (decide (t = CurrentTerm rf)) as [->|]; [by rewrite lookup_insert_eq, Hr; cbn; rewrite Hru|by rewrite lookup_insert_ne]. }
  destruct P as [_ (Hme & ? & ?) [Hs1 ?] ? HB HSf HNw HMt].
  split; rewrite ?V1, ?V2, ?V3, ?V4, ?V5, ?V6, ?V7, ?V8, ?V9, ?V10, ?V11; try done.
  - rewrite zlen_app. change (zlen [e]) with 1. lia.
  - rewrite take_app_le by (unfold zlen in HB; lia). by eapply safe_extends.
  - intros HLT. destruct (HNw HLT) as [HNb HNh]. rewrite take_app_le by (unfold zlen in HNb; lia).
    split; [rewrite zlen_app; change (zlen [e]) with 1; lia|by eapply heard_extends].
  - intros r' j m _ _ Hj. apply store_Some in Hmi as [Hb ->]. rewrite Hme in *. destruct (decide (j = i)) as [->|Hne].
    + rewrite index_insert_eq in Hj by done. injection Hj as <-. right. exists (S (length (Logs rf))).
      unfold lastIndex, zlen. rewrite Hs1. split; [lia|by left].
    + pose proof (index_lt _ _ _ Hj). rewrite index_insert_ne in Hj by lia.
      destruct (HMt r j m Hr Hru Hj) as [|(k & ? & ?)]; [by left|right]. exists k. split; [done|by right].
Qed.

(** The peers whose match index is at least [i] are as many as [replicas] says. *)
Lemma replicas_majority n rf (i : Z) :
  wf rf → npeers rf = n → npeers rf < 2 * replicas rf i →
  ∃ Q, majority n Q ∧ ∀ j, j ∈ Q → ∃ m, index (MatchIndex rf) j = Some m ∧ i <= m.
Proof.
  intros W Hn Hq. set (ps := zip (upto n) (MatchIndex rf)). pose proof (wf_match _ W) as HM. pose proof (wf_me _ W) as Hme.
  assert (length (upto n) = length (MatchIndex rf)) as Hlen by (rewrite upto_length; unfold zlen in HM; lia).
  assert (replicas rf i = zlen (fst <$> filter (λ p, i <= p.2) ps)) as Hrep.
  { unfold replicas, zlen. rewrite length_fmap, <-(snd_zip (upto n) (MatchIndex rf)) by lia.
    by rewrite list_filter_fmap, length_fmap. }
  assert (∀ p, p ∈ filter (λ p, i <= p.2) ps → 0 <= p.1 < n ∧ index (MatchIndex rf) p.1 = Some p.2 ∧ i <= p.2) as Hel.
  { intros [j m] [Him Hp]%list_elem_of_filter. apply list_elem_of_lookup in Hp as [q Hp]. unfold ps in Hp.
    apply lookup_zip_with_Some in Hp as (j' & m' & [= -> ->] & Hj & Hm). unfold upto in Hj.
    rewrite list_lookup_fmap in Hj. apply fmap_Some in Hj as (q' & Hq' & ->). apply lookup_seq in Hq' as [-> Hlt]. cbn in *.
    rewrite index_lookup, Nat2Z.id by lia. split_and!; [lia..|done|done]. }
  exists (fst <$> filter (λ p, i <= p.2) ps). split; [split_and!|].
  - eapply sublist_NoDup; [apply (upto_NoDup n)|]. rewrite <-(fst_zip (upto n) (MatchIndex rf)) by lia.
    apply fmap_sublist, sublist_filter.
  - rewrite <-Hrep, <-Hn. div_lia.
  - intros j (p & -> & Hp)%list_elem_of_fmap. by apply Hel.
  - intros j (p & -> & Hp)%list_elem_of_fmap. apply Hel in Hp as (_ & ? & ?). eauto.
Qed.

Lemma sim_updateCommit n c s i rf rf' :
  RInv Term n s → Rel n c s → nodes c !! i = Some rf → (i, CurrentTerm rf) ∈ loops c →
  commitScan (CurrentTerm rf) rf (length (Logs rf)) = Some rf' → sim n s (set_node i rf' c).
Proof.
  intros I R Hi Hin HC. pose proof (rl_peer _ _ _ R _ _ Hi) as P. pose proof (po_wf _ _ _ _ P) as W.
  destruct (proj1 (rl_loops _ _ _ R _ _) Hin) as (r & Hr & Hru). pose proof (leader_log _ _ _ _ _ _ I R Hi Hr Hru) as Hw.
  destruct (commitScan_spec (CurrentTerm rf) rf (length (Logs rf)) W) as (ci & HC' & Hci & _); [done|].
  rewrite HC in HC'. injection HC' as ->. apply sim_refl; [done|]. eapply Rel_quiet; [done..|].
  destruct P as [Hinv (Hme & Hnp & Hmsg) [Hs1 Hs2] ? HB HSf HNw HMt].
  assert (inv (rf <| CommitIndex := ci |>)) as Hinv' by (apply (inv_frame rf); [done|by apply (wf_views rf)|by left]).
  destruct Hci as [->|[Hgt [Hterm Hq]]]; [by split|].
  apply fmap_Some in Hterm as (e & He & Het). pose proof (entryAt_range _ _ _ He) as Hrg. unfold lastIndex in Hrg. rewrite Hs1 in Hrg.
  unfold entryAt in He. rewrite Hs1, index_lookup in He by lia.
  split; try done; cbn; [lia|]. right. exists (CurrentTerm rf), (Z.to_nat ci), r. split_and!; [lia| |done|by rewrite Hw].
  destruct (replicas_majority n rf ci W Hnp Hq) as (Q & HQ & Hm). exists r, e, Q. rewrite Hw.
  split_and!; try done; [|lia|].
  - rewrite <-He. f_equal. lia.
  - intros j Hj. destruct (Hm j Hj) as (m & Hjm & Hle). destruct (HMt r j m Hr Hru Hjm) as [|(k & ? & ?)]; [lia|].
    exists k. split; [lia|done].
Qed.

(** ** The cluster *)

Lemma Rel_net n c s ms : Rel n c s → (∀ m, m ∈ ms → rpc_rel n s m.1 m.2) → Rel n (c <| net := ms |>) s.
Proof. intros R Hm. apply (Rel_messages n c s ms (acks c)); [done..|apply R]. Qed.

Lemma Rel_net_drop n c s k : Rel n c s → Rel n (c <| net := delete k (net c) |>) s.
Proof. intros R. apply Rel_net; [done|]. intros m Hm%elem_of_delete. by apply R. Qed.

Lemma Rel_acks_drop n c s k : Rel n c s → Rel n (c <| acks := delete k (acks c) |>) s.
Proof. intros R. apply (Rel_messages n c s (net c)); [done|apply R|]. intros a Ha%elem_of_delete. by apply R. Qed.

Lemma Rel_send n c s i calls : Rel n c s → (∀ m, m ∈ calls → rpc_rel n s i m) → Rel n (send i calls c) s.
Proof.
  intros R Hc. apply Rel_net; [done|]. intros m [Hm|(q & -> & Hq)%list_elem_of_fmap]%elem_of_app; [by apply R|by apply Hc].
Qed.

(** A goroutine of an election ends. *)
Lemma Rel_count n c s k el el' rv :
  Rel n c s → elections c !! k = Some el → el_args el' = el_args el → done el' = done el →
  Rel n (c <| rvcalls := rv |> <| elections := <[k := el']> (elections c) |>) s.
Proof.
  intros R Hel Ha Hd.
  assert (∀ k' e, <[k := el']> (elections c) !! k' = Some e → ∃ e0, elections c !! k' = Some e0 ∧ el_args e0 = el_args e ∧ done e0 = done e) as Hback.
  { intros k' e He. apply list_lookup_insert_Some in He as [(-> & <- & _)|[_ He]]; eauto. }
  split; try apply R; cbn.
  - intros k' e (e0 & He & Ha0 & Hd0)%Hback. destruct (rl_elections _ _ _ R _ _ He) as (l & H). exists l.
    unfold cand, eterm in *. by rewrite <-Ha0, <-Hd0.
  - intros k1 k2 e1 e2 (d1 & H1 & Ha1 & _)%Hback (d2 & H2 & Ha2 & _)%Hback Hc Ht.
    apply (rl_unique _ _ _ R _ _ d1 d2 H1 H2); unfold cand, eterm in *; congruence.
Qed.

Lemma voteReply_cases ok reply el rf rf' el' (won : bool) calls :
  voteReply ok reply el rf = Some (rf', el', won, calls) →
  el_args el' = el_args el ∧
  if won then done el = false ∧ done el' = true ∧ CurrentTerm rf = rv_Term (el_args el) ∧
    becomeLeader (rf <| State := Leader |>) = Some (rf', calls)
  else calls = [] ∧ done el' = done el ∧ (rf' = rf ∨ ∃ t, CurrentTerm rf < t ∧ rf' = stepDown t rf).
Proof.
  unfold voteReply. intros HV. destruct ok; cbn [negb] in HV; [|by simplify_eq; auto].
  destruct (rvr_VoteGranted reply).
  - simpl in HV. destruct (done el || _) eqn:Hd; [by simplify_eq; auto|]. apply orb_false_iff in Hd as [Hd _].
    destruct (Z.eqb_spec (CurrentTerm rf) (rv_Term (el_args el))) as [HT|]; cbn in HV; [|by simplify_eq; auto].
    inv_bind HV. destruct x as [rf1 calls1]. by injection HV as <- <- <- <-.
  - destruct (Z.ltb_spec (CurrentTerm rf) (rvr_Term reply)); simplify_eq; eauto 10.
Qed.

Lemma sim_VoteBack n c s k server ok c' :
  RInv Term n s → Rel n c s → VInv n (abs c') → cstep (VoteBack k server ok) c = Some c' → sim n s c'.
Proof.
  intros I R V HS. cbn in HS. inv_bind HS. rename x into el, E into Hel. inv_bind HS. rename x into call.
  inv_bind HS. rename x into rf, E0 into Hi. inv_bind HS. rename x into reply. inv_bind HS. destruct x as [[[rf' el'] won] calls].
  apply voteReply_cases in E1 as (Ha & Hw). injection HS as <-. destruct won.
  - destruct Hw as (Hd & Hd' & HT & HB).
    assert (CurrentTerm rf' = CurrentTerm rf) as HE.
    { pose proof (po_inv _ _ _ _ (rl_peer _ _ _ R _ _ Hi)) as Hinv.
      destruct (becomeLeader_view _ _ _ Hinv HB) as (_ & _ & _ & _ & [= ? ? ? ? ? ? ?]). done. }
    eapply (sim_elect n c _ s (rv_CandidateId (el_args el)) rf rf' k el el' calls); try done. cbn. by rewrite HE.
  - destruct Hw as (-> & Hd & Hrf).
    pose proof (Rel_count n c s k el el' (delete (k, server) (rvcalls c)) R Hel Ha Hd) as R1.
    assert (∀ cc, sim n s cc → sim n s (send (rv_CandidateId (el_args el)) [] cc)) as Hsend.
    { intros cc (s1 & ? & ? & R2). exists s1. split_and!; [done..|]. apply Rel_send; [done|]. intros m Hm%elem_of_nil. done. }
    apply Hsend. destruct Hrf as [->|(t & Ht & ->)].
    + apply sim_refl; [done|]. eapply Rel_quiet; [done..|]. by apply (rl_peer _ _ _ R).
    + by apply (sim_stepDown n _ s _ rf).
Qed.

Lemma sim_callReturns n c s ok a c' :
  RInv Term n s → Rel n c s → ack_rel s a → callReturns ok a c = Some c' → sim n s c'.
Proof.
  intros I R Ha HC. destruct a as [src server args reply|src server args reply]; cbn in HC; inv_bind HC; inv_bind HC; destruct x0; injection HC as <-.
  - eapply sim_sendAppendEntries; [done..| |done]. destruct ok; [done|]. intros [=].
  - by eapply sim_sendInstallSnapshot.
Qed.

Lemma sim_Tick n c s i env c' :
  CInv n c → RInv Term n s → Rel n c s → cstep (Tick i env) c = Some c' → sim n s c'.
Proof.
  intros C I R HS. cbn in HS. inv_bind HS. rename x into rf, E into Hi. destruct (killed rf); [done|].
  inv_bind HS. destruct x as [[rf' el] calls]. injection HS as <-. pose proof (rl_peer _ _ _ R _ _ Hi) as P.
  unfold ticker in E. destruct (State rf) eqn:HSt.
  { inv_bind E. injection E as <- <- <-. apply sim_refl; [done|].
    destruct (ci_nodes _ _ C _ _ Hi) as (_ & _ & _ & Hlead). specialize (Hlead HSt).
    destruct (proj1 (rl_loops _ _ _ R _ _) Hlead) as (r & Hr & Hru).
    apply Rel_send; [by eapply Rel_quiet|]. eapply sendHeartBeat_rel; try done. by eapply leader_log. }
  all: destruct (_ <? _); [|injection E as <- <- <-; apply sim_refl; [done|]; apply Rel_send; [by eapply Rel_quiet|intros m Hm%elem_of_nil; done]].
  all: inv_bind E; destruct x as [rf1 args]; injection E as <- <- <-; by eapply sim_stand.
Qed.

Lemma sim_Deliver n c s k env c' :
  0 < n → RInv Term n s → Rel n c s → cstep (Deliver k env) c = Some c' → sim n s c'.
Proof.
  intros Hn I R HS. cbn in HS. inv_bind HS. destruct x as [src m]. pose proof (Rel_net_drop n c s k R) as R1.
  pose proof (rl_net _ _ _ R _ (list_elem_of_lookup_2 _ _ _ E)) as Hm.
  destruct m as [server args|server args|]; cbn in HS; [..|done]; inv_bind HS; inv_bind HS; destruct x0 as [r a]; injection HS as <-.
  - exact (sim_AppendEntries n _ s src server x env args r a Hn I R1 E0 Hm E1).
  - exact (sim_InstallSnapshot n _ s src server x env args r a I R1 E0 Hm E1).
Qed.

Lemma sim_Local n c s i op c' :
  CInv n c → RInv Term n s → Rel n c s → match op with OpSnapshot _ _ => False | _ => True end →
  cstep (Local i op) c = Some c' → sim n s c'.
Proof.
  intros C I R Hop HS. cbn in HS. inv_bind HS. rename x into rf, E into Hi. destruct (running op i rf c) eqn:Hrun; [|done].
  cbn [negb] in HS. inv_bind HS. rename x into rf'. injection HS as <-. pose proof (rl_peer _ _ _ R _ _ Hi) as P.
  assert (log_view rf' = log_view rf → peer_view rf' = peer_view rf → persister rf' = persister rf →
    safety_view rf' = safety_view rf → sim n s (set_node i rf' c)) as Hquiet.
  { intros V1 V2 V3 HV. apply sim_refl; [done|]. eapply Rel_quiet; [done..| |].
    - unfold plog. unfold safety_view in HV. unfold log_view in V1. congruence.
    - eapply peer_ok_view; [done..|]. apply (inv_views rf); [done..|apply P]. }
  destruct op as [cmd|?|t| |es|]; cbn in E; [|done|..].
  - apply fmap_Some in E as ([rf1 res] & HS & ->). eapply sim_Start; [done..| |done].
    apply (ci_nodes _ _ C _ _ Hi).
  - apply andb_true_iff in Hrun as [_ Hrun%bool_decide_eq_true]. apply fmap_Some in E as (o & HU & ->).
    unfold updateCommitIndex in HU. destruct (Z.eqb_spec (CurrentTerm rf) t) as [<-|]; cbn in HU.
    + inv_bind HU. injection HU as <-. by eapply sim_updateCommit.
    + injection HU as <-. by apply Hquiet.
  - inv_bind E. destruct x as [[? ?] ?]. injection E as <-. unfold applyLogTake in E0. inv_bind E0. injection E0 as <- _ _.
    apply Hquiet; try done. unfold safety_view. by rewrite (proj2 (proj2 (po_me _ _ _ _ P))).
  - injection E as <-. unfold applyLogDone in *. destruct (last_entry es); by apply Hquiet.
  - injection E as <-. by apply Hquiet.
Qed.

Lemma sim_Vote n c s k server env c' :
  RInv Term n s → Rel n c s → cstep (Vote k server env) c = Some c' → sim n s c'.
Proof.
  intros I R HS. cbn in HS. inv_bind HS. rename x into el, E into Hel. inv_bind HS. inv_bind HS. rename x0 into rf, E0 into Hi.
  destruct x; [done|]. inv_bind HS. destruct x as [rf' reply]. injection HS as <-.
  destruct (rl_elections _ _ _ R _ _ Hel) as (l & Hst & HLi & HLt & _).
  assert (Rel n (c <| rvcalls := <[(k, server) := Some reply]> (rvcalls c) |>) s) as R1 by (split; apply R).
  exact (sim_RequestVote n _ s server rf env (el_args el) l rf' reply I R1 Hi (conj Hst (conj HLi HLt)) E0).
Qed.

Lemma sim_Replicate n c s i server t c' :
  RInv Term n s → Rel n c s → cstep (Replicate i server t) c = Some c' → sim n s c'.
Proof.
  intros I R HS. cbn in HS. inv_bind HS. rename x into rf, E into Hi. destruct (_ || _) eqn:Hg; [done|].
  apply orb_false_iff in Hg as [[_ Hin%negb_false_iff%bool_decide_eq_true]%orb_false_iff Hne%Z.eqb_neq].
  inv_bind HS. injection HS as <-. apply sim_refl; [done|]. destruct x as [calls|]; [|done]. apply Rel_send; [done|].
  assert (CurrentTerm rf = t) as <-.
  { unfold replicateLog in E. destruct (Z.eqb_spec (CurrentTerm rf) t); [done|]. cbn in E. done. }
  destruct (proj1 (rl_loops _ _ _ R _ _) Hin) as (r & Hr & Hru). pose proof (rl_peer _ _ _ R _ _ Hi) as P.
  eapply replicateLog_rel; try done. by eapply leader_log.
Qed.

(** An event in which no peer's service hands it a snapshot. *)
Definition snapshot_free (ev : Event Cmd) : Prop :=
  match ev with Local _ (OpSnapshot _ _) => False | _ => True end.

Lemma cstep_sim n c s ev c' :
  0 < n → CInv n c → VInv n (abs c') → RInv Term n s → Rel n c s → snapshot_free ev →
  cstep ev c = Some c' → sim n s c'.
Proof.
  intros Hn C V I R Hev HS. destruct ev as [i env|k env|k|k ok|k server env|k server ok|i server t|i op].
  - by eapply sim_Tick.
  - by eapply sim_Deliver.
  - cbn in HS. inv_bind HS. destruct x as [src m]. inv_bind HS. eapply sim_callReturns; [done|by apply Rel_net_drop| |done].
    pose proof (rl_net _ _ _ R _ (list_elem_of_lookup_2 _ _ _ E)) as Hm. destruct m; cbn in *; simplify_eq; done.
  - cbn in HS. inv_bind HS. eapply sim_callReturns; [done|by apply Rel_acks_drop| |done].
    apply (rl_acks _ _ _ R). by eapply list_elem_of_lookup_2.
  - by eapply sim_Vote.
  - by eapply sim_VoteBack.
  - by eapply sim_Replicate.
  - eapply sim_Local; [done..| |done]. by destruct op.
Qed.

Definition nstep c c' : Prop := ∃ ev, snapshot_free ev ∧ cstep ev c = Some c'.

Record SInv (n : Z) c s : Prop := {
  si_cluster : CInv n c;
  si_votes : VInv n (abs c);
  si_machine : RInv Term n s;
  si_rel : Rel n c s;
}.

Lemma SInv_step n c s c' :
  0 < n → SInv n c s → nstep c c' → ∃ s', rtc (rstep Term n) s s' ∧ SInv n c' s'.
Proof.
  intros Hn [C V I R] (ev & Hev & HS). destruct (cstep_follows n c ev c' C HS) as [HV C'].
  assert (VInv n (abs c')) as V' by (clear -V HV; induction HV; eauto using VInv_step).
  destruct (cstep_sim n c s ev c') as (s' & HR & I' & R'); [done..|]. exists s'. split; [done|]. by split.
Qed.

Lemma SInv_steps n c s c' :
  0 < n → SInv n c s → rtc nstep c c' → ∃ s', rtc (rstep Term n) s s' ∧ SInv n c' s'.
Proof.
  intros Hn HI HR. revert s HI. induction HR as [|c1 c2 c3 HS _ IH]; intros s HI; [by exists s|].
  destruct (SInv_step _ _ _ _ Hn HI HS) as (s1 & HR1 & HI1). destruct (IH s1 HI1) as (s2 & HR2 & HI2).
  exists s2. split; [by etrans|done].
Qed.

Definition init_machine (c : Cluster Cmd) : RState (RaftLogEntry Cmd) := mkRState (plog <$> nodes c) ∅ [] [] [].

Lemma init_machine_rinit env n : rinit (init_machine (init_cluster env n)).
Proof.
  split; [|done]. intros i v Hv. cbn in Hv. rewrite lookup_fmap in Hv. apply fmap_Some in Hv as (rf & Hrf & ->).
  by apply init_lookup in Hrf as [_ ->].
Qed.

Lemma SInv_init env n : 0 < n → SInv n (init_cluster env n) (init_machine (init_cluster env n)).
Proof.
  intros Hn. split; [apply init_CInv|apply VInv_init, init_vinit, Hn|apply RInv_init, init_machine_rinit|].
  split; try (cbn; set_solver).
  - intros i rf [Hr ->]%init_lookup. pose proof (Make_inv (env i) n i MakePersister Hr (or_introl eq_refl)) as Hinv.
    split; try done. by left.
Qed.

Lemma safe_rtc n s s' t t' l :
  RInv Term n s → rtc (rstep Term n) s s' → safe Term n s t l → t <= t' → safe Term n s' t' l.
Proof.
  intros I HR HS Ht. assert (safe Term n s t' l) as HS' by (eapply safe_extends; [apply extends_refl|done..]). clear HS.
  induction HR as [|s1 s2 s3 HS _ IH]; [done|]. apply IH; [by eapply RInv_step|].
  eapply safe_extends; [by eapply rstep_extends|done..].
Qed.

(** ** The theorems *)

(** C8: replication refines its specification.  Whatever a fresh cluster goes
    through without snapshots and restarts, the terms and logs of its peers go
    through steps of the replication machine, the elections won are its reigns,
    and what lies below a peer's commit index is committed in the machine: a
    majority agreed to it under a leader that had written its last entry. *)
Theorem cluster_refines_replication env n c :
  0 < n → rtc nstep (init_cluster env n) c →
  ∃ s0 s, rinit s0 ∧ logs s0 = plog <$> nodes (init_cluster env n) ∧ rtc (rstep Term n) s0 s ∧
    logs s = plog <$> nodes c ∧
    (∀ i t, (i, t) ∈ loops c ↔ ∃ r, reigns s !! t = Some r ∧ ruler r = i) ∧
    ∀ i rf, nodes c !! i = Some rf →
      safe Term n s (CurrentTerm rf) (take (Z.to_nat (CommitIndex rf)) (Logs rf)) ∧ CommitIndex rf <= zlen (Logs rf).
Proof.
  intros Hn HR. destruct (SInv_steps _ _ _ _ Hn (SInv_init env n Hn) HR) as (s & HRs & [_ _ _ R]).
  eexists _, s. split_and!; [apply init_machine_rinit|done|exact HRs|apply R|apply R|].
  intros i rf Hi. destruct (rl_peer _ _ _ R _ _ Hi) as [_ _ _ _ ? ? _ _]. split; [done|lia].
Qed.

(** C7: log matching.  If two peers' logs have entries of the same term at the
    same index, the logs are the same up to it, commands included. *)
Theorem log_matching env n c i j rf rf' p e e' :
  0 < n → rtc nstep (init_cluster env n) c → nodes c !! i = Some rf → nodes c !! j = Some rf' →
  Logs rf !! p = Some e → Logs rf' !! p = Some e' → Term e = Term e' → take (S p) (Logs rf) = take (S p) (Logs rf').
Proof.
  intros Hn HR Hi Hj He He' Ht. destruct (SInv_steps _ _ _ _ Hn (SInv_init env n Hn) HR) as (s & _ & [_ _ I R]).
  eapply stems_agree; [..|done|done|done]; by eapply (ri_log _ _ _ I), (Rel_lookup _ _ _ _ _ R).
Qed.

(** C6: leader completeness.  What a peer has committed is in the log of every
    leader of the same or a later term, then and at any later time. *)
Theorem leader_completeness env n c1 c2 i j rf rf' :
  0 < n → rtc nstep (init_cluster env n) c1 → rtc nstep c1 c2 →
  nodes c1 !! j = Some rf → nodes c2 !! i = Some rf' → State rf' = Leader → CurrentTerm rf <= CurrentTerm rf' →
  take (Z.to_nat (CommitIndex rf)) (Logs rf) `prefix_of` Logs rf'.
Proof.
  intros Hn HR1 HR2 Hj Hi HL Ht. destruct (SInv_steps _ _ _ _ Hn (SInv_init env n Hn) HR1) as (s1 & _ & HI1).
  destruct (SInv_steps _ _ _ _ Hn HI1 HR2) as (s2 & HRs & [C2 _ I2 R2]). destruct HI1 as [_ _ I1 R1].
  pose proof (safe_rtc _ _ _ _ _ _ I1 HRs (po_safe _ _ _ _ (rl_peer _ _ _ R1 _ _ Hj)) Ht) as HS.
  destruct (ci_nodes _ _ C2 _ _ Hi) as (_ & _ & _ & Hin). destruct (proj1 (rl_loops _ _ _ R2 _ _) (Hin HL)) as (r & Hr & Hru).
  rewrite <-(leader_log _ _ _ _ _ _ I2 R2 Hi Hr Hru). by eapply safe_in_reign.
Qed.

(** What a round of [applyLog] sends comes from below the commit index. *)
Lemma applied_below n s i rf a msgs es m :
  peer_ok n s i rf → applyLogTake rf = Some (a, msgs, es) → m ∈ msgs →
  ∃ e p, take (Z.to_nat (CommitIndex rf)) (Logs rf) !! p = Some e ∧ CommandIndex m = Z.of_nat p + 1 ∧
    m = commandMsg e.
Proof.
  intros P HA Hm. destruct (po_me _ _ _ _ P) as (_ & _ & Hmsg). destruct (po_snap _ _ _ _ P) as [Hs1 _].
  unfold applyLogTake in HA. inv_bind HA. injection HA as _ <- _. rewrite Hmsg in Hm. cbn in Hm.
  apply list_elem_of_fmap in Hm as (e & -> & He). apply list_elem_of_filter in He as [_ He].
  rewrite Hs1, !Z.sub_0_r in E. destruct (negb _); [|injection E as <-; by apply elem_of_nil in He].
  apply slice_Some in E as (Hlo & Hhi & ->). apply list_elem_of_lookup in He as [q Hq].
  apply lookup_take_Some in Hq as [Hq Hlt]. rewrite lookup_drop in Hq.
  exists e, (Z.to_nat (LastApplied rf) + q)%nat. split_and!; [|cbn|done].
  - rewrite lookup_take_lt; [done|lia].
  - rewrite (wf_log _ (po_wf _ _ _ _ P) (Z.of_nat (Z.to_nat (LastApplied rf) + q)) e); [lia|].
    by rewrite index_lookup, Nat2Z.id by lia.
Qed.

(** C5: state machine safety.  No two peers ever hand their services different
    commands for one index: whatever a peer sends on its apply channel, and
    whatever another (or the same) sends for that index at that time or later,
    is the same message. *)
Theorem state_machine_safety env n c1 c2 i j rf rf' a msgs es a' msgs' es' m m' :
  0 < n → rtc nstep (init_cluster env n) c1 → rtc nstep c1 c2 →
  nodes c1 !! i = Some rf → nodes c2 !! j = Some rf' →
  applyLogTake rf = Some (a, msgs, es) → applyLogTake rf' = Some (a', msgs', es') →
  m ∈ msgs → m' ∈ msgs' → CommandIndex m = CommandIndex m' → m = m'.
Proof.
  intros Hn HR1 HR2 Hi Hj HA HA' Hm Hm' Hidx. destruct (SInv_steps _ _ _ _ Hn (SInv_init env n Hn) HR1) as (s1 & _ & HI1).
  destruct (SInv_steps _ _ _ _ Hn HI1 HR2) as (s2 & HRs & [_ _ I2 R2]). destruct HI1 as [_ _ I1 R1].
  pose proof (rl_peer _ _ _ R1 _ _ Hi) as P. pose proof (rl_peer _ _ _ R2 _ _ Hj) as P'.
  destruct (applied_below _ _ _ _ _ _ _ _ P HA Hm) as (e & p & He & Hp & ->).
  destruct (applied_below _ _ _ _ _ _ _ _ P' HA' Hm') as (e' & p' & He' & Hp' & ->). f_equal.
  assert (p' = p) as -> by lia.
  pose proof (safe_rtc _ _ _ _ _ _ I1 HRs (po_safe _ _ _ _ P) (Z.le_refl _)) as HS.
  destruct (safe_comparable _ _ _ _ _ _ _ Hn I2 HS (po_safe _ _ _ _ P')) as [Hpre|Hpre].
  - rewrite (prefix_lookup_eq _ _ _ Hpre) in He'; [congruence|by eapply lookup_lt_Some].
  - rewrite (prefix_lookup_eq _ _ _ Hpre) in He; [congruence|by eapply lookup_lt_Some].
Qed.

End safety.

(** ** Concrete runs *)

Module SafetyExamples.
Import ElectionExamples.

Lemma run_nsteps evs c c' : Forall snapshot_free evs → run evs c = Some c' → rtc nstep c c'.
Proof.
  intros HF. revert c. induction HF as [|ev evs Hev _ IH]; simpl; intros c HR; [by simplify_eq|].
  inv_bind HR. eapply rtc_l; [by exists ev|auto].
Qed.

(** Peer 0 leads term 1; it replicates a command to peer 2 and commits it. *)
Definition commit_run : list (Event Z) :=
  first_leader ++ [Local 0 (OpStart 7); Replicate 0 2 1; Deliver 2 later; Return 0 true; Local 0 (OpUpdateCommit 1)].

(** Peer 2 learns of it from a heartbeat. *)
Definition spread_run : list (Event Z) := [Tick 0 later; Deliver 3 later].

Definition committed1 : Cluster Z := default c0 (run commit_run c0).
Definition committed2 : Cluster Z := default c0 (run spread_run committed1).

Lemma committed1_reached : rtc nstep (init_cluster (λ _, mkEnv 0 0) 3) committed1.
Proof. apply (run_nsteps commit_run); [repeat constructor|]. vm_compute. reflexivity. Qed.

Lemma committed2_reached : rtc nstep committed1 committed2.
Proof. apply (run_nsteps spread_run); [repeat constructor|]. vm_compute. reflexivity. Qed.

Definition peerOf (c : Cluster Z) (i : Z) : Raft Z := default (Make (mkEnv 0 0) 3 i MakePersister) (nodes c !! i).

Lemma cluster_refines_replication_witness :
  ∃ s, logs s = plog <$> nodes committed1 ∧ CommitIndex (peerOf committed1 0) = 1 ∧ safe Term 3 s 1 [mkEntry 7 1 1].
Proof.
  destruct (cluster_refines_replication (λ _, mkEnv 0 0) 3 committed1) as (_ & s & _ & _ & _ & Hl & _ & Hp);
    [lia|apply committed1_reached|].
  exists s. split; [exact Hl|]. split; [vm_compute; reflexivity|].
  apply (Hp 0 (peerOf committed1 0)). vm_compute. reflexivity.
Defined.

Lemma log_matching_witness : take 1 (Logs (peerOf committed2 0)) = take 1 (Logs (peerOf committed2 2)).
Proof.
  apply (log_matching (λ _, mkEnv 0 0) 3 committed2 0 2 (peerOf committed2 0) (peerOf committed2 2) 0 (mkEntry 7 1 1) (mkEntry 7 1 1));
    [lia|etrans; [apply committed1_reached|apply committed2_reached]|vm_compute; reflexivity..].
Defined.

Lemma leader_completeness_witness :
  take 1 (Logs (peerOf committed1 0)) `prefix_of` Logs (peerOf committed2 0).
Proof.
  apply (leader_completeness (λ _, mkEnv 0 0) 3 committed1 committed2 0 0 (peerOf committed1 0) (peerOf committed2 0));
    [lia|apply committed1_reached|apply committed2_reached|vm_compute; reflexivity..|vm_compute; discriminate].
Defined.

Lemma state_machine_safety_witness :
  ∃ a msgs es a' msgs' es' m m',
    applyLogTake (peerOf committed1 0) = Some (a, msgs, es) ∧ applyLogTake (peerOf committed2 2) = Some (a', msgs', es') ∧
    m ∈ msgs ∧ m' ∈ msgs' ∧ CommandIndex m = 1 ∧ CommandIndex m' = 1 ∧ m = m'.
Proof.
  do 8 eexists. split; [vm_compute; reflexivity|]. split; [vm_compute; reflexivity|]. split; [left|]. split; [left|].
  split; [reflexivity|]. split; [reflexivity|].
  eapply (state_machine_safety (λ _, mkEnv 0 0) 3 committed1 committed2 0 2 (peerOf committed1 0) (peerOf committed2 2));
    [lia|apply committed1_reached|apply committed2_reached|vm_compute; reflexivity|vm_compute; reflexivity
    |vm_compute; reflexivity|vm_compute; reflexivity|left|left|reflexivity].
Defined.

Definition later2 := mkEnv 2000000000 0.

(** A snapshot that leaves conflicting entries behind it.  Peer 0 has two
    entries of term 1 that nobody else has; peer 1 leads term 2, commits another
    command at index 1 and sends its snapshot to peer 0.  InstallSnapshot cuts
    the log at the index without looking at the terms, so peer 0 keeps its entry
    of term 1 at index 2 behind a snapshot of term 2; it then counts as a peer
    whose last term is 1, and votes for a candidate that lacks the entry the
    snapshot contains. *)
Definition stale_run : list (Event Z) :=
  first_leader ++ [Local 0 (OpStart 101); Local 0 (OpStart 102); Tick 1 later2; Vote 2 2 later2; VoteBack 2 2 true;
    Local 1 (OpStart 201); Replicate 1 2 2; Deliver 4 later2; Return 0 true; Local 1 (OpUpdateCommit 2);
    Local 1 OpApplyTake; Local 1 (OpSnapshot 1 [Byte.x00]); Replicate 1 0 2; Deliver 4 later2].

Theorem install_keeps_conflict :
  ∃ c rf rf' reply, run stale_run c0 = Some c ∧ nodes c !! 0 = Some rf ∧
    SnapshotLastIncludedIndex rf = 1 ∧ SnapshotLastIncludedTerm rf = 2 ∧ Logs rf = [mkEntry 102 1 2] ∧
    RequestVote later2 (mkRVArgs 3 2 2 1) rf = Some (rf', reply) ∧ rvr_VoteGranted reply = true.
Proof. do 4 eexists. split_and!; vm_compute; reflexivity. Qed.

End SafetyExamples.
