(* ===== verification/RaftRepair.v ===== *)
(** * Repairing the followers' logs in a cluster

    A follower whose log is not the leader's answers with a conflict, and the leader
    moves its next index for the follower back.  Replies are delayed and reordered, so
    a conflict is handled long after the follower met it, by a leader whose log has
    grown.  The invariant says, of every reply in flight, what the leader needs when
    it comes: next indices stay inside the log, the scan for the conflict term does
    not run off it, and each conflict that still counts makes the next index smaller.
    With a follower that answers, the leader's log reaches it after boundedly many
    rounds. *)

From S2P Require Import Prelude LabGob Persister Raft RaftLog RaftState Voting RaftElection Replication RaftSafety.

Section repair.
Context {Cmd : Type} `{!Gob (PersistentState Cmd)}.
Implicit Types (rf : Raft Cmd) (c : Cluster Cmd) (s : RState (RaftLogEntry Cmd)).

(** ** The invariant *)

(** The next indices of a leader lie inside its log, its own just behind it. *)
Definition next_ok rf : Prop :=
  ∀ j k, index (NextIndex rf) j = Some k → 1 <= k <= lastIndex rf + 1 ∧ (j = me rf → k = lastIndex rf + 1).

(** What a conflict tells of the follower at the time it answered: its log was too
    short, or it held, at [PrevLogIndex], an entry of another term, which that term's
    leader wrote at this very place. *)
Definition conflict_ok s (args : AppendEntriesArgs Cmd) (reply : AppendEntriesReply) : Prop :=
  aer_Conflict reply = true →
  aer_Success reply = false ∧ 1 <= ae_PrevLogIndex args ∧ aer_ConflictIndex reply <= ae_PrevLogIndex args ∧
  (aer_ConflictTerm reply ≠ 0 →
   aer_ConflictTerm reply ≠ ae_PrevLogTerm args ∧ 1 <= aer_ConflictIndex reply ∧
   ∃ r, reigns s !! aer_ConflictTerm reply = Some r ∧
     Term <$> written r !! Z.to_nat (ae_PrevLogIndex args - 1) = Some (aer_ConflictTerm reply)).

Record XInv (n : Z) c s : Prop := {
  xi_next : ∀ i rf, nodes c !! i = Some rf → (i, CurrentTerm rf) ∈ loops c → next_ok rf;
  xi_acks : ∀ src server args reply, AckAppendEntries src server args reply ∈ acks c →
    rpc_rel n s src (CallAppendEntries server args) ∧ conflict_ok s args reply ∧ 0 <= server < n;
}.

Lemma conflict_ok_rtc n s s' args reply :
  RInv Term n s → rtc (rstep Term n) s s' → conflict_ok s args reply → conflict_ok s' args reply.
Proof.
  intros I HR. induction HR as [|s1 s2 s3 HS _ IH]; [done|]. intros H. apply IH; [by eapply RInv_step|].
  intros Hc. destruct (H Hc) as (? & ? & ? & Hct). split_and!; try done. intros Hz. destruct (Hct Hz) as (? & ? & r & Hr & Hw).
  split_and!; try done. destruct (ex_grows _ _ (rstep_extends _ _ _ _ I HS) _ _ Hr) as (r' & Hr' & _ & _ & Hp). exists r'. split; [done|].
  apply fmap_Some in Hw as (e & He & Ht). by rewrite (prefix_lookup_Some _ _ _ _ He Hp), Ht.
Qed.

(** What a follower's conflict says holds when it answers. *)
Lemma AppendEntries_conflict n c s src j F env args F' reply :
  RInv Term n s → Rel n c s → nodes c !! j = Some F → rpc_rel n s src (CallAppendEntries j args) →
  AppendEntries env args F = Some (F', reply) → conflict_ok s args reply.
Proof.
  intros I R Hj Hrpc HA Hc. pose proof (rl_peer _ _ _ R _ _ Hj) as P. destruct (po_snap _ _ _ _ P) as [H0 _].
  assert (contiguous (ae_PrevLogIndex args) (ae_Entries args)) as Hcon by (destruct Hrpc as (? & ? & ? & ? & ? & ? & ? & ? & _); done).
  destruct (AppendEntries_cases env args F (po_wf _ _ _ _ P) Hcon) as (F1 & r1 & HA' & _ & _ & HC). rewrite HA in HA'. injection HA' as <- <-.
  destruct HC as [(_ & ? & _)|[(_ & Hs & _ & _ & Hsn & Hcr)|(_ & _ & ? & _)]]; [congruence| |congruence].
  pose proof (zlen_nonneg (Logs F)). split_and!; [done|lia|destruct Hcr as [(? & _ & ->)|(? & _ & ? & _)]; lia|]. intros Hct.
  destruct Hcr as [(_ & ? & _)|(Hl & Hne & Hci & Hrun & _)]; [done|]. split_and!; [done|lia|].
  specialize (Hrun (ae_PrevLogIndex args) ltac:(lia)). apply fmap_Some in Hrun as (e & He & Hte).
  unfold entryAt in He. rewrite H0, index_lookup in He by lia.
  destruct (proj1 (proj2 (ri_log _ _ _ I _ _ _ (Rel_lookup _ _ _ _ _ R Hj))) _ _ He) as (r & Hr & Hpre & _).
  exists r. rewrite Hte. split; [done|]. replace (ae_PrevLogIndex args - 1) with (ae_PrevLogIndex args - 0 - 1) by lia.
  rewrite <-(lookup_take_lt _ (S (Z.to_nat (ae_PrevLogIndex args - 0 - 1)))) in He by lia. by rewrite (prefix_lookup_Some _ _ _ _ He Hpre).
Qed.

(** ** Peers *)

(** The peer goes to a later term, or keeps its log and next indices. *)
Definition stays rf rf' : Prop :=
  CurrentTerm rf < CurrentTerm rf' ∨
  CurrentTerm rf' = CurrentTerm rf ∧ log_view rf' = log_view rf ∧ peer_view rf' = peer_view rf.

Lemma next_ok_same rf rf' : log_view rf' = log_view rf → peer_view rf' = peer_view rf → next_ok rf → next_ok rf'.
Proof. intros V1 V2 H j k. apply log_view_eq in V1 as (_ & _ & _ & _ & _ & ->). injection V2 as _ -> -> _ _ _. apply H. Qed.

Lemma acceptLeader_stays env t rf rf1 ch : CurrentTerm rf <= t → acceptLeader env t rf = (rf1, ch) → stays rf rf1.
Proof.
  intros Hle HA. destruct (acceptLeader_new _ _ _ _ _ Hle HA) as (HT & _). destruct (acceptLeader_frame _ _ _ _ _ HA) as (V1 & V2 & _).
  destruct (Z.lt_ge_cases (CurrentTerm rf) t); [left; lia|right]. split_and!; [lia|done|done].
Qed.

Lemma InstallSnapshot_stays env args rf rf' reply :
  is_LastIncludedIndex args = 0 → SnapshotLastIncludedIndex rf = 0 → InstallSnapshot env args rf = Some (rf', reply) → stays rf rf'.
Proof.
  intros H0 Hs HI. unfold InstallSnapshot in HI. destruct (Z.ltb_spec (is_Term args) (CurrentTerm rf)); [injection HI as <- _; by right|].
  destruct (acceptLeader _ _ _) as [rf1 ch] eqn:Ha. pose proof (acceptLeader_frame _ _ _ _ _ Ha) as (V & _).
  apply log_view_eq in V as (_ & ES & _). rewrite H0, ES, Hs in HI. cbn [Z.leb Z.compare orb] in HI.
  injection HI as <- _. by apply (acceptLeader_stays _ _ _ _ _ H Ha).
Qed.

Lemma RequestVote_stays env args rf rf' reply : wf rf → RequestVote env args rf = Some (rf', reply) → stays rf rf'.
Proof.
  intros W HV. assert (stays rf (seenTerm (rv_Term args) rf)) as Hseen.
  { unfold seenTerm. destruct (Z.ltb_spec (CurrentTerm rf) (rv_Term args)); [by left|by right]. }
  destruct (RequestVote_cases env args rf W) as [[Hmay HV']|[_ HV']]; rewrite HV in HV'; injection HV' as -> _.
  - exact Hseen.
  - destruct (_ <? _); [by right|done].
Qed.

Lemma localOp_stays op rf rf' : wf rf →
  match op with OpSnapshot _ _ | OpStart _ => False | _ => True end → localOp op rf = Some rf' → stays rf rf'.
Proof.
  intros W Hop HS. right. destruct op as [cmd|?|t| |es|]; cbn in HS; try done.
  - apply fmap_Some in HS as (o & HU & ->). unfold updateCommitIndex in HU. destruct (_ =? _); cbn in HU; [|by injection HU as <-].
    inv_bind HU. injection HU as <-. destruct (commitScan_spec t rf (length (Logs rf)) W) as (ci & HC & _); [done|].
    rewrite HC in E. by injection E as <-.
  - inv_bind HS. destruct x as [[? ?] ?]. injection HS as <-. unfold applyLogTake in E. inv_bind E. by injection E as <- _ _.
  - injection HS as <-. unfold applyLogDone. by destruct (last_entry es).
  - by injection HS as <-.
Qed.

Lemma node_range n c s i rf : Rel n c s → nodes c !! i = Some rf → 0 <= i < n.
Proof.
  intros R Hi. pose proof (rl_peer _ _ _ R _ _ Hi) as P. destruct (po_me _ _ _ _ P) as (<- & <- & _). apply (po_wf _ _ _ _ P).
Qed.

(** ** A leader and the replies it gets *)

Section leader.
Context (n : Z) c s (I : RInv Term n s) (R : Rel n c s) (i : Z) (L : Raft Cmd) (Hi : nodes c !! i = Some L).

(** A request of the leader's term carries a part of its log. *)
Lemma own_request j args : rpc_rel n s i (CallAppendEntries j args) → CurrentTerm L = ae_Term args →
  j ≠ me L ∧ 0 <= ae_PrevLogIndex args ∧ ae_PrevLogIndex args + zlen (ae_Entries args) <= lastIndex L ∧
  (1 <= ae_PrevLogIndex args → termAt L (ae_PrevLogIndex args) = Some (ae_PrevLogTerm args)).
Proof.
  intros (r & p & k & Hr & Hru & Hne & Hp & _ & Hpre & Hpl & Hpt & _) HT. rewrite <-HT in Hr.
  rewrite (leader_log n c s i L r I R Hi Hr Hru) in *. pose proof (rl_peer _ _ _ R _ _ Hi) as P.
  destruct (po_snap _ _ _ _ P) as [H0 _]. split_and!.
  - by rewrite (proj1 (po_me _ _ _ _ P)).
  - lia.
  - apply prefix_length in Hpre. rewrite length_app, length_take in Hpre. unfold lastIndex, zlen. lia.
  - intros H1. rewrite termAt_entry by lia. unfold entryAt. rewrite H0, index_lookup by lia.
    rewrite <-Hpt by lia. do 2 f_equal. lia.
Qed.

(** A conflict, however late, does not lead off the leader's log. *)
Lemma conflict_next j args reply :
  rpc_rel n s i (CallAppendEntries j args) → conflict_ok s args reply → aer_Conflict reply = true → CurrentTerm L = ae_Term args →
  ∃ k, conflictNext reply L = Some k ∧ 1 <= k <= ae_PrevLogIndex args.
Proof.
  intros Hrpc Hok Hc HT. destruct (own_request j args Hrpc HT) as (_ & H0 & Hlen & Hpt). pose proof (zlen_nonneg (ae_Entries args)).
  destruct (Hok Hc) as (_ & H1 & Hci & Hct). pose proof (rl_peer _ _ _ R _ _ Hi) as P. destruct (po_snap _ _ _ _ P) as [Hs _].
  apply (conflictNext_bounds L (ae_PrevLogIndex args) (ae_PrevLogTerm args)); [apply (po_wf _ _ _ _ P)|done|lia|by apply Hpt|done|].
  intros Hz. destruct (Hct Hz) as (Hne & Hci1 & r & Hr & Hw). split_and!; [done|done|]. intros b Hb Hbt.
  apply fmap_Some in Hbt as (eb & He & Ht). pose proof (entryAt_range _ _ _ He). unfold entryAt in He. rewrite Hs, index_lookup in He by lia.
  destruct (proj1 (proj2 (ri_log _ _ _ I _ _ _ (Rel_lookup _ _ _ _ _ R Hi))) _ _ He) as (r' & Hr' & Hpre & _).
  rewrite <-Ht in Hr'. assert (r' = r) as -> by congruence. rewrite termAt_entry by lia. unfold entryAt. rewrite Hs, index_lookup by lia.
  apply fmap_Some in Hw as (e & He' & ->). pose proof (lookup_lt_Some _ _ _ He) as Hlt.
  rewrite (prefix_lookup_eq _ _ _ Hpre) in He' by (rewrite length_take; lia). rewrite lookup_take_lt in He' by lia.
  replace (ae_PrevLogIndex args - 0 - 1) with (ae_PrevLogIndex args - 1) by lia. by rewrite He'.
Qed.

(** A reply leaves the next indices inside the log. *)
Lemma sendAppendEntries_next j args ok reply L' b :
  rpc_rel n s i (CallAppendEntries j args) → conflict_ok s args reply →
  sendAppendEntries j args ok reply L = Some (L', b) →
  CurrentTerm L < CurrentTerm L' ∨ CurrentTerm L' = CurrentTerm L ∧ (next_ok L → next_ok L').
Proof.
  intros Hrpc Hok HS. unfold sendAppendEntries in HS.
  destruct (Z.ltb_spec (CurrentTerm L) (aer_Term reply)); [injection HS as <- _; by left|right].
  destruct (_ <? _); [by injection HS as <- _|]. destruct (Z.eqb_spec (CurrentTerm L) (ae_Term args)) as [HT|]; [|by injection HS as <- _].
  destruct (own_request j args Hrpc HT) as (Hj & H0 & Hlen & _). pose proof (zlen_nonneg (ae_Entries args)).
  assert (∀ k ni, store (NextIndex L) j k = Some ni → 1 <= k <= lastIndex L + 1 → next_ok L → next_ok (L <| NextIndex := ni |>)) as Hset.
  { intros k ni [Hb ->]%store_Some Hk HN j' k'. cbn. change (lastIndex (L <| NextIndex := _ |>)) with (lastIndex L).
    destruct (decide (j' = j)) as [->|]; [rewrite index_insert_eq by done; intros [= <-]; by split|].
    intros Hk'. pose proof (index_lt _ _ _ Hk'). rewrite index_insert_ne in Hk' by lia. by apply HN. }
  destruct (aer_Success reply).
  - inv_bind HS. inv_bind HS. inv_bind HS. inv_bind HS. injection HS as <- _. split; [done|]. intros HN. pose proof (HN j _ E1).
    refine (Hset _ _ E2 _ HN). rewrite max_Z. lia.
  - destruct (aer_Conflict reply) eqn:Hc; [|by injection HS as <- _]. inv_bind HS. destruct (_ =? _); [|by injection HS as <- _].
    destruct (conflict_next j args reply Hrpc Hok Hc HT) as (k & Hk & Hb). rewrite Hk in HS. cbn [mbind option_bind] in HS. inv_bind HS.
    injection HS as <- _. split; [done|]. apply (Hset k); [done|lia].
Qed.

Lemma sendInstallSnapshot_next j args ok reply L' b : is_LastIncludedIndex args = 0 →
  sendInstallSnapshot j args ok reply L = Some (L', b) →
  CurrentTerm L < CurrentTerm L' ∨ CurrentTerm L' = CurrentTerm L ∧ (next_ok L → next_ok L').
Proof.
  intros H0 HS. unfold sendInstallSnapshot in HS.
  destruct (Z.ltb_spec (CurrentTerm L) (isr_Term reply)); [injection HS as <- _; by left|right].
  destruct (_ <? _); [by injection HS as <- _|]. destruct (_ && _); [|by injection HS as <- _].
  inv_bind HS. inv_bind HS. inv_bind HS. inv_bind HS. injection HS as <- _. split; [done|]. intros HN j' k'. cbn.
  change (lastIndex (L <| MatchIndex := _ |> <| NextIndex := _ |>)) with (lastIndex L). destruct (HN j _ E1) as [Hb Hm].
  apply store_Some in E2 as [Hb' ->]. rewrite H0, max_Z. destruct (decide (j' = j)) as [->|].
  - rewrite index_insert_eq by done. intros [= <-]. rewrite Z.max_l by lia. done.
  - intros Hk'. pose proof (index_lt _ _ _ Hk'). rewrite index_insert_ne in Hk' by lia. by apply HN.
Qed.

Lemma Start_next cmd L' res : Start cmd L = Some (L', res) → CurrentTerm L' = CurrentTerm L ∧ (next_ok L → next_ok L').
Proof.
  intros HS. pose proof (rl_peer _ _ _ R _ _ Hi) as P. destruct (decide (State L = Leader)) as [HL|HL].
  2:{ unfold Start in HS. rewrite bool_decide_false in HS by done. by injection HS as <- _. }
  destruct (Start_view _ _ _ _ (po_inv _ _ _ _ P) HL HS) as (_ & mi & _ & HV). injection HV as V1 V2 V3 _ _ _ _ _ Vme _ _.
  assert (lastIndex L' = lastIndex L + 1) as HI. { unfold lastIndex. rewrite V2, V3, zlen_app. change (zlen [_]) with 1. lia. }
  split; [done|]. intros HN j k. rewrite HI, Vme. unfold Start in HS. rewrite bool_decide_true in HS by done. cbn [negb] in HS.
  inv_bind HS. inv_bind HS. inv_bind HS. injection HS as <- _. cbn in E0 |- *. apply store_Some in E0 as [Hb ->].
  assert (x = lastIndex L + 1) as ->.
  { destruct (Z.eqb_spec (zlen (Logs L)) 0) as [Hz|]; cbn in E; [injection E as <-; unfold lastIndex; lia|]. inv_bind E. injection E as <-.
    pose proof (wf_log _ (po_wf _ _ _ _ P)) as HW. unfold last_entry in E0. rewrite (HW _ _ E0). unfold lastIndex. lia. }
  destruct (decide (j = me L)) as [->|].
  - rewrite index_insert_eq by done. intros [= <-]. pose proof (zlen_nonneg (Logs L)). destruct (po_snap _ _ _ _ P) as [H0 _]. unfold lastIndex. lia.
  - intros Hk. pose proof (index_lt _ _ _ Hk). rewrite index_insert_ne in Hk by lia. destruct (HN j k Hk). split; [lia|done].
Qed.
End leader.

(** ** The events keep the invariant *)

Section step.
Context (n : Z) c s (C : CInv n c) (I : RInv Term n s) (R : Rel n c s) (X : XInv n c s).

Lemma later_no_loop i rf t : nodes c !! i = Some rf → CurrentTerm rf < t → (i, t) ∉ loops c.
Proof. intros Hi Ht (r & Hr & Hru)%(rl_loops _ _ _ R). pose proof (ruler_reached _ _ _ _ _ _ _ I R Hi Hr Hru). lia. Qed.

Lemma moved_next i rf rf' : nodes c !! i = Some rf →
  CurrentTerm rf < CurrentTerm rf' ∨ CurrentTerm rf' = CurrentTerm rf ∧ (next_ok rf → next_ok rf') →
  (i, CurrentTerm rf') ∈ loops c → next_ok rf'.
Proof.
  intros Hi [Ht|[HT HN]] Hin; [by apply (later_no_loop i rf) in Hin|]. apply HN, (xi_next _ _ _ X i rf Hi). by rewrite <-HT.
Qed.

Lemma stays_next i rf rf' : nodes c !! i = Some rf → stays rf rf' → (i, CurrentTerm rf') ∈ loops c → next_ok rf'.
Proof.
  intros Hi Hst. apply (moved_next i rf); [done|]. destruct Hst as [|(? & ? & ?)]; [by left|right]. split; [done|by apply next_ok_same].
Qed.

(** What was known of a reply is known later. *)
Lemma ack_later s' a : rtc (rstep Term n) s s' → a ∈ acks c →
  match a with
  | AckAppendEntries src server args reply => rpc_rel n s' src (CallAppendEntries server args) ∧ conflict_ok s' args reply ∧ 0 <= server < n
  | AckInstallSnapshot _ _ _ _ => True
  end.
Proof.
  intros HR Ha. destruct a as [src server args reply|]; [|done]. destruct (xi_acks _ _ _ X _ _ _ _ Ha) as (? & ? & ?).
  split; [by eapply (rpc_rel_rtc n s)|]. split; [by eapply conflict_ok_rtc|done].
Qed.

(** A peer changes, and no reply is new. *)
Lemma XInv_set c' s' i rf' : rtc (rstep Term n) s s' → nodes c' = <[i := rf']> (nodes c) → loops c' = loops c →
  (∀ a, a ∈ acks c' → a ∈ acks c) → ((i, CurrentTerm rf') ∈ loops c → next_ok rf') → XInv n c' s'.
Proof.
  intros HR HN HL HA Hn. split.
  - intros j rf. rewrite HN, HL. intros [[<- <-]|[_ Hj]]%lookup_insert_Some; [done|by apply (xi_next _ _ _ X)].
  - intros src server args reply Ha%HA. exact (ack_later s' _ HR Ha).
Qed.

Lemma XInv_same c' s' : rtc (rstep Term n) s s' → nodes c' = nodes c → loops c' = loops c →
  (∀ a, a ∈ acks c' → a ∈ acks c) → XInv n c' s'.
Proof.
  intros HR HN HL HA. split.
  - intros j rf. rewrite HN, HL. apply (xi_next _ _ _ X).
  - intros src server args reply Ha%HA. exact (ack_later s' _ HR Ha).
Qed.

Lemma callReturns_X cc ok a c' s' : nodes cc = nodes c → loops cc = loops c → (∀ a, a ∈ acks cc → a ∈ acks c) → rtc (rstep Term n) s s' →
  match a with
  | AckAppendEntries src server args reply => rpc_rel n s src (CallAppendEntries server args) ∧ conflict_ok s args reply
  | AckInstallSnapshot src server args reply => is_LastIncludedIndex args = 0
  end → callReturns ok a cc = Some c' → XInv n c' s'.
Proof.
  intros HN HL HA HR Ha HC. destruct a as [src server args reply|src server args reply]; cbn in HC; rewrite HN in HC; inv_bind HC; inv_bind HC;
    destruct x0 as [rf' b]; injection HC as <-; (apply (XInv_set _ s' src rf'); cbn; [done|by rewrite HN|done|done|]); (eapply moved_next; [done|]).
  - destruct Ha as [Hrpc Hok]. eapply sendAppendEntries_next; [done..| |done]. destruct ok; [done|by intros ?].
  - by eapply sendInstallSnapshot_next.
Qed.

(** A peer that heeds a request is a follower of the request's term, and leads no loop of it. *)
Lemma AppendEntries_term src j F env args F' reply : nodes c !! j = Some F → rpc_rel n s src (CallAppendEntries j args) →
  AppendEntries env args F = Some (F', reply) →
  aer_Term reply = CurrentTerm F ∧
  (F' = F ∧ ae_Term args < CurrentTerm F ∧ aer_Success reply = false ∧ aer_Conflict reply = false ∨
   CurrentTerm F <= ae_Term args ∧ CurrentTerm F' = ae_Term args ∧ aer_Success reply = negb (aer_Conflict reply)).
Proof.
  intros Hj Hrpc HA. pose proof (rl_peer _ _ _ R _ _ Hj) as P. pose proof Hrpc as (r & _ & _ & Hr & Hru & Hne & _ & Hcon & _).
  destruct (AppendEntries_cases env args F (po_wf _ _ _ _ P) Hcon) as (F1 & r1 & HA' & _ & Hrt & HC). rewrite HA in HA'. injection HA' as <- <-.
  split; [done|]. destruct HC as [(? & ? & ? & ?)|[(Hle & Hs & Hc & (ch & Ha) & _)|(Hle & Hs & Hc & _ & _ & Hp & rf1 & ch1 & rf2 & ch2 & Ha & HM & HF)]].
  - by left.
  - right. destruct (acceptLeader_new _ _ _ _ _ Hle Ha) as (HT & _). by rewrite Hs, Hc.
  - right. destruct (acceptLeader_new _ _ _ _ _ Hle Ha) as (HT & _). rewrite Hs, Hc.
    destruct (AppendEntries_commits env args F rf1 ch1 rf2 ch2 (ch1 || ch2) F') as ([= _ ? _ _ _] & _); try done; [by apply P|]. split_and!; [done|congruence|done].
Qed.

Lemma AppendEntries_next src j F env args F' reply : nodes c !! j = Some F → rpc_rel n s src (CallAppendEntries j args) →
  AppendEntries env args F = Some (F', reply) → (j, CurrentTerm F') ∈ loops c → next_ok F'.
Proof.
  intros Hj Hrpc HA Hin. destruct (AppendEntries_term src j F env args F' reply Hj Hrpc HA) as [_ [(-> & _)|(_ & HT & _)]]; [by apply (xi_next _ _ _ X j)|].
  destruct Hrpc as (r & _ & _ & Hr & Hru & Hne & _). apply (rl_loops _ _ _ R) in Hin as (r' & Hr' & Hru'). congruence.
Qed.

Lemma deliver_X k env c' s' : rtc (rstep Term n) s s' → cstep (Deliver k env) c = Some c' → XInv n c' s'.
Proof.
  intros HR HS. cbn in HS. inv_bind HS. destruct x as [src m]. pose proof (rl_net _ _ _ R _ (list_elem_of_lookup_2 _ _ _ E)) as Hm.
  destruct m as [server args|server args|]; cbn in HS; [..|done]; inv_bind HS; inv_bind HS; destruct x0 as [F' reply]; injection HS as <-; rename x into F, E0 into Hj.
  - assert (XInv n (set_node server F' c) s') as X'.
    { apply (XInv_set _ s' server F'); [done..|]. by eapply AppendEntries_next. }
    split; [apply X'|]. intros src' server' args' reply' [[= -> -> -> ->]|Ha]%elem_of_cons; [|exact (xi_acks _ _ _ X' _ _ _ _ Ha)].
    split; [by eapply rpc_rel_rtc|]. split; [eapply conflict_ok_rtc; [done..|]; by eapply AppendEntries_conflict|].
    exact (node_range n c s _ _ R Hj).
  - assert (XInv n (set_node server F' c) s') as X'.
    { apply (XInv_set _ s' server F'); [done..|]. apply (stays_next server F); [done|]. eapply InstallSnapshot_stays; [exact Hm| |done].
      apply (po_snap _ _ _ _ (rl_peer _ _ _ R _ _ Hj)). }
    split; [apply X'|]. intros src' server' args' reply' [?|Ha]%elem_of_cons; [done|exact (xi_acks _ _ _ X' _ _ _ _ Ha)].
Qed.

Lemma VoteBack_X k server ok c' s' : rtc (rstep Term n) s s' → cstep (VoteBack k server ok) c = Some c' → XInv n c' s'.
Proof.
  intros HR HS. cbn in HS. inv_bind HS. rename x into el, E into Hel. inv_bind HS. rename x into call.
  inv_bind HS. rename x into rf, E0 into Hi. inv_bind HS. rename x into reply. inv_bind HS. destruct x as [[[rf' el'] won] calls].
  apply voteReply_cases in E1 as (Ha & Hw). injection HS as <-. pose proof (rl_peer _ _ _ R _ _ Hi) as P. destruct won.
  - destruct Hw as (_ & _ & _ & HB). destruct (becomeLeader_inv (rf <| State := Leader |>)) as (rf0 & calls0 & HB' & _ & HV & _ & HN & _).
    { apply (inv_frame rf); [apply P|by apply (wf_views rf), P|by left]. }
    rewrite HB in HB'. injection HB' as <- <-. destruct (becomeLeader_view _ _ _ (po_inv _ _ _ _ P) HB) as (_ & _ & HV' & _ & [= HT _ _ _ _ _ _]).
    assert (next_ok rf') as Hok.
    { intros j m Hm. rewrite (HN j m Hm). apply log_view_eq in HV as (_ & _ & _ & _ & _ & ->). pose proof (zlen_nonneg (Logs rf)).
      destruct (po_snap _ _ _ _ P) as [H0 _]. unfold lastIndex. cbn. lia. }
    split.
    + intros j r. cbn. intros [[<- <-]|[Hne Hj]]%lookup_insert_Some Hin; [done|]. apply elem_of_cons in Hin as [[= -> _]|Hin]; [done|]. by apply (xi_next _ _ _ X j).
    + intros src' server' args' reply' Hack. exact (ack_later s' _ HR Hack).
  - destruct Hw as (-> & _ & Hrf). apply (XInv_set _ s' (rv_CandidateId (el_args el)) rf'); [done..|]. apply (stays_next _ rf); [done|].
    destruct Hrf as [->|(t & Ht & ->)]; [by right|by left].
Qed.

Lemma cstep_X ev c' s' : snapshot_free ev → rtc (rstep Term n) s s' → cstep ev c = Some c' → XInv n c' s'.
Proof.
  intros Hev HR HS. destruct ev as [i env|k env|k|k ok|k server env|k server ok|i server t|i op].
  - cbn in HS. inv_bind HS. rename x into rf, E into Hi. destruct (killed rf); [done|]. inv_bind HS. destruct x as [[rf' el] calls]. injection HS as <-.
    apply (XInv_set _ s' i rf'); [done|by destruct el|by destruct el|by destruct el|]. apply (stays_next i rf); [done|].
    unfold ticker in E. destruct (State rf); [inv_bind E; injection E as <- _ _; by right|..];
      (destruct (_ <? _); [|injection E as <- _ _; by right]); inv_bind E; destruct x as [rf1 args]; injection E as <- _ _; left;
      apply prepareElection_view in E0; injection E0 as -> _ _ _ _ _ _ _ _ _ _; lia.
  - by eapply deliver_X.
  - cbn in HS. inv_bind HS. destruct x as [src m]. inv_bind HS. pose proof (rl_net _ _ _ R _ (list_elem_of_lookup_2 _ _ _ E)) as Hm.
    eapply (callReturns_X (c <| net := delete k (net c) |>)); [done..| |done]. destruct m; cbn in *; simplify_eq; [|done]. split; [done|by intros ?].
  - cbn in HS. inv_bind HS. pose proof (list_elem_of_lookup_2 _ _ _ E) as Ha. eapply (callReturns_X (c <| acks := delete k (acks c) |>)); [done..| |done| |done].
    + intros a. cbn. by apply elem_of_delete.
    + destruct x as [src server args reply|]; [destruct (xi_acks _ _ _ X _ _ _ _ Ha) as (? & ? & _); done|exact (rl_acks _ _ _ R _ Ha)].
  - cbn in HS. inv_bind HS. inv_bind HS. inv_bind HS. rename x1 into rf, E1 into Hi. destruct x0; [done|]. inv_bind HS. destruct x0 as [rf' reply]. injection HS as <-.
    apply (XInv_set _ s' server rf'); [done|by destruct (rvr_VoteGranted reply)..|]. apply (stays_next server rf); [done|].
    eapply RequestVote_stays; [|done]. by apply (po_wf n s server), (rl_peer _ _ _ R).
  - by eapply VoteBack_X.
  - cbn in HS. inv_bind HS. destruct (_ || _); [done|]. inv_bind HS. injection HS as <-. apply XInv_same; by destruct x0.
  - cbn in HS. inv_bind HS. rename x into rf, E into Hi. destruct (negb _); [done|]. inv_bind HS. rename x into rf'. injection HS as <-.
    apply (XInv_set _ s' i rf'); [done..|]. destruct op as [cmd|idx d|t| |es|]; [|done|..].
    + cbn in E. apply fmap_Some in E as ([rf1 res] & HS & ->). apply (moved_next i rf); [done|]. right. by eapply Start_next.
    + apply (stays_next i rf); [done|]. eapply localOp_stays; [by apply (po_wf n s i), (rl_peer _ _ _ R)| |done]; done.
    + apply (stays_next i rf); [done|]. eapply localOp_stays; [by apply (po_wf n s i), (rl_peer _ _ _ R)| |done]; done.
    + apply (stays_next i rf); [done|]. eapply localOp_stays; [by apply (po_wf n s i), (rl_peer _ _ _ R)| |done]; done.
    + apply (stays_next i rf); [done|]. eapply localOp_stays; [by apply (po_wf n s i), (rl_peer _ _ _ R)| |done]; done.
Qed.
End step.

(** Both invariants, on every reachable cluster. *)
Definition Inv (n : Z) c : Prop := ∃ s, SInv n c s ∧ XInv n c s.

Lemma Inv_step n c c' : 0 < n → Inv n c → nstep c c' → Inv n c'.
Proof.
  intros Hn (s & [C V I R] & X) (ev & Hev & HS). destruct (cstep_follows n c ev c' C HS) as [HV C'].
  assert (VInv n (abs c')) as V' by (clear -V HV; induction HV; eauto using VInv_step).
  destruct (cstep_sim n c s ev c') as (s' & HR & I' & R'); [done..|]. exists s'. split; [by split|]. eapply (cstep_X n c s); done.
Qed.

Lemma Inv_reachable env n c : 0 < n → rtc nstep (init_cluster env n) c → Inv n c.
Proof.
  intros Hn HR. assert (Inv n (init_cluster env n)) as H0.
  { eexists. split; [by apply SInv_init|]. split; [intros i rf _ []%elem_of_nil|intros ? ? ? ? []%elem_of_nil]. }
  induction HR as [|c1 c2 c3 HS _ IH]; [done|]. apply IH. by eapply Inv_step.
Qed.

(** ** Rounds *)

(** A reply that comes back is handled: it never panics, and a conflict that still counts
    makes the next index smaller. *)
Lemma reply_handled n c s i L j args reply :
  RInv Term n s → Rel n c s → nodes c !! i = Some L → rpc_rel n s i (CallAppendEntries j args) → conflict_ok s args reply → 0 <= j < n →
  ∃ L' b, sendAppendEntries j args true reply L = Some (L', b) ∧
    (aer_Term reply < CurrentTerm L → L' = L) ∧
    (aer_Term reply = CurrentTerm L → ae_Term args = CurrentTerm L →
     (CurrentTerm L', log_view L', dead L') = (CurrentTerm L, log_view L, dead L) ∧
     ∀ p, index (NextIndex L) j = Some p → ∃ p', index (NextIndex L') j = Some p' ∧
       (aer_Success reply = true → p' = Z.max p (ae_PrevLogIndex args + zlen (ae_Entries args) + 1)) ∧
       (aer_Conflict reply = true → if p =? ae_PrevLogIndex args + 1 then 1 <= p' < p else p' = p)).
Proof.
  intros I R Hi Hrpc Hok Hj. pose proof (po_wf _ _ _ _ (rl_peer _ _ _ R _ _ Hi)) as W. destruct (po_me _ _ _ _ (rl_peer _ _ _ R _ _ Hi)) as (_ & Hnp & _).
  unfold sendAppendEntries. destruct (Z.ltb_spec (CurrentTerm L) (aer_Term reply)); [do 2 eexists; split_and!; [done|lia|lia]|].
  destruct (Z.ltb_spec (aer_Term reply) (CurrentTerm L)); [do 2 eexists; split_and!; [done|done|lia]|].
  destruct (Z.eqb_spec (CurrentTerm L) (ae_Term args)) as [HT|]; [|do 2 eexists; split_and!; [done|lia|congruence]].
  destruct (index_is_Some (MatchIndex L) j) as [m Hm]; [rewrite (wf_match _ W); lia|].
  destruct (index_is_Some (NextIndex L) j) as [p Hp]; [rewrite (wf_next _ W); lia|]. rewrite Hm, Hp. cbn [mbind option_bind].
  destruct (aer_Success reply) eqn:Hs.
  - rewrite !store_is_Some by (by eapply index_lt). do 2 eexists. split; [reflexivity|]. split; [lia|]. intros _ _. split; [done|].
    intros p0 [= <-]. eexists. split; [apply index_insert_eq; by eapply index_lt|]. rewrite max_Z. split; [done|]. intros Hc.
    destruct (Hok Hc) as (? & _). congruence.
  - destruct (aer_Conflict reply) eqn:Hc; [|do 2 eexists; split_and!; [done|lia|]; intros _ _; split; [done|]; intros p0 [= <-]; by exists p].
    destruct (Z.eqb_spec p (ae_PrevLogIndex args + 1)) as [Hpp|Hpp].
    + destruct (conflict_next n c s I R i L Hi j args reply Hrpc Hok Hc HT) as (p' & -> & Hb). cbn [mbind option_bind].
      rewrite store_is_Some by (by eapply index_lt). do 2 eexists. split; [reflexivity|]. split; [lia|]. intros _ _. split; [done|].
      intros p0 [= <-]. exists p'. split; [apply index_insert_eq; by eapply index_lt|]. split; [done|]. intros _. rewrite (proj2 (Z.eqb_eq _ _) Hpp). lia.
    + do 2 eexists. split; [reflexivity|]. split; [lia|]. intros _ _. split; [done|]. intros p0 [= <-]. exists p. split_and!; [done..|].
      intros _. by rewrite (proj2 (Z.eqb_neq _ _) Hpp).
Qed.

Lemma replicate_sends L j t k : wf L → SnapshotLastIncludedIndex L = 0 → next_ok L → CurrentTerm L = t →
  index (NextIndex L) j = Some k → k <= lastIndex L →
  ∃ args, replicateLog j t L = Some (Some [CallAppendEntries j args]).
Proof.
  intros W Hs HN HT Hk Hle. destruct (HN j k Hk) as [[Hk1 _] _]. destruct (index_is_Some (NextIndex L) (me L)) as [m Hm]; [rewrite (wf_next _ W); apply (wf_me _ W)|].
  destruct (HN _ _ Hm) as [_ Hme]. specialize (Hme eq_refl). unfold replicateLog. rewrite HT, Z.eqb_refl, Hk, Hm, Hs. cbn [negb mbind option_bind].
  destruct (Z.eqb_spec k m); [lia|]. destruct (Z.leb_spec k 0); [lia|]. unfold lastIndex in Hle. rewrite Hs in Hle.
  rewrite slice_from_drop by lia. cbn [mbind option_bind]. destruct (Z.eqb_spec k (0 + 1)); cbn [negb mbind option_bind]; [by eexists|].
  destruct (index_is_Some (Logs L) (k - 0 - 2)) as [e He]; [lia|]. rewrite He. by eexists.
Qed.

(** A round of [replicateLog], its request handled and its reply received at once. *)
Definition round (i j t : Z) (env : Env) (c : Cluster Cmd) : option (Cluster Cmd) :=
  c1 ← cstep (Replicate i j t) c; c2 ← cstep (Deliver (length (net c)) env) c1; cstep (Return 0 true) c2.
Fixpoint rounds (i j t : Z) (envs : list Env) (c : Cluster Cmd) : option (Cluster Cmd) :=
  match envs with [] => Some c | env :: envs => c ← round i j t env c; rounds i j t envs c end.

(** Agreement in the follower's own term: it has that part of the leader's log. *)
Lemma agreed_prefix n c s i L j F k : RInv Term n s → Rel n c s → nodes c !! i = Some L → (i, CurrentTerm L) ∈ loops c →
  nodes c !! j = Some F → CurrentTerm F = CurrentTerm L → (j, CurrentTerm L, k) ∈ agreed s → take k (Logs L) `prefix_of` Logs F.
Proof.
  intros I R Hi Hin Hj HT Hag. apply (rl_loops _ _ _ R) in Hin as (r & Hr & Hru). rewrite <-(leader_log n c s i L r I R Hi Hr Hru).
  destruct (ri_agreed _ _ _ I _ _ _ Hag) as (r' & ct & l & Hr' & _ & Hl & _ & Hst). rewrite (Rel_lookup _ _ _ _ _ R Hj), HT in Hl. injection Hl as <- <-.
  destruct (Hst r k Hr ltac:(lia)) as [?|(t' & ? & ? & _)]; [done|lia].
Qed.

Section round.
Context (n : Z) (Hn : 0 < n) c (HI : Inv n c) (i j t : Z) (L F : Raft Cmd) (k : Z).
Context (Hi : nodes c !! i = Some L) (HT : CurrentTerm L = t) (Hin : (i, t) ∈ loops c) (Hlive : killed L = false) (Hij : i ≠ j).
Context (Hj : nodes c !! j = Some F) (HF : CurrentTerm F <= t) (Hk : index (NextIndex L) j = Some k) (Hkl : k <= lastIndex L).

Lemma round_sends : ∃ args c1, cstep (Replicate i j t) c = Some c1 ∧ c1 = send i [CallAppendEntries j args] c ∧
  ae_Term args = t ∧ ae_PrevLogIndex args = k - 1 ∧ ae_PrevLogIndex args + zlen (ae_Entries args) = lastIndex L ∧ 1 <= k.
Proof.
  destruct HI as (s & [C V I R] & X). pose proof (rl_peer _ _ _ R _ _ Hi) as P. assert (next_ok L) as HN by (apply (xi_next _ _ _ X i L Hi); by rewrite HT).
  destruct (replicate_sends L j t k (po_wf _ _ _ _ P) (proj1 (po_snap _ _ _ _ P)) HN HT Hk Hkl) as (args & HRL). exists args. eexists. split.
  { cbn. rewrite Hi. cbn [mbind option_bind]. rewrite Hlive, bool_decide_true by done. destruct (Z.eqb_spec j i); [congruence|]. cbn. rewrite HRL. reflexivity. }
  split; [done|]. destruct (replicateLog_args _ _ _ _ (po_wf _ _ _ _ P) HRL) as (k0 & Hk0 & _ & Ht & Hp & Hr & _ & _ & Hlen & _).
  assert (k0 = k) as -> by congruence. destruct (HN j k Hk). split_and!; [done|done|lia|lia].
Qed.

(** One round: a follower that was behind in its term has reached the leader's; otherwise
    the next index gets smaller, or the follower has the leader's log. *)
Lemma round_spec env : ∃ c' L' F' k', round i j t env c = Some c' ∧ rtc nstep c c' ∧ loops c' = loops c ∧
  nodes c' !! i = Some L' ∧ (CurrentTerm L', log_view L', dead L') = (t, log_view L, dead L) ∧
  nodes c' !! j = Some F' ∧ CurrentTerm F' = t ∧ index (NextIndex L') j = Some k' ∧
  (CurrentTerm F < t ∧ k' = k ∨ CurrentTerm F = t ∧ (1 <= k' < k ∨ k' = lastIndex L + 1 ∧ Logs L `prefix_of` Logs F')).
Proof.
  destruct round_sends as (args & c1 & HS1 & Hc1 & Ha & Hp & Hlen & Hk1). assert (nstep c c1) as HN1 by by exists (Replicate i j t).
  pose proof (Inv_step n c c1 Hn HI HN1) as (s1 & [_ _ I1 R1] & _). assert (nodes c1 !! j = Some F) as Hj1 by by rewrite Hc1.
  assert (net c1 !! length (net c) = Some (i, CallAppendEntries j args)) as Hnet by (rewrite Hc1; cbn; by rewrite lookup_app_r, Nat.sub_diag).
  pose proof (rl_net _ _ _ R1 _ (list_elem_of_lookup_2 _ _ _ Hnet)) as Hrpc1. cbn [fst snd] in Hrpc1. pose proof Hrpc1 as (_ & _ & _ & _ & _ & _ & _ & Hcon & _).
  destruct (AppendEntries_cases env args F (po_wf _ _ _ _ (rl_peer _ _ _ R1 _ _ Hj1)) Hcon) as (F' & reply & HA & _).
  destruct (AppendEntries_term n c1 s1 R1 i j F env args F' reply Hj1 Hrpc1 HA) as [Hrt [(_ & ? & _)|(_ & HF' & Hsc)]]; [lia|].
  set (c2 := set_node j F' ((c1 <| net := delete (length (net c)) (net c1) |>) <| acks := AckAppendEntries i j args reply :: acks c1 |>)).
  assert (cstep (Deliver (length (net c)) env) c1 = Some c2) as HS2 by (cbn; rewrite Hnet; cbn; rewrite Hj1; cbn; rewrite HA; reflexivity).
  assert (nstep c1 c2) as HN2 by by exists (Deliver (length (net c)) env). pose proof (Inv_step n c c1 Hn HI HN1) as HI1.
  pose proof (Inv_step n c1 c2 Hn HI1 HN2) as (s2 & [_ _ I2 R2] & X2).
  assert (nodes c2 !! i = Some L) as Hi2 by (cbn; rewrite lookup_insert_ne by done; by rewrite Hc1).
  destruct (xi_acks _ _ _ X2 i j args reply) as (Hrpc & Hok & Hrange); [by left|].
  destruct (reply_handled n c2 s2 i L j args reply I2 R2 Hi2 Hrpc Hok Hrange) as (L' & b & HSend & Hold & Hnow).
  assert (cstep (Return 0 true) c2 = Some (set_node i L' (c2 <| acks := acks c1 |>))) as HS3 by (cbn; cbn in Hi2; rewrite Hi2; cbn; rewrite HSend; reflexivity).
  assert (nodes (set_node i L' (c2 <| acks := acks c1 |>)) !! j = Some F') as HjF by (cbn; rewrite lookup_insert_ne by done; apply lookup_insert_eq).
  enough (∃ k', index (NextIndex L') j = Some k' ∧ (CurrentTerm L', log_view L', dead L') = (t, log_view L, dead L) ∧
    (CurrentTerm F < t ∧ k' = k ∨ CurrentTerm F = t ∧ (1 <= k' < k ∨ k' = lastIndex L + 1 ∧ Logs L `prefix_of` Logs F'))) as (k' & Hk' & HL' & Hcase).
  { exists (set_node i L' (c2 <| acks := acks c1 |>)), L', F', k'. split_and!; try done.
    - unfold round. rewrite HS1. cbn [mbind option_bind]. rewrite HS2. exact HS3.
    - eapply rtc_l; [exact HN1|]. eapply rtc_l; [exact HN2|]. apply rtc_once. by exists (Return 0 true).
    - unfold c2. cbn. by rewrite Hc1.
    - apply lookup_insert_eq.
    - congruence. }
  destruct (Z.lt_ge_cases (CurrentTerm F) t) as [Hlt|Hge].
  { rewrite (Hold ltac:(lia)) in *. exists k. split_and!; [done|congruence|by left]. }
  destruct Hnow as [HL' Hnext]; [lia|congruence|]. destruct (Hnext k Hk) as (k' & Hk' & Hsu & Hco). rewrite HT in HL'.
  exists k'. split_and!; [done..|]. right. split; [lia|]. destruct (aer_Conflict reply) eqn:Hc; cbn in Hsc.
  - specialize (Hco eq_refl). rewrite (proj2 (Z.eqb_eq k _)) in Hco by lia. by left.
  - right. rewrite (Hsu Hsc). split; [lia|].
    destruct (rl_acks _ _ _ R2 (AckAppendEntries i j args reply)) as (m & Hm & Hag); [by left|done|lia|].
    assert (take m (Logs L) `prefix_of` Logs F') as Hpre.
    { apply (agreed_prefix n c2 s2 i L j F'); try done; [by rewrite HT; cbn; rewrite Hc1|by apply lookup_insert_eq|congruence|by rewrite HT, <-Ha]. }
    rewrite take_ge in Hpre; [done|]. destruct (po_snap _ _ _ _ (rl_peer _ _ _ R2 _ _ Hi2)) as [H0 _]. unfold lastIndex, zlen in Hlen, Hm. rewrite H0 in Hlen. lia.
Qed.
End round.

Lemma rounds_end n i j t (w : nat) : 0 < n → i ≠ j → ∀ c L F k envs, Inv n c →
  nodes c !! i = Some L → CurrentTerm L = t → (i, t) ∈ loops c → killed L = false →
  nodes c !! j = Some F → CurrentTerm F <= t → index (NextIndex L) j = Some k → k <= lastIndex L →
  (Z.to_nat k + (if decide (CurrentTerm F < t)%Z then 1 else 0) <= w <= length envs)%nat →
  ∃ m c' L' F', (1 <= m <= w)%nat ∧ rounds i j t (take m envs) c = Some c' ∧ rtc nstep c c' ∧
    nodes c' !! i = Some L' ∧ CurrentTerm L' = t ∧ Logs L' = Logs L ∧ index (NextIndex L') j = Some (lastIndex L' + 1) ∧
    nodes c' !! j = Some F' ∧ CurrentTerm F' = t ∧ Logs L' `prefix_of` Logs F'.
Proof.
  intros Hn Hij. induction w as [|w IH]; intros c L F k envs HI Hi HT Hin Hlive Hj HF Hk Hkl Hw.
  { destruct (round_sends n c HI i j t L k) as (_ & _ & _ & _ & _ & _ & _ & ?); try done. lia. }
  destruct envs as [|env envs]; [cbn in Hw; lia|]. cbn [length] in Hw.
  destruct (round_spec n Hn c HI i j t L F k) with (env := env) as (c1 & L1 & F1 & k1 & HR & Hsteps & Hlo & Hi1 & [= HT1 HL1 HS1 HS1' Hd1] & Hj1 & HF1 & Hk1 & Hcase); try done.
  assert (Inv n c1) as HI1. { clear -Hn HI Hsteps. induction Hsteps; [done|]. eauto using Inv_step. }
  assert (lastIndex L1 = lastIndex L) as HLL by (unfold lastIndex; congruence).
  assert (∀ k', k1 = k' → k' <= lastIndex L → (Z.to_nat k' <= w)%nat → ∃ m c' L' F', (1 <= m <= S w)%nat ∧ rounds i j t (take m (env :: envs)) c = Some c' ∧ rtc nstep c c' ∧
    nodes c' !! i = Some L' ∧ CurrentTerm L' = t ∧ Logs L' = Logs L ∧ index (NextIndex L') j = Some (lastIndex L' + 1) ∧
    nodes c' !! j = Some F' ∧ CurrentTerm F' = t ∧ Logs L' `prefix_of` Logs F') as Hmore.
  { intros k' -> Hle Hw'. destruct (IH c1 L1 F1 k' envs) as (m & c2 & L2 & F2 & Hm & HR2 & Hst2 & Hi2 & HT2 & HL2 & Hk2 & Hj2 & HF2 & Hpre); try done.
    - by rewrite Hlo.
    - unfold killed. by rewrite Hd1.
    - lia.
    - lia.
    - rewrite decide_False by lia. lia.
    - exists (S m), c2, L2, F2. split_and!; try done; [lia|lia| |by etrans|congruence]. cbn [take rounds]. by rewrite HR. }
  destruct Hcase as [[Hlt ->]|[Heq [Hb|[-> Hpre]]]].
  - rewrite decide_True in Hw by done. apply (Hmore k eq_refl); lia.
  - rewrite decide_False in Hw by lia. apply (Hmore k1 eq_refl); lia.
  - exists 1%nat, c1, L1, F1. rewrite HLL, HL1. split_and!; try done; try lia. cbn [take rounds]. by rewrite HR.
Qed.


End repair.

(** ** A run *)

Module RepairExamples.
Import ElectionExamples SafetyExamples.

(** Peer 2 wins term 2 with the vote of peer 1, whose log is empty. *)
Definition next_leader : list (Event Z) := [Tick 2 later2; Vote 2 1 later2; VoteBack 2 1 true; Local 2 (OpStart 8)].
Definition behind : Cluster Z := default c0 (run next_leader committed2).

Lemma behind_reached : rtc nstep (init_cluster (λ _, mkEnv 0 0) 3) behind.
Proof.
  etrans; [apply committed1_reached|]. etrans; [apply committed2_reached|].
  apply (run_nsteps next_leader); [repeat constructor|]. vm_compute. reflexivity.
Qed.

(** A round whose reply is under way when the leader gets another command. *)
Definition late_run : list (Event Z) := [Replicate 2 1 2; Deliver (length (net behind)) later2; Local 2 (OpStart 9)].
Definition late : Cluster Z := default c0 (run late_run behind).

Lemma late_reached : rtc nstep (init_cluster (λ _, mkEnv 0 0) 3) late.
Proof. etrans; [apply behind_reached|]. apply (run_nsteps late_run); [repeat constructor|]. vm_compute. reflexivity. Qed.

Definition repair : AppendEntriesArgs Z := mkAEArgs 2 2 1 1 [mkEntry 8 2 2] 1.
Definition refusal : AppendEntriesReply := mkAEReply 2 false true 0 0.


End RepairExamples.
