(* ===== verification/RaftFrame.v ===== *)
(** * What the events of a cluster leave alone

    The entries in the logs and messages of a cluster all come from the commands
    services gave it, and only the apply loop moves [LastApplied].  [kept] says both
    of one operation of a peer. *)

From S2P Require Import Prelude LabGob Persister Raft RaftLog RaftState Voting RaftElection Replication RaftSafety.

Section frame.
Context {Cmd : Type} `{!Gob (PersistentState Cmd)} (P : Cmd → Prop).
Implicit Types (rf : Raft Cmd) (c : Cluster Cmd).

Definition from (l : list (RaftLogEntry Cmd)) : Prop := Forall (P ∘ Command) l.

Definition kept rf rf' : Prop := LastApplied rf' = LastApplied rf ∧ (from (Logs rf) → from (Logs rf')).

Lemma kept_same rf rf' : LastApplied rf' = LastApplied rf → Logs rf' = Logs rf → kept rf rf'.
Proof. intros H1 H2. split; [done|by rewrite H2]. Qed.

Lemma kept_trans rf rf1 rf' : kept rf rf1 → kept rf1 rf' → kept rf rf'.
Proof. intros [H1 H2] [H3 H4]. split; [congruence|auto]. Qed.

Lemma stepDown_kept t rf : kept rf (stepDown t rf).
Proof. by apply kept_same. Qed.

Lemma acceptLeader_kept env t rf rf1 ch : acceptLeader env t rf = (rf1, ch) → kept rf rf1.
Proof.
  intros Ha. destruct (acceptLeader_frame _ _ _ _ _ Ha) as (V & _ & _ & HA & _).
  apply log_view_eq in V as (HL & _). by apply kept_same.
Qed.

(** Of the entries sent, a suffix is appended. *)
Lemma skipMatching_from logs idx es j rest : skipMatching logs idx es = Some (j, rest) → from es → from rest.
Proof.
  revert idx. induction es as [|e es IH]; intros idx HS HF; cbn in HS; [by simplify_eq|].
  inversion HF as [|? ? HF1 HF2]. destruct (_ <? zlen logs); [|by simplify_eq].
  destruct (idx <? 0); [by eapply IH|]. inv_bind HS. destruct (_ || _); [by simplify_eq|by eapply IH].
Qed.

Lemma mergeEntries_kept args rf rf' ch : from (ae_Entries args) → mergeEntries args rf = Some (rf', ch) → kept rf rf'.
Proof.
  intros HE HM. unfold mergeEntries in HM. destruct (_ =? 0); [injection HM as <- _; by apply kept_same|].
  inv_bind HM. destruct x as [j rest]. inv_bind HM. destruct x as [rf1 ch1]. injection HM as <- _.
  apply skipMatching_from in E; [|done]. destruct (0 <? zlen rest); [|injection E0 as <- _; by apply kept_same].
  inv_bind E0. injection E0 as <- _. split; [done|]. cbn. intros HF. apply Forall_app. split; [|done].
  apply slice_Some in E1 as (_ & _ & ->). by apply Forall_take, Forall_drop.
Qed.

Lemma AppendEntries_kept env args rf rf' reply :
  from (ae_Entries args) → AppendEntries env args rf = Some (rf', reply) → kept rf rf'.
Proof.
  intros HE HA. unfold AppendEntries in HA. destruct (_ <? _); [injection HA as <- _; by apply kept_same|].
  destruct (acceptLeader _ _ _) as [rf1 ch] eqn:Ha. apply acceptLeader_kept in Ha. inv_bind HA.
  destruct x; [by injection HA as <- _|]. inv_bind HA. destruct x as [rf2 ch2]. injection HA as <- _.
  apply mergeEntries_kept in E0; [|done]. eapply kept_trans; [done|]. eapply kept_trans; [done|].
  unfold advanceCommit. apply kept_same; by destruct (_ <? _), (ch || ch2).
Qed.

(** A snapshot of nothing installs nothing. *)
Lemma InstallSnapshot_kept env args rf rf' reply :
  is_LastIncludedIndex args = 0 → SnapshotLastIncludedIndex rf = 0 → InstallSnapshot env args rf = Some (rf', reply) → kept rf rf'.
Proof.
  intros H0 Hs HI. unfold InstallSnapshot in HI. destruct (_ <? _); [injection HI as <- _; by apply kept_same|].
  destruct (acceptLeader _ _ _) as [rf1 ch] eqn:Ha. pose proof (acceptLeader_frame _ _ _ _ _ Ha) as (V & _).
  apply log_view_eq in V as (_ & ES & _). rewrite H0, ES, Hs in HI. cbn [Z.leb Z.compare orb] in HI.
  injection HI as <- _. eapply kept_trans; [by eapply acceptLeader_kept|]. by apply kept_same.
Qed.

Lemma sendAppendEntries_kept server args ok reply rf rf' b :
  sendAppendEntries server args ok reply rf = Some (rf', b) → kept rf rf'.
Proof.
  unfold sendAppendEntries. intros HS. destruct (_ <? _); [injection HS as <- _; apply stepDown_kept|].
  repeat (case_match; [|]); repeat (inv_bind HS); try case_match; repeat (inv_bind HS); simplify_eq; by apply kept_same.
Qed.

Lemma sendInstallSnapshot_kept server args ok reply rf rf' b :
  sendInstallSnapshot server args ok reply rf = Some (rf', b) → kept rf rf'.
Proof.
  unfold sendInstallSnapshot. intros HS. destruct (_ <? _); [injection HS as <- _; apply stepDown_kept|].
  repeat (case_match; [|]); repeat (inv_bind HS); simplify_eq; by apply kept_same.
Qed.

Lemma RequestVote_kept env args rf rf' reply : RequestVote env args rf = Some (rf', reply) → kept rf rf'.
Proof.
  unfold RequestVote. intros HV. destruct (_ <? _); [injection HV as <- _; by apply kept_same|].
  set (rf1 := if _ <? _ then _ else _) in HV.
  assert (kept rf rf1) as HK by (unfold rf1; destruct (_ <? _); [apply stepDown_kept|by apply kept_same]). clearbody rf1.
  destruct (_ || _); [|by injection HV as <- _]. inv_bind HV. destruct x as [li lt].
  destruct (_ <? _); [by injection HV as <- _|]. destruct (_ && _); [by injection HV as <- _|].
  injection HV as <- _. eapply kept_trans; [done|]. by apply kept_same.
Qed.

Lemma commitScan_kept t rf n rf' : commitScan t rf n = Some rf' → kept rf rf'.
Proof.
  induction n as [|n IH]; cbn; intros HC; [injection HC as <-; by apply kept_same|]. inv_bind HC.
  destruct (negb _); [injection HC as <-; by apply kept_same|]. inv_bind HC.
  destruct (_ <? _); [injection HC as <-; by apply kept_same|auto].
Qed.

(** What a peer sends. *)
Definition rpc_from (m : Rpc Cmd) : Prop := match m with CallAppendEntries _ args => from (ae_Entries args) | _ => True end.

Lemma sendHeartBeat_from rf calls : sendHeartBeat rf = Some calls → Forall rpc_from calls.
Proof.
  intros HS. apply Forall_forall. intros m Hm. unfold sendHeartBeat in HS. apply mapM_Some in HS.
  apply list_elem_of_lookup in Hm as [k Hk]. destruct (Forall2_lookup_r _ _ _ _ _ HS Hk) as (i & _ & Hi).
  inv_bind Hi. injection Hi as <-. unfold heartBeatArgs in E. inv_bind E. inv_bind E. destruct x1. injection E as <-.
  cbn. constructor.
Qed.

Lemma replicateLog_from server t rf calls : from (Logs rf) → replicateLog server t rf = Some (Some calls) → Forall rpc_from calls.
Proof.
  intros HF HR. unfold replicateLog in HR. destruct (negb _); [done|]. inv_bind HR. inv_bind HR.
  destruct (_ =? _); [injection HR as <-; constructor|]. destruct (_ <=? _); [injection HR as <-; by repeat constructor|].
  inv_bind HR. inv_bind HR. destruct x2. injection HR as <-. constructor; [|constructor]. cbn.
  apply slice_Some in E1 as (_ & _ & ->). by apply Forall_take, Forall_drop.
Qed.

Lemma becomeLeader_kept rf rf' calls : becomeLeader rf = Some (rf', calls) → kept rf rf' ∧ Forall rpc_from calls.
Proof.
  unfold becomeLeader. intros HB. inv_bind HB. destruct x. inv_bind HB. inv_bind HB. injection HB as <- <-.
  split; [by apply kept_same|by eapply sendHeartBeat_from].
Qed.

Lemma voteReply_kept ok reply el rf rf' el' won calls :
  voteReply ok reply el rf = Some (rf', el', won, calls) → kept rf rf' ∧ Forall rpc_from calls.
Proof.
  unfold voteReply. intros HV.
  assert (∀ r, r = rf' → kept rf r → calls = [] → kept rf rf' ∧ Forall rpc_from calls) as Hstop by (intros ? -> ? ->; auto using Forall_nil).
  destruct (negb ok); [injection HV as <- _ _ <-; eapply Hstop; [done|by apply kept_same|done]|].
  destruct (rvr_VoteGranted reply).
  - destruct (_ || _); [injection HV as <- _ _ <-; eapply Hstop; [done|by apply kept_same|done]|].
    destruct (negb _); [injection HV as <- _ _ <-; eapply Hstop; [done|by apply kept_same|done]|].
    inv_bind HV. destruct x as [r cs]. injection HV as <- _ _ <-. apply becomeLeader_kept in E as [[? ?] ?]. by split.
  - destruct (_ <? _); injection HV as <- _ _ <-; (eapply Hstop; [done|by apply kept_same|done]).
Qed.

Lemma prepareElection_kept env rf rf' args : prepareElection env rf = Some (rf', args) → kept rf rf'.
Proof. unfold prepareElection. intros HP. inv_bind HP. destruct x. injection HP as <- _. by apply kept_same. Qed.

Lemma issueLeaderElection_from args rf : Forall rpc_from (issueLeaderElection args rf).2.
Proof. apply Forall_fmap, Forall_forall. done. Qed.

Lemma ticker_kept env rf rf' el calls : ticker env rf = Some (rf', el, calls) → kept rf rf' ∧ Forall rpc_from calls.
Proof.
  unfold ticker. intros HT. destruct (State rf).
  2,3: destruct (_ <? _); [|injection HT as <- _ <-; split; [by apply kept_same|constructor]].
  2,3: inv_bind HT; destruct x as [r args]; pose proof (issueLeaderElection_from args r) as HI;
    destruct (issueLeaderElection args r); injection HT as <- _ <-; split; [by eapply prepareElection_kept|done].
  inv_bind HT. injection HT as <- _ <-. split; [by apply kept_same|by eapply sendHeartBeat_from].
Qed.

Lemma Start_kept cmd rf rf' ret : P cmd → Start cmd rf = Some (rf', ret) → kept rf rf'.
Proof.
  intros HP HS. unfold Start in HS. destruct (negb _); [injection HS as <- _; by apply kept_same|].
  inv_bind HS. inv_bind HS. inv_bind HS. injection HS as <- _. split; [done|]. cbn. intros HF.
  apply Forall_app. split; [done|]. by constructor.
Qed.

(** ** The events *)

(** The peers' logs and the requests in flight hold commands of [P]. *)
Record cluster_from c : Prop := {
  cf_logs : ∀ i rf, nodes c !! i = Some rf → from (Logs rf);
  cf_net : ∀ m, m ∈ net c → rpc_from m.2;
}.

Definition nodes_kept c c' : Prop :=
  ∀ j rf', nodes c' !! j = Some rf' → ∃ rf, nodes c !! j = Some rf ∧ kept rf rf'.

(** An event in which no service hands a peer a snapshot or a command outside [P],
    and no apply loop ends its round. *)
Definition quiet (ev : Event Cmd) : Prop :=
  match ev with
  | Local _ (OpStart cmd) => P cmd
  | Local _ (OpSnapshot _ _) | Local _ (OpApplyDone _) => False
  | _ => True
  end.

Lemma nodes_kept_set i rf rf' c c' :
  nodes c !! i = Some rf → kept rf rf' → nodes c' = <[i := rf']> (nodes c) → nodes_kept c c'.
Proof.
  intros Hi HK Hc j r Hj. rewrite Hc in Hj. apply lookup_insert_Some in Hj as [[<- <-]|[_ Hj]]; [by exists rf|].
  exists r. split; [done|by apply kept_same].
Qed.

Lemma cluster_from_kept c c' :
  cluster_from c → nodes_kept c c' → (∀ m, m ∈ net c' → m ∈ net c ∨ rpc_from m.2) → cluster_from c'.
Proof.
  intros [C1 C2] HN Hm. split; [|by intros m [?|?]%Hm; auto].
  intros i rf' (rf & Hi & _ & HF)%HN. by apply HF, (C1 i).
Qed.

Lemma net_send i calls c m : Forall rpc_from calls → m ∈ net (send i calls c) → m ∈ net c ∨ rpc_from m.2.
Proof.
  intros HF [?|(r & -> & Hr)%list_elem_of_fmap]%elem_of_app; [by left|right]. rewrite Forall_forall in HF. by apply HF.
Qed.

Lemma callReturns_kept ok a c c' : callReturns ok a c = Some c' → nodes_kept c c' ∧ net c' = net c.
Proof.
  destruct a; cbn; intros HC; inv_bind HC; inv_bind HC; destruct x0; injection HC as <-; (split; [|done]);
    (eapply nodes_kept_set; [done| |done]); [by eapply sendAppendEntries_kept|by eapply sendInstallSnapshot_kept].
Qed.

Lemma localOp_kept op rf rf' : quiet (Local 0 op) → localOp op rf = Some rf' → kept rf rf'.
Proof.
  destruct op; cbn; intros HQ HO; try done.
  - apply fmap_Some in HO as ([r ret] & HS & ->). by eapply Start_kept.
  - apply fmap_Some in HO as (r & HU & ->). unfold updateCommitIndex in HU.
    destruct (negb _); [injection HU as <-; by apply kept_same|]. inv_bind HU. injection HU as <-. by eapply commitScan_kept.
  - inv_bind HO. destruct x as [[r ms] es]. injection HO as <-. unfold applyLogTake in E. inv_bind E. injection E as <- _ _. by apply kept_same.
  - injection HO as <-. by apply kept_same.
Qed.

Lemma deliver_kept n c s env src r c' :
  Rel n c s → rpc_rel n s src r → rpc_from r → deliver env src r c = Some c' → nodes_kept c c' ∧ net c' = net c.
Proof.
  intros HR Hrel Hfrom HD. destruct r as [server args|server args|]; [| |done]; cbn in HD; inv_bind HD; inv_bind HD;
    destruct x0 as [r reply]; injection HD as <-; (split; [|done]); (eapply nodes_kept_set; [done| |done]).
  - by eapply AppendEntries_kept.
  - eapply InstallSnapshot_kept; [exact Hrel| |done]. apply (po_snap _ _ _ _ (rl_peer _ _ _ HR _ _ E)).
Qed.

(** Without snapshots, nothing but the end of a round of the apply loop moves
    [LastApplied], and the cluster holds only commands it was given. *)
Lemma cstep_kept n c s ev c' :
  Rel n c s → quiet ev → cluster_from c → cstep ev c = Some c' → cluster_from c' ∧ nodes_kept c c'.
Proof.
  intros HR HQ HF HS.
  assert (∀ c1, nodes_kept c c1 → (∀ m, m ∈ net c1 → m ∈ net c ∨ rpc_from m.2) → cluster_from c1 ∧ nodes_kept c c1) as Hdone.
  { intros c1 HN Hm. split; [by eapply cluster_from_kept|done]. }
  destruct ev as [i env|k env|k|k ok|k server env|k server ok|i server t|i op]; cbn in HS.
  - inv_bind HS. destruct (killed x); [done|]. inv_bind HS. destruct x0 as [[rf' el] calls].
    apply ticker_kept in E0 as [HK Hc]. injection HS as <-. destruct el; apply Hdone;
      try (by eapply nodes_kept_set); [by left|]. intros m Hm. by apply (net_send i calls) in Hm.
  - inv_bind HS. destruct x as [src r]. pose proof (list_elem_of_lookup_2 _ _ _ E) as Hin.
    eapply deliver_kept in HS as [HN Hnet]; [apply Hdone; [done|]|by apply Rel_net_drop|by apply (rl_net _ _ _ HR _ Hin)|by apply (cf_net _ HF _ Hin)].
    intros m. rewrite Hnet. cbn. intros ?%elem_of_delete. by left.
  - inv_bind HS. destruct x as [src r]. inv_bind HS. apply callReturns_kept in HS as [HN Hnet]. apply Hdone; [done|].
    intros m. rewrite Hnet. cbn. intros ?%elem_of_delete. by left.
  - inv_bind HS. apply callReturns_kept in HS as [HN Hnet]. apply Hdone; [done|]. intros m. rewrite Hnet. by left.
  - inv_bind HS. inv_bind HS. inv_bind HS. destruct x0; [done|]. inv_bind HS. destruct x0 as [r reply].
    apply RequestVote_kept in E2. injection HS as <-. destruct (rvr_VoteGranted reply); apply Hdone; try (by eapply nodes_kept_set); by left.
  - inv_bind HS. inv_bind HS. inv_bind HS. inv_bind HS. inv_bind HS. destruct x3 as [[[r el] won] calls].
    apply voteReply_kept in E3 as [HK Hc]. injection HS as <-. destruct won; apply Hdone; try (by eapply nodes_kept_set);
      intros m Hm; eapply net_send in Hm; [done|done|done|done].
  - inv_bind HS. destruct (_ || _); [done|]. inv_bind HS. injection HS as <-.
    assert (nodes_kept c c) as HN by (intros j r Hj; exists r; split; [done|by apply kept_same]).
    destruct x0 as [calls|]; apply Hdone; try done; [|by left]. intros m Hm. eapply net_send; [|done].
    eapply replicateLog_from; [|done]. by eapply cf_logs.
  - inv_bind HS. destruct (negb _); [done|]. inv_bind HS. injection HS as <-. apply Hdone; [|by left].
    eapply nodes_kept_set; [done|by eapply localOp_kept|done].
Qed.

End frame.
