(* ===== verification/ApplyStream.v ===== *)
(** * What the services of a cluster are sent

    The apply loops of a cluster without snapshots send all services parts of one
    log, each from its start, in order and without gaps.  [CRel] ties the cluster to
    the committed log, [round_ok] a round of an apply loop. *)

From S2P Require Import Prelude LabGob Persister Raft RaftLog RaftState Voting RaftElection Replication RaftSafety RaftFrame.

(** A round of an apply loop between its two critical sections: the messages still to
    be sent and the entries it covers. *)
Notation Round Cmd := (list (ApplyMsg Cmd) * list (RaftLogEntry Cmd))%type.

Section stream.
Context {Cmd : Type} `{!Gob (PersistentState Cmd)} (P : Cmd → Prop).
Implicit Types (rf r : Raft Cmd) (c : Cluster Cmd) (s : RState (RaftLogEntry Cmd)) (L : list (RaftLogEntry Cmd)).

(** ** The committed log *)

(** [L] is what the cluster has committed so far: every peer's commit index lies in
    it, and all of it is safe in the machine of [Replication]. *)
Record CRel (n : Z) c s L : Prop := {
  cr_raft : SInv n c s;
  cr_from : cluster_from P c;
  cr_safe : ∃ t, safe Term n s t L;
  cr_committed : ∀ i r, nodes c !! i = Some r → take (Z.to_nat (CommitIndex r)) (Logs r) `prefix_of` L;
  cr_sent : ∀ e, e ∈ L → P (Command e);
}.

(** Of comparable lists, one has the others as prefixes. *)
Lemma longest {A} (l0 : list A) (ls : list (list A)) :
  (∀ l l', l ∈ l0 :: ls → l' ∈ l0 :: ls → l `prefix_of` l' ∨ l' `prefix_of` l) →
  ∃ l, l ∈ l0 :: ls ∧ ∀ l', l' ∈ l0 :: ls → l' `prefix_of` l.
Proof.
  induction ls as [|l1 ls IH]; intros Hc; [exists l0; split; [by left|]; by intros l' ->%list_elem_of_singleton|].
  destruct IH as (l & Hl & Hmax); [intros; apply Hc; set_solver|].
  destruct (Hc l l1) as [Hp|Hp]; [set_solver|set_solver| |].
  - exists l1. split; [set_solver|]. intros l' [->|[->|Hl']%elem_of_cons]%elem_of_cons; [etrans; [apply Hmax; set_solver|done]|done|].
    etrans; [apply Hmax; set_solver|done].
  - exists l. split; [set_solver|]. intros l' [->|[->|Hl']%elem_of_cons]%elem_of_cons; [apply Hmax; set_solver|done|apply Hmax; set_solver].
Qed.

Lemma CRel_step n c s L ev c' :
  0 < n → CRel n c s L → snapshot_free ev → cstep ev c = Some c' → cluster_from P c' →
  ∃ s' L', CRel n c' s' L' ∧ L `prefix_of` L'.
Proof.
  intros Hn [HI HF [t Hsafe] Hc Hsent] Hev HS HF'.
  destruct (SInv_step n c s c' Hn HI) as (s' & HR & HI'); [by exists ev|].
  destruct HI as [_ _ I0 _]. pose proof HI' as [_ _ I R].
  set (com := λ r : Raft Cmd, take (Z.to_nat (CommitIndex r)) (Logs r)).
  assert (∀ l, l ∈ L :: (com <$> (map_to_list (nodes c')).*2) → ∃ u, safe Term n s' u l) as Hs.
  { intros l [->|(r & -> & ([i r'] & -> & Hi%elem_of_map_to_list)%list_elem_of_fmap)%list_elem_of_fmap]%elem_of_cons.
    - exists t. eapply safe_rtc; [exact I0|exact HR|done|lia].
    - eexists. apply (po_safe _ _ _ _ (rl_peer _ _ _ R _ _ Hi)). }
  destruct (longest L (com <$> (map_to_list (nodes c')).*2)) as (L' & HL' & Hmax).
  { intros l l' [u Hu]%Hs [u' Hu']%Hs. by eapply safe_comparable. }
  assert (∀ i r, nodes c' !! i = Some r → com r `prefix_of` L') as Hcom.
  { intros i r Hi. apply Hmax. right. apply list_elem_of_fmap_2, list_elem_of_fmap. exists (i, r). split; [done|by apply elem_of_map_to_list]. }
  exists s', L'. split; [|apply Hmax; by left]. split; [done|done|by apply Hs|done|].
  intros e He. apply elem_of_cons in HL' as [->|(r & -> & ([i r'] & -> & Hi%elem_of_map_to_list)%list_elem_of_fmap)%list_elem_of_fmap]; [by apply Hsent|].
  pose proof (cf_logs _ _ HF' _ _ Hi) as HFr. unfold from in HFr. rewrite Forall_forall in HFr. apply HFr.
  apply elem_of_take in He as (? & ? & _). by eapply list_elem_of_lookup_2.
Qed.

(** ** Rounds of the apply loop *)

(** The two critical sections of a round at peer [i]. *)
Definition takeRound (i : Z) c (rounds : gmap Z (Round Cmd)) : option (Cluster Cmd * gmap Z (Round Cmd)) :=
  r ← nodes c !! i;
  match rounds !! i with
  | Some _ => None
  | None =>
    if killed r || applyWaits r then None
    else
      '(r, msgs, es) ← applyLogTake r;
      Some (set_node i r c, <[i := (msgs, es)]> rounds)
  end.

Definition endRound (i : Z) c (rounds : gmap Z (Round Cmd)) : option (Cluster Cmd * gmap Z (Round Cmd)) :=
  r ← nodes c !! i;
  match rounds !! i with
  | Some ([], es) => Some (set_node i (applyLogDone es r) c, delete i rounds)
  | _ => None
  end.

(** A service has been sent the first [k] commands of the log: those up to its peer's
    applied index and, in a round, those already sent in it. *)
Definition round_ok L (round : option (Round Cmd)) rf (k : nat) : Prop :=
  ∃ l1 es l2 (d : nat), L = l1 ++ es ++ l2 ∧ LastApplied rf = zlen l1 ∧ (d <= length es)%nat ∧
    contiguous (zlen l1) es ∧ k = (length l1 + d)%nat ∧
    match round with
    | None => es = []
    | Some (msgs, es') => es' = es ∧ msgs = commandMsg <$> drop d es
    end.

Lemma round_le L round rf k : round_ok L round rf k → LastApplied rf <= Z.of_nat k <= zlen L.
Proof.
  intros (l1 & es & l2 & d & -> & Ha & Hd & _ & -> & _). rewrite Ha. unfold zlen. rewrite !length_app. lia.
Qed.

Lemma round_prefix L L' round rf rf' k :
  L `prefix_of` L' → LastApplied rf' = LastApplied rf → round_ok L round rf k → round_ok L' round rf' k.
Proof.
  intros [x ->] Ha (l1 & es & l2 & d & -> & Hl & Hd & Hc & -> & Hr). exists l1, es, (l2 ++ x), d.
  split_and!; [by rewrite <-!app_assoc|congruence|done|done|done|done].
Qed.

(** A round begins with the committed entries not yet applied. *)
Lemma round_take n c s L L' i r r' msgs es k :
  CRel n c s L → nodes c !! i = Some r → applyLogTake r = Some (r', msgs, es) → L `prefix_of` L' →
  round_ok L None r k → round_ok L' (Some (msgs, es)) r' k.
Proof.
  intros HC Hr HT HL (l1 & es0 & l2 & d & HLeq & Ha & Hd & _ & -> & ->). cbn in Hd. assert (d = 0%nat) as -> by lia.
  pose proof (rl_peer _ _ _ (si_rel _ _ _ (cr_raft _ _ _ _ HC)) _ _ Hr) as PO.
  pose proof (po_commit _ _ _ _ PO) as Hc. destruct (po_snap _ _ _ _ PO) as [Hs0 _]. destruct (po_me _ _ _ _ PO) as (_ & _ & Hm).
  assert (SnapshotLastIncludedIndex r <= LastApplied r) as Hle by (rewrite Ha, Hs0; unfold zlen; lia).
  assert (CommitIndex r <= lastIndex r) as Hci by (unfold lastIndex; lia).
  rewrite (applyLogTake_eq r Hle Hci), Hm in HT. cbn in HT. injection HT as <- <- <-.
  rewrite filter_all by (intros; by left). pose proof (cr_committed _ _ _ _ HC _ _ Hr) as HP.
  pose proof (toApply_contiguous r (po_wf _ _ _ _ PO) Hle Hci) as Hcon. rewrite Ha in Hcon.
  assert (take (Z.to_nat (CommitIndex r)) (Logs r) `prefix_of` L') as [l3 HL'] by (by etrans).
  assert (toApply r = drop (length l1) (take (Z.to_nat (CommitIndex r)) (Logs r))) as HA.
  { unfold toApply. rewrite Hs0, Ha, Z.sub_0_r, skipn_firstn_comm. unfold zlen. f_equal; [lia|]. f_equal. lia. }
  set (C := take (Z.to_nat (CommitIndex r)) (Logs r)) in *.
  destruct (decide (length l1 <= length C)%nat) as [Hlen|Hlen].
  - assert (take (length l1) C = l1) as Hl1.
    { destruct HP as [x Hx]. rewrite HLeq in Hx. cbn in Hx. clear -Hx Hlen.
      assert (take (length l1) (l1 ++ l2) = take (length l1) (C ++ x)) as HT by congruence.
      rewrite take_app_length, take_app_le in HT by done. done. }
    exists l1, (toApply r), l3, 0%nat. split_and!; [|done|lia|done|done|done|by rewrite drop_0].
    rewrite HA, HL'. rewrite app_assoc. f_equal. rewrite <-Hl1 at 1. by rewrite take_drop.
  - rewrite HA, drop_ge by lia. cbn. destruct HL as [y ->]. exists l1, [], (l2 ++ y), 0%nat.
    split_and!; [by rewrite HLeq, <-app_assoc|done|done| |done|done|done]. by intros q e He%index_elem_of%elem_of_nil.
Qed.

(** The next message is the next command of the log. *)
Lemma round_receive L m msgs es rf k :
  round_ok L (Some (m :: msgs, es)) rf k →
  ∃ e, L !! k = Some e ∧ Index e = Z.of_nat k + 1 ∧ m = commandMsg e ∧ round_ok L (Some (msgs, es)) rf (S k).
Proof.
  intros (l1 & es0 & l2 & d & -> & Ha & Hd & Hcon & -> & -> & Hmsgs).
  destruct (drop d es0) as [|e rest] eqn:Hdrop; [done|]. injection Hmsgs as -> ->.
  assert (es0 !! d = Some e) as He by (rewrite <-(Nat.add_0_r d), <-lookup_drop, Hdrop; done).
  pose proof (lookup_lt_Some _ _ _ He) as Hlt. exists e. split_and!; [| |done|].
  - rewrite lookup_app_r, lookup_app_l by lia. by replace (length l1 + d - length l1)%nat with d by lia.
  - rewrite (Hcon (Z.of_nat d) e); [unfold zlen; lia|]. by rewrite index_lookup, Nat2Z.id by lia.
  - exists l1, es0, l2, (S d). split_and!; [done|done|lia|done|lia|done|].
    rewrite (drop_S _ _ _ He) in Hdrop. by injection Hdrop as ->.
Qed.

(** The end of a round moves the applied index over it. *)
Lemma round_end L es rf k : round_ok L (Some ([], es)) rf k → round_ok L None (applyLogDone es rf) k.
Proof.
  intros (l1 & es0 & l2 & d & -> & Ha & Hd & Hcon & -> & -> & Hmsgs). symmetry in Hmsgs. apply fmap_nil_inv in Hmsgs.
  assert (d = length es0) as -> by (assert (length (drop d es0) = 0%nat) as H0 by (by rewrite Hmsgs); rewrite length_drop in H0; lia).
  exists (l1 ++ es0), [], l2, 0%nat. split_and!; [by rewrite <-!app_assoc| |done| |rewrite length_app; lia|done];
    [|by intros q e He%index_elem_of%elem_of_nil].
  unfold applyLogDone, last_entry. destruct (index es0 (zlen es0 - 1)) as [e|] eqn:He.
  - pose proof (index_lt _ _ _ He). cbn. rewrite (Hcon _ _ He), max_Z, zlen_app. lia.
  - destruct (Z.eq_dec (zlen es0) 0) as [Hz|Hz]; [by rewrite (zlen_0_nil _ Hz), app_nil_r|].
    destruct (index_is_Some es0 (zlen es0 - 1)) as [e He']; [zlen_lia|congruence].
Qed.

(** ** Steps of the cluster *)

(** Peers move and the services do not. *)
Lemma CRel_quiet n c s L ev c' :
  0 < n → CRel n c s L → snapshot_free ev → quiet P ev → cstep ev c = Some c' →
  ∃ s' L', CRel n c' s' L' ∧ L `prefix_of` L' ∧
    ∀ i r', nodes c' !! i = Some r' → ∃ r, nodes c !! i = Some r ∧ LastApplied r' = LastApplied r.
Proof.
  intros Hn HC Hev HQ HS.
  destruct (cstep_kept _ _ _ _ _ _ (si_rel _ _ _ (cr_raft _ _ _ _ HC)) HQ (cr_from _ _ _ _ HC) HS) as [HF HN].
  destruct (CRel_step _ _ _ _ _ _ Hn HC Hev HS HF) as (s' & L' & HC' & HL). exists s', L'. split_and!; [done|done|].
  intros i r' (r & Hr & Ha & _)%HN. eauto.
Qed.

(** What a local operation of peer [i] gives. *)
Lemma local_step c i (lo : LocalOp Cmd) r r' :
  nodes c !! i = Some r → running lo i r c = true → localOp lo r = Some r' → cstep (Local i lo) c = Some (set_node i r' c).
Proof. intros Hr Hrun Hop. cbn. rewrite Hr. cbn. by rewrite Hrun, Hop. Qed.

Lemma CRel_done n c s L i r es :
  0 < n → CRel n c s L → nodes c !! i = Some r →
  ∃ s' L', CRel n (set_node i (applyLogDone es r) c) s' L' ∧ L `prefix_of` L'.
Proof.
  intros Hn HC Hr. set (r' := applyLogDone es r). assert (Logs r' = Logs r) as Hlogs by (unfold r', applyLogDone; by case_match).
  apply (CRel_step n c s L (Local i (OpApplyDone es))); [done|done|done|by eapply local_step|].
  split; [|apply HC]. cbn. intros j q [[<- <-]|[_ Hj]]%lookup_insert_Some; [rewrite Hlogs|];
    by apply (cf_logs _ _ (cr_from _ _ _ _ HC) _ _ ltac:(eassumption)).
Qed.

Lemma set_node_dom i r r' j c : nodes c !! i = Some r → is_Some (nodes (set_node i r' c) !! j) → is_Some (nodes c !! j).
Proof.
  intros Hi [x Hx]. cbn in Hx. destruct (decide (i = j)) as [<-|Hne]; [by eexists|]. rewrite lookup_insert_ne in Hx by done. by eexists.
Qed.

Lemma takeRound_dom i c rounds c' rounds' j :
  takeRound i c rounds = Some (c', rounds') → is_Some (nodes c' !! j) → is_Some (nodes c !! j).
Proof.
  unfold takeRound. intros HT. inv_bind HT. destruct (rounds !! i); [done|]. destruct (_ || _); [done|]. inv_bind HT.
  destruct x0 as [[? ?] ?]. injection HT as <- _. by eapply set_node_dom.
Qed.

Lemma endRound_dom i c rounds c' rounds' j :
  endRound i c rounds = Some (c', rounds') → is_Some (nodes c' !! j) → is_Some (nodes c !! j).
Proof.
  unfold endRound. intros HT. inv_bind HT. destruct (rounds !! i) as [[[] ?]|]; try done. injection HT as <- _. by eapply set_node_dom.
Qed.

(** Both keep every service's place in the log. *)
Lemma takeRound_ok n c s L i rounds c' rounds' :
  0 < n → CRel n c s L → takeRound i c rounds = Some (c', rounds') →
  ∃ s' L', CRel n c' s' L' ∧ L `prefix_of` L' ∧
    ∀ j r' k, nodes c' !! j = Some r' → (∀ r, nodes c !! j = Some r → round_ok L (rounds !! j) r k) → round_ok L' (rounds' !! j) r' k.
Proof.
  intros Hn HC HT. unfold takeRound in HT. inv_bind HT. rename x into r, E into Hr. destruct (rounds !! i) eqn:Hround; [done|].
  destruct (_ || _); [done|]. inv_bind HT. destruct x as [[r1 msgs] es]. injection HT as <- <-.
  destruct (CRel_quiet n c s L (Local i OpApplyTake) (set_node i r1 c)) as (s' & L' & HC' & HL & HN);
    [done..|eapply local_step; [done|done|cbn; by rewrite E]|].
  exists s', L'. split_and!; [done|done|]. intros j r' k Hj Hk. destruct (decide (j = i)) as [->|Hne].
  - cbn in Hj. rewrite lookup_insert_eq in Hj. injection Hj as <-. rewrite lookup_insert_eq. eapply (round_take n c s L L' i r); [done..|].
    rewrite <-Hround. by apply Hk.
  - destruct (HN j r' Hj) as (r0 & Hr0 & Ha). rewrite lookup_insert_ne by done. eapply round_prefix; eauto.
Qed.

Lemma endRound_ok n c s L i rounds c' rounds' :
  0 < n → CRel n c s L → endRound i c rounds = Some (c', rounds') →
  ∃ s' L', CRel n c' s' L' ∧ L `prefix_of` L' ∧
    ∀ j r' k, nodes c' !! j = Some r' → (∀ r, nodes c !! j = Some r → round_ok L (rounds !! j) r k) → round_ok L' (rounds' !! j) r' k.
Proof.
  intros Hn HC HT. unfold endRound in HT. inv_bind HT. rename x into r, E into Hr.
  destruct (rounds !! i) as [[[] es]|] eqn:Hround; try done. injection HT as <- <-.
  destruct (CRel_done n c s L i r es) as (s' & L' & HC' & HL); [done..|]. exists s', L'. split_and!; [done|done|].
  intros j r' k Hj Hk. cbn in Hj. destruct (decide (j = i)) as [->|Hne].
  - rewrite lookup_insert_eq in Hj. injection Hj as <-. rewrite lookup_delete_eq.
    eapply round_prefix; [done|done|]. apply round_end. rewrite <-Hround. by apply Hk.
  - rewrite lookup_insert_ne in Hj by done. rewrite lookup_delete_ne by done. eapply round_prefix; eauto.
Qed.

Lemma CRel_init env n : 0 < n → CRel n (init_cluster env n) (init_machine (init_cluster env n)) [].
Proof.
  intros Hn. split; [by apply SInv_init| |exists 0; by left| |by intros e He%elem_of_nil].
  - split; [|by intros m Hm%elem_of_nil]. intros i r [_ ->]%init_lookup. constructor.
  - intros i r [_ ->]%init_lookup. cbn. by rewrite take_nil.
Qed.

Lemma round_init env n i r : nodes (init_cluster env n) !! i = Some r → round_ok [] None r 0.
Proof.
  intros [_ ->]%init_lookup. exists [], [], [], 0%nat. split_and!; try done. by intros k e He%index_elem_of%elem_of_nil.
Qed.

Lemma set_node_id c i r : nodes c !! i = Some r → set_node i r c = c.
Proof. intros Hi. unfold set_node. destruct c. cbn in *. f_equal. by rewrite insert_id. Qed.

End stream.

(** Fewer commands are known to be more. *)
Lemma CRel_weaken {Cmd} `{!Gob (PersistentState Cmd)} (P Q : Cmd → Prop) n c s L :
  (∀ x, P x → Q x) → CRel P n c s L → CRel Q n c s L.
Proof.
  intros HPQ [C1 [D1 D2] C3 C4 C5]. split; try done; [|intros e He; by apply HPQ, C5]. split.
  - intros i r Hi. eapply Forall_impl; [by eapply D1|]. cbn. auto.
  - intros m Hm. apply D2 in Hm. destruct m.2; [|done..]. cbn in *. eapply Forall_impl; [exact Hm|]. cbn. auto.
Qed.
