(* ===== verification/RaftHarness.v ===== *)
(** * The harness of the Raft tests ([raft/config.go])

    What the tests check of a cluster: the appliers that read the apply channels and
    compare what servers commit, [checkOneLeader], [checkTerms], [checkNoLeader],
    [nCommitted], [wait] and [one].  A call that looks at the running servers takes
    what it sees as an argument.  On the clusters of [RaftElection] the appliers
    never object and no look finds two leaders. *)

From S2P Require Import Prelude LabGob Persister Raft RaftLog RaftState Voting RaftElection Replication RaftSafety RaftFrame ApplyStream.

(** What makes a test fail: [t.Fatal], [log.Fatalf], or a panic. *)
Inductive Failure :=
  | Panic
  | WrongValue (idx i j : Z)        (* commit index=%v server=%v %v != server=%v %v *)
  | OutOfOrder (i idx : Z)          (* server %v apply out of order %v *)
  | UnexpectedIndex (i want got : Z)
  | BadSnapshot                     (* nil snapshot, snapshot decode error *)
  | SnapshotMismatch (i : Z)        (* server %v snapshot doesn't match m.SnapshotIndex *)
  | TwoLeaders (term count : Z)     (* term %d has %d (>1) leaders *)
  | NoLeader                        (* expected one leader, got none *)
  | TermsDisagree                   (* servers disagree on term *)
  | UnexpectedLeader (i : Z)
  | ValuesDiffer (idx : Z)          (* committed values do not match *)
  | TooFew (got idx want : Z)       (* only %d decided for index %d; wanted %d *)
  | NoAgreement                     (* one(%v) failed to reach agreement *).

(** A result or a failure. *)
Definition M (A : Type) : Type := Failure + A.
#[export] Instance M_ret : MRet M := λ _ a, inr a.
#[export] Instance M_bind : MBind M := λ _ _ k m, match m with inl e => inl e | inr a => k a end.

(** What a round over the servers sees of each: whether it is connected and what
    [GetState] returns. *)
Notation Look := (bool * (Z * bool))%type.

(** A Go panic. *)
Definition orPanic {A} (o : option A) : M A := match o with Some a => inr a | None => inl Panic end.

Section harness.
Context {Cmd : Type} `{!EqDecision Cmd} `{!Gob (PersistentState Cmd)}.
(** What [applierSnap] encodes: an index and the commands up to it, nil where there is none. *)
Context `{!Gob (Z * list (option Cmd))}.

(** The fields of [config] the appliers and the checks use. *)
Record config := mkConfig {
  applyErr : list (option Failure);
  logs : list (gmap Z (option Cmd));  (* copy of each server's committed entries *)
  lastApplied : list Z;
  maxIndex : Z;
}.

#[export] Instance eta_config : Eta config := λ c,
  mkConfig (applyErr c) (logs c) (lastApplied c) (maxIndex c).
#[export] Instance set_logs : Setter logs.
Proof. setter. Defined.
#[export] Instance set_lastApplied : Setter lastApplied.
Proof. setter. Defined.
#[export] Instance set_maxIndex : Setter maxIndex.
Proof. setter. Defined.

(** These fields at the start of a test with [n] servers. *)
Definition newCopies (n : Z) : config :=
  let n := Z.to_nat n in
  mkConfig (replicate n None) (replicate n ∅) (replicate n 0) 0.

(** ** The appliers *)

(** The loop of [checkLogs] over the servers; the last mismatch counts. *)
Definition disagreement (i : Z) (m : ApplyMsg Cmd) (ls : list (gmap Z (option Cmd))) : option Failure :=
  foldl (λ err jl, match jl.2 !! CommandIndex m with
                   | Some old => if decide (old = MsgCommand m) then err else Some (WrongValue (CommandIndex m) i jl.1)
                   | None => err
                   end) None (imap (λ j l, (Z.of_nat j, l)) ls).

Definition checkLogs (i : Z) (m : ApplyMsg Cmd) (cfg : config) : M (config * option Failure * bool) :=
  let err_msg := disagreement i m (logs cfg) in
  mine ← orPanic (index (logs cfg) i);
  let prevok := bool_decide (is_Some (mine !! (CommandIndex m - 1))) in
  ls ← orPanic (store (logs cfg) i (<[CommandIndex m := MsgCommand m]> mine));
  let cfg := cfg <| logs := ls |> in
  let cfg := if maxIndex cfg <? CommandIndex m then cfg <| maxIndex := CommandIndex m |> else cfg in
  mret (cfg, err_msg, prevok).

(** One message of [applier]. *)
Definition applier (i : Z) (m : ApplyMsg Cmd) (cfg : config) : M config :=
  if negb (CommandValid m) then mret cfg
  else
    '(cfg, err_msg, prevok) ← checkLogs i m cfg;
    let err_msg := if (1 <? CommandIndex m) && negb prevok then Some (OutOfOrder i (CommandIndex m)) else err_msg in
    match err_msg with Some e => inl e | None => mret cfg end.

Definition ingestSnap (i : Z) (snapshot : bytes) (idx : Z) (cfg : config) : M config :=
  match gob_decode (A := Z * list (option Cmd)) snapshot with
  | None => inl BadSnapshot
  | Some (lastIncludedIndex, xlog) =>
    if negb (idx =? -1) && negb (idx =? lastIncludedIndex) then inl (SnapshotMismatch i)
    else
      ls ← orPanic (store (logs cfg) i (list_to_map (imap (λ j v, (Z.of_nat j, v)) xlog)));
      la ← orPanic (store (lastApplied cfg) i lastIncludedIndex);
      mret (cfg <| logs := ls |> <| lastApplied := la |>)
  end.

Definition SnapShotInterval : Z := 10.

(** The snapshot [applierSnap] makes of the entries up to [idx]. *)
Definition snapshotUpTo (idx : Z) (log : gmap Z (option Cmd)) : bytes :=
  gob_encode (idx, (λ j, default None (log !! j)) <$> upto (idx + 1)).

(** One message of [applierSnap], with the server's Raft peer. *)
Definition applierSnap (i : Z) (m : ApplyMsg Cmd) (cfg : config) (rf : Raft Cmd) : M (config * Raft Cmd) :=
  if SnapshotValid m then
    if CondInstallSnapshot (SnapshotTerm m) (SnapshotIndex m) (Snapshot_ m)
    then cfg ← ingestSnap i (Snapshot_ m) (SnapshotIndex m) cfg; mret (cfg, rf)
    else mret (cfg, rf)
  else if CommandValid m then
    last ← orPanic (index (lastApplied cfg) i);
    let err_msg := if negb (CommandIndex m =? last + 1) then Some (UnexpectedIndex i (last + 1) (CommandIndex m)) else None in
    '(cfg, err_msg) ←
      (match err_msg with
       | Some _ => mret (cfg, err_msg)
       | None =>
         '(cfg, err_msg, prevok) ← checkLogs i m cfg;
         mret (cfg, if (1 <? CommandIndex m) && negb prevok then Some (OutOfOrder i (CommandIndex m)) else err_msg)
       end);
    la ← orPanic (store (lastApplied cfg) i (CommandIndex m));
    let cfg := cfg <| lastApplied := la |> in
    rf ←
      (if Z.rem (CommandIndex m + 1) SnapShotInterval =? 0 then
         mine ← orPanic (index (logs cfg) i);
         orPanic (Snapshot (CommandIndex m) (snapshotUpTo (CommandIndex m) mine) rf)
       else mret rf);
    match err_msg with Some e => inl e | None => mret (cfg, rf) end
  else mret (cfg, rf).

(** ** Looking at the servers *)

Definition leadersSeen (looks : list Look) : gmap Z (list Z) :=
  foldl (λ m il, let '(i, (conn, (term, leader))) := il in
           if conn && leader then <[term := default [] (m !! term) ++ [i]]> m else m)
        ∅ (imap (λ i l, (Z.of_nat i, l)) looks).

(** The range over the map, which stops at the first term with two leaders. *)
Definition lastTermWithLeader (ls : list (Z * list Z)) : M Z :=
  foldl (λ acc tl, last ← acc;
           if 1 <? zlen tl.2 then inl (TwoLeaders tl.1 (zlen tl.2))
           else mret (if last <? tl.1 then tl.1 else last)) (inr (-1)) ls.

(** One round of [checkOneLeader]; [None]: no leader seen. *)
Definition oneLeaderRound (looks : list Look) : M (option Z) :=
  let leaders := leadersSeen looks in
  last ← lastTermWithLeader (map_to_list leaders);
  if decide (leaders = ∅) then mret None
  else l ← orPanic (index (default [] (leaders !! last)) 0); mret (Some l).

(** [rounds k]: what the [k]-th round sees. *)
Fixpoint oneLeaderLoop (rounds : nat → list Look) (k iters : nat) : M Z :=
  match iters with
  | O => inl NoLeader
  | S iters =>
    r ← oneLeaderRound (rounds k);
    match r with Some l => mret l | None => oneLeaderLoop rounds (S k) iters end
  end.
Definition checkOneLeader (rounds : nat → list Look) : M Z := oneLeaderLoop rounds 0 10.

Definition checkTerms (looks : list Look) : M Z :=
  foldl (λ acc l, term ← acc;
           if l.1 : bool then
             if term =? -1 then mret l.2.1
             else if negb (term =? l.2.1) then inl TermsDisagree else mret term
           else mret term) (inr (-1)) looks.

Definition checkNoLeader (looks : list Look) : M () :=
  foldl (λ acc il, _ ← acc;
           if il.2.1 && il.2.2.2 then inl (UnexpectedLeader il.1) else mret tt)
        (inr tt) (imap (λ i (l : Look), (Z.of_nat i, l)) looks).

(** ** Agreement *)

(** What [nCommitted] reads of one server, each under its own lock: its error and the
    copy of its entries. *)
#[local] Notation Copy := (option Failure * gmap Z (option Cmd))%type.

(** How many servers think an entry is committed, and the entry. *)
Definition nCommitted (idx : Z) (views : list Copy) : M (Z * option Cmd) :=
  foldl (λ acc el, '(count, cmd) ← acc;
           match el.1 with Some e => inl e | None =>
             match el.2 !! idx with
             | Some cmd1 =>
               if (0 <? count) && negb (bool_decide (cmd = cmd1)) then inl (ValuesDiffer idx)
               else mret (count + 1, cmd1)
             | None => mret (count, cmd)
             end
           end) (inr (0, None)) views.

(** What [wait] sees in one round: the copies of the logs and the servers' terms,
    [None] for a server that is shut down (its peer is nil). *)
Definition Glance : Type := list Copy * list (option Z).

(** [for _, r := range cfg.rafts]: some server is in a later term. *)
Fixpoint movedOn (startTerm : Z) (terms : list (option Z)) : M bool :=
  match terms with
  | [] => mret false
  | None :: _ => inl Panic
  | Some t :: terms => if startTerm <? t then mret true else movedOn startTerm terms
  end.

(** [inl tt]: a server has moved on to a later term. *)
Fixpoint waitLoop (glances : nat → Glance) (idx n startTerm : Z) (k iters : nat) : M (() + option Cmd) :=
  let decided (g : Glance) :=
    '(nd, cmd) ← nCommitted idx g.1;
    if nd <? n then inl (TooFew nd idx n) else mret (inr cmd) in
  match iters with
  | O => decided (glances k)
  | S iters =>
    '(nd, _) ← nCommitted idx (glances k).1;
    if n <=? nd then decided (glances (S k))
    else
      gone ← (if -1 <? startTerm then movedOn startTerm (glances (S k)).2 else mret false);
      if (gone : bool) then mret (inl tt) else waitLoop glances idx n startTerm (S (S k)) iters
  end.
Definition wait (glances : nat → Glance) (idx n startTerm : Z) : M (() + option Cmd) :=
  waitLoop glances idx n startTerm 0 30.

(** What [one] sees when it looks: the clock, [checkFinished], the copies of the logs,
    and the servers with their connections. *)
Record Sight := mkSight {
  clock : Z;
  finished : bool;
  copies : list Copy;
  servers : list (bool * option (Raft Cmd));
}.

Definition Second : Z := 1000 * Millisecond.

(** The loop over the servers, from the one after [starts]; [k] counts the looks.
    What [Start] does to the peer is the peer's business. *)
Fixpoint submit (sights : nat → Sight) (cmd : Cmd) (n starts : Z) (k tries : nat) : M (option Z * Z * nat) :=
  match tries with
  | O => mret (None, starts, k)
  | S tries =>
    let starts := Z.rem (starts + 1) n in
    server ← orPanic (index (servers (sights k)) starts);
    match server with
    | (true, Some rf) =>
      '(_, (index1, _, ok)) ← orPanic (Start cmd rf);
      if (ok : bool) then mret (Some index1, starts, S k) else submit sights cmd n starts (S k) tries
    | _ => submit sights cmd n starts (S k) tries
    end
  end.

(** The loop that waits for agreement on [idx]: whether it was reached, and the looks
    made; [None] when the fuel runs out. *)
Fixpoint poll (fuel : nat) (sights : nat → Sight) (cmd : Cmd) (idx expectedServers t1 : Z) (k : nat) : option (M (bool * nat)) :=
  match fuel with
  | O => None
  | S fuel =>
    let s := sights k in
    if clock s - t1 <? 2 * Second then
      match nCommitted idx (copies s) with
      | inl e => Some (inl e)
      | inr (nd, cmd1) =>
        if (0 <? nd) && (expectedServers <=? nd) && bool_decide (cmd1 = Some cmd) then Some (mret (true, S k))
        else poll fuel sights cmd idx expectedServers t1 (S k)
      end
    else Some (mret (false, S k))
  end.

Fixpoint oneLoop (fuel : nat) (sights : nat → Sight) (cmd : Cmd) (n expectedServers : Z) (retry : bool) (t0 starts : Z) (k : nat)
    : option (M Z) :=
  match fuel with
  | O => None
  | S fuel =>
    let s := sights k in
    if (clock s - t0 <? 10 * Second) && negb (finished s) then
      match submit sights cmd n starts (S k) (Z.to_nat n) with
      | inl e => Some (inl e)
      | inr (Some idx, starts, k) =>
        match poll fuel sights cmd idx expectedServers (clock (sights k)) (S k) with
        | None => None
        | Some (inl e) => Some (inl e)
        | Some (inr (true, _)) => Some (mret idx)
        | Some (inr (false, k)) =>
          if retry then oneLoop fuel sights cmd n expectedServers retry t0 starts k else Some (inl NoAgreement)
        end
      | inr (None, starts, k) => oneLoop fuel sights cmd n expectedServers retry t0 starts k
      end
    else if negb (finished (sights (S k))) then Some (inl NoAgreement) else Some (mret (-1))
  end.

Definition one (fuel : nat) (sights : nat → Sight) (cmd : Cmd) (n expectedServers : Z) (retry : bool) : option (M Z) :=
  oneLoop fuel sights cmd n expectedServers retry (clock (sights 0%nat)) 0 1.

(** ** The bench: a cluster whose services are appliers *)

Record Bench := mkBench {
  b_cluster : Cluster Cmd;
  b_rounds : gmap Z (Round Cmd);
  b_config : config;
}.

Inductive BEvent :=
  | BRaft (ev : Event Cmd)  (* the peers, and a test that calls Start or Kill *)
  | BTake (i : Z)
  | BApply (i : Z)          (* applier [i] reads a message *)
  | BEnd (i : Z).

(** The tests without snapshots; rounds have their own events. *)
Definition onBench (ev : Event Cmd) : bool :=
  match ev with
  | Local _ (OpSnapshot _ _) | Local _ OpApplyTake | Local _ (OpApplyDone _) => false
  | _ => true
  end.

Definition bstep (ev : BEvent) (b : Bench) : option (M Bench) :=
  match ev with
  | BRaft ev =>
    if onBench ev then c ← cstep ev (b_cluster b); Some (mret (mkBench c (b_rounds b) (b_config b))) else None
  | BTake i => '(c, rs) ← takeRound i (b_cluster b) (b_rounds b); Some (mret (mkBench c rs (b_config b)))
  | BApply i =>
    _ ← nodes (b_cluster b) !! i;
    '(msgs, es) ← b_rounds b !! i;
    match msgs with
    | [] => None
    | m :: msgs =>
      Some (cfg ← applier i m (b_config b); mret (mkBench (b_cluster b) (<[i := (msgs, es)]> (b_rounds b)) cfg))
    end
  | BEnd i => '(c, rs) ← endRound i (b_cluster b) (b_rounds b); Some (mret (mkBench c rs (b_config b)))
  end.

Definition bench_step (b b' : Bench) : Prop := ∃ ev, bstep ev b = Some (inr b').

Definition init_bench (env : Z → Env) (n : Z) : Bench := mkBench (init_cluster env n) ∅ (newCopies n).

(** ** The appliers never object *)

(** A copy of the first [k] entries of the log. *)
Definition holds (L : list (RaftLogEntry Cmd)) (k : nat) (m : gmap Z (option Cmd)) : Prop :=
  ∀ idx, m !! idx = if decide (1 <= idx <= Z.of_nat k) then Some (Command <$> L !! Z.to_nat (idx - 1)) else None.

Record BRel (n : Z) (b : Bench) s L (ks : Z → nat) : Prop := {
  br_cluster : CRel (λ _, True) n (b_cluster b) s L;
  br_copies : ∀ j m, index (logs (b_config b)) j = Some m → holds L (ks j) m ∧ (ks j <= length L)%nat;
  br_rounds : ∀ i r, nodes (b_cluster b) !! i = Some r →
    is_Some (index (logs (b_config b)) i) ∧ round_ok L (b_rounds b !! i) r (ks i);
  br_errors : applyErr (b_config b) = replicate (length (logs (b_config b))) None;
}.

Lemma holds_prefix L L' k m : L `prefix_of` L' → (k <= length L)%nat → holds L k m → holds L' k m.
Proof.
  intros HL Hk Hm idx. rewrite Hm. case_decide as Hd; [|done]. by rewrite (prefix_lookup_eq L L') by (done || lia).
Qed.

Lemma holds_insert L k m e : L !! k = Some e → holds L k m → holds L (S k) (<[Z.of_nat k + 1 := Some (Command e)]> m).
Proof.
  intros He Hm idx. destruct (decide (idx = Z.of_nat k + 1)) as [->|Hne].
  - rewrite lookup_insert_eq, decide_True by lia. replace (Z.to_nat (Z.of_nat k + 1 - 1)) with k by lia. by rewrite He.
  - rewrite lookup_insert_ne, Hm by done. destruct (decide _), (decide _); try done; lia.
Qed.

Lemma disagreement_none i m ls :
  (∀ j l old, ls !! j = Some l → l !! CommandIndex m = Some old → old = MsgCommand m) → disagreement i m ls = None.
Proof.
  intros Hls. unfold disagreement.
  assert (∀ js, (∀ j l, (j, l) ∈ js → ∃ q, ls !! q = Some l) →
    foldl (λ err jl, match jl.2 !! CommandIndex m with
       | Some old => if decide (old = MsgCommand m) then err else Some (WrongValue (CommandIndex m) i jl.1)
       | None => err end) None js = None) as Hfold.
  { induction js as [|[j l] js IH]; intros Hjs; [done|]. cbn. destruct (Hjs j l) as [q Hq]; [by left|].
    destruct (l !! CommandIndex m) as [old|] eqn:Hold; [rewrite decide_True by (by eapply Hls)|]; apply IH; intros j' l' Hin; eapply Hjs; by right. }
  apply Hfold. intros j l (q & Hq)%list_elem_of_lookup. rewrite list_lookup_imap in Hq. apply fmap_Some in Hq as (l' & Hl' & [= -> ->]). eauto.
Qed.

(** A message that carries the next entry of the log is accepted. *)
Lemma applier_accepts i e L k cfg mine :
  L !! k = Some e → Index e = Z.of_nat k + 1 → index (logs cfg) i = Some mine → holds L k mine →
  (∀ j l, logs cfg !! j = Some l → ∃ q, holds L q l) →
  ∃ mx, applier i (commandMsg e) cfg = inr (cfg <| logs := <[Z.to_nat i := <[Z.of_nat k + 1 := Some (Command e)]> mine]> (logs cfg) |> <| maxIndex := mx |>).
Proof.
  intros He Hidx Hi Hmine Hall. pose proof (index_lt _ _ _ Hi) as Hlt. unfold applier, checkLogs. cbn [negb CommandValid commandMsg CommandIndex MsgCommand].
  rewrite (disagreement_none i (commandMsg e)).
  2:{ intros j l old Hl Hold. destruct (Hall j l Hl) as [q Hq]. rewrite Hq in Hold. cbn in *. destruct (decide _); [|done]. injection Hold as <-.
      replace (Z.to_nat (Index e - 1)) with k by lia. by rewrite He. }
  rewrite Hi. cbn [orPanic mbind M_bind]. rewrite store_is_Some by done. cbn [orPanic mbind M_bind mret M_ret].
  rewrite Hmine, Hidx. destruct (decide _) as [|Hd].
  - rewrite bool_decide_eq_true_2 by done. rewrite andb_false_r. destruct (_ <? _); eexists; reflexivity.
  - rewrite bool_decide_eq_false_2 by (by intros [? ?]). assert (k = 0%nat) as -> by lia. change (1 <? Z.of_nat 0 + 1) with false. cbn [andb]. destruct (_ <? _); eexists; reflexivity.
Qed.

Lemma BRel_move n b s L ks c' rs s' L' :
  BRel n b s L ks → CRel (λ _, True) n c' s' L' → L `prefix_of` L' →
  (∀ i r', nodes c' !! i = Some r' → is_Some (nodes (b_cluster b) !! i) ∧
     ((∀ r, nodes (b_cluster b) !! i = Some r → round_ok L (b_rounds b !! i) r (ks i)) → round_ok L' (rs !! i) r' (ks i))) →
  BRel n (mkBench c' rs (b_config b)) s' L' ks.
Proof.
  intros [B1 B2 B3 B4] HC HL HR. split; cbn; try done.
  - intros j m [Hm Hk]%B2. split; [by eapply holds_prefix|]. apply prefix_length in HL. lia.
  - intros i r' Hr'. destruct (HR i r' Hr') as [[r Hr] Hok]. split; [by apply (B3 i r)|]. apply Hok. intros r0 Hr0. by apply B3.
Qed.

Lemma BRel_apply n b s L ks i m msgs es :
  BRel n b s L ks → is_Some (nodes (b_cluster b) !! i) → b_rounds b !! i = Some (m :: msgs, es) →
  ∃ cfg', applier i m (b_config b) = inr cfg' ∧
    BRel n (mkBench (b_cluster b) (<[i := (msgs, es)]> (b_rounds b)) cfg') s L (λ j, if decide (j = i) then S (ks i) else ks j).
Proof.
  intros [B1 B2 B3 B4] [r Hr] Hround. destruct (B3 i r Hr) as [[mine Hmine] Hok]. rewrite Hround in Hok.
  destruct (round_receive _ _ _ _ _ _ Hok) as (e & He & Hidx & -> & Hok'). destruct (B2 i mine Hmine) as [Hhold _].
  destruct (applier_accepts i e L (ks i) (b_config b) mine) as [mx Happ]; [done..| |].
  { intros j l Hl. exists (ks (Z.of_nat j)). apply B2. by rewrite index_lookup, Nat2Z.id by lia. }
  eexists. split; [exact Happ|]. pose proof (index_lt _ _ _ Hmine) as Hlt. split; cbn; [done| | |by rewrite length_insert].
  - intros j m Hm. destruct (decide (j = i)) as [->|Hne].
    + rewrite index_insert_eq in Hm by done. injection Hm as <-. split; [by apply holds_insert|]. by apply lookup_lt_Some in He.
    + rewrite index_insert_ne in Hm by (done || lia). by apply B2.
  - intros j q Hq. destruct (decide (j = i)) as [->|Hne].
    + rewrite index_insert_eq, lookup_insert_eq by done. split; [done|]. by assert (q = r) as -> by congruence.
    + rewrite index_insert_ne, lookup_insert_ne by (done || lia). by apply B3.
Qed.

Lemma BRel_step n b s L ks ev r :
  0 < n → BRel n b s L ks → bstep ev b = Some r →
  ∃ b' s' L' ks', r = inr b' ∧ BRel n b' s' L' ks' ∧ L `prefix_of` L'.
Proof.
  intros Hn B HS. pose proof (br_cluster _ _ _ _ _ B) as HC. destruct ev as [ev|i|i|i]; cbn in HS.
  - destruct (onBench ev) eqn:Hev; [|done]. inv_bind HS. injection HS as <-.
    destruct (CRel_quiet _ n (b_cluster b) s L ev x Hn HC) as (s' & L' & HC' & HL & HN); [by destruct ev as [| | | | | | |? []]..|done|].
    do 4 eexists. split; [done|]. split; [|done]. eapply BRel_move; [done..|]. intros i r' (r & Hr & Ha)%HN. split; [done|].
    intros Hok. eapply round_prefix; eauto.
  - inv_bind HS. destruct x as [c' rs]. injection HS as <-. destruct (takeRound_ok _ n _ s L i _ _ _ Hn HC E) as (s' & L' & HC' & HL & HR).
    do 4 eexists. split; [done|]. split; [|done]. eapply BRel_move; [done..|]. intros j r' Hj. split; [|by apply HR].
    by eapply (takeRound_dom i), mk_is_Some.
  - inv_bind HS. inv_bind HS. destruct x0 as [[|m msgs] es]; [done|]. injection HS as <-.
    destruct (BRel_apply n b s L ks i m msgs es) as (cfg' & -> & B'); [done|by eexists|done|]. by do 4 eexists.
  - inv_bind HS. destruct x as [c' rs]. injection HS as <-. destruct (endRound_ok _ n _ s L i _ _ _ Hn HC E) as (s' & L' & HC' & HL & HR).
    do 4 eexists. split; [done|]. split; [|done]. eapply BRel_move; [done..|]. intros j r' Hj. split; [|by apply HR].
    by eapply (endRound_dom i), mk_is_Some.
Qed.

Lemma BRel_init env n : 0 < n → BRel n (init_bench env n) (init_machine (init_cluster env n)) [] (λ _, 0%nat).
Proof.
  intros Hn. split; cbn [init_bench b_cluster b_config b_rounds newCopies logs applyErr]; [by apply CRel_init| | |by rewrite length_replicate].
  - intros j m [_ Hm]%index_Some. apply lookup_replicate in Hm as [-> _]. split; [|done].
    intros idx. rewrite lookup_empty, decide_False by lia. done.
  - intros i r Hr. split; [|by eapply round_init]. apply init_lookup in Hr as [Hr _]. apply index_is_Some. unfold zlen. rewrite length_replicate. lia.
Qed.

Lemma BRel_runs n b b' s L ks :
  0 < n → BRel n b s L ks → rtc bench_step b b' → ∃ s' L' ks', BRel n b' s' L' ks' ∧ L `prefix_of` L'.
Proof.
  intros Hn B HR. revert s L ks B. induction HR as [b|b1 b2 b3 [ev HS] _ IH]; intros s L ks B; [by eauto 10|].
  destruct (BRel_step _ _ _ _ _ _ _ Hn B HS) as (b' & s' & L' & ks' & [= <-] & B' & HL).
  destruct (IH _ _ _ B') as (s2 & L2 & ks2 & B2 & HL2). exists s2, L2, ks2. split; [done|by trans L'].
Qed.

Lemma BRel_reachable env n b : 0 < n → rtc bench_step (init_bench env n) b → ∃ s L ks, BRel n b s L ks.
Proof.
  intros Hn HR. destruct (BRel_runs n _ _ _ _ _ Hn (BRel_init env n Hn) HR) as (s & L & ks & B & _). eauto.
Qed.

(** Copies that agree at an index can be counted. *)
Lemma nCommitted_agree idx (views : list Copy) :
  (∀ v, v ∈ views → v.1 = None) →
  (∀ v v' x x', v ∈ views → v' ∈ views → v.2 !! idx = Some x → v'.2 !! idx = Some x' → x = x') →
  ∃ count cmd, nCommitted idx views = inr (count, cmd) ∧
    count = zlen (filter (λ v, is_Some (v.2 !! idx)) views) ∧
    ∀ v x, v ∈ views → v.2 !! idx = Some x → x = cmd.
Proof.
  unfold nCommitted. set (f := λ acc el, _). intros He Hag.
  assert (∀ vs count cmd, vs ⊆ views → 0 <= count →
    (0 < count → ∃ v, v ∈ views ∧ v.2 !! idx = Some cmd) →
    ∃ cmd', foldl f (inr (count, cmd)) vs = inr (count + zlen (filter (λ v, is_Some (v.2 !! idx)) vs), cmd') ∧
      (0 < count + zlen (filter (λ v, is_Some (v.2 !! idx)) vs) → ∃ v, v ∈ views ∧ v.2 !! idx = Some cmd')) as Hfold.
  { induction vs as [|v vs IH]; intros count cmd Hvs Hc Hv; [exists cmd; cbn; by rewrite Z.add_0_r|].
    assert (v ∈ views ∧ vs ⊆ views) as [Hin Hvs'] by set_solver.
    cbn [foldl]. unfold f at 2. cbn [mbind M_bind]. rewrite (He v Hin), zlen_filter_cons.
    destruct (v.2 !! idx) as [x|] eqn:Hx.
    - rewrite decide_True by eauto. assert ((0 <? count) && negb (bool_decide (cmd = x)) = false) as ->.
      { destruct (Z.ltb_spec 0 count) as [H0|]; [|done]. destruct (Hv H0) as (v' & Hv' & Hx').
        rewrite bool_decide_eq_true_2; [done|]. by apply (Hag v' v). }
      rewrite Z.add_assoc. apply IH; [done|lia|]. eauto.
    - rewrite decide_False by (by intros [? ?]). rewrite Z.add_0_l. by apply IH. }
  destruct (Hfold views 0 None) as (cmd' & -> & Hv'); [done..|]. rewrite Z.add_0_l in *.
  eexists _, cmd'. split_and!; [done|done|]. intros v x Hin Hx.
  destruct Hv' as (v' & Hv'' & Hx'); [|by apply (Hag v v')].
  assert (v ∈ filter (λ v, is_Some (v.2 !! idx)) views) as Hf by (apply list_elem_of_filter; eauto).
  destruct (filter _ views) as [|v0 vs]; [by apply elem_of_nil in Hf|]. rewrite zlen_cons. pose proof (zlen_nonneg vs). lia.
Qed.

(** What [nCommitted] reads: server [i]'s part at the [i]-th state of a run. *)
Definition reads_at (env : Z → Env) (n : Z) (bs : list Bench) (views : list Copy) : Prop :=
  (∀ i b, bs !! i = Some b → rtc bench_step (init_bench env n) b) ∧
  (∀ i j b b', (i <= j)%nat → bs !! i = Some b → bs !! j = Some b' → rtc bench_step b b') ∧
  ∀ i v, views !! i = Some v → ∃ b, bs !! i = Some b ∧
    applyErr (b_config b) !! i = Some v.1 ∧ logs (b_config b) !! i = Some v.2.

Lemma BRel_copy n b s L ks (i : nat) m idx x :
  BRel n b s L ks → logs (b_config b) !! i = Some m → m !! idx = Some x →
  x = Command <$> L !! Z.to_nat (idx - 1) ∧ (Z.to_nat (idx - 1) < length L)%nat.
Proof.
  intros B Hm Hx. destruct (br_copies _ _ _ _ _ B (Z.of_nat i) m) as [Hh Hk]; [by rewrite index_lookup, Nat2Z.id by lia|].
  rewrite (Hh idx) in Hx. destruct (decide _); [|done]. injection Hx as <-. split; [done|lia].
Qed.

Lemma reads_agree env n bs (views : list Copy) idx (i j : nat) v v' x x' :
  0 < n → reads_at env n bs views → (i <= j)%nat → views !! i = Some v → views !! j = Some v' →
  v.2 !! idx = Some x → v'.2 !! idx = Some x' → x = x'.
Proof.
  intros Hn (Hrun & Hchain & Hv) Hij Hi Hj Hx Hx'.
  destruct (Hv i v Hi) as (b & Hb & _ & Hm). destruct (Hv j v' Hj) as (b' & Hb' & _ & Hm').
  destruct (BRel_reachable env n b Hn (Hrun _ _ Hb)) as (s & L & ks & B).
  destruct (BRel_runs n b b' s L ks Hn B (Hchain _ _ _ _ Hij Hb Hb')) as (s' & L' & ks' & B' & HL).
  destruct (BRel_copy _ _ _ _ _ _ _ _ _ B Hm Hx) as [-> Hlt]. destruct (BRel_copy _ _ _ _ _ _ _ _ _ B' Hm' Hx') as [-> _].
  by rewrite (prefix_lookup_eq L L').
Qed.

(** C33: the tests' appliers accept what the cluster commits.  On a bench of [n] peers
    without snapshots and restarts, whatever the network and the test do, no applier
    ever finds a value another server did not commit or a message out of order; and
    [nCommitted], although it reads the servers' copies one after another while the
    bench runs on, never finds two values for an index: it counts the servers that have
    the index and returns the command all of them have. *)
Theorem harness_never_objects env n b :
  0 < n → rtc bench_step (init_bench env n) b →
  (∀ ev e, bstep ev b ≠ Some (inl e)) ∧
  ∀ bs views idx, reads_at env n bs views → ∃ count cmd, nCommitted idx views = inr (count, cmd) ∧
    count = zlen (filter (λ v, is_Some (v.2 !! idx)) views) ∧
    ∀ v x, v ∈ views → v.2 !! idx = Some x → x = cmd.
Proof.
  intros Hn HR. destruct (BRel_reachable env n b Hn HR) as (s & L & ks & B). split.
  - intros ev e HS. by destruct (BRel_step _ _ _ _ _ _ _ Hn B HS) as (b' & s' & L' & ks' & ? & _).
  - intros bs views idx HV. apply nCommitted_agree.
    + intros v [i Hi]%list_elem_of_lookup. destruct HV as (Hrun & _ & Hv). destruct (Hv i v Hi) as (b0 & Hb & He & _).
      destruct (BRel_reachable env n b0 Hn (Hrun _ _ Hb)) as (s0 & L0 & ks0 & B0).
      rewrite (br_errors _ _ _ _ _ B0) in He. by apply lookup_replicate in He as [-> _].
    + intros v v' x x' [i Hi]%list_elem_of_lookup [j Hj]%list_elem_of_lookup Hx Hx'.
      destruct (Nat.le_ge_cases i j); [by eapply (reads_agree env n bs views idx i j)|].
      symmetry. by eapply (reads_agree env n bs views idx j i).
Qed.

(** A snapshot [applierSnap] took gives a server that ingests it the entries up to its
    index and nothing else. *)
Lemma ingest_snapshot i idx want log cfg :
  0 <= i < zlen (logs cfg) → i < zlen (lastApplied cfg) → want = -1 ∨ want = idx →
  ∃ mine, ingestSnap i (snapshotUpTo idx log) want cfg =
      inr (cfg <| logs := <[Z.to_nat i := mine]> (logs cfg) |> <| lastApplied := <[Z.to_nat i := idx]> (lastApplied cfg) |>) ∧
    ∀ j, mine !! j = if decide (0 <= j <= idx) then Some (default None (log !! j)) else None.
Proof.
  intros Hi Hla Hw. unfold ingestSnap, snapshotUpTo. rewrite gob_decode_encode.
  assert (negb (want =? -1) && negb (want =? idx) = false) as ->.
  { destruct Hw as [->| ->]; [done|]. by rewrite Z.eqb_refl, andb_false_r. }
  set (xs := (λ j, default None (log !! j)) <$> upto (idx + 1)).
  eexists. rewrite !store_is_Some by (unfold zlen in *; lia). cbn [orPanic mbind M_bind]. split; [reflexivity|]. intros j.
  assert (∀ k v, xs !! k = Some v ↔ Z.of_nat k <= idx ∧ v = default None (log !! Z.of_nat k)) as Hxs.
  { intros k v. unfold xs, upto. rewrite !list_lookup_fmap, fmap_Some. setoid_rewrite fmap_Some. setoid_rewrite lookup_seq. split.
    - intros (z & (q & (-> & Hlt) & ->) & ->). cbn. split; [lia|done].
    - intros [Hle ->]. exists (Z.of_nat k). split; [|done]. exists k. split; [|done]. lia. }
  destruct (decide (0 <= j <= idx)) as [Hj|Hj].
  - apply elem_of_list_to_map_1'.
    + intros v (k & Hk)%list_elem_of_lookup. rewrite list_lookup_imap in Hk. apply fmap_Some in Hk as (v' & Hv & [= -> ->]). by apply Hxs in Hv as [_ ->].
    + apply list_elem_of_lookup. exists (Z.to_nat j). rewrite list_lookup_imap, (proj2 (Hxs (Z.to_nat j) (default None (log !! j)))); [cbn; f_equal; f_equal; lia|].
      rewrite Z2Nat.id by lia. split; [lia|done].
  - apply not_elem_of_list_to_map_1. intros ([j' v] & -> & (k & Hk)%list_elem_of_lookup)%list_elem_of_fmap. cbn in *.
    rewrite list_lookup_imap in Hk. apply fmap_Some in Hk as (v' & [Hv _]%Hxs & [= -> ->]). lia.
Qed.

(** ** Looking for the leader *)

(** The connected servers seen to lead term [t]. *)
Definition seenLeading (t : Z) (looks : list (Z * Look)) : list Z :=
  fst <$> filter (λ il, il.2.1 = true ∧ il.2.2 = (t, true)) looks.

Lemma leadersSeen_spec looks t :
  leadersSeen looks !! t = match seenLeading t (imap (λ i l, (Z.of_nat i, l)) looks) with [] => None | l => Some l end.
Proof.
  unfold leadersSeen. generalize (imap (λ i l, (Z.of_nat i, l)) looks). intros ls.
  set (f := λ m il, _).
  assert (∀ m, foldl f m ls !! t = match seenLeading t ls with [] => m !! t | l => Some (default [] (m !! t) ++ l) end) as Hf.
  { induction ls as [|[i [conn [term leader]]] ls IH]; intros m; [done|]. cbn [foldl]. rewrite IH. unfold seenLeading. rewrite filter_cons. cbn [fst snd].
    unfold f. destruct conn, leader; cbn [andb]; try (rewrite decide_False by (by intros [? ?]); done).
    destruct (decide (term = t)) as [->|Hne].
    - rewrite decide_True by done. rewrite lookup_insert_eq. cbn. destruct (filter _ ls); cbn; [done|]. by rewrite <-app_assoc.
    - rewrite decide_False by (intros [_ [= ?]]; congruence). by rewrite lookup_insert_ne. }
  rewrite Hf, lookup_empty. by destruct (seenLeading t ls).
Qed.

Lemma lastTerm_spec (ls : list (Z * list Z)) :
  (∀ t l, (t, l) ∈ ls → zlen l <= 1 ∧ 0 <= t) →
  ∃ last, lastTermWithLeader ls = inr last ∧ (∀ t l, (t, l) ∈ ls → t <= last) ∧ (last = -1 ∧ ls = [] ∨ ∃ l, (last, l) ∈ ls).
Proof.
  unfold lastTermWithLeader. set (f := λ acc tl, _). intros Hls.
  assert (∀ k, ∃ last, foldl f (inr k) ls = inr last ∧ k <= last ∧ (∀ t l, (t, l) ∈ ls → t <= last) ∧
    (last = k ∨ ∃ l, (last, l) ∈ ls)) as Hf.
  { induction ls as [|[t l] ls IH]; intros k; [exists k; split_and!; [done|lia|by intros ? ? ?%elem_of_nil|by left]|].
    cbn [foldl]. unfold f at 2. cbn [mbind M_bind fst snd]. destruct (Hls t l) as [Hl Ht]; [by left|].
    destruct (Z.ltb_spec 1 (zlen l)); [lia|]. change (mret (if k <? t then t else k)) with (inr (if k <? t then t else k) : M Z).
    destruct (IH ltac:(intros; apply Hls; by right) (if k <? t then t else k)) as (last & -> & Hk & Hmax & Hin). exists last.
    split_and!; [done|destruct (Z.ltb_spec k t); lia| |].
    - intros t' l' [[= -> ->]|Hin']%elem_of_cons; [destruct (Z.ltb_spec k t); lia|by eapply Hmax].
    - destruct Hin as [Hlast|(l' & Hl')]; [|right; exists l'; by right].
      destruct (Z.ltb_spec k t); [right; exists l; rewrite Hlast; by left|by left]. }
  destruct (Hf (-1)) as (last & HL & _ & Hmax & Hin). exists last. split_and!; [done|done|].
  destruct Hin as [->|?]; [|by right]. left. split; [done|]. destruct ls as [|[t l] ls]; [done|].
  destruct (Hls t l) as [_ Ht]; [by left|]. specialize (Hmax t l ltac:(by left)). lia.
Qed.

(** Server [i] was seen connected and leading term [t]. *)
Definition saw (looks : list Look) (i : nat) (t : Z) : Prop := looks !! i = Some (true, (t, true)).

Lemma seenLeading_elem looks t (i : Z) :
  i ∈ seenLeading t (imap (λ i l, (Z.of_nat i, l)) looks) ↔ ∃ k, i = Z.of_nat k ∧ saw looks k t.
Proof.
  unfold seenLeading, saw. rewrite list_elem_of_fmap. split.
  - intros ([j [conn st]] & -> & [[Hc Hst] Hin]%list_elem_of_filter). cbn in *. apply list_elem_of_lookup in Hin as [k Hk].
    rewrite list_lookup_imap in Hk. apply fmap_Some in Hk as (l & Hl & [= -> <-]). exists k. split; [done|]. by rewrite Hl, Hc, Hst.
  - intros (k & -> & Hk). exists (Z.of_nat k, (true, (t, true))). split; [done|]. apply list_elem_of_filter. split; [done|].
    apply list_elem_of_lookup. exists k. by rewrite list_lookup_imap, Hk.
Qed.

Lemma seenLeading_one looks t k :
  (∀ i j, saw looks i t → saw looks j t → i = j) → saw looks k t → seenLeading t (imap (λ i l, (Z.of_nat i, l)) looks) = [Z.of_nat k].
Proof.
  intros Hu Hk. apply Permutation_singleton_r, NoDup_Permutation; [|apply NoDup_singleton|].
  - unfold seenLeading. eapply sublist_NoDup; [|apply fmap_sublist, sublist_filter].
    apply NoDup_alt. intros a b x Ha Hb. rewrite list_lookup_fmap, list_lookup_imap in Ha, Hb.
    apply fmap_Some in Ha as (la & Hla & ->). apply fmap_Some in Hb as (lb & Hlb & Heq).
    destruct (looks !! a), (looks !! b); try done. simplify_eq/=. lia.
  - intros x. rewrite seenLeading_elem, list_elem_of_singleton. split; [|intros ->; eauto].
    intros (j & -> & Hj). by rewrite (Hu j k).
Qed.

(** A round that sees at most one leader in every term returns that of the last
    term, or nothing when it sees none. *)
Lemma oneLeaderRound_spec looks :
  (∀ i j t, saw looks i t → saw looks j t → i = j) → (∀ i t, saw looks i t → 0 <= t) →
  (oneLeaderRound looks = inr None ∧ ∀ i t, ¬ saw looks i t) ∨
  ∃ i t, oneLeaderRound looks = inr (Some (Z.of_nat i)) ∧ saw looks i t ∧ ∀ j u, saw looks j u → u <= t.
Proof.
  intros Hu H0. unfold oneLeaderRound.
  assert (∀ t l, leadersSeen looks !! t = Some l ↔ ∃ k, l = [Z.of_nat k] ∧ saw looks k t) as Hmap.
  { intros t l. rewrite leadersSeen_spec. split.
    - destruct (seenLeading t _) as [|i rest] eqn:Hs; [done|]. intros [= <-].
      assert (i ∈ seenLeading t (imap (λ i l, (Z.of_nat i, l)) looks)) as Hi by (rewrite Hs; by left).
      apply seenLeading_elem in Hi as (k & -> & Hk). exists k. split; [|done]. rewrite <-Hs. apply seenLeading_one; eauto.
    - intros (k & -> & Hk). by rewrite (seenLeading_one looks t k) by eauto. }
  destruct (lastTerm_spec (map_to_list (leadersSeen looks))) as (last & -> & Hmax & Hin).
  { intros t l (k & -> & Hk)%elem_of_map_to_list%Hmap. split; [done|by eapply H0]. }
  cbn [mbind M_bind]. destruct Hin as [[_ Hnil]|[l Hl]].
  - left. apply map_to_list_empty_iff in Hnil. rewrite decide_True by done. split; [done|]. intros i t Hs.
    assert (leadersSeen looks !! t = Some [Z.of_nat i]) as Hl by (apply Hmap; eauto). by rewrite Hnil in Hl.
  - right. apply elem_of_map_to_list in Hl. pose proof Hl as (k & -> & Hk)%Hmap. exists k, last.
    rewrite decide_False by (intros He; by rewrite He in Hl). rewrite Hl. split_and!; [done|done|].
    intros j u Hj. eapply Hmax. apply elem_of_map_to_list, Hmap. eauto.
Qed.

Lemma vstep_leaders n s s' l : rtc (vstep n) s s' → l ∈ leaders s → l ∈ leaders s'.
Proof. induction 1 as [|s1 s2 s3 HS _ IH]; [done|]. intros Hl. apply IH. destruct HS; try done. by right. Qed.

(** What the rounds look at: server [i] at the [i]-th state of a run. *)
Definition looks_at (env : Z → Env) (n : Z) (cs : list (Cluster Cmd)) (looks : list Look) : Prop :=
  (∀ i c, cs !! i = Some c → rtc step (init_cluster env n) c) ∧
  (∀ i j c c', (i <= j)%nat → cs !! i = Some c → cs !! j = Some c' → rtc step c c') ∧
  ∀ i l, looks !! i = Some l → ∃ c rf, cs !! i = Some c ∧ nodes c !! Z.of_nat i = Some rf ∧ l.2 = GetState rf.

Lemma saw_leader env n cs looks i t :
  looks_at env n cs looks → saw looks i t → ∃ c, cs !! i = Some c ∧ (Z.of_nat i, t) ∈ loops c ∧ 0 <= t.
Proof.
  intros (Hrun & _ & Hl) (c & rf & Hc & Hrf & HG)%Hl. exists c. split; [done|]. cbn in HG. injection HG as -> HL.
  symmetry in HL. apply bool_decide_eq_true in HL.
  destruct (step_follows env n c (Hrun _ _ Hc)) as [_ HC]. destruct (ci_nodes _ _ HC _ _ Hrf) as (_ & _ & H0 & Hin). auto.
Qed.

(** [checkOneLeader] is right about the cluster.  Although it asks the servers one
    after another while the cluster runs on, a round never finds two leaders of a term;
    it finds nothing exactly when no connected server said it leads, and otherwise
    returns a connected server that led the last term any of them named. *)
Theorem checkOneLeader_round env n cs looks :
  0 < n → looks_at env n cs looks →
  (oneLeaderRound looks = inr None ∧ ∀ i t, ¬ saw looks i t) ∨
  ∃ i t, oneLeaderRound looks = inr (Some (Z.of_nat i)) ∧ saw looks i t ∧ ∀ j u, saw looks j u → u <= t.
Proof.
  intros Hn HL. apply oneLeaderRound_spec; [|intros i t Hs; by destruct (saw_leader _ _ _ _ _ _ HL Hs) as (_ & _ & _ & ?)].
  assert (∀ i j t, (i <= j)%nat → saw looks i t → saw looks j t → i = j) as Hord.
  { intros i j t Hij Hi Hj. destruct (saw_leader _ _ _ _ _ _ HL Hi) as (c & Hc & Hin & _).
    destruct (saw_leader _ _ _ _ _ _ HL Hj) as (c' & Hc' & Hin' & _). destruct HL as (Hrun & Hchain & _).
    pose proof (Hchain i j c c' Hij Hc Hc') as HR. destruct (step_follows env n c (Hrun _ _ Hc)) as [_ HC].
    assert ((Z.of_nat i, t) ∈ loops c') as Hin2.
    { clear -HR HC Hin. induction HR as [|c1 c2 c3 [ev HS] _ IH]; [done|]. destruct (cstep_follows n c1 ev c2 HC HS) as [HV HC2].
      apply IH; [by eapply (vstep_leaders n (abs c1) (abs c2))|done]. }
    destruct (step_follows env n c' (Hrun _ _ Hc')) as [HV _].
    pose proof (VInv_reachable n _ _ (init_vinit env n Hn) HV) as V.
    assert (Z.of_nat i = Z.of_nat j) by (by eapply (VInv_leader_unique n (abs c'))). lia. }
  intros i j t Hi Hj. destruct (Nat.le_ge_cases i j); [by eapply Hord|symmetry; by eapply Hord].
Qed.

(** ** [one] *)

Lemma submit_looks sights cmd n starts k tries r starts' k' :
  submit sights cmd n starts k tries = inr (r, starts', k') →
  (k <= k')%nat ∧ ∀ idx, r = Some idx → ∃ i rf rf' t, (k <= i < k')%nat ∧
    (true, Some rf) ∈ servers (sights i) ∧ Start cmd rf = Some (rf', (idx, t, true)).
Proof.
  revert starts k. induction tries as [|tries IH]; intros starts k; cbn [submit]; [intros [= <- _ ->]; done|].
  destruct (index _ _) as [[conn o]|] eqn:Hx; cbn [orPanic mbind M_bind]; [|done].
  assert (∀ starts1, submit sights cmd n starts1 (S k) tries = inr (r, starts', k') →
    (k <= k')%nat ∧ ∀ idx, r = Some idx → ∃ i rf rf' t, (k <= i < k')%nat ∧
      (true, Some rf) ∈ servers (sights i) ∧ Start cmd rf = Some (rf', (idx, t, true))) as Hrest.
  { intros starts1 [Hk H]%IH. split; [lia|]. intros idx (i & rf & rf' & t & ? & ?)%H. exists i, rf, rf', t. split; [lia|done]. }
  destruct conn, o as [rf|]; try (by apply Hrest).
  destruct (Start cmd rf) as [[rf' [[idx t] ok]]|] eqn:HS; cbn [orPanic mbind M_bind]; [|done].
  destruct ok; [|by apply Hrest]. intros [= <- _ <-]. split; [lia|]. intros idx' [= <-].
  exists k, rf, rf', t. split_and!; [lia|lia|by eapply index_elem_of|done].
Qed.

Lemma filter_len_ext {A} (P Q : A → Prop) `{∀ x, Decision (P x), ∀ x, Decision (Q x)} l :
  (∀ x, x ∈ l → P x ↔ Q x) → zlen (filter P l) = zlen (filter Q l).
Proof.
  induction l as [|x l IH]; intros Hl; [done|]. rewrite !zlen_filter_cons, IH by (intros; apply Hl; by right).
  f_equal. specialize (Hl x ltac:(by left)). repeat case_decide; tauto.
Qed.

(** What [nCommitted] returns is a count of the copies. *)
Lemma nCommitted_counts idx (views : list Copy) nd cmd :
  nCommitted idx views = inr (nd, cmd) →
  nd = zlen (filter (λ v, v.2 !! idx = Some cmd) views) ∧ ∀ v x, v ∈ views → v.2 !! idx = Some x → x = cmd.
Proof.
  unfold nCommitted. set (f := λ acc el, _).
  assert (∀ vs e, foldl f (inl e) vs = inl e) as Herr by (induction vs; [done|auto]).
  assert (∀ vs done count c, (∀ v x, v ∈ done → v.2 !! idx = Some x → x = c) → 0 <= count →
    count = zlen (filter (λ v, v.2 !! idx = Some c) done) → foldl f (inr (count, c)) vs = inr (nd, cmd) →
    nd = zlen (filter (λ v, v.2 !! idx = Some cmd) (done ++ vs)) ∧
    ∀ v x, v ∈ done ++ vs → v.2 !! idx = Some x → x = cmd) as Hfold.
  { induction vs as [|v vs IH]; intros dn count c Hd H0 Hc; cbn [foldl].
    { intros [= <- <-]. by rewrite app_nil_r. }
    unfold f at 2. cbn [mbind M_bind]. destruct v as [err l]. cbn [fst snd]. destruct err as [e|]; [by rewrite Herr|].
    replace (dn ++ (None, l) :: vs) with ((dn ++ [(None, l)]) ++ vs) by (by rewrite <-app_assoc).
    destruct (l !! idx) as [x|] eqn:Hx.
    - destruct ((0 <? count) && negb (bool_decide (c = x))) eqn:Hb; [by rewrite Herr|].
      assert (∀ v y, v ∈ dn → v.2 !! idx = Some y → y = x) as Hd'.
      { intros v y Hv Hy. apply andb_false_iff in Hb as [Hb%Z.ltb_ge|Hb%negb_false_iff%bool_decide_eq_true]; [|rewrite <-Hb; by eapply Hd].
        exfalso. rewrite (Hd v y Hv Hy) in Hy. assert (v ∈ filter (λ v, v.2 !! idx = Some c) dn) as Hf by by apply list_elem_of_filter.
        destruct (filter _ dn) as [|v0 l0] eqn:E; [by apply elem_of_nil in Hf|]. rewrite zlen_cons in Hc. pose proof (zlen_nonneg l0). lia. }
      apply IH; [|lia|].
      + intros v y [Hv|Hv%list_elem_of_singleton]%elem_of_app Hy; [by eapply Hd'|subst v; cbn in Hy; congruence].
      + rewrite filter_app, zlen_app, zlen_filter_cons, decide_True by done. cbn [filter]. change (zlen (filter _ [])) with 0. rewrite Z.add_0_r. f_equal.
        rewrite Hc. apply filter_len_ext. intros v Hv. split; intros Hy; [by rewrite <-(Hd' v c Hv Hy)|by rewrite <-(Hd v x Hv Hy)].
    - apply IH; [|done|].
      + intros v y [Hv|Hv%list_elem_of_singleton]%elem_of_app Hy; [by eapply Hd|subst v; cbn in Hy; congruence].
      + rewrite filter_app, zlen_app, zlen_filter_cons, decide_False by (cbn; congruence). rewrite Hc. change (zlen (filter (λ v : Copy, v.2 !! idx = Some c) [])) with 0. lia. }
  intros HN. apply (Hfold views [] 0 None) in HN; [done|by intros ? ? ?%elem_of_nil|lia|done].
Qed.

(** Among what a sight shows, at least [want] copies, and one at least, have the command
    at the index, and none has another. *)
Definition agreedOn (views : list Copy) (cmd : Cmd) (idx want : Z) : Prop :=
  Z.max 1 want <= zlen (filter (λ v, v.2 !! idx = Some (Some cmd)) views) ∧
  ∀ v x, v ∈ views → v.2 !! idx = Some x → x = Some cmd.

Lemma poll_agreed fuel sights cmd idx want t1 k k' :
  poll fuel sights cmd idx want t1 k = Some (inr (true, k')) →
  ∃ j, (k <= j)%nat ∧ clock (sights j) - t1 < 2 * Second ∧ agreedOn (copies (sights j)) cmd idx want.
Proof.
  revert k. induction fuel as [|fuel IH]; intros k; [done|]. cbn [poll].
  destruct (Z.ltb_spec (clock (sights k) - t1) (2 * Second)) as [Hc|]; [|done].
  destruct (nCommitted idx (copies (sights k))) as [|[nd cmd1]] eqn:Hn; [done|].
  destruct ((0 <? nd) && (want <=? nd) && bool_decide (cmd1 = Some cmd)) eqn:Hb.
  2:{ intros (j & Hj & ?)%IH. exists j. split; [lia|done]. }
  intros _. apply andb_true_iff in Hb as [[H1 H2]%andb_true_iff H3%bool_decide_eq_true]. subst cmd1.
  apply nCommitted_counts in Hn as [Hnd Hall]. exists k. split_and!; [done|done|]. split; [lia|done].
Qed.

Lemma one_agreed fuel sights cmd n want retry t0 starts k idx :
  oneLoop fuel sights cmd n want retry t0 starts k = Some (inr idx) →
  (idx = -1 ∧ ∃ j, finished (sights j) = true) ∨
  ∃ i j rf rf' t, (i < j)%nat ∧ (true, Some rf) ∈ servers (sights i) ∧ Start cmd rf = Some (rf', (idx, t, true)) ∧
    agreedOn (copies (sights j)) cmd idx want.
Proof.
  revert starts k. induction fuel as [|fuel IH]; intros starts k; [done|]. cbn [oneLoop]. destruct (_ && _).
  - destruct (submit _ _ _ _ _ _) as [|[[[i|] starts'] k']] eqn:HS; [done| |apply IH].
    destruct (poll _ _ _ _ _ _ _) as [[|[[] k2]]|] eqn:HP; [done| | |done].
    + intros [= <-]. right. apply submit_looks in HS as [_ HS]. destruct (HS i eq_refl) as (i0 & rf & rf' & t & Hi & Hsv & HSt).
      apply poll_agreed in HP as (j & Hj & _ & Ha). exists i0, j, rf, rf', t. split_and!; [lia|done..].
    + destruct retry; [apply IH|done].
  - destruct (finished (sights (S k))) eqn:HF; [|done]. intros [= <-]. left. eauto.
Qed.

Section time.
Context (sights : nat → Sight) (Htime : ∀ T, ∃ K, ∀ k, (K <= k)%nat → T <= clock (sights k)).

Lemma poll_ends cmd idx want t1 k :
  ∃ fuel r, (∀ fuel', (fuel <= fuel')%nat → poll fuel' sights cmd idx want t1 k = Some r) ∧ ∀ b k', r = inr (b, k') → (k < k')%nat.
Proof.
  destruct (Htime (t1 + 2 * Second)) as [K HK]. remember (K - k)%nat as d eqn:Hd. revert k Hd. induction d as [d IH] using lt_wf_ind. intros k Hd.
  assert (∀ r, (∀ fuel, poll (S fuel) sights cmd idx want t1 k = Some r) → (∀ b k', r = inr (b, k') → (k < k')%nat) →
    ∃ fuel r, (∀ fuel', (fuel <= fuel')%nat → poll fuel' sights cmd idx want t1 k = Some r) ∧ ∀ b k', r = inr (b, k') → (k < k')%nat) as Hstop.
  { intros r Hr Hk. exists 1%nat, r. split; [|done]. intros [|fuel'] Hf; [lia|apply Hr]. }
  destruct (clock (sights k) - t1 <? 2 * Second) eqn:Hc.
  - destruct (nCommitted idx (copies (sights k))) as [e|[nd cmd1]] eqn:Hn.
    { apply (Hstop (inl e)); [|done]. intros fuel. cbn. by rewrite Hc, Hn. }
    destruct ((0 <? nd) && (want <=? nd) && bool_decide (cmd1 = Some cmd)) eqn:Hb.
    { apply (Hstop (inr (true, S k))); [|intros ? ? [= _ <-]; lia]. intros fuel. cbn. by rewrite Hc, Hn, Hb. }
    destruct (IH (K - S k)%nat) with (k := S k) as (fuel & r & Hr & Hk'); [|done|].
    { destruct (decide (K <= k)%nat) as [Hle|]; [|lia]. specialize (HK k Hle). zbool_lia. }
    exists (S fuel), r. split; [|intros b k' E; apply Hk' in E; lia].
    intros [|fuel'] Hf; [lia|]. cbn. rewrite Hc, Hn, Hb. apply Hr. lia.
  - apply (Hstop (inr (false, S k))); [|intros ? ? [= _ <-]; lia]. intros fuel. cbn. by rewrite Hc.
Qed.

Lemma one_ends cmd n want retry t0 starts k :
  ∃ fuel r, ∀ fuel', (fuel <= fuel')%nat → oneLoop fuel' sights cmd n want retry t0 starts k = Some r.
Proof.
  destruct (Htime (t0 + 10 * Second)) as [K HK]. remember (K - k)%nat as d eqn:Hd. revert starts k Hd. induction d as [d IH] using lt_wf_ind. intros starts k Hd.
  assert (∀ r, (∀ fuel, oneLoop (S fuel) sights cmd n want retry t0 starts k = Some r) →
    ∃ fuel r, ∀ fuel', (fuel <= fuel')%nat → oneLoop fuel' sights cmd n want retry t0 starts k = Some r) as Hstop.
  { intros r Hr. exists 1%nat, r. intros [|fuel'] Hf; [lia|apply Hr]. }
  destruct ((clock (sights k) - t0 <? 10 * Second) && negb (finished (sights k))) eqn:Hc.
  2:{ destruct (negb (finished (sights (S k)))) eqn:HF; eapply Hstop; intros fuel; cbn; by rewrite Hc, HF. }
  assert (k < K)%nat as HkK.
  { destruct (decide (K <= k)%nat) as [Hle|]; [|lia]. specialize (HK k Hle). apply andb_true_iff in Hc as [Hc _]. zbool_lia. }
  destruct (submit sights cmd n starts (S k) (Z.to_nat n)) as [e|[[[i|] starts'] k']] eqn:HS.
  - apply (Hstop (inl e)). intros fuel. cbn. by rewrite Hc, HS.
  - pose proof (submit_looks _ _ _ _ _ _ _ _ _ HS) as [Hk' _]. destruct (poll_ends cmd i want (clock (sights k')) (S k')) as (f1 & r1 & Hr1 & Hk1).
    destruct r1 as [e|[[] k2]].
    + exists (S f1), (inl e). intros [|fuel'] Hf; [lia|]. cbn. by rewrite Hc, HS, Hr1 by lia.
    + exists (S f1), (inr i). intros [|fuel'] Hf; [lia|]. cbn. by rewrite Hc, HS, Hr1 by lia.
    + specialize (Hk1 _ _ eq_refl). destruct (IH (K - k2)%nat ltac:(lia) starts' k2 eq_refl) as (f2 & r2 & Hr2).
      exists (S (f1 + f2)), (if retry then r2 else inl NoAgreement). intros [|fuel'] Hf; [lia|]. cbn. rewrite Hc, HS, Hr1 by lia.
      destruct retry; [apply Hr2; lia|done].
  - pose proof (submit_looks _ _ _ _ _ _ _ _ _ HS) as [Hk' _]. destruct (IH (K - k')%nat ltac:(lia) starts' k' eq_refl) as (f2 & r2 & Hr2).
    exists (S f2), r2. intros [|fuel'] Hf; [lia|]. cbn. rewrite Hc, HS. apply Hr2. lia.
Qed.
End time.

(** C34: [one] ends and is right.  As long as time passes the loop comes to an end, and
    more fuel changes nothing.  An index it returns is one that [Start] of a connected
    server gave it for the command, and at which, when it then looked, at least the
    expected number of the servers' copies, and one at least, had exactly this command
    and no copy another one (-1 is returned only when the test is finished). *)
Theorem one_correct sights cmd n expectedServers retry :
  (∀ T, ∃ K, ∀ k, (K <= k)%nat → T <= clock (sights k)) →
  ∃ fuel r, (∀ fuel', (fuel <= fuel')%nat → one fuel' sights cmd n expectedServers retry = Some r) ∧
    ∀ idx, r = inr idx → (idx = -1 ∧ ∃ j, finished (sights j) = true) ∨
      ∃ i j rf rf' t, (i < j)%nat ∧ (true, Some rf) ∈ servers (sights i) ∧
        Start cmd rf = Some (rf', (idx, t, true)) ∧
        Z.max 1 expectedServers <= zlen (filter (λ v, v.2 !! idx = Some (Some cmd)) (copies (sights j))) ∧
        ∀ v x, v ∈ copies (sights j) → v.2 !! idx = Some x → x = Some cmd.
Proof.
  intros Htime. destruct (one_ends sights Htime cmd n expectedServers retry (clock (sights 0%nat)) 0 1) as (fuel & r & Hr).
  exists fuel, r. split; [exact Hr|]. intros idx ->. eapply one_agreed, (Hr fuel). lia.
Qed.

End harness.

Arguments Bench : clear implicits.
Arguments BEvent : clear implicits.
Arguments Sight : clear implicits.
Arguments config : clear implicits.

(** ** Concrete runs *)

Module BenchExamples.
Import ElectionExamples.

(** Peer 0 leads, the test starts a command, peer 2 gets it, both apply it. *)
Definition bench_run : list (BEvent Z) :=
  (BRaft <$> first_leader) ++
  [BRaft (Local 0 (OpStart 7)); BRaft (Replicate 0 2 1); BRaft (Deliver 2 later); BRaft (Return 0 true);
   BRaft (Local 0 (OpUpdateCommit 1)); BTake 0; BApply 0; BEnd 0; BRaft (Tick 0 later); BRaft (Deliver 3 later); BTake 2; BApply 2].

Fixpoint benchRun (evs : list (BEvent Z)) (b : Bench Z) : option (Bench Z) :=
  match evs with
  | [] => Some b
  | ev :: evs => match bstep ev b with Some (inr b) => benchRun evs b | _ => None end
  end.

Lemma benchRun_steps evs b b' : benchRun evs b = Some b' → rtc bench_step b b'.
Proof.
  revert b. induction evs as [|ev evs IH]; cbn; intros b HR; [by simplify_eq|].
  destruct (bstep ev b) as [[|b1]|] eqn:HS; [done| |done]. eapply rtc_l; [by exists ev|auto].
Qed.

Definition bench1 : Bench Z :=
  default (init_bench (λ _, mkEnv 0 0) 3) (benchRun bench_run (init_bench (λ _, mkEnv 0 0) 3)).

Lemma three_same {A} (x : A) (i : nat) c : [x; x; x] !! i = Some c → c = x.
Proof. intros Hc%list_elem_of_lookup_2. set_solver. Qed.

(** The copies read at one moment. *)
Definition copiesOf (cfg : config Z) : list (option Failure * gmap Z (option Z)) := zip (applyErr cfg) (logs cfg).

Lemma bench1_reached : rtc bench_step (init_bench (λ _, mkEnv 0 0) 3) bench1.
Proof. apply (benchRun_steps bench_run). vm_compute. reflexivity. Qed.

Lemma bench1_reads : reads_at (λ _, mkEnv 0 0) 3 [bench1; bench1; bench1] (copiesOf (b_config bench1)).
Proof.
  pose proof (three_same bench1) as H3.
  split_and!.
  - intros i b ->%H3. apply bench1_reached.
  - intros i j b b' _ ->%H3 ->%H3. done.
  - intros i [err l] (He & Hl)%lookup_zip_Some. exists bench1. split; [|split; [exact He|exact Hl]].
    apply lookup_lt_Some in Hl. assert (length (logs (b_config bench1)) = 3%nat) as H by (vm_compute; reflexivity).
    rewrite H in Hl. destruct i as [|[|[|i]]]; [reflexivity..|lia].
Qed.

Lemma harness_never_objects_witness :
  nCommitted 1 (copiesOf (b_config bench1)) = inr (2, Some 7) ∧ (∀ ev e, bstep ev bench1 ≠ Some (inl e)) ∧
  ∃ count cmd, nCommitted 1 (copiesOf (b_config bench1)) = inr (count, cmd) ∧
    count = zlen (filter (λ v, is_Some (v.2 !! 1)) (copiesOf (b_config bench1))).
Proof.
  split; [vm_compute; reflexivity|].
  destruct (harness_never_objects (λ _, mkEnv 0 0) 3 bench1) as [Hev Hn]; [lia|apply bench1_reached|].
  split; [exact Hev|]. destruct (Hn _ _ 1 bench1_reads) as (count & cmd & H1 & H2 & _). exists count, cmd. by split.
Defined.

Definition elected : Cluster Z := default c0 (run first_leader c0).
Definition seen3 : list Look := [(true, (1, true)); (true, (1, false)); (false, (1, false))].

Lemma elected_reached : rtc step (init_cluster (λ _, mkEnv 0 0) 3) elected.
Proof. apply (run_steps first_leader). vm_compute. reflexivity. Qed.

Lemma elected_looks : looks_at (λ _, mkEnv 0 0) 3 [elected; elected; elected] seen3.
Proof.
  split; [|split].
  - intros i c Hc. rewrite (three_same _ _ _ Hc). apply elected_reached.
  - intros i j c c' _ Hc Hc'. by rewrite (three_same _ _ _ Hc), (three_same _ _ _ Hc').
  - assert (∀ i l, seen3 !! i = Some l → (GetState <$> nodes elected !! Z.of_nat i) = Some l.2 ∧ (i < 3)%nat) as H.
    { intros [|[|[|i]]] l [= <-]; (split; [vm_compute; reflexivity|lia]). }
    intros i l [Hn Hi]%H. apply fmap_Some in Hn as (rf & Hrf & ->). exists elected, rf. split; [|done].
    by destruct i as [|[|[|i]]]; [..|lia].
Qed.

(** The first server is asked before the second, which has stood in the meantime. *)
Lemma checkOneLeader_round_witness : oneLeaderRound seen3 = inr (Some 0).
Proof.
  destruct (checkOneLeader_round (λ _, mkEnv 0 0) 3 [elected; elected; elected] seen3) as [[_ H]|(i & t & Hr & Hs & _)]; [lia| | |].
  - exact elected_looks.
  - exfalso. apply (H 0%nat 1). reflexivity.
  - destruct i as [|[|[|i]]]; cbn in Hs; try done.
Defined.

(** A test that submits the command to the elected leader and finds it committed. *)
Definition sights1 (k : nat) : Sight Z :=
  mkSight (Z.of_nat k * Second) false (copiesOf (b_config bench1)) ((λ i, (true, nodes elected !! i)) <$> [0; 1; 2]).

Lemma one_correct_witness :
  one 3 sights1 7 3 2 true = Some (inr 1) ∧
  ∃ fuel r, ∀ fuel', (fuel <= fuel')%nat → one fuel' sights1 7 3 2 true = Some r.
Proof.
  split; [vm_compute; reflexivity|].
  destruct (one_correct sights1 7 3 2 true) as (fuel & r & Hr & _).
  - intros T. exists (Z.to_nat T). intros k Hk. change (clock (sights1 k)) with (Z.of_nat k * Second).
    change Second with 1000000000. lia.
  - exists fuel, r. exact Hr.
Defined.

End BenchExamples.
