(* ===== verification/RaftApi.v ===== *)
(** * What a service may rely on in Raft

    The interface a service has to its Raft peer, with the laws the services'
    theorems use; the peer of [Raft] implements it on states that satisfy the
    invariant of [RaftState]. *)

From S2P Require Import Prelude LabGob Persister Raft RaftLog RaftState.

Class RaftApi (Cmd R : Type) := {
  rf_ok : R → Prop;
  rf_GetState : R → Z * bool;
  rf_Start : Cmd → R → option (R * (Z * Z * bool));
  rf_Snapshot : Z → bytes → R → option R;
  rf_StateSize : R → Z;
  rf_Kill : R → R;
  (* Start never panics; it appends for a leader, at its term, and refuses otherwise *)
  rf_Start_law : ∀ cmd r, rf_ok r → ∃ r' ret,
    rf_Start cmd r = Some (r', ret) ∧ rf_ok r' ∧ rf_GetState r' = rf_GetState r ∧
    if (rf_GetState r).2 then ∃ idx, ret = (idx, (rf_GetState r).1, true)
    else r' = r ∧ ret = (-1, -1, false);
  rf_Snapshot_law : ∀ idx data r, rf_ok r → ∃ r',
    rf_Snapshot idx data r = Some r' ∧ rf_ok r' ∧ rf_GetState r' = rf_GetState r;
  rf_Kill_law : ∀ r, rf_ok r → rf_ok (rf_Kill r) ∧ rf_GetState (rf_Kill r) = rf_GetState r;
}.

Section raft_api.
Context {Cmd : Type} `{!Gob (PersistentState Cmd)}.
Implicit Types rf : Raft Cmd.

Lemma Start_GetState cmd rf rf' r : Start cmd rf = Some (rf', r) → GetState rf' = GetState rf.
Proof.
  unfold Start. intros HS. destruct (negb _); [by simplify_eq|].
  inv_bind HS. inv_bind HS. inv_bind HS. by simplify_eq.
Qed.

Lemma Snapshot_GetState idx data rf rf' : Snapshot idx data rf = Some rf' → GetState rf' = GetState rf.
Proof.
  unfold Snapshot. intros HS. destruct (_ <? _); [by simplify_eq|].
  inv_bind HS. destruct x as [[[? ?] ?] ?]. by simplify_eq.
Qed.

#[export] Program Instance raft_api : RaftApi Cmd (Raft Cmd) := {|
  rf_ok := inv;
  rf_GetState := GetState;
  rf_Start := Start;
  rf_Snapshot := Snapshot;
  rf_StateSize := GetRaftStateSize;
  rf_Kill := Kill;
|}.
Next Obligation.
  intros cmd rf I. destruct (Start_inv cmd rf I) as (rf' & r & HS & I' & HL & HN).
  exists rf', r. split_and!; [done..|by eapply Start_GetState|]. simpl. case_bool_decide as Hl.
  - destruct (HL Hl) as [-> _]. by eexists.
  - by destruct (HN Hl) as [-> ->].
Qed.
Next Obligation.
  intros idx data rf I. destruct (Snapshot_inv idx data rf I) as (rf' & HS & I').
  exists rf'. split_and!; [done..|by eapply Snapshot_GetState].
Qed.
Next Obligation.
  intros rf I. split; [|done]. apply (inv_frame rf); [done| |by left]. by apply (wf_views rf), I.
Qed.

End raft_api.
