(* ===== verification/Dedup.v ===== *)
(** * Exactly-once execution

    The services apply the commands of a log in which a retried request may
    appear many times.  Each keeps, per client, the largest request number it
    has executed and skips a command that does not exceed it.  Here the
    technique on its own: an arbitrary state, operation and numbering. *)

From S2P Require Import Prelude.

(** A command that carries the number its client gave it. *)
Class Request (Op : Type) := {
  client : Op → Z;
  reqno : Op → Z;
}.

Arguments client : simpl never.
Arguments reqno : simpl never.

(** What a Go map of int64 returns for a key it may not have. *)
Definition completed (pool : gmap Z Z) (c : Z) : Z := default 0 (pool !! c).

Section dedup.
Context {Op : Type} `{!Request Op}.
Implicit Types (op : Op) (l : list Op) (pool : gmap Z Z).

Definition isFresh pool op : bool := completed pool (client op) <? reqno op.
Definition record op pool : gmap Z Z := <[client op := reqno op]> pool.

Definition session_apply {S} (exec : Op → S → S) (sp : S * gmap Z Z) op : S * gmap Z Z :=
  if isFresh sp.2 op then (exec op sp.1, record op sp.2) else sp.

(** The session table a log leaves, and the commands of the log it lets through. *)
Definition pool_step pool op : gmap Z Z := if isFresh pool op then record op pool else pool.
Definition pool_after pool l : gmap Z Z := foldl pool_step pool l.

Fixpoint fresh pool l : list Op :=
  match l with
  | [] => []
  | op :: l => (if isFresh pool op then [op] else []) ++ fresh (pool_step pool op) l
  end.

(** The same command: same client, same number. *)
Definition same_request op op' : Prop := client op = client op' ∧ reqno op = reqno op'.
#[export] Instance same_request_dec op op' : Decision (same_request op op').
Proof. unfold same_request. apply _. Defined.

(** The first occurrence of every command. *)
Fixpoint firsts (seen l : list Op) : list Op :=
  match l with
  | [] => []
  | op :: l => (if decide (Exists (same_request op) seen) then [] else [op]) ++ firsts (seen ++ [op]) l
  end.

(** How a clerk numbers its requests: from 1 on, and a later request only once
    the earlier one is in the log, so that a number out of order is a repeat. *)
Definition clerk_ordered l : Prop :=
  ∀ k op, l !! k = Some op → 1 <= reqno op ∧
    ∀ op', op' ∈ take k l → client op' = client op → reqno op < reqno op' →
      Exists (same_request op) (take k l).

Lemma pool_after_app pool l l' : pool_after pool (l ++ l') = pool_after (pool_after pool l) l'.
Proof. apply foldl_app. Qed.

Lemma session_apply_log {S} (exec : Op → S → S) s pool l :
  foldl (session_apply exec) (s, pool) l = (foldl (flip exec) s (fresh pool l), pool_after pool l).
Proof.
  revert s pool. induction l as [|op l IH]; intros s pool; [done|]. simpl.
  unfold session_apply at 2, pool_step. simpl. destruct (isFresh pool op); by rewrite IH.
Qed.

Lemma fresh_app pool l l' : fresh pool (l ++ l') = fresh pool l ++ fresh (pool_after pool l) l'.
Proof. revert pool. induction l as [|op l IH]; intros pool; [done|]. simpl. by rewrite IH, app_assoc. Qed.

Lemma firsts_elem seen l op : op ∈ firsts seen l → op ∈ l.
Proof.
  revert seen. induction l as [|x l IH]; intros seen; simpl; [done|].
  case_decide; set_solver.
Qed.

Lemma firsts_app seen l l' : firsts seen (l ++ l') = firsts seen l ++ firsts (seen ++ l) l'.
Proof.
  revert seen. induction l as [|op l IH]; intros seen; simpl; [by rewrite app_nil_r|].
  by rewrite IH, <-!app_assoc.
Qed.

(** The table holds the largest number of each client, and it is that of a
    command of the log. *)
Lemma completed_step pool op c :
  completed (pool_step pool op) c =
  if decide (client op = c) then Z.max (completed pool c) (reqno op) else completed pool c.
Proof.
  unfold pool_step, isFresh. destruct (Z.ltb_spec (completed pool (client op)) (reqno op)) as [Hlt|Hge].
  - unfold record, completed in *. destruct (decide _) as [<-|Hne].
    + rewrite lookup_insert_eq. simpl. lia.
    + by rewrite lookup_insert_ne.
  - destruct (decide _) as [<-|]; lia.
Qed.

Lemma completed_mono pool l c : completed pool c <= completed (pool_after pool l) c.
Proof.
  revert pool. induction l as [|op l IH]; intros pool; [done|]. change (pool_after pool (op :: l)) with (pool_after (pool_step pool op) l).
  etransitivity; [|apply IH]. rewrite completed_step. destruct (decide _); lia.
Qed.

Lemma completed_ge pool l op : op ∈ l → reqno op <= completed (pool_after pool l) (client op).
Proof.
  intros (l1 & l2 & ->)%list_elem_of_split. rewrite pool_after_app.
  change (op :: l2) with ([op] ++ l2). rewrite pool_after_app.
  etransitivity; [|apply completed_mono]. simpl. rewrite completed_step.
  rewrite decide_True by done. lia.
Qed.

Lemma completed_attained pool l c :
  completed (pool_after pool l) c = completed pool c ∨
  ∃ op, op ∈ l ∧ client op = c ∧ reqno op = completed (pool_after pool l) c.
Proof.
  induction l as [|op l IH] using rev_ind; [by left|]. rewrite pool_after_app. simpl.
  rewrite completed_step. destruct (decide (client op = c)) as [Hc|].
  - destruct (Z.max_spec (completed (pool_after pool l) c) (reqno op)) as [[_ ->]|[_ ->]].
    + right. exists op. set_solver.
    + destruct IH as [IH|(op' & ? & ? & ?)]; [by left|right; exists op'; set_solver].
  - destruct IH as [IH|(op' & ? & ? & ?)]; [by left|right; exists op'; set_solver].
Qed.

(** A command already covered by the log has no effect. *)
Lemma duplicate_ignored {S} (exec : Op → S → S) s pool l l' op op' :
  op' ∈ l → client op' = client op → reqno op <= reqno op' →
  foldl (session_apply exec) (s, pool) (l ++ op :: l') = foldl (session_apply exec) (s, pool) (l ++ l').
Proof.
  intros Hin Hc Hle. rewrite !foldl_app. simpl. rewrite session_apply_log.
  unfold session_apply at 2, isFresh. simpl. apply (completed_ge pool) in Hin. rewrite Hc in Hin.
  by destruct (Z.ltb_spec (completed (pool_after pool l) (client op)) (reqno op)); [lia|].
Qed.

(** On a log numbered by clerks the table lets through the first occurrence of
    every command and nothing else. *)
Lemma fresh_firsts l : clerk_ordered l → fresh ∅ l = firsts [] l.
Proof.
  induction l as [|op l IH] using rev_ind; [done|]. intros HO.
  rewrite fresh_app, firsts_app, IH; simpl.
  2:{ intros k o Hk. destruct (HO k o) as [H1 H2]; [by apply lookup_app_l_Some|].
      rewrite take_app_le in H2 by (apply lookup_lt_Some in Hk; lia). done. }
  f_equal. rewrite !app_nil_r. destruct (HO (length l) op) as [H1 H2]; [by apply list_lookup_middle|].
  rewrite take_app_length in H2. unfold isFresh.
  destruct (Z.ltb_spec (completed (pool_after ∅ l) (client op)) (reqno op)) as [Hlt|Hge];
    destruct (decide (Exists (same_request op) l)) as [HE|HE]; [|done..|].
  - apply Exists_exists in HE as (o & Ho & Hc & Hr). apply (completed_ge ∅) in Ho. rewrite <-Hc in Ho. lia.
  - destruct (completed_attained ∅ l (client op)) as [H0|(o & Ho & Hc & Hr)].
    { change (completed ∅ (client op)) with 0 in H0. lia. }
    destruct HE. destruct (decide (reqno op = reqno o)) as [He|Hne].
    + apply Exists_exists. exists o. by split_and!.
    + apply (H2 o); [done|done|lia].
Qed.

Lemma clerk_ordered_take l n : clerk_ordered l → clerk_ordered (take n l).
Proof.
  intros HO k op Hk. apply lookup_take_Some in Hk as [Hk Hlt]. rewrite take_take.
  replace (min k n) with k by lia. auto.
Qed.

Lemma clerk_ordered_snoc l op :
  clerk_ordered l → 1 <= reqno op →
  (∀ op', op' ∈ l → client op' = client op → reqno op < reqno op' → Exists (same_request op) l) →
  clerk_ordered (l ++ [op]).
Proof.
  intros HO H1 Hnew k o [Hk|[Hge Hk]]%lookup_app_Some.
  - rewrite take_app_le by (apply lookup_lt_Some in Hk; lia). auto.
  - apply list_lookup_singleton_Some in Hk as [Hk <-]. replace k with (length l) by lia.
    rewrite take_app_length. auto.
Qed.

(** A request of the log is executed once. *)
Lemma firsts_once l op :
  Exists (same_request op) l → length (filter (same_request op) (firsts [] l)) = 1%nat.
Proof.
  assert (length (filter (same_request op) (firsts [] l)) =
          if decide (Exists (same_request op) l) then 1%nat else 0%nat) as H; [|by intros; rewrite H, decide_True].
  induction l as [|o l IH] using rev_ind; [by rewrite decide_False by (by intros ?%Exists_nil)|].
  rewrite firsts_app, filter_app, length_app, IH. simpl. rewrite app_nil_r.
  destruct (decide (Exists (same_request op) l)) as [HE|HE].
  - rewrite (decide_True (P:=Exists _ (l ++ [o]))) by (apply Exists_app; by left).
    destruct (decide (Exists (same_request o) l)) as [|Ho]; [done|].
    rewrite filter_cons_False; [done|]. intros [Hc Hr]. apply Ho.
    apply Exists_exists in HE as (o' & ? & ? & ?). apply Exists_exists. exists o'.
    split_and!; [done|split; congruence].
  - destruct (decide (same_request op o)) as [[Hc Hr]|Hno].
    + rewrite decide_False.
      2:{ intros HE'. apply HE. apply Exists_exists in HE' as (o' & ? & ? & ?).
          apply Exists_exists. exists o'. split_and!; [done|split; congruence]. }
      rewrite filter_cons_True by done. rewrite decide_True; [done|].
      apply Exists_app. right. by constructor.
    + rewrite (decide_False (P:=Exists _ (l ++ [o]))).
      2:{ intros [?|Hl]%Exists_app; [done|]. apply Exists_cons in Hl as [?|?%Exists_nil]; done. }
      destruct (decide _); [done|]. by rewrite filter_cons_False.
Qed.

End dedup.
