(* ===== verification/Clerk.v ===== *)
(** * The clerks' retry loop

    Every clerk sends its request to one server after the other until one
    answers with success.  [call k i] is the outcome of the [k]-th RPC the loop
    sends, to server [i]: [None] when [Call] returns false. *)

From S2P Require Import Prelude.

Section retry.
Context {Reply : Type} (good : Reply → bool) (call : nat → Z → option Reply).

(** One pass over the servers: the server that answered and its reply, or the
    number of the next RPC. *)
Fixpoint sweep (k : nat) (servers : list Z) : (Z * Reply) + nat :=
  match servers with
  | [] => inr k
  | i :: servers =>
    match call k i with
    | Some reply => if good reply then inl (i, reply) else sweep (S k) servers
    | None => sweep (S k) servers
    end
  end.

(** [for { ... }], at most [fuel] passes. *)
Fixpoint retry (fuel k : nat) (servers : list Z) : option (Z * Reply) :=
  match fuel with
  | O => None
  | S fuel =>
    match sweep k servers with
    | inl r => Some r
    | inr k => retry fuel k servers
    end
  end.

(** The loop's answer is a successful reply to one of its RPCs. *)
Lemma sweep_sound k servers i r :
  sweep k servers = inl (i, r) → i ∈ servers ∧ good r = true ∧ ∃ k', (k <= k')%nat ∧ call k' i = Some r.
Proof.
  revert k. induction servers as [|s servers IH]; intros k; simpl; [done|].
  destruct (call k s) as [reply|] eqn:E; [destruct (good reply) eqn:G|].
  - intros [= <- <-]. split_and!; [by left|done|]. exists k. split; [lia|done].
  - intros (? & ? & k' & ? & ?)%IH. split_and!; [by right|done|]. exists k'. split; [lia|done].
  - intros (? & ? & k' & ? & ?)%IH. split_and!; [by right|done|]. exists k'. split; [lia|done].
Qed.

Lemma sweep_next k servers k' : sweep k servers = inr k' → k' = (k + length servers)%nat.
Proof.
  revert k. induction servers as [|s servers IH]; intros k; simpl; [intros [= <-]; lia|].
  intros HS. assert (sweep (S k) servers = inr k') as ->%IH; [|lia].
  destruct (call k s) as [reply|]; [destruct (good reply); done|done].
Qed.

Lemma sweep_finds k servers s :
  s ∈ servers → (∀ k', (k <= k')%nat → ∃ r, call k' s = Some r ∧ good r = true) →
  ∃ r, sweep k servers = inl r.
Proof.
  revert k. induction servers as [|t servers IH]; intros k; [by intros ?%elem_of_nil|].
  intros Hs Hup. simpl. destruct (decide (s = t)) as [->|Hne].
  - destruct (Hup k) as (r & -> & ->); [lia|]. by eexists.
  - apply elem_of_cons in Hs as [?|Hs]; [done|].
    destruct (IH (S k) Hs) as [r Hr]; [intros k' ?; apply Hup; lia|].
    destruct (call k t) as [reply|]; [destruct (good reply)|]; eauto.
Qed.

Lemma retry_sound fuel k servers i r :
  retry fuel k servers = Some (i, r) →
  i ∈ servers ∧ good r = true ∧ ∃ k', (k <= k')%nat ∧ call k' i = Some r.
Proof.
  revert k. induction fuel as [|fuel IH]; intros k; simpl; [done|].
  destruct (sweep k servers) as [[i' r']|k1] eqn:E; [intros [= <- <-]; by apply sweep_sound|].
  intros (? & ? & k' & ? & ?)%IH. apply sweep_next in E. split_and!; [done..|].
  exists k'. split; [lia|done].
Qed.

(** If some server answers every RPC from the [K]-th on, the loop ends. *)
Lemma retry_total K servers s :
  s ∈ servers → (∀ k, (K <= k)%nat → ∃ r, call k s = Some r ∧ good r = true) →
  ∀ d k, (K <= k + d)%nat → is_Some (retry (S d) k servers).
Proof.
  intros Hs Hup. assert (1 <= length servers)%nat by (destruct servers; [by apply elem_of_nil in Hs|simpl; lia]).
  induction d as [|d IH]; intros k Hk; simpl; destruct (sweep k servers) as [r|k1] eqn:E; eauto.
  - destruct (sweep_finds k servers s Hs) as [r Hr]; [intros; apply Hup; lia|congruence].
  - apply sweep_next in E. apply IH. lia.
Qed.

(** The loop takes the first reply that is good, whichever server sends it. *)
Lemma sweep_first K r k servers :
  (∀ k' i, (k' < K)%nat → call k' i = None) → (∀ i, call K i = Some r) → good r = true →
  (k <= K)%nat →
  if decide (K < k + length servers)%nat then snd <$> (maybe inl (sweep k servers)) = Some r
  else sweep k servers = inr (k + length servers)%nat.
Proof.
  intros Hno Hyes Hg. revert k. induction servers as [|s servers IH]; intros k Hk; simpl.
  { rewrite decide_False by lia. f_equal. lia. }
  destruct (decide (k = K)) as [->|Hne].
  { rewrite Hyes, Hg, decide_True by lia. done. }
  rewrite Hno by lia. specialize (IH (S k) ltac:(lia)). rewrite <-Nat.add_succ_comm. exact IH.
Qed.

Lemma retry_first K r servers fuel k :
  (∀ k' i, (k' < K)%nat → call k' i = None) → (∀ i, call K i = Some r) → good r = true →
  servers ≠ [] → (k <= K < k + fuel)%nat → snd <$> retry fuel k servers = Some r.
Proof.
  intros Hno Hyes Hg Hs. revert k. induction fuel as [|fuel IH]; intros k Hk; [lia|]. simpl.
  pose proof (sweep_first K r k servers Hno Hyes Hg ltac:(lia)) as HS.
  destruct (decide _).
  - by destruct (sweep k servers).
  - rewrite HS. apply IH. destruct servers; [done|]. simpl in *. lia.
Qed.

End retry.
