(* ===== verification/KVRaft.v ===== *)
(** * The replicated key/value service (kvraft)

    [KVServer] over any implementation of [RaftApi], its RPC handlers, the loop
    that applies committed commands, snapshots, and the [Clerk].  A handler that
    waits on a condition variable is split at the wait: [...Begin] runs up to it,
    [...Resume] is one wake-up. *)

From S2P Require Import Prelude LabGob Persister Raft RaftLog RaftState RaftApi Dedup Clerk.

Definition T_PUT : string := "Put".
Definition T_APPEND : string := "Append".

Record PutAppendArgs := mkPA {
  pa_Key : string; pa_Value : string; pa_Op : string; pa_ClientId : Z; pa_ReqNo : Z }.
(** The [Err] field of both replies is never written. *)
Record PutAppendReply := mkPAReply { par_Success : bool }.
Record GetArgs := mkGet { ga_Key : string; ga_ClientId : Z; ga_ReqNo : Z }.
Record GetReply := mkGetReply { gr_Value : string; gr_Success : bool }.

Record Op := mkOp {
  IsGetOp : bool; GetArg : GetArgs; PutAppendArg : PutAppendArgs; ClientId : Z; ReqNo : Z }.

Definition GetArgs0 := mkGet "" 0 0.
Definition PutAppendArgs0 := mkPA "" "" "" 0 0.

#[export] Instance op_request : Request Op := {| client := ClientId; reqno := ReqNo |}.

(** ** The server *)

Section kvserver.
Context {R : Type} `{!RaftApi Op R}.

(** What [Snapshot] encodes, in its order. *)
Definition SnapshotState : Type := Z * gmap Z Z * gmap string string.
Context `{!Gob SnapshotState}.

(** [CompletedCondPool] by its keys: the condition variables hold no data. *)
Record KVServer := mkKVServer {
  me : Z;
  rf : R;
  dead : Z;
  maxraftstate : Z;
  KVMap : gmap string string;
  CompletedPool : gmap Z Z;
  CompletedCondPool : gset Z;
  CommitedId : Z;
}.

#[export] Instance eta_KVServer : Eta KVServer := λ kv,
  mkKVServer (me kv) (rf kv) (dead kv) (maxraftstate kv) (KVMap kv) (CompletedPool kv)
    (CompletedCondPool kv) (CommitedId kv).
#[export] Instance set_rf : Setter rf.
Proof. setter. Defined.
#[export] Instance set_dead : Setter dead.
Proof. setter. Defined.
#[export] Instance set_KVMap : Setter KVMap.
Proof. setter. Defined.
#[export] Instance set_CompletedPool : Setter CompletedPool.
Proof. setter. Defined.
#[export] Instance set_CompletedCondPool : Setter CompletedCondPool.
Proof. setter. Defined.
#[export] Instance set_CommitedId : Setter CommitedId.
Proof. setter. Defined.

(** [kv.KVMap[key]] of an absent key is the empty string. *)
Definition getValue (m : gmap string string) (key : string) : string := default "" (m !! key).

(** [inl reply]: the handler returns; [inr startTerm]: it waits. *)
Definition GetBegin (args : GetArgs) (kv : KVServer) : option (KVServer * (GetReply + Z)) :=
  if negb (rf_GetState (rf kv)).2 then Some (kv, inl (mkGetReply "" false))
  else if ga_ReqNo args <=? completed (CompletedPool kv) (ga_ClientId args)
  then Some (kv, inl (mkGetReply (getValue (KVMap kv) (ga_Key args)) true))
  else
    let op := mkOp true args PutAppendArgs0 (ga_ClientId args) (ga_ReqNo args) in
    '(r, ret) ← rf_Start op (rf kv);
    let '(_, startTerm, isLeader) := ret in
    let kv := kv <| rf := r |> in
    if negb isLeader then Some (kv, inl (mkGetReply "" false))
    else Some (kv <| CompletedCondPool := {[ga_ClientId args]} ∪ CompletedCondPool kv |>, inr startTerm).

(** [None]: wait again. *)
Definition resume (startTerm clientId reqNo : Z) (kv : KVServer) : option bool :=
  let '(curTerm, isLeader) := rf_GetState (rf kv) in
  if negb (curTerm =? startTerm) || negb isLeader then Some false
  else match CompletedPool kv !! clientId with
  | Some completedReq => if completedReq =? reqNo then Some true else None
  | None => None
  end.

Definition GetResume (args : GetArgs) (startTerm : Z) (kv : KVServer) : option GetReply :=
  success ← resume startTerm (ga_ClientId args) (ga_ReqNo args) kv;
  Some (if (success : bool) then mkGetReply (getValue (KVMap kv) (ga_Key args)) true
        else mkGetReply "" false).

Definition PutAppendBegin (args : PutAppendArgs) (kv : KVServer)
    : option (KVServer * (PutAppendReply + Z)) :=
  if negb (rf_GetState (rf kv)).2 then Some (kv, inl (mkPAReply false))
  else if pa_ReqNo args <=? completed (CompletedPool kv) (pa_ClientId args)
  then Some (kv, inl (mkPAReply true))
  else
    let op := mkOp false GetArgs0 args (pa_ClientId args) (pa_ReqNo args) in
    '(r, ret) ← rf_Start op (rf kv);
    let '(_, startTerm, isLeader) := ret in
    let kv := kv <| rf := r |> in
    if negb isLeader then Some (kv, inl (mkPAReply false))
    else Some (kv <| CompletedCondPool := {[pa_ClientId args]} ∪ CompletedCondPool kv |>, inr startTerm).

Definition PutAppendResume (args : PutAppendArgs) (startTerm : Z) (kv : KVServer) : option PutAppendReply :=
  success ← resume startTerm (pa_ClientId args) (pa_ReqNo args) kv;
  Some (mkPAReply success).

Definition Kill (kv : KVServer) : KVServer := kv <| dead := 1 |> <| rf := rf_Kill (rf kv) |>.
Definition killed (kv : KVServer) : bool := dead kv =? 1.

Definition ReadSnapshot (data : bytes) (kv : KVServer) : option KVServer :=
  if bool_decide (data = []) then Some kv
  else match gob_decode data with
  | None => Some kv
  | Some (commitedId, completedPool, kvMap) =>
    let kv := kv <| CommitedId := commitedId |> <| KVMap := kvMap |>
                 <| CompletedPool := completedPool |> in
    r ← rf_Snapshot (CommitedId kv) data (rf kv);
    Some (kv <| rf := r |>)
  end.

(** One round of [Snapshot]. *)
Definition Snapshot (kv : KVServer) : option KVServer :=
  if (maxraftstate kv =? -1) || (rf_StateSize (rf kv) <? maxraftstate kv) then Some kv
  else
    let data := gob_encode (CommitedId kv, CompletedPool kv, KVMap kv) in
    r ← rf_Snapshot (CommitedId kv) data (rf kv);
    Some (kv <| rf := r |>).

(** The switch of [applyLog]. *)
Definition execute (op : Op) (m : gmap string string) : gmap string string :=
  if negb (IsGetOp op) then
    let a := PutAppendArg op in
    if String.eqb (pa_Op a) T_PUT then <[pa_Key a := pa_Value a]> m
    else if String.eqb (pa_Op a) T_APPEND
    then <[pa_Key a := (getValue m (pa_Key a) +:+ pa_Value a)%string]> m
    else m
  else m.

Definition max (a b : Z) : Z := if b <? a then a else b.

(** One message of [applyLog]; a command that is not an [Op] panics. *)
Definition applyLog (applyMsg : ApplyMsg Op) (kv : KVServer) : option KVServer :=
  if CommandValid applyMsg then
    msg ← MsgCommand applyMsg;
    let kv :=
      if completed (CompletedPool kv) (ClientId msg) <? ReqNo msg
      then kv <| KVMap := execute msg (KVMap kv) |>
              <| CompletedPool := <[ClientId msg := ReqNo msg]> (CompletedPool kv) |>
      else kv in
    Some (kv <| CommitedId := max (CommitedId kv) (CommandIndex applyMsg) |>)
  else if CommitedId kv <? SnapshotIndex applyMsg then ReadSnapshot (Snapshot_ applyMsg) kv
  else Some kv.

(** [StartKVServer], given the Raft peer that [raft.Make] returned. *)
Definition StartKVServer (r : R) (my : Z) (ps : Persister) (maxrs : Z) : option KVServer :=
  let kv := mkKVServer my r 0 maxrs ∅ ∅ ∅ 0 in
  ReadSnapshot (Persister.ReadSnapshot ps) kv.

(** ** Applying the log *)

Definition commandMsg (op : Op) (idx : Z) : ApplyMsg Op := mkApplyMsg true (Some op) idx false [] 0 0.

Definition service (kv : KVServer) : gmap string string * gmap Z Z := (KVMap kv, CompletedPool kv).

(** A log without the numbers: every command takes effect. *)
Definition kv_spec (l : list Op) : gmap string string := foldl (flip execute) ∅ l.

Lemma applyLog_command op idx kv :
  ∃ kv', applyLog (commandMsg op idx) kv = Some kv' ∧
    service kv' = session_apply execute (service kv) op ∧
    CommitedId kv' = Z.max (CommitedId kv) idx ∧ rf kv' = rf kv.
Proof.
  unfold applyLog, commandMsg, service, session_apply, isFresh, record, client, reqno. simpl.
  eexists. split; [done|]. unfold max. destruct (_ <? ReqNo op); simpl; split_and!; try done; destruct (Z.ltb_spec idx (CommitedId kv)); lia.
Qed.

(** A run of [applyLog] over a sequence of messages. *)
Definition applyAll (msgs : list (ApplyMsg Op)) (kv : KVServer) : option KVServer :=
  foldl (λ acc m, kv ← acc; applyLog m kv) (Some kv) msgs.

Lemma applyAll_cons m msgs kv kv' :
  applyLog m kv = Some kv' → applyAll (m :: msgs) kv = applyAll msgs kv'.
Proof. intros H. unfold applyAll. simpl. by rewrite H. Qed.

Lemma applyAll_commands (l : list (Op * Z)) kv :
  ∃ kv', applyAll (uncurry commandMsg <$> l) kv = Some kv' ∧
    service kv' = foldl (session_apply execute) (service kv) l.*1 ∧
    CommitedId kv' = foldl Z.max (CommitedId kv) l.*2 ∧ rf kv' = rf kv.
Proof.
  revert kv. induction l as [|[op idx] l IH]; intros kv; [by exists kv|].
  destruct (applyLog_command op idx kv) as (kv1 & H1 & Hs & Hc & Hr).
  destruct (IH kv1) as (kv' & HA & Hs' & Hc' & Hr'). exists kv'. rewrite !fmap_cons. simpl.
  rewrite (applyAll_cons _ _ _ _ H1). split_and!; [done|by rewrite Hs', Hs|by rewrite Hc', Hc|congruence].
Qed.

(** A committed command takes effect exactly once.  Whatever sequence of
    commands the server is sent, it never panics, its table is the key/value
    machine run on the commands that get past the session filter, and when the
    requests are numbered the way clerks do those are the first occurrence of
    each request, however often it was retried. *)
Theorem applyLog_exactly_once (l : list (Op * Z)) kv :
  service kv = (∅, ∅) →
  ∃ kv', applyAll (uncurry commandMsg <$> l) kv = Some kv' ∧
    KVMap kv' = kv_spec (fresh ∅ l.*1) ∧ CompletedPool kv' = pool_after ∅ l.*1 ∧
    (clerk_ordered l.*1 → KVMap kv' = kv_spec (firsts [] l.*1)).
Proof.
  intros H0. destruct (applyAll_commands l kv) as (kv' & HA & Hs & _ & _).
  rewrite H0, session_apply_log in Hs. injection Hs as HK HC.
  exists kv'. split_and!; [done..|]. intros HO. by rewrite HK, fresh_firsts.
Qed.

(** ** Snapshots *)

Definition snapshotMsg (idx term : Z) (data : bytes) : ApplyMsg Op :=
  mkApplyMsg false None 0 true data term idx.

Definition snapshotData (kv : KVServer) : bytes := gob_encode (CommitedId kv, CompletedPool kv, KVMap kv).

(** Reading back what [Snapshot] wrote. *)
Lemma ReadSnapshot_data kv0 kv :
  rf_ok (rf kv) →
  ∃ kv', ReadSnapshot (snapshotData kv0) kv = Some kv' ∧ service kv' = service kv0 ∧
    CommitedId kv' = CommitedId kv0 ∧ rf_ok (rf kv') ∧ rf_GetState (rf kv') = rf_GetState (rf kv).
Proof.
  intros Hok. unfold ReadSnapshot, snapshotData.
  rewrite bool_decide_false by apply gob_encode_nonempty. rewrite gob_decode_encode. simpl.
  destruct (rf_Snapshot_law (CommitedId kv0) (gob_encode (CommitedId kv0, CompletedPool kv0, KVMap kv0)) (rf kv) Hok)
    as (r' & -> & Hok' & HG).
  simpl. eexists. by split_and!.
Qed.

(** Servers that agree on the service state go on agreeing. *)
Lemma applyAll_agree (l : list (Op * Z)) kv1 kv2 :
  service kv1 = service kv2 → CommitedId kv1 = CommitedId kv2 →
  ∃ kv1' kv2', applyAll (uncurry commandMsg <$> l) kv1 = Some kv1' ∧
    applyAll (uncurry commandMsg <$> l) kv2 = Some kv2' ∧
    service kv1' = service kv2' ∧ CommitedId kv1' = CommitedId kv2'.
Proof.
  intros Hs Hc. destruct (applyAll_commands l kv1) as (kv1' & ? & Hs1 & Hc1 & _).
  destruct (applyAll_commands l kv2) as (kv2' & ? & Hs2 & Hc2 & _).
  exists kv1', kv2'. split_and!; [done..|by rewrite Hs1, Hs2, Hs|by rewrite Hc1, Hc2, Hc].
Qed.

Lemma applyAll_app ms ms' kv kv' :
  applyAll ms kv = Some kv' → applyAll (ms ++ ms') kv = applyAll ms' kv'.
Proof. intros H. unfold applyAll in *. by rewrite foldl_app, H. Qed.

(** C23: a snapshot stands for the log it was made from.  A server that was sent
    the commands [l1] hands Raft the bytes [data]; a server that is behind and
    receives them, and one started from a persister that holds them, go on to
    the state of a server that was sent [l1] and then [l2]. *)
Theorem snapshot_equals_replay (l1 l2 : list (Op * Z)) kv0 kv1 kv2 r ps (idx term my maxrs : Z) :
  applyAll (uncurry commandMsg <$> l1) kv0 = Some kv1 →
  rf_ok (rf kv2) → CommitedId kv2 < idx → rf_ok r → Persister.ReadSnapshot ps = snapshotData kv1 →
  (maxraftstate kv1 ≠ -1 → maxraftstate kv1 <= rf_StateSize (rf kv1) →
     Snapshot kv1 = r' ← rf_Snapshot (CommitedId kv1) (snapshotData kv1) (rf kv1); Some (kv1 <| rf := r' |>)) ∧
  ∃ kv3 kv2' kv4 kv4',
    applyAll (uncurry commandMsg <$> l1 ++ l2) kv0 = Some kv3 ∧
    applyAll (snapshotMsg idx term (snapshotData kv1) :: (uncurry commandMsg <$> l2)) kv2 = Some kv2' ∧
    StartKVServer r my ps maxrs = Some kv4 ∧ applyAll (uncurry commandMsg <$> l2) kv4 = Some kv4' ∧
    (service kv2', CommitedId kv2') = (service kv3, CommitedId kv3) ∧
    (service kv4', CommitedId kv4') = (service kv3, CommitedId kv3).
Proof.
  intros H1 Hok Hlt Hr Hps. split.
  { intros Hm Hsz. unfold Snapshot. rewrite (proj2 (Z.eqb_neq _ _) Hm), (proj2 (Z.ltb_ge _ _) Hsz). done. }
  destruct (ReadSnapshot_data kv1 kv2 Hok) as (kv2a & HR & Hs & Hc & _).
  destruct (applyAll_agree l2 kv1 kv2a) as (kv3 & kv2' & HA & HB & Hs' & Hc'); [done..|].
  destruct (ReadSnapshot_data kv1 (mkKVServer my r 0 maxrs ∅ ∅ ∅ 0) Hr) as (kv4 & HR4 & Hs4 & Hc4 & _).
  destruct (applyAll_agree l2 kv1 kv4) as (kv3' & kv4' & HA' & HB' & Hs4' & Hc4'); [done..|].
  assert (kv3' = kv3) as -> by congruence.
  exists kv3, kv2', kv4, kv4'. rewrite fmap_app, (applyAll_app _ _ _ _ H1).
  rewrite (applyAll_cons _ _ kv2 kv2a).
  2:{ unfold applyLog. simpl. by rewrite (proj2 (Z.ltb_lt _ _) Hlt). }
  unfold StartKVServer. rewrite Hps. split_and!; congruence.
Qed.

(** ** The handlers *)

(** The request a handler's Start gave to Raft, for the state it returns. *)
Definition started (op : Op) (c : Z) kv kv' (out : Z) : Prop :=
  (∃ idx, rf_Start op (rf kv) = Some (rf kv', (idx, out, true))) ∧
  out = (rf_GetState (rf kv)).1 ∧ rf_GetState (rf kv') = rf_GetState (rf kv) ∧
  c ∈ CompletedCondPool kv'.

Lemma Start_leader op kv :
  rf_ok (rf kv) → (rf_GetState (rf kv)).2 = true →
  ∃ r' idx, rf_Start op (rf kv) = Some (r', (idx, (rf_GetState (rf kv)).1, true)) ∧
    rf_ok r' ∧ rf_GetState r' = rf_GetState (rf kv).
Proof.
  intros Hok HL. destruct (rf_Start_law op (rf kv) Hok) as (r' & ret & HS & Hok' & HG & Hret).
  rewrite HL in Hret. destruct Hret as [idx ->]. eauto.
Qed.

(** [Get] on every branch.  It never panics and changes nothing but the
    Raft log and the waiting list.  Off the leader it fails; a number already
    executed is answered from the table at once; otherwise the request is
    given to Raft and the handler waits for it. *)
Theorem Get_correct args kv :
  rf_ok (rf kv) →
  ∃ kv' out, GetBegin args kv = Some (kv', out) ∧
    rf_ok (rf kv') ∧ service kv' = service kv ∧ CommitedId kv' = CommitedId kv ∧
    let leader := (rf_GetState (rf kv)).2 = true in
    let executed := ga_ReqNo args <= completed (CompletedPool kv) (ga_ClientId args) in
    (¬ leader → kv' = kv ∧ out = inl (mkGetReply "" false)) ∧
    (leader → executed → kv' = kv ∧ out = inl (mkGetReply (getValue (KVMap kv) (ga_Key args)) true)) ∧
    (leader → ¬ executed → ∃ t, out = inr t ∧
       started (mkOp true args PutAppendArgs0 (ga_ClientId args) (ga_ReqNo args)) (ga_ClientId args) kv kv' t).
Proof.
  intros Hok. unfold GetBegin. destruct (rf_GetState (rf kv)).2 eqn:HL; simpl; [|by eexists _, _].
  destruct (Z.leb_spec (ga_ReqNo args) (completed (CompletedPool kv) (ga_ClientId args))) as [Hd|Hd].
  { eexists _, _. split; [done|]. split_and!; try done; lia. }
  destruct (Start_leader (mkOp true args PutAppendArgs0 (ga_ClientId args) (ga_ReqNo args)) kv Hok HL)
    as (r' & idx & HS & Hok' & HG).
  rewrite HS. simpl.
  eexists _, _. split; [done|]. split_and!; try done; [lia|]. intros _ _.
  eexists. split; [done|]. split_and!; try done; [by eexists|]. simpl. set_solver.
Qed.

Theorem PutAppend_correct args kv :
  rf_ok (rf kv) →
  ∃ kv' out, PutAppendBegin args kv = Some (kv', out) ∧
    rf_ok (rf kv') ∧ service kv' = service kv ∧ CommitedId kv' = CommitedId kv ∧
    let leader := (rf_GetState (rf kv)).2 = true in
    let executed := pa_ReqNo args <= completed (CompletedPool kv) (pa_ClientId args) in
    (¬ leader → kv' = kv ∧ out = inl (mkPAReply false)) ∧
    (leader → executed → kv' = kv ∧ out = inl (mkPAReply true)) ∧
    (leader → ¬ executed → ∃ t, out = inr t ∧
       started (mkOp false GetArgs0 args (pa_ClientId args) (pa_ReqNo args)) (pa_ClientId args) kv kv' t).
Proof.
  intros Hok. unfold PutAppendBegin. destruct (rf_GetState (rf kv)).2 eqn:HL; simpl; [|by eexists _, _].
  destruct (Z.leb_spec (pa_ReqNo args) (completed (CompletedPool kv) (pa_ClientId args))) as [Hd|Hd].
  { eexists _, _. split; [done|]. split_and!; try done; lia. }
  destruct (Start_leader (mkOp false GetArgs0 args (pa_ClientId args) (pa_ReqNo args)) kv Hok HL)
    as (r' & idx & HS & Hok' & HG).
  rewrite HS. simpl.
  eexists _, _. split; [done|]. split_and!; try done; [lia|]. intros _ _.
  eexists. split; [done|]. split_and!; try done; [by eexists|]. simpl. set_solver.
Qed.

(** A wake-up answers with success only on the leader of the term the request
    started in, and only when the client's last executed request is this one. *)
Lemma resume_success t c n kv :
  resume t c n kv = Some true ↔ rf_GetState (rf kv) = (t, true) ∧ CompletedPool kv !! c = Some n.
Proof.
  unfold resume. destruct (rf_GetState (rf kv)) as [cur lead] eqn:HG.
  destruct (Z.eqb_spec cur t) as [->|Hne], lead; simpl; split; intros H; try done; try (destruct H; congruence).
  - destruct (CompletedPool kv !! c) as [z|]; [|done].
    destruct (Z.eqb_spec z n) as [Hz|]; [by rewrite Hz|done].
  - destruct H as [_ ->]. by rewrite Z.eqb_refl.
Qed.

(** ** Clients, the log and the servers together

    A client has one request out at a time; any request ever sent may be
    committed again and again, by a retry or a late duplicate; a client's call
    ends when some server that has applied a prefix of the committed log
    acknowledges it.  That servers apply prefixes of one log is Raft's part. *)

Definition getOp (a : GetArgs) : Op := mkOp true a PutAppendArgs0 (ga_ClientId a) (ga_ReqNo a).
Definition putOp (a : PutAppendArgs) : Op := mkOp false GetArgs0 a (pa_ClientId a) (pa_ReqNo a).

Record Sys := mkSys {
  sent : list Op;
  clog : list Op;
  pending : gmap Z Op;
  issued : gmap Z Z;      (* the clerks' reqNo *)
  acked : list Op;
}.

Definition serves (log : list Op) (k : nat) kv : Prop :=
  service kv = foldl (session_apply execute) (∅, ∅) (take k log).

Inductive acknowledges : Op → KVServer → Prop :=
  | ack_put_dup a kv kv' : PutAppendBegin a kv = Some (kv', inl (mkPAReply true)) → acknowledges (putOp a) kv
  | ack_put a t kv : PutAppendResume a t kv = Some (mkPAReply true) → acknowledges (putOp a) kv
  | ack_get_dup a kv kv' v : GetBegin a kv = Some (kv', inl (mkGetReply v true)) → acknowledges (getOp a) kv
  | ack_get a t kv v : GetResume a t kv = Some (mkGetReply v true) → acknowledges (getOp a) kv.

Inductive sys_step : Sys → Sys → Prop :=
  | sys_issue s op :
    pending s !! client op = None → reqno op = completed (issued s) (client op) + 1 →
    sys_step s (mkSys (op :: sent s) (clog s) (<[client op := op]> (pending s))
                      (<[client op := reqno op]> (issued s)) (acked s))
  | sys_commit s op :
    op ∈ sent s →
    sys_step s (mkSys (sent s) (clog s ++ [op]) (pending s) (issued s) (acked s))
  | sys_ack s op k kv :
    pending s !! client op = Some op → serves (clog s) k kv → acknowledges op kv →
    sys_step s (mkSys (sent s) (clog s) (delete (client op) (pending s)) (issued s) (op :: acked s)).

Definition sys0 : Sys := mkSys [] [] ∅ ∅ [].

Record SInv (s : Sys) : Prop := {
  si_sent : ∀ op, op ∈ sent s → 1 <= reqno op <= completed (issued s) (client op);
  si_issued : ∀ c, 0 <= completed (issued s) c;
  si_pending : ∀ c op, pending s !! c = Some op →
    op ∈ sent s ∧ client op = c ∧ reqno op = completed (issued s) c;
  si_log : ∀ op, op ∈ clog s → op ∈ sent s;
  si_done : ∀ op, op ∈ sent s → Exists (same_request op) (clog s) ∨
    ∃ op', pending s !! client op = Some op' ∧ same_request op op';
  si_acked : ∀ op, op ∈ acked s → Exists (same_request op) (clog s);
  si_ordered : clerk_ordered (clog s);
}.

(** An acknowledged request has been executed by the server. *)
Lemma acknowledges_executed op kv :
  1 <= reqno op → acknowledges op kv → reqno op <= completed (CompletedPool kv) (client op).
Proof.
  assert (∀ t c n, resume t c n kv = Some true → n <= completed (CompletedPool kv) c) as HR.
  { intros t c n [_ Hc]%resume_success. unfold completed. by rewrite Hc. }
  intros H1 HA. destruct HA as [a kv kv' HB|a t kv HB|a kv kv' v HB|a t kv v HB];
    unfold client, reqno in *; simpl in *.
  - unfold PutAppendBegin in HB. destruct (negb _); [done|].
    destruct (Z.leb_spec (pa_ReqNo a) (completed (CompletedPool kv) (pa_ClientId a))); [done|].
    inv_bind HB. destruct x as [? [[? ?] []]]; simpl in HB; simplify_eq.
  - unfold PutAppendResume in HB. inv_bind HB. destruct x; [by eapply HR|done].
  - unfold GetBegin in HB. destruct (negb _); [done|].
    destruct (Z.leb_spec (ga_ReqNo a) (completed (CompletedPool kv) (ga_ClientId a))); [done|].
    inv_bind HB. destruct x as [? [[? ?] []]]; simpl in HB; simplify_eq.
  - unfold GetResume in HB. inv_bind HB. destruct x; [by eapply HR|done].
Qed.

Lemma SInv_issue s op :
  SInv s → pending s !! client op = None → reqno op = completed (issued s) (client op) + 1 →
  SInv (mkSys (op :: sent s) (clog s) (<[client op := op]> (pending s))
              (<[client op := reqno op]> (issued s)) (acked s)).
Proof.
  intros I Hp Hn. pose proof (si_issued _ I) as H0.
  assert (∀ c, completed (<[client op := reqno op]> (issued s)) c =
    if decide (client op = c) then reqno op else completed (issued s) c) as HC.
  { intros c. unfold completed. destruct (decide _) as [<-|];
      [by rewrite lookup_insert_eq|by rewrite lookup_insert_ne]. }
  split; simpl.
  - intros o [->|Ho]%elem_of_cons; rewrite HC; [rewrite decide_True by done; pose proof (H0 (client op)); lia|].
    pose proof (si_sent _ I _ Ho). destruct (decide (client op = client o)) as [E|]; [rewrite E in Hn|]; lia.
  - intros c. rewrite HC. pose proof (H0 c). destruct (decide _) as [<-|]; lia.
  - intros c o [[<- <-]|[Hne Ho]]%lookup_insert_Some; rewrite HC;
      [rewrite decide_True by done; split; [by left|done]|rewrite decide_False by done].
    destruct (si_pending _ I _ _ Ho) as (? & ? & ?). split_and!; [by right|done..].
  - intros o Ho. right. by apply (si_log _ I).
  - intros o [->|Ho]%elem_of_cons.
    { right. exists op. by rewrite lookup_insert_eq. }
    destruct (si_done _ I _ Ho) as [?|(o' & Hp' & ?)]; [by left|right].
    exists o'. rewrite lookup_insert_ne; [done|]. congruence.
  - apply I.
  - apply I.
Qed.

Lemma SInv_commit s op :
  SInv s → op ∈ sent s → SInv (mkSys (sent s) (clog s ++ [op]) (pending s) (issued s) (acked s)).
Proof.
  intros I Hop. pose proof (si_sent _ I _ Hop) as Hr. split; simpl; try apply I.
  - intros o [?|?]%elem_of_app; [by apply (si_log _ I)|set_solver].
  - intros o Ho. destruct (si_done _ I _ Ho) as [?|?]; [left; apply Exists_app; by left|by right].
  - intros o Ho%(si_acked _ I). apply Exists_app. by left.
  - apply clerk_ordered_snoc; [apply I|lia|]. intros o Ho Hc Hlt.
    destruct (si_done _ I _ Hop) as [?|(p & Hp & Hc' & Hr')]; [done|].
    destruct (si_pending _ I _ _ Hp) as (_ & _ & Hm). apply (si_log _ I), (si_sent _ I) in Ho.
    rewrite Hc in Ho. lia.
Qed.

(** The server that acknowledges a request has it in what it applied. *)
Lemma acknowledged_in_log s op k kv :
  SInv s → pending s !! client op = Some op → serves (clog s) k kv → acknowledges op kv →
  Exists (same_request op) (take k (clog s)).
Proof.
  intros I Hp Hs Ha. destruct (si_pending _ I _ _ Hp) as (Hin & _ & Hm).
  apply acknowledges_executed in Ha; [|by apply (si_sent _ I)]. pose proof (si_sent _ I _ Hin). unfold serves in Hs.
  rewrite session_apply_log in Hs. injection Hs as _ Hpool. rewrite Hpool in Ha.
  destruct (completed_attained ∅ (take k (clog s)) (client op)) as [H0|(o & Ho & Hc & Hr)].
  { change (completed ∅ (client op)) with 0 in H0. lia. }
  apply Exists_exists. exists o. split; [done|]. split; [done|].
  apply elem_of_take in Ho as (? & Ho%list_elem_of_lookup_2 & _).
  apply (si_log _ I), (si_sent _ I) in Ho. rewrite Hc in Ho. lia.
Qed.

(** What it holds is what the first occurrences give. *)
Lemma serves_firsts s k kv : SInv s → serves (clog s) k kv → KVMap kv = kv_spec (firsts [] (take k (clog s))).
Proof.
  intros I Hs. unfold serves in Hs. rewrite session_apply_log in Hs. injection Hs as HK _.
  by rewrite HK, fresh_firsts by apply clerk_ordered_take, I.
Qed.

Lemma SInv_ack s op k kv :
  SInv s → pending s !! client op = Some op → serves (clog s) k kv → acknowledges op kv →
  SInv (mkSys (sent s) (clog s) (delete (client op) (pending s)) (issued s) (op :: acked s)).
Proof.
  intros I Hp Hs Ha.
  assert (Exists (same_request op) (clog s)) as HE.
  { rewrite <-(take_drop k (clog s)). apply Exists_app. left. by eapply acknowledged_in_log. }
  split; simpl; try apply I.
  - intros c o [_ Ho]%lookup_delete_Some. by apply (si_pending _ I).
  - intros o Ho. destruct (si_done _ I _ Ho) as [?|(o' & Hp' & Hc & Hr)]; [by left|].
    destruct (decide (client op = client o)) as [E|Hne].
    + left. rewrite <-E in Hp'. simplify_eq. apply Exists_exists in HE as (q & ? & ? & ?).
      apply Exists_exists. exists q. split; [done|split; congruence].
    + right. exists o'. by rewrite lookup_delete_ne.
  - intros o [->|Ho]%elem_of_cons; [done|by apply (si_acked _ I)].
Qed.

Lemma kv_SInv_init : SInv sys0.
Proof. split; simpl; try set_solver. intros c. done. Qed.

Lemma SInv_reachable s : rtc sys_step sys0 s → SInv s.
Proof.
  intros HR. generalize kv_SInv_init. induction HR as [|s1 s2 s3 Hs _ IH]; [done|]. intros I. apply IH. destruct Hs.
  - by apply SInv_issue.
  - by apply SInv_commit.
  - by eapply SInv_ack.
Qed.

(** exactly once, end to end.  However requests are retried, duplicated and
    delayed, a server that has applied a prefix of the committed log holds the
    result of running the first occurrence of each request of that prefix in
    order, and a request a client got success for is in the log and is executed
    exactly once. *)
Theorem kv_exactly_once s k kv :
  rtc sys_step sys0 s → serves (clog s) k kv →
  KVMap kv = kv_spec (firsts [] (take k (clog s))) ∧
  ∀ op, op ∈ acked s → Exists (same_request op) (clog s) ∧
    length (filter (same_request op) (firsts [] (clog s))) = 1%nat.
Proof.
  intros I%SInv_reachable Hs. split; [by apply serves_firsts|].
  intros op Hop%(si_acked _ I). split; [done|by apply firsts_once].
Qed.

End kvserver.

Arguments KVServer : clear implicits.

(** ** The clerk *)

Record Clerk := mkClerk { nservers : Z; ck_me : Z; recentLeader : Z; reqNo : Z }.

(** The package variable [seq] numbers the clerks. *)
Definition MakeClerk (servers seq : Z) : Clerk * Z :=
  let seq := wrap64 (seq + 1) in (mkClerk servers seq 0 0, seq).

(** The loop [Get] and [PutAppend] share: the last known leader first, then every
    server.  [None]: no answer yet, or [recentLeader] is not a server. *)
Definition callServers {Reply} (good : Reply → bool) (call : nat → Z → option Reply) (fuel : nat)
    (ck : Clerk) : option (Clerk * Reply) :=
  if (0 <=? recentLeader ck) && (recentLeader ck <? nservers ck) then
    '(i, reply) ← retry good call fuel 0 (recentLeader ck :: upto (nservers ck));
    Some (mkClerk (nservers ck) (ck_me ck) i (reqNo ck), reply)
  else None.

Definition nextReq (ck : Clerk) : Clerk :=
  mkClerk (nservers ck) (ck_me ck) (recentLeader ck) (wrap64 (reqNo ck + 1)).

Definition clerkGet (call : GetArgs → nat → Z → option GetReply) (fuel : nat) (key : string)
    (ck : Clerk) : option (Clerk * string) :=
  let ck := nextReq ck in
  let args := mkGet key (ck_me ck) (reqNo ck) in
  '(ck, reply) ← callServers gr_Success (call args) fuel ck;
  Some (ck, gr_Value reply).

Definition clerkPutAppend (call : PutAppendArgs → nat → Z → option PutAppendReply) (fuel : nat)
    (key value op : string) (ck : Clerk) : option Clerk :=
  let ck := nextReq ck in
  let args := mkPA key value op (ck_me ck) (reqNo ck) in
  '(ck, reply) ← callServers par_Success (call args) fuel ck;
  Some ck.

Definition clerkPut call fuel key value ck := clerkPutAppend call fuel key value "Put" ck.
Definition clerkAppend call fuel key value ck := clerkPutAppend call fuel key value "Append" ck.

Lemma callServers_correct {Reply} (good : Reply → bool) call fuel ck ck' reply :
  callServers good call fuel ck = Some (ck', reply) →
  good reply = true ∧ (∃ k, call k (recentLeader ck') = Some reply) ∧
  0 <= recentLeader ck' < nservers ck ∧
  (nservers ck', ck_me ck', reqNo ck') = (nservers ck, ck_me ck, reqNo ck).
Proof.
  unfold callServers. intros HC. destruct (_ && _) eqn:EB; [|done].
  apply andb_true_iff in EB as [H1%Z.leb_le H2%Z.ltb_lt]. inv_bind HC. destruct x as [i r]. simplify_eq.
  apply retry_sound in E as (Hin & Hg & k & _ & Hc). simpl. split_and!; eauto.
  all: apply elem_of_cons in Hin as [->|Hin%upto_elem]; lia.
Qed.

Lemma callServers_total {Reply} (good : Reply → bool) call ck s K :
  0 <= recentLeader ck < nservers ck → 0 <= s < nservers ck →
  (∀ k, (K <= k)%nat → ∃ r, call k s = Some r ∧ good r = true) →
  is_Some (callServers good call (S K) ck).
Proof.
  intros Hr Hs Hup. unfold callServers.
  rewrite (proj2 (Z.leb_le _ _)), (proj2 (Z.ltb_lt _ _)) by lia. simpl andb. cbv iota.
  destruct (retry_total good call K (recentLeader ck :: upto (nservers ck)) s) with K 0%nat as [[i r] E]; [|done|lia|].
  - right. by apply upto_elem.
  - rewrite E. by eexists.
Qed.

(** A clerk's call.  As long as one server answers from some RPC on, [Get]
    returns; whatever it returns is the value of a successful reply to a request
    that carries the next request number of this clerk; and the clerk remembers
    a server that exists, so it never indexes out of range. *)
Theorem clerkGet_correct call key ck s K :
  0 <= recentLeader ck < nservers ck → 0 <= s < nservers ck → 0 <= reqNo ck < 2 ^ 63 - 1 →
  let args := mkGet key (ck_me ck) (reqNo ck + 1) in
  (∀ k, (K <= k)%nat → ∃ r, call args k s = Some r ∧ gr_Success r = true) →
  ∃ ck' v, clerkGet call (S K) key ck = Some (ck', v) ∧
    (∃ k i, call args k i = Some (mkGetReply v true)) ∧
    reqNo ck' = reqNo ck + 1 ∧ ck_me ck' = ck_me ck ∧ 0 <= recentLeader ck' < nservers ck'.
Proof.
  intros Hr Hs Hn args Hup. unfold clerkGet.
  assert (nextReq ck = mkClerk (nservers ck) (ck_me ck) (recentLeader ck) (reqNo ck + 1)) as ->.
  { unfold nextReq. by rewrite wrap64_id by lia. }
  simpl. fold args. set (ck1 := mkClerk _ _ _ _).
  destruct (callServers_total gr_Success (call args) ck1 s K) as [[ck' r] HC]; [done..|].
  rewrite HC. simpl. apply callServers_correct in HC as (Hg & [k Hk] & Hr' & [= Hn' Hm' Hq']). simpl in Hr'.
  exists ck', (gr_Value r). split_and!; try done; [|lia..]. exists k, (recentLeader ck').
  rewrite Hk. destruct r as [v b]. simpl in *. by rewrite Hg.
Qed.

(** ** Concrete servers *)

Module KVExamples.

#[export] Instance wire_get : Wire GetArgs :=
  wire_iso (λ a, (ga_Key a, ga_ClientId a, ga_ReqNo a)) (λ '(k, c, n), mkGet k c n) (λ '(mkGet _ _ _), eq_refl).
#[export] Instance wire_put : Wire PutAppendArgs :=
  wire_iso (λ a, (pa_Key a, pa_Value a, pa_Op a, pa_ClientId a, pa_ReqNo a))
    (λ '(k, v, o, c, n), mkPA k v o c n) (λ '(mkPA _ _ _ _ _), eq_refl).
#[export] Instance wire_op : Wire Op :=
  wire_iso (λ o, (IsGetOp o, GetArg o, PutAppendArg o, ClientId o, ReqNo o))
    (λ '(b, g, p, c, n), mkOp b g p c n) (λ '(mkOp _ _ _ _ _), eq_refl).
#[export] Instance gobRaft : Gob (PersistentState Op) := wire_gob _.
#[export] Instance gobKV : Gob SnapshotState := wire_gob _.

(** A fresh Raft peer, and one that leads term 1. *)
Definition peer0 : Raft Op := Make (mkEnv 0 0) 3 0 MakePersister.
Definition leader0 : Raft Op := peer0 <| State := Leader |> <| CurrentTerm := 1 |>.
Definition kv0 : KVServer (Raft Op) := mkKVServer 0 leader0 0 (-1) ∅ ∅ ∅ 0.

Lemma kv_peer_ok : rf_ok peer0.
Proof. apply Make_inv; [lia|by left]. Qed.

Lemma kv_leader_ok : rf_ok leader0.
Proof.
  assert (inv peer0) as I by apply kv_peer_ok. apply (inv_frame peer0); [done| |by left].
  by apply (wf_views peer0), I.
Qed.

Definition put1 := mkPA "x" "a" "Put" 7 1.
Definition app2 := mkPA "x" "b" "Append" 7 2.
(** The second request is committed twice, the first again after it. *)
Definition log4 : list (Op * Z) := [(putOp put1, 1); (putOp app2, 2); (putOp app2, 3); (putOp put1, 4)].

Lemma applyLog_exactly_once_witness :
  ∃ kv', applyAll (uncurry commandMsg <$> log4) kv0 = Some kv' ∧ KVMap kv' !! "x" = Some "ab".
Proof.
  destruct (applyLog_exactly_once log4 kv0) as (kv' & HA & HK & _ & _); [reflexivity|].
  exists kv'. split; [exact HA|]. rewrite HK. vm_compute. reflexivity.
Defined.

Lemma snapshot_equals_replay_witness :
  ∃ kv1 kv3 kv4 kv4',
    applyAll (uncurry commandMsg <$> take 2 log4) kv0 = Some kv1 ∧
    applyAll (uncurry commandMsg <$> log4) kv0 = Some kv3 ∧
    StartKVServer peer0 1 (mkPersister [] (snapshotData kv1)) (-1) = Some kv4 ∧
    applyAll (uncurry commandMsg <$> drop 2 log4) kv4 = Some kv4' ∧ service kv4' = service kv3.
Proof.
  destruct (applyAll_commands (take 2 log4) kv0) as (kv1 & H1 & _).
  destruct (snapshot_equals_replay (take 2 log4) (drop 2 log4) kv0 kv1 kv0 peer0
    (mkPersister [] (snapshotData kv1)) 2 1 1 (-1)) as (_ & kv3 & kv2' & kv4 & kv4' & H3 & _ & H4 & H5 & _ & [= HS HP _]).
  - exact H1.
  - apply kv_leader_ok.
  - reflexivity.
  - apply kv_peer_ok.
  - unfold ReadSnapshot. apply clone_id.
  - exists kv1, kv3, kv4, kv4'. split_and!; [exact H1|exact H3|exact H4|exact H5|].
    unfold service. by rewrite HS, HP.
Defined.

Lemma Get_correct_witness :
  ∃ kv' t, GetBegin (mkGet "x" 7 3) kv0 = Some (kv', inr t) ∧ t = 1.
Proof.
  destruct (Get_correct (mkGet "x" 7 3) kv0 kv_leader_ok) as (kv' & out & HG & _ & _ & _ & _ & _ & Hnew).
  destruct Hnew as (t & -> & _ & Ht & _); [reflexivity|vm_compute; intros H; by apply H|].
  exists kv', t. split; [exact HG|exact Ht].
Defined.

Lemma kv_exactly_once_witness :
  ∃ (kv : KVServer (Raft Op)) s, rtc sys_step sys0 s ∧ putOp put1 ∈ acked s ∧
    clog s = [putOp put1; putOp put1] ∧ KVMap kv = {["x" := "a"]} ∧
    length (filter (same_request (putOp put1)) (firsts [] (clog s))) = 1%nat.
Proof.
  destruct (applyAll_commands [(putOp put1, 1)] kv0) as (kv & HA & Hs & _).
  assert (serves [putOp put1; putOp put1] 1 kv) as Hserves by exact Hs.
  assert (rf kv = leader0) as Hrf by (revert HA; vm_compute; intros [= <-]; reflexivity).
  set (op := putOp put1) in *.
  assert (∃ s, rtc sys_step sys0 s ∧ clog s = [op; op] ∧ acked s = [op]) as (s & HR & HL & HAck).
  { eexists. split.
    - eapply rtc_l; [by apply (sys_issue sys0 op)|].
      eapply rtc_l; [apply (sys_commit _ op); by left|].
      eapply rtc_l; [apply (sys_commit _ op); by left|].
      eapply rtc_once, (sys_ack _ op 1 kv); [reflexivity|exact Hserves|].
      apply (ack_put_dup put1 kv kv). unfold PutAppendBegin. rewrite Hrf.
      injection Hs as _ ->. reflexivity.
    - by split. }
  rewrite <-HL in Hserves. destruct (kv_exactly_once s 1 kv HR Hserves) as [HK Hone].
  exists kv, s. rewrite HL in HK |- *. rewrite HL, HAck in Hone.
  split_and!; [exact HR|rewrite HAck; by left|reflexivity|rewrite HK; reflexivity|apply Hone; by left].
Defined.

Lemma clerkGet_correct_witness :
  let call := λ (_ : GetArgs) (k : nat) (s : Z),
    if (s =? 2) && (5 <=? k)%nat then Some (mkGetReply "v" true) else None in
  ∃ ck' v, clerkGet call 6 "x" (mkClerk 3 7 0 0) = Some (ck', v) ∧ reqNo ck' = 1.
Proof.
  intros call. destruct (clerkGet_correct call "x" (mkClerk 3 7 0 0) 2 5) as (ck' & v & HC & _ & Hn & _).
  - simpl. lia.
  - simpl. lia.
  - simpl. lia.
  - intros k Hk. exists (mkGetReply "v" true). split; [|reflexivity]. unfold call.
    by rewrite (proj2 (Nat.leb_le 5 k) Hk).
  - exists ck', v. split; [exact HC|exact Hn].
Defined.

End KVExamples.
