(* ===== verification/ShardCtrler.v ===== *)
(** * The shard controller (shardctrler)

    Configurations, the operations Join, Leave, Move and Query on them, the
    rebalancing, the replicated server and its clerk.

    Go iterates over a map in an unspecified order.  [ord s V m] is the order in
    which the [range] statement number [s] sees the entries of [m]; it may be
    any permutation of them, and another one on every replica.  [sort.Slice] is
    a sort by the given comparison. *)

From S2P Require Import Prelude LabGob Persister Raft RaftApi Dedup Clerk.

Definition NShards : Z := 10.

Record Config := mkConfig {
  Num : Z;
  Shards : list Z;                    (* [NShards]int *)
  Groups : gmap Z (list string);
}.

#[export] Instance eta_Config : Eta Config := λ c, mkConfig (Num c) (Shards c) (Groups c).
#[export] Instance set_Num : Setter Num.
Proof. setter. Defined.
#[export] Instance set_Shards : Setter Shards.
Proof. setter. Defined.
#[export] Instance set_Groups : Setter Groups.
Proof. setter. Defined.

Definition Config0 : Config := mkConfig 0 (replicate (Z.to_nat NShards) 0) ∅.

#[export] Instance Config_eq_dec : EqDecision Config.
Proof. solve_decision. Defined.

Definition Order : Type := Z → ∀ V : Type, gmap Z V → list (Z * V).
Definition valid_order (ord : Order) : Prop := ∀ s V (m : gmap Z V), ord s V m ≡ₚ map_to_list m.

Definition max (a b : Z) : Z := if b <? a then a else b.
Definition min (a b : Z) : Z := if a <? b then a else b.

(** [sort.Slice] with a comparison that is the strict part of [R]. *)
Definition sortSlice {A} (R : relation A) `{∀ x y, Decision (R x y)} (l : list A) : list A := merge_sort R l.

(** [for key, value := range entries { groups[key] = append(groups[key], value...) }] *)
Definition appendGroups (entries : list (Z * list string)) (groups : gmap Z (list string))
    : gmap Z (list string) :=
  foldl (λ gs '(key, value), <[key := default [] (gs !! key) ++ value]> gs) groups entries.

Section configs.
Context (ord : Order).

Definition deepCopy (cfg : Config) : Config :=
  mkConfig 0 (Shards cfg) (appendGroups (ord 0 _ (Groups cfg)) ∅).

(** [gids[i%gNum]]: a remainder by zero panics. *)
Definition pickGid (gids : list Z) (i : Z) : option Z :=
  if zlen gids =? 0 then None else index gids (i mod zlen gids).

Definition initConfifg (servers : gmap Z (list string)) (cfg : Config) : option Config :=
  let cfg := cfg <| Groups := servers |> in
  let gids := sortSlice Z.le ((ord 1 _ (Groups cfg)).*1) in
  shards ← mapM (pickGid gids) (upto NShards);
  Some (cfg <| Shards := shards |>).

(** ** Rebalancing *)

(** [gid2shards]: the shards of every group, in increasing order. *)
Definition groupShards (shards : list Z) : gmap Z (list Z) :=
  foldl (λ m '(shardId, gid), <[gid := default [] (m !! gid) ++ [shardId]]> m) ∅
        (imap (λ i gid, (Z.of_nat i, gid)) shards).

Definition shardsOf (m : gmap Z (list Z)) (gid : Z) : list Z := default [] (m !! gid).

(** [GidPair] as (gid, count), ordered by count, then by gid. *)
Definition pair_le (a b : Z * Z) : Prop := a.2 < b.2 ∨ (a.2 = b.2 ∧ a.1 <= b.1).
#[export] Instance pair_le_dec a b : Decision (pair_le a b).
Proof. unfold pair_le. apply _. Defined.

Definition gidPairs (m : gmap Z (list Z)) (groups : gmap Z (list string)) : list (Z * Z) :=
  sortSlice pair_le
    (((λ '(gid, shardIds), (gid, zlen shardIds)) <$> ord 2 _ m)
     ++ ((λ '(gid, _), (gid, 0)) <$> filter (λ x, m !! x.1 = None) (ord 3 _ groups))).

(** The two-pointer loop; [fuel] bounds its rounds. *)
Fixpoint balanceLoop (fuel : nat) (gids : list (Z * Z)) (avg i j : Z) (m : gmap Z (list Z))
    : option (gmap Z (list Z)) :=
  match fuel with
  | O => None
  | S fuel =>
    if i <? j then
      gi ← fst <$> index gids i;
      gj ← fst <$> index gids j;
      if (zlen (shardsOf m gi) <? avg) && (avg <? zlen (shardsOf m gj)) then
        let need := avg - zlen (shardsOf m gi) in
        let extra := zlen (shardsOf m gj) - avg in
        let part := min need extra in
        moved ← slice (shardsOf m gj) 0 part;
        let m := <[gi := shardsOf m gi ++ moved]> m in
        rest ← slice_from (shardsOf m gj) part;
        let m := <[gj := rest]> m in
        if extra =? need then balanceLoop fuel gids avg (i + 1) (j - 1) m
        else if need <? extra then balanceLoop fuel gids avg (i + 1) j m
        else balanceLoop fuel gids avg i (j - 1) m
      else Some m
    else Some m
  end.

(** The loops that write [gid2shards] back into [cfg.Shards]. *)
Fixpoint assignShards (gid : Z) (shardIds shards : list Z) : option (list Z) :=
  match shardIds with
  | [] => Some shards
  | s :: shardIds => shards ← store shards s gid; assignShards gid shardIds shards
  end.

Fixpoint writeBack (l : list (Z * list Z)) (shards : list Z) : option (list Z) :=
  match l with
  | [] => Some shards
  | (gid, shardIds) :: l => shards ← assignShards gid shardIds shards; writeBack l shards
  end.

Definition average (groups : gmap Z (list string)) : Z := max 1 (NShards / Z.of_nat (size groups)).

(** One round of the loop per group is enough: see [balanceLoop_total]. *)
Definition rebalanceConfig (cfg : Config) : option Config :=
  if (size (Groups cfg) =? 0)%nat then Some cfg
  else
    let m := groupShards (Shards cfg) in
    let gids := gidPairs m (Groups cfg) in
    m ← balanceLoop (S (length gids)) gids (average (Groups cfg)) 0 (zlen gids - 1) m;
    shards ← writeBack (ord 4 _ m) (Shards cfg);
    Some (cfg <| Shards := shards |>).

(** ** The operations on the list of configurations *)

(** [ncfg := deepCopy(&sc.configs[len(sc.configs)-1]); ncfg.Num = len(sc.configs)] *)
Definition newConfig (configs : list Config) : option Config :=
  cfg ← last_entry configs;
  Some ((deepCopy cfg) <| Num := zlen configs |>).

Definition doJoin (servers : gmap Z (list string)) (configs : list Config) : option (list Config) :=
  ncfg ← newConfig configs;
  s0 ← index (Shards ncfg) 0;
  ncfg ← (if s0 =? 0 then initConfifg servers ncfg
          else rebalanceConfig (ncfg <| Groups := appendGroups (ord 5 _ servers) (Groups ncfg) |>));
  Some (configs ++ [ncfg]).

(** [gid2ShardNum]: how many shards every group that stays has. *)
Definition countShards (gids shards : list Z) : gmap Z Z :=
  foldl (λ m gid, if bool_decide (gid ∈ gids) then m else <[gid := default 0 (m !! gid) + 1]> m) ∅ shards.

(** The group that takes over: the one with most shards, the smallest of those. *)
Definition targetStep (num : gmap Z Z) (tGid : Z) (entry : Z * Z) : Z :=
  let gid := entry.1 in
  let n := default 0 (num !! gid) in
  let nt := default 0 (num !! tGid) in
  if nt <? n then gid else if n =? nt then min tGid gid else tGid.

Definition pickTarget (entries : list (Z * Z)) (num : gmap Z Z) : Z := foldl (targetStep num) 0 entries.

Definition doLeave (gids : list Z) (configs : list Config) : option (list Config) :=
  ncfg ← newConfig configs;
  let ncfg := ncfg <| Groups := foldl (λ gs gid, delete gid gs) (Groups ncfg) gids |> in
  let num := countShards gids (Shards ncfg) in
  let tGid := pickTarget (ord 6 _ num) num in
  let ncfg := ncfg <| Shards := (λ gid, if bool_decide (gid ∈ gids) then tGid else gid) <$> Shards ncfg |> in
  ncfg ← rebalanceConfig ncfg;
  Some (configs ++ [ncfg]).

Definition doMove (shard gid : Z) (configs : list Config) : option (list Config) :=
  ncfg ← newConfig configs;
  shards ← store (Shards ncfg) shard gid;
  Some (configs ++ [ncfg <| Shards := shards |>]).

Definition doQuery (num : Z) (configs : list Config) : option (list Config) := Some configs.

End configs.

(** ** The server *)

Record JoinArgs := mkJoin { ja_ClientId : Z; ja_ReqNo : Z; ja_Servers : gmap Z (list string) }.
Record LeaveArgs := mkLeave { la_ClientId : Z; la_ReqNo : Z; la_GIDs : list Z }.
Record MoveArgs := mkMove { ma_ClientId : Z; ma_ReqNo : Z; ma_Shard : Z; ma_GID : Z }.
Record QueryArgs := mkQuery { qa_ClientId : Z; qa_ReqNo : Z; qa_Num : Z }.

(** The [Err] fields of the replies are never written. *)
Record Reply := mkReply { WrongLeader : bool }.
Record QueryReply := mkQueryReply { qr_WrongLeader : bool; qr_Config : Config }.

(** The zero value of [Config]: its map is nil. *)
Definition zeroConfig : Config := Config0.

Inductive ReqType := JOIN | MOVE | LEAVE | QUERY.

Record Op := mkOp {
  ClientId : Z; ReqNo : Z; opType : ReqType;
  opJoin : JoinArgs; opLeave : LeaveArgs; opMove : MoveArgs; opQuery : QueryArgs }.

Definition Join0 := mkJoin 0 0 ∅.
Definition Leave0 := mkLeave 0 0 [].
Definition Move0 := mkMove 0 0 0 0.
Definition Query0 := mkQuery 0 0 0.

Definition joinOp a := mkOp (ja_ClientId a) (ja_ReqNo a) JOIN a Leave0 Move0 Query0.
Definition leaveOp a := mkOp (la_ClientId a) (la_ReqNo a) LEAVE Join0 a Move0 Query0.
Definition moveOp a := mkOp (ma_ClientId a) (ma_ReqNo a) MOVE Join0 Leave0 a Query0.
Definition queryOp a := mkOp (qa_ClientId a) (qa_ReqNo a) QUERY Join0 Leave0 Move0 a.

#[export] Instance op_request : Request Op := {| client := ClientId; reqno := ReqNo |}.

(** The switch of [applyLog]. *)
Definition execute (ord : Order) (op : Op) (configs : list Config) : option (list Config) :=
  match opType op with
  | JOIN => doJoin ord (ja_Servers (opJoin op)) configs
  | LEAVE => doLeave ord (la_GIDs (opLeave op)) configs
  | MOVE => doMove ord (ma_Shard (opMove op)) (ma_GID (opMove op)) configs
  | QUERY => doQuery (qa_Num (opQuery op)) configs
  end.

Section server.
Context {R : Type} `{!RaftApi Op R}.

Record ShardCtrler := mkShardCtrler {
  me : Z;
  rf : R;
  configs : list Config;
  CompletedPool : gmap Z Z;
  CompletedCondPool : gset Z;
  CommitedId : Z;
}.

#[export] Instance eta_ShardCtrler : Eta ShardCtrler := λ sc,
  mkShardCtrler (me sc) (rf sc) (configs sc) (CompletedPool sc) (CompletedCondPool sc) (CommitedId sc).
#[export] Instance set_rf : Setter rf.
Proof. setter. Defined.
#[export] Instance set_configs : Setter configs.
Proof. setter. Defined.
#[export] Instance set_CompletedPool : Setter CompletedPool.
Proof. setter. Defined.
#[export] Instance set_CompletedCondPool : Setter CompletedCondPool.
Proof. setter. Defined.
#[export] Instance set_CommitedId : Setter CommitedId.
Proof. setter. Defined.

(** What the four handlers do up to the wait.  [inl WrongLeader]: it returns,
    with an otherwise zero reply; [inr startTerm]: it waits. *)
Definition begin (op : Op) (sc : ShardCtrler) : option (ShardCtrler * (bool + Z)) :=
  if negb (rf_GetState (rf sc)).2 then Some (sc, inl true)
  else if ReqNo op <=? completed (CompletedPool sc) (ClientId op) then Some (sc, inl false)
  else
    '(r, ret) ← rf_Start op (rf sc);
    let '(_, startTerm, isLeader) := ret in
    let sc := sc <| rf := r |> in
    if negb isLeader then Some (sc, inl true)
    else Some (sc <| CompletedCondPool := {[ClientId op]} ∪ CompletedCondPool sc |>, inr startTerm).

(** One wake-up: [Some true] when the leader changed, [Some false] when the
    request is done, [None] to wait again. *)
Definition wakeup (startTerm clientId reqNo : Z) (sc : ShardCtrler) : option bool :=
  let '(curTerm, isLeader) := rf_GetState (rf sc) in
  if negb (curTerm =? startTerm) || negb isLeader then Some true
  else match CompletedPool sc !! clientId with
  | Some completedReq => if completedReq =? reqNo then Some false else None
  | None => None
  end.

Definition JoinBegin (args : JoinArgs) := begin (joinOp args).
Definition JoinResume (args : JoinArgs) (t : Z) (sc : ShardCtrler) : option Reply :=
  mkReply <$> wakeup t (ja_ClientId args) (ja_ReqNo args) sc.
Definition LeaveBegin (args : LeaveArgs) := begin (leaveOp args).
Definition LeaveResume (args : LeaveArgs) (t : Z) (sc : ShardCtrler) : option Reply :=
  mkReply <$> wakeup t (la_ClientId args) (la_ReqNo args) sc.
Definition MoveBegin (args : MoveArgs) := begin (moveOp args).
Definition MoveResume (args : MoveArgs) (t : Z) (sc : ShardCtrler) : option Reply :=
  mkReply <$> wakeup t (ma_ClientId args) (ma_ReqNo args) sc.

(** The configuration [Query] answers with; a negative number other than -1
    indexes out of range. *)
Definition queried (num : Z) (cfgs : list Config) : option Config :=
  if (num =? -1) || (zlen cfgs <=? num) then last_entry cfgs else index cfgs num.

Definition QueryBegin (args : QueryArgs) (sc : ShardCtrler) : option (ShardCtrler * (QueryReply + Z)) :=
  '(sc, out) ← begin (queryOp args) sc;
  Some (sc, match out with inl wrong => inl (mkQueryReply wrong zeroConfig) | inr t => inr t end).

(** [None]: panic; [Some None]: wait again. *)
Definition QueryResume (args : QueryArgs) (t : Z) (sc : ShardCtrler) : option (option QueryReply) :=
  match wakeup t (qa_ClientId args) (qa_ReqNo args) sc with
  | None => Some None
  | Some true => Some (Some (mkQueryReply true zeroConfig))
  | Some false => cfg ← queried (qa_Num args) (configs sc); Some (Some (mkQueryReply false cfg))
  end.

Definition Kill (sc : ShardCtrler) : ShardCtrler := sc <| rf := rf_Kill (rf sc) |>.

(** One message of [applyLog]. *)
Definition applyLog (ord : Order) (applyMsg : ApplyMsg Op) (sc : ShardCtrler) : option ShardCtrler :=
  if CommandValid applyMsg then
    msg ← MsgCommand applyMsg;
    sc ←
      (if completed (CompletedPool sc) (ClientId msg) <? ReqNo msg then
         cfgs ← execute ord msg (configs sc);
         Some (sc <| configs := cfgs |>
                  <| CompletedPool := <[ClientId msg := ReqNo msg]> (CompletedPool sc) |>)
       else Some sc);
    Some (sc <| CommitedId := max (CommitedId sc) (CommandIndex applyMsg) |>)
  else Some sc.

(** [StartServer], given the Raft peer that [raft.Make] returned. *)
Definition StartServer (r : R) (my : Z) : ShardCtrler := mkShardCtrler my r [Config0] ∅ ∅ 0.

End server.

Arguments ShardCtrler : clear implicits.

(** ** The clerk *)

Record Clerk := mkClerk { nservers : Z; ck_me : Z }.

(** The package variables [id] and [seq] number the clerks and their requests. *)
Definition MakeClerk (servers id : Z) : Clerk * Z :=
  let id := wrap64 (id + 1) in (mkClerk servers id, id).

Definition clerkCall {Args Rep} (good : Rep → bool) (call : Args → nat → Z → option Rep) (fuel : nat)
    (args : Args) (ck : Clerk) : option Rep :=
  snd <$> retry good (call args) fuel 0 (upto (nservers ck)).

Definition clerkQuery call (fuel : nat) (num seq : Z) (ck : Clerk) : option (Config * Z) :=
  let seq := wrap64 (seq + 1) in
  r ← clerkCall (λ r, negb (qr_WrongLeader r)) call fuel (mkQuery (ck_me ck) seq num) ck;
  Some (qr_Config r, seq).
Definition clerkJoin call (fuel : nat) servers (seq : Z) (ck : Clerk) : option Z :=
  let seq := wrap64 (seq + 1) in
  _ ← clerkCall (λ r, negb (WrongLeader r)) call fuel (mkJoin (ck_me ck) seq servers) ck;
  Some seq.
Definition clerkLeave call (fuel : nat) gids (seq : Z) (ck : Clerk) : option Z :=
  let seq := wrap64 (seq + 1) in
  _ ← clerkCall (λ r, negb (WrongLeader r)) call fuel (mkLeave (ck_me ck) seq gids) ck;
  Some seq.
Definition clerkMove call (fuel : nat) shard gid (seq : Z) (ck : Clerk) : option Z :=
  let seq := wrap64 (seq + 1) in
  _ ← clerkCall (λ r, negb (WrongLeader r)) call fuel (mkMove (ck_me ck) seq shard gid) ck;
  Some seq.
