(* ===== verification/Rebalance.v ===== *)
(** * Rebalancing of shards

    [rebalanceConfig] never panics, ends, does not depend on the order in which
    Go visits its maps, moves shards only out of groups that have too many, and
    leaves every group with its share. *)

From S2P Require Import Prelude ShardCtrler.

(** ** Map orders *)

Lemma ord_elem ord s V (m : gmap Z V) k v : valid_order ord → (k, v) ∈ ord s V m ↔ m !! k = Some v.
Proof. intros HO. by rewrite (HO s V m), elem_of_map_to_list. Qed.

Lemma ord_NoDup ord s V (m : gmap Z V) : valid_order ord → NoDup (ord s V m).*1.
Proof. intros HO. rewrite (HO s V m). apply NoDup_fst_map_to_list. Qed.

(** The order of a map does not matter to a loop that appends per key. *)
Lemma appendGroups_lookup entries gs g :
  NoDup entries.*1 →
  appendGroups entries gs !! g =
    match (list_to_map entries : gmap Z (list string)) !! g with
    | Some v => Some (default [] (gs !! g) ++ v)
    | None => gs !! g
    end.
Proof.
  revert gs. induction entries as [|[k v] entries IH]; intros gs; simpl.
  { intros _. by rewrite lookup_empty. }
  intros [Hk ND]%NoDup_cons. rewrite IH by done.
  destruct (decide (k = g)) as [->|Hne].
  - rewrite lookup_insert_eq, not_elem_of_list_to_map_1 by done. by rewrite lookup_insert_eq.
  - by rewrite !lookup_insert_ne by done.
Qed.

Lemma appendGroups_ord ord s (servers gs : gmap Z (list string)) g :
  valid_order ord →
  appendGroups (ord s _ servers) gs !! g =
    match servers !! g with
    | Some v => Some (default [] (gs !! g) ++ v)
    | None => gs !! g
    end.
Proof.
  intros HO. rewrite appendGroups_lookup by by apply ord_NoDup.
  enough (list_to_map (ord s (list string) servers) = servers) as -> by done.
  rewrite (list_to_map_proper _ (map_to_list servers)); [apply list_to_map_to_list|by apply ord_NoDup|apply HO].
Qed.

Lemma deepCopy_eq ord cfg : valid_order ord → deepCopy ord cfg = mkConfig 0 (Shards cfg) (Groups cfg).
Proof.
  intros HO. unfold deepCopy. f_equal. apply map_eq. intros g. rewrite appendGroups_ord by done.
  by destruct (Groups cfg !! g).
Qed.

(** ** Sorting *)

#[export] Instance pair_le_total : Total pair_le.
Proof. intros [a b] [c d]. unfold pair_le. simpl. lia. Qed.
#[export] Instance pair_le_trans : Transitive pair_le.
Proof. intros [a b] [c d] [e f]. unfold pair_le. simpl. lia. Qed.
#[export] Instance pair_le_antisymm : AntiSymm (=) pair_le.
Proof. intros [a b] [c d]. unfold pair_le. simpl. intros. f_equal; lia. Qed.

Lemma sortSlice_perm {A} (R : relation A) `{∀ x y, Decision (R x y)} l : sortSlice R l ≡ₚ l.
Proof. apply merge_sort_Permutation. Qed.

Lemma sortSlice_sorted {A} (R : relation A) `{∀ x y, Decision (R x y)} `{!Total R, !Transitive R} l :
  StronglySorted R (sortSlice R l).
Proof. by apply StronglySorted_merge_sort. Qed.

Lemma sortSlice_order {A} (R : relation A) `{∀ x y, Decision (R x y)}
    `{!Total R, !Transitive R, !AntiSymm (=) R} l l' :
  l ≡ₚ l' → sortSlice R l = sortSlice R l'.
Proof.
  intros HP. apply (StronglySorted_unique R); [by apply sortSlice_sorted..|].
  by rewrite !sortSlice_perm.
Qed.

(** ** Which group has which shard *)

(** [m] gives every shard of [0 .. n-1] to one group. *)
Record partition (n : Z) (m : gmap Z (list Z)) : Prop := {
  p_range : ∀ g s, s ∈ shardsOf m g → 0 <= s < n;
  p_all : ∀ s, 0 <= s < n → ∃ g, s ∈ shardsOf m g;
  p_unique : ∀ g g' s, s ∈ shardsOf m g → s ∈ shardsOf m g' → g = g';
  p_nodup : ∀ g, NoDup (shardsOf m g);
}.

Definition cnt (m : gmap Z (list Z)) (g : Z) : Z := zlen (shardsOf m g).

(** How many shards an assignment gives to a group. *)
Definition load (shards : list Z) (g : Z) : Z := zlen (filter (λ x, x = g) shards).

Lemma shardsOf_insert m g l g' :
  shardsOf (<[g := l]> m) g' = if decide (g = g') then l else shardsOf m g'.
Proof.
  unfold shardsOf. destruct (decide _) as [<-|]; [by rewrite lookup_insert_eq|by rewrite lookup_insert_ne].
Qed.

Lemma groupShards_snoc shards g :
  groupShards (shards ++ [g]) =
  <[g := shardsOf (groupShards shards) g ++ [zlen shards]]> (groupShards shards).
Proof. unfold groupShards. rewrite imap_app, foldl_app. simpl. by rewrite Nat.add_0_r. Qed.

Lemma index_snoc (l : list Z) x i y :
  index (l ++ [x]) i = Some y ↔ index l i = Some y ∨ (i = zlen l ∧ x = y).
Proof.
  destruct (Z.lt_ge_cases i (zlen l)) as [Hl|Hl].
  - rewrite index_app_l by done. split; [by left|]. intros [?|[? ?]]; [done|lia].
  - rewrite index_app_r by done. split.
    + intros HI. pose proof (index_lt _ _ _ HI) as Hr. change (zlen [x]) with 1 in Hr.
      replace (i - zlen l) with 0 in HI by lia. change (Some x = Some y) in HI. simplify_eq. right. lia.
    + intros [?%index_lt|[-> ->]]; [lia|]. by rewrite Z.sub_diag.
Qed.

Lemma groupShards_elem shards g s : s ∈ shardsOf (groupShards shards) g ↔ index shards s = Some g.
Proof.
  revert s. induction shards as [|x shards IH] using rev_ind; intros s.
  { change (shardsOf (groupShards []) g) with (@nil Z). 
    split; [by intros ?%elem_of_nil|intros H%index_lt; unfold zlen in H; simpl in H; lia]. }
  rewrite groupShards_snoc, shardsOf_insert, index_snoc. destruct (decide (x = g)) as [->|Hne].
  - rewrite elem_of_app, IH, list_elem_of_singleton. naive_solver.
  - rewrite IH. naive_solver.
Qed.

Lemma groupShards_load shards g : cnt (groupShards shards) g = load shards g.
Proof.
  unfold cnt, load. induction shards as [|x shards IH] using rev_ind; [done|].
  rewrite groupShards_snoc, shardsOf_insert, filter_app, zlen_app, <-IH.
  destruct (decide (x = g)) as [->|Hne].
  - rewrite zlen_app, filter_cons_True by done. done.
  - rewrite filter_cons_False by done. unfold zlen. simpl. lia.
Qed.

Lemma groupShards_partition shards : partition (zlen shards) (groupShards shards).
Proof.
  split.
  - intros g s Hs%groupShards_elem. by eapply index_lt.
  - intros s [g Hg]%index_is_Some. exists g. by apply groupShards_elem.
  - intros g g' s H1%groupShards_elem H2%groupShards_elem. congruence.
  - intros g. induction shards as [|x shards IH] using rev_ind; [constructor|].
    rewrite groupShards_snoc, shardsOf_insert. destruct (decide _) as [->|]; [|done].
    apply NoDup_app. split_and!; [done| |apply NoDup_singleton].
    intros s Hs%groupShards_elem ->%list_elem_of_singleton. apply index_lt in Hs. lia.
Qed.

(** A key of [gid2shards] is a group that has a shard. *)
Lemma groupShards_key shards g : is_Some (groupShards shards !! g) ↔ g ∈ shards.
Proof.
  induction shards as [|x shards IH] using rev_ind.
  { split; [by intros [? ?]|by intros ?%elem_of_nil]. }
  rewrite groupShards_snoc, elem_of_app, list_elem_of_singleton, lookup_insert_is_Some.
  destruct (decide (x = g)); naive_solver.
Qed.

(** Two partitions with the same members have the same loads. *)
Lemma partition_load shards m :
  partition (zlen shards) m → (∀ g s, s ∈ shardsOf m g ↔ index shards s = Some g) →
  ∀ g, load shards g = cnt m g.
Proof.
  intros P HM g. rewrite <-groupShards_load. unfold cnt, zlen. f_equal. apply Permutation_length.
  apply NoDup_Permutation; [apply groupShards_partition|apply P|].
  intros s. by rewrite groupShards_elem, HM.
Qed.

(** ** Writing the assignment back *)

Lemma assignShards_spec gid ids shards :
  (∀ s, s ∈ ids → 0 <= s < zlen shards) →
  ∃ shards', assignShards gid ids shards = Some shards' ∧ zlen shards' = zlen shards ∧
    ∀ s, index shards' s = if decide (s ∈ ids) then Some gid else index shards s.
Proof.
  revert shards. induction ids as [|x ids IH]; intros shards Hr; simpl; [by exists shards|].
  assert (0 <= x < zlen shards) by (apply Hr; by left). rewrite store_is_Some by done. simpl.
  destruct (IH (<[Z.to_nat x := gid]> shards)) as (sh' & -> & Hl & Hi).
  { intros s Hs. rewrite zlen_insert. apply Hr. by right. }
  exists sh'. split_and!; [done|by rewrite Hl, zlen_insert|]. intros s. rewrite Hi.
  destruct (decide (s ∈ ids)) as [Hs|Hs]; [by rewrite decide_True by by right|].
  destruct (decide (x = s)) as [->|Hne].
  - rewrite decide_True by by left. by apply index_insert_eq.
  - rewrite decide_False by (by intros [?|?]%elem_of_cons). apply index_insert_ne; [done|lia].
Qed.

Lemma writeBack_spec l shards :
  (∀ g ids s, (g, ids) ∈ l → s ∈ ids → 0 <= s < zlen shards) →
  (∀ g g' ids ids' s, (g, ids) ∈ l → (g', ids') ∈ l → s ∈ ids → s ∈ ids' → g = g') →
  ∃ shards', writeBack l shards = Some shards' ∧ zlen shards' = zlen shards ∧
    (∀ g ids s, (g, ids) ∈ l → s ∈ ids → index shards' s = Some g) ∧
    (∀ s, (∀ g ids, (g, ids) ∈ l → s ∉ ids) → index shards' s = index shards s).
Proof.
  revert shards. induction l as [|[g0 ids0] l IH]; intros shards Hr Hu; simpl.
  { exists shards. split_and!; [done..|by intros ??? ?%elem_of_nil|done]. }
  destruct (assignShards_spec g0 ids0 shards) as (sh1 & -> & Hl1 & Hi1).
  { intros s Hs. apply (Hr g0 ids0); [by left|done]. }
  simpl. destruct (IH sh1) as (sh' & -> & Hl & Hw & Ho).
  { intros g ids s Hin Hs. rewrite Hl1. apply (Hr g ids); [by right|done]. }
  { intros g g' ids ids' s ????. eapply (Hu g g' ids ids' s); [by right|by right|done..]. }
  exists sh'. split_and!; [done|lia| |].
  - intros g ids s Hin Hs. destruct (decide (Exists (λ x, s ∈ x.2) l)) as [HE|HE].
    + apply Exists_exists in HE as ([g' ids'] & Hin' & Hs'). rewrite (Hw g' ids') by done.
      f_equal. symmetry. eapply (Hu g g' ids ids' s); [done|by right|done..].
    + rewrite Ho by (intros g' ids' Hin' Hs'; apply HE, Exists_exists; by exists (g', ids')).
      apply elem_of_cons in Hin as [[= -> ->]|Hin]; [by rewrite Hi1, decide_True|].
      destruct HE. apply Exists_exists. by exists (g, ids).
  - intros s Hs. rewrite Ho by (intros g ids Hin; apply (Hs g ids); by right).
    rewrite Hi1, decide_False; [done|]. apply (Hs g0). by left.
Qed.

(** The write-back of a partition, in any order of its map. *)
Lemma writeBack_partition ord s m shards :
  valid_order ord → partition (zlen shards) m →
  ∃ shards', writeBack (ord s _ m) shards = Some shards' ∧ zlen shards' = zlen shards ∧
    ∀ g x, x ∈ shardsOf m g ↔ index shards' x = Some g.
Proof.
  intros HO P.
  assert (∀ g ids, (g, ids) ∈ ord s _ m → shardsOf m g = ids) as HS.
  { intros g ids Hin%ord_elem; [|done]. unfold shardsOf. by rewrite Hin. }
  destruct (writeBack_spec (ord s _ m) shards) as (sh' & HW & Hl & Hw & _).
  { intros g ids x Hin%HS Hx. subst ids. by eapply (p_range _ _ P). }
  { intros g g' ids ids' x Hin%HS Hin'%HS Hx Hx'. subst ids ids'. by eapply (p_unique _ _ P). }
  exists sh'. split_and!; [done..|].
  assert (∀ g x, x ∈ shardsOf m g → index sh' x = Some g) as H1.
  { intros g x Hx. apply (Hw g (shardsOf m g)); [|done]. apply ord_elem; [done|].
    unfold shardsOf in *. by destruct (m !! g); [|apply elem_of_nil in Hx]. }
  intros g x. split; [apply H1|]. intros Hx. pose proof (index_lt _ _ _ Hx) as Hr. rewrite Hl in Hr.
  destruct (p_all _ _ P x Hr) as [g' Hg']. by assert (g' = g) as <- by (apply H1 in Hg'; congruence).
Qed.

(** ** The two-pointer loop *)

Section loop.
Context (gids : list (Z * Z)) (avg n : Z) (m0 : gmap Z (list Z)).
Context (ND : NoDup gids.*1).
Implicit Types m : gmap Z (list Z).

Definition gidAt (k : Z) : option Z := fst <$> index gids k.

Lemma gidAt_inj k k' g : gidAt k = Some g → gidAt k' = Some g → k = k'.
Proof using ND.
  assert (∀ k, gidAt k = Some g → 0 <= k ∧ gids.*1 !! Z.to_nat k = Some g) as H.
  { intros x (p & Hp & ->)%fmap_Some. apply index_Some in Hp as [? Hp]. split; [done|].
    by rewrite list_lookup_fmap, Hp. }
  intros [? H1]%H [? H2]%H. enough (Z.to_nat k = Z.to_nat k') by lia.
  by eapply NoDup_lookup.
Qed.

Lemma gidAt_is_Some k : 0 <= k < zlen gids → ∃ g, gidAt k = Some g.
Proof. intros [p Hp]%index_is_Some. exists p.1. unfold gidAt. by rewrite Hp. Qed.

(** One transfer of the first [p] shards of [gj] to [gi]. *)
Definition transfer m (gi gj : Z) (p : nat) : gmap Z (list Z) :=
  <[gj := drop p (shardsOf m gj)]> (<[gi := shardsOf m gi ++ take p (shardsOf m gj)]> m).

Lemma transfer_shards m gi gj p g :
  shardsOf (transfer m gi gj p) g =
  if decide (gj = g) then drop p (shardsOf m gj)
  else if decide (gi = g) then shardsOf m gi ++ take p (shardsOf m gj) else shardsOf m g.
Proof. unfold transfer. by rewrite !shardsOf_insert. Qed.

Lemma transfer_partition m gi gj p :
  gi ≠ gj → partition n m → partition n (transfer m gi gj p).
Proof.
  intros Hne P.
  assert (∀ s, s ∈ take p (shardsOf m gj) → s ∈ shardsOf m gj) as HT.
  { intros s Hs. rewrite <-(take_drop p (shardsOf m gj)), elem_of_app. by left. }
  assert (∀ s, s ∈ drop p (shardsOf m gj) → s ∈ shardsOf m gj) as HD.
  { intros s Hs. rewrite <-(take_drop p (shardsOf m gj)), elem_of_app. by right. }
  pose proof (p_nodup _ _ P gj) as NDj. rewrite <-(take_drop p (shardsOf m gj)) in NDj.
  apply NoDup_app in NDj as (ND1 & Hdisj & ND2).
  assert (∀ g s, s ∈ shardsOf (transfer m gi gj p) g →
    (s ∈ shardsOf m gj ∧ (g = gj ∧ s ∈ drop p (shardsOf m gj) ∨ g = gi ∧ s ∈ take p (shardsOf m gj))) ∨
    (s ∈ shardsOf m g ∧ g ≠ gj)) as Hcase.
  { intros g s. rewrite transfer_shards. destruct (decide (gj = g)) as [<-|Hj]; [naive_solver|].
    destruct (decide (gi = g)) as [<-|Hi]; [rewrite elem_of_app|]; naive_solver. }
  split.
  - intros g s [[Hs _]|[Hs _]]%Hcase; by eapply (p_range _ _ P).
  - intros s Hs. destruct (p_all _ _ P s Hs) as [g Hg].
    destruct (decide (g = gj)) as [->|Hg'].
    + rewrite <-(take_drop p (shardsOf m gj)) in Hg. apply elem_of_app in Hg as [Hg|Hg].
      * exists gi. rewrite transfer_shards, decide_False, decide_True by done. apply elem_of_app. by right.
      * exists gj. by rewrite transfer_shards, decide_True.
    + exists g. rewrite transfer_shards, decide_False by done.
      destruct (decide (gi = g)) as [<-|]; [apply elem_of_app; by left|done].
  - intros g g' s H1%Hcase H2%Hcase.
    destruct H1 as [[H1 [[-> Ha]|[-> Ha]]]|[H1 Ha]], H2 as [[H2 [[-> Hb]|[-> Hb]]]|[H2 Hb]]; try done;
      try (by destruct (Hdisj s)); try (by destruct Hb; eapply (p_unique _ _ P));
      try (by destruct Ha; eapply (p_unique _ _ P)); by eapply (p_unique _ _ P).
  - intros g. rewrite transfer_shards. destruct (decide _) as [|Hj]; [done|].
    destruct (decide _) as [|Hi]; [|apply P]. apply NoDup_app. split_and!; [apply P| |done].
    intros s Hs ?%HT. by apply Hne, (p_unique _ _ P gi gj s).
Qed.

Lemma transfer_cnt m gi gj (p : Z) g :
  gi ≠ gj → 0 <= p <= cnt m gj →
  cnt (transfer m gi gj (Z.to_nat p)) g =
  if decide (g = gj) then cnt m gj - p else if decide (g = gi) then cnt m gi + p else cnt m g.
Proof.
  intros Hne Hp. unfold cnt in *. rewrite transfer_shards.
  destruct (decide (gj = g)) as [<-|Hj].
  { rewrite decide_True by done. rewrite zlen_drop. lia. }
  rewrite (decide_False (P := g = gj)) by done. destruct (decide (gi = g)) as [<-|Hi].
  - rewrite decide_True, zlen_app, zlen_take by done. lia.
  - by rewrite decide_False.
Qed.

(** The groups before [i] and after [j] are settled, those between are as they
    were; a group gives only while it has more than [avg]. *)
Record LI (i j : Z) m : Prop := {
  li_part : partition n m;
  li_lo : ∀ k g, k < i → gidAt k = Some g → cnt m g = avg;
  li_hi : ∀ k g, j < k → gidAt k = Some g → cnt m g = avg;
  li_mid : ∀ k g, i < k < j → gidAt k = Some g → shardsOf m g = shardsOf m0 g;
  li_i : ∀ g, i < j → gidAt i = Some g → shardsOf m g = shardsOf m0 g ∨ cnt m g < avg;
  li_j : ∀ g, i < j → gidAt j = Some g → shardsOf m g = shardsOf m0 g ∨ avg < cnt m g;
  li_give : ∀ k g, i < k → gidAt k = Some g → cnt m g <= cnt m0 g;
  li_stay : ∀ g s, cnt m0 g <= avg → s ∈ shardsOf m0 g → s ∈ shardsOf m g;
  li_other : ∀ g, (∀ k, gidAt k ≠ Some g) → shardsOf m g = shardsOf m0 g;
}.

Lemma LI_init i j : partition n m0 → i <= 0 → zlen gids <= j + 1 → LI i j m0.
Proof.
  intros P Hi Hj.
  assert (∀ k g, gidAt k = Some g → 0 <= k < zlen gids) as Hr.
  { intros k g (p & Hp & _)%fmap_Some. by eapply index_lt. }
  split; auto; intros k g Hk Hg%Hr; lia.
Qed.

(** A round of the loop: [i], [j] or both move on. *)
Lemma LI_step i j i' j' m gi gj :
  LI i j m → i < j → gidAt i = Some gi → gidAt j = Some gj →
  cnt m gi < avg → avg < cnt m gj →
  let need := avg - cnt m gi in
  let extra := cnt m gj - avg in
  let p := Z.min need extra in
  i <= i' → j' <= j → i' - i <= 1 → j - j' <= 1 →
  (i' = i → need > extra) → (i' ≠ i → need <= extra) →
  (j' = j → extra > need) → (j' ≠ j → extra <= need) →
  LI i' j' (transfer m gi gj (Z.to_nat p)).
Proof using ND.
  intros L Hij Hi Hj Hci Hcj need extra p Hi1 Hj1 Hi2 Hj2 Hni Hyi Hnj Hyj.
  assert (gi ≠ gj) as Hne by (intros ->; pose proof (gidAt_inj _ _ _ Hi Hj); lia).
  assert (0 <= p <= cnt m gj) as Hp by (unfold cnt in *; pose proof (zlen_nonneg (shardsOf m gi)); lia).
  assert (∀ g, cnt (transfer m gi gj (Z.to_nat p)) g =
    if decide (g = gj) then cnt m gj - p else if decide (g = gi) then cnt m gi + p else cnt m g) as HC
    by (intros; by apply transfer_cnt).
  assert (∀ g, g ≠ gi → g ≠ gj → shardsOf (transfer m gi gj (Z.to_nat p)) g = shardsOf m g) as HS.
  { intros g ??. by rewrite transfer_shards, !decide_False by done. }
  assert (∀ k g, gidAt k = Some g → (g = gi ↔ k = i) ∧ (g = gj ↔ k = j)) as HK.
  { intros k g Hk. split; split; intros ->; [by eapply gidAt_inj|congruence|by eapply gidAt_inj|congruence]. }
  split.
  - apply transfer_partition; [done|apply L].
  - intros k g Hk Hg. destruct (HK k g Hg) as [K1 K2]. rewrite HC.
    destruct (decide (g = gj)); [lia|]. destruct (decide (g = gi)); [lia|].
    apply (li_lo _ _ _ L k); [lia|done].
  - intros k g Hk Hg. destruct (HK k g Hg) as [K1 K2]. rewrite HC.
    destruct (decide (g = gj)); [lia|]. destruct (decide (g = gi)); [lia|].
    apply (li_hi _ _ _ L k); [lia|done].
  - intros k g Hk Hg. destruct (HK k g Hg) as [K1 K2].
    rewrite HS by (intros ->; lia). apply (li_mid _ _ _ L k); [lia|done].
  - intros g Hlt Hg. destruct (HK _ g Hg) as [K1 K2]. destruct (decide (i' = i)) as [E|E].
    + right. rewrite HC, decide_False, decide_True by lia. lia.
    + left. rewrite HS by (intros ->; lia). apply (li_mid _ _ _ L i'); [lia|done].
  - intros g Hlt Hg. destruct (HK _ g Hg) as [K1 K2]. destruct (decide (j' = j)) as [E|E].
    + right. rewrite HC, decide_True by lia. lia.
    + left. rewrite HS by (intros ->; lia). apply (li_mid _ _ _ L j'); [lia|done].
  - intros k g Hk Hg. destruct (HK k g Hg) as [K1 K2]. rewrite HC.
    pose proof (li_give _ _ _ L k g ltac:(lia) Hg).
    destruct (decide (g = gj)) as [->|]; [lia|]. destruct (decide (g = gi)); lia.
  - intros g s Hc Hs. pose proof (li_stay _ _ _ L g s Hc Hs) as Hs'. rewrite transfer_shards.
    destruct (decide (gj = g)) as [<-|].
    + pose proof (li_give _ _ _ L j gj Hij Hj). lia.
    + destruct (decide (gi = g)) as [<-|]; [apply elem_of_app; by left|done].
  - intros g Hg. rewrite HS; [by apply (li_other _ _ _ L)| |]; intros ->; [by apply (Hg i)|by apply (Hg j)].
Qed.

(** Where the loop stops. *)
Definition stopped (i j : Z) m : Prop :=
  j <= i ∨ (∃ g, gidAt i = Some g ∧ avg <= cnt m g) ∨ (∃ g, gidAt j = Some g ∧ cnt m g <= avg).

Lemma ctrler_min_Z a b : min a b = Z.min a b.
Proof. unfold min. destruct (Z.ltb_spec a b); lia. Qed.

Lemma ctrler_max_Z a b : max a b = Z.max a b.
Proof. unfold max. destruct (Z.ltb_spec b a); lia. Qed.

(** What one round computes. *)
Lemma balanceLoop_round fuel i j m gi gj :
  i < j → gidAt i = Some gi → gidAt j = Some gj → gi ≠ gj → cnt m gi < avg → avg < cnt m gj →
  let need := avg - cnt m gi in
  let extra := cnt m gj - avg in
  balanceLoop (S fuel) gids avg i j m =
  balanceLoop fuel gids avg (if need <=? extra then i + 1 else i) (if extra <=? need then j - 1 else j)
    (transfer m gi gj (Z.to_nat (Z.min need extra))).
Proof.
  intros Hij Hi Hj Hne Hci Hcj need extra. unfold cnt in *.
  pose proof (zlen_nonneg (shardsOf m gi)) as H0. unfold gidAt in *.
  simpl. rewrite (proj2 (Z.ltb_lt _ _) Hij), Hi, Hj. simpl.
  rewrite (proj2 (Z.ltb_lt _ _) Hci), (proj2 (Z.ltb_lt _ _) Hcj). simpl. rewrite ctrler_min_Z.
  fold need extra. rewrite slice_to by lia. simpl. rewrite !shardsOf_insert, decide_False by done.
  rewrite slice_from_drop by lia. simpl. fold (transfer m gi gj (Z.to_nat (Z.min need extra))).
  destruct (Z.eqb_spec extra need) as [E|E]; [by rewrite E, Z.leb_refl|].
  destruct (Z.ltb_spec need extra), (Z.leb_spec need extra), (Z.leb_spec extra need); try lia; done.
Qed.

(** It ends within one round per group and never slices out of range. *)
Lemma balanceLoop_total fuel i j m :
  LI i j m → 0 <= i → j < zlen gids → i <= j + 1 → j - i + 1 < Z.of_nat fuel →
  ∃ m' i' j', balanceLoop fuel gids avg i j m = Some m' ∧ LI i' j' m' ∧ stopped i' j' m' ∧
    0 <= i' ∧ j' < zlen gids ∧ i' <= j' + 1.
Proof using ND.
  revert i j m. induction fuel as [|fuel IH]; intros i j m L Hi Hj Hle Hf; [lia|].
  destruct (Z.lt_ge_cases i j) as [Hij|Hij].
  2:{ exists m, i, j. simpl. rewrite (proj2 (Z.ltb_ge _ _) Hij). split_and!; try done. by left. }
  destruct (gidAt_is_Some i) as [gi Hgi]; [lia|]. destruct (gidAt_is_Some j) as [gj Hgj]; [lia|].
  destruct (Z.lt_ge_cases (cnt m gi) avg) as [Hci|Hci]; [destruct (Z.lt_ge_cases avg (cnt m gj)) as [Hcj|Hcj]|].
  - assert (gi ≠ gj) as Hne by (intros ->; lia). rewrite (balanceLoop_round fuel i j m gi gj) by done.
    destruct (Z.leb_spec (avg - cnt m gi) (cnt m gj - avg)), (Z.leb_spec (cnt m gj - avg) (avg - cnt m gi));
      try lia; apply IH; try lia; (eapply (LI_step i j); try done; lia).
  - exists m, i, j. unfold gidAt in *. simpl. rewrite (proj2 (Z.ltb_lt _ _) Hij), Hgi, Hgj. simpl.
    fold (cnt m gi) (cnt m gj). rewrite (proj2 (Z.ltb_ge _ _) Hcj), andb_false_r.
    split_and!; try done. right; right. by exists gj.
  - exists m, i, j. unfold gidAt in *. simpl. rewrite (proj2 (Z.ltb_lt _ _) Hij), Hgi, Hgj. simpl.
    fold (cnt m gi) (cnt m gj). rewrite (proj2 (Z.ltb_ge _ _) Hci). simpl.
    split_and!; try done. right; left. by exists gi.
Qed.

(** With the groups sorted by their number of shards, the loop leaves no group
    below the average or none above it. *)
Lemma stopped_dichotomy i j m :
  (∀ k k' g g', k < k' → gidAt k = Some g → gidAt k' = Some g' → cnt m0 g <= cnt m0 g') →
  LI i j m → stopped i j m → i <= j + 1 →
  (∀ k g, gidAt k = Some g → avg <= cnt m g) ∨ (∀ k g, gidAt k = Some g → cnt m g <= avg).
Proof using ND.
  intros Hsort L Hstop Hle.
  assert (∀ k g, gidAt k = Some g → k < i ∨ j < k → cnt m g = avg) as Hout.
  { intros k g Hg [Hk|Hk]; [by eapply (li_lo _ _ _ L)|by eapply (li_hi _ _ _ L)]. }
  assert (∀ k g, gidAt k = Some g → i < k < j → cnt m g = cnt m0 g) as Hmid.
  { intros k g Hg Hk. unfold cnt. by rewrite (li_mid _ _ _ L k g Hk Hg). }
  assert (∀ g, i < j → gidAt i = Some g → cnt m g = cnt m0 g ∨ cnt m g < avg) as Hat_i.
  { intros g Hij Hg. destruct (li_i _ _ _ L g Hij Hg) as [E|?]; [left; unfold cnt; by rewrite E|by right]. }
  assert (∀ g, i < j → gidAt j = Some g → cnt m g = cnt m0 g ∨ avg < cnt m g) as Hat_j.
  { intros g Hij Hg. destruct (li_j _ _ _ L g Hij Hg) as [E|?]; [left; unfold cnt; by rewrite E|by right]. }
  destruct (Z.lt_ge_cases i j) as [Hij|Hij].
  - destruct Hstop as [?|[(gi & Hgi & Hc)|(gj & Hgj & Hc)]]; [lia|left|right]; intros k g Hg.
    + destruct (Hat_i gi Hij Hgi) as [E|?]; [|lia].
      destruct (decide (k < i ∨ j < k)) as [Hk|Hk]; [rewrite (Hout k g Hg Hk); lia|].
      destruct (decide (k = i)) as [->|]; [replace g with gi by congruence; lia|].
      pose proof (Hsort i k gi g ltac:(lia) Hgi Hg). destruct (decide (k = j)) as [->|].
      * destruct (Hat_j g Hij Hg); lia.
      * rewrite (Hmid k g Hg) by lia. lia.
    + destruct (Hat_j gj Hij Hgj) as [E|?]; [|lia].
      destruct (decide (k < i ∨ j < k)) as [Hk|Hk]; [rewrite (Hout k g Hg Hk); lia|].
      destruct (decide (k = j)) as [->|]; [replace g with gj by congruence; lia|].
      pose proof (Hsort k j g gj ltac:(lia) Hg Hgj). destruct (decide (k = i)) as [->|].
      * destruct (Hat_i g Hij Hg); lia.
      * rewrite (Hmid k g Hg) by lia. lia.
  - destruct (gidAt i) as [gi|] eqn:Hgi.
    + destruct (Z.le_ge_cases avg (cnt m gi)); [left|right]; intros k g Hg;
        (destruct (decide (k = i)) as [->|]; [replace g with gi by congruence; lia|];
         rewrite (Hout k g Hg) by lia; lia).
    + left. intros k g Hg. destruct (decide (k = i)) as [->|]; [congruence|].
      rewrite (Hout k g Hg) by lia. lia.
Qed.

End loop.

(** ** The list of groups *)

Section gid_list.
Context (ord : Order) (HO : valid_order ord) (shards : list Z) (groups : gmap Z (list string)).
Let m := groupShards shards.
Let gids := gidPairs ord m groups.

(** Every owner of a shard and every group is there once, with its load. *)
Lemma gidPairs_elem g c : (g, c) ∈ gids ↔ (g ∈ shards ∨ g ∈ dom groups) ∧ c = cnt m g.
Proof using HO.
  unfold gids, gidPairs. rewrite sortSlice_perm, elem_of_app, !list_elem_of_fmap.
  unfold cnt, shardsOf. rewrite <-(groupShards_key shards g). fold m. split.
  - intros [([g' ids] & [= -> ->] & H)|([g' v] & [= -> ->] & [Hn H]%list_elem_of_filter)];
      apply ord_elem in H; [|done| |done].
    + rewrite H. split; [left; by eexists|done].
    + simpl in Hn. rewrite Hn. split; [right; by apply elem_of_dom|done].
  - intros [Hg ->]. destruct (m !! g) as [ids|] eqn:E.
    + left. exists (g, ids). split; [done|by apply ord_elem].
    + right. destruct Hg as [[? ?]|Hg]; [done|]. apply elem_of_dom in Hg as [v Hv].
      exists (g, v). split; [done|]. apply list_elem_of_filter. split; [done|by apply ord_elem].
Qed.

Lemma gidPairs_NoDup : NoDup gids.*1.
Proof using HO.
  unfold gids, gidPairs. rewrite sortSlice_perm, fmap_app. apply NoDup_app. split_and!.
  - rewrite <-list_fmap_compose. rewrite (list_fmap_ext _ fst); [by apply ord_NoDup|]. by intros ? [].
  - intros g Hg1 Hg2. apply list_elem_of_fmap in Hg1 as ([g1 c] & -> & H1).
    apply list_elem_of_fmap in Hg2 as ([g2 c'] & Hg & H2). simpl in *. subst g2.
    apply list_elem_of_fmap in H1 as ([? ids] & [= -> ->] & H1%ord_elem); [|done].
    apply list_elem_of_fmap in H2 as ([? v] & [= -> ->] & [Hn _]%list_elem_of_filter). simpl in Hn. congruence.
  - rewrite <-list_fmap_compose. rewrite (list_fmap_ext _ fst) by (by intros ? []).
    eapply sublist_NoDup; [apply (ord_NoDup ord 3 _ groups HO)|]. apply fmap_sublist, sublist_filter.
Qed.

Lemma gidPairs_at k g : gidAt gids k = Some g → index gids k = Some (g, cnt m g).
Proof using HO.
  intros ([g' c] & Hk & ->)%fmap_Some. pose proof (index_elem_of _ _ _ Hk) as [_ ->]%gidPairs_elem. done.
Qed.

Lemma gidPairs_sorted k k' g g' :
  k < k' → gidAt gids k = Some g → gidAt gids k' = Some g' → cnt m g <= cnt m g'.
Proof using HO.
  intros Hlt [? H1]%gidPairs_at%index_Some [? H2]%gidPairs_at%index_Some.
  assert (pair_le (g, cnt m g) (g', cnt m g')) as HP; [|unfold pair_le in HP; simpl in HP; lia].
  eapply (StronglySorted_lookup _ gids); [apply sortSlice_sorted; apply _|..]; [done..|]. lia.
Qed.

Lemma gidPairs_gid g : g ∈ gids.*1 ↔ g ∈ shards ∨ g ∈ dom groups.
Proof using HO.
  rewrite list_elem_of_fmap. split.
  - intros ([? c] & -> & [? _]%gidPairs_elem). done.
  - intros Hg. exists (g, cnt m g). split; [done|]. by apply gidPairs_elem.
Qed.

End gid_list.

(** The list does not depend on the order of the maps. *)
Lemma gidPairs_order ord ord' m groups :
  valid_order ord → valid_order ord' → gidPairs ord m groups = gidPairs ord' m groups.
Proof.
  intros HO HO'. apply sortSlice_order; [apply _..|].
  by rewrite (HO 2 _ m), (HO' 2 _ m), (HO 3 _ groups), (HO' 3 _ groups).
Qed.

(** ** Totals *)

Lemma partition_total n m gs :
  0 <= n → partition n m → NoDup gs → (∀ g s, s ∈ shardsOf m g → g ∈ gs) →
  zlen (concat (shardsOf m <$> gs)) = n.
Proof.
  intros Hn P ND Hgs.
  assert (concat (shardsOf m <$> gs) ≡ₚ upto n) as HP.
  { apply NoDup_Permutation.
    - clear Hgs. induction ND as [|g gs Hg ND IH]; simpl; [constructor|].
      apply NoDup_app. split_and!; [apply P| |done].
      intros s Hs (l & Hl & Hs')%elem_of_concat. apply list_elem_of_fmap in Hl as (g' & -> & Hg').
      by rewrite (p_unique _ _ P g g' s Hs Hs') in Hg.
    - apply NoDup_fmap_2; [apply _|apply NoDup_seq].
    - intros s. rewrite elem_of_concat, upto_elem. split.
      + intros (l & Hl & Hs). apply list_elem_of_fmap in Hl as (g & -> & _). by apply (p_range _ _ P g).
      + intros Hs. destruct (p_all _ _ P s Hs) as [g Hg]. exists (shardsOf m g). split; [|done].
        apply list_elem_of_fmap. eauto. }
  unfold zlen. rewrite HP. unfold upto. rewrite length_fmap, length_seq. lia.
Qed.

Lemma total_at_most m gs a :
  (∀ g, g ∈ gs → cnt m g <= a) →
  zlen (concat (shardsOf m <$> gs)) <= zlen gs * a ∧
  (zlen gs * a <= zlen (concat (shardsOf m <$> gs)) → ∀ g, g ∈ gs → a <= cnt m g).
Proof.
  induction gs as [|g gs IH]; intros Ha; [split; [done|by intros _ ? ?%elem_of_nil]|].
  rewrite fmap_cons. cbn [concat].
  destruct IH as [IH1 IH2]; [intros; apply Ha; by right|].
  assert (cnt m g <= a) by (apply Ha; by left). unfold cnt in *.
  rewrite zlen_app, zlen_cons, Z.mul_add_distr_r, Z.mul_1_l. split; [lia|]. intros Hs g' [->|Hg']%elem_of_cons; [lia|]. apply IH2; [lia|done].
Qed.

(** ** The whole operation *)

Lemma average_pos groups : 1 <= average groups.
Proof. unfold average. rewrite ctrler_max_Z. lia. Qed.

(** [rebalanceConfig].  On any assignment of shards to groups it ends
    without a panic, keeps number and groups, gives every shard to a group of
    the configuration or to an owner it had, never takes a shard away from a
    group that has at most the average, and leaves no group below the average
    or none above it. *)
Theorem rebalanceConfig_correct ord cfg :
  valid_order ord → Groups cfg ≠ ∅ →
  let avg := average (Groups cfg) in
  let present g := g ∈ Shards cfg ∨ g ∈ dom (Groups cfg) in
  ∃ shards', rebalanceConfig ord cfg = Some (mkConfig (Num cfg) shards' (Groups cfg)) ∧
    zlen shards' = zlen (Shards cfg) ∧
    (∀ g, g ∈ shards' → present g) ∧
    (∀ s g, index (Shards cfg) s = Some g → load (Shards cfg) g <= avg → index shards' s = Some g) ∧
    ((∀ g, present g → avg <= load shards' g) ∨ (∀ g, load shards' g <= avg)).
Proof.
  intros HO Hne avg present. unfold rebalanceConfig.
  assert (size (Groups cfg) ≠ 0%nat) as Hsz by (by intros ?%map_size_empty_inv).
  rewrite (proj2 (Nat.eqb_neq _ _) Hsz).
  set (m := groupShards (Shards cfg)). set (gids := gidPairs ord m (Groups cfg)).
  pose proof (groupShards_partition (Shards cfg)) as P. fold m in P.
  assert (NoDup gids.*1) as ND by by apply gidPairs_NoDup.
  pose proof (zlen_nonneg gids) as H0.
  destruct (balanceLoop_total gids avg (zlen (Shards cfg)) m ND (S (length gids)) 0 (zlen gids - 1) m)
    as (m' & i & j & HB & L & Hstop & Hi & Hj & Hij); try lia.
  { apply LI_init; [done|lia..]. }
  { unfold zlen in *. lia. }
  fold avg gids in HB |- *. rewrite HB. simpl.
  destruct (writeBack_partition ord 4 m' (Shards cfg) HO (li_part _ _ _ _ _ _ _ L)) as (sh' & HW & Hl & HM).
  rewrite HW. simpl. exists sh'. split_and!; [done|done| | |].
  - intros g [s Hs]%elem_of_index. apply HM in Hs. apply (gidPairs_gid ord HO). fold m gids.
    destruct (decide (g ∈ gids.*1)) as [|Hn]; [done|exfalso].
    rewrite (li_other _ _ _ _ _ _ _ L) in Hs.
    + apply groupShards_elem in Hs. apply Hn, gidPairs_gid; [done|]. left. by apply elem_of_index; eauto.
    + intros k (p & Hp%index_elem_of & ->)%fmap_Some. apply Hn. by apply list_elem_of_fmap_2.
  - intros s g Hs Hle. apply HM, (li_stay _ _ _ _ _ _ _ L); [unfold m; by rewrite groupShards_load|].
    by apply groupShards_elem.
  - assert (∀ g, load sh' g = cnt m' g) as Hload.
    { apply partition_load; [rewrite Hl; apply L|done]. }
    assert (∀ g, present g → ∃ k, gidAt gids k = Some g) as Hat.
    { intros g Hg. apply (gidPairs_gid ord HO) in Hg. fold m gids in Hg.
      apply list_elem_of_fmap in Hg as (p & -> & [k Hk]%elem_of_index). exists k. unfold gidAt. by rewrite Hk. }
    destruct (stopped_dichotomy gids avg (zlen (Shards cfg)) m ND i j m') as [HD|HD]; try done.
    { apply gidPairs_sorted. done. }
    + left. intros g [k Hk]%Hat. rewrite Hload. by eapply HD.
    + right. intros g. rewrite Hload. destruct (decide (g ∈ gids.*1)) as [Hg|Hn].
      * apply gidPairs_gid in Hg as [k Hk]%Hat; [|done]. by eapply HD.
      * unfold cnt. rewrite (li_other _ _ _ _ _ _ _ L).
        -- destruct (shardsOf m g) as [|s l] eqn:E; [change (zlen []) with 0; pose proof (average_pos (Groups cfg)); lia|].
           destruct Hn. apply gidPairs_gid; [done|]. left. apply elem_of_index. exists s.
           apply groupShards_elem. fold m. rewrite E. by left.
        -- intros k (p & Hp%index_elem_of & ->)%fmap_Some. apply Hn. by apply list_elem_of_fmap_2.
Qed.

Lemma total_at_least m gs a g :
  (∀ g, g ∈ gs → a <= cnt m g) → g ∈ gs →
  (zlen gs - 1) * a + cnt m g <= zlen (concat (shardsOf m <$> gs)).
Proof.
  induction gs as [|x gs IH]; intros Ha Hg; [by apply elem_of_nil in Hg|].
  rewrite fmap_cons. cbn [concat]. rewrite zlen_app, zlen_cons. fold (cnt m x).
  assert (zlen gs * a <= zlen (concat (shardsOf m <$> gs))) as Hall.
  { clear -Ha. induction gs as [|y gs IH]; [done|]. rewrite fmap_cons. cbn [concat].
    rewrite zlen_app, zlen_cons. fold (cnt m y).
    assert (a <= cnt m y) by (apply Ha; right; by left).
    specialize (IH ltac:(intros g [->|?]%elem_of_cons; apply Ha; [by left|right; by right])). lia. }
  assert (a <= cnt m x) by (apply Ha; by left).
  apply elem_of_cons in Hg as [->|Hg]; [lia|].
  specialize (IH ltac:(intros; apply Ha; by right) Hg). lia.
Qed.

(** The share of a group among [k]: up to ten groups each have at least ten
    divided by [k], and at most the remainder more; of more than ten groups none
    has more than one shard. *)
Definition share (k n : Z) : Prop :=
  if decide (k <= NShards) then NShards / k <= n <= NShards / k + NShards mod k else n <= 1.

Lemma average_eq groups :
  groups ≠ ∅ → average groups = if decide (Z.of_nat (size groups) <= NShards)
    then NShards / Z.of_nat (size groups) else 1.
Proof.
  intros Hne. assert (size groups ≠ 0%nat) by (by intros ?%map_size_empty_inv).
  unfold average. rewrite ctrler_max_Z. unfold NShards. case_decide.
  - apply Z.max_r, Z.div_le_lower_bound; lia.
  - rewrite Z.div_small by lia. done.
Qed.

(** No group below the average or none above it: then all have their share. *)
Lemma share_balanced shards groups :
  groups ≠ ∅ → zlen shards = NShards → (∀ g, g ∈ shards → g ∈ dom groups) →
  (∀ g, g ∈ dom groups → average groups <= load shards g) ∨ (∀ g, load shards g <= average groups) →
  ∀ g, g ∈ dom groups → share (Z.of_nat (size groups)) (load shards g).
Proof.
  intros Hne Hlen Hown HD g Hg. assert (size groups ≠ 0%nat) as Hs0 by (by intros ?%map_size_empty_inv).
  set (gs := elements (dom groups)). set (k := Z.of_nat (size groups)).
  assert (zlen gs = k) as Hgs by (unfold zlen, gs; change (length (elements (dom groups))) with (size (dom groups)); by rewrite size_dom).
  assert (g ∈ gs) as Hg' by by apply elem_of_elements.
  assert (zlen (concat (shardsOf (groupShards shards) <$> gs)) = NShards) as HT.
  { rewrite <-Hlen. apply partition_total; [apply zlen_nonneg|apply groupShards_partition|apply NoDup_elements|].
    intros g' s Hs%groupShards_elem. apply elem_of_elements, Hown, elem_of_index. eauto. }
  pose proof (average_eq groups Hne) as Havg. fold k in Havg. set (avg := average groups) in *.
  assert (NShards = k * (NShards / k) + NShards mod k ∧ 0 <= NShards mod k) as [Hdm Hm0].
  { split; [apply Z.div_mod; lia|apply Z.mod_pos_bound; lia]. }
  unfold share. destruct HD as [HD|HD].
  - pose proof (total_at_least (groupShards shards) gs avg g) as HL.
    rewrite HT, Hgs, groupShards_load in HL. specialize (HD g Hg) as Hgd.
    assert ((k - 1) * avg + load shards g <= NShards) as HL'.
    { apply HL; [|done]. intros g' Hg1%elem_of_elements. rewrite groupShards_load. by apply HD. }
    case_decide; [rewrite Havg in *; nia|]. exfalso. rewrite Havg in *. unfold NShards in *. lia.
  - destruct (total_at_most (groupShards shards) gs avg) as [_ HU].
    { intros g' _. by rewrite groupShards_load. }
    rewrite HT, Hgs in HU. specialize (HD g). case_decide; [|lia]. split; [|lia].
    rewrite <-Havg, <-groupShards_load. apply HU; [|done]. lia.
Qed.

(** Every group gets its share when the shards belong to groups. *)
Lemma rebalanceConfig_share ord cfg :
  valid_order ord → Groups cfg ≠ ∅ → zlen (Shards cfg) = NShards →
  (∀ g, g ∈ Shards cfg → g ∈ dom (Groups cfg)) →
  ∃ shards', rebalanceConfig ord cfg = Some (mkConfig (Num cfg) shards' (Groups cfg)) ∧
    zlen shards' = NShards ∧ (∀ g, g ∈ shards' → g ∈ dom (Groups cfg)) ∧
    ∀ g, g ∈ dom (Groups cfg) → share (Z.of_nat (size (Groups cfg))) (load shards' g).
Proof.
  intros HO Hne Hlen Hown.
  destruct (rebalanceConfig_correct ord cfg HO Hne) as (sh' & HR & Hl & Hp & _ & HD).
  exists sh'. rewrite Hlen in Hl.
  assert (∀ g, g ∈ sh' → g ∈ dom (Groups cfg)) as Hown' by (intros g [?|?]%Hp; auto).
  split_and!; [done..|]. apply share_balanced; [done..|].
  destruct HD as [HD|HD]; [left; intros g Hg; apply HD; by right|by right].
Qed.

(** The write-back and the whole operation do not depend on the map orders. *)
Lemma writeBack_order ord ord' s m shards :
  valid_order ord → valid_order ord' → partition (zlen shards) m →
  writeBack (ord s _ m) shards = writeBack (ord' s _ m) shards.
Proof.
  intros HO HO' P. destruct (writeBack_partition ord s m shards HO P) as (l & -> & Hl & HM).
  destruct (writeBack_partition ord' s m shards HO' P) as (l' & -> & Hl' & HM'). f_equal.
  apply list_eq_same_length with (n := length l); [unfold zlen in *; lia..|].
  intros i x y _ Hx Hy.
  assert (∀ (l : list Z) z, l !! i = Some z → index l (Z.of_nat i) = Some z) as HI.
  { intros. apply index_Some. rewrite Nat2Z.id. split; [lia|done]. }
  apply HI, HM, HM' in Hx. apply HI in Hy. congruence.
Qed.

Lemma rebalanceConfig_order ord ord' cfg :
  valid_order ord → valid_order ord' → rebalanceConfig ord cfg = rebalanceConfig ord' cfg.
Proof.
  intros HO HO'. unfold rebalanceConfig. destruct (size _ =? 0)%nat; [done|].
  set (m := groupShards (Shards cfg)). rewrite (gidPairs_order ord ord') by done.
  set (gids := gidPairs ord' m (Groups cfg)). pose proof (zlen_nonneg gids) as H0.
  destruct (balanceLoop_total gids (average (Groups cfg)) (zlen (Shards cfg)) m
    (gidPairs_NoDup ord' HO' _ _) (S (length gids)) 0 (zlen gids - 1) m)
    as (m' & i & j & -> & L & _); try lia.
  { apply LI_init; [apply groupShards_partition|lia..]. }
  { unfold zlen in *. lia. }
  simpl. by rewrite (writeBack_order ord ord') by (done || apply L).
Qed.
