(* ===== verification/CtrlerState.v ===== *)
(** * The configurations of the shard controller

    The replicas of the controller agree on every configuration although Go
    visits maps in any order; configurations are numbered and never change;
    under Join and Leave every shard belongs to a group that has its share.
    What Move can break is shown on concrete runs. *)

From S2P Require Import Prelude LabGob Persister Raft RaftLog RaftState RaftApi Dedup Clerk ShardCtrler Rebalance.

(** ** Agreement of the replicas *)

Lemma newConfig_eq ord configs :
  valid_order ord →
  newConfig ord configs = cfg ← last_entry configs; Some (mkConfig (zlen configs) (Shards cfg) (Groups cfg)).
Proof.
  intros HO. unfold newConfig. destruct (last_entry configs) as [cfg|]; [|done]. simpl.
  by rewrite deepCopy_eq.
Qed.

Lemma sortedGids_order ord ord' (servers : gmap Z (list string)) :
  valid_order ord → valid_order ord' →
  sortSlice Z.le (ord 1 _ servers).*1 = sortSlice Z.le (ord' 1 _ servers).*1.
Proof. intros HO HO'. apply sortSlice_order; [apply _..|]. by rewrite (HO 1 _ servers), (HO' 1 _ servers). Qed.

(** [a] beats [b] as the group that takes over: more shards, or as many and a
    smaller number. *)
Definition beats (num : gmap Z Z) (a b : Z) : Prop :=
  default 0 (num !! b) < default 0 (num !! a) ∨
  (default 0 (num !! b) = default 0 (num !! a) ∧ a <= b).

Lemma targetStep_spec num t g c :
  let t1 := targetStep num t (g, c) in (t1 = t ∨ t1 = g) ∧ beats num t1 t ∧ beats num t1 g.
Proof.
  unfold targetStep, beats. simpl. rewrite ctrler_min_Z.
  destruct (Z.ltb_spec (default 0 (num !! t)) (default 0 (num !! g))); [lia|].
  destruct (Z.eqb_spec (default 0 (num !! g)) (default 0 (num !! t))); [|lia].
  destruct (Z.min_spec t g) as [[? ->]|[? ->]]; lia.
Qed.

Lemma pickTarget_foldl num entries t0 :
  let t := foldl (targetStep num) t0 entries in
  (t = t0 ∨ t ∈ entries.*1) ∧ ∀ k, k = t0 ∨ k ∈ entries.*1 → beats num t k.
Proof.
  revert t0. induction entries as [|[g c] entries IH]; intros t0.
  { split; [by left|]. intros k [->|?%elem_of_nil]; [|done]. right. simpl. lia. }
  destruct (targetStep_spec num t0 g c) as (H1 & H2 & H3). cbn [foldl]. rewrite fmap_cons. cbn [fst].
  set (t1 := targetStep num t0 (g, c)) in *. destruct (IH t1) as [Hin Hb].
  set (t := foldl (targetStep num) t1 entries) in *. split.
  - destruct Hin as [->|?]; [|right; by right]. destruct H1 as [->| ->]; [by left|right; by left].
  - intros k Hk. assert (beats num t1 k ∨ k = t1 ∨ k ∈ entries.*1) as [Hk'|Hk'] by set_solver; [|by apply Hb].
    specialize (Hb t1 ltac:(by left)). unfold beats in *. lia.
Qed.

Lemma pickTarget_spec num entries :
  (pickTarget entries num = 0 ∨ pickTarget entries num ∈ entries.*1) ∧
  ∀ k, k = 0 ∨ k ∈ entries.*1 → beats num (pickTarget entries num) k.
Proof. apply (pickTarget_foldl num entries 0). Qed.

Lemma pickTarget_order ord ord' num :
  valid_order ord → valid_order ord' → pickTarget (ord 6 _ num) num = pickTarget (ord' 6 _ num) num.
Proof.
  intros HO HO'. destruct (pickTarget_spec num (ord 6 _ num)) as [H1 H2].
  destruct (pickTarget_spec num (ord' 6 _ num)) as [H3 H4].
  assert (∀ k, k ∈ (ord 6 _ num).*1 ↔ k ∈ (ord' 6 _ num).*1) as Hk.
  { intros k. by rewrite (HO 6 _ num), (HO' 6 _ num). }
  specialize (H2 _ ltac:(rewrite Hk; exact H3)). specialize (H4 _ ltac:(rewrite <-Hk; exact H1)).
  unfold beats in *. lia.
Qed.

Lemma execute_order_eq ord ord' op cfgs :
  valid_order ord → valid_order ord' → execute ord op cfgs = execute ord' op cfgs.
Proof.
  intros HO HO'. unfold execute. destruct (opType op).
  - unfold doJoin. rewrite !newConfig_eq by done. destruct (last_entry cfgs) as [cfg|]; [|done]. simpl.
    destruct (index (Shards cfg) 0) as [s0|]; [|done]. simpl. destruct (s0 =? 0).
    + unfold initConfifg. simpl. by rewrite (sortedGids_order ord ord').
    + rewrite (rebalanceConfig_order ord ord') by done.
      assert (appendGroups (ord 5 _ (ja_Servers (opJoin op))) (Groups cfg) =
              appendGroups (ord' 5 _ (ja_Servers (opJoin op))) (Groups cfg)) as ->; [|done].
      apply map_eq. intros g. by rewrite !appendGroups_ord.
  - unfold doMove. by rewrite !newConfig_eq.
  - unfold doLeave. rewrite !newConfig_eq by done. destruct (last_entry cfgs) as [cfg|]; [|done]. simpl.
    by rewrite (rebalanceConfig_order ord ord'), (pickTarget_order ord ord').
  - done.
Qed.

(** ** Numbering *)

Record numbered (cfgs : list Config) : Prop := {
  nb_some : cfgs ≠ [];
  nb_num : ∀ k cfg, index cfgs k = Some cfg → Num cfg = k ∧ zlen (Shards cfg) = NShards;
}.

Lemma numbered_init : numbered [Config0].
Proof.
  split; [done|]. intros k cfg Hk. pose proof (index_lt _ _ _ Hk) as Hr. change (zlen [Config0]) with 1 in Hr.
  assert (k = 0) as -> by lia. by injection Hk as <-.
Qed.

Lemma numbered_last cfgs : numbered cfgs → ∃ cfg, last_entry cfgs = Some cfg ∧ zlen (Shards cfg) = NShards.
Proof.
  intros [Hne Hn]. destruct (index_is_Some cfgs (zlen cfgs - 1)) as [cfg Hc].
  { pose proof (zlen_nonneg cfgs). destruct (decide (zlen cfgs = 0)) as [?%zlen_0_nil|]; [done|lia]. }
  exists cfg. split; [done|by apply (Hn (zlen cfgs - 1))].
Qed.

Lemma numbered_snoc cfgs cfg :
  numbered cfgs → Num cfg = zlen cfgs → zlen (Shards cfg) = NShards → numbered (cfgs ++ [cfg]).
Proof.
  intros [Hne Hn] Hnum Hlen. split; [by destruct cfgs|]. intros k c Hk.
  destruct (Z.lt_ge_cases k (zlen cfgs)) as [Hl|Hl].
  - rewrite index_app_l in Hk by done. auto.
  - rewrite index_app_r in Hk by done. pose proof (index_lt _ _ _ Hk) as Hr. change (zlen [cfg]) with 1 in Hr.
    replace (k - zlen cfgs) with 0 in Hk by lia. injection Hk as <-. split; [lia|done].
Qed.

Lemma initConfifg_spec ord servers cfg :
  valid_order ord → servers ≠ ∅ →
  ∃ shards gids, initConfifg ord servers cfg = Some (mkConfig (Num cfg) shards servers) ∧
    zlen shards = NShards ∧ NoDup gids ∧ (∀ g, g ∈ gids ↔ g ∈ dom servers) ∧
    zlen gids = Z.of_nat (size servers) ∧
    ∀ i, 0 <= i < NShards → index shards i = index gids (i mod zlen gids).
Proof.
  intros HO Hne. set (gids := sortSlice Z.le (ord 1 _ servers).*1).
  change (initConfifg ord servers cfg) with
    (shards ← mapM (pickGid gids) (upto NShards); Some (cfg <| Groups := servers |> <| Shards := shards |>)).
  assert (gids ≡ₚ (map_to_list servers).*1) as HP by (unfold gids; by rewrite sortSlice_perm, (HO 1 _ servers)).
  assert (zlen gids = Z.of_nat (size servers)) as Hlen.
  { unfold zlen. rewrite HP, length_fmap. by rewrite length_map_to_list. }
  assert (0 < zlen gids) as H0.
  { rewrite Hlen. destruct (decide (size servers = 0%nat)) as [?%map_size_empty_inv|]; [done|lia]. }
  assert (∀ i, 0 <= i → pickGid gids i = index gids (i mod zlen gids)) as Hpick.
  { intros i Hi. unfold pickGid. by rewrite (proj2 (Z.eqb_neq (zlen gids) 0)) by lia. }
  destruct (mapM_total (pickGid gids) (upto NShards)) as [shards HM].
  { intros i Hi%upto_elem. rewrite Hpick by lia.
    destruct (index_is_Some gids (i mod zlen gids)) as [g Hg]; [apply Z.mod_pos_bound; lia|by exists g]. }
  rewrite HM. exists shards, gids. apply mapM_Some_1 in HM.
  split_and!; [done|..].
  - unfold zlen. rewrite <-(Forall2_length _ _ _ HM). done.
  - rewrite HP. apply NoDup_fst_map_to_list.
  - intros g. rewrite HP, list_elem_of_fmap, elem_of_dom. split.
    + intros ([k v] & -> & Hv%elem_of_map_to_list). by exists v.
    + intros [v Hv]. exists (g, v). split; [done|by apply elem_of_map_to_list].
  - done.
  - intros i Hi. rewrite <-Hpick by lia. rewrite index_lookup by lia.
    assert (upto NShards !! Z.to_nat i = Some i) as Hu.
    { unfold upto. rewrite list_lookup_fmap, lookup_seq_lt by (unfold NShards in *; lia). simpl. f_equal. lia. }
    by destruct (Forall2_lookup_l _ _ _ _ _ HM Hu) as (g & -> & ->).
Qed.

(** Joining no group to an empty system divides by zero. *)
Lemma initConfifg_empty ord cfg : valid_order ord → initConfifg ord ∅ cfg = None.
Proof.
  intros HO. unfold initConfifg. simpl.
  assert (ord 1 (list string) ∅ = []) as -> by (apply Permutation_nil_r; by rewrite (HO 1 _ ∅), map_to_list_empty).
  done.
Qed.

Lemma doJoin_cases ord servers cfgs cfg :
  valid_order ord → last_entry cfgs = Some cfg → zlen (Shards cfg) = NShards →
  ∃ s0, index (Shards cfg) 0 = Some s0 ∧
  doJoin ord servers cfgs =
    ncfg ← (if s0 =? 0 then initConfifg ord servers (mkConfig (zlen cfgs) (Shards cfg) (Groups cfg))
            else rebalanceConfig ord (mkConfig (zlen cfgs) (Shards cfg) (appendGroups (ord 5 _ servers) (Groups cfg))));
    Some (cfgs ++ [ncfg]).
Proof.
  intros HO Hc Hlen. destruct (index_is_Some (Shards cfg) 0) as [s0 Hs0]; [rewrite Hlen; unfold NShards; lia|].
  exists s0. split; [done|]. unfold doJoin. rewrite newConfig_eq, Hc by done. simpl. rewrite Hs0. done.
Qed.

(** A configuration a command adds is numbered next and has all its shards. *)
Lemma rebalanceConfig_keeps ord cfg cfg' :
  valid_order ord → rebalanceConfig ord cfg = Some cfg' →
  Num cfg' = Num cfg ∧ zlen (Shards cfg') = zlen (Shards cfg) ∧ Groups cfg' = Groups cfg.
Proof.
  intros HO HR. destruct (decide (Groups cfg = ∅)) as [HE|HE].
  - unfold rebalanceConfig in HR. rewrite HE, map_size_empty in HR. by simplify_eq/=.
  - destruct (rebalanceConfig_correct ord cfg HO HE) as (sh & HR' & Hl & _).
    rewrite HR in HR'. by simplify_eq/=.
Qed.

Lemma execute_numbered ord op cfgs cfgs' :
  valid_order ord → numbered cfgs → execute ord op cfgs = Some cfgs' → numbered cfgs' ∧ cfgs `prefix_of` cfgs'.
Proof.
  intros HO N HE. destruct (numbered_last cfgs N) as (cfg & Hc & Hlen).
  assert (∀ ncfg, Num ncfg = zlen cfgs → zlen (Shards ncfg) = NShards →
    numbered (cfgs ++ [ncfg]) ∧ cfgs `prefix_of` cfgs ++ [ncfg]) as Hadd.
  { intros ncfg ??. split; [by apply numbered_snoc|by apply prefix_app_r]. }
  unfold execute in HE. destruct (opType op).
  - destruct (doJoin_cases ord (ja_Servers (opJoin op)) cfgs cfg HO Hc Hlen) as (s0 & _ & HJ).
    rewrite HJ in HE. inv_bind HE. injection HE as <-.
    assert (Num x = zlen cfgs ∧ zlen (Shards x) = NShards) as []; [|by apply Hadd]. destruct (s0 =? 0).
    + destruct (decide (ja_Servers (opJoin op) = ∅)) as [Hn|Hn]; [by rewrite Hn, initConfifg_empty in E|].
      destruct (initConfifg_spec ord _ (mkConfig (zlen cfgs) (Shards cfg) (Groups cfg)) HO Hn) as (sh & gs & HI & Hl & _).
      rewrite HI in E. by injection E as <-.
    + by apply rebalanceConfig_keeps in E as (-> & -> & _).
  - unfold doMove in HE. rewrite newConfig_eq, Hc in HE by done. simpl in HE. inv_bind HE. injection HE as <-.
    apply Hadd; [done|]. apply store_Some in E as [_ ->]. simpl. by rewrite zlen_insert.
  - unfold doLeave in HE. rewrite newConfig_eq, Hc in HE by done. simpl in HE. inv_bind HE. injection HE as <-.
    apply rebalanceConfig_keeps in E as (HN & HS & _); [|done]. simpl in *.
    apply Hadd; [done|]. rewrite HS. unfold zlen in *. by rewrite length_fmap.
  - injection HE as <-. done.
Qed.

(** ** Ownership under Join and Leave *)

(** No group and every shard on group 0, or every shard with a group and every
    group with its share. *)
Definition assigned (cfg : Config) : Prop :=
  zlen (Shards cfg) = NShards ∧ 0 ∉ dom (Groups cfg) ∧
  ((Groups cfg = ∅ ∧ ∀ g, g ∈ Shards cfg → g = 0) ∨
   (Groups cfg ≠ ∅ ∧ (∀ g, g ∈ Shards cfg → g ∈ dom (Groups cfg)) ∧
    ∀ g, g ∈ dom (Groups cfg) → share (Z.of_nat (size (Groups cfg))) (load (Shards cfg) g))).

(** Distinct positions of [g] count towards its load. *)
Lemma load_ge shards g ps :
  NoDup ps → (∀ p, p ∈ ps → index shards p = Some g) → zlen ps <= load shards g.
Proof.
  intros ND Hp. rewrite <-groupShards_load. unfold cnt, zlen.
  enough (length ps <= length (shardsOf (groupShards shards) g))%nat by lia.
  apply submseteq_length, NoDup_submseteq; [done|]. intros p ?. by apply groupShards_elem, Hp.
Qed.

Lemma load_pos shards g : 0 < load shards g → g ∈ shards.
Proof.
  unfold load. intros H. destruct (filter (λ x, x = g) shards) as [|x l] eqn:E; [by unfold zlen in H; simpl in H|].
  assert (x ∈ filter (λ x, x = g) shards) as [-> ?]%list_elem_of_filter by (rewrite E; by left). done.
Qed.

Lemma load_NoDup shards g : NoDup shards → load shards g <= 1.
Proof.
  intros ND. unfold load. pose proof (NoDup_filter (λ x, x = g) _ ND) as NF.
  destruct (filter (λ x, x = g) shards) as [|x [|y l]] eqn:E; [unfold zlen; simpl; lia..|].
  assert (∀ z, z ∈ filter (λ x, x = g) shards → z = g) as Hz by (by intros z [? _]%list_elem_of_filter).
  rewrite E in Hz. rewrite (Hz x), (Hz y) in NF by set_solver.
  by apply NoDup_cons in NF as [[]%not_elem_of_cons _].
Qed.

(** At most ten groups all have a shard. *)
Lemma share_holds cfg g :
  assigned cfg → g ∈ dom (Groups cfg) → (size (Groups cfg) <= 10)%nat → g ∈ Shards cfg.
Proof.
  intros (_ & _ & [[HE _]|(Hne & _ & Hq)]) Hg Hsz; [rewrite HE in Hg; set_solver|].
  assert (size (Groups cfg) ≠ 0%nat) by (by intros ?%map_size_empty_inv).
  apply load_pos. specialize (Hq g Hg). unfold share in Hq. rewrite decide_True in Hq by (unfold NShards; lia).
  assert (1 <= NShards / Z.of_nat (size (Groups cfg))) by (apply Z.div_le_lower_bound; unfold NShards; lia). lia.
Qed.

Lemma initConfifg_assigned ord servers cfg :
  valid_order ord → servers ≠ ∅ → 0 ∉ dom servers →
  ∃ cfg', initConfifg ord servers cfg = Some cfg' ∧ assigned cfg' ∧ Groups cfg' = servers.
Proof.
  intros HO Hne H0.
  destruct (initConfifg_spec ord servers cfg HO Hne) as (sh & gids & -> & Hl & ND & Hg & Hlen & Hi).
  eexists. split; [done|]. split; [|done]. split_and!; [done..|]. right. simpl.
  assert (size servers ≠ 0%nat) as Hs0 by (by intros ?%map_size_empty_inv).
  assert (∀ g, g ∈ sh → g ∈ dom servers) as Hown.
  { intros g [s Hs]%elem_of_index. apply Hg. rewrite Hi in Hs by (rewrite <-Hl; by eapply index_lt).
    by eapply index_elem_of. }
  split_and!; [done..|]. apply share_balanced; [done..|]. rewrite (average_eq servers Hne), <-Hlen.
  set (k := zlen gids) in *. case_decide as Hk.
  - left. intros g [r Hr]%Hg%elem_of_index. pose proof (index_lt _ _ _ Hr) as Hrr. set (q := NShards / k).
    assert (k * q <= NShards) by (apply Z.mul_div_le; lia). assert (0 <= q) by (apply Z.div_pos; unfold NShards; lia).
    assert (zlen ((λ x, r + x * k) <$> upto q) = q) as Hq.
    { unfold zlen, upto. rewrite !length_fmap, length_seq. lia. }
    rewrite <-Hq at 1. apply load_ge.
    + apply NoDup_fmap_2_strong; [|apply NoDup_fmap_2; [apply _|apply NoDup_seq]]. intros x y _ _. nia.
    + intros p (x & -> & Hx%upto_elem)%list_elem_of_fmap. fold k in Hrr. rewrite Hi by nia.
      rewrite Z.mod_add, Z.mod_small by lia. done.
  - right. intros g. apply load_NoDup, NoDup_alt. intros i j x Hx Hy.
    assert (∀ n : nat, sh !! n = Some x → index gids (Z.of_nat n) = Some x) as Hn.
    { intros n Hn. assert (0 <= Z.of_nat n < NShards) as Hr by (apply lookup_lt_Some in Hn; unfold zlen in Hl; lia).
      rewrite <-(Z.mod_small (Z.of_nat n) k) by lia. rewrite <-Hi by done. rewrite index_lookup by lia. by rewrite Nat2Z.id. }
    apply Hn in Hx, Hy. rewrite index_lookup, Nat2Z.id in Hx, Hy by lia. by eapply NoDup_lookup.
Qed.

Lemma doJoin_assigned ord servers cfgs cfg :
  valid_order ord → last_entry cfgs = Some cfg → assigned cfg →
  servers ≠ ∅ ∨ Groups cfg ≠ ∅ → 0 ∉ dom servers →
  ∃ ncfg, doJoin ord servers cfgs = Some (cfgs ++ [ncfg]) ∧ assigned ncfg ∧
    dom (Groups ncfg) = dom (Groups cfg) ∪ dom servers.
Proof.
  intros HO Hc (Hlen & H0 & HA) Hne Hs0.
  destruct (doJoin_cases ord servers cfgs cfg HO Hc Hlen) as (s0 & Hi & ->).
  assert (s0 ∈ Shards cfg) as Hin by by eapply index_elem_of.
  destruct HA as [[HE Hz]|(HnE & Hown & _)].
  - rewrite (Hz _ Hin). simpl. rewrite HE, dom_empty_L, (left_id_L ∅ _) in *. destruct Hne as [Hne|]; [|done].
    destruct (initConfifg_assigned ord servers (mkConfig (zlen cfgs) (Shards cfg) ∅) HO Hne Hs0) as (c & -> & ? & Hg).
    simpl. exists c. split_and!; [done..|]. by rewrite Hg.
  - destruct (Z.eqb_spec s0 0) as [->|_]; [by destruct H0; apply Hown|].
    set (gs := appendGroups (ord 5 _ servers) (Groups cfg)).
    assert (dom gs = dom (Groups cfg) ∪ dom servers) as Hdom.
    { apply set_eq. intros g. rewrite elem_of_union, !elem_of_dom. unfold gs. rewrite appendGroups_ord by done.
      destruct (servers !! g) eqn:E1, (Groups cfg !! g) eqn:E2; unfold is_Some; naive_solver. }
    assert (gs ≠ ∅) as Hgs.
    { intros E. rewrite E, dom_empty_L in Hdom. apply HnE, dom_empty_inv_L. set_solver. }
    destruct (rebalanceConfig_share ord (mkConfig (zlen cfgs) (Shards cfg) gs) HO Hgs Hlen) as (sh & -> & Hl & Ho & Hq).
    + simpl. rewrite Hdom. set_solver.
    + simpl in *. eexists. split; [done|]. split; [|done]. split_and!; simpl; [done|rewrite Hdom; set_solver|].
      right. by split_and!.
Qed.

(** ** Leave *)

Lemma countShards_snoc gids shards g :
  countShards gids (shards ++ [g]) =
  if bool_decide (g ∈ gids) then countShards gids shards
  else <[g := default 0 (countShards gids shards !! g) + 1]> (countShards gids shards).
Proof. unfold countShards. by rewrite foldl_app. Qed.

Lemma countShards_key gids shards g : is_Some (countShards gids shards !! g) ↔ g ∈ shards ∧ g ∉ gids.
Proof.
  induction shards as [|x shards IH] using rev_ind.
  { split; [by intros [? ?]|by intros [?%elem_of_nil _]]. }
  rewrite countShards_snoc, elem_of_app, list_elem_of_singleton. case_bool_decide as Hx.
  - rewrite IH. naive_solver.
  - rewrite lookup_insert_is_Some. destruct (decide (x = g)); naive_solver.
Qed.

Lemma countShards_pos gids shards g : g ∈ shards → g ∉ gids → 0 < default 0 (countShards gids shards !! g).
Proof.
  assert (∀ k n, countShards gids shards !! k = Some n → 0 < n) as Hpos.
  { induction shards as [|x shards IH] using rev_ind; [done|]. intros k n. rewrite countShards_snoc.
    case_bool_decide; [apply IH|]. intros [[<- <-]|[_ ?]]%lookup_insert_Some; [|by eapply IH].
    destruct (countShards gids shards !! x) eqn:E; simpl; [pose proof (IH _ _ E)|]; lia. }
  intros Hg Hn. destruct (proj2 (countShards_key gids shards g) (conj Hg Hn)) as [n Hk].
  rewrite Hk. simpl. by eapply Hpos.
Qed.

Lemma pickTarget_owner ord gids shards :
  valid_order ord →
  let num := countShards gids shards in
  let t := pickTarget (ord 6 _ num) num in
  ((∀ g, g ∈ shards → g ∈ gids) → t = 0) ∧ (∀ g, g ∈ shards → g ∉ gids → t ∈ shards ∧ t ∉ gids).
Proof.
  intros HO num t. destruct (pickTarget_spec num (ord 6 _ num)) as [Hin Hb]. fold t in Hin, Hb.
  assert (∀ k, k ∈ (ord 6 _ num).*1 ↔ k ∈ shards ∧ k ∉ gids) as Hk.
  { intros k. rewrite <-countShards_key. fold num. rewrite (HO 6 _ num), list_elem_of_fmap. split.
    - intros ([? n] & -> & Hn%elem_of_map_to_list). by exists n.
    - intros [n Hn]. exists (k, n). split; [done|by apply elem_of_map_to_list]. }
  split.
  - intros Hall. destruct Hin as [?|[? Hn]%Hk]; [done|]. destruct Hn. auto.
  - intros g Hg Hn. destruct Hin as [E|?%Hk]; [|done]. specialize (Hb g (or_intror (proj2 (Hk g) (conj Hg Hn)))).
    pose proof (countShards_pos gids shards g Hg Hn) as Hp. fold num in Hp. unfold beats in Hb.
    apply countShards_key. fold num. rewrite E in *. destruct (num !! 0) eqn:E0; [by eexists|]. simpl in Hb. lia.
Qed.

Lemma delete_groups_dom gids (gs : gmap Z (list string)) g :
  g ∈ dom (foldl (λ gs gid, delete gid gs) gs gids) ↔ g ∈ dom gs ∧ g ∉ gids.
Proof.
  revert gs. induction gids as [|x gids IH]; intros gs; simpl; [set_solver|].
  rewrite IH, dom_delete_L. set_solver.
Qed.

Lemma doLeave_assigned ord gids cfgs cfg :
  valid_order ord → last_entry cfgs = Some cfg → assigned cfg →
  (∀ g, g ∈ dom (Groups cfg) → g ∈ gids) ∨ (∃ g, g ∈ Shards cfg ∧ g ∉ gids) →
  ∃ ncfg, doLeave ord gids cfgs = Some (cfgs ++ [ncfg]) ∧ assigned ncfg ∧
    ∀ g, g ∈ dom (Groups ncfg) ↔ g ∈ dom (Groups cfg) ∧ g ∉ gids.
Proof.
  intros HO Hc (Hlen & H0 & HA) Hstay. unfold doLeave. rewrite newConfig_eq, Hc by done. simpl.
  set (gs := foldl _ (Groups cfg) gids). set (num := countShards gids (Shards cfg)).
  set (t := pickTarget (ord 6 _ num) num).
  pose proof (delete_groups_dom gids (Groups cfg)) as Hdom. fold gs in Hdom.
  destruct (pickTarget_owner ord gids (Shards cfg) HO) as [Ht0 Ht]. fold num t in Ht0, Ht.
  set (sh := (λ gid, if bool_decide (gid ∈ gids) then t else gid) <$> Shards cfg).
  assert (zlen sh = NShards) as Hl by (unfold sh, zlen in *; by rewrite length_fmap).
  assert (∀ g, g ∈ sh → g = t ∨ (g ∈ Shards cfg ∧ g ∉ gids)) as Hsh.
  { intros g (x & -> & Hx)%list_elem_of_fmap. case_bool_decide; auto. }
  assert (0 ∉ dom gs) as H0' by (rewrite Hdom; naive_solver).
  destruct (decide (gs = ∅)) as [HE|HE].
  - exists (mkConfig (zlen cfgs) sh gs). unfold rebalanceConfig. simpl. rewrite HE, map_size_empty. simpl.
    split; [done|]. rewrite <-HE. split; [|done]. split_and!; [done..|]. left. split; [done|]. simpl.
    assert (∀ g, g ∈ Shards cfg → g ∉ gids → g = 0) as Hrest.
    { intros g Hg Hn. destruct HA as [[_ Hz]|(_ & Hown & _)]; [by apply Hz|].
      assert (g ∈ dom gs) as Hg' by (apply Hdom; auto). rewrite HE in Hg'. set_solver. }
    assert (t = 0) as Ht'.
    { destruct (decide (Forall (λ g, g ∈ gids) (Shards cfg))) as [HF|HF].
      - apply Ht0. by apply Forall_forall.
      - apply not_Forall_Exists in HF; [|apply _]. apply Exists_exists in HF as (g & Hg & Hn).
        destruct (Ht g Hg Hn). auto. }
    intros g [->|[? ?]]%Hsh; auto.
  - destruct HA as [[HE' _]|(HnE & Hown & Hq)].
    { destruct HE. apply dom_empty_inv_L, set_eq. intros g. rewrite Hdom, HE'. set_solver. }
    destruct Hstay as [Hall|(g0 & Hin0 & Hn0)].
    { destruct HE. apply dom_empty_inv_L, set_eq. intros g. rewrite Hdom. set_solver. }
    destruct (Ht g0 Hin0 Hn0) as [Htin Htn].
    destruct (rebalanceConfig_share ord (mkConfig (zlen cfgs) sh gs) HO HE Hl) as (sh' & HR & Hl' & Ho & Hq').
    { simpl. intros g [->|[? ?]]%Hsh; apply Hdom; auto. }
    match goal with |- context [rebalanceConfig ord ?c] => change c with (mkConfig (zlen cfgs) sh gs) end.
    simpl in *. rewrite HR. simpl. eexists. split; [done|]. split; [|done].
    split_and!; [done..|]. right. by split_and!.
Qed.

(** The commands of a history: joins of groups numbered from 1 on, the first
    one not empty; leaves, of all groups or of some, where with more than ten
    groups one that has a shard must stay; queries. *)
Inductive valid_op (cfg : Config) : Op → Prop :=
  | valid_join op : opType op = JOIN → ja_Servers (opJoin op) ≠ ∅ ∨ Groups cfg ≠ ∅ →
      0 ∉ dom (ja_Servers (opJoin op)) → valid_op cfg op
  | valid_leave op : opType op = LEAVE →
      (size (Groups cfg) <= 10)%nat ∨ (∀ g, g ∈ dom (Groups cfg) → g ∈ la_GIDs (opLeave op)) ∨
      (∃ g, g ∈ Shards cfg ∧ g ∉ la_GIDs (opLeave op)) → valid_op cfg op
  | valid_query op : opType op = QUERY → valid_op cfg op.

(** The groups that should be there. *)
Definition op_groups (groups : gset Z) (op : Op) : gset Z :=
  match opType op with
  | JOIN => groups ∪ dom (ja_Servers (opJoin op))
  | LEAVE => groups ∖ list_to_set (la_GIDs (opLeave op))
  | _ => groups
  end.

Inductive history (ord : Order) : list Config → gset Z → Prop :=
  | history_init : history ord [Config0] ∅
  | history_op op cfgs cfg cfgs' groups :
      history ord cfgs groups → last_entry cfgs = Some cfg → valid_op cfg op →
      execute ord op cfgs = Some cfgs' → history ord cfgs' (op_groups groups op).

Lemma leave_stays cfg (gids : list Z) :
  assigned cfg →
  (size (Groups cfg) <= 10)%nat ∨ (∀ g, g ∈ dom (Groups cfg) → g ∈ gids) ∨ (∃ g, g ∈ Shards cfg ∧ g ∉ gids) →
  (∀ g, g ∈ dom (Groups cfg) → g ∈ gids) ∨ (∃ g, g ∈ Shards cfg ∧ g ∉ gids).
Proof.
  intros HA [Hsz|H]; [|done].
  destruct (decide (Forall (λ g, g ∈ gids) (elements (dom (Groups cfg))))) as [HF|HF].
  - left. intros g Hg. rewrite Forall_forall in HF. by apply HF, elem_of_elements.
  - right. apply not_Forall_Exists in HF; [|apply _]. apply Exists_exists in HF as (g & Hg%elem_of_elements & Hn).
    exists g. split; [by apply share_holds|done].
Qed.

Lemma execute_assigned ord op cfgs cfg :
  valid_order ord → last_entry cfgs = Some cfg → assigned cfg → valid_op cfg op →
  ∃ cfgs' cfg', execute ord op cfgs = Some cfgs' ∧ last_entry cfgs' = Some cfg' ∧ assigned cfg' ∧
    dom (Groups cfg') = op_groups (dom (Groups cfg)) op.
Proof.
  intros HO Hc HA HV. unfold execute, op_groups. destruct HV as [op -> ? ?|op -> Hl|op ->].
  - destruct (doJoin_assigned ord (ja_Servers (opJoin op)) cfgs cfg) as (n & -> & ? & ?); [done..|].
    exists (cfgs ++ [n]), n. by rewrite last_entry_snoc.
  - destruct (doLeave_assigned ord (la_GIDs (opLeave op)) cfgs cfg) as (n & -> & ? & Hd); [done..|by apply leave_stays|].
    exists (cfgs ++ [n]), n. rewrite last_entry_snoc. split_and!; [done..|].
    apply set_eq. intros g. rewrite Hd, elem_of_difference, elem_of_list_to_set. done.
  - by exists cfgs, cfg.
Qed.

Lemma history_inv ord cfgs groups :
  valid_order ord → history ord cfgs groups →
  numbered cfgs ∧ ∃ cfg, last_entry cfgs = Some cfg ∧ assigned cfg ∧ dom (Groups cfg) = groups.
Proof.
  intros HO HH. induction HH as [|op cfgs cfg cfgs' groups HH [N (cfg1 & Hc1 & HA & Hd)] Hc HV HE].
  - split; [apply numbered_init|]. exists Config0. split_and!; [done| |apply dom_empty_L].
    split_and!; [done|simpl; set_solver|].
    left. split; [done|]. intros g Hg. by apply elem_of_replicate in Hg as [-> _].
  - assert (cfg1 = cfg) as -> by congruence. subst groups. split; [by eapply execute_numbered|].
    destruct (execute_assigned ord op cfgs cfg HO Hc HA HV) as (cfgs2 & cfg2 & HE2 & ? & ? & ?).
    rewrite HE in HE2. injection HE2 as <-. by exists cfg2.
Qed.

(** C17: joins and leaves.  After any history of joins, leaves and queries (the
    first join is not empty; while there are more than ten groups, not all those
    with shards leave unless all groups do) the next such command is executed
    without a panic, the configurations are numbered 0, 1, 2, ... and never
    change, the newest one has exactly the groups that joined and did not leave,
    every shard belongs to one of them, and each has its share: with up to ten
    groups at least ten divided by their number and at most the remainder of that
    division more, with more than ten groups at most one shard. *)
Theorem join_leave_correct ord cfgs cfg groups op :
  valid_order ord → history ord cfgs groups → last_entry cfgs = Some cfg → valid_op cfg op →
  ∃ cfgs' cfg', execute ord op cfgs = Some cfgs' ∧ cfgs `prefix_of` cfgs' ∧ numbered cfgs' ∧
    last_entry cfgs' = Some cfg' ∧ dom (Groups cfg') = op_groups groups op ∧ assigned cfg'.
Proof.
  intros HO HH Hl HV. destruct (history_inv ord cfgs groups HO HH) as [N (cfg1 & Hc & HA & <-)].
  assert (cfg1 = cfg) as -> by congruence. destruct (execute_assigned ord op cfgs cfg HO Hc HA HV) as (cfgs' & cfg' & HE & ? & ? & ?).
  destruct (execute_numbered ord op cfgs cfgs' HO N HE). exists cfgs', cfg'. by split_and!.
Qed.

(** ** The server *)

Section server.
Context {R : Type} `{!RaftApi Op R}.
Implicit Types sc : ShardCtrler R.

Definition service sc : list Config * gmap Z Z := (configs sc, CompletedPool sc).

(** A run of [applyLog] over commands, each met with some order of the maps. *)
Definition applyAll (l : list (Order * (Op * Z))) sc : option (ShardCtrler R) :=
  foldl (λ acc x, sc ← acc; applyLog x.1 (mkApplyMsg true (Some x.2.1) x.2.2 false [] 0 0) sc) (Some sc) l.

(** A command on the configurations, after a panic none. *)
Definition exec (ord : Order) (op : Op) (s : option (list Config)) : option (list Config) :=
  cfgs ← s; execute ord op cfgs.

Lemma applyLog_session ord op idx sc :
  (service <$> applyLog ord (mkApplyMsg true (Some op) idx false [] 0 0) sc) =
  let '(s, pool) := session_apply (exec ord) (Some (configs sc), CompletedPool sc) op in (., pool) <$> s.
Proof.
  unfold applyLog, session_apply, isFresh, record, exec, client, reqno. simpl.
  destruct (_ <? ReqNo op); [|done]. simpl. by destruct (execute ord op (configs sc)).
Qed.

Lemma session_none ord l pool : fst (foldl (session_apply (exec ord)) (None, pool) l) = None.
Proof.
  revert pool. induction l as [|op l IH]; intros pool; [done|]. simpl.
  unfold session_apply at 2. simpl. destruct (isFresh pool op); apply IH.
Qed.

Lemma exec_order ord ord' op s : valid_order ord → valid_order ord' → exec ord op s = exec ord' op s.
Proof. intros HO HO'. destruct s; [by apply execute_order_eq|done]. Qed.

Lemma applyAll_none l : foldl (λ acc x, sc ← acc; applyLog x.1 (mkApplyMsg true (Some x.2.1) x.2.2 false [] 0 0) sc)
    (None : option (ShardCtrler R)) (l : list (Order * (Op * Z))) = None.
Proof. by induction l. Qed.

Lemma applyAll_session ord0 (l : list (Order * (Op * Z))) sc :
  valid_order ord0 → Forall (λ x, valid_order x.1) l →
  (service <$> applyAll l sc) =
  let '(s, pool) := foldl (session_apply (exec ord0)) (Some (configs sc), CompletedPool sc) l.*2.*1 in (., pool) <$> s.
Proof.
  intros HO HF. revert sc. induction HF as [|[ord [op idx]] l Hv HF IH]; intros sc; [done|].
  rewrite !fmap_cons. cbn [foldl fst snd]. unfold applyAll. cbn [foldl fst snd mbind option_bind].
  pose proof (applyLog_session ord op idx sc) as HA.
  assert (∀ x, session_apply (exec ord) x op = session_apply (exec ord0) x op) as HX.
  { intros x. unfold session_apply. by rewrite (exec_order ord ord0). }
  rewrite HX in HA. destruct (session_apply (exec ord0) _ op) as [[c|] pool];
    destruct (applyLog ord _ sc) as [sc1|]; try done; simpl in HA.
  - specialize (IH sc1). unfold applyAll in IH. rewrite IH. by injection HA as -> ->.
  - rewrite applyAll_none. pose proof (session_none ord0 l.*2.*1 pool) as HN.
    by destruct (foldl (session_apply (exec ord0)) _ _) as [[]].
Qed.

(** C20: the replicas of the controller agree.  Two replicas that apply the same
    commands, each visiting maps in its own order on every command, have the
    same configurations and sessions, or both panic. *)
Theorem replicas_agree (l l' : list (Order * (Op * Z))) sc sc' :
  Forall (λ x, valid_order x.1) l → Forall (λ x, valid_order x.1) l' → l.*2 = l'.*2 →
  service sc = service sc' → (service <$> applyAll l sc) = (service <$> applyAll l' sc').
Proof.
  intros HF HF' Hl [= Hc Hp].
  assert (valid_order (λ _ V m, map_to_list m)) as HO by by intros s V m.
  rewrite (applyAll_session _ l sc HO HF), (applyAll_session _ l' sc' HO HF'). by rewrite Hl, Hc, Hp.
Qed.

(** A configuration change takes effect exactly once.  The configurations
    after a log are those of running the commands that get past the session
    filter in order; when the requests are numbered by clerks, the first
    occurrence of each. *)
Theorem ctrler_exactly_once ord (l : list (Order * (Op * Z))) sc :
  valid_order ord → Forall (λ x, valid_order x.1) l → CompletedPool sc = ∅ →
  let ops := l.*2.*1 in
  (configs <$> applyAll l sc) = foldl (flip (exec ord)) (Some (configs sc)) (fresh ∅ ops) ∧
  (clerk_ordered ops → (configs <$> applyAll l sc) = foldl (flip (exec ord)) (Some (configs sc)) (firsts [] ops)).
Proof.
  intros HO HF H0 ops. pose proof (applyAll_session ord l sc HO HF) as HA. fold ops in HA.
  rewrite H0, session_apply_log in HA.
  assert ((configs <$> applyAll l sc) = foldl (flip (exec ord)) (Some (configs sc)) (fresh ∅ ops)) as HC.
  { destruct (applyAll l sc) as [sc1|], (foldl (flip (exec ord)) _ _) as [c|]; simpl in HA |- *;
      try done. unfold service in HA. congruence. }
  split; [done|]. intros HN. by rewrite HC, fresh_firsts.
Qed.

(** The four handlers up to the wait.  They never panic and leave the
    configurations alone.  Off the leader the client is told so; a request
    already executed is answered at once; otherwise it is given to Raft and the
    handler waits for it in the leader's term. *)
Theorem begin_correct op sc :
  rf_ok (rf sc) →
  ∃ sc' out, begin op sc = Some (sc', out) ∧ rf_ok (rf sc') ∧ service sc' = service sc ∧
    let leader := (rf_GetState (rf sc)).2 = true in
    let executed := ReqNo op <= completed (CompletedPool sc) (ClientId op) in
    (¬ leader → sc' = sc ∧ out = inl true) ∧
    (leader → executed → sc' = sc ∧ out = inl false) ∧
    (leader → ¬ executed → out = inr (rf_GetState (rf sc)).1 ∧
       (∃ idx, rf_Start op (rf sc) = Some (rf sc', (idx, (rf_GetState (rf sc)).1, true))) ∧
       ClientId op ∈ CompletedCondPool sc').
Proof.
  intros Hok. unfold begin. destruct (rf_GetState (rf sc)).2 eqn:HL; simpl; [|by eexists _, _].
  destruct (Z.leb_spec (ReqNo op) (completed (CompletedPool sc) (ClientId op))) as [Hd|Hd].
  { eexists _, _. split; [done|]. split_and!; try done; lia. }
  destruct (rf_Start_law op (rf sc) Hok) as (r' & ret & HS & Hok' & _ & Hret). rewrite HL in Hret.
  destruct Hret as [idx ->]. rewrite HS. simpl.
  eexists _, _. split; [done|]. split_and!; try done; [lia|]. intros _ _.
  split_and!; [done|by eexists|simpl; set_solver].
Qed.

(** A wake-up ends with success only on the leader of the term the request
    started in and only when it is the client's last executed request. *)
Lemma wakeup_success t c n sc :
  wakeup t c n sc = Some false ↔ rf_GetState (rf sc) = (t, true) ∧ CompletedPool sc !! c = Some n.
Proof.
  unfold wakeup. destruct (rf_GetState (rf sc)) as [cur lead].
  destruct (Z.eqb_spec cur t) as [->|Hne], lead; simpl; split; intros H; try done; try (destruct H; congruence).
  - destruct (CompletedPool sc !! c) as [z|]; [|done].
    destruct (Z.eqb_spec z n) as [Hz|]; [by rewrite Hz|done].
  - destruct H as [_ ->]. by rewrite Z.eqb_refl.
Qed.

(** A Query that completes its wait answers with the configuration of that
    number, or with the newest one for -1 and for numbers not reached yet, and
    the answer was put in the list by an executed command. *)
Theorem Query_correct args t sc :
  numbered (configs sc) → -1 <= qa_Num args → rf_GetState (rf sc) = (t, true) →
  CompletedPool sc !! qa_ClientId args = Some (qa_ReqNo args) →
  ∃ cfg, QueryResume args t sc = Some (Some (mkQueryReply false cfg)) ∧ cfg ∈ configs sc ∧
    Num cfg = if (qa_Num args =? -1) || (zlen (configs sc) <=? qa_Num args)
              then zlen (configs sc) - 1 else qa_Num args.
Proof.
  intros N Hn HG HC. unfold QueryResume. rewrite (proj2 (wakeup_success _ _ _ _) (conj HG HC)).
  unfold queried. destruct (_ || _) eqn:EB.
  - destruct (numbered_last _ N) as (cfg & Hc & _). rewrite Hc. exists cfg. split; [done|].
    split; [by eapply index_elem_of|by apply (nb_num _ N)].
  - apply orb_false_iff in EB as [H1%Z.eqb_neq H2%Z.leb_gt].
    destruct (index_is_Some (configs sc) (qa_Num args)) as [cfg Hc]; [lia|]. rewrite Hc. exists cfg.
    split; [done|]. split; [by eapply index_elem_of|by apply (nb_num _ N)].
Qed.

(** What is executed stays executed. *)
Lemma applyLog_completed ord op idx sc sc' c :
  applyLog ord (mkApplyMsg true (Some op) idx false [] 0 0) sc = Some sc' →
  completed (CompletedPool sc) c <= completed (CompletedPool sc') c ∧
  ReqNo op <= completed (CompletedPool sc') (ClientId op).
Proof.
  unfold applyLog. simpl. intros HA. inv_bind HA. injection HA as <-. simpl.
  destruct (Z.ltb_spec (completed (CompletedPool sc) (ClientId op)) (ReqNo op)); [|simplify_eq; lia].
  inv_bind E. injection E as <-. simpl. unfold completed in *.
  rewrite lookup_insert_eq. destruct (decide (ClientId op = c)) as [<-|]; [rewrite lookup_insert_eq|rewrite lookup_insert_ne by done];
    simpl in *; lia.
Qed.

Lemma applyAll_completed l sc sc' c :
  applyAll l sc = Some sc' → completed (CompletedPool sc) c <= completed (CompletedPool sc') c.
Proof.
  unfold applyAll. revert sc. induction l as [|[ord [op idx]] l IH]; intros sc HA; simpl in HA.
  { by injection HA as ->. }
  destruct (applyLog ord _ sc) as [sc1|] eqn:E; [|by rewrite applyAll_none in HA].
  apply IH in HA. apply (applyLog_completed _ _ _ _ _ c) in E as [? _]. lia.
Qed.

(** C31: a retried Query loses the configuration.  A server executes a Query and
    its handler, on the leader, answers with the configuration asked for.  If
    that reply is lost and the clerk asks again, then whatever has been executed
    since and whatever configurations the leader has, the handler recognises the
    number and answers at once, as a success, with the zero configuration; and
    the clerk's loop takes the first such answer for the result. *)
Theorem query_retry_loses_config ord args idx l sc sc1 sc2 r1 r2 t :
  numbered (configs sc) → -1 <= qa_Num args →
  completed (CompletedPool sc) (qa_ClientId args) < qa_ReqNo args →
  applyLog ord (mkApplyMsg true (Some (queryOp args)) idx false [] 0 0) sc = Some sc1 →
  applyAll l sc1 = Some sc2 →
  rf_GetState r1 = (t, true) → (rf_GetState r2).2 = true →
  (∃ cfg, QueryResume args t (sc1 <| rf := r1 |>) = Some (Some (mkQueryReply false cfg)) ∧
     cfg ∈ configs sc1 ∧
     Num cfg = if (qa_Num args =? -1) || (zlen (configs sc1) <=? qa_Num args)
               then zlen (configs sc1) - 1 else qa_Num args) ∧
  QueryBegin args (sc2 <| rf := r2 |>) = Some (sc2 <| rf := r2 |>, inl (mkQueryReply false Config0)) ∧
  ∀ call ck seq fuel K, args = mkQuery (ck_me ck) (wrap64 (seq + 1)) (qa_Num args) →
    0 < nservers ck → (K < fuel)%nat →
    (∀ k i, (k < K)%nat → call args k i = None) →
    (∀ i, call args K i = Some (mkQueryReply false Config0)) →
    clerkQuery call fuel (qa_Num args) seq ck = Some (Config0, wrap64 (seq + 1)).
Proof.
  intros HN Hn Hc HA Hl H1 H2. split_and!.
  - change (configs sc1) with (configs (sc1 <| rf := r1 |>)).
    apply Query_correct; [|done|done|].
    all: unfold applyLog in HA; simpl in HA; rewrite (proj2 (Z.ltb_lt _ _) Hc) in HA; simplify_eq/=.
    + done.
    + apply lookup_insert_eq.
  - apply (applyLog_completed _ _ _ _ _ (qa_ClientId args)) in HA as [_ HA].
    apply (applyAll_completed _ _ _ (qa_ClientId args)) in Hl. simpl in HA.
    unfold QueryBegin, begin. simpl. rewrite H2. simpl.
    by rewrite (proj2 (Z.leb_le _ _)) by lia.
  - intros call ck seq fuel K Ha Hs HK Hno Hyes. unfold clerkQuery, clerkCall. rewrite <-Ha.
    rewrite (retry_first _ (call args) K (mkQueryReply false Config0)); try done; [|lia].
    unfold upto. destruct (Z.to_nat (nservers ck)) eqn:E; [lia|done].
Qed.

End server.

(** ** Concrete runs *)

Module CtrlerExamples.

Definition forward : Order := λ _ V m, map_to_list m.
Definition backward : Order := λ _ V m, reverse (map_to_list m).

Lemma forward_valid : valid_order forward.
Proof. by intros s V m. Qed.
Lemma backward_valid : valid_order backward.
Proof. intros s V m. apply reverse_Permutation. Qed.

Definition servers (gids : list Z) : gmap Z (list string) := list_to_map ((λ g, (g, ["s"])) <$> gids).
Definition join (n : Z) (gids : list Z) : Op := joinOp (mkJoin 1 n (servers gids)).
Definition leave (n : Z) (gids : list Z) : Op := leaveOp (mkLeave 1 n gids).
Definition move (n shard gid : Z) : Op := moveOp (mkMove 1 n shard gid).

Definition run (ops : list Op) : option (list Config) :=
  foldl (λ acc op, cfgs ← acc; execute forward op cfgs) (Some [Config0]) ops.

Definition newest (r : option (list Config)) : option Config := cfgs ← r; last_entry cfgs.

(** A join of several groups at once leaves the shards unbalanced.  With
    group 1 holding all ten shards, joining 2, 3 and 4 together gives 4, 2, 2
    and 2 shards, although 3, 3, 2, 2 is possible; the project's own check
    allows a difference of one. *)
Theorem join_unbalanced :
  ∃ cfg, newest (run [join 1 [1]; join 2 [2; 3; 4]]) = Some cfg ∧
    load (Shards cfg) 1 = 4 ∧ load (Shards cfg) 2 = 2 ∧ load (Shards cfg) 3 = 2 ∧ load (Shards cfg) 4 = 2.
Proof. eexists. split; [vm_compute; reflexivity|]. vm_compute. split_and!; reflexivity. Qed.

(** Move can strand the shards and lose a group.  When all shards of group
    2 were moved to group 1 and group 1 leaves, every shard goes to the invalid
    group 0 although group 2 is still there; the next Join takes the system for
    empty and forgets group 2. *)
Theorem move_strands_shards :
  let moves := [join 1 [1]; join 2 [2]] ++ ((λ s, move (3 + s) s 1) <$> upto 10) ++ [leave 13 [1]] in
  ∃ cfg cfg', newest (run moves) = Some cfg ∧ newest (run (moves ++ [join 14 [3]])) = Some cfg' ∧
    Shards cfg = replicate 10 0 ∧ is_Some (Groups cfg !! 2) ∧
    Groups cfg' !! 2 = None ∧ is_Some (Groups cfg' !! 3).
Proof.
  eexists _, _. split; [vm_compute; reflexivity|]. split; [vm_compute; reflexivity|].
  split_and!; vm_compute; eauto.
Qed.

(** The same without Moves: of eleven groups only ten have a shard.  When these
    leave, all shards go to group 0 although group 11 is there, and the next
    group that joins replaces it. *)
Theorem leave_strands_shards :
  let ops := [join 1 [1; 2; 3; 4; 5; 6; 7; 8; 9; 10; 11]; leave 2 [1; 2; 3; 4; 5; 6; 7; 8; 9; 10]] in
  ∃ cfg cfg', newest (run ops) = Some cfg ∧ newest (run (ops ++ [join 3 [12]])) = Some cfg' ∧
    Shards cfg = replicate 10 0 ∧ dom (Groups cfg) = {[11]} ∧ dom (Groups cfg') = {[12]}.
Proof.
  eexists _, _. split; [vm_compute; reflexivity|]. split; [vm_compute; reflexivity|].
  split_and!; vm_compute; reflexivity.
Qed.

(** A Raft peer that leads, for the handlers. *)
#[local] Instance wire_join : Wire JoinArgs :=
  wire_iso (λ a, (ja_ClientId a, ja_ReqNo a, ja_Servers a)) (λ '(c, n, s), mkJoin c n s) (λ '(mkJoin _ _ _), eq_refl).
#[local] Instance wire_leave : Wire LeaveArgs :=
  wire_iso (λ a, (la_ClientId a, la_ReqNo a, la_GIDs a)) (λ '(c, n, s), mkLeave c n s) (λ '(mkLeave _ _ _), eq_refl).
#[local] Instance wire_move : Wire MoveArgs :=
  wire_iso (λ a, (ma_ClientId a, ma_ReqNo a, ma_Shard a, ma_GID a)) (λ '(c, n, s, g), mkMove c n s g)
    (λ '(mkMove _ _ _ _), eq_refl).
#[local] Instance wire_query : Wire QueryArgs :=
  wire_iso (λ a, (qa_ClientId a, qa_ReqNo a, qa_Num a)) (λ '(c, n, s), mkQuery c n s) (λ '(mkQuery _ _ _), eq_refl).
#[local] Instance wire_type : Wire ReqType :=
  wire_iso (λ t, match t with JOIN => 0 | MOVE => 1 | LEAVE => 2 | QUERY => 3 end)
    (λ z, if z =? 0 then JOIN else if z =? 1 then MOVE else if z =? 2 then LEAVE else QUERY)
    ltac:(by intros []).
#[local] Instance wire_op : Wire Op :=
  wire_iso (λ o, (ClientId o, ReqNo o, opType o, opJoin o, opLeave o, opMove o, opQuery o))
    (λ '(c, n, t, j, l, m, q), mkOp c n t j l m q) (λ '(mkOp _ _ _ _ _ _ _), eq_refl).
#[local] Instance gobRaft : Gob (PersistentState Op) := wire_gob _.

Definition peer0 : Raft Op := Make (mkEnv 0 0) 3 0 MakePersister.
Definition leader0 : Raft Op := peer0 <| State := Leader |> <| CurrentTerm := 1 |>.

Lemma ctrler_leader_ok : rf_ok leader0.
Proof.
  assert (inv peer0) as I by (apply Make_inv; [lia|by left]). apply (inv_frame peer0); [done| |by left].
  by apply (wf_views peer0), I.
Qed.

(** The leader after it has applied a Join and the Query number 2 of client 1. *)
Definition query2 := mkQuery 1 2 (-1).
Definition sc0 : ShardCtrler (Raft Op) := StartServer leader0 0.
Definition log2 : list (Order * (Op * Z)) := [(backward, (join 1 [5], 1)); (backward, (queryOp query2, 2))].
Definition sc2 : ShardCtrler (Raft Op) := from_option id sc0 (applyAll log2 sc0).

(** ** Witnesses *)

Lemma rebalanceConfig_correct_witness :
  ∃ shards', rebalanceConfig forward (mkConfig 2 (replicate 10 1) (servers [1; 2])) =
    Some (mkConfig 2 shards' (servers [1; 2])) ∧ zlen shards' = 10.
Proof.
  destruct (rebalanceConfig_correct forward (mkConfig 2 (replicate 10 1) (servers [1; 2])) forward_valid)
    as (sh & HR & Hl & _).
  - discriminate.
  - exists sh. split; [exact HR|exact Hl].
Defined.

Lemma history1 : history forward [Config0] ∅.
Proof. constructor. Qed.

(** Two groups join, then ten more in one command. *)
Lemma join_leave_correct_witness :
  ∃ cfgs cfg cfgs' cfg', execute forward (join 1 [3; 4]) [Config0] = Some cfgs ∧ last_entry cfgs = Some cfg ∧
    execute forward (join 2 [5; 6; 7; 8; 9; 10; 11; 12; 13; 14]) cfgs = Some cfgs' ∧
    last_entry cfgs' = Some cfg' ∧ assigned cfg' ∧ size (Groups cfg') = 12%nat.
Proof.
  destruct (join_leave_correct forward [Config0] Config0 ∅ (join 1 [3; 4]) forward_valid history1 eq_refl)
    as (cs & c & HE & _ & _ & HL & HD & _).
  - apply valid_join; [reflexivity|left; discriminate|vm_compute; by intros H].
  - destruct (join_leave_correct forward cs c (op_groups ∅ (join 1 [3; 4])) (join 2 [5; 6; 7; 8; 9; 10; 11; 12; 13; 14]) forward_valid)
      as (cs' & c' & HE' & _ & _ & HL' & HD' & HA).
    + apply (history_op _ _ [Config0] Config0); [apply history1|reflexivity| |exact HE].
      apply valid_join; [reflexivity|left; discriminate|vm_compute; by intros H].
    + exact HL.
    + apply valid_join; [reflexivity|left; discriminate|vm_compute; by intros H].
    + exists cs, c, cs', c'. split_and!; [exact HE|exact HL|exact HE'|exact HL'|exact HA|].
      rewrite <-size_dom, HD'. vm_compute. reflexivity.
Defined.

Definition log2f : list (Order * (Op * Z)) := [(forward, (join 1 [5], 1)); (forward, (queryOp query2, 2))].

Lemma log2_valid : Forall (λ x, valid_order x.1) log2 ∧ Forall (λ x, valid_order x.1) log2f.
Proof. split; repeat constructor; apply backward_valid || apply forward_valid. Qed.

Lemma replicas_agree_witness : (service <$> applyAll log2 sc0) = (service <$> applyAll log2f sc0).
Proof. apply replicas_agree; [apply log2_valid|apply log2_valid|reflexivity|reflexivity]. Defined.

Lemma ctrler_exactly_once_witness :
  (configs <$> applyAll log2 sc0) = foldl (flip (exec forward)) (Some [Config0]) (fresh ∅ log2.*2.*1).
Proof. exact (proj1 (ctrler_exactly_once forward log2 sc0 forward_valid (proj1 log2_valid) eq_refl)). Defined.

Lemma begin_correct_witness : ∃ sc', begin (join 3 [6]) sc0 = Some (sc', inr 1).
Proof.
  destruct (begin_correct (join 3 [6]) sc0 ctrler_leader_ok) as (sc' & out & HB & _ & _ & _ & _ & Hn).
  destruct Hn as (-> & _); [reflexivity|vm_compute; intros H; by apply H|]. exists sc'. exact HB.
Defined.

Lemma sc2_numbered : numbered (configs sc2).
Proof.
  assert (∃ cfgs, execute forward (join 1 [5]) [Config0] = Some cfgs ∧ configs sc2 = cfgs) as (cfgs & HE & ->).
  { eexists. split; [vm_compute; reflexivity|vm_compute; reflexivity]. }
  by apply (execute_numbered forward (join 1 [5]) [Config0] cfgs forward_valid numbered_init).
Qed.

(** After the Query another Join is executed; the retry still gets no group. *)
Definition retry_log : list (Order * (Op * Z)) := [(backward, (joinOp (mkJoin 2 1 (servers [6; 7])), 3))].
Definition sc1 : ShardCtrler (Raft Op) := from_option id sc0 (applyAll [(backward, (join 1 [5], 1))] sc0).
Definition sc3 : ShardCtrler (Raft Op) := from_option id sc0 (applyAll retry_log sc2).

Lemma query_retry_loses_config_witness :
  (∃ cfg, QueryResume query2 1 (sc2 <| rf := leader0 |>) = Some (Some (mkQueryReply false cfg)) ∧ Num cfg = 1) ∧
  QueryBegin query2 (sc3 <| rf := leader0 |>) = Some (sc3 <| rf := leader0 |>, inl (mkQueryReply false Config0)) ∧
  clerkQuery (λ _ k _, if (k <? 3)%nat then None else Some (mkQueryReply false Config0)) 4 (-1) 1 (mkClerk 3 1)
    = Some (Config0, 2).
Proof.
  destruct (query_retry_loses_config backward query2 2 retry_log sc1 sc2 sc3 leader0 leader0 1) as ((cfg & HQ & _ & HN) & HB & HC).
  - assert (∃ cfgs, execute forward (join 1 [5]) [Config0] = Some cfgs ∧ configs sc1 = cfgs) as (cfgs & HE & ->).
    { eexists. split; [vm_compute; reflexivity|vm_compute; reflexivity]. }
    by apply (execute_numbered forward (join 1 [5]) [Config0] cfgs forward_valid numbered_init).
  - vm_compute. discriminate.
  - vm_compute. reflexivity.
  - vm_compute. reflexivity.
  - vm_compute. reflexivity.
  - reflexivity.
  - reflexivity.
  - split; [|split; [exact HB|]].
    + exists cfg. split; [exact HQ|]. rewrite HN. vm_compute. reflexivity.
    + refine (HC (λ _ k _, if (k <? 3)%nat then None else Some (mkQueryReply false Config0))
        (mkClerk 3 1) 1 4%nat 3%nat _ _ _ _ _); [reflexivity|simpl; lia|lia| |reflexivity].
      intros k i Hk. by rewrite (proj2 (Nat.ltb_lt k 3)).
Defined.

Lemma Query_correct_witness :
  ∃ cfg, QueryResume query2 1 sc2 = Some (Some (mkQueryReply false cfg)) ∧ Num cfg = 1.
Proof.
  destruct (Query_correct query2 1 sc2 sc2_numbered) as (cfg & HQ & _ & HN);
    [vm_compute; discriminate|vm_compute; reflexivity|vm_compute; reflexivity|].
  exists cfg. split; [exact HQ|]. rewrite HN. vm_compute. reflexivity.
Defined.

End CtrlerExamples.
