(* ===== verification/ShardKV.v ===== *)
(** * The sharded key/value service (shardkv)

    A replica group's server: it serves the keys of the shards it owns, follows
    the controller's configurations one by one, hands shards that move away to
    its dock, pulls those that arrive from the docks of their former owners,
    and drops docks no group needs.  The client sessions travel with the
    shards.  A handler that waits on a channel is split there.

    Copies of maps are values here: the program copies whatever it hands out. *)

From S2P Require Import Prelude LabGob Persister Raft RaftApi Dedup Clerk ShardCtrler.

Definition OK : string := "OK".
Definition ErrNoKey : string := "ErrNoKey".
Definition ErrWrongGroup : string := "ErrWrongGroup".
Definition ErrWrongLeader : string := "ErrWrongLeader".
Definition ErrNotReady : string := "ErrNotReady".
Definition ErrTimeOut : string := "ErrTimeOut".

Record PutAppendArgs := mkPA {
  pa_Key : string; pa_Value : string; pa_Op : string; pa_ShardId : Z; pa_ClientId : Z; pa_ReqNo : Z }.
Record PutAppendReply := mkPAReply { par_Err : string }.
Record GetArgs := mkGet { ga_Key : string; ga_ShardId : Z; ga_ClientId : Z; ga_ReqNo : Z }.
Record GetReply := mkGetReply { gr_Err : string; gr_Value : string }.
Record PullShardsArgs := mkPull { ps_ConfigNum : Z; ps_ShardIds : list Z }.

Inductive OpType := GET | PUT | APPEND | CONFIG | SHARDS.

Record Result := mkResult { Err : string; Value : string; r_ClientId : Z; r_ReqNo : Z }.
Definition Result0 : Result := mkResult "" "" 0 0.

Record ShiftShard := mkShiftShard { ss_ConfigNum : Z; ss_ShardId : Z; ss_KVMap : gmap string string }.

Record ClientInfo := mkClientInfo { CompletedReq : gmap Z Z; CompletedResult : gmap Z Result }.
Definition ClientInfo0 : ClientInfo := mkClientInfo ∅ ∅.

Record PullShardReply := mkPullReply {
  pr_Success : bool; pr_ShiftShards : list ShiftShard; pr_ClientInfo : ClientInfo }.
Record HelloReply := mkHelloReply { hr_ConfigNum : Z; hr_Success : bool }.

Record Op := mkOp {
  opType : OpType; GetArg : GetArgs; PutAppendArg : PutAppendArgs; ClientId : Z; ReqNo : Z;
  opConfig : Config; ShiftShards : list ShiftShard; opClientInfo : ClientInfo }.

Definition GetArgs0 := mkGet "" 0 0 0.
Definition PutAppendArgs0 := mkPA "" "" "" 0 0 0.

#[export] Instance result_eq_dec : EqDecision Result.
Proof. solve_decision. Defined.

Definition max (a b : Z) : Z := if b <? a then a else b.
Definition min (a b : Z) : Z := if a <? b then a else b.

(** [int(key[0]) % NShards], 0 for the empty key. *)
Definition key2shard (key : string) : Z :=
  match key with
  | EmptyString => 0
  | String c _ => Z.of_N (Ascii.N_of_ascii c)
  end mod NShards.

(** Reads of Go maps with their zero values. *)
Definition hasShard (m : gmap Z bool) (s : Z) : bool := default false (m !! s).
Definition reqOf (ci : ClientInfo) (c : Z) : Z := default 0 (CompletedReq ci !! c).
Definition resultOf (ci : ClientInfo) (c : Z) : Result := default Result0 (CompletedResult ci !! c).
Definition getValue (m : gmap string string) (key : string) : string := default "" (m !! key).

(** [ClientInfo.copy] and [ShiftShard.copy]: fresh maps with the same entries. *)
Definition copyInfo (ci : ClientInfo) : ClientInfo := mkClientInfo (CompletedReq ci) (CompletedResult ci).
Definition copyShard (s : ShiftShard) : ShiftShard := mkShiftShard (ss_ConfigNum s) (ss_ShardId s) (ss_KVMap s).

(** [merge], for the entries of [info.CompletedReq] in some order. *)
Definition mergeStep (info ci : ClientInfo) (entry : Z * Z) : ClientInfo :=
  let '(clientId, req) := entry in
  if reqOf ci clientId <? req
  then mkClientInfo (<[clientId := req]> (CompletedReq ci))
                    (<[clientId := resultOf info clientId]> (CompletedResult ci))
  else if (req =? reqOf ci clientId) && negb (String.eqb (Err (resultOf ci clientId)) OK)
  then mkClientInfo (CompletedReq ci) (<[clientId := resultOf info clientId]> (CompletedResult ci))
  else ci.

Definition merge (entries : list (Z * Z)) (info ci : ClientInfo) : ClientInfo :=
  foldl (mergeStep info) ci entries.

Section server.
Context {R : Type} `{!RaftApi Op R} (ord : Order).

(** What [Snapshot] encodes, in its order. *)
Definition SnapshotState : Type :=
  Z * Config * Config * gmap Z bool * gmap string string * ClientInfo * gmap Z Z *
  gmap Z (gmap Z ShiftShard) * gmap Z ClientInfo.
Context `{!Gob SnapshotState}.

Record ShardKV := mkShardKV {
  me : Z;
  rf : R;
  gid : Z;
  maxraftstate : Z;
  CommitedId : Z;
  LastConfig : Config;
  CurConfig : Config;
  Shards : gmap Z bool;
  ShardKVMap : gmap string string;
  Info : ClientInfo;                           (* ClientInfo *)
  CompletedChan : gmap Z nat;                  (* channels by their number *)
  nextChan : nat;
  Gid2UnCompletedConfigNum : gmap Z Z;
  OutShardsDock : gmap Z (gmap Z ShiftShard);  (* configNum -> shardId -> shard data *)
  Config2ClientInfo : gmap Z ClientInfo;
  Dead : Z;
}.

#[export] Instance eta_ShardKV : Eta ShardKV := λ s,
  mkShardKV (me s) (rf s) (gid s) (maxraftstate s) (CommitedId s) (LastConfig s) (CurConfig s) (Shards s)
    (ShardKVMap s) (Info s) (CompletedChan s) (nextChan s) (Gid2UnCompletedConfigNum s) (OutShardsDock s)
    (Config2ClientInfo s) (Dead s).
#[export] Instance set_rf : Setter rf.
Proof. setter. Defined.
#[export] Instance set_CommitedId : Setter CommitedId.
Proof. setter. Defined.
#[export] Instance set_LastConfig : Setter LastConfig.
Proof. setter. Defined.
#[export] Instance set_CurConfig : Setter CurConfig.
Proof. setter. Defined.
#[export] Instance set_Shards : Setter Shards.
Proof. setter. Defined.
#[export] Instance set_ShardKVMap : Setter ShardKVMap.
Proof. setter. Defined.
#[export] Instance set_Info : Setter Info.
Proof. setter. Defined.
#[export] Instance set_CompletedChan : Setter CompletedChan.
Proof. setter. Defined.
#[export] Instance set_nextChan : Setter nextChan.
Proof. setter. Defined.
#[export] Instance set_Gid2UnCompletedConfigNum : Setter Gid2UnCompletedConfigNum.
Proof. setter. Defined.
#[export] Instance set_OutShardsDock : Setter OutShardsDock.
Proof. setter. Defined.
#[export] Instance set_Config2ClientInfo : Setter Config2ClientInfo.
Proof. setter. Defined.
#[export] Instance set_Dead : Setter Dead.
Proof. setter. Defined.

(** The owner of a shard in a configuration; an index out of range panics. *)
Definition owner (cfg : Config) (shard : Z) : option Z := index (ShardCtrler.Shards cfg) shard.

(** ** Configurations *)

(** The shards the current configuration gives to the group and it lacks. *)
Definition missing (skv : ShardKV) : list Z :=
  filter (λ s, owner (CurConfig skv) s = Some (gid skv) ∧ hasShard (Shards skv) s = false)
         (upto (zlen (ShardCtrler.Shards (CurConfig skv)))).

Definition isMigrateFinished (skv : ShardKV) : bool * list Z :=
  (bool_decide (missing skv = []), missing skv).

Definition Hello (skv : ShardKV) : HelloReply :=
  if negb (rf_GetState (rf skv)).2 then mkHelloReply 0 false
  else if (isMigrateFinished skv).1 then mkHelloReply (Num (CurConfig skv) + 1) true
  else mkHelloReply (Num (CurConfig skv)) true.

(** [clean]; [entries] are the entries of [Gid2UnCompletedConfigNum]. *)
Definition lowestConfigNum (entries : list (Z * Z)) : Z :=
  foldl (λ lowest '(_, configNum), if lowest =? 0 then configNum else min lowest configNum) 0 entries.

Definition clean (skv : ShardKV) : ShardKV :=
  let lowest := lowestConfigNum (ord 10 _ (Gid2UnCompletedConfigNum skv)) in
  skv <| Config2ClientInfo := filter (λ x, ¬ x.1 < lowest) (Config2ClientInfo skv) |>
      <| OutShardsDock := filter (λ x, ¬ x.1 < lowest) (OutShardsDock skv) |>.

(** [sayHello]: its first critical section copies the table and the
    configuration, the RPCs update the copy, the second one writes it back. *)
Definition helloReplies (call : string → option HelloReply) (self : Z) (groups : list (Z * list string))
    (nums : gmap Z Z) : gmap Z Z :=
  foldl (λ nums '(g, servers),
    if g =? self then nums
    else foldl (λ nums server,
      match call server with
      | Some reply =>
        if hr_Success reply then <[g := max (default 0 (nums !! g)) (hr_ConfigNum reply)]> nums else nums
      | None => nums
      end) nums servers) nums groups.

Definition sayHelloBegin (skv : ShardKV) : gmap Z Z * Config := (Gid2UnCompletedConfigNum skv, CurConfig skv).

Definition sayHelloEnd (nums : gmap Z Z) (skv : ShardKV) : ShardKV :=
  let skv := skv <| Gid2UnCompletedConfigNum :=
    foldl (λ m '(g, n), <[g := max (default 0 (m !! g)) n]> m) (Gid2UnCompletedConfigNum skv) (ord 11 _ nums) |> in
  if (1 <? size (Gid2UnCompletedConfigNum skv))%nat then clean skv else skv.

(** One round of [updateConfig]'s inner loop; [query] is the controller clerk's Query. *)
Definition updateConfig (query : Z → Config) (skv : ShardKV) : option ShardKV :=
  if negb (rf_GetState (rf skv)).2 then Some skv
  else if negb (isMigrateFinished skv).1 then Some skv
  else
    let nextConfig := query (Num (CurConfig skv) + 1) in
    if Num nextConfig <=? Num (CurConfig skv) then Some skv
    else
      let op := mkOp CONFIG GetArgs0 PutAppendArgs0 0 0 nextConfig [] ClientInfo0 in
      '(r, _) ← rf_Start op (rf skv);
      Some (skv <| rf := r |>).

(** The shards that leave and those that stay under the next configuration. *)
Definition outShards (nextConfig : Config) (skv : ShardKV) : list Z :=
  filter (λ s, hasShard (Shards skv) s = true ∧ owner nextConfig s ≠ Some (gid skv))
         (upto (zlen (ShardCtrler.Shards nextConfig))).
Definition keepShards (nextConfig : Config) (skv : ShardKV) : list Z :=
  filter (λ s, hasShard (Shards skv) s = true ∧ owner nextConfig s = Some (gid skv))
         (upto (zlen (ShardCtrler.Shards nextConfig))).
Definition compareConfig (nextConfig : Config) (skv : ShardKV) : list Z * list Z :=
  (outShards nextConfig skv, keepShards nextConfig skv).

(** The entries of a table whose key is in a shard. *)
Definition shardMap (s : Z) (m : gmap string string) : gmap string string :=
  filter (λ x, key2shard x.1 = s) m.

Definition makeOutShards (outs : list Z) (nextConfig : Config) (skv : ShardKV) : ShardKV :=
  let outShardsMap := list_to_map ((λ s, (s, mkShiftShard (Num nextConfig) s (shardMap s (ShardKVMap skv)))) <$> outs) in
  skv <| OutShardsDock := <[Num nextConfig := outShardsMap]> (OutShardsDock skv) |>.

Definition doUpdateConfig (nextConfig : Config) (skv : ShardKV) : ShardKV :=
  if Num nextConfig <=? Num (CurConfig skv) then skv
  else if negb (isMigrateFinished skv).1 then skv
  else
    let '(outs, keeps) := compareConfig nextConfig skv in
    let skv := skv <| Config2ClientInfo := <[Num nextConfig := copyInfo (Info skv)]> (Config2ClientInfo skv) |> in
    let skv := makeOutShards outs nextConfig skv in
    let keepKVMap := filter (λ x, key2shard x.1 ∈ keeps) (ShardKVMap skv) in
    skv <| Shards := list_to_map ((λ s, (s, true)) <$> keeps) |> <| ShardKVMap := keepKVMap |>
        <| LastConfig := CurConfig skv |> <| CurConfig := nextConfig |>.

(** ** Pulling shards *)

Definition ShardDock (args : PullShardsArgs) (skv : ShardKV) : PullShardReply :=
  match OutShardsDock skv !! ps_ConfigNum args with
  | None => mkPullReply false [] ClientInfo0
  | Some dock =>
    let retShards := copyShard <$> omap (λ s, dock !! s) (ps_ShardIds args) in
    if bool_decide (retShards = []) then mkPullReply false [] ClientInfo0
    else mkPullReply true retShards (default ClientInfo0 (Config2ClientInfo skv !! ps_ConfigNum args))
  end.

Definition shardsOp (shifts : list ShiftShard) (info : ClientInfo) : Op :=
  mkOp SHARDS GetArgs0 PutAppendArgs0 0 0 Config0 shifts info.

(** One pass of [doPullShards] over the servers of a group: the command to start. *)
Fixpoint pullPass (call : string → PullShardsArgs → option PullShardReply) (args : PullShardsArgs)
    (servers : list string) : option Op :=
  match servers with
  | [] => None
  | server :: servers =>
    match call server args with
    | Some reply => if pr_Success reply then Some (shardsOp (pr_ShiftShards reply) (pr_ClientInfo reply))
                    else pullPass call args servers
    | None => pullPass call args servers
    end
  end.

(** The loop; in pass [n] the RPCs answer by [call n] and the server's
    configuration has number [cur n].  [Some None]: it gives up. *)
Fixpoint pullLoop (fuel n : nat) (call : nat → string → PullShardsArgs → option PullShardReply) (cur : nat → Z)
    (args : PullShardsArgs) (servers : list string) : option (option Op) :=
  match fuel with
  | O => None
  | S fuel =>
    match pullPass (call n) args servers with
    | Some op => Some (Some op)
    | None => if cur n =? ps_ConfigNum args then pullLoop fuel (S n) call cur args servers else Some None
    end
  end.

Definition doPullShards (fuel : nat) call cur (servers : list string) (configNum : Z) (unFinishedShard : list Z)
    : option (option Op) :=
  if bool_decide (servers = []) then Some None
  else if bool_decide (unFinishedShard = []) then Some None
  else pullLoop fuel 0 call cur (mkPull configNum unFinishedShard) servers.

(** What [pullShards] starts: a command, or pulls from groups. *)
Inductive PullAction :=
  | StartOp (op : Op)
  | PullFrom (servers : list string) (configNum : Z) (shards : list Z).

Definition pullShards (lastConfig curConfig : Config) (unFinishedShard : list Z) : option (list PullAction) :=
  s0 ← owner lastConfig 0;
  if s0 =? 0 then
    let shiftShards := (λ s, mkShiftShard (Num curConfig) s ∅) <$> upto (zlen (ShardCtrler.Shards curConfig)) in
    Some [StartOp (shardsOp shiftShards ClientInfo0)]
  else
    gids ← mapM (owner lastConfig) unFinishedShard;
    let gid2Shards := foldl (λ m '(s, g), <[g := default [] (m !! g) ++ [s]]> m) (∅ : gmap Z (list Z))
                            (zip unFinishedShard gids) in
    Some ((λ '(g, shards), PullFrom (default [] (Groups lastConfig !! g)) (Num curConfig) shards) <$> ord 12 _ gid2Shards).

(** One round of [checkMissShards]. *)
Definition checkMissShards (skv : ShardKV) : option (list PullAction) :=
  if negb (rf_GetState (rf skv)).2 then Some []
  else if (isMigrateFinished skv).1 then Some []
  else pullShards (LastConfig skv) (CurConfig skv) (isMigrateFinished skv).2.

(** One shard of [acceptShards]. *)
Definition acceptShard (shift : ShiftShard) (skv : ShardKV) : option ShardKV :=
  if negb (ss_ConfigNum shift =? Num (CurConfig skv)) then Some skv
  else
    g ← owner (CurConfig skv) (ss_ShardId shift);
    if negb (g =? gid skv) || hasShard (Shards skv) (ss_ShardId shift) then Some skv
    else Some (skv <| ShardKVMap := ss_KVMap shift ∪ ShardKVMap skv |>
                   <| Shards := <[ss_ShardId shift := true]> (Shards skv) |>).

Fixpoint acceptAll (shifts : list ShiftShard) (skv : ShardKV) : option ShardKV :=
  match shifts with
  | [] => Some skv
  | s :: shifts => skv ← acceptShard s skv; acceptAll shifts skv
  end.

Definition acceptShards (op : Op) (skv : ShardKV) : option ShardKV :=
  skv ← acceptAll (ShiftShards op) skv;
  Some (skv <| Info := merge (ord 13 _ (CompletedReq (opClientInfo op))) (opClientInfo op) (Info skv) |>).

(** ** Client requests *)

(** The request has been executed: a later one has, or this one with success. *)
Definition executed (clientId reqNo : Z) (skv : ShardKV) : bool :=
  (reqNo <? reqOf (Info skv) clientId)
  || ((reqNo =? reqOf (Info skv) clientId) && String.eqb (Err (resultOf (Info skv) clientId)) OK).

(** A fresh channel for the client's result. *)
Definition newChan (clientId : Z) (skv : ShardKV) : ShardKV * nat :=
  (skv <| CompletedChan := <[clientId := nextChan skv]> (CompletedChan skv) |> <| nextChan := S (nextChan skv) |>,
   nextChan skv).

(** [inl reply]: the handler returns; [inr ch]: it waits on channel [ch]. *)
Definition GetBegin (args : GetArgs) (skv : ShardKV) : option (ShardKV * (GetReply + nat)) :=
  if negb (rf_GetState (rf skv)).2 then Some (skv, inl (mkGetReply ErrWrongLeader ""))
  else
    g ← owner (CurConfig skv) (key2shard (ga_Key args));
    if negb (g =? gid skv) then Some (skv, inl (mkGetReply ErrWrongGroup ""))
    else if executed (ga_ClientId args) (ga_ReqNo args) skv then
      if negb (hasShard (Shards skv) (key2shard (ga_Key args)))
      then Some (skv, inl (mkGetReply ErrNotReady ""))
      else Some (skv, inl (mkGetReply OK (getValue (ShardKVMap skv) (ga_Key args))))
    else
      let op := mkOp GET args PutAppendArgs0 (ga_ClientId args) (ga_ReqNo args) Config0 [] ClientInfo0 in
      '(r, ret) ← rf_Start op (rf skv);
      let '(_, _, isLeader) := ret in
      let skv := skv <| rf := r |> in
      if negb isLeader then Some (skv, inl (mkGetReply ErrWrongLeader ""))
      else let '(skv, ch) := newChan (ga_ClientId args) skv in Some (skv, inr ch).

(** The handler goes on: [None] after the timeout, [Some result] from the channel. *)
Definition GetEnd (args : GetArgs) (outcome : option Result) (skv : ShardKV) : ShardKV * GetReply :=
  (skv <| CompletedChan := delete (ga_ClientId args) (CompletedChan skv) |>,
   match outcome with
   | None => mkGetReply ErrTimeOut ""
   | Some result =>
     if (r_ClientId result =? ga_ClientId args) && (r_ReqNo result =? ga_ReqNo args)
     then mkGetReply (Err result) (Value result) else mkGetReply "" ""
   end).

Definition PutAppendBegin (args : PutAppendArgs) (skv : ShardKV) : option (ShardKV * (PutAppendReply + nat)) :=
  if negb (rf_GetState (rf skv)).2 then Some (skv, inl (mkPAReply ErrWrongLeader))
  else
    g ← owner (CurConfig skv) (key2shard (pa_Key args));
    if negb (g =? gid skv) then Some (skv, inl (mkPAReply ErrWrongGroup))
    else if executed (pa_ClientId args) (pa_ReqNo args) skv then Some (skv, inl (mkPAReply OK))
    else
      let op := mkOp (if String.eqb (pa_Op args) "Put" then PUT else APPEND) GetArgs0 args
                  (pa_ClientId args) (pa_ReqNo args) Config0 [] ClientInfo0 in
      '(r, ret) ← rf_Start op (rf skv);
      let '(_, _, isLeader) := ret in
      let skv := skv <| rf := r |> in
      if negb isLeader then Some (skv, inl (mkPAReply ErrWrongLeader))
      else let '(skv, ch) := newChan (pa_ClientId args) skv in Some (skv, inr ch).

Definition PutAppendEnd (args : PutAppendArgs) (outcome : option Result) (skv : ShardKV)
    : ShardKV * PutAppendReply :=
  (skv <| CompletedChan := delete (pa_ClientId args) (CompletedChan skv) |>,
   match outcome with
   | None => mkPAReply ErrTimeOut
   | Some result =>
     if (r_ClientId result =? pa_ClientId args) && (r_ReqNo result =? pa_ReqNo args)
     then mkPAReply (Err result) else mkPAReply ""
   end).

(** The switch of [doOperation]: the table and the result's error and value. *)
Definition perform (op : Op) (skv : ShardKV) : option (gmap string string * string * string) :=
  let m := ShardKVMap skv in
  let guarded shard (k : gmap string string * string * string) :=
    g ← owner (CurConfig skv) shard;
    Some (if negb (g =? gid skv) then (m, ErrWrongGroup, "")
          else if negb (hasShard (Shards skv) shard) then (m, ErrNotReady, "")
          else k) in
  match opType op with
  | GET => guarded (ga_ShardId (GetArg op)) (m, OK, getValue m (ga_Key (GetArg op)))
  | PUT => guarded (pa_ShardId (PutAppendArg op))
             (<[pa_Key (PutAppendArg op) := pa_Value (PutAppendArg op)]> m, OK, "")
  | APPEND => guarded (pa_ShardId (PutAppendArg op))
             (<[pa_Key (PutAppendArg op) :=
                 (getValue m (pa_Key (PutAppendArg op)) +:+ pa_Value (PutAppendArg op))%string]> m, OK, "")
  | CONFIG | SHARDS => Some (m, OK, "")
  end.

(** [doOperation]: the new state and what it sends on the client's channel. *)
Definition doOperation (op : Op) (skv : ShardKV) : option (ShardKV * list (nat * Result)) :=
  '(m, err, value) ← perform op skv;
  let result := mkResult err value (ClientId op) (ReqNo op) in
  let sends := match CompletedChan skv !! ClientId op with Some ch => [(ch, result)] | None => [] end in
  Some (skv <| ShardKVMap := m |>
            <| Info := mkClientInfo (<[ClientId op := ReqNo op]> (CompletedReq (Info skv)))
                        (<[ClientId op := mkResult err "" 0 0]> (CompletedResult (Info skv))) |>, sends).

(** ** Snapshots, the apply loop and start-up *)

Definition ReadSnapshot (data : bytes) (skv : ShardKV) : option ShardKV :=
  if bool_decide (data = []) then Some skv
  else match gob_decode data with
  | None => Some skv
  | Some (commitedId, lastConfig, curConfig, shards, kvmap, info, nums, dock, infos) =>
    let skv := skv <| CommitedId := commitedId |> <| LastConfig := lastConfig |> <| CurConfig := curConfig |>
      <| Shards := shards |> <| ShardKVMap := kvmap |> <| Info := info |>
      <| Gid2UnCompletedConfigNum := nums |> <| OutShardsDock := dock |> <| Config2ClientInfo := infos |> in
    r ← rf_Snapshot (CommitedId skv) data (rf skv);
    Some (skv <| rf := r |>)
  end.

Definition snapshotState (skv : ShardKV) : SnapshotState :=
  (CommitedId skv, LastConfig skv, CurConfig skv, Shards skv, ShardKVMap skv, Info skv,
   Gid2UnCompletedConfigNum skv, OutShardsDock skv, Config2ClientInfo skv).

(** One round of [Snapshot]. *)
Definition Snapshot (skv : ShardKV) : option ShardKV :=
  if (maxraftstate skv =? -1) || (rf_StateSize (rf skv) <? maxraftstate skv) then Some skv
  else
    r ← rf_Snapshot (CommitedId skv) (gob_encode (snapshotState skv)) (rf skv);
    Some (skv <| rf := r |>).

(** The command is new, or it failed before. *)
Definition fresh_request (op : Op) (skv : ShardKV) : bool :=
  (reqOf (Info skv) (ClientId op) <? ReqNo op)
  || ((ReqNo op =? reqOf (Info skv) (ClientId op))
      && negb (String.eqb (Err (resultOf (Info skv) (ClientId op))) OK)).

Definition applyOp (op : Op) (skv : ShardKV) : option (ShardKV * list (nat * Result)) :=
  match opType op with
  | GET | PUT | APPEND => if fresh_request op skv then doOperation op skv else Some (skv, [])
  | CONFIG => Some (doUpdateConfig (opConfig op) skv, [])
  | SHARDS => skv ← acceptShards op skv; Some (skv, [])
  end.

Definition applyLog (applyMsg : ApplyMsg Op) (skv : ShardKV) : option (ShardKV * list (nat * Result)) :=
  if CommandValid applyMsg then
    op ← MsgCommand applyMsg;
    '(skv, sends) ← applyOp op skv;
    Some (skv <| CommitedId := max (CommitedId skv) (CommandIndex applyMsg) |>, sends)
  else if SnapshotValid applyMsg && (CommitedId skv <? SnapshotIndex applyMsg) then
    skv ← ReadSnapshot (Snapshot_ applyMsg) skv; Some (skv, [])
  else Some (skv, []).

Definition Kill (skv : ShardKV) : ShardKV := skv <| rf := rf_Kill (rf skv) |> <| Dead := 1 |>.
Definition killed (skv : ShardKV) : bool := Dead skv =? 1.

(** [StartServer], given the Raft peer that [raft.Make] returned. *)
Definition StartServer (r : R) (my : Z) (ps : Persister) (maxrs gid : Z) : option ShardKV :=
  let skv := mkShardKV my r gid maxrs 0 Config0 Config0 ∅ ∅ ClientInfo0 ∅ 0 ∅ ∅ ∅ 0 in
  ReadSnapshot (Persister.ReadSnapshot ps) skv.

End server.

Arguments ShardKV : clear implicits.

(** ** The clerk *)

Record Clerk := mkClerk { ck_config : Config; ck_me : Z; ck_reqNo : Z }.

(** What a pass over the servers of a group ends with. *)
Inductive PassResult (A : Type) := PassDone (a : A) | PassFailed.
Arguments PassDone {A} a.
Arguments PassFailed {A}.

(** One pass: the first good answer, [ErrWrongGroup] ends it. *)
Fixpoint groupPass {Reply A} (err : Reply → string) (good : Reply → option A)
    (call : string → option Reply) (servers : list string) : PassResult A :=
  match servers with
  | [] => PassFailed
  | server :: servers =>
    match call server with
    | Some reply =>
      match good reply with
      | Some a => PassDone a
      | None => if String.eqb (err reply) ErrWrongGroup then PassFailed
                else groupPass err good call servers
      end
    | None => groupPass err good call servers
    end
  end.

(** The loop of [Get] and [PutAppend]: a pass over the group the clerk's
    configuration names, then the newest configuration ([query n]). *)
Fixpoint clerkLoop {Reply A} (err : Reply → string) (good : Reply → option A)
    (call : nat → string → option Reply) (query : nat → Config) (fuel n : nat) (shard : Z) (cfg : Config)
    : option (A * Config) :=
  match fuel with
  | O => None
  | S fuel =>
    g ← owner cfg shard;
    match (match Groups cfg !! g with Some servers => groupPass err good (call n) servers | None => PassFailed end) with
    | PassDone a => Some (a, cfg)
    | PassFailed => clerkLoop err good call query fuel (S n) shard (query n)
    end
  end.

Definition MakeClerk (id : Z) : Clerk * Z := let id := wrap64 (id + 1) in (mkClerk Config0 id 0, id).

(** [seq] numbers the requests of all clerks. *)
Definition clerkGet (call : GetArgs → nat → string → option GetReply) query (fuel : nat) (key : string)
    (seq : Z) (ck : Clerk) : option (string * Clerk * Z) :=
  let seq := wrap64 (seq + 1) in
  let args := mkGet key (key2shard key) (ck_me ck) seq in
  '(v, cfg) ← clerkLoop gr_Err (λ r, if String.eqb (gr_Err r) OK || String.eqb (gr_Err r) ErrNoKey then Some (gr_Value r) else None)
                (call args) query fuel 0 (key2shard key) (ck_config ck);
  Some (v, mkClerk cfg (ck_me ck) (ck_reqNo ck), seq).

Definition clerkPutAppend (call : PutAppendArgs → nat → string → option PutAppendReply) query (fuel : nat)
    (key value op : string) (seq : Z) (ck : Clerk) : option (Clerk * Z) :=
  let seq := wrap64 (seq + 1) in
  let args := mkPA key value op (key2shard key) (ck_me ck) seq in
  '(_, cfg) ← clerkLoop par_Err (λ r, if String.eqb (par_Err r) OK then Some tt else None)
                (call args) query fuel 0 (key2shard key) (ck_config ck);
  Some (mkClerk cfg (ck_me ck) (ck_reqNo ck), seq).

Definition clerkPut call query fuel key value seq ck := clerkPutAppend call query fuel key value "Put" seq ck.
Definition clerkAppend call query fuel key value seq ck := clerkPutAppend call query fuel key value "Append" seq ck.
