(* ===== verification/Migration.v ===== *)
(** * Shard migration

    The state of a replica group's server over its life: which keys it holds,
    what happens to them when the configuration changes, how a shard and the
    client sessions reach the next owner, and when old shards are dropped. *)

From S2P Require Import Prelude LabGob Persister Raft RaftLog RaftState RaftApi Dedup Clerk ShardCtrler Rebalance ShardKV.

(** ** Sessions *)

Section sessions.
Implicit Types (ci info : ClientInfo) (c r : Z).

(** Request [r] of client [c] has been executed according to a session table. *)
Definition executedIn ci c r : Prop :=
  r < reqOf ci c ∨ (r = reqOf ci c ∧ Err (resultOf ci c) = OK).
#[export] Instance executedIn_dec ci c r : Decision (executedIn ci c r).
Proof. unfold executedIn. apply _. Defined.

Lemma reqOf_insert ci c r res c' :
  reqOf (mkClientInfo (<[c := r]> (CompletedReq ci)) res) c' = if decide (c = c') then r else reqOf ci c'.
Proof.
  unfold reqOf. simpl. destruct (decide _) as [<-|]; [by rewrite lookup_insert_eq|by rewrite lookup_insert_ne].
Qed.

Lemma resultOf_insert ci req c x c' :
  resultOf (mkClientInfo req (<[c := x]> (CompletedResult ci))) c' = if decide (c = c') then x else resultOf ci c'.
Proof.
  unfold resultOf. simpl. destruct (decide _) as [<-|]; [by rewrite lookup_insert_eq|by rewrite lookup_insert_ne].
Qed.

(** A step of [merge] joins the tables for one client and leaves the others. *)
Lemma mergeStep_executed info ci c c' r :
  executedIn (mergeStep info ci (c, reqOf info c)) c' r ↔
  executedIn ci c' r ∨ (c' = c ∧ executedIn info c r).
Proof.
  unfold executedIn, mergeStep.
  destruct (Z.ltb_spec (reqOf ci c) (reqOf info c)) as [Hlt|Hge].
  { rewrite reqOf_insert, resultOf_insert. destruct (decide (c = c')) as [<-|Hne]; [|naive_solver].
    split; [naive_solver|]. intros [[?|[? ?]]|(_ & [?|[? ?]])]; [left; lia..|left; lia|right; done]. }
  destruct (Z.eqb_spec (reqOf info c) (reqOf ci c)) as [He|Hne]; simpl.
  - destruct (String.eqb_spec (Err (resultOf ci c)) OK) as [HO|HO]; simpl.
    + split; [naive_solver|]. intros [?|(-> & [?|[? ?]])]; [done|left; lia|]. right. split; [lia|done].
    + rewrite resultOf_insert. change (reqOf (mkClientInfo (CompletedReq ci) _) c') with (reqOf ci c').
      destruct (decide (c = c')) as [<-|?]; [|naive_solver]. rewrite He. naive_solver.
  - split; [naive_solver|]. intros [?|(-> & [?|[? ?]])]; [done|left; lia|]. left. lia.
Qed.

Lemma merge_foldl_executed info entries ci c' r :
  (∀ c n, (c, n) ∈ entries → n = reqOf info c) →
  executedIn (foldl (mergeStep info) ci entries) c' r ↔
  executedIn ci c' r ∨ (c' ∈ entries.*1 ∧ executedIn info c' r).
Proof.
  revert ci. induction entries as [|[c n] entries IH]; intros ci Hn; [set_solver|].
  cbn [foldl]. rewrite fmap_cons. cbn [fst].
  rewrite IH by (intros; apply Hn; by right). rewrite (Hn c n) by by left.
  rewrite mergeStep_executed, elem_of_cons. naive_solver.
Qed.

(** [merge] is the union of what the two tables say was executed. *)
Lemma merge_executed ord s info ci c r :
  valid_order ord → 1 <= r →
  executedIn (merge (ord s _ (CompletedReq info)) info ci) c r ↔ executedIn ci c r ∨ executedIn info c r.
Proof.
  intros HO Hr. unfold merge. rewrite merge_foldl_executed.
  - split; [naive_solver|]. intros [?|HE]; [by left|right]. split; [|done].
    destruct (CompletedReq info !! c) as [n|] eqn:E.
    + apply list_elem_of_fmap. exists (c, n). split; [done|by apply ord_elem].
    + unfold executedIn, reqOf in HE. rewrite E in HE. simpl in HE. lia.
  - intros c' n Hin%ord_elem; [|done]. unfold reqOf. by rewrite Hin.
Qed.

End sessions.

Lemma key2shard_range key : 0 <= key2shard key < NShards.
Proof. unfold key2shard. apply Z.mod_pos_bound. done. Qed.

Section group.
Context {R : Type} `{!RaftApi Op R} `{!Gob SnapshotState} (ord : Order) (HO : valid_order ord).
Implicit Types (skv skvA skvB : ShardKV R) (cfg : Config) (op : Op) (sh : ShiftShard).

(** ** The invariant *)

(** A shard in transit holds keys of that shard only. *)
Definition shift_ok sh : Prop := ∀ k, k ∈ dom (ss_KVMap sh) → key2shard k = ss_ShardId sh.

Record ginv skv : Prop := {
  gi_cfg : zlen (ShardCtrler.Shards (CurConfig skv)) = NShards;
  gi_last : zlen (ShardCtrler.Shards (LastConfig skv)) = NShards;
  gi_keys : ∀ k, k ∈ dom (ShardKVMap skv) → hasShard (Shards skv) (key2shard k) = true;
  gi_own : ∀ s, hasShard (Shards skv) s = true → owner (CurConfig skv) s = Some (gid skv);
  gi_dock : ∀ n dock s sh, OutShardsDock skv !! n = Some dock → dock !! s = Some sh →
    shift_ok sh ∧ ss_ShardId sh = s ∧ ss_ConfigNum sh = n ∧ n <= Num (CurConfig skv);
}.

(** What clients, controller and peers put in the log. *)
Definition op_ok op : Prop :=
  match opType op with
  | GET => ga_ShardId (GetArg op) = key2shard (ga_Key (GetArg op))
  | PUT | APPEND => pa_ShardId (PutAppendArg op) = key2shard (pa_Key (PutAppendArg op))
  | CONFIG => zlen (ShardCtrler.Shards (opConfig op)) = NShards
  | SHARDS => ∀ sh, sh ∈ ShiftShards op → shift_ok sh ∧ 0 <= ss_ShardId sh < NShards
  end.

(** The parts of the state the invariant is about. *)
Definition gview skv :=
  (gid skv, LastConfig skv, CurConfig skv, Shards skv, ShardKVMap skv, OutShardsDock skv).

Lemma ginv_view skv skv' : gview skv' = gview skv → ginv skv → ginv skv'.
Proof.
  intros [= E1 E2 E3 E4 E5 E6] [H1 H2 H3 H4 H5]. split; rewrite ?E1, ?E2, ?E3, ?E4, ?E5, ?E6; done.
Qed.

Lemma hasShard_insert (m : gmap Z bool) s s' :
  hasShard (<[s := true]> m) s' = true ↔ s = s' ∨ hasShard m s' = true.
Proof.
  unfold hasShard. destruct (decide (s = s')) as [->|Hne]; [rewrite lookup_insert_eq; naive_solver|].
  rewrite lookup_insert_ne by done. naive_solver.
Qed.

Lemma hasShard_list l s : hasShard (list_to_map ((λ s, (s, true)) <$> l)) s = true ↔ s ∈ l.
Proof.
  induction l as [|x l IH]; simpl; [split; [done|by intros ?%elem_of_nil]|].
  rewrite hasShard_insert, IH, elem_of_cons. naive_solver.
Qed.

Lemma keepShards_elem cfg skv s :
  s ∈ keepShards cfg skv ↔ hasShard (Shards skv) s = true ∧ owner cfg s = Some (gid skv).
Proof.
  unfold keepShards. rewrite list_elem_of_filter, upto_elem. split; [naive_solver|].
  intros [? Ho]. split; [done|]. by apply index_lt in Ho.
Qed.

Lemma outShards_elem cfg skv s :
  s ∈ outShards cfg skv ↔
  hasShard (Shards skv) s = true ∧ owner cfg s ≠ Some (gid skv) ∧ 0 <= s < zlen (ShardCtrler.Shards cfg).
Proof. unfold outShards. rewrite list_elem_of_filter, upto_elem. naive_solver. Qed.

Lemma outShards_NoDup cfg skv : NoDup (outShards cfg skv).
Proof. apply NoDup_filter, NoDup_fmap_2; [apply _|apply NoDup_seq]. Qed.

(** The dock [makeOutShards] fills. *)
Lemma outShards_lookup cfg skv s :
  (list_to_map ((λ s, (s, mkShiftShard (Num cfg) s (shardMap s (ShardKVMap skv)))) <$> outShards cfg skv)
     : gmap Z ShiftShard) !! s =
  if decide (s ∈ outShards cfg skv) then Some (mkShiftShard (Num cfg) s (shardMap s (ShardKVMap skv))) else None.
Proof.
  destruct (decide _) as [Hs|Hs].
  - apply elem_of_list_to_map_1; [|apply list_elem_of_fmap; eauto].
    rewrite <-list_fmap_compose. rewrite (list_fmap_ext _ id) by done. rewrite list_fmap_id. apply outShards_NoDup.
  - apply not_elem_of_list_to_map_1. rewrite <-list_fmap_compose, (list_fmap_ext _ id) by done.
    by rewrite list_fmap_id.
Qed.

Lemma shardMap_lookup s m k : shardMap s m !! k = if decide (key2shard k = s) then m !! k else None.
Proof.
  unfold shardMap. rewrite map_lookup_filter. destruct (m !! k) as [v|]; simpl; [|by destruct (decide _)].
  destruct (decide (key2shard k = s)) as [E|E]; [by rewrite option_guard_True|by rewrite option_guard_False].
Qed.

(** ** Changing the configuration *)

(** A configuration takes effect when it is newer and nothing is missing. *)
Definition switches cfg skv : Prop := Num (CurConfig skv) < Num cfg ∧ missing skv = [].
#[local] Instance switches_dec cfg skv : Decision (switches cfg skv).
Proof. unfold switches. apply _. Qed.

Lemma doUpdateConfig_cases cfg skv :
  (¬ switches cfg skv → doUpdateConfig cfg skv = skv) ∧
  (switches cfg skv → let skv' := doUpdateConfig cfg skv in
     CurConfig skv' = cfg ∧ LastConfig skv' = CurConfig skv ∧ gid skv' = gid skv ∧ Info skv' = Info skv ∧
     Shards skv' = list_to_map ((λ s, (s, true)) <$> keepShards cfg skv) ∧
     ShardKVMap skv' = filter (λ x, key2shard x.1 ∈ keepShards cfg skv) (ShardKVMap skv) ∧
     OutShardsDock skv' = <[Num cfg := list_to_map
       ((λ s, (s, mkShiftShard (Num cfg) s (shardMap s (ShardKVMap skv)))) <$> outShards cfg skv)]> (OutShardsDock skv) ∧
     Config2ClientInfo skv' = <[Num cfg := Info skv]> (Config2ClientInfo skv)).
Proof.
  unfold switches, doUpdateConfig, isMigrateFinished. simpl.
  destruct (Z.leb_spec (Num cfg) (Num (CurConfig skv))); [split; [done|lia]|].
  case_bool_decide as Hm; simpl; [|split; [done|by intros []]].
  split; [naive_solver|]. intros _. split_and!; try done. by destruct (Info skv).
Qed.

(** A change of configuration keeps the invariant. *)
Lemma doUpdateConfig_inv cfg skv :
  ginv skv → zlen (ShardCtrler.Shards cfg) = NShards → ginv (doUpdateConfig cfg skv).
Proof.
  intros G Hlen. destruct (decide (switches cfg skv)) as [HS|HS].
  2:{ by rewrite (proj1 (doUpdateConfig_cases cfg skv) HS). }
  destruct (proj2 (doUpdateConfig_cases cfg skv) HS) as (Ec & El & Eg & Ei & Es & Em & Ed & Eci).
  set (skv' := doUpdateConfig cfg skv) in *.
  assert (∀ s, hasShard (Shards skv') s = true ↔ hasShard (Shards skv) s = true ∧ owner cfg s = Some (gid skv)) as Hhas.
  { intros s. rewrite Es, hasShard_list. apply keepShards_elem. }
  split.
  - by rewrite Ec.
  - rewrite El. apply G.
  - intros k Hk. apply Hhas. rewrite Em in Hk. apply elem_of_dom in Hk as [v Hv].
    apply map_lookup_filter_Some in Hv as [_ Hv]. by apply keepShards_elem in Hv.
  - intros s [_ Ho]%Hhas. by rewrite Ec, Eg.
  - intros n dock s sh. rewrite Ed, Ec. intros [[<- <-]|[_ Hd]]%lookup_insert_Some Hs.
    + rewrite outShards_lookup in Hs. destruct (decide _); [|done]. injection Hs as <-. simpl.
      split_and!; [|done|done|lia]. intros k [v Hv]%elem_of_dom. simpl in *.
      rewrite shardMap_lookup in Hv. by destruct (decide _).
    + destruct (gi_dock _ G _ _ _ _ Hd Hs) as (? & ? & ? & ?). split_and!; try done. destruct HS. lia.
Qed.

(** A change of configuration loses nothing.  When a group moves to the next
    configuration every key it holds is either kept, because its shard stays, or
    is in the dock under the new number and its shard, with its value; nothing
    else is in either, and the sessions are docked with the shards. *)
Theorem doUpdateConfig_partition cfg skv :
  ginv skv → zlen (ShardCtrler.Shards cfg) = NShards → switches cfg skv →
  let skv' := doUpdateConfig cfg skv in
  ginv skv' ∧ CurConfig skv' = cfg ∧ LastConfig skv' = CurConfig skv ∧
  Config2ClientInfo skv' !! Num cfg = Some (Info skv) ∧
  ∃ dock, OutShardsDock skv' !! Num cfg = Some dock ∧
    (∀ k, ShardKVMap skv' !! k =
       if decide (owner cfg (key2shard k) = Some (gid skv)) then ShardKVMap skv !! k else None) ∧
    (∀ s sh, dock !! s = Some sh → owner cfg s ≠ Some (gid skv) ∧
       ∀ k, ss_KVMap sh !! k = if decide (key2shard k = s) then ShardKVMap skv !! k else None) ∧
    (∀ k, is_Some (ShardKVMap skv !! k) → owner cfg (key2shard k) ≠ Some (gid skv) → is_Some (dock !! key2shard k)).
Proof.
  intros G Hlen HS skv'. destruct (proj2 (doUpdateConfig_cases cfg skv) HS)
    as (Ec & El & Eg & Ei & Es & Em & Ed & Eci). fold skv' in Ec, El, Eg, Ei, Es, Em, Ed, Eci.
  assert (∀ k, is_Some (ShardKVMap skv !! k) → hasShard (Shards skv) (key2shard k) = true) as Hhas.
  { intros k Hk. by apply (gi_keys _ G), elem_of_dom. }
  split_and!; [by apply doUpdateConfig_inv|done|done|by rewrite Eci, lookup_insert_eq|].
  eexists. split; [by rewrite Ed, lookup_insert_eq|]. split_and!.
  - intros k. rewrite Em, map_lookup_filter. destruct (ShardKVMap skv !! k) as [v|] eqn:Ek; simpl.
    2:{ by destruct (decide (owner cfg _ = _)). }
    destruct (decide (owner cfg (key2shard k) = Some (gid skv))) as [Ho|Ho].
    + rewrite option_guard_True; [done|]. apply keepShards_elem. split; [by apply Hhas; eauto|done].
    + rewrite option_guard_False; [done|]. intros Hk%keepShards_elem. naive_solver.
  - intros s sh. rewrite outShards_lookup. destruct (decide _) as [Hs%outShards_elem|]; [|done]. intros [= <-].
    split; [naive_solver|]. intros k. apply shardMap_lookup.
  - intros k Hk Ho. rewrite outShards_lookup, decide_True; [eauto|].
    apply outShards_elem. split; [by apply Hhas|]. split; [done|]. rewrite Hlen. apply key2shard_range.
Qed.

(** ** Accepting shards *)

(** A shard in transit the group is waiting for. *)
Definition wanted sh skv : Prop :=
  ss_ConfigNum sh = Num (CurConfig skv) ∧ owner (CurConfig skv) (ss_ShardId sh) = Some (gid skv) ∧
  hasShard (Shards skv) (ss_ShardId sh) = false.

#[local] Instance wanted_dec sh skv : Decision (wanted sh skv).
Proof. unfold wanted. apply _. Qed.
#[local] Typeclasses Opaque wanted.

Lemma acceptShard_cases sh skv :
  ginv skv → 0 <= ss_ShardId sh < NShards →
  (¬ wanted sh skv → acceptShard sh skv = Some skv) ∧
  (wanted sh skv → acceptShard sh skv = Some
     (skv <| ShardKVMap := ss_KVMap sh ∪ ShardKVMap skv |> <| Shards := <[ss_ShardId sh := true]> (Shards skv) |>)).
Proof.
  intros G Hr. unfold acceptShard, wanted.
  destruct (Z.eqb_spec (ss_ConfigNum sh) (Num (CurConfig skv))) as [En|En]; simpl; [|naive_solver].
  destruct (index_is_Some (ShardCtrler.Shards (CurConfig skv)) (ss_ShardId sh)) as [g Hg]; [by rewrite (gi_cfg _ G)|].
  unfold owner. rewrite Hg. simpl. destruct (Z.eqb_spec g (gid skv)) as [->|Hne]; simpl.
  - destruct (hasShard (Shards skv) (ss_ShardId sh)); naive_solver.
  - split; [done|]. intros (_ & ? & _). congruence.
Qed.

(** Accepting a shard keeps the invariant and what the group serves already. *)
Lemma acceptShard_inv sh skv :
  ginv skv → shift_ok sh → 0 <= ss_ShardId sh < NShards →
  ∃ skv', acceptShard sh skv = Some skv' ∧ ginv skv' ∧
    CurConfig skv' = CurConfig skv ∧ gid skv' = gid skv ∧ Info skv' = Info skv ∧
    OutShardsDock skv' = OutShardsDock skv ∧ Config2ClientInfo skv' = Config2ClientInfo skv ∧
    (∀ s, hasShard (Shards skv') s = true ↔ hasShard (Shards skv) s = true ∨ (s = ss_ShardId sh ∧ wanted sh skv)) ∧
    (∀ k, ShardKVMap skv' !! k =
       if decide (key2shard k = ss_ShardId sh ∧ wanted sh skv) then ss_KVMap sh !! k else ShardKVMap skv !! k).
Proof.
  intros G Hok Hr. destruct (acceptShard_cases sh skv G Hr) as [Hno Hyes].
  destruct (decide (wanted sh skv)) as [HW|HW].
  2:{ exists skv. rewrite (Hno HW). split_and!; try done; [naive_solver|]. intros k. rewrite decide_False; [done|naive_solver]. }
  rewrite (Hyes HW). eexists. split; [done|]. destruct HW as (En & Eo & Eh).
  assert (∀ k, key2shard k = ss_ShardId sh → ShardKVMap skv !! k = None) as Hnone.
  { intros k Ek. apply not_elem_of_dom. intros Hk%(gi_keys _ G). congruence. }
  split_and!; try done; simpl.
  - destruct G as [G1 G2 G3 G4 G5]. split; simpl; try done.
    + intros k. rewrite dom_union_L, elem_of_union, hasShard_insert. intros [Hk|Hk]; [left; symmetry; by apply Hok|right; by apply G3].
    + intros s [<-|Hs]%hasShard_insert; [done|by apply G4].
  - intros s. rewrite hasShard_insert. unfold wanted. naive_solver.
  - intros k. rewrite lookup_union. destruct (decide (key2shard k = ss_ShardId sh)) as [Ek|Ek].
    + rewrite decide_True by done. rewrite (Hnone k Ek). by destruct (ss_KVMap sh !! k).
    + rewrite decide_False by naive_solver. rewrite (proj1 (not_elem_of_dom _ _)); [by destruct (ShardKVMap skv !! k)|].
      by intros Hk%Hok.
Qed.

(** What accepting shards does not touch. *)
Definition frame skv :=
  (gid skv, CurConfig skv, LastConfig skv, Info skv, OutShardsDock skv, Config2ClientInfo skv).

Lemma acceptShard_frame sh skv skv' : acceptShard sh skv = Some skv' → frame skv' = frame skv.
Proof.
  unfold acceptShard. destruct (negb _); [by intros [= <-]|]. destruct (owner _ _); [|done].
  simpl. destruct (_ || _); by intros [= <-].
Qed.

Definition shifts_ok (shs : list ShiftShard) : Prop :=
  ∀ sh, sh ∈ shs → shift_ok sh ∧ 0 <= ss_ShardId sh < NShards.

(** The data of a shard in a table, compared key by key. *)
Definition holds (s : Z) (m m' : gmap string string) : Prop := ∀ k, key2shard k = s → m' !! k = m !! k.

Lemma acceptAll_inv shs skv :
  ginv skv → shifts_ok shs →
  ∃ skv', acceptAll shs skv = Some skv' ∧ ginv skv' ∧ frame skv' = frame skv ∧
    (∀ s, hasShard (Shards skv) s = true →
       hasShard (Shards skv') s = true ∧ holds s (ShardKVMap skv) (ShardKVMap skv')) ∧
    (∀ s, hasShard (Shards skv) s = false → hasShard (Shards skv') s = true →
       ∃ sh, sh ∈ shs ∧ wanted sh skv ∧ ss_ShardId sh = s ∧ holds s (ss_KVMap sh) (ShardKVMap skv')) ∧
    (∀ sh, sh ∈ shs → wanted sh skv → hasShard (Shards skv') (ss_ShardId sh) = true).
Proof.
  revert skv. induction shs as [|sh shs IH]; intros skv G Hok.
  { exists skv. split_and!; try done; [congruence|by intros ? ?%elem_of_nil]. }
  destruct (Hok sh) as [Hsh Hr]; [by left|].
  destruct (acceptShard_inv sh skv G Hsh Hr) as (s1 & E1 & G1 & Ec & Eg & Ei & Ed & Eci & Hhas & Hmap).
  pose proof (acceptShard_frame _ _ _ E1) as HF1.
  destruct (IH s1 G1) as (s2 & E2 & G2 & HF & Hold & Hnew & Hget); [intros ? ?; apply Hok; by right|].
  assert (∀ sh', wanted sh' s1 → wanted sh' skv) as HW.
  { intros sh' (? & ? & Hn). unfold wanted. rewrite <-Ec, <-Eg. split_and!; try done.
    destruct (hasShard (Shards skv) _) eqn:E; [|done]. rewrite (proj2 (Hhas _)) in Hn; [done|by left]. }
  exists s2. cbn [acceptAll]. rewrite E1. cbn. split_and!; try done.
  - congruence.
  - intros s Hs. destruct (Hold s) as [? Hh]; [apply Hhas; by left|]. split; [done|].
    intros k Hk. rewrite Hh, Hmap by done. rewrite decide_False; [done|]. intros (Heq & _ & _ & ?). congruence.
  - intros s Hs Hs2. destruct (hasShard (Shards s1) s) eqn:E.
    + apply Hhas in E as [E|[-> HWs]]; [congruence|]. exists sh. split_and!; try done; [by left|].
      intros k Hk. destruct (Hold (ss_ShardId sh)) as [_ Hh]; [apply Hhas; by right|].
      rewrite Hh, Hmap by done. by rewrite decide_True.
    + destruct (Hnew s) as (sh' & ? & ? & ? & ?); [done|done|]. exists sh'.
      split_and!; [by right|by apply HW|done|done].
  - intros sh' [->|Hin]%elem_of_cons HWs.
    + apply Hold, Hhas. by right.
    + destruct (hasShard (Shards s1) (ss_ShardId sh')) eqn:E; [by apply Hold|].
      apply Hget; [done|]. destruct HWs as (? & ? & ?). unfold wanted. by rewrite Ec, Eg.
Qed.

(** [acceptShards] as a whole. *)
Lemma acceptShards_inv op skv :
  ginv skv → shifts_ok (ShiftShards op) →
  ∃ skv', acceptShards ord op skv = Some skv' ∧ ginv skv' ∧
    gid skv' = gid skv ∧ CurConfig skv' = CurConfig skv ∧ LastConfig skv' = LastConfig skv ∧
    OutShardsDock skv' = OutShardsDock skv ∧ Config2ClientInfo skv' = Config2ClientInfo skv ∧
    (∀ s, hasShard (Shards skv) s = true →
       hasShard (Shards skv') s = true ∧ holds s (ShardKVMap skv) (ShardKVMap skv')) ∧
    (∀ s, hasShard (Shards skv) s = false → hasShard (Shards skv') s = true →
       ∃ sh, sh ∈ ShiftShards op ∧ wanted sh skv ∧ ss_ShardId sh = s ∧ holds s (ss_KVMap sh) (ShardKVMap skv')) ∧
    (∀ sh, sh ∈ ShiftShards op → wanted sh skv → hasShard (Shards skv') (ss_ShardId sh) = true) ∧
    (∀ c r, 1 <= r → executedIn (Info skv') c r ↔ executedIn (Info skv) c r ∨ executedIn (opClientInfo op) c r).
Proof.
  intros G Hok. destruct (acceptAll_inv (ShiftShards op) skv G Hok) as (s1 & E1 & G1 & HF & Hold & Hnew & Hget).
  unfold acceptShards. rewrite E1. cbn. eexists. split; [done|]. injection HF as ? ? ? Hi ? ?.
  split_and!; try done.
  - by apply (ginv_view s1).
  - intros c r Hr. cbn. rewrite merge_executed by done. by rewrite Hi.
Qed.

(** ** The log *)

(** What a group does with a sequence of committed commands. *)
Fixpoint applyOps (ops : list Op) skv : option (ShardKV R) :=
  match ops with
  | [] => Some skv
  | op :: ops => '(skv, _) ← applyOp ord op skv; applyOps ops skv
  end.

Definition isClientOp op : bool := match opType op with GET | PUT | APPEND => true | _ => false end.
Definition opKey op : string := match opType op with GET => ga_Key (GetArg op) | _ => pa_Key (PutAppendArg op) end.

(** The key's shard is assigned to the group and its data has arrived. *)
Definition serving key skv : Prop :=
  owner (CurConfig skv) (key2shard key) = Some (gid skv) ∧ hasShard (Shards skv) (key2shard key) = true.

(** What a request does to the table and returns, when it is executed. *)
Definition effect op (m : gmap string string) : gmap string string * string :=
  match opType op with
  | GET => (m, getValue m (opKey op))
  | PUT => (<[opKey op := pa_Value (PutAppendArg op)]> m, "")
  | APPEND => (<[opKey op := (getValue m (opKey op) +:+ pa_Value (PutAppendArg op))%string]> m, "")
  | CONFIG | SHARDS => (m, "")
  end.

#[local] Instance serving_dec key skv : Decision (serving key skv).
Proof. unfold serving. apply _. Qed.

(** [fresh_request] decides that a request was not executed. *)
Lemma fresh_request_executed op skv :
  fresh_request op skv = false ↔ executedIn (Info skv) (ClientId op) (ReqNo op).
Proof.
  unfold fresh_request, executedIn.
  destruct (Z.ltb_spec (reqOf (Info skv) (ClientId op)) (ReqNo op)), (Z.eqb_spec (ReqNo op) (reqOf (Info skv) (ClientId op))),
    (String.eqb_spec (Err (resultOf (Info skv) (ClientId op))) OK); simpl; naive_solver lia.
Qed.

(** What [doOperation] records. *)
Lemma record_executed ci c r err v x y c' r' :
  ¬ executedIn ci c r →
  executedIn (mkClientInfo (<[c := r]> (CompletedReq ci)) (<[c := mkResult err v x y]> (CompletedResult ci))) c' r' ↔
  executedIn ci c' r' ∨ (c' = c ∧ r' = r ∧ err = OK) ∨ (c' = c ∧ reqOf ci c <= r' < r).
Proof.
  unfold executedIn. rewrite reqOf_insert, resultOf_insert. intros HE.
  destruct (decide (c = c')) as [<-|Hne]; simpl; [|naive_solver].
  destruct (decide (err = OK)), (decide (r' = r)), (decide (r' < r)), (decide (r' < reqOf ci c)); naive_solver lia.
Qed.

Lemma perform_cases op skv :
  ginv skv → op_ok op → isClientOp op = true →
  (serving (opKey op) skv → perform op skv =
     Some ((effect op (ShardKVMap skv)).1, OK, (effect op (ShardKVMap skv)).2)) ∧
  (¬ serving (opKey op) skv → ∃ err, err ≠ OK ∧ perform op skv = Some (ShardKVMap skv, err, "") ∧
     (err = ErrWrongGroup ↔ owner (CurConfig skv) (key2shard (opKey op)) ≠ Some (gid skv))).
Proof.
  intros G Hop Hc.
  destruct (index_is_Some (ShardCtrler.Shards (CurConfig skv)) (key2shard (opKey op))) as [g Hg].
  { rewrite (gi_cfg _ G). apply key2shard_range. }
  assert (owner (CurConfig skv) (key2shard (opKey op)) = Some g) as Ho by exact Hg.
  unfold serving. rewrite Ho. unfold op_ok, isClientOp, perform, effect, opKey in *.
  destruct (opType op); try done; rewrite Hop, Ho; cbn;
    (destruct (Z.eqb_spec g (gid skv)) as [->|Hne]; cbn;
      [destruct (hasShard _ _); cbn|]; (split; [naive_solver|]); intros Hn;
      first [exfalso; apply Hn; done | exists ErrWrongGroup; split_and!; [done|done|naive_solver]
            | exists ErrNotReady; split_and!; [done|done|naive_solver]]).
Qed.

Lemma effect_dom op m k : k ∈ dom (effect op m).1 → k ∈ dom m ∨ k = opKey op.
Proof. unfold effect. destruct (opType op); simpl; set_solver. Qed.

Lemma ginv_table skv m :
  ginv skv → (∀ k, k ∈ dom m → hasShard (Shards skv) (key2shard k) = true) → ginv (skv <| ShardKVMap := m |>).
Proof. intros [? ? ? ? ?] Hm. by split. Qed.

(** The session table after a request. *)
Definition record op err skv : ClientInfo :=
  mkClientInfo (<[ClientId op := ReqNo op]> (CompletedReq (Info skv)))
    (<[ClientId op := mkResult err "" 0 0]> (CompletedResult (Info skv))).

Lemma applyOp_client op skv :
  ginv skv → op_ok op → isClientOp op = true →
  (executedIn (Info skv) (ClientId op) (ReqNo op) → applyOp ord op skv = Some (skv, [])) ∧
  (¬ executedIn (Info skv) (ClientId op) (ReqNo op) → ∃ m err v,
     perform op skv = Some (m, err, v) ∧ ginv (skv <| ShardKVMap := m |>) ∧
     applyOp ord op skv = Some (skv <| ShardKVMap := m |> <| Info := record op err skv |>,
       match CompletedChan skv !! ClientId op with
       | Some ch => [(ch, mkResult err v (ClientId op) (ReqNo op))] | None => [] end)).
Proof.
  intros G Hop Hc. assert (applyOp ord op skv = if fresh_request op skv then doOperation op skv else Some (skv, [])) as ->.
  { unfold applyOp, isClientOp in *. by destruct (opType op). }
  destruct (perform_cases op skv G Hop Hc) as [Hyes Hno]. split.
  { by intros ->%fresh_request_executed. }
  intros HE. rewrite <-fresh_request_executed in HE. apply not_false_is_true in HE as ->. unfold doOperation.
  destruct (decide (serving (opKey op) skv)) as [HS|HS].
  - rewrite (Hyes HS). do 3 eexists. split_and!; [done| |done].
    apply ginv_table; [done|]. intros k [Hk| ->]%effect_dom; [by apply G|apply HS].
  - destruct (Hno HS) as (err & Herr & -> & Hiff). do 3 eexists. split_and!; [done| |done]. by apply (ginv_view skv).
Qed.

(** A request is executed by the group that owns the shard of its key and
    has its data, and by no other.  For a request that was not executed before,
    the owner applies it to the table and records success; elsewhere the table
    stays, the request is recorded as failed ([ErrWrongGroup] when the shard
    belongs to another group, [ErrNotReady] while its data is missing) and can be
    tried again.  A request executed before changes nothing.  The waiting handler
    is sent the result. *)
Theorem applyOp_request op skv :
  ginv skv → op_ok op → isClientOp op = true →
  ∃ skv' sends, applyOp ord op skv = Some (skv', sends) ∧ ginv skv' ∧
    CurConfig skv' = CurConfig skv ∧ LastConfig skv' = LastConfig skv ∧ Shards skv' = Shards skv ∧
    OutShardsDock skv' = OutShardsDock skv ∧ Config2ClientInfo skv' = Config2ClientInfo skv ∧
    (executedIn (Info skv) (ClientId op) (ReqNo op) → skv' = skv ∧ sends = []) ∧
    (¬ executedIn (Info skv) (ClientId op) (ReqNo op) → ∃ result,
       sends = match CompletedChan skv !! ClientId op with Some ch => [(ch, result)] | None => [] end ∧
       r_ClientId result = ClientId op ∧ r_ReqNo result = ReqNo op ∧
       (executedIn (Info skv') (ClientId op) (ReqNo op) ↔ serving (opKey op) skv) ∧
       (serving (opKey op) skv → (ShardKVMap skv', Value result) = effect op (ShardKVMap skv) ∧ Err result = OK) ∧
       (¬ serving (opKey op) skv → ShardKVMap skv' = ShardKVMap skv ∧ Err result ≠ OK ∧
          (Err result = ErrWrongGroup ↔ owner (CurConfig skv) (key2shard (opKey op)) ≠ Some (gid skv)))).
Proof.
  intros G Hop Hc. destruct (applyOp_client op skv G Hop Hc) as [Hdup Hnew].
  destruct (decide (executedIn (Info skv) (ClientId op) (ReqNo op))) as [HE|HE].
  { exists skv, []. rewrite (Hdup HE). naive_solver. }
  destruct (Hnew HE) as (m & err & v & Hp & Gm & ->). destruct (perform_cases op skv G Hop Hc) as [Hyes Hno].
  do 2 eexists. split; [done|]. split_and!; try done; [by eapply ginv_view, Gm|]. intros _. eexists. split; [done|].
  assert (executedIn (Info (skv <| Info := record op err skv |>)) (ClientId op) (ReqNo op) ↔ err = OK) as HR.
  { cbn. unfold record. rewrite record_executed by done. naive_solver lia. }
  destruct (decide (serving (opKey op) skv)) as [HS|HS].
  - rewrite (Hyes HS) in Hp. injection Hp as <- <- <-. split_and!; try done; [by split; intros; [|apply HR]|].
    intros _. split; [|done]. cbn. by destruct (effect _ _).
  - destruct (Hno HS) as (err' & Herr & Hp' & Hiff). rewrite Hp' in Hp. injection Hp as <- <- <-.
    split_and!; try done. split; [|done]. by intros ?%HR.
Qed.

(** The log never makes a server panic, and keeps the invariant. *)
Lemma applyOp_inv op skv :
  ginv skv → op_ok op → ∃ skv' sends, applyOp ord op skv = Some (skv', sends) ∧ ginv skv' ∧
    gid skv' = gid skv ∧ Num (CurConfig skv) <= Num (CurConfig skv') ∧
    (∀ n, n <= Num (CurConfig skv) → OutShardsDock skv' !! n = OutShardsDock skv !! n ∧
       Config2ClientInfo skv' !! n = Config2ClientInfo skv !! n) ∧
    (∀ c r, 1 <= r → executedIn (Info skv) c r → executedIn (Info skv') c r).
Proof.
  intros G Hop. destruct (isClientOp op) eqn:Hc.
  - destruct (applyOp_client op skv G Hop Hc) as [Hdup Hnew].
    destruct (decide (executedIn (Info skv) (ClientId op) (ReqNo op))) as [HE|HE].
    { exists skv, []. by rewrite (Hdup HE). }
    destruct (Hnew HE) as (m & err & v & Hp & Gm & ->). do 2 eexists. split; [done|].
    split_and!; try done; [by eapply ginv_view, Gm|]. intros c r _ HE'. apply record_executed; [done|by left].
  - unfold isClientOp, op_ok, applyOp in *. destruct (opType op); try done.
    + do 2 eexists. split; [done|]. split; [by apply doUpdateConfig_inv|].
      destruct (decide (switches (opConfig op) skv)) as [HS|HS];
        [|by rewrite (proj1 (doUpdateConfig_cases _ skv) HS)].
      destruct (proj2 (doUpdateConfig_cases _ skv) HS) as (Ec & El & Eg & Ei & Es & Em & Ed & Eci). destruct HS.
      split_and!; [done|rewrite Ec; lia| |by rewrite Ei].
      intros n Hn. rewrite Ed, Eci, !lookup_insert_ne by lia. done.
    + destruct (acceptShards_inv op skv G Hop) as (skv' & -> & G' & Eg & Ec & El & Ed & Eci & _ & _ & _ & HE).
      exists skv', []. cbn. split_and!; try done; [rewrite Ec; lia|by rewrite Ed, Eci|].
      intros c r Hr ?. apply HE; [done|by left].
Qed.

Lemma applyOps_inv ops skv :
  ginv skv → (∀ op, op ∈ ops → op_ok op) → ∃ skv', applyOps ops skv = Some skv' ∧ ginv skv' ∧
    gid skv' = gid skv ∧ Num (CurConfig skv) <= Num (CurConfig skv') ∧
    (∀ n, n <= Num (CurConfig skv) → OutShardsDock skv' !! n = OutShardsDock skv !! n ∧
       Config2ClientInfo skv' !! n = Config2ClientInfo skv !! n) ∧
    (∀ c r, 1 <= r → executedIn (Info skv) c r → executedIn (Info skv') c r).
Proof.
  revert skv. induction ops as [|op ops IH]; intros skv G Hops.
  { exists skv. split_and!; try done; lia. }
  destruct (applyOp_inv op skv G) as (s1 & sends & E1 & G1 & Eg1 & Hn1 & Hd1 & HE1); [apply Hops; by left|].
  destruct (IH s1 G1) as (s2 & E2 & G2 & Eg2 & Hn2 & Hd2 & HE2); [intros ? ?; apply Hops; by right|].
  exists s2. cbn [applyOps]. rewrite E1. cbn. split_and!; try done; [congruence|lia| |naive_solver].
  intros n Hn. destruct (Hd1 n Hn), (Hd2 n); [lia|]. split; congruence.
Qed.

(** C21: whatever the group commits, in whatever order, applying it never panics;
    the server then holds only keys of shards it has, has only shards its
    configuration gives it, its docks hold keys of the docked shard only, its
    configuration never goes back, and the docks of configurations it had reached
    stay as they were. *)
Theorem shardkv_invariant my r maxrs g ops1 ops2 :
  (∀ op, op ∈ ops1 ++ ops2 → op_ok op) →
  ∃ skv skv1 skv2, StartServer r my MakePersister maxrs g = Some skv ∧
    applyOps ops1 skv = Some skv1 ∧ applyOps ops2 skv1 = Some skv2 ∧ ginv skv1 ∧ ginv skv2 ∧
    Num (CurConfig skv1) <= Num (CurConfig skv2) ∧
    ∀ n, n <= Num (CurConfig skv1) → OutShardsDock skv2 !! n = OutShardsDock skv1 !! n.
Proof.
  intros Hops. eexists. destruct (applyOps_inv ops1
    (mkShardKV my r g maxrs 0 Config0 Config0 ∅ ∅ ClientInfo0 ∅ 0 ∅ ∅ ∅ 0)) as (s1 & E1 & G1 & _).
  { by split; simpl; try done; intros; rewrite ?dom_empty_L in *; set_solver. }
  { intros op Hop. apply Hops, elem_of_app. by left. }
  destruct (applyOps_inv ops2 s1 G1) as (s2 & E2 & G2 & _ & Hn & Hd & _).
  { intros op Hop. apply Hops, elem_of_app. by right. }
  exists s1, s2. split_and!; try done. intros n ?. by apply Hd.
Qed.

(** A request takes effect at most once in the log of a group.  After a
    copy of it was executed with success, no later copy changes the server in
    any way or is answered, whatever is committed in between: other requests,
    changes of configuration, shards and sessions from other groups. *)
Theorem request_once ops op op' skv skv1 sends :
  ginv skv → (∀ op, op ∈ ops → op_ok op) → op_ok op → op_ok op' →
  isClientOp op = true → isClientOp op' = true → 1 <= ReqNo op →
  ClientId op' = ClientId op → ReqNo op' = ReqNo op →
  serving (opKey op) skv → applyOp ord op skv = Some (skv1, sends) →
  ∃ skv2, applyOps ops skv1 = Some skv2 ∧ applyOp ord op' skv2 = Some (skv2, []).
Proof.
  intros G Hops Hop Hop' Hc Hc' Hr Ec Er HS HA.
  destruct (applyOp_client op skv G Hop Hc) as [Hdup Hnew].
  destruct (applyOp_inv op skv G Hop) as (? & ? & HA' & G1 & _). rewrite HA in HA'. injection HA' as <- <-.
  destruct (applyOps_inv ops skv1 G1 Hops) as (s2 & E2 & G2 & _ & _ & _ & HE2). exists s2. split; [done|].
  apply (applyOp_client op' s2); try done. rewrite Ec, Er. apply HE2; [done|].
  destruct (decide (executedIn (Info skv) (ClientId op) (ReqNo op))) as [HE|HE].
  - rewrite (Hdup HE) in HA. by injection HA as <- <-.
  - destruct (Hnew HE) as (m & err & v & Hp & _ & HA'). rewrite HA in HA'. injection HA' as -> ->.
    destruct (perform_cases op skv G Hop Hc) as [Hyes _]. rewrite (Hyes HS) in Hp. injection Hp as _ <- _.
    apply record_executed; [done|]. naive_solver.
Qed.

(** ** Handing a shard over *)

(** The shard leaves [skvA] for [skvB] when [cfg] takes effect. *)
Definition moves cfg skvA skvB (s : Z) : Prop :=
  hasShard (Shards skvA) s = true ∧ owner cfg s = Some (gid skvB) ∧ hasShard (Shards skvB) s = false.

(** The dock a change of configuration fills, as a later request finds it. *)
Lemma dock_persists cfg skvA ops :
  ginv skvA → zlen (ShardCtrler.Shards cfg) = NShards → switches cfg skvA → (∀ op, op ∈ ops → op_ok op) →
  ∃ skvA', applyOps ops (doUpdateConfig cfg skvA) = Some skvA' ∧ ginv skvA' ∧
    Config2ClientInfo skvA' !! Num cfg = Some (Info skvA) ∧
    OutShardsDock skvA' !! Num cfg = Some (list_to_map
      ((λ s, (s, mkShiftShard (Num cfg) s (shardMap s (ShardKVMap skvA)))) <$> outShards cfg skvA)).
Proof.
  intros G Hlen HS Hops. destruct (proj2 (doUpdateConfig_cases cfg skvA) HS) as (Ec & El & Eg & Ei & Es & Em & Ed & Eci).
  destruct (applyOps_inv ops (doUpdateConfig cfg skvA)) as (skvA' & E & G' & _ & _ & Hd & _);
    [by apply doUpdateConfig_inv|done|].
  exists skvA'. destruct (Hd (Num cfg)) as [-> ->]; [by rewrite Ec|]. by rewrite Ed, Eci, !lookup_insert_eq.
Qed.

(** What [ShardDock] answers from that dock. *)
Lemma ShardDock_reply cfg skvA skvA' ids :
  Config2ClientInfo skvA' !! Num cfg = Some (Info skvA) →
  OutShardsDock skvA' !! Num cfg = Some (list_to_map
    ((λ s, (s, mkShiftShard (Num cfg) s (shardMap s (ShardKVMap skvA)))) <$> outShards cfg skvA)) →
  (∃ s, s ∈ ids ∧ s ∈ outShards cfg skvA) →
  ∃ shifts, ShardDock (mkPull (Num cfg) ids) skvA' = mkPullReply true shifts (Info skvA) ∧
    ∀ sh, sh ∈ shifts ↔ ∃ s, s ∈ ids ∧ s ∈ outShards cfg skvA ∧
      sh = mkShiftShard (Num cfg) s (shardMap s (ShardKVMap skvA)).
Proof.
  intros Hi Hd (s & Hs & Ho). unfold ShardDock. cbn. rewrite Hd, Hi. cbn.
  set (dock := list_to_map _).
  assert (∀ sh, sh ∈ copyShard <$> omap (λ s, dock !! s) ids ↔ ∃ s, s ∈ ids ∧ s ∈ outShards cfg skvA ∧
    sh = mkShiftShard (Num cfg) s (shardMap s (ShardKVMap skvA))) as Hiff.
  { intros sh. rewrite list_elem_of_fmap. setoid_rewrite list_elem_of_omap. split.
    - intros (sh' & -> & x & Hx & Hl). unfold dock in Hl. rewrite outShards_lookup in Hl.
      destruct (decide _) as [?|?]; [|done]. injection Hl as <-. eauto.
    - intros (x & Hx & Hox & ->). eexists. split; [|exists x; split; [done|unfold dock; by rewrite outShards_lookup, decide_True]].
      done. }
  rewrite bool_decide_eq_false_2; [by eexists|]. intros Hnil. specialize (proj2 (Hiff _) (ex_intro _ s (conj Hs (conj Ho eq_refl)))).
  rewrite Hnil. by intros ?%elem_of_nil.
Qed.

(** C13: a shard moves with its data and its sessions.  The former owner [skvA]
    takes configuration [cfg] and then applies any commands; the new owner [skvB],
    in [cfg], asks it for shards and commits the answer.  Then [skvB] has every
    asked shard that moved to it, with exactly the keys and values [skvA] had when
    [cfg] took effect; the shards [skvB] had before are untouched; and a request
    that either of them had executed is not executed again. *)
Theorem shard_handover cfg skvA skvB ops ids s :
  ginv skvA → zlen (ShardCtrler.Shards cfg) = NShards → switches cfg skvA → (∀ op, op ∈ ops → op_ok op) →
  ginv skvB → CurConfig skvB = cfg → gid skvB ≠ gid skvA → s ∈ ids → moves cfg skvA skvB s →
  ∃ skvA' shifts info skvB',
    applyOps ops (doUpdateConfig cfg skvA) = Some skvA' ∧
    ShardDock (mkPull (Num cfg) ids) skvA' = mkPullReply true shifts info ∧
    applyOp ord (shardsOp shifts info) skvB = Some (skvB', []) ∧ ginv skvB' ∧
    (∀ s, s ∈ ids → moves cfg skvA skvB s →
       hasShard (Shards skvB') s = true ∧ holds s (ShardKVMap skvA) (ShardKVMap skvB')) ∧
    (∀ s, hasShard (Shards skvB) s = true →
       hasShard (Shards skvB') s = true ∧ holds s (ShardKVMap skvB) (ShardKVMap skvB')) ∧
    (∀ op, isClientOp op = true → op_ok op → 1 <= ReqNo op →
       executedIn (Info skvA) (ClientId op) (ReqNo op) ∨ executedIn (Info skvB) (ClientId op) (ReqNo op) →
       applyOp ord op skvB' = Some (skvB', [])).
Proof.
  intros GA Hlen HS Hops GB Ec Hne Hs Hm.
  assert (∀ s, moves cfg skvA skvB s → s ∈ outShards cfg skvA) as Hout.
  { intros x (? & Ho & ?). apply outShards_elem. split; [done|]. split; [rewrite Ho; congruence|by apply index_lt in Ho]. }
  destruct (dock_persists cfg skvA ops GA Hlen HS Hops) as (skvA' & EA & GA' & Hi & Hd).
  destruct (ShardDock_reply cfg skvA skvA' ids Hi Hd) as (shifts & ER & Hsh); [eauto|].
  destruct (acceptShards_inv (shardsOp shifts (Info skvA)) skvB GB)
    as (skvB' & EB & GB' & _ & _ & _ & _ & _ & Hold & Hnew & Hget & HE).
  { intros sh (x & _ & Hx & ->)%Hsh. cbn. apply outShards_elem in Hx as (_ & _ & Hx). split; [|by rewrite Hlen in Hx].
    intros k [v Hv]%elem_of_dom. cbn in *. rewrite shardMap_lookup in Hv. by destruct (decide _). }
  exists skvA', shifts, (Info skvA), skvB'. split_and!; try done.
  - change (applyOp _ _ _) with (skv ← acceptShards ord (shardsOp shifts (Info skvA)) skvB; Some (skv, @nil (nat * Result))).
    by rewrite EB.
  - intros x Hx Hmx. pose proof Hmx as (HhA & Ho & HhB).
    assert (hasShard (Shards skvB') x = true) as HhB'.
    { apply (Hget (mkShiftShard (Num cfg) x (shardMap x (ShardKVMap skvA)))); [apply Hsh; eauto|].
      unfold wanted. cbn. by rewrite Ec. }
    split; [done|]. destruct (Hnew x HhB HhB') as (sh & (y & _ & _ & ->)%Hsh & _ & Hy & Hh). cbn in *. subst y.
    intros k Hk. rewrite Hh by done. by rewrite shardMap_lookup, decide_True.
  - intros op Hc Hop Hr Hex. apply (applyOp_client op skvB'); try done. apply HE; naive_solver.
Qed.

End group.
