(* ===== verification/ShardService.v ===== *)
(** * The life of a shardkv server beside its log

    Snapshots and restarts, the garbage collection of docks and the counterexample
    to it, the commands a server proposes to make progress, and the clerk's loop. *)

From S2P Require Import Prelude LabGob Persister Raft RaftLog RaftState RaftApi Dedup Clerk ShardCtrler Rebalance ShardKV Migration.

(** ** Snapshots *)

Section snapshots.
Context {R : Type} `{!RaftApi Op R} `{!Gob SnapshotState} (ord : Order).
Implicit Types (skv : ShardKV R) (op : Op).

(** The same state of the service: table, shards, configurations, sessions, the
    docks with the sessions that go with them, what is known of the other groups,
    and how much of the log is applied. *)
Record agrees skv1 skv2 : Prop := {
  ag_ShardKVMap : ShardKVMap skv1 = ShardKVMap skv2;
  ag_Shards : Shards skv1 = Shards skv2;
  ag_CurConfig : CurConfig skv1 = CurConfig skv2;
  ag_LastConfig : LastConfig skv1 = LastConfig skv2;
  ag_Info : Info skv1 = Info skv2;
  ag_OutShardsDock : OutShardsDock skv1 = OutShardsDock skv2;
  ag_Config2ClientInfo : Config2ClientInfo skv1 = Config2ClientInfo skv2;
  ag_Gid2UnCompletedConfigNum : Gid2UnCompletedConfigNum skv1 = Gid2UnCompletedConfigNum skv2;
  ag_CommitedId : CommitedId skv1 = CommitedId skv2;
}.

(** Both panicked, or both run on in agreement. *)
Definition oagrees (o1 o2 : option (ShardKV R)) : Prop :=
  match o1, o2 with
  | Some s1, Some s2 => agrees s1 s2
  | None, None => True
  | _, _ => False
  end.

(** Two servers of a group that are in the same state of the service: they may
    differ in their Raft peers and in the handlers waiting at them. *)
Record sim skv1 skv2 : Prop := {
  sim_gid : gid skv1 = gid skv2;
  sim_state : agrees skv1 skv2;
  sim_rf1 : rf_ok (rf skv1);
  sim_rf2 : rf_ok (rf skv2);
}.

(** The same of a step with a result. *)
Definition osim {A} (o1 o2 : option (ShardKV R * A)) : Prop :=
  match o1, o2 with
  | Some (s1, _), Some (s2, _) => sim s1 s2
  | None, None => True
  | _, _ => False
  end.

Ltac sim_destruct H :=
  let E1 := fresh in let E2 := fresh in
  destruct H as [E1 E2 ? ?]; destruct E2;
  match goal with s1 : ShardKV R, s2 : ShardKV R |- _ => destruct s1, s2 end;
  simpl in *; simplify_eq.

Lemma acceptShard_sim sh skv1 skv2 :
  sim skv1 skv2 → match acceptShard sh skv1, acceptShard sh skv2 with
                  | Some s1, Some s2 => sim s1 s2 | None, None => True | _, _ => False end.
Proof.
  intros H. sim_destruct H. unfold acceptShard. cbn. destruct (negb _); [by split|].
  destruct (owner _ _); [|done]. cbn. destruct (_ || _); by split.
Qed.

Lemma acceptAll_sim shs skv1 skv2 :
  sim skv1 skv2 → match acceptAll shs skv1, acceptAll shs skv2 with
                  | Some s1, Some s2 => sim s1 s2 | None, None => True | _, _ => False end.
Proof.
  revert skv1 skv2. induction shs as [|sh shs IH]; intros skv1 skv2 H; [done|]. cbn.
  pose proof (acceptShard_sim sh _ _ H). destruct (acceptShard sh skv1), (acceptShard sh skv2); try done. cbn. by apply IH.
Qed.

Lemma doOperation_sim op skv1 skv2 : sim skv1 skv2 → osim (doOperation op skv1) (doOperation op skv2).
Proof.
  intros H. unfold doOperation. assert (perform op skv1 = perform op skv2) as ->.
  { pose proof H as [Hg [Hm Hs Hc _ _ _ _ _ _] _ _]. unfold perform. by rewrite Hg, Hc, Hs, Hm. }
  destruct (perform op skv2) as [[[m err] v]|]; [|done]. sim_destruct H. by split.
Qed.

Lemma applyOp_sim op skv1 skv2 : sim skv1 skv2 → osim (applyOp ord op skv1) (applyOp ord op skv2).
Proof.
  intros H. unfold applyOp.
  assert (Info skv1 = Info skv2) as Hi by apply H.
  assert (fresh_request op skv1 = fresh_request op skv2) as HF by (unfold fresh_request; by rewrite Hi).
  destruct (opType op); try (rewrite HF; destruct (fresh_request op skv2); [by apply doOperation_sim|exact H]).
  - unfold doUpdateConfig. pose proof H as [Hg [_ Hs Hc _ _ _ _ _ _] _ _].
    assert (isMigrateFinished skv1 = isMigrateFinished skv2) as -> by (unfold isMigrateFinished, missing; by rewrite Hg, Hc, Hs).
    rewrite Hc. destruct (_ <=? _); [exact H|]. destruct (negb _); [exact H|]. clear -H. sim_destruct H. by split.
  - unfold acceptShards. pose proof (acceptAll_sim (ShiftShards op) _ _ H).
    destruct (acceptAll _ skv1), (acceptAll _ skv2); try done. cbn.
    match goal with H : sim _ _ |- _ => clear -H; rename H into H0 end. sim_destruct H0. by split.
Qed.

Lemma sim_sym skv1 skv2 : sim skv1 skv2 → sim skv2 skv1.
Proof. intros [? [] ? ?]. by split; [|split|..]. Qed.

(** What [applyLog] does with a sequence of messages. *)
Fixpoint applyAll (msgs : list (ApplyMsg Op)) skv : option (ShardKV R) :=
  match msgs with
  | [] => Some skv
  | msg :: msgs => '(skv, _) ← applyLog ord msg skv; applyAll msgs skv
  end.

(** Reading a snapshot gives the state it was made from. *)
Lemma ReadSnapshot_sim skv1 skv2 :
  rf_ok (rf skv1) → rf_ok (rf skv2) → gid skv1 = gid skv2 →
  ∃ skv2', ReadSnapshot (gob_encode (snapshotState skv1)) skv2 = Some skv2' ∧ sim skv1 skv2'.
Proof.
  intros H1 H2 Hg. unfold ReadSnapshot. rewrite bool_decide_eq_false_2 by apply gob_encode_nonempty.
  rewrite gob_decode_encode. unfold snapshotState at 1. cbn.
  destruct (rf_Snapshot_law (CommitedId skv1) (gob_encode (snapshotState skv1)) _ H2) as (r & -> & Hr & _).
  eexists. by split.
Qed.

Lemma ReadSnapshot_agree data skv1 skv2 :
  sim skv1 skv2 → ∃ s1 s2, ReadSnapshot data skv1 = Some s1 ∧ ReadSnapshot data skv2 = Some s2 ∧ sim s1 s2.
Proof.
  intros H. unfold ReadSnapshot. destruct (bool_decide _); [eauto|].
  destruct (gob_decode data) as [[[[[[[[[]]]]]]]]|]; [|eauto]. cbn.
  edestruct (rf_Snapshot_law z data (rf skv1)) as (r1 & -> & ? & _); [apply H|].
  edestruct (rf_Snapshot_law z data (rf skv2)) as (r2 & -> & ? & _); [apply H|].
  do 2 eexists. split_and!; [done..|]. split; [by apply (sim_gid _ _ H)|done..].
Qed.

Lemma applyLog_sim msg skv1 skv2 : sim skv1 skv2 → osim (applyLog ord msg skv1) (applyLog ord msg skv2).
Proof.
  intros H. unfold applyLog. destruct (CommandValid msg).
  - destruct (MsgCommand msg) as [op|]; [|done]. cbn. pose proof (applyOp_sim op _ _ H) as HA.
    destruct (applyOp ord op skv1) as [[s1 ?]|], (applyOp ord op skv2) as [[s2 ?]|]; try done. cbn in *.
    clear -HA. sim_destruct HA. by split.
  - assert (CommitedId skv1 = CommitedId skv2) as -> by apply H.
    destruct (_ && _); [|done]. destruct (ReadSnapshot_agree (Snapshot_ msg) _ _ H) as (s1 & s2 & -> & -> & ?). done.
Qed.

Lemma applyAll_sim msgs skv1 skv2 :
  sim skv1 skv2 → oagrees (applyAll msgs skv1) (applyAll msgs skv2).
Proof.
  revert skv1 skv2. induction msgs as [|msg msgs IH]; intros skv1 skv2 H; cbn.
  { apply H. }
  pose proof (applyLog_sim msg _ _ H) as HL.
  destruct (applyLog ord msg skv1) as [[s1 ?]|], (applyLog ord msg skv2) as [[s2 ?]|]; try done. cbn. by apply IH.
Qed.

(** C24: a snapshot stands for the log it was made from.  When the Raft state of
    a server has grown too large, [Snapshot] hands its state to Raft, for the
    index it has applied.  A server of the group that is behind and receives
    that snapshot, and a server started from stable storage that holds it, have
    the same table, shards, configurations, sessions, docks and commit index as
    its maker, and stay so: whatever the log brings next, they agree with the
    maker after it, or panic with it. *)
Theorem shard_snapshot_replay skv1 skv2 r st idx term my maxrs :
  rf_ok (rf skv1) → rf_ok (rf skv2) → rf_ok r → gid skv1 = gid skv2 → CommitedId skv2 < idx →
  let data := gob_encode (snapshotState skv1) in
  Snapshot skv1 =
    (if bool_decide (maxraftstate skv1 ≠ -1 ∧ maxraftstate skv1 <= rf_StateSize (rf skv1))
     then r' ← rf_Snapshot (CommitedId skv1) data (rf skv1); Some (skv1 <| rf := r' |>)
     else Some skv1) ∧
  ∃ skv2' skv3, applyLog ord (mkApplyMsg false None 0 true data term idx) skv2 = Some (skv2', []) ∧
    StartServer r my (mkPersister st data) maxrs (gid skv1) = Some skv3 ∧
    ∀ msgs, oagrees (applyAll msgs skv2') (applyAll msgs skv1) ∧
      oagrees (applyAll msgs skv3) (applyAll msgs skv1).
Proof.
  intros H1 H2 Hr Hg Hidx data. destruct (ReadSnapshot_sim skv1 skv2 H1 H2 Hg) as (skv2' & E2 & S2).
  edestruct (ReadSnapshot_sim skv1 (mkShardKV my r (gid skv1) maxrs 0 Config0 Config0 ∅ ∅ ClientInfo0 ∅ 0 ∅ ∅ ∅ 0))
    as (skv3 & E3 & S3); [done..|].
  split.
  { unfold Snapshot. destruct (Z.eqb_spec (maxraftstate skv1) (-1)), (Z.ltb_spec (rf_StateSize (rf skv1)) (maxraftstate skv1));
      simpl; case_bool_decide; done || lia. }
  exists skv2', skv3. split_and!.
  - unfold applyLog. cbn [CommandValid SnapshotValid SnapshotIndex Snapshot_]. rewrite (proj2 (Z.ltb_lt _ _) Hidx). cbn.
    fold data in E2. by rewrite E2.
  - unfold StartServer. unfold Persister.ReadSnapshot. by rewrite clone_id.
  - intros msgs. split; apply applyAll_sim; by apply sim_sym.
Qed.

End snapshots.

(** ** Garbage collection *)

Lemma lowest_from entries a :
  1 <= a → (∀ g n, (g, n) ∈ entries → 1 <= n) →
  let l := foldl (λ lowest '(_, configNum), if lowest =? 0 then configNum else min lowest configNum) a entries in
  1 <= l <= a ∧ (l = a ∨ ∃ g, (g, l) ∈ entries) ∧ ∀ g n, (g, n) ∈ (entries : list (Z * Z)) → l <= n.
Proof.
  revert a. induction entries as [|[g n] entries IH]; intros a Ha Hpos; cbn -[Z.eqb].
  { split; [lia|]. split; [by left|]. by intros ? ? ?%elem_of_nil. }
  rewrite (proj2 (Z.eqb_neq a 0)) by lia. assert (1 <= n) by (apply (Hpos g); by left).
  destruct (IH (min a n)) as (H1 & H2 & H3).
  { unfold min. zbool_lia. }
  { intros g' n' ?. apply (Hpos g'). by right. }
  assert (min a n <= a ∧ min a n <= n ∧ (min a n = a ∨ min a n = n)) as (? & ? & Hm) by (unfold min; zbool; lia).
  split; [lia|]. split.
  - destruct H2 as [->|[g' ?]]; [|right; exists g'; by right]. destruct Hm as [->| ->]; [by left|right; exists g; by left].
  - intros g' n' [[= -> ->]|?]%elem_of_cons; [lia|]. by apply (H3 g').
Qed.

(** [clean] computes the least number a group has reported. *)
Lemma lowest_spec entries :
  entries ≠ [] → (∀ g n, (g, n) ∈ entries → 1 <= n) →
  (∃ g, (g, lowestConfigNum entries) ∈ entries) ∧ ∀ g n, (g, n) ∈ entries → lowestConfigNum entries <= n.
Proof.
  destruct entries as [|[g n] entries]; [done|]. intros _ Hpos.
  change (lowestConfigNum ((g, n) :: entries)) with
    (foldl (λ lowest '(_, configNum), if lowest =? 0 then configNum else min lowest configNum) n entries).
  destruct (lowest_from entries n) as (H1 & H2 & H3).
  { apply (Hpos g). by left. }
  { intros g' n' ?. apply (Hpos g'). by right. }
  split.
  - destruct H2 as [->|[g' ?]]; [exists g; by left|exists g'; by right].
  - intros g' n' [[= -> ->]|?]%elem_of_cons; [lia|]. by apply (H3 g').
Qed.

Section gc.
Context {R : Type} `{!RaftApi Op R} (ord : Order) (HO : valid_order ord).
Implicit Types (skv : ShardKV R).

(** The group still has to pull the shards that reach it in configuration [n]. *)
Definition needs (n : Z) skv : Prop :=
  Num (CurConfig skv) < n ∨ (Num (CurConfig skv) = n ∧ missing skv ≠ []).

(** What a group reports is at most the configuration it still needs. *)
Lemma Hello_needs n k skv : needs n skv → Hello skv = mkHelloReply k true → k <= n.
Proof.
  unfold Hello, isMigrateFinished. intros Hn. destruct (negb _); [done|]. cbn.
  case_bool_decide; intros [= <-]; destruct Hn as [?|[? ?]]; try done; lia.
Qed.

(** C27: garbage collection keeps what a group it has heard from needs, and
    drops what every group it has heard from is done with.  With [k] the number
    another group's leader answered to [Hello], or an older answer of it, the
    dock and the sessions of a configuration that group still needs survive
    [clean]; the docks below every recorded number are gone; the rest of the
    server is unchanged. *)
Theorem clean_correct skv :
  (∀ g k, Gid2UnCompletedConfigNum skv !! g = Some k → 1 <= k) → Gid2UnCompletedConfigNum skv ≠ ∅ →
  let skv' := clean ord skv in
  (∀ g k n k' other, Gid2UnCompletedConfigNum skv !! g = Some k →
     Hello other = mkHelloReply k' true → k <= k' → needs n other →
     OutShardsDock skv' !! n = OutShardsDock skv !! n ∧ Config2ClientInfo skv' !! n = Config2ClientInfo skv !! n) ∧
  (∀ n, (∀ g k, Gid2UnCompletedConfigNum skv !! g = Some k → n < k) →
     OutShardsDock skv' !! n = None ∧ Config2ClientInfo skv' !! n = None) ∧
  skv' = skv <| OutShardsDock := OutShardsDock skv' |> <| Config2ClientInfo := Config2ClientInfo skv' |>.
Proof.
  intros Hpos Hne skv'. destruct (lowest_spec (ord 10 _ (Gid2UnCompletedConfigNum skv))) as [[g0 Hg0] Hlow].
  { intros Hnil. apply Hne, map_eq. intros g. rewrite lookup_empty. destruct (_ !! g) as [k|] eqn:E; [|done].
    apply (ord_elem ord 10) in E; [|done]. rewrite Hnil in E. by apply elem_of_nil in E. }
  { intros g n Hin%ord_elem; [|done]. eauto. }
  apply ord_elem in Hg0; [|done]. unfold skv', clean. cbn. set (low := lowestConfigNum _) in *.
  split; [|split; [|by destruct skv]].
  - intros g k n k' other Hk HH Hle Hn. pose proof (Hello_needs n k' other Hn HH).
    assert (¬ n < low) by (specialize (Hlow g k); rewrite ord_elem in Hlow by done; specialize (Hlow Hk); lia).
    rewrite !map_lookup_filter. split.
    + destruct (OutShardsDock skv !! n); [cbn; by rewrite option_guard_True|done].
    + destruct (Config2ClientInfo skv !! n); [cbn; by rewrite option_guard_True|done].
  - intros n Hn. pose proof (Hn _ _ Hg0). rewrite !map_lookup_filter. split.
    + destruct (OutShardsDock skv !! n); [cbn; by rewrite option_guard_False by (intros []; done)|done].
    + destruct (Config2ClientInfo skv !! n); [cbn; by rewrite option_guard_False by (intros []; done)|done].
Qed.

End gc.

(** ** Asking for missing shards *)

Section pulling.
Context {R : Type} `{!RaftApi Op R} (ord : Order) (HO : valid_order ord).
Implicit Types (skv : ShardKV R) (cfg : Config).

(** The table from groups to the shards to ask them for. *)
Definition byGroup (pairs : list (Z * Z)) : gmap Z (list Z) :=
  foldl (λ m '(s, g), <[g := default [] (m !! g) ++ [s]]> m) ∅ pairs.

Lemma byGroup_lookup pairs g :
  default [] (byGroup pairs !! g) = (filter (λ x, x.2 = g) pairs).*1 ∧
  (is_Some (byGroup pairs !! g) → (filter (λ x, x.2 = g) pairs).*1 ≠ []).
Proof.
  unfold byGroup. induction pairs as [|[s h] pairs IH] using rev_ind.
  { cbn. rewrite lookup_empty. split; [done|]. by intros []. }
  rewrite foldl_app, filter_app, fmap_app. cbn [foldl]. rewrite filter_cons. cbn [snd].
  destruct (decide (h = g)) as [->|Hne]; cbn.
  - rewrite lookup_insert_eq. cbn. rewrite (proj1 IH). split; [done|]. intros _. by destruct (filter _ _).*1.
  - rewrite lookup_insert_ne, !app_nil_r by done. done.
Qed.

Lemma missing_elem skv s :
  s ∈ missing skv ↔ owner (CurConfig skv) s = Some (gid skv) ∧ hasShard (Shards skv) s = false.
Proof.
  unfold missing. rewrite list_elem_of_filter, upto_elem. split; [naive_solver|].
  intros [Ho ?]. split; [done|]. by apply index_lt in Ho.
Qed.

(** A leader asks for what it misses, and the right group for it.  While
    shards of the current configuration are missing and there was a configuration
    before it, a round of [checkMissShards] does not panic and starts pulls whose
    shards are exactly the missing ones; each goes to the servers of the group
    that owned the shards in the previous configuration and names the current one.
    Other servers, and a leader that misses nothing, start nothing. *)
Theorem checkMissShards_correct skv :
  ginv skv →
  ((rf_GetState (rf skv)).2 = false ∨ missing skv = [] → checkMissShards ord skv = Some []) ∧
  ((rf_GetState (rf skv)).2 = true → missing skv ≠ [] → owner (LastConfig skv) 0 ≠ Some 0 →
   ∃ pulls, checkMissShards ord skv = Some ((λ '(g, ids),
       PullFrom (default [] (Groups (LastConfig skv) !! g)) (Num (CurConfig skv)) ids) <$> pulls) ∧
     NoDup pulls.*1 ∧
     (∀ g ids, (g, ids) ∈ pulls → ids ≠ []) ∧
     ∀ s, s ∈ missing skv ↔ ∃ g ids, (g, ids) ∈ pulls ∧ s ∈ ids ∧ owner (LastConfig skv) s = Some g).
Proof.
  intros G. unfold checkMissShards, isMigrateFinished. cbn [fst snd]. split.
  { intros [->| ->]; [done|]. by destruct (negb _). }
  intros -> Hm H0. cbn [negb]. rewrite bool_decide_eq_false_2 by done. unfold pullShards.
  assert (∀ s, 0 <= s < NShards → is_Some (owner (LastConfig skv) s)) as Hown.
  { intros s Hs. apply index_is_Some. by rewrite (gi_last _ G). }
  destruct (Hown 0) as [g0 Hg0]; [done|]. rewrite Hg0 in H0 |- *. cbn [mbind option_bind].
  rewrite (proj2 (Z.eqb_neq g0 0)) by congruence.
  destruct (mapM_total (owner (LastConfig skv)) (missing skv)) as [gids Hgids].
  { intros s [Ho _]%missing_elem. apply Hown. apply index_lt in Ho. by rewrite (gi_cfg _ G) in Ho. }
  rewrite Hgids. cbn [mbind option_bind]. fold (byGroup (zip (missing skv) gids)). eexists. split; [done|].
  apply mapM_Some in Hgids.
  assert (∀ g ids, (g, ids) ∈ ord 12 _ (byGroup (zip (missing skv) gids)) →
    ids = (filter (λ x, x.2 = g) (zip (missing skv) gids)).*1 ∧ ids ≠ []) as Hids.
  { intros g ids Hin%ord_elem; [|done]. destruct (byGroup_lookup (zip (missing skv) gids) g) as [H1 H2].
    rewrite Hin in H1, H2. cbn in H1. split; [done|]. rewrite H1. apply H2. eauto. }
  assert (∀ s g, (s, g) ∈ zip (missing skv) gids → s ∈ missing skv ∧ owner (LastConfig skv) s = Some g) as Hzip.
  { intros s g Hin. split; [by eapply elem_of_zip_l|]. apply list_elem_of_lookup in Hin as [i Hi].
    apply lookup_zip_Some in Hi as [H1 H2]. by eapply Forall2_lookup_lr in Hgids. }
  split_and!; [by apply ord_NoDup|naive_solver|]. intros s. split.
  - intros Hs. apply list_elem_of_lookup in Hs as [i Hi].
    destruct (Forall2_lookup_l _ _ _ _ _ Hgids Hi) as (g & Hg & Ho).
    assert ((s, g) ∈ zip (missing skv) gids) as Hin by (eapply list_elem_of_lookup_2, lookup_zip_Some; eauto).
    destruct (byGroup_lookup (zip (missing skv) gids) g) as [H1 _].
    assert (s ∈ default [] (byGroup (zip (missing skv) gids) !! g)) as Hs.
    { rewrite H1. apply list_elem_of_fmap. exists (s, g). split; [done|]. by apply list_elem_of_filter. }
    destruct (byGroup _ !! g) as [ids|] eqn:E; [|by apply elem_of_nil in Hs].
    exists g, ids. split_and!; [by apply ord_elem|done|done].
  - intros (g & ids & [-> _]%Hids & ([s' g'] & -> & [_ Hin]%list_elem_of_filter)%list_elem_of_fmap & _). by eapply Hzip.
Qed.

End pulling.

(** ** The clerk *)

Section clerk.
Context {Reply A : Type} (err : Reply → string) (good : Reply → option A).
Context (call : nat → string → option Reply) (query : nat → Config) (shard : Z).

(** A pass ends with the good answer of a server of the group. *)
Lemma groupPass_sound (c : string → option Reply) servers a :
  groupPass err good c servers = PassDone a →
  ∃ server reply, server ∈ servers ∧ c server = Some reply ∧ good reply = Some a.
Proof.
  induction servers as [|server servers IH]; cbn; [done|].
  destruct (c server) as [reply|] eqn:Ec; [|set_solver].
  destruct (good reply) as [a'|] eqn:Eg; [|destruct (String.eqb _ _); [done|set_solver]].
  intros [= ->]. exists server, reply. set_solver.
Qed.

(** Some server of the group gives a good answer and none sends the clerk away. *)
Definition answers (c : string → option Reply) (servers : list string) : Prop :=
  (∃ server reply a, server ∈ servers ∧ c server = Some reply ∧ good reply = Some a) ∧
  (∀ server reply, server ∈ servers → c server = Some reply → good reply = None → err reply ≠ ErrWrongGroup).

Lemma groupPass_live c servers : answers c servers → ∃ a, groupPass err good c servers = PassDone a.
Proof.
  induction servers as [|server servers IH]; intros [(sv & reply & a & Hin & Hc & Hg) Hno]; [by apply elem_of_nil in Hin|].
  cbn. destruct (decide (∃ a, c server ≫= good = Some a)) as [[a' Ha]|Hbad].
  - destruct (c server) as [r|]; [|done]. cbn in Ha. rewrite Ha. eauto.
  - assert (groupPass err good c (server :: servers) = groupPass err good c servers) as E.
    { cbn. destruct (c server) as [r|] eqn:Ec; [|done]. cbn in Hbad. destruct (good r) eqn:Eg; [naive_solver|].
      destruct (String.eqb_spec (err r) ErrWrongGroup); [|done]. exfalso. apply (Hno server r); [by left|done..]. }
    cbn in E. rewrite E. apply IH. split; [|intros; eapply Hno; [by right|done..]].
    apply elem_of_cons in Hin as [->|Hin]; [|by exists sv, reply, a]. exfalso. apply Hbad. exists a. by rewrite Hc.
Qed.

(** The clerk's configuration leads it to a group that answers. *)
Definition leads (n : nat) (cfg : Config) : Prop :=
  ∃ g servers, owner cfg shard = Some g ∧ Groups cfg !! g = Some servers ∧ answers (call n) servers.

Lemma clerkLoop_sound fuel n cfg a cfg' :
  clerkLoop err good call query fuel n shard cfg = Some (a, cfg') →
  ∃ k g servers server reply, owner cfg' shard = Some g ∧ Groups cfg' !! g = Some servers ∧
    server ∈ servers ∧ call k server = Some reply ∧ good reply = Some a.
Proof.
  revert n cfg. induction fuel as [|fuel IH]; intros n cfg; cbn [clerkLoop]; [done|].
  destruct (owner cfg shard) as [g|] eqn:Eo; [|done]. cbn [mbind option_bind].
  destruct (Groups cfg !! g) as [servers|] eqn:Es; [|by intros ?%IH].
  destruct (groupPass _ _ _ _) as [a'|] eqn:Ep; [|by intros ?%IH]. intros [= <- <-].
  apply groupPass_sound in Ep as (server & reply & ? & ? & ?). by exists n, g, servers, server, reply.
Qed.

Lemma clerkLoop_live d fuel n cfg :
  is_Some (owner cfg shard) → (∀ k, is_Some (owner (query k) shard)) →
  leads (S (n + d)) (query (n + d)%nat) → (d + 2 <= fuel)%nat →
  is_Some (clerkLoop err good call query fuel n shard cfg).
Proof.
  revert fuel n cfg. induction d as [|d IH]; intros fuel n cfg [g Hg] Hq Hlead Hfuel.
  - destruct fuel as [|[|fuel]]; [lia..|]. cbn [clerkLoop]. rewrite Hg. cbn [mbind option_bind].
    destruct (match Groups cfg !! g with Some _ => _ | None => _ end); [eauto|].
    rewrite Nat.add_0_r in Hlead. destruct Hlead as (g' & servers & -> & Hgr & [a Ha]%groupPass_live).
    cbn [mbind option_bind]. rewrite Hgr, Ha. eauto.
  - destruct fuel as [|fuel]; [lia|]. cbn [clerkLoop]. rewrite Hg. cbn [mbind option_bind].
    destruct (match Groups cfg !! g with Some _ => _ | None => _ end); [eauto|].
    apply IH; [done|done| |lia]. by rewrite <-Nat.add_succ_comm in Hlead.
Qed.

End clerk.

(** C29: the clerk finds the owner.  Suppose the controller's configurations
    assign every shard, and in some round the newest configuration names a group
    whose servers, asked in the next pass, include one that answers and none that
    refuses the shard.  Then [Get] returns by that pass, and what it returns is the
    value of a successful reply to this very request (a new sequence number, the
    clerk's id, the key's shard) from a server of the group that the clerk's
    configuration then has as the owner of the key. *)
Theorem clerkGet_finds_owner (call : GetArgs → nat → string → option GetReply) query key seq ck d :
  let args := mkGet key (key2shard key) (ck_me ck) (wrap64 (seq + 1)) in
  let good := λ r, if String.eqb (gr_Err r) OK || String.eqb (gr_Err r) ErrNoKey then Some (gr_Value r) else None in
  zlen (ShardCtrler.Shards (ck_config ck)) = NShards → (∀ n, zlen (ShardCtrler.Shards (query n)) = NShards) →
  leads gr_Err good (call args) (key2shard key) (S d) (query d) →
  ∃ v ck', clerkGet call query (d + 2) key seq ck = Some (v, ck', wrap64 (seq + 1)) ∧ ck_me ck' = ck_me ck ∧
    ∃ k g servers server reply, owner (ck_config ck') (key2shard key) = Some g ∧
      Groups (ck_config ck') !! g = Some servers ∧ server ∈ servers ∧
      call args k server = Some reply ∧ gr_Value reply = v ∧ (gr_Err reply = OK ∨ gr_Err reply = ErrNoKey).
Proof.
  intros args good Hck Hq Hlead.
  assert (∀ cfg, zlen (ShardCtrler.Shards cfg) = NShards → is_Some (owner cfg (key2shard key))) as Hown.
  { intros cfg E. apply index_is_Some. rewrite E. apply key2shard_range. }
  destruct (clerkLoop_live gr_Err good (call args) query (key2shard key) d (d + 2) 0 (ck_config ck)) as [[v cfg] HL];
    [by apply Hown|by intros; apply Hown|done|lia|].
  exists v, (mkClerk cfg (ck_me ck) (ck_reqNo ck)). unfold clerkGet. fold args good. rewrite HL. split_and!; [done..|].
  apply clerkLoop_sound in HL as (k & g & servers & server & reply & H1 & H2 & H3 & H4 & H5).
  exists k, g, servers, server, reply. unfold good in H5. cbn [ck_config].
  destruct (String.eqb_spec (gr_Err reply) OK), (String.eqb_spec (gr_Err reply) ErrNoKey); cbn in H5; naive_solver.
Qed.

(** ** Runs *)

Module ShardExamples.

#[local] Instance wire_config : Wire Config :=
  wire_iso (λ c, (Num c, ShardCtrler.Shards c, Groups c)) (λ '(n, s, g), mkConfig n s g) (λ '(mkConfig _ _ _), eq_refl).
#[local] Instance wire_result : Wire Result :=
  wire_iso (λ r, (Err r, Value r, r_ClientId r, r_ReqNo r)) (λ '(e, v, c, n), mkResult e v c n) (λ '(mkResult _ _ _ _), eq_refl).
#[local] Instance wire_shift : Wire ShiftShard :=
  wire_iso (λ s, (ss_ConfigNum s, ss_ShardId s, ss_KVMap s)) (λ '(n, s, m), mkShiftShard n s m) (λ '(mkShiftShard _ _ _), eq_refl).
#[local] Instance wire_info : Wire ClientInfo :=
  wire_iso (λ i, (CompletedReq i, CompletedResult i)) (λ '(r, s), mkClientInfo r s) (λ '(mkClientInfo _ _), eq_refl).
#[local] Instance wire_getargs : Wire GetArgs :=
  wire_iso (λ a, (ga_Key a, ga_ShardId a, ga_ClientId a, ga_ReqNo a)) (λ '(k, s, c, n), mkGet k s c n) (λ '(mkGet _ _ _ _), eq_refl).
#[local] Instance wire_paargs : Wire PutAppendArgs :=
  wire_iso (λ a, (pa_Key a, pa_Value a, pa_Op a, pa_ShardId a, pa_ClientId a, pa_ReqNo a))
    (λ '(k, v, o, s, c, n), mkPA k v o s c n) (λ '(mkPA _ _ _ _ _ _), eq_refl).
#[local] Instance wire_optype : Wire OpType :=
  wire_iso (λ t, match t with GET => 0 | PUT => 1 | APPEND => 2 | CONFIG => 3 | SHARDS => 4 end)
    (λ z, if z =? 0 then GET else if z =? 1 then PUT else if z =? 2 then APPEND else if z =? 3 then CONFIG else SHARDS)
    (λ t, match t with GET | PUT | APPEND | CONFIG | SHARDS => eq_refl end).
#[local] Instance wire_op : Wire Op :=
  wire_iso (λ o, (opType o, GetArg o, PutAppendArg o, ClientId o, ReqNo o, opConfig o, ShiftShards o, opClientInfo o))
    (λ '(t, g, p, c, n, cf, s, i), mkOp t g p c n cf s i) (λ '(mkOp _ _ _ _ _ _ _ _), eq_refl).
#[local] Instance gobPeer : Gob (PersistentState Op) := wire_gob _.
#[local] Instance gobState : Gob SnapshotState := wire_gob _.

Definition plain : Order := λ _ V m, map_to_list m.
Lemma plain_valid : valid_order plain.
Proof. by intros s V m. Qed.

(** A fresh Raft peer, one that leads term 1, and a server of group [g] on it. *)
Definition peer0 : Raft Op := Make (mkEnv 0 0) 3 0 MakePersister.
Definition leader0 : Raft Op := peer0 <| State := Leader |> <| CurrentTerm := 1 |>.
Definition server (g : Z) : ShardKV (Raft Op) :=
  mkShardKV 0 leader0 g (-1) 0 Config0 Config0 ∅ ∅ ClientInfo0 ∅ 0 ∅ ∅ ∅ 0.

Lemma shard_peer_ok : rf_ok peer0.
Proof. apply Make_inv; [lia|by left]. Qed.

Lemma shard_leader_ok : rf_ok leader0.
Proof.
  assert (inv peer0) as I by apply shard_peer_ok. apply (inv_frame peer0); [done| |by left].
  by apply (wf_views peer0), I.
Qed.

(** Configuration 1 gives every shard to group 100, configuration 2 gives shard 0,
    the shard of key "x", to group 101; groups 102 and 103 own nothing yet. *)
Definition groups : gmap Z (list string) := {[100 := ["a"]; 101 := ["b"]; 102 := ["c"]; 103 := ["d"]]}.
Definition cfg1 : Config := mkConfig 1 (replicate 10 100) groups.
Definition cfg2 : Config := mkConfig 2 (101 :: replicate 9 100) groups.

Definition configOp (cfg : Config) : Op := mkOp CONFIG GetArgs0 PutAppendArgs0 0 0 cfg [] ClientInfo0.
Definition emptyShards (n : Z) : Op := shardsOp ((λ s, mkShiftShard n s ∅) <$> upto 10) ClientInfo0.
Definition putX : Op := mkOp PUT GetArgs0 (mkPA "x" "a" "Put" 0 7 1) 7 1 Config0 [] ClientInfo0.
Definition getX : Op := mkOp GET (mkGet "x" 0 7 2) PutAppendArgs0 7 2 Config0 [] ClientInfo0.

Definition run (ops : list Op) (skv : ShardKV (Raft Op)) : ShardKV (Raft Op) := default skv (applyOps plain ops skv).

(** Group 100 with "x" = "a" in configuration 1; group 101, and 102 likewise, in
    configuration 2, the former waiting for shard 0. *)
Definition opsA := [configOp cfg1; emptyShards 1; putX].
Definition skvA := run opsA (server 100).
Definition opsB := [configOp cfg1; configOp cfg2].
Definition skvB := run opsB (server 101).
Definition skvC := run opsB (server 102).

Lemma server_ginv g : ginv (server g).
Proof. split; try done; intros; set_solver. Qed.

Lemma run_ginv ops skv : ginv skv → Forall op_ok ops → ginv (run ops skv).
Proof.
  intros G Hops. destruct (applyOps_inv plain plain_valid ops skv G) as (skv' & E & G' & _); [by apply Forall_forall|].
  unfold run. by rewrite E.
Qed.

Lemma ops_ok : Forall op_ok (opsA ++ opsB).
Proof.
  assert (op_ok (emptyShards 1)).
  { intros sh (s & -> & Hs%upto_elem)%list_elem_of_fmap. split; [|done]. by intros k. }
  by repeat apply Forall_cons_2.
Qed.

Lemma skvA_ginv : ginv skvA.
Proof. apply run_ginv; [apply server_ginv|]. apply (proj1 (Forall_app op_ok opsA opsB)), ops_ok. Qed.

Lemma skvB_ginv : ginv skvB.
Proof. apply run_ginv; [apply server_ginv|]. apply (proj1 (Forall_app op_ok opsA opsB)), ops_ok. Qed.

Lemma doUpdateConfig_partition_witness :
  ∃ dock, OutShardsDock (doUpdateConfig cfg2 skvA) !! 2 = Some dock ∧
    (sh ← dock !! 0; ss_KVMap sh !! "x") = Some "a".
Proof.
  destruct (doUpdateConfig_partition cfg2 skvA) as (_ & _ & _ & _ & dock & Hd & _ & Hdock & Hk).
  - apply skvA_ginv.
  - reflexivity.
  - split; vm_compute; reflexivity.
  - exists dock. split; [exact Hd|].
    destruct (Hk "x") as [sh Hsh]; [vm_compute; eauto|vm_compute; intros [=]|].
    change (key2shard "x") with 0 in Hsh. rewrite Hsh. destruct (Hdock 0 sh Hsh) as [_ Hm].
    cbn [mbind option_bind]. rewrite (Hm "x"). vm_compute. reflexivity.
Defined.

Lemma applyOp_request_witness :
  ∃ skv' sends, applyOp plain getX skvA = Some (skv', sends) ∧
    ¬ executedIn (Info skvA) 7 2 ∧ executedIn (Info skv') 7 2 ∧ ShardKVMap skv' = {["x" := "a"]}.
Proof.
  destruct (applyOp_request plain plain_valid getX skvA) as (skv' & sends & HA & _ & _ & _ & _ & _ & _ & _ & Hnew).
  - apply skvA_ginv.
  - reflexivity.
  - reflexivity.
  - assert (¬ executedIn (Info skvA) 7 2) as HE by (vm_compute; intros [[=]|[[=] _]]).
    destruct (Hnew HE) as (result & _ & _ & _ & Hex & Hserve & _).
    assert (serving (opKey getX) skvA) as HS by (split; vm_compute; reflexivity).
    exists skv', sends. split_and!; [exact HA|exact HE|by apply Hex|].
    destruct (Hserve HS) as [Heff _]. apply (f_equal fst) in Heff. cbn [fst] in Heff. rewrite Heff. vm_compute. reflexivity.
Defined.

Lemma shardkv_invariant_witness :
  ∃ skv skv1 skv2, StartServer leader0 0 MakePersister (-1) 100 = Some skv ∧
    applyOps plain opsA skv = Some skv1 ∧ applyOps plain opsB skv1 = Some skv2 ∧ ginv skv2.
Proof.
  destruct (shardkv_invariant plain plain_valid 0 leader0 (-1) 100 opsA opsB)
    as (skv & skv1 & skv2 & H0 & H1 & H2 & _ & G & _).
  - apply Forall_forall, ops_ok.
  - exists skv, skv1, skv2. split_and!; [exact H0|exact H1|exact H2|exact G].
Defined.

(** The request is executed by group 100, which then changes its configuration. *)
Definition skvA0 := run [configOp cfg1; emptyShards 1] (server 100).

Lemma request_once_witness :
  ∃ skv1 skv2, applyOp plain putX skvA0 = Some (skv1, []) ∧ applyOps plain [configOp cfg2] skv1 = Some skv2 ∧
    applyOp plain putX skv2 = Some (skv2, []).
Proof.
  destruct (applyOp plain putX skvA0) as [[skv1 sends]|] eqn:E; [|vm_compute in E; discriminate E].
  destruct (request_once plain plain_valid [configOp cfg2] putX putX skvA0 skv1 sends) as (skv2 & H1 & H2).
  - apply run_ginv; [apply server_ginv|]. apply (proj1 (Forall_app op_ok [configOp cfg1; emptyShards 1] (putX :: opsB))), ops_ok.
  - intros op ->%list_elem_of_singleton. reflexivity.
  - reflexivity.
  - reflexivity.
  - reflexivity.
  - reflexivity.
  - simpl. lia.
  - reflexivity.
  - reflexivity.
  - split; vm_compute; reflexivity.
  - exact E.
  - exists skv1, skv2. split_and!; [|exact H1|exact H2].
    f_equal. f_equal. vm_compute in E. injection E as _ <-. reflexivity.
Defined.

Lemma shard_handover_witness :
  ∃ shifts info skvB', ShardDock (mkPull 2 [0]) (doUpdateConfig cfg2 skvA) = mkPullReply true shifts info ∧
    applyOp plain (shardsOp shifts info) skvB = Some (skvB', []) ∧ ShardKVMap skvB' !! "x" = Some "a" ∧
    applyOp plain putX skvB' = Some (skvB', []).
Proof.
  destruct (shard_handover plain plain_valid cfg2 skvA skvB [] [0] 0)
    as (skvA' & shifts & info & skvB' & HA & HR & HB & _ & Hdata & _ & Honce).
  - apply skvA_ginv.
  - reflexivity.
  - split; vm_compute; reflexivity.
  - intros op Hop. by apply elem_of_nil in Hop.
  - apply skvB_ginv.
  - vm_compute. reflexivity.
  - vm_compute. intros [=].
  - by left.
  - split_and!; vm_compute; reflexivity.
  - exists shifts, info, skvB'. cbn [applyOps] in HA. apply (inj Some) in HA. rewrite <-HA in HR. split_and!; [exact HR|exact HB| |].
    + destruct (Hdata 0) as [_ Hh]; [by left|split_and!; vm_compute; reflexivity|].
      rewrite (Hh "x") by reflexivity. vm_compute. reflexivity.
    + apply Honce; [reflexivity|reflexivity|simpl; lia|left; right; vm_compute; split; reflexivity].
Defined.

Lemma shard_snapshot_replay_witness :
  ∃ skv2 skv3, applyLog plain (mkApplyMsg false None 0 true (gob_encode (snapshotState skvA)) 1 3) (server 100) = Some (skv2, []) ∧
    StartServer peer0 1 (mkPersister [] (gob_encode (snapshotState skvA))) (-1) 100 = Some skv3 ∧
    agrees skv2 skvA ∧ agrees skv3 skvA.
Proof.
  destruct (shard_snapshot_replay plain skvA (server 100) peer0 [] 3 1 1 (-1)) as (_ & skv2 & skv3 & H2 & H3 & Hm).
  - apply shard_leader_ok.
  - apply shard_leader_ok.
  - apply shard_peer_ok.
  - reflexivity.
  - simpl. lia.
  - exists skv2, skv3. destruct (Hm []) as [E2 E3]. split_and!; [exact H2|exact H3|exact E2|exact E3].
Defined.

(** Group 100 in configuration 2, with the shard for 101 in its dock, after it
    heard from 102 that it has finished that configuration. *)
Definition skvA2 := doUpdateConfig cfg2 skvA.
Definition heard (nums : gmap Z Z) := skvA2 <| Gid2UnCompletedConfigNum := nums |>.

Lemma clean_correct_witness :
  OutShardsDock (clean plain (heard {[101 := 2; 102 := 3]})) !! 2 = OutShardsDock skvA2 !! 2 ∧
  OutShardsDock (clean plain (heard {[101 := 2; 102 := 3]})) !! 1 = None.
Proof.
  destruct (clean_correct plain plain_valid (heard {[101 := 2; 102 := 3]})) as (Hkeep & Hdrop & _).
  - intros g k. change (Gid2UnCompletedConfigNum _) with ({[101 := 2; 102 := 3]} : gmap Z Z).
    intros [[_ <-]|[_ [_ <-]%lookup_singleton_Some]]%lookup_insert_Some; lia.
  - vm_compute. intros [=].
  - split.
    + apply (Hkeep 101 2 2 2 skvB); [reflexivity|vm_compute; reflexivity|lia|right; vm_compute; split; [reflexivity|intros [=]]].
    + apply (Hdrop 1). intros g k. change (Gid2UnCompletedConfigNum _) with ({[101 := 2; 102 := 3]} : gmap Z Z).
      intros [[_ <-]|[_ [_ <-]%lookup_singleton_Some]]%lookup_insert_Some; lia.
Defined.

(** garbage collection can lose a shard.  Only groups that have answered a
    Hello count.  Group 101 owns shard 0 in configuration 2 and has not pulled it;
    102 and 103 answer group 100's Hello, 101 cannot be reached.  Then 100 drops
    the dock of configuration 2, with the only copy of "x", and afterwards refuses
    101's request for the shard. *)
Theorem clean_drops_unpulled :
  let call server := if String.eqb server "c" then Some (Hello skvC) else if String.eqb server "d" then Some (Hello skvC) else None in
  let '(nums, cfg) := sayHelloBegin skvA2 in
  let skvA3 := sayHelloEnd plain (helloReplies call 100 (map_to_list (Groups cfg)) nums) skvA2 in
  missing skvB = [0] ∧
  pr_ShiftShards (ShardDock (mkPull 2 [0]) skvA2) = [mkShiftShard 2 0 {["x" := "a"]}] ∧
  ShardDock (mkPull 2 [0]) skvA3 = mkPullReply false [] ClientInfo0 ∧ ShardKVMap skvA3 = ∅ ∧ OutShardsDock skvA3 = ∅.
Proof. vm_compute. split_and!; reflexivity. Qed.

Lemma checkMissShards_correct_witness :
  ∃ pulls, checkMissShards plain skvB = Some ((λ '(g, ids),
       PullFrom (default [] (Groups cfg1 !! g)) 2 ids) <$> pulls) ∧ ∃ ids, (100, ids) ∈ pulls ∧ 0 ∈ ids.
Proof.
  destruct (checkMissShards_correct plain plain_valid skvB) as [_ Hpull]; [apply skvB_ginv|].
  destruct Hpull as (pulls & HC & _ & _ & Hs).
  - reflexivity.
  - vm_compute. intros [=].
  - vm_compute. intros [=].
  - exists pulls. split; [exact HC|]. destruct (proj1 (Hs 0)) as (g & ids & Hin & Hi & Ho).
    + vm_compute. by left.
    + vm_compute in Ho. injection Ho as <-. by exists ids.
Defined.

(** In the first round the clerk has the zero configuration, in the second group
    100's server refuses the key, in the third group 101's answers. *)
Lemma clerkGet_finds_owner_witness :
  let call := λ (_ : GetArgs) (_ : nat) (s : string),
    if String.eqb s "b" then Some (mkGetReply OK "a") else Some (mkGetReply ErrWrongGroup "") in
  let query := λ n, match n with O => cfg1 | _ => cfg2 end in
  ∃ ck', clerkGet call query 3 "x" 5 (mkClerk Config0 9 0) = Some ("a", ck', 6).
Proof.
  intros call query.
  destruct (clerkGet_finds_owner call query "x" 5 (mkClerk Config0 9 0) 1) as (v & ck' & HC & _ & k & g & servers & sv & reply & _ & _ & _ & Hr & Hv & He).
  - reflexivity.
  - intros [|n]; reflexivity.
  - exists 101, ["b"]. split; [reflexivity|]. split; [reflexivity|]. split.
    + exists "b", (mkGetReply OK "a"), "a". split_and!; [by left|reflexivity|reflexivity].
    + intros sv reply ->%list_elem_of_singleton [= <-] [=].
  - exists ck'. change (1 + 2)%nat with 3%nat in HC. rewrite HC. change (wrap64 (5 + 1)) with 6.
    unfold call in Hr. destruct (String.eqb sv "b"); injection Hr as <-; [by subst v|by destruct He].
Defined.

End ShardExamples.
