(* ===== verification/ShardGroups.v ===== *)
(** * The groups of the sharded service together

    The groups of shardkv, each a replicated server that applies its own log, with
    the commands they put in the logs for each other: configurations of the
    controller, shards taken from docks.  The logs of all groups are one sequence of
    commits.  At every moment a shard is in one place, with the data that running
    all the executed requests on a single store would leave and with the sessions
    that stop them from being executed again. *)

From S2P Require Import Prelude LabGob Persister Raft RaftLog RaftState RaftApi Dedup Clerk ShardCtrler Rebalance CtrlerState ShardKV Migration.

(** ** Requests on one store *)

Definition request (op : Op) : Z * Z := (ClientId op, ReqNo op).

(** What a single server would hold after the requests. *)
Definition store (X : list Op) : gmap string string := foldl (λ m op, (effect op m).1) ∅ X.

Lemma store_snoc X op : store (X ++ [op]) = (effect op (store X)).1.
Proof. unfold store. by rewrite foldl_app. Qed.

Lemma effect_other op m k : k ≠ opKey op → (effect op m).1 !! k = m !! k.
Proof. intros Hk. unfold effect. destruct (opType op); cbn; by rewrite ?lookup_insert_ne. Qed.

(** A request reads and writes its own key. *)
Lemma effect_agree op m m' k :
  m !! opKey op = m' !! opKey op → m !! k = m' !! k →
  (effect op m).1 !! k = (effect op m').1 !! k ∧ (effect op m).2 = (effect op m').2.
Proof.
  intros Hk Hk'. assert (getValue m (opKey op) = getValue m' (opKey op)) as HV by (unfold getValue; by rewrite Hk).
  unfold effect. destruct (opType op); cbn; rewrite ?HV; split; try done;
    (destruct (decide (opKey op = k)) as [<-|?]; [by rewrite !lookup_insert_eq|by rewrite !lookup_insert_ne]).
Qed.

(** An entry of the merged table is an entry of one of the two. *)
Definition session (ci : ClientInfo) (c : Z) : Z * string := (reqOf ci c, Err (resultOf ci c)).

Lemma mergeStep_session info ci c n c' :
  n = reqOf info c → session (mergeStep info ci (c, n)) c' = session ci c' ∨ session (mergeStep info ci (c, n)) c' = session info c'.
Proof.
  intros ->. unfold session, mergeStep. destruct (Z.ltb_spec (reqOf ci c) (reqOf info c)).
  - rewrite reqOf_insert, resultOf_insert. destruct (decide (c = c')) as [<-|]; [by right|by left].
  - destruct (Z.eqb_spec (reqOf info c) (reqOf ci c)) as [He|]; cbn; [|by left].
    destruct (negb _); [|by left]. rewrite resultOf_insert. change (reqOf (mkClientInfo (CompletedReq ci) _) c') with (reqOf ci c').
    destruct (decide (c = c')) as [<-|]; [|by left]. right. by rewrite He.
Qed.

Lemma merge_session ord s info ci c :
  valid_order ord →
  let ci' := merge (ord s _ (CompletedReq info)) info ci in session ci' c = session ci c ∨ session ci' c = session info c.
Proof.
  intros HO. cbn. assert (∀ c n, (c, n) ∈ ord s _ (CompletedReq info) → n = reqOf info c) as Hn.
  { intros c' n Hin%ord_elem; [|done]. unfold reqOf. by rewrite Hin. }
  unfold merge. revert ci Hn. induction (ord s _ _) as [|[c' n] l IH]; intros ci Hn; [by left|]. cbn [foldl].
  destruct (IH (mergeStep info ci (c', n))) as [->| ->]; [intros; apply Hn; by right| |by right].
  apply mergeStep_session, Hn. by left.
Qed.

(** The controller's configurations, numbered from the empty one on, with shard 0
    assigned from the next one on; and the requests the clerks send. *)
Record setting (cfgs : list Config) (sent : Op → Prop) : Prop := {
  st_numbered : numbered cfgs;
  st_first : index cfgs 0 = Some Config0;
  st_assigned : ∀ n cfg, 1 <= n → index cfgs n = Some cfg → owner cfg 0 ≠ Some 0;
  st_sent : ∀ op, sent op → isClientOp op = true ∧ op_ok op ∧ 1 <= ReqNo op;
  st_unique : ∀ op op', sent op → sent op' → request op = request op' → op = op';
}.

Section groups.
Context {R : Type} `{!RaftApi Op R} `{!Gob SnapshotState} (ord : Order) (HO : valid_order ord).
Context (cfgs : list Config) (sent : Op → Prop) (ST : setting cfgs sent).
#[local] Notation Hcfgs := (st_numbered _ _ ST).
#[local] Notation Hfirst := (st_first _ _ ST).
#[local] Notation Hsent := (st_sent _ _ ST).
#[local] Notation Hunique := (st_unique _ _ ST).
Implicit Types (skv : ShardKV R) (σ : Z → ShardKV R) (X Y : list Op) (s g h m n : Z).

(** ** Where a shard is *)

Notation cur σ g := (Num (CurConfig (σ g))).

Definition ownedBy n s g : Prop := ∃ cfg, index cfgs n = Some cfg ∧ owner cfg s = Some g.

(** Group [g] has had shard [s] in configuration [m]. *)
Definition got σ g s m : Prop :=
  1 <= m ∧ ownedBy m s g ∧ (m < cur σ g ∨ m = cur σ g ∧ hasShard (Shards (σ g)) s = true).
Definition taken σ s m : Prop := ∃ g, got σ g s m.

Definition docked σ g n s (sh : ShiftShard) : Prop :=
  ∃ dock, OutShardsDock (σ g) !! n = Some dock ∧ dock !! s = Some sh.

(** Sessions that record only requests of the logs [Y], and as done only those that
    were executed. *)
Definition real X Y (ci : ClientInfo) : Prop :=
  ∀ c, 1 <= reqOf ci c → (∃ op, op ∈ Y ∧ request op = (c, reqOf ci c)) ∧
    (Err (resultOf ci c) = OK → ∃ op, op ∈ X ∧ request op = (c, reqOf ci c)).

Record winv σ X Y : Prop := {
  w_ginv : ∀ g, ginv (σ g);
  w_gid : ∀ g, gid (σ g) = g;
  w_cur : ∀ g, index cfgs (cur σ g) = Some (CurConfig (σ g));
  w_last : ∀ g, 1 <= cur σ g → index cfgs (cur σ g - 1) = Some (LastConfig (σ g));
  w_zero : ∀ s, hasShard (Shards (σ 0)) s = false;
  w_info : ∀ g n, is_Some (OutShardsDock (σ g) !! n) → is_Some (Config2ClientInfo (σ g) !! n);
  (* a docked shard was its group's before; one that was taken over was docked or kept *)
  w_dock : ∀ g n s sh, docked σ g n s sh → 2 <= n <= cur σ g ∧ ownedBy (n - 1) s g;
  w_chain : ∀ g s m, got σ g s m → 2 <= m → ∃ h, ownedBy (m - 1) s h ∧ m <= cur σ h;
  (* the data *)
  w_data : ∀ g k, hasShard (Shards (σ g)) (key2shard k) = true → ShardKVMap (σ g) !! k = store X !! k;
  w_transit : ∀ g n sh k, docked σ g n (key2shard k) sh → ¬ taken σ (key2shard k) n → ss_KVMap sh !! k = store X !! k;
  w_unborn : ∀ k, ¬ taken σ (key2shard k) 1 → store X !! k = None;
  (* the sessions *)
  w_done : ∀ g op, op ∈ X → hasShard (Shards (σ g)) (key2shard (opKey op)) = true →
    executedIn (Info (σ g)) (ClientId op) (ReqNo op);
  w_done_transit : ∀ g n sh info op, op ∈ X → docked σ g n (key2shard (opKey op)) sh →
    ¬ taken σ (key2shard (opKey op)) n → Config2ClientInfo (σ g) !! n = Some info → executedIn info (ClientId op) (ReqNo op);
  w_done_born : ∀ op, op ∈ X → taken σ (key2shard (opKey op)) 1;
  w_once : NoDup (request <$> X);
  w_sent : ∀ op, op ∈ X → sent op;
  w_real : ∀ g, real X Y (Info (σ g));
  w_real_dock : ∀ g n info, Config2ClientInfo (σ g) !! n = Some info → real X Y info;
}.

Lemma ownedBy_fun n s g h : ownedBy n s g → ownedBy n s h → g = h.
Proof. intros (c & Hc & Ho) (c' & Hc' & Ho'). congruence. Qed.

(** *** A shard is in one place *)

Section places.
Context σ X Y (W : winv σ X Y).

Lemma cur_nonneg g : 0 <= cur σ g.
Proof. pose proof (index_lt _ _ _ (w_cur _ _ _ W g)). lia. Qed.

Lemma cur_owner g s h : ownedBy (cur σ g) s h ↔ owner (CurConfig (σ g)) s = Some h.
Proof.
  split; [|by exists (CurConfig (σ g)); split; [apply W|]].
  intros (cfg & Hc & Ho). rewrite (w_cur _ _ _ W) in Hc. by simplify_eq.
Qed.

Lemma has_owned g s : hasShard (Shards (σ g)) s = true → 1 <= cur σ g ∧ ownedBy (cur σ g) s g ∧ g ≠ 0.
Proof.
  intros Hh. assert (g ≠ 0) as Hg by (intros ->; by rewrite (w_zero _ _ _ W) in Hh).
  pose proof (gi_own _ (w_ginv _ _ _ W g) s Hh) as Ho. rewrite (w_gid _ _ _ W) in Ho. pose proof (cur_nonneg g).
  split_and!; [|by apply cur_owner|done]. destruct (decide (cur σ g = 0)) as [E|]; [|lia].
  pose proof (w_cur _ _ _ W g) as Hc. rewrite E, Hfirst in Hc. injection Hc as Hc. rewrite <-Hc in Ho.
  apply index_elem_of, elem_of_replicate in Ho as [? _]. done.
Qed.

Lemma has_got g s : hasShard (Shards (σ g)) s = true → got σ g s (cur σ g).
Proof. intros Hh. destruct (has_owned g s Hh) as (? & ? & _). split_and!; auto. Qed.

(** A shard that was taken in configuration [m] has passed all before. *)
Lemma got_chain g s m j : got σ g s m → 1 <= j < m → ∃ h, ownedBy j s h ∧ j + 1 <= cur σ h.
Proof.
  intros Hg Hj. remember (Z.to_nat (m - j)) as d eqn:Hd. revert g m Hg Hj Hd. induction d as [|d IH]; intros g m Hg Hj Hd; [lia|].
  destruct (w_chain _ _ _ W g s m Hg) as (h & Ho & Hh); [lia|]. destruct (decide (j = m - 1)) as [->|Hne].
  - exists h. split; [done|lia].
  - apply (IH h (m - 1)); [|lia|lia]. split_and!; [lia|done|left; lia].
Qed.

Lemma has_newest g h s m : hasShard (Shards (σ g)) s = true → got σ h s m → m <= cur σ g.
Proof.
  intros Hh Hg. destruct (decide (m <= cur σ g)); [done|]. destruct (has_owned g s Hh) as (? & Ho & _).
  destruct (got_chain h s m (cur σ g) Hg) as (h' & Ho' & Hc); [lia|]. assert (h' = g) as -> by by eapply ownedBy_fun. lia.
Qed.

Lemma one_holder g h s : hasShard (Shards (σ g)) s = true → hasShard (Shards (σ h)) s = true → g = h.
Proof.
  intros Hg Hh. pose proof (has_newest g h s _ Hg (has_got h s Hh)). pose proof (has_newest h g s _ Hh (has_got g s Hg)).
  destruct (has_owned g s Hg) as (_ & Og & _), (has_owned h s Hh) as (_ & Oh & _).
  assert (cur σ g = cur σ h) as E by lia. rewrite E in Og. by eapply ownedBy_fun.
Qed.

Lemma passed_taken g s m j : got σ g s m → 1 <= j <= m → taken σ s j.
Proof.
  intros Hg Hj. destruct (decide (j = m)) as [->|]; [by exists g|].
  destruct (got_chain g s m j Hg) as (h & Ho & Hh); [lia|]. exists h. split_and!; [lia|done|left; lia].
Qed.

(** While a group has the shard no dock has it for another to take. *)
Lemma held_not_docked g h s n sh : hasShard (Shards (σ g)) s = true → docked σ h n s sh → taken σ s n.
Proof.
  intros Hg (Hn & Ho)%(w_dock _ _ _ W). assert (got σ h s (n - 1)) as Hh by (split_and!; [lia|done|left; lia]).
  pose proof (has_newest g h s _ Hg Hh). destruct (has_owned g s Hg) as (_ & Og & _).
  destruct (decide (n - 1 = cur σ g)) as [E|].
  - rewrite <-E in Og. assert (h = g) as -> by by eapply ownedBy_fun. lia.
  - eapply (passed_taken g s (cur σ g)); [by apply has_got|lia].
Qed.

Lemma held_born g s : hasShard (Shards (σ g)) s = true → taken σ s 1.
Proof. intros Hg. eapply (passed_taken g s (cur σ g)); [by apply has_got|]. apply has_owned in Hg. lia. Qed.

(** A shard the group waits for has not been taken in this configuration. *)
Lemma missing_not_taken g s :
  owner (CurConfig (σ g)) s = Some g → hasShard (Shards (σ g)) s = false → ¬ taken σ s (cur σ g).
Proof.
  intros Ho%cur_owner Hh (h & _ & Oh & Hc). assert (h = g) as -> by by eapply ownedBy_fun.
  destruct Hc as [?|[_ ?]]; [lia|congruence].
Qed.

End places.

(** *** One group moves *)

Definition fupd g skv σ : Z → ShardKV R := λ h, if decide (h = g) then skv else σ h.

Lemma fupd_eq g skv σ : fupd g skv σ g = skv.
Proof. unfold fupd. by rewrite decide_True. Qed.
Lemma fupd_ne g skv σ h : h ≠ g → fupd g skv σ h = σ h.
Proof. intros. unfold fupd. by rewrite decide_False. Qed.

(** A server that goes on: in the same configuration it keeps its shards, and it
    takes the next one with nothing missing. *)
Definition goesOn skv skv' : Prop :=
  gid skv' = gid skv ∧
  ((CurConfig skv' = CurConfig skv ∧ ∀ s, hasShard (Shards skv) s = true → hasShard (Shards skv') s = true) ∨
   (Num (CurConfig skv') = Num (CurConfig skv) + 1 ∧ missing skv = [])).

Lemma got_goesOn σ g skv h s m : goesOn (σ g) skv → got σ h s m → got (fupd g skv σ) h s m.
Proof.
  intros [_ HG] (H1 & Ho & Hm). split_and!; [done|done|]. destruct (decide (h = g)) as [->|Hne]; [|by rewrite fupd_ne].
  rewrite fupd_eq. destruct HG as [[-> Hk]|[-> _]]; [|left; destruct Hm; lia].
  destruct Hm as [?|[? ?]]; [by left|right; auto].
Qed.

Lemma taken_goesOn σ g skv s m : goesOn (σ g) skv → taken σ s m → taken (fupd g skv σ) s m.
Proof. intros HG [h Hh]. exists h. by apply got_goesOn. Qed.

Lemma missing_nil skv s : missing skv = [] → owner (CurConfig skv) s = Some (gid skv) → hasShard (Shards skv) s = true.
Proof.
  intros Hm Ho. destruct (hasShard (Shards skv) s) eqn:E; [done|]. assert (s ∈ missing skv) as Hin.
  { unfold missing. apply list_elem_of_filter. split; [done|]. apply upto_elem. by apply index_lt in Ho. }
  rewrite Hm in Hin. by apply elem_of_nil in Hin.
Qed.

(** What is new with a step. *)
Lemma got_new σ X Y g skv h s m :
  winv σ X Y → goesOn (σ g) skv → got (fupd g skv σ) h s m →
  got σ h s m ∨ (h = g ∧ m = Num (CurConfig skv) ∧ hasShard (Shards skv) s = true).
Proof.
  intros W [Eg HG] (H1 & Ho & Hm). destruct (decide (h = g)) as [->|Hne].
  2:{ left. rewrite fupd_ne in Hm by done. by split_and!. }
  rewrite fupd_eq in Hm. destruct Hm as [Hm|[? ?]]; [left|by right]. split_and!; [done|done|].
  destruct HG as [[Ec _]|[En Hmiss]]; [rewrite Ec in Hm; by left|]. destruct (decide (m = cur σ g)) as [->|]; [right|left; lia].
  split; [done|]. apply missing_nil; [done|]. rewrite (w_gid _ _ _ W). by apply (cur_owner σ X Y W).
Qed.

(** *** Requests *)

Lemma real_mono X X' Y Y' ci :
  (∀ op, op ∈ X → op ∈ X') → (∀ op, op ∈ Y → op ∈ Y') → real X Y ci → real X' Y' ci.
Proof. intros HX HY HR c Hc. destruct (HR c Hc) as [[o []] H2]. split; [by eauto|]. intros [op [? ?]]%H2. eauto. Qed.

(** Servers that agree on everything but table and sessions. *)
Record sameShards skv skv' : Prop := {
  ss_gid : gid skv' = gid skv;
  ss_cur : CurConfig skv' = CurConfig skv;
  ss_last : LastConfig skv' = LastConfig skv;
  ss_shards : Shards skv' = Shards skv;
  ss_dock : OutShardsDock skv' = OutShardsDock skv;
  ss_infos : Config2ClientInfo skv' = Config2ClientInfo skv;
}.

Lemma sameShards_got σ σ' h s m : (∀ h, sameShards (σ h) (σ' h)) → got σ' h s m ↔ got σ h s m.
Proof. intros HS. unfold got. by rewrite (ss_cur _ _ (HS h)), (ss_shards _ _ (HS h)). Qed.

Lemma winv_requests σ σ' X X' Y :
  winv σ X Y → (∀ h, ginv (σ' h)) → (∀ h, sameShards (σ h) (σ' h)) →
  (∀ op, op ∈ X → op ∈ X') →
  (∀ op, op ∈ X' → op ∈ X ∨ sent op ∧ ∃ h, hasShard (Shards (σ h)) (key2shard (opKey op)) = true) →
  (∀ h k, hasShard (Shards (σ h)) (key2shard k) = true → ShardKVMap (σ' h) !! k = store X' !! k) →
  (∀ k, (∀ h, hasShard (Shards (σ h)) (key2shard k) = false) → store X' !! k = store X !! k) →
  (∀ h op, op ∈ X' → hasShard (Shards (σ h)) (key2shard (opKey op)) = true → executedIn (Info (σ' h)) (ClientId op) (ReqNo op)) →
  NoDup (request <$> X') → (∀ h, real X' Y (Info (σ' h))) → winv σ' X' Y.
Proof.
  intros W G HS HX HX' Hdata Hrest Hdone Hnd Hreal.
  assert (∀ s m, taken σ' s m ↔ taken σ s m) as HT by (intros; unfold taken; by setoid_rewrite (sameShards_got σ σ')).
  assert (∀ h n s sh, docked σ' h n s sh ↔ docked σ h n s sh) as HD by (intros h n s sh; unfold docked; by rewrite (ss_dock _ _ (HS h))).
  assert (∀ h n s sh h', docked σ h n s sh → ¬ taken σ s n → hasShard (Shards (σ h')) s = false) as Hfree.
  { intros h n s sh h' Hd Ht. destruct (hasShard (Shards (σ h')) s) eqn:E; [|done]. destruct Ht. by eapply held_not_docked. }
  split.
  - done.
  - intros h. rewrite (ss_gid _ _ (HS h)). apply W.
  - intros h. rewrite (ss_cur _ _ (HS h)). apply W.
  - intros h. rewrite (ss_cur _ _ (HS h)), (ss_last _ _ (HS h)). apply W.
  - intros s. rewrite (ss_shards _ _ (HS 0)). apply W.
  - intros h n. rewrite (ss_dock _ _ (HS h)), (ss_infos _ _ (HS h)). apply W.
  - intros h n s sh Hd%HD. rewrite (ss_cur _ _ (HS h)). by eapply W.
  - intros h s m Hg%(sameShards_got σ σ'); [|done]. intros Hm. destruct (w_chain _ _ _ W _ _ _ Hg Hm) as (h' & ? & ?). exists h'.
    by rewrite (ss_cur _ _ (HS h')).
  - intros h k. rewrite (ss_shards _ _ (HS h)). apply Hdata.
  - intros h n sh k Hd%HD Ht. rewrite HT in Ht. rewrite Hrest by (intros; by eapply Hfree). by eapply W.
  - intros k Ht. rewrite HT in Ht. rewrite Hrest; [by apply W|]. intros h.
    destruct (hasShard (Shards (σ h)) _) eqn:E; [|done]. destruct Ht. by eapply held_born.
  - intros h op Hop. rewrite (ss_shards _ _ (HS h)). by apply Hdone.
  - intros h n sh info op Hop Hd%HD Ht. rewrite (ss_infos _ _ (HS h)). rewrite HT in Ht. intros Hi.
    apply HX' in Hop as [Hop|(_ & h' & Hh')]; [by eapply (w_done_transit _ _ _ W)|]. by rewrite (Hfree _ _ _ _ h' Hd Ht) in Hh'.
  - intros op [Hop|(_ & h' & Hh')]%HX'; apply HT; [by apply W|by eapply held_born].
  - done.
  - intros op [Hop|[? _]]%HX'; [by apply W|done].
  - done.
  - intros h n info. rewrite (ss_infos _ _ (HS h)). intros Hi. apply (real_mono X X' Y Y); [done|done|by eapply W].
Qed.

Lemma winv_ext σ σ' X Y : (∀ h, σ' h = σ h) → winv σ X Y → winv σ' X Y.
Proof.
  intros HE W. apply (winv_requests σ σ' X X Y W); try apply W; try done; auto; intros h; rewrite HE; try apply W; by split.
Qed.

Lemma fupd_same σ g h : fupd g (σ g) σ h = σ h.
Proof. unfold fupd. by destruct (decide (h = g)) as [->|]. Qed.

Definition executes (op : Op) skv : bool :=
  isClientOp op && fresh_request op skv && bool_decide (serving (opKey op) skv).

Lemma record_real X X' Y op err skv :
  real X Y (Info skv) → op ∈ Y → (∀ o, o ∈ X → o ∈ X') → (err = OK → op ∈ X') → real X' Y (record op err skv).
Proof.
  intros HR Hop HX HO' c. unfold record. rewrite reqOf_insert, resultOf_insert. destruct (decide (ClientId op = c)) as [<-|Hne].
  - cbn. intros _. split; [by exists op|]. intros HOK%HO'. by exists op.
  - intros Hc. by apply (real_mono X X' Y Y (Info skv)).
Qed.

Definition advance (op : Op) skv : ShardKV R := match applyOp ord op skv with Some (skv', _) => skv' | None => skv end.

Lemma winv_client σ X Y g op :
  winv σ X Y → g ≠ 0 → sent op → op ∈ Y →
  winv (fupd g (advance op (σ g)) σ) (if executes op (σ g) then X ++ [op] else X) Y.
Proof.
  intros W Hg Hop HY. destruct (Hsent op Hop) as (Hc & Hok & Hr).
  pose proof (w_ginv _ _ _ W g) as G. destruct (applyOp_client ord HO op (σ g) G Hok Hc) as [Hdup Hnew].
  unfold executes, advance. rewrite Hc. cbn [andb].
  destruct (decide (executedIn (Info (σ g)) (ClientId op) (ReqNo op))) as [HE|HE].
  { rewrite (proj2 (fresh_request_executed _ _) HE), (Hdup HE). cbn [andb].
    by eapply winv_ext; [apply fupd_same|]. }
  destruct (Hnew HE) as (m & err & v & Hp & Gm & ->). set (τ := (σ g) <| ShardKVMap := m |> <| Info := record op err (σ g) |>).
  assert (fresh_request op (σ g) = true) as ->.
  { destruct (fresh_request op (σ g)) eqn:E; [done|]. by apply fresh_request_executed in E. }
  cbn [andb]. destruct (perform_cases op (σ g) G Hok Hc) as [Hyes Hno].
  assert (∀ h, sameShards (σ h) (fupd g τ σ h)) as HS.
  { intros h. unfold fupd. destruct (decide (h = g)) as [->|]; by split. }
  assert (∀ h, ginv (fupd g τ σ h)) as HG.
  { intros h. unfold fupd. destruct (decide (h = g)); [|apply W]. by eapply ginv_view, Gm. }
  assert (∀ h c r, executedIn (Info (σ h)) c r → executedIn (Info (fupd g τ σ h)) c r) as Hmono.
  { intros h c r Hh. unfold fupd. destruct (decide (h = g)) as [->|]; [|done]. apply record_executed; [done|by left]. }
  case_bool_decide as Hsv.
  - rewrite (Hyes Hsv) in Hp. injection Hp as <- <- <-. destruct Hsv as [Ho Hh].
    assert (∀ o, o ∈ X ++ [op] ↔ o ∈ X ∨ o = op) as Hin by (intros o; by rewrite elem_of_app, list_elem_of_singleton).
    apply (winv_requests σ _ X _ Y W); auto.
    + intros o ?. apply Hin. by left.
    + intros o [?| ->]%Hin; [by left|right; eauto].
    + intros h k Hk. rewrite store_snoc. unfold fupd. destruct (decide (h = g)) as [->|Hne].
      * apply effect_agree; by apply W.
      * rewrite effect_other; [by apply W|]. intros ->. by destruct Hne; eapply one_holder.
    + intros k Hk. rewrite store_snoc. apply effect_other. intros ->. by rewrite Hk in Hh.
    + intros h o [Hox| ->]%Hin Hk; [by apply Hmono, W|]. assert (h = g) as -> by by eapply one_holder.
      rewrite fupd_eq. apply record_executed; [done|]. naive_solver.
    + rewrite fmap_app. apply NoDup_app. split_and!; [apply W| |apply NoDup_singleton].
      intros x (o & -> & Ho')%list_elem_of_fmap Hx%list_elem_of_singleton.
      assert (o = op) as -> by (apply Hunique; [by apply W|done|done]). by destruct HE; apply W.
    + intros h. unfold fupd. destruct (decide (h = g)) as [->|].
      * apply (record_real X); [apply W|done| |]; intros; apply Hin; auto.
      * eapply (real_mono X); [|done|apply W]. intros; apply Hin; auto.
  - destruct (Hno Hsv) as (err' & Herr & Hp' & _). rewrite Hp' in Hp. injection Hp as <- <- <-.
    apply (winv_requests σ _ X X Y W); auto; try apply W.
    + intros h k Hk. unfold fupd. destruct (decide (h = g)) as [->|]; by apply W.
    + intros h o Ho Hk. by apply Hmono, W.
    + intros h. unfold fupd. destruct (decide (h = g)) as [->|]; [|apply W]. apply (record_real X); [apply W|done..].
Qed.

(** *** Shards move *)

(** What must hold of the new state [τ] of a group that takes a configuration or
    accepts shards: a new dock holds what the group held, a new shard comes with the
    data and the sessions it should have. *)
Record shifted σ X Y g (τ : ShardKV R) : Prop := {
  sf_ginv : ginv τ;
  sf_goesOn : goesOn (σ g) τ;
  sf_cur : index cfgs (Num (CurConfig τ)) = Some (CurConfig τ);
  sf_last : 1 <= Num (CurConfig τ) → index cfgs (Num (CurConfig τ) - 1) = Some (LastConfig τ);
  sf_info : ∀ n, is_Some (OutShardsDock τ !! n) → is_Some (Config2ClientInfo τ !! n);
  sf_dock : ∀ n s dock sh, OutShardsDock τ !! n = Some dock → dock !! s = Some sh →
    docked σ g n s sh ∧ Config2ClientInfo τ !! n = Config2ClientInfo (σ g) !! n ∨
    n = cur σ g + 1 ∧ n = Num (CurConfig τ) ∧ hasShard (Shards (σ g)) s = true ∧
      ss_KVMap sh = shardMap s (ShardKVMap (σ g)) ∧ Config2ClientInfo τ !! n = Some (Info (σ g));
  sf_shard : ∀ s, hasShard (Shards τ) s = true →
    hasShard (Shards (σ g)) s = true ∧ holds s (ShardKVMap (σ g)) (ShardKVMap τ) ∨
    (2 <= Num (CurConfig τ) → ∃ h, ownedBy (Num (CurConfig τ) - 1) s h ∧ Num (CurConfig τ) <= cur σ h) ∧
      (∀ k, key2shard k = s → ShardKVMap τ !! k = store X !! k) ∧
      (∀ op, op ∈ X → key2shard (opKey op) = s → executedIn (Info τ) (ClientId op) (ReqNo op));
  sf_done : ∀ c r, 1 <= r → executedIn (Info (σ g)) c r → executedIn (Info τ) c r;
  sf_real : real X Y (Info τ);
  sf_real_dock : ∀ n info, Config2ClientInfo τ !! n = Some info → real X Y info;
}.

Lemma shifted_dock σ X Y g τ h n s sh :
  winv σ X Y → shifted σ X Y g τ → docked (fupd g τ σ) h n s sh →
  docked σ h n s sh ∧ Config2ClientInfo (fupd g τ σ h) !! n = Config2ClientInfo (σ h) !! n ∨
  h = g ∧ n = cur σ g + 1 ∧ n = Num (CurConfig τ) ∧ hasShard (Shards (σ g)) s = true ∧
    ss_KVMap sh = shardMap s (ShardKVMap (σ g)) ∧ Config2ClientInfo (fupd g τ σ h) !! n = Some (Info (σ g)).
Proof.
  intros W S. unfold docked, fupd. destruct (decide (h = g)) as [->|]; intros (dock & Hd & Hs); [|left; split; [eauto|done]].
  destruct (sf_dock _ _ _ _ _ S _ _ _ _ Hd Hs); auto.
Qed.

Lemma shifted_chain σ X Y g τ h s m :
  winv σ X Y → shifted σ X Y g τ → got (fupd g τ σ) h s m → 2 <= m → ∃ h', ownedBy (m - 1) s h' ∧ m <= cur (fupd g τ σ) h'.
Proof.
  intros W S Hgot Hm. pose proof (sf_goesOn _ _ _ _ _ S) as HG.
  assert (∀ h', cur σ h' <= cur (fupd g τ σ) h') as Hle.
  { intros h'. unfold fupd. destruct (decide (h' = g)) as [->|]; [|done]. destruct HG as [_ [[-> _]|[-> _]]]; lia. }
  destruct (got_new σ X Y g τ h s m W HG Hgot) as [Hold|(-> & -> & Hh)].
  { destruct (w_chain _ _ _ W _ _ _ Hold Hm) as (h' & ? & ?). exists h'. split; [done|]. specialize (Hle h'). lia. }
  destruct (sf_shard _ _ _ _ _ S s Hh) as [[Hold _]|(Hc & _)].
  - destruct HG as [_ [[Ec _]|[En _]]].
    + destruct (w_chain _ _ _ W g s (cur σ g) (has_got _ _ _ W _ _ Hold)) as (h' & ? & ?); [by rewrite <-Ec|].
      exists h'. rewrite Ec. split; [done|]. specialize (Hle h'). lia.
    + exists g. rewrite En, fupd_eq, En. split; [|lia]. replace (cur σ g + 1 - 1) with (cur σ g) by lia. by apply (has_owned σ X Y W).
  - destruct (Hc Hm) as (h' & ? & ?). exists h'. split; [done|]. specialize (Hle h'). lia.
Qed.

Lemma winv_shifted σ X Y g τ : winv σ X Y → g ≠ 0 → shifted σ X Y g τ → winv (fupd g τ σ) X Y.
Proof.
  intros W Hg S. pose proof (sf_goesOn _ _ _ _ _ S) as HG.
  assert (∀ s m, ¬ taken (fupd g τ σ) s m → ¬ taken σ s m) as HT by (intros s m Hn ?; by apply Hn, taken_goesOn).
  split.
  - intros h. unfold fupd. destruct (decide _); [apply S|apply W].
  - intros h. unfold fupd. destruct (decide _) as [->|]; [|apply W]. destruct HG as [-> _]. apply W.
  - intros h. unfold fupd. destruct (decide _); [apply S|apply W].
  - intros h. unfold fupd. destruct (decide _); [apply S|apply W].
  - intros s. rewrite fupd_ne by done. apply W.
  - intros h n. unfold fupd. destruct (decide _); [apply S|apply W].
  - intros h n s sh Hd. destruct (shifted_dock _ _ _ _ _ _ _ _ _ W S Hd) as [[Hold _]|(-> & En & -> & Hh & _)].
    + apply (w_dock _ _ _ W) in Hold as [? ?]. split; [|done]. unfold fupd. destruct (decide (h = g)) as [->|]; [|done].
      destruct HG as [_ [[-> _]|[-> _]]]; lia.
    + rewrite fupd_eq, En. destruct (has_owned _ _ _ W _ _ Hh) as (? & ? & _). split; [lia|].
      by replace (cur σ g + 1 - 1) with (cur σ g) by lia.
  - intros h s m. by apply (shifted_chain σ X Y).
  - intros h k. unfold fupd. destruct (decide (h = g)) as [->|]; [|apply W]. intros Hh.
    destruct (sf_shard _ _ _ _ _ S _ Hh) as [[Hold Hk]|(_ & Hk & _)]; [|by apply Hk]. rewrite Hk by done. by apply W.
  - intros h n sh k Hd Ht. destruct (shifted_dock _ _ _ _ _ _ _ _ _ W S Hd) as [[Hold _]|(-> & En & -> & Hh & -> & _)].
    + eapply W; eauto.
    + rewrite shardMap_lookup, decide_True by done. by apply W.
  - intros k Ht. apply W; auto.
  - intros h op Hop. unfold fupd. destruct (decide (h = g)) as [->|]; [|by apply W]. intros Hh.
    destruct (sf_shard _ _ _ _ _ S _ Hh) as [[Hold _]|(_ & _ & Hk)]; [|by apply Hk].
    apply S; [by apply Hsent, W|by apply W].
  - intros h n sh info op Hop Hd Ht. destruct (shifted_dock _ _ _ _ _ _ _ _ _ W S Hd) as [[Hold ->]|(-> & En & -> & Hh & _ & ->)].
    + eapply W; eauto.
    + intros [= <-]. by apply W.
  - intros op Hop. apply taken_goesOn; [done|]. by apply W.
  - apply W.
  - apply W.
  - intros h. unfold fupd. destruct (decide _); [apply S|apply W].
  - intros h n info. unfold fupd. destruct (decide _); [apply S|apply W].
Qed.

(** A change of configuration. *)
Lemma winv_config σ X Y g cfg :
  winv σ X Y → g ≠ 0 → index cfgs (Num cfg) = Some cfg → Num cfg <= cur σ g + 1 →
  winv (fupd g (doUpdateConfig cfg (σ g)) σ) X Y.
Proof.
  intros W Hg Hcfg Hle. destruct (nb_num _ Hcfgs _ _ Hcfg) as [_ Hlen]. pose proof (w_ginv _ _ _ W g) as G.
  destruct (decide (Num (CurConfig (σ g)) < Num cfg ∧ missing (σ g) = [])) as [HS|HS].
  2:{ rewrite (proj1 (doUpdateConfig_cases cfg (σ g)) HS). by eapply winv_ext; [apply fupd_same|]. }
  destruct (proj2 (doUpdateConfig_cases cfg (σ g)) HS) as (Ec & El & Eg & Ei & Es & Em & Ed & Eci).
  set (τ := doUpdateConfig cfg (σ g)) in *. destruct HS as [Hlt Hm]. assert (Num cfg = cur σ g + 1) as En by lia.
  apply winv_shifted; [done|done|]. split.
  - by apply doUpdateConfig_inv.
  - split; [done|]. right. by rewrite Ec.
  - by rewrite Ec.
  - intros _. rewrite Ec, El, En. replace (cur σ g + 1 - 1) with (cur σ g) by lia. apply W.
  - intros n. rewrite Ed, Eci. destruct (decide (Num cfg = n)) as [->|]; [by rewrite !lookup_insert_eq|].
    rewrite !lookup_insert_ne by done. apply W.
  - intros n s dock sh. rewrite Ed, Eci, Ec. intros [[<- <-]|[Hne Hd]]%lookup_insert_Some Hs.
    + right. rewrite outShards_lookup in Hs. destruct (decide _) as [Ho%outShards_elem|]; [|done]. injection Hs as <-.
      rewrite lookup_insert_eq. naive_solver.
    + left. rewrite lookup_insert_ne by done. split; [by exists dock|done].
  - intros s. rewrite Es, hasShard_list, keepShards_elem. intros [Hh Ho]. left. split; [done|].
    intros k <-. rewrite Em, map_lookup_filter. destruct (ShardKVMap (σ g) !! k); cbn; [|done].
    rewrite option_guard_True; [done|]. by apply keepShards_elem.
  - intros c r _. by rewrite Ei.
  - rewrite Ei. apply W.
  - intros n info. rewrite Eci. intros [[_ <-]|[_ ?]]%lookup_insert_Some; by eapply W.
Qed.

(** Shards that no group had before configuration 1. *)
Definition firstShards (shifts : list ShiftShard) : Prop :=
  ∀ sh, sh ∈ shifts → ss_ConfigNum sh = 1 ∧ ss_KVMap sh = ∅ ∧ 0 <= ss_ShardId sh < NShards.

(** Shards and sessions from the dock of a group. *)
Definition fromDock σ (shifts : list ShiftShard) (info : ClientInfo) : Prop :=
  ∃ h n, n <= cur σ h ∧ Config2ClientInfo (σ h) !! n = Some info ∧ ∀ sh, sh ∈ shifts → docked σ h n (ss_ShardId sh) sh.

Lemma docked_ok σ X Y h n s sh :
  winv σ X Y → docked σ h n s sh → shift_ok sh ∧ ss_ShardId sh = s ∧ ss_ConfigNum sh = n ∧ 0 <= s < NShards.
Proof.
  intros W Hd. pose proof Hd as (dock & H1 & H2). destruct (gi_dock _ (w_ginv _ _ _ W h) _ _ _ _ H1 H2) as (? & ? & ? & _).
  split_and!; try done; apply (w_dock _ _ _ W) in Hd as (_ & cfg & Hc & Ho);
    apply index_lt in Ho; destruct (nb_num _ Hcfgs _ _ Hc) as [_ Hl]; lia.
Qed.

Lemma acceptShards_info op skv τ :
  acceptShards ord op skv = Some τ → Info τ = merge (ord 13 _ (CompletedReq (opClientInfo op))) (opClientInfo op) (Info skv).
Proof.
  unfold acceptShards. intros HA. inv_bind HA. injection HA as <-. cbn. f_equal. revert skv E.
  induction (ShiftShards op) as [|sh shs IH]; intros skv E; cbn in E; [by injection E as <-|].
  inv_bind E. apply IH in E as ->. by apply acceptShard_frame in E0 as [=].
Qed.

Lemma merge_real X Y s info ci : real X Y info → real X Y ci → real X Y (merge (ord s _ (CompletedReq info)) info ci).
Proof.
  intros Hi Hc c. pose proof (merge_session ord s info ci c HO) as Hm. cbn in Hm. unfold session in Hm.
  destruct Hm as [[= -> ->]|[= -> ->]]; [apply Hc|apply Hi].
Qed.

Lemma winv_shards σ X Y g shifts info :
  winv σ X Y → g ≠ 0 → (firstShards shifts ∧ info = ClientInfo0) ∨ fromDock σ shifts info →
  winv (fupd g (advance (shardsOp shifts info) (σ g)) σ) X Y.
Proof.
  intros W Hg Hsrc. set (op := shardsOp shifts info). pose proof (w_ginv _ _ _ W g) as G.
  assert (shifts_ok shifts) as Hok.
  { intros sh Hsh. destruct Hsrc as [[HF _]|(h & n & _ & _ & HD)].
    - destruct (HF sh Hsh) as (_ & Hm & ?). split; [|done]. intros k. rewrite Hm. set_solver.
    - by destruct (docked_ok _ _ _ _ _ _ _ W (HD sh Hsh)) as (? & ? & ? & ?). }
  destruct (acceptShards_inv ord HO op (σ g) G Hok) as (τ & Eτ & Gτ & Eg & Ec & El & Ed & Eci & Hold & Hnew & _ & HE).
  assert (advance op (σ g) = τ) as ->.
  { unfold advance. change (applyOp ord op (σ g)) with (skv ← acceptShards ord op (σ g); Some (skv, @nil (nat * Result))). by rewrite Eτ. }
  assert (real X Y info) as Hri.
  { destruct Hsrc as [[_ ->]|(h & n & _ & Hi & _)]; [|by eapply W]. intros c Hc. by change (1 <= 0) in Hc. }
  apply winv_shifted; [done|done|]. split.
  - done.
  - split; [done|]. left. split; [done|]. intros s Hs. by apply Hold.
  - rewrite Ec. apply W.
  - rewrite Ec, El. apply W.
  - intros n. rewrite Ed, Eci. apply W.
  - intros n s dock sh. rewrite Ed, Eci. intros Hd Hs. left. split; [by exists dock|done].
  - intros s Hs. rewrite Ec. destruct (hasShard (Shards (σ g)) s) eqn:Hh; [left; split; [done|by apply Hold]|right].
    destruct (Hnew s Hh Hs) as (sh & Hsh & (Hn & Ho & _) & <- & Hk). rewrite (w_gid _ _ _ W) in Ho.
    pose proof (missing_not_taken σ X Y W g _ Ho Hh) as Hnt. destruct Hsrc as [[HF _]|(h & n & _ & Hi & HD)].
    + destruct (HF sh Hsh) as (H1 & H2 & _). assert (cur σ g = 1) as E1 by congruence. rewrite E1 in *. split_and!; [lia| |].
      * intros k Hks. rewrite Hk, H2 by done. symmetry. apply W. by rewrite Hks.
      * intros o Hoo Hs'. destruct Hnt. rewrite <-Hs'. by apply W.
    + pose proof (HD sh Hsh) as Hd. destruct (docked_ok _ _ _ _ _ _ _ W Hd) as (_ & _ & Hn' & _).
      assert (n = cur σ g) as -> by congruence. destruct (w_dock _ _ _ W _ _ _ _ Hd) as [? ?]. split_and!.
      * intros _. exists h. split; [done|lia].
      * intros k Hks. rewrite Hk by done. rewrite <-Hks in *. by eapply W.
      * intros o Hoo Hs'. apply HE; [by apply Hsent, W|right]. rewrite <-Hs' in *. by eapply W.
  - intros c r Hr ?. apply HE; [done|by left].
  - rewrite (acceptShards_info _ _ _ Eτ). by apply merge_real, W.
  - intros n i. rewrite Eci. apply W.
Qed.

Lemma winv_more σ X Y Y' : (∀ op, op ∈ Y → op ∈ Y') → winv σ X Y → winv σ X Y'.
Proof.
  intros HY [? ? ? ? ? ? ? ? ? ? ? ? ? ? ? ? Hr Hd]. split; try done; intros; eapply real_mono; eauto.
Qed.

(** ** The logs *)

Definition configOp (cfg : Config) : Op := mkOp CONFIG GetArgs0 PutAppendArgs0 0 0 cfg [] ClientInfo0.

(** What the groups commit: requests, configurations in turn, and shards, when the
    groups are in the states [σ]. *)
Inductive proposal σ g : Op → Prop :=
  | prop_request op : sent op → proposal σ g op
  | prop_config cfg : index cfgs (Num cfg) = Some cfg → Num cfg <= cur σ g + 1 → proposal σ g (configOp cfg)
  | prop_first shifts : firstShards shifts → proposal σ g (shardsOp shifts ClientInfo0)
  | prop_dock shifts info : fromDock σ shifts info → proposal σ g (shardsOp shifts info).

Lemma advance_config cfg skv : advance (configOp cfg) skv = doUpdateConfig cfg skv.
Proof. done. Qed.

Lemma winv_proposal σ X Y g op :
  winv σ X Y → g ≠ 0 → proposal σ g op →
  winv (fupd g (advance op (σ g)) σ) (if executes op (σ g) then X ++ [op] else X) (Y ++ [op]).
Proof.
  intros W Hg HP. apply (winv_more _ _ _ (Y ++ [op])) in W; [|intros o Ho; apply elem_of_app; by left].
  destruct HP as [op Hop|cfg H1 H2|shifts HF|shifts info HD].
  - apply winv_client; [done..|]. apply elem_of_app. right. by left.
  - rewrite advance_config. by apply winv_config.
  - apply winv_shards; auto.
  - apply winv_shards; auto.
Qed.

(** The state of a group whose server has applied a log, from the start. *)
Context (r0 : R).
Definition boot g : ShardKV R := mkShardKV 0 r0 g (-1) 0 Config0 Config0 ∅ ∅ ClientInfo0 ∅ 0 ∅ ∅ ∅ 0.
Definition replay g (log : list Op) : ShardKV R := foldl (flip advance) (boot g) log.

(** All logs in one sequence: what the groups committed, in the order of time. *)
Implicit Types G : list (Z * Op).
Definition logOf g G : list Op := snd <$> filter (λ x, x.1 = g) G.
Definition groupOf G g : ShardKV R := replay g (logOf g G).

(** The requests that were executed, in order. *)
Definition executed1 G (i : nat) (x : Z * Op) : list Op :=
  if executes x.2 (groupOf (take i G) x.1) then [x.2] else [].
Definition executions G : list Op := concat (imap (executed1 G) G).

Lemma logOf_snoc g G h op : logOf g (G ++ [(h, op)]) = logOf g G ++ if decide (h = g) then [op] else [].
Proof. unfold logOf. rewrite filter_app, fmap_app, filter_cons. cbn. by destruct (decide (h = g)). Qed.

Lemma groupOf_snoc G h op g : groupOf (G ++ [(h, op)]) g = fupd h (advance op (groupOf G h)) (groupOf G) g.
Proof.
  unfold groupOf, replay, fupd. rewrite logOf_snoc. destruct (decide (h = g)) as [->|Hne].
  - rewrite decide_True by done. by rewrite foldl_app.
  - rewrite decide_False by done. by rewrite app_nil_r.
Qed.

Lemma executions_snoc G h op :
  executions (G ++ [(h, op)]) = if executes op (groupOf G h) then executions G ++ [op] else executions G.
Proof.
  unfold executions. rewrite imap_app, concat_app. cbn. unfold executed1 at 2. cbn. rewrite Nat.add_0_r, take_app_length, app_nil_r.
  assert (imap (executed1 (G ++ [(h, op)])) G = imap (executed1 G) G) as ->.
  { apply imap_ext. intros i x Hx%lookup_lt_Some. unfold executed1. rewrite take_app_le by lia. done. }
  destruct (executes op (groupOf G h)); [done|apply app_nil_r].
Qed.

Inductive committed : list (Z * Op) → Prop :=
  | committed_nil : committed []
  | committed_snoc G g op : committed G → g ≠ 0 → proposal (groupOf G) g op → committed (G ++ [(g, op)]).

Lemma boot_inv g : ginv (boot g).
Proof. by split; cbn. Qed.

Lemma winv_boot : winv boot [] [].
Proof.
  assert (∀ g n s sh, ¬ docked boot g n s sh) as HD.
  { intros g n s sh (dock & Hd & _). cbn in Hd. by rewrite lookup_empty in Hd. }
  split; try done; try (by intros; exfalso; eapply HD).
  - intros g. apply Hfirst.
  - intros g n [dock Hd]. cbn in Hd. by rewrite lookup_empty in Hd.
  - intros g s m (? & _ & [Hm|[-> Hh]]) Hm2; [cbn in Hm; lia|done].
  - intros op Hop. by apply elem_of_nil in Hop.
  - constructor.
  - intros op Hop. by apply elem_of_nil in Hop.
Qed.

(** Whatever the groups commit, every shard is in one place with its data and
    sessions. *)
Lemma committed_winv G : committed G → winv (groupOf G) (executions G) G.*2.
Proof.
  induction 1 as [|G g op HG IH Hg HP]; [by apply winv_boot|].
  rewrite executions_snoc, fmap_app. eapply winv_ext; [apply groupOf_snoc|]. by apply winv_proposal.
Qed.

(** ** Along the logs *)

Lemma proposal_ok σ X Y g op : winv σ X Y → proposal σ g op → op_ok op.
Proof.
  intros W [o Ho|cfg Hc _|shifts HF|shifts info (h & n & _ & _ & HD)].
  - by apply Hsent.
  - by apply (nb_num _ Hcfgs _ _ Hc).
  - intros sh Hsh. destruct (HF sh Hsh) as (_ & Hm & ?). split; [|done]. intros k. rewrite Hm. set_solver.
  - intros sh Hsh. by destruct (docked_ok _ _ _ _ _ _ _ W (HD sh Hsh)) as (? & ? & ? & ?).
Qed.

Lemma committed_ok G x : committed G → x ∈ G → x.1 ≠ 0 ∧ op_ok x.2.
Proof.
  induction 1 as [|G g op HG IH Hg HP]; [by intros ?%elem_of_nil|]. intros [?| ->%list_elem_of_singleton]%elem_of_app; [auto|].
  split; [done|]. eapply proposal_ok; [by apply committed_winv|done].
Qed.

Lemma committed_take G N : committed G → committed (take N G).
Proof.
  induction 1 as [|G g op HG IH Hg HP]; [rewrite take_nil; constructor|].
  destruct (decide (N <= length G)%nat); [by rewrite take_app_le|]. rewrite take_ge; [by constructor|].
  rewrite length_app. cbn. lia.
Qed.

(** Applying more of a log: the configuration goes on, the docks stay. *)
Lemma advance_later ops skv :
  ginv skv → (∀ op, op ∈ ops → op_ok op) → let skv' := foldl (flip (advance)) skv ops in
  ginv skv' ∧ gid skv' = gid skv ∧ Num (CurConfig skv) <= Num (CurConfig skv') ∧
  ∀ n, n <= Num (CurConfig skv) → OutShardsDock skv' !! n = OutShardsDock skv !! n ∧
    Config2ClientInfo skv' !! n = Config2ClientInfo skv !! n.
Proof.
  revert skv. induction ops as [|op ops IH]; intros skv G Hops; cbn; [by split_and!|].
  destruct (applyOp_inv ord HO op skv G) as (s1 & sends & EA & G1 & Eg & Hn & Hd & _); [apply Hops; by left|].
  assert (advance op skv = s1) as -> by (unfold advance; by rewrite EA).
  destruct (IH s1 G1) as (G2 & Eg2 & Hn2 & Hd2); [intros o Ho; apply Hops; by right|].
  split_and!; [done|congruence|lia|]. intros n Hle. destruct (Hd n Hle) as [<- <-]. apply Hd2. lia.
Qed.

Lemma logOf_elem g G op : op ∈ logOf g G ↔ (g, op) ∈ G.
Proof.
  unfold logOf. rewrite list_elem_of_fmap. split.
  - intros ([h o] & -> & [<- Hin]%list_elem_of_filter). done.
  - intros Hin. exists (g, op). split; [done|]. by apply list_elem_of_filter.
Qed.

Lemma log_ok G g op : committed G → op ∈ logOf g G → op_ok op.
Proof. intros HG Hop%logOf_elem. by apply (committed_ok G (g, op)). Qed.

(** A server that is behind sees what its group has been. *)
Lemma replay_later G g p : committed G →
  let τ := replay g (take p (logOf g G)) in
  ginv τ ∧ gid τ = g ∧ Num (CurConfig τ) <= cur (groupOf G) g ∧
  ∀ n, n <= Num (CurConfig τ) → OutShardsDock (groupOf G g) !! n = OutShardsDock τ !! n ∧
    Config2ClientInfo (groupOf G g) !! n = Config2ClientInfo τ !! n.
Proof.
  intros HG. cbn. assert (∀ op, op ∈ logOf g G → op_ok op) as Hok by (intros; by eapply log_ok).
  destruct (advance_later (take p (logOf g G)) (boot g) (boot_inv g)) as (G1 & Eg & _).
  { intros op (i & Hi%list_elem_of_lookup_2 & _)%elem_of_take. auto. }
  assert (groupOf G g = foldl (flip advance) (replay g (take p (logOf g G))) (drop p (logOf g G))) as ->.
  { unfold groupOf, replay. by rewrite <-foldl_app, take_drop. }
  destruct (advance_later (drop p (logOf g G)) _ G1) as (_ & _ & Hn & Hd).
  { intros op Hi. apply Hok. rewrite <-(take_drop p (logOf g G)). apply elem_of_app. by right. }
  by split_and!.
Qed.

(** Where in the sequence a log is as long as a prefix of it. *)
Lemma logOf_take g G p : (p <= length (logOf g G))%nat →
  ∃ N, (N <= length G)%nat ∧ logOf g (take N G) = take p (logOf g G) ∧
    ∀ op, logOf g G !! p = Some op → G !! N = Some (g, op).
Proof.
  induction G as [|[h o] G IH] using rev_ind; intros Hp.
  { exists 0%nat. cbn in *. by destruct p. }
  rewrite logOf_snoc in Hp |- *. destruct (decide (p < length (logOf g G))%nat) as [Hlt|Hge].
  - destruct IH as (N & HN & Hl & Hop); [lia|]. exists N. assert (N < length G)%nat.
    { destruct (lookup_lt_is_Some_2 _ _ Hlt) as [op Ho]. apply (lookup_lt_Some _ _ _ (Hop op Ho)). }
    rewrite length_app, !take_app_le by lia. split_and!; [lia|done|]. intros op.
    rewrite lookup_app_l by done. intros Ho. rewrite lookup_app_l by done. auto.
  - destruct (decide (h = g)) as [->|Hne].
    + destruct (decide (p = length (logOf g G))) as [->|].
      * exists (length G). rewrite length_app, !take_app_length. split_and!; [lia|done|]. intros op.
        rewrite list_lookup_middle by done. intros [= <-]. by rewrite list_lookup_middle.
      * rewrite length_app in Hp. cbn in Hp. exists (length (G ++ [(g, o)])). rewrite take_ge, logOf_snoc by done. rewrite decide_True by done.
        rewrite take_ge by (rewrite length_app; cbn; lia). split_and!; [done|done|]. intros op Ho%lookup_lt_Some.
        rewrite length_app in Ho. cbn in Ho. lia.
    + rewrite app_nil_r in Hp |- *. exists (length (G ++ [(h, o)])). rewrite take_ge, logOf_snoc, decide_False by done.
      rewrite app_nil_r. assert (p = length (logOf g G)) as -> by lia. rewrite take_ge by done. split_and!; [done|done|].
      intros op Ho%lookup_lt_Some. lia.
Qed.

(** What is proposed stays so. *)
Lemma proposal_later G h op' g op :
  committed (G ++ [(h, op')]) → proposal (groupOf G) g op → proposal (groupOf (G ++ [(h, op')])) g op.
Proof.
  intros HG HP. assert (committed G) as HG0 by (rewrite <-(take_app_length G [(h, op')]); by apply committed_take).
  pose proof (committed_winv G HG0) as W.
  assert (∀ f, logOf f G = take (length (logOf f G)) (logOf f (G ++ [(h, op')]))) as Hpre.
  { intros f. by rewrite logOf_snoc, take_app_length. }
  assert (∀ f, cur (groupOf G) f <= cur (groupOf (G ++ [(h, op')])) f ∧
    ∀ n, n <= cur (groupOf G) f → OutShardsDock (groupOf (G ++ [(h, op')]) f) !! n = OutShardsDock (groupOf G f) !! n ∧
      Config2ClientInfo (groupOf (G ++ [(h, op')]) f) !! n = Config2ClientInfo (groupOf G f) !! n) as Hl.
  { intros f. destruct (replay_later (G ++ [(h, op')]) f (length (logOf f G)) HG) as (_ & _ & H1 & H2).
    rewrite <-Hpre in H1, H2. done. }
  destruct HP as [op Hop|cfg H1 H2|shifts HF|shifts info (f & n & Hn & Hi & HD)].
  - by apply prop_request.
  - apply prop_config; [done|]. destruct (Hl g). lia.
  - by apply prop_first.
  - apply prop_dock. exists f, n. destruct (Hl f) as [Hc Hd]. destruct (Hd n Hn) as [Hd1 Hd2].
    split_and!; [lia|by rewrite Hd2|]. intros sh Hsh. destruct (HD sh Hsh) as (dock & H1 & H2). exists dock. by rewrite Hd1.
Qed.

End groups.
