(* ===== verification/ShardReplicas.v ===== *)
(** * The servers of a group

    A server of a group is where the group's log has been applied up to some entry:
    it has the table, shards, sessions and configurations that replaying the log
    gives, whatever the order of its maps, and of the docks those it has not cleaned
    up. *)

From S2P Require Import Prelude LabGob Persister Raft RaftLog RaftState RaftApi Dedup Clerk ShardCtrler Rebalance CtrlerState ShardKV Migration ShardGroups.

(** ** The order of a map does not matter to [merge] *)

(** A client's entry in a session table. *)
Definition entryOf (c : Z) (ci : ClientInfo) : option Z * option Result := (CompletedReq ci !! c, CompletedResult ci !! c).

Lemma mergeStep_other info ci c n c' : c ≠ c' → entryOf c' (mergeStep info ci (c, n)) = entryOf c' ci.
Proof.
  intros Hne. unfold mergeStep, entryOf. destruct (_ <? _); [cbn; by rewrite !lookup_insert_ne|].
  destruct (_ && _); cbn; by rewrite ?lookup_insert_ne.
Qed.

Lemma mergeStep_reads info ci ci' c n :
  entryOf c ci = entryOf c ci' → entryOf c (mergeStep info ci (c, n)) = entryOf c (mergeStep info ci' (c, n)).
Proof.
  intros [= H1 H2]. unfold mergeStep, entryOf. assert (reqOf ci c = reqOf ci' c) as -> by (unfold reqOf; by rewrite H1).
  assert (resultOf ci c = resultOf ci' c) as -> by (unfold resultOf; by rewrite H2).
  destruct (_ <? _); [cbn; by rewrite !lookup_insert_eq|]. destruct (_ && _); cbn; rewrite ?lookup_insert_eq; by rewrite ?H1, ?H2.
Qed.

Lemma merge_entry info entries ci c : NoDup entries.*1 →
  (∀ n, (c, n) ∈ entries → entryOf c (merge entries info ci) = entryOf c (mergeStep info ci (c, n))) ∧
  (c ∉ entries.*1 → entryOf c (merge entries info ci) = entryOf c ci).
Proof.
  unfold merge. revert ci. induction entries as [|[c' n'] l IH]; intros ci HN; [split; [by intros n ?%elem_of_nil|done]|].
  rewrite fmap_cons in HN. apply NoDup_cons in HN as [Hc' HN]. cbn [foldl].
  destruct (IH (mergeStep info ci (c', n')) HN) as [H1 H2]. split.
  - intros n [[= -> ->]|Hin]%elem_of_cons; [by apply H2|]. rewrite (H1 n Hin). apply mergeStep_reads, mergeStep_other.
    intros ->. apply Hc', list_elem_of_fmap. by exists (c, n).
  - rewrite fmap_cons, not_elem_of_cons. cbn [fst]. intros [Hne Hl]. rewrite (H2 Hl). by apply mergeStep_other.
Qed.

Lemma merge_order ord ord' s info ci :
  valid_order ord → valid_order ord' →
  merge (ord s _ (CompletedReq info)) info ci = merge (ord' s _ (CompletedReq info)) info ci.
Proof.
  intros HO HO'. assert (∀ c, entryOf c (merge (ord s _ (CompletedReq info)) info ci) =
    entryOf c (merge (ord' s _ (CompletedReq info)) info ci)) as HE.
  { intros c. destruct (merge_entry info (ord s _ (CompletedReq info)) ci c) as [H1 H2]; [by apply ord_NoDup|].
    destruct (merge_entry info (ord' s _ (CompletedReq info)) ci c) as [H1' H2']; [by apply ord_NoDup|].
    assert (∀ o, valid_order o → c ∈ (o s _ (CompletedReq info)).*1 ↔ is_Some (CompletedReq info !! c)) as Hin.
    { intros o Ho. rewrite list_elem_of_fmap. split.
      - intros ([c' n] & -> & Hn%ord_elem); [by eexists|done].
      - intros [n Hn]. exists (c, n). split; [done|by apply ord_elem]. }
    destruct (CompletedReq info !! c) as [n|] eqn:E.
    - rewrite (H1 n), (H1' n); [done|by apply ord_elem..].
    - rewrite H2, H2'; [done|..]; rewrite Hin by done; intros [? ?]; congruence. }
  destruct (merge (ord s _ _) info ci) as [q r], (merge (ord' s _ _) info ci) as [q' r'].
  f_equal; apply map_eq; intros c; by injection (HE c).
Qed.

(** ** Replicas *)

Section replicas.
Context {R : Type} `{!RaftApi Op R} `{!Gob SnapshotState} (ord : Order) (HO : valid_order ord).
Implicit Types (skv τ : ShardKV R).

Record rep skv τ : Prop := {
  rp_gid : gid skv = gid τ;
  rp_cur : CurConfig skv = CurConfig τ;
  rp_last : LastConfig skv = LastConfig τ;
  rp_shards : Shards skv = Shards τ;
  rp_map : ShardKVMap skv = ShardKVMap τ;
  rp_info : Info skv = Info τ;
  rp_dock : ∀ n dock, OutShardsDock skv !! n = Some dock →
    OutShardsDock τ !! n = Some dock ∧ Config2ClientInfo skv !! n = Config2ClientInfo τ !! n;
}.

(** What applying a command leaves alone. *)
Definition local skv := (me skv, rf skv, maxraftstate skv, CommitedId skv, CompletedChan skv, nextChan skv, Dead skv).

(** The state of the service alone, which [rep] compares, apart from the docks. *)
Lemma rep_missing skv τ : rep skv τ → missing skv = missing τ.
Proof. intros []. unfold missing. by rewrite rp_gid0, rp_cur0, rp_shards0. Qed.

Lemma rep_perform op skv τ : rep skv τ → perform op skv = perform op τ.
Proof. intros []. unfold perform. by rewrite rp_gid0, rp_cur0, rp_shards0, rp_map0. Qed.

Lemma rep_fresh op skv τ : rep skv τ → fresh_request op skv = fresh_request op τ.
Proof. intros []. unfold fresh_request. by rewrite rp_info0. Qed.

Lemma rep_serving key skv τ : rep skv τ → serving key skv ↔ serving key τ.
Proof. intros []. unfold serving. by rewrite rp_gid0, rp_cur0, rp_shards0. Qed.

Lemma doUpdateConfig_rep cfg skv τ :
  rep skv τ → rep (doUpdateConfig cfg skv) (doUpdateConfig cfg τ) ∧ local (doUpdateConfig cfg skv) = local skv.
Proof.
  intros HR. pose proof (rep_missing _ _ HR) as Hm. destruct HR as [Eg Ec El Es Em Ei Ed].
  unfold doUpdateConfig, isMigrateFinished. cbn [fst]. rewrite Ec, Hm.
  destruct (_ <=? _); [done|]. destruct (negb _); [done|]. split; [|done].
  assert (outShards cfg skv = outShards cfg τ) as Ho by (unfold outShards; by rewrite Es, Eg).
  assert (keepShards cfg skv = keepShards cfg τ) as Hk by (unfold keepShards; by rewrite Es, Eg).
  unfold compareConfig. rewrite Ho, Hk. split; cbn; try done; [by rewrite Em|].
  intros n dock. rewrite Em. unfold copyInfo. rewrite Ei. destruct (decide (Num cfg = n)) as [->|Hne].
  - by rewrite !lookup_insert_eq.
  - rewrite !lookup_insert_ne by done. apply Ed.
Qed.

Lemma acceptAll_rep shs skv τ τ' :
  rep skv τ → acceptAll shs τ = Some τ' → ∃ skv', acceptAll shs skv = Some skv' ∧ rep skv' τ' ∧ local skv' = local skv.
Proof.
  revert skv τ. induction shs as [|sh shs IH]; intros skv τ HR HA; cbn in HA |- *.
  { injection HA as <-. by exists skv. }
  inv_bind HA. assert (∃ s1, acceptShard sh skv = Some s1 ∧ rep s1 x ∧ local s1 = local skv) as (s1 & -> & HR1 & HL1).
  { pose proof HR as [Eg Ec El Es Em Ei Ed]. unfold acceptShard in E |- *. rewrite Ec, Eg, Es.
    destruct (negb _); [injection E as <-; by exists skv|]. destruct (owner _ _); [|done]. cbn in E |- *.
    destruct (_ || _); injection E as <-; [by exists skv|]. eexists. split; [done|]. rewrite Em. by split. }
  cbn. destruct (IH s1 x HR1 HA) as (s2 & -> & HR2 & HL2). exists s2. split_and!; [done|done|congruence].
Qed.

Lemma perform_error op skv m err v : perform op skv = Some (m, err, v) → err ≠ ErrNoKey.
Proof.
  unfold perform. intros HP. destruct (opType op); try (by injection HP as <- <- <-);
    inv_bind HP; destruct (negb _); [by injection HP as <- <- <-| |by injection HP as <- <- <-| |by injection HP as <- <- <-|];
    destruct (negb _); by injection HP as <- <- <-.
Qed.

(** Applying a command at a server, in whatever order it meets its maps. *)
Lemma applyOp_rep ord' op skv τ :
  valid_order ord' → rep skv τ → ginv τ → op_ok op →
  ∃ skv' sends, applyOp ord' op skv = Some (skv', sends) ∧ rep skv' (advance ord op τ) ∧ local skv' = local skv ∧
    ∀ ch res, (ch, res) ∈ sends → Err res ≠ ErrNoKey ∧ (Err res = OK →
      isClientOp op = true ∧ executes op τ = true ∧ Value res = (effect op (ShardKVMap τ)).2 ∧
      r_ClientId res = ClientId op ∧ r_ReqNo res = ReqNo op).
Proof.
  intros HO' HR G Hop. destruct (isClientOp op) eqn:Hc.
  - assert (∀ o (s : ShardKV R), applyOp o op s = if fresh_request op s then doOperation op s else Some (s, [])) as HA.
    { intros o s. unfold applyOp, isClientOp in *. by destruct (opType op). }
    unfold advance, executes. rewrite !HA, (rep_fresh op _ _ HR), Hc. destruct (fresh_request op τ) eqn:HF; cbn [andb].
    2:{ exists skv, []. split_and!; try done. by intros ch res ?%elem_of_nil. }
    unfold doOperation. rewrite (rep_perform op _ _ HR). destruct (perform_cases op τ G Hop Hc) as [Hyes Hno].
    assert (∃ m err v, perform op τ = Some (m, err, v) ∧ err ≠ ErrNoKey ∧ (err = OK → serving (opKey op) τ ∧ v = (effect op (ShardKVMap τ)).2))
      as (m & err & v & -> & Hnk & Hsv).
    { destruct (decide (owner (CurConfig τ) (key2shard (opKey op)) = Some (gid τ) ∧ hasShard (Shards τ) (key2shard (opKey op)) = true)) as [HS|HS].
      - rewrite (Hyes HS). do 3 eexists. split_and!; done.
      - destruct (Hno HS) as (err & ? & Hp & _). pose proof (perform_error _ _ _ _ _ Hp). rewrite Hp. by do 3 eexists. }
    cbn. do 2 eexists. split; [done|]. pose proof HR as [Eg Ec El Es Em Ei Ed]. split_and!.
    + split; cbn; try done. by rewrite Ei.
    + done.
    + intros ch res Hin. destruct (CompletedChan skv !! ClientId op) as [c|]; [|by apply elem_of_nil in Hin].
      apply list_elem_of_singleton in Hin as [= -> ->]. split; [done|]. intros Herr. cbn in Herr |- *. destruct (Hsv Herr) as [HS ->].
      rewrite bool_decide_eq_true_2; done.
  - unfold op_ok, isClientOp in *. destruct (opType op) eqn:Ht; try done.
    + unfold advance, applyOp. rewrite Ht. do 2 eexists. split; [done|].
      destruct (doUpdateConfig_rep (opConfig op) skv τ HR). split_and!; [done|done|by intros ch res ?%elem_of_nil].
    + destruct (acceptShards_inv ord HO op τ G Hop) as (τ' & Hτ & _).
      unfold advance, applyOp. rewrite Ht, Hτ. cbn. unfold acceptShards in Hτ |- *. inv_bind Hτ. injection Hτ as <-.
      destruct (acceptAll_rep _ _ _ _ HR E) as (s1 & -> & HR1 & HL). cbn. do 2 eexists. split; [done|].
      pose proof HR1 as [Eg Ec El Es Em Ei Ed]. split_and!; [|done|by intros ch res ?%elem_of_nil].
      split; cbn; try done. rewrite Ei. by apply merge_order.
Qed.

(** Cleaning up drops docks. *)
Lemma clean_rep ord' skv τ : rep skv τ → rep (clean ord' skv) τ ∧ local (clean ord' skv) = local skv.
Proof.
  intros [Eg Ec El Es Em Ei Ed]. split; [|done]. split; try done. intros n dock. cbn.
  intros [Hd Hn]%map_lookup_filter_Some. destruct (Ed n dock Hd) as [? <-]. split; [done|]. rewrite map_lookup_filter.
  destruct (Config2ClientInfo skv !! n); cbn; [|done]. by rewrite option_guard_True.
Qed.

Lemma sayHelloEnd_rep ord' nums skv τ : rep skv τ → rep (sayHelloEnd ord' nums skv) τ ∧ local (sayHelloEnd ord' nums skv) = local skv.
Proof.
  intros HR. unfold sayHelloEnd. set (s1 := _ <| _ := _ |>). assert (rep s1 τ) as HR1 by by destruct HR; split.
  destruct (_ <? _)%nat; [|done]. by destruct (clean_rep ord' s1 τ HR1).
Qed.

(** What a server takes out of its dock is in the group's. *)
Lemma ShardDock_rep args skv τ :
  rep skv τ → pr_Success (ShardDock args skv) = true →
  ∃ dock, OutShardsDock τ !! ps_ConfigNum args = Some dock ∧
    (is_Some (Config2ClientInfo τ !! ps_ConfigNum args) → Config2ClientInfo τ !! ps_ConfigNum args = Some (pr_ClientInfo (ShardDock args skv))) ∧
    ∀ sh, sh ∈ pr_ShiftShards (ShardDock args skv) → ∃ s, dock !! s = Some sh.
Proof.
  intros HR. unfold ShardDock. destruct (OutShardsDock skv !! ps_ConfigNum args) as [dock|] eqn:Hd; [|done].
  destruct (rp_dock _ _ HR _ _ Hd) as [Hτ Hi]. case_bool_decide as Hn; [done|]. intros _. cbn. exists dock. split_and!; [done| |].
  - rewrite Hi. by intros [i ->].
  - intros sh (x & -> & (s & _ & Hs)%list_elem_of_omap)%list_elem_of_fmap. exists s. rewrite Hs. by destruct x.
Qed.

End replicas.
