(* ===== verification/MapReduce.v ===== *)
(** * MapReduce: the coordinator and its workers (mr)

    The coordinator hands out map tasks, then reduce tasks, and hands a task out
    again when it has not been reported finished for ten seconds.  A worker maps a
    file into one intermediate file per reduce task, or reduces the intermediate
    files of one reduce task, and may die at any point.

    Intermediate files are lists of key/value pairs and output files lists of
    lines, by file name; a file appears as a whole, by the rename of a temporary
    file, which is taken to succeed.  A call of the coordinator reads the clock
    once. *)

From Stdlib Require Import Ascii.
From stdpp Require Import pretty.
From S2P Require Import Prelude.
Open Scope Z_scope.

(** ** The coordinator *)

(** Times are in nanoseconds. *)
Definition Second : Z := 10 ^ 9.
Definition Hour : Z := 3600 * Second.

Definition InitStatus : Z := 0.
Definition MapStatus : Z := 1.
Definition ReduceStatus : Z := 2.
Definition ShutDowned : Z := 3.
Definition MapRequest : Z := 1.
Definition ReduceRequest : Z := 2.
Definition MapFinishRequest : Z := 3.
Definition ReduceFinishRequest : Z := 4.
Definition NoTask : Z := 0.
Definition NewTask : Z := 1.

Record Args := mkArgs { ReqType : Z; MapFinishedFileName : string; ReduceFinishedTaskId : Z }.
Record Reply := mkReply {
  NFile : Z; NReduce : Z; MasterStatus : Z; MapTaskId : Z; MapFileName : string; ReduceTaskId : Z; ReplyCode : Z }.

Record Coordinator := mkCoordinator {
  nfile : Z; nReduce : Z; files : gmap string Z; mTasks : gmap string Z; rTasks : gmap Z Z }.

#[export] Instance eta_Coordinator : Eta Coordinator :=
  λ c, mkCoordinator (nfile c) (nReduce c) (files c) (mTasks c) (rTasks c).
#[export] Instance set_mTasks : Setter mTasks.
Proof. setter. Defined.
#[export] Instance set_rTasks : Setter rTasks.
Proof. setter. Defined.

Definition GetCoordinatorStatus (c : Coordinator) : Z :=
  if (size (mTasks c) =? 0)%nat && (size (rTasks c) =? 0)%nat then ShutDowned
  else if negb (size (mTasks c) =? 0)%nat then MapStatus
  else if negb (size (rTasks c) =? 0)%nat then ReduceStatus
  else InitStatus.

(** The first task of a range loop that has waited for more than ten seconds. *)
Fixpoint firstExpired {K} (now : Z) (entries : list (K * Z)) : option K :=
  match entries with
  | [] => None
  | (k, lastTime) :: entries => if 10 * Second <? now - lastTime then Some k else firstExpired now entries
  end.

(** The order in which the runtime visits a map of tasks. *)
Definition TaskOrder : Type := ∀ K `{Countable K}, gmap K Z → list (K * Z).
Definition valid_tasks (ord : TaskOrder) : Prop :=
  ∀ K `{Countable K} (m : gmap K Z), ord K _ _ m ≡ₚ map_to_list m.

Definition DispatchTask (ord : TaskOrder) (now : Z) (args : Args) (c : Coordinator) : Coordinator * Reply :=
  let status := GetCoordinatorStatus c in
  let noTask := mkReply (nfile c) (nReduce c) status 0 "" 0 NoTask in
  if status =? ShutDowned then (c, noTask)
  else if ReqType args =? MapRequest then
    if status =? MapStatus then
      match firstExpired now (ord _ _ _ (mTasks c)) with
      | Some f => (c <| mTasks := <[f := now]> (mTasks c) |>,
                   mkReply (nfile c) (nReduce c) status (default 0 (files c !! f)) f 0 NewTask)
      | None => (c, noTask)
      end
    else (c, noTask)
  else if ReqType args =? ReduceRequest then
    if status =? ReduceStatus then
      match firstExpired now (ord _ _ _ (rTasks c)) with
      | Some t => (c <| rTasks := <[t := now]> (rTasks c) |>,
                   mkReply (nfile c) (nReduce c) status 0 "" t NewTask)
      | None => (c, noTask)
      end
    else (c, noTask)
  else if ReqType args =? MapFinishRequest then
    if (status =? MapStatus) && bool_decide (is_Some (mTasks c !! MapFinishedFileName args)) then
      let c := c <| mTasks := delete (MapFinishedFileName args) (mTasks c) |> in
      if (size (mTasks c) =? 0)%nat
      then (c <| rTasks := foldl (λ m i, <[i := now - Hour]> m) (rTasks c) (upto (nReduce c)) |>, noTask)
      else (c, noTask)
    else (c, noTask)
  else if ReqType args =? ReduceFinishRequest then
    if (status =? ReduceStatus) && bool_decide (is_Some (rTasks c !! ReduceFinishedTaskId args))
    then (c <| rTasks := delete (ReduceFinishedTaskId args) (rTasks c) |>, noTask)
    else (c, noTask)
  else (c, noTask).

Definition Done (c : Coordinator) : bool := (size (mTasks c) =? 0)%nat && (size (rTasks c) =? 0)%nat.

Definition MakeCoordinator (now : Z) (fs : list string) (nRed : Z) : Coordinator :=
  foldl (λ c '(index, v),
      mkCoordinator (nfile c) (nReduce c) (<[v := index]> (files c)) (<[v := now - Hour]> (mTasks c)) (rTasks c))
    (mkCoordinator (zlen fs) nRed ∅ ∅ ∅) (zip (upto (zlen fs)) fs).

(** ** The workers *)

Record KeyValue := mkKV { Key : string; Value : string }.

(** 32-bit FNV-1a, its sign bit cleared. *)
Definition fnv32a (key : string) : Z :=
  foldl (λ h c, (Z.lxor h (Z.of_N (Ascii.N_of_ascii c)) * 16777619) mod 2 ^ 32) 2166136261
        (String.list_ascii_of_string key).
Definition ihash (key : string) : Z := Z.land (fnv32a key) (2 ^ 31 - 1).

(** File names; [strconv.Itoa] is [pretty]. *)
Definition iname (x y : Z) : string := ("mr-" +:+ pretty x +:+ "-" +:+ pretty y)%string.
Definition outname (y : Z) : string := ("mr-out-" +:+ pretty y)%string.

(** One list per reduce task; no reduce task is a division by zero. *)
Definition splitStep (nRed : Z) (acc : option (list (list KeyValue))) (kv : KeyValue) : option (list (list KeyValue)) :=
  kvlists ← acc;
  if nRed =? 0 then None
  else l ← index kvlists (ihash (Key kv) mod nRed); store kvlists (ihash (Key kv) mod nRed) (l ++ [kv]).
Definition splitKVs (nRed : Z) (kvs : list KeyValue) : option (list (list KeyValue)) :=
  if nRed <? 0 then None else foldl (splitStep nRed) (Some (replicate (Z.to_nat nRed) [])) kvs.

(** The files a map task writes, in order.  [json kv] is what decoding gives back
    for an encoded pair, [sort] is [sort.Sort(ByKey(_))]. *)
Definition mapFiles (mapf : string → string → list KeyValue) (sort : list KeyValue → list KeyValue)
    (json : KeyValue → KeyValue) (reply : Reply) (content : string) : option (list (string * list KeyValue)) :=
  kvlists ← splitKVs (NReduce reply) (sort (mapf (MapFileName reply) content));
  Some (zip_with (λ index (kvlist : list KeyValue), (iname (MapTaskId reply) index, json <$> kvlist)) (upto (zlen kvlists)) kvlists).

(** A reduce task adds the pairs of one file to its table. *)
Definition readFile (kvs : list KeyValue) (result : gmap string (list string)) : gmap string (list string) :=
  foldl (λ m kv, <[Key kv := default [] (m !! Key kv) ++ [Value kv]]> m) result kvs.

Definition newline : string := String (Ascii.ascii_of_nat 10) "".
Definition line (reducef : string → list string → string) (entry : string * list string) : string :=
  (entry.1 +:+ " " +:+ reducef entry.1 entry.2 +:+ newline)%string.

(** ** The system *)

(** What a worker is doing: writing the files of a map task, reading those of a
    reduce task ([x] of [n] read), or about to report a reduce task. *)
Inductive Job :=
  | MapJob (file : string) (pending : list (string * list KeyValue))
  | ReduceJob (y n x : Z) (result : gmap string (list string))
  | ReduceWritten (y : Z).

Record MR := mkMR {
  coord : Coordinator;
  inter : gmap string (list KeyValue);   (* intermediate files *)
  outs : gmap string (list string);      (* output files *)
  jobs : list Job;
}.

Section system.
Context (ord : TaskOrder) (mapf : string → string → list KeyValue) (reducef : string → list string → string).
Context (sort : list KeyValue → list KeyValue) (json : KeyValue → KeyValue) (content : string → option string).

Definition mapArgs := mkArgs MapRequest "" 0.
Definition reduceArgs := mkArgs ReduceRequest "" 0.
Definition mapFinishArgs (f : string) := mkArgs MapFinishRequest f 0.
Definition reduceFinishArgs (y : Z) := mkArgs ReduceFinishRequest "" y.

(** The iterations of [MapTaskWoker] and [ReduceTaskWorker], cut at the points
    where other workers can be seen to act, and the death of a worker. *)
Inductive mr_step : MR → MR → Prop :=
  | mr_map_request now c fs os js c' reply data pending :
      DispatchTask ord now mapArgs c = (c', reply) → MasterStatus reply = MapStatus → ReplyCode reply = NewTask →
      content (MapFileName reply) = Some data → mapFiles mapf sort json reply data = Some pending →
      mr_step (mkMR c fs os js) (mkMR c' fs os (MapJob (MapFileName reply) pending :: js))
  | mr_map_write c fs os l1 l2 f name kvs pending :
      mr_step (mkMR c fs os (l1 ++ MapJob f ((name, kvs) :: pending) :: l2))
              (mkMR c (<[name := kvs]> fs) os (l1 ++ MapJob f pending :: l2))
  | mr_map_finish now c fs os l1 l2 f :
      mr_step (mkMR c fs os (l1 ++ MapJob f [] :: l2))
              (mkMR (DispatchTask ord now (mapFinishArgs f) c).1 fs os (l1 ++ l2))
  | mr_reduce_request now c fs os js c' reply :
      DispatchTask ord now reduceArgs c = (c', reply) → MasterStatus reply = ReduceStatus → ReplyCode reply = NewTask →
      mr_step (mkMR c fs os js) (mkMR c' fs os (ReduceJob (ReduceTaskId reply) (NFile reply) 0 ∅ :: js))
  | mr_reduce_read c fs os l1 l2 y n x result kvs :
      x < n → fs !! iname x y = Some kvs →
      mr_step (mkMR c fs os (l1 ++ ReduceJob y n x result :: l2))
              (mkMR c fs os (l1 ++ ReduceJob y n (x + 1) (readFile kvs result) :: l2))
  | mr_reduce_write c fs os l1 l2 y n x result entries :
      n <= x → entries ≡ₚ map_to_list result →
      mr_step (mkMR c fs os (l1 ++ ReduceJob y n x result :: l2))
              (mkMR c fs (<[outname y := line reducef <$> entries]> os) (l1 ++ ReduceWritten y :: l2))
  | mr_reduce_finish now c fs os l1 l2 y :
      mr_step (mkMR c fs os (l1 ++ ReduceWritten y :: l2))
              (mkMR (DispatchTask ord now (reduceFinishArgs y) c).1 fs os (l1 ++ l2))
  | mr_idle now c fs os js args :
      ReqType args = MapRequest ∨ ReqType args = ReduceRequest →
      mr_step (mkMR c fs os js) (mkMR (DispatchTask ord now args c).1 fs os js)
  | mr_crash c fs os l1 l2 j :
      mr_step (mkMR c fs os (l1 ++ j :: l2)) (mkMR c fs os (l1 ++ l2)).

(** ** What the job should compute *)

Context (fileList : list string) (nRed : Z).

(** The partition [y] of the pairs of input file [x]. *)
Definition expected (x y : Z) : list KeyValue :=
  match f ← index fileList x; d ← content f; Some (mapf f d) with
  | Some kvs => filter (λ kv, ihash (Key kv) mod nRed = y) (sort kvs)
  | None => []
  end.

(** All pairs, file by file. *)
Definition emitted : list KeyValue :=
  concat ((λ f, match content f with Some d => mapf f d | None => [] end) <$> fileList).

Definition valuesOf (k : string) (kvs : list KeyValue) : list string := Value <$> filter (λ kv, Key kv = k) kvs.

(** The contents an output file may have: a line for each key of the partition,
    with its values over all inputs in some order. *)
Definition outputOk (y : Z) (lines : list string) : Prop :=
  ∃ entries, lines = line reducef <$> entries ∧ NoDup entries.*1 ∧
    (∀ k vs, (k, vs) ∈ entries → ihash k mod nRed = y ∧ k ∈ Key <$> emitted ∧ vs ≡ₚ valuesOf k emitted) ∧
    (∀ kv, kv ∈ emitted → ihash (Key kv) mod nRed = y → Key kv ∈ entries.*1).

End system.

(** ** File names *)

Fixpoint nodash (s : string) : Prop :=
  match s with EmptyString => True | String c s => c ≠ "-"%char ∧ nodash s end.

Lemma dash_split s1 s2 t1 t2 :
  nodash s1 → nodash s2 → (s1 +:+ String "-" t1 = s2 +:+ String "-" t2)%string → s1 = s2 ∧ t1 = t2.
Proof.
  revert s2. induction s1 as [|c s1 IH]; intros [|c' s2] H1 H2; cbn in *.
  - by intros [= ->].
  - intros [= <- _]. naive_solver.
  - intros [= -> _]. naive_solver.
  - intros [= -> H]. destruct (IH s2) as [-> ->]; naive_solver.
Qed.

Lemma pretty_go_nodash x s : nodash s → nodash (pretty_N_go x s).
Proof.
  revert s. induction (N.lt_wf_0 x) as [x _ IH]; intros s Hs.
  destruct (decide (0 < x)%N) as [Hx|Hx].
  - rewrite pretty_N_go_step by done. apply IH; [by apply N.div_lt|]. split; [|done].
    unfold pretty_N_char. by repeat case_match.
  - assert (x = 0)%N as -> by lia. by rewrite pretty_N_go_0.
Qed.

Lemma pretty_nodash z : 0 <= z → nodash (pretty z).
Proof.
  intros Hz. assert (pretty z = pretty (Z.to_N z)) as -> by by destruct z.
  unfold pretty, pretty_N. case_decide; [by cbn|]. by apply pretty_go_nodash.
Qed.

Lemma iname_inj x y x' y' : 0 <= x → 0 <= x' → iname x y = iname x' y' → x = x' ∧ y = y'.
Proof.
  intros Hx Hx' [= H]. apply dash_split in H as [Hp Hq]; [|by apply pretty_nodash..].
  by apply (inj pretty) in Hp, Hq.
Qed.

Lemma outname_inj y y' : outname y = outname y' → y = y'.
Proof. intros [= H]. change (pretty y = pretty y') in H. by apply (inj pretty). Qed.

(** ** Pairs and tables *)

Lemma splitStep_foldl nRed kvs ls :
  0 < nRed → zlen ls = nRed →
  ∃ ls', foldl (splitStep nRed) (Some ls) kvs = Some ls' ∧ zlen ls' = nRed ∧
    ∀ y, 0 <= y < nRed → ∃ l, index ls y = Some l ∧
      index ls' y = Some (l ++ filter (λ kv, ihash (Key kv) mod nRed = y) kvs).
Proof.
  intros Hn. revert ls. induction kvs as [|kv kvs IH]; intros ls Hl; cbn [foldl].
  { exists ls. split_and!; [done..|]. intros y Hy. destruct (index_is_Some ls y) as [l E]; [lia|].
    exists l. by rewrite filter_nil, app_nil_r. }
  set (i := ihash (Key kv) mod nRed). assert (0 <= i < nRed) as Hi by by apply Z.mod_pos_bound.
  destruct (index_is_Some ls i) as [l0 E0]; [lia|].
  unfold splitStep at 2. cbn [mbind option_bind]. fold i. rewrite (proj2 (Z.eqb_neq nRed 0)), E0 by lia. cbn [mbind option_bind].
  rewrite store_is_Some by lia. destruct (IH (<[Z.to_nat i := l0 ++ [kv]]> ls)) as (ls' & -> & Hl' & Hy); [by rewrite zlen_insert|].
  exists ls'. split_and!; [done..|]. intros y Hyr. destruct (Hy y Hyr) as (l & El & El').
  rewrite filter_cons. fold i. destruct (decide (i = y)) as [<-|Hne].
  - rewrite index_insert_eq in El by lia. injection El as <-. exists l0. split; [done|]. by rewrite El', <-app_assoc.
  - rewrite index_insert_ne in El by lia. by exists l.
Qed.

Lemma splitKVs_spec nRed kvs :
  0 < nRed → ∃ ls, splitKVs nRed kvs = Some ls ∧ zlen ls = nRed ∧
    ∀ y, 0 <= y < nRed → index ls y = Some (filter (λ kv, ihash (Key kv) mod nRed = y) kvs).
Proof.
  intros Hn. unfold splitKVs. rewrite (proj2 (Z.ltb_ge _ _)) by lia.
  destruct (splitStep_foldl nRed kvs (replicate (Z.to_nat nRed) [])) as (ls & -> & Hl & Hy).
  { done. } { unfold zlen. rewrite length_replicate. lia. }
  exists ls. split_and!; [done..|]. intros y Hyr. destruct (Hy y Hyr) as (l & El & ->).
  apply index_Some in El as [_ El]. apply lookup_replicate in El as [-> _]. done.
Qed.

Lemma readFile_app l1 l2 m : readFile (l1 ++ l2) m = readFile l2 (readFile l1 m).
Proof. apply foldl_app. Qed.

Lemma readFile_lookup kvs m k :
  default [] (readFile kvs m !! k) = default [] (m !! k) ++ valuesOf k kvs ∧
  (is_Some (readFile kvs m !! k) ↔ is_Some (m !! k) ∨ k ∈ Key <$> kvs).
Proof.
  unfold readFile, valuesOf. revert m. induction kvs as [|kv kvs IH]; intros m; cbn [foldl].
  { rewrite filter_nil. cbn. rewrite app_nil_r. set_solver. }
  destruct (IH (<[Key kv := default [] (m !! Key kv) ++ [Value kv]]> m)) as [-> H2].
  rewrite filter_cons, H2, fmap_cons, elem_of_cons. destruct (decide (Key kv = k)) as [<-|Hne].
  - rewrite lookup_insert_eq, fmap_cons. cbn. rewrite <-app_assoc. split; [done|]. naive_solver.
  - rewrite lookup_insert_ne by done. split; [done|]. naive_solver.
Qed.

(** Indices of a list and its elements. *)
Lemma upto_index {A B} (h : option A → B) (l : list A) :
  (λ i, h (index l i)) <$> upto (zlen l) = (λ x, h (Some x)) <$> l.
Proof.
  apply list_eq. intros i. unfold upto, zlen. rewrite Nat2Z.id, !list_lookup_fmap.
  destruct (decide (i < length l)%nat) as [Hi|Hi].
  - rewrite lookup_seq_lt by done. cbn. rewrite index_lookup by lia. rewrite Nat2Z.id.
    destruct (lookup_lt_is_Some_2 l i Hi) as [x ->]. done.
  - rewrite lookup_seq_ge by lia. by rewrite lookup_ge_None_2 by lia.
Qed.

Lemma filter_concat {A} (P : A → Prop) `{∀ x, Decision (P x)} (ls : list (list A)) :
  filter P (concat ls) = concat (filter P <$> ls).
Proof. induction ls as [|l ls IH]; [done|]. rewrite fmap_cons. cbn [concat]. by rewrite filter_app, IH. Qed.

Lemma concat_perm {A} (ls ls' : list (list A)) : Forall2 (≡ₚ) ls ls' → concat ls ≡ₚ concat ls'.
Proof. induction 1 as [|l l' ls ls' Hl _ IH]; [done|]. cbn. by rewrite Hl, IH. Qed.

(** ** The coordinator's bookkeeping *)

Lemma firstExpired_elem {K} now (entries : list (K * Z)) k :
  firstExpired now entries = Some k → ∃ t, (k, t) ∈ entries ∧ 10 * Second < now - t.
Proof.
  induction entries as [|[k' t] entries IH]; cbn [firstExpired]; [done|].
  destruct (Z.ltb_spec (10 * Second) (now - t)); [intros [= ->]; exists t; by split; [left|]|].
  intros (t' & ? & ?)%IH. exists t'. by split; [right|].
Qed.

Lemma firstExpired_None {K} now (entries : list (K * Z)) :
  firstExpired now entries = None → ∀ k t, (k, t) ∈ entries → now - t <= 10 * Second.
Proof.
  induction entries as [|[k' t'] entries IH]; cbn [firstExpired]; [by intros _ ? ? ?%elem_of_nil|].
  destruct (Z.ltb_spec (10 * Second) (now - t')); [done|]. intros HN k t [[= -> ->]|?]%elem_of_cons; [lia|by eapply IH].
Qed.

Lemma resets_dom now ys (m : gmap Z Z) y :
  y ∈ dom (foldl (λ m i, <[i := now - Hour]> m) m ys) ↔ y ∈ ys ∨ y ∈ dom m.
Proof. revert m. induction ys as [|i ys IH]; intros m; cbn [foldl]; [set_solver|]. rewrite IH. set_solver. Qed.

Lemma size_0 `{Countable K} (m : gmap K Z) : (size m =? 0)%nat = bool_decide (m = ∅).
Proof.
  destruct (Nat.eqb_spec (size m) 0) as [E|E].
  - apply map_size_empty_inv in E. by rewrite bool_decide_eq_true_2.
  - symmetry. apply bool_decide_eq_false_2. intros ->. by rewrite map_size_empty in E.
Qed.

Lemma status_cases c :
  (mTasks c ≠ ∅ ∧ GetCoordinatorStatus c = MapStatus) ∨
  (mTasks c = ∅ ∧ rTasks c ≠ ∅ ∧ GetCoordinatorStatus c = ReduceStatus) ∨
  (mTasks c = ∅ ∧ rTasks c = ∅ ∧ GetCoordinatorStatus c = ShutDowned).
Proof.
  unfold GetCoordinatorStatus. rewrite !size_0.
  destruct (decide (mTasks c = ∅)), (decide (rTasks c = ∅));
    rewrite ?bool_decide_eq_true_2, ?bool_decide_eq_false_2 by done; naive_solver.
Qed.

Lemma Done_iff c : Done c = true ↔ mTasks c = ∅ ∧ rTasks c = ∅.
Proof. unfold Done. rewrite !size_0, andb_true_iff, !bool_decide_eq_true. done. Qed.

Section dispatch.
Context (ord : TaskOrder) (HO : valid_tasks ord).

(** A request for work only moves the time of the task it is given. *)
Lemma request_spec now args c :
  ReqType args = MapRequest ∨ ReqType args = ReduceRequest →
  let '(c', reply) := DispatchTask ord now args c in
  nfile c' = nfile c ∧ nReduce c' = nReduce c ∧ files c' = files c ∧
  dom (mTasks c') = dom (mTasks c) ∧ dom (rTasks c') = dom (rTasks c) ∧
  NFile reply = nfile c ∧ NReduce reply = nReduce c ∧ MasterStatus reply = GetCoordinatorStatus c ∧
  (ReplyCode reply = NewTask → ReqType args = MapRequest →
     MapFileName reply ∈ dom (mTasks c) ∧ MapTaskId reply = default 0 (files c !! MapFileName reply)) ∧
  (ReplyCode reply = NewTask → ReqType args = ReduceRequest → mTasks c = ∅ ∧ ReduceTaskId reply ∈ dom (rTasks c)).
Proof.
  intros Hreq. unfold DispatchTask. destruct (status_cases c) as [[Hm ->]|[(Hm & Hr & ->)|(Hm & Hr & ->)]]; cbn -[firstExpired].
  - destruct Hreq as [-> | ->]; cbn -[firstExpired]; [|done].
    destruct (firstExpired now _) as [f|] eqn:E; [|done]. apply firstExpired_elem in E as (t & Hin & _).
    assert (f ∈ dom (mTasks c)) as Hf.
    { rewrite (HO _ _ _ (mTasks c)) in Hin. apply elem_of_map_to_list in Hin. by eapply elem_of_dom_2. }
    cbn. split_and!; try done. rewrite dom_insert_L. set_solver.
  - destruct Hreq as [-> | ->]; cbn -[firstExpired]; [done|].
    destruct (firstExpired now _) as [t|] eqn:E; [|done]. apply firstExpired_elem in E as (z & Hin & _).
    assert (t ∈ dom (rTasks c)) as Hf.
    { rewrite (HO _ _ _ (rTasks c)) in Hin. apply elem_of_map_to_list in Hin. by eapply elem_of_dom_2. }
    cbn. split_and!; try done. rewrite dom_insert_L. set_solver.
  - done.
Qed.

(** A finished map task is crossed off; after the last one the reduce tasks are
    there. *)
Lemma map_finish_spec now f c :
  let c' := (DispatchTask ord now (mkArgs MapFinishRequest f 0) c).1 in
  nfile c' = nfile c ∧ nReduce c' = nReduce c ∧ files c' = files c ∧ dom (mTasks c') = dom (mTasks c) ∖ {[f]} ∧
  (mTasks c = ∅ ∨ mTasks c' ≠ ∅ → rTasks c' = rTasks c) ∧
  (mTasks c ≠ ∅ → mTasks c' = ∅ → ∀ y, y ∈ dom (rTasks c') ↔ 0 <= y < nReduce c ∨ y ∈ dom (rTasks c)).
Proof.
  unfold DispatchTask. cbn -[upto]. destruct (status_cases c) as [[Hm ->]|[(Hm & Hr & ->)|(Hm & Hr & ->)]]; cbn -[upto].
  2,3: rewrite Hm, dom_empty_L; split_and!; try done; set_solver.
  case_bool_decide as Hf.
  - rewrite size_0. case_bool_decide as He; cbn -[upto]; split_and!; try done.
    + by rewrite dom_delete_L.
    + intros [?|?]; done.
    + intros _ _ y. rewrite resets_dom, upto_elem. done.
    + by rewrite dom_delete_L.
  - cbn. split_and!; try done. assert (f ∉ dom (mTasks c)) by (by rewrite elem_of_dom). set_solver.
Qed.

Lemma reduce_finish_spec now y c :
  let c' := (DispatchTask ord now (mkArgs ReduceFinishRequest "" y) c).1 in
  nfile c' = nfile c ∧ nReduce c' = nReduce c ∧ files c' = files c ∧ mTasks c' = mTasks c ∧
  dom (rTasks c') ⊆ dom (rTasks c) ∧ dom (rTasks c) ⊆ dom (rTasks c') ∪ {[y]}.
Proof.
  unfold DispatchTask. cbn. destruct (status_cases c) as [[Hm ->]|[(Hm & Hr & ->)|(Hm & Hr & ->)]]; cbn.
  1,3: split_and!; set_solver.
  case_bool_decide as Hf; cbn; split_and!; try done; rewrite ?dom_delete_L; try set_solver.
  intros x Hx. destruct (decide (x = y)); set_solver.
Qed.

End dispatch.

(** ** The whole job *)

Section job.
Context (ord : TaskOrder) (HO : valid_tasks ord).
Context (mapf : string → string → list KeyValue) (reducef : string → list string → string).
Context (sort : list KeyValue → list KeyValue) (Hsort : ∀ l, sort l ≡ₚ l).
Context (json : KeyValue → KeyValue) (content : string → option string).
Context (Hjson : ∀ f d kv, kv ∈ mapf f d → json kv = kv).
Context (fileList : list string) (nRed : Z) (Hne : fileList ≠ []) (HND : NoDup fileList) (Hn : 0 < nRed).

#[local] Notation expected := (expected mapf sort content fileList nRed).
#[local] Notation emitted := (emitted mapf content fileList).
#[local] Notation outputOk := (outputOk mapf reducef content fileList nRed).

(** The partition [y] of the first [x] inputs. *)
Definition parts (y x : Z) : list KeyValue := concat ((λ i, expected i y) <$> upto x).

Lemma parts_all y : parts y (zlen fileList) ≡ₚ filter (λ kv, ihash (Key kv) mod nRed = y) emitted.
Proof.
  unfold parts, MapReduce.emitted, MapReduce.expected. rewrite filter_concat. apply concat_perm.
  rewrite (upto_index (λ o, match f ← o; d ← content f; Some (mapf f d) with
    | Some kvs => filter (λ kv, ihash (Key kv) mod nRed = y) (sort kvs) | None => [] end)).
  rewrite <-list_fmap_compose. apply Forall2_fmap, Forall_Forall2_diag, Forall_forall. intros f _. cbn.
  destruct (content f); cbn; [|done]. apply filter_Permutation, Hsort.
Qed.

Lemma parts_step y x : 0 <= x → parts y (x + 1) = parts y x ++ expected x y.
Proof.
  intros Hx. unfold parts, upto. replace (Z.to_nat (x + 1)) with (S (Z.to_nat x)) by lia.
  rewrite seq_S, !fmap_app, concat_app. cbn. rewrite app_nil_r. do 2 f_equal. lia.
Qed.

(** The table a reduce task has read gives a right output. *)
Lemma outputOk_parts y entries :
  entries ≡ₚ map_to_list (readFile (parts y (zlen fileList)) ∅) → outputOk y (line reducef <$> entries).
Proof.
  intros HE. set (m := readFile _ _) in HE.
  assert (∀ k vs, (k, vs) ∈ entries ↔ m !! k = Some vs) as Hin.
  { intros k vs. rewrite HE. apply elem_of_map_to_list. }
  assert (∀ k, ihash k mod nRed = y → valuesOf k (parts y (zlen fileList)) ≡ₚ valuesOf k emitted) as Hvals.
  { intros k Hk. unfold valuesOf. rewrite parts_all, list_filter_filter.
    rewrite (list_filter_iff _ (λ kv, Key kv = k)); [done|]. intros kv. naive_solver. }
  assert (∀ k, k ∈ Key <$> parts y (zlen fileList) ↔ ihash k mod nRed = y ∧ k ∈ Key <$> emitted) as Hkeys.
  { intros k. rewrite parts_all, !list_elem_of_fmap. setoid_rewrite list_elem_of_filter. naive_solver. }
  exists entries. split_and!; [done| | |].
  - rewrite HE. apply NoDup_fst_map_to_list.
  - intros k vs Hk%Hin. destruct (readFile_lookup (parts y (zlen fileList)) ∅ k) as [Hl Hd]. fold m in Hl, Hd.
    rewrite Hk in Hl, Hd. cbn in Hl. rewrite lookup_empty in Hl, Hd. cbn in Hl.
    destruct (proj1 Hd) as [[]|Hkey%Hkeys]; [eauto|done|]. split_and!; [apply Hkey..|]. rewrite Hl. apply Hvals, Hkey.
  - intros kv Hkv Hh. destruct (readFile_lookup (parts y (zlen fileList)) ∅ (Key kv)) as [_ Hd]. fold m in Hd.
    destruct (proj2 Hd) as [vs Hvs]; [right; apply Hkeys; split; [done|]; by apply list_elem_of_fmap_2|].
    apply list_elem_of_fmap. exists (Key kv, vs). split; [done|]. by apply Hin.
Qed.

(** What [mapFiles] writes. *)
Lemma mapFiles_spec reply x f d pending :
  index fileList x = Some f → content f = Some d → MapFileName reply = f → MapTaskId reply = x → NReduce reply = nRed →
  mapFiles mapf sort json reply d = Some pending →
  (∀ name kvs, (name, kvs) ∈ pending → ∃ y, 0 <= y < nRed ∧ name = iname x y ∧ kvs = expected x y) ∧
  (∀ y, 0 <= y < nRed → iname x y ∈ pending.*1).
Proof.
  intros Hx Hd Hf Hid HR. unfold mapFiles. rewrite Hf, Hid, HR.
  destruct (splitKVs_spec nRed (sort (mapf f d)) Hn) as (ls & -> & Hl & Hy). cbn [mbind option_bind].
  intros [= <-]. rewrite Hl.
  assert (∀ i l, ls !! i = Some l → 0 <= Z.of_nat i < nRed ∧ json <$> l = expected x (Z.of_nat i)) as Hls.
  { intros i l Hi. assert (0 <= Z.of_nat i < nRed) as Hr by (apply lookup_lt_Some in Hi; unfold zlen in Hl; lia).
    split; [done|]. specialize (Hy (Z.of_nat i) Hr). rewrite index_lookup, Nat2Z.id, Hi in Hy by lia.
    injection Hy as ->. unfold MapReduce.expected. rewrite Hx. cbn. rewrite Hd. cbn.
    rewrite <-(list_fmap_id (filter _ _)) at 2. apply list_fmap_ext. intros j kv Hkv.
    apply list_elem_of_lookup_2, list_elem_of_filter in Hkv as [_ Hkv]. rewrite Hsort in Hkv. by apply (Hjson f d). }
  assert (∀ i, (i < length ls)%nat → upto nRed !! i = Some (Z.of_nat i)) as Hup.
  { intros i Hi. unfold upto. rewrite list_lookup_fmap, lookup_seq_lt; [done|]. unfold zlen in Hl. lia. }
  split.
  - intros name kvs [i Hi]%list_elem_of_lookup. apply lookup_zip_with_Some in Hi as (z & l & [= -> ->] & Hz & Hi).
    rewrite Hup in Hz by by eapply lookup_lt_Some. injection Hz as <-. destruct (Hls i l Hi). eauto.
  - intros y Hyr. destruct (lookup_lt_is_Some_2 ls (Z.to_nat y)) as [l Hi]; [unfold zlen in Hl; lia|].
    apply list_elem_of_fmap. exists (iname x y, json <$> l). split; [done|]. apply list_elem_of_lookup. exists (Z.to_nat y).
    apply lookup_zip_with_Some. exists y, l. split_and!; [done| |done]. rewrite Hup by by eapply lookup_lt_Some. f_equal. lia.
Qed.

(** *** The invariant *)

Record coord_ok (c : Coordinator) : Prop := {
  co_nfile : nfile c = zlen fileList;
  co_nReduce : nReduce c = nRed;
  co_files : ∀ f x, index fileList x = Some f → files c !! f = Some x;
  co_m : ∀ f, f ∈ dom (mTasks c) → f ∈ fileList;
  co_r : ∀ y, y ∈ dom (rTasks c) → 0 <= y < nRed;
  co_phase : mTasks c ≠ ∅ → rTasks c = ∅;
}.

Definition written (s : MR) (x : Z) : Prop := ∀ y, 0 <= y < nRed → is_Some (inter s !! iname x y).

Definition job_ok (s : MR) (j : Job) : Prop :=
  match j with
  | MapJob f pending => ∃ x, index fileList x = Some f ∧ is_Some (content f) ∧
      (∀ name kvs, (name, kvs) ∈ pending → ∃ y, 0 <= y < nRed ∧ name = iname x y ∧ kvs = expected x y) ∧
      (∀ y, 0 <= y < nRed → is_Some (inter s !! iname x y) ∨ iname x y ∈ pending.*1)
  | ReduceJob y n x result => mTasks (coord s) = ∅ ∧ 0 <= y < nRed ∧ n = zlen fileList ∧ 0 <= x <= n ∧
      result = readFile (parts y x) ∅
  | ReduceWritten y => 0 <= y < nRed ∧ is_Some (outs s !! outname y)
  end.

Record job_inv (s : MR) : Prop := {
  ji_coord : coord_ok (coord s);
  ji_inter : ∀ x y kvs, 0 <= x → 0 <= y → inter s !! iname x y = Some kvs → kvs = expected x y;
  ji_written : ∀ x f, index fileList x = Some f → f ∉ dom (mTasks (coord s)) → is_Some (content f) ∧ written s x;
  ji_outs : ∀ y lines, outs s !! outname y = Some lines → outputOk y lines;
  ji_reduced : mTasks (coord s) = ∅ → ∀ y, 0 <= y < nRed → y ∉ dom (rTasks (coord s)) → is_Some (outs s !! outname y);
  ji_jobs : ∀ j, j ∈ jobs s → job_ok s j;
}.

(** More files and fewer map tasks keep a job as it should be. *)
Lemma job_ok_mono s s' j :
  (∀ name, is_Some (inter s !! name) → is_Some (inter s' !! name)) →
  (∀ name, is_Some (outs s !! name) → is_Some (outs s' !! name)) →
  (mTasks (coord s) = ∅ → mTasks (coord s') = ∅) → job_ok s j → job_ok s' j.
Proof.
  intros Hi Ho Hm. destruct j as [f pending|y n x result|y]; cbn.
  - intros (x & ? & ? & ? & Hy). exists x. split_and!; [done..|]. intros y Hyr. destruct (Hy y Hyr); eauto.
  - naive_solver.
  - naive_solver.
Qed.

Lemma is_Some_insert {A} (m : gmap string A) k v name : is_Some (m !! name) → is_Some (<[k := v]> m !! name).
Proof. intros [a Ha]. destruct (decide (k = name)) as [->|Hk]; [rewrite lookup_insert_eq; eauto|]. rewrite lookup_insert_ne; eauto. Qed.

(** Steps that leave the files and take jobs away. *)
Lemma job_inv_frame c c' fs os js js' :
  job_inv (mkMR c fs os js) → coord_ok c' → dom (mTasks c') = dom (mTasks c) →
  (mTasks c = ∅ → ∀ y, 0 <= y < nRed → y ∉ dom (rTasks c') → y ∉ dom (rTasks c) ∨ is_Some (os !! outname y)) →
  (∀ j, j ∈ js' → j ∈ js ∨ job_ok (mkMR c' fs os js') j) → job_inv (mkMR c' fs os js').
Proof.
  intros [I1 I2 I3 I4 I5 I6] Hc Hm Hr Hj. cbn in *.
  assert (mTasks c = ∅ ↔ mTasks c' = ∅) as Hiff by by rewrite <-!(dom_empty_iff_L (D:=gset string)), Hm.
  split; cbn; try done.
  - by rewrite Hm.
  - intros Hm' y Hy Hn'. destruct (Hr (proj2 Hiff Hm') y Hy Hn') as [?|?]; [|done]. apply I5; [by apply Hiff|done..].
  - intros j [Hin|?]%Hj; [|done]. eapply job_ok_mono, I6; naive_solver.
Qed.

Lemma request_coord_ok now args c :
  coord_ok c → ReqType args = MapRequest ∨ ReqType args = ReduceRequest →
  coord_ok (DispatchTask ord now args c).1 ∧
  dom (mTasks (DispatchTask ord now args c).1) = dom (mTasks c) ∧
  dom (rTasks (DispatchTask ord now args c).1) = dom (rTasks c).
Proof.
  intros [H1 H2 H3 H4 H5 H6] Hreq. pose proof (request_spec ord HO now args c Hreq) as Hs.
  destruct (DispatchTask _ _ _ _) as [c' reply]. destruct Hs as (E1 & E2 & E3 & E4 & E5 & _). cbn.
  split_and!; [|done..]. split; rewrite ?E1, ?E2, ?E3, ?E4, ?E5; try done.
  rewrite <-(dom_empty_iff_L (D:=gset string) (mTasks c')), <-(dom_empty_iff_L (D:=gset Z) (rTasks c')), E4, E5.
  by rewrite !dom_empty_iff_L.
Qed.

Lemma job_map_request now c fs os js c' reply data pending :
  job_inv (mkMR c fs os js) → DispatchTask ord now mapArgs c = (c', reply) → ReplyCode reply = NewTask →
  content (MapFileName reply) = Some data → mapFiles mapf sort json reply data = Some pending →
  job_inv (mkMR c' fs os (MapJob (MapFileName reply) pending :: js)).
Proof.
  intros I HD Hcode Hdata HF. destruct (request_coord_ok now mapArgs c (ji_coord _ I)) as (Hc & Em & Er); [by left|].
  pose proof (request_spec ord HO now mapArgs c (or_introl eq_refl)) as Hs. rewrite HD in Hc, Em, Er, Hs. cbn in Hc, Em, Er.
  destruct Hs as (_ & _ & _ & _ & _ & _ & HR & _ & Hnew & _). destruct (Hnew Hcode eq_refl) as [Hin Hid].
  pose proof (ji_coord _ I) as [? EnR Hfiles Hmem ? ?]. cbn in EnR, Hfiles, Hmem. apply Hmem, elem_of_index in Hin as [x Hx].
  rewrite (Hfiles _ _ Hx) in Hid.
  destruct (mapFiles_spec reply x (MapFileName reply) data pending) as [Hp1 Hp2]; [done|done|done|done|congruence|done|].
  eapply job_inv_frame; [exact I|done|done|rewrite Er; by left|].
  intros j [->|?]%elem_of_cons; [right|by left]. exists x. split_and!; [done|by eexists|done|]. intros y Hy. right. by apply Hp2.
Qed.

Lemma job_map_write c fs os l1 l2 f name kvs pending :
  job_inv (mkMR c fs os (l1 ++ MapJob f ((name, kvs) :: pending) :: l2)) →
  job_inv (mkMR c (<[name := kvs]> fs) os (l1 ++ MapJob f pending :: l2)).
Proof.
  intros [I1 I2 I3 I4 I5 I6]. cbn in *.
  destruct (I6 (MapJob f ((name, kvs) :: pending))) as (x & Hx & Hc & Hp & Hy); [set_solver|].
  destruct (Hp name kvs) as (y0 & Hy0 & -> & ->); [by left|].
  assert (0 <= x) by (apply index_lt in Hx; lia).
  split; cbn; try done.
  - intros x' y' kvs' Hx' Hy' [[Heq <-]|[_ Hl]]%lookup_insert_Some; [|by apply I2].
    apply iname_inj in Heq as [-> ->]; done.
  - intros x' f' Hx' Hf'. destruct (I3 x' f' Hx' Hf') as [? Hw]. split; [done|]. intros y Hyr. by apply is_Some_insert, Hw.
  - intros j Hj. assert (j = MapJob f pending ∨ j ∈ l1 ++ MapJob f ((iname x y0, expected x y0) :: pending) :: l2) as [->|Hin] by set_solver.
    + exists x. split_and!; [done|done|intros; apply Hp; by right|]. intros y Hyr. destruct (Hy y Hyr) as [?|Hin].
      { left. by apply is_Some_insert. }
      cbn in Hin. apply elem_of_cons in Hin as [->|?]; [|by right]. left. cbn. rewrite lookup_insert_eq. eauto.
    + eapply job_ok_mono, I6; [|done|done|done]. intros. by apply is_Some_insert.
Qed.

Lemma job_map_finish now c fs os l1 l2 f :
  job_inv (mkMR c fs os (l1 ++ MapJob f [] :: l2)) →
  job_inv (mkMR (DispatchTask ord now (mapFinishArgs f) c).1 fs os (l1 ++ l2)).
Proof.
  intros [I1 I2 I3 I4 I5 I6]. cbn in *.
  destruct (I6 (MapJob f [])) as (x0 & Hx0 & Hc0 & _ & Hy0); [set_solver|].
  destruct I1 as [H1 H2 H3 H4 H5 H6].
  destruct (map_finish_spec ord HO now f c) as (E1 & E2 & E3 & E4 & E5 & E6). fold (mapFinishArgs f) in *.
  set (c' := (DispatchTask ord now (mapFinishArgs f) c).1) in *.
  assert (mTasks c = ∅ → mTasks c' = ∅) as Hmm.
  { intros Hm. apply (dom_empty_iff_L (D:=gset string)). rewrite E4, Hm. set_solver. }
  assert (∀ y, y ∈ dom (rTasks c') → 0 <= y < nRed) as Hr.
  { intros y Hy. destruct (decide (mTasks c = ∅)); [apply H5; by rewrite E5 in Hy by (by left)|].
    destruct (decide (mTasks c' = ∅)); [apply E6 in Hy; [|done..]; destruct Hy as [?|?]; [by rewrite <-H2|by apply H5]|].
    apply H5. by rewrite E5 in Hy by (by right). }
  split; cbn; try done.
  - split; rewrite ?E1, ?E2, ?E3; try done.
    + intros g. rewrite E4. intros [? _]%elem_of_difference. by apply H4.
    + intros Hm'. rewrite E5 by (by right). apply H6. auto.
  - intros x g Hx Hg. destruct (decide (g = f)) as [->|Hgf].
    + assert (x = x0) as ->.
      { apply index_Some in Hx as [? Hx], Hx0 as [? Hx0]. pose proof (NoDup_lookup _ _ _ _ HND Hx Hx0). lia. }
      split; [done|]. intros y Hy. destruct (Hy0 y Hy) as [?|Hin]; [done|]. by apply elem_of_nil in Hin.
    + apply I3 in Hx as [? ?]; [done|]. intros ?. apply Hg. rewrite E4. set_solver.
  - intros Hm' y Hy Hnot. destruct (decide (mTasks c = ∅)) as [Hm|Hm].
    + apply I5; [done..|]. by rewrite E5 in Hnot by (by left).
    + destruct Hnot. apply E6; [done..|]. left. by rewrite H2.
  - intros j Hj. eapply job_ok_mono, I6; [done|done|done|set_solver].
Qed.

Lemma job_reduce_request now c fs os js c' reply :
  job_inv (mkMR c fs os js) → DispatchTask ord now reduceArgs c = (c', reply) → ReplyCode reply = NewTask →
  job_inv (mkMR c' fs os (ReduceJob (ReduceTaskId reply) (NFile reply) 0 ∅ :: js)).
Proof.
  intros I HD Hcode. destruct (request_coord_ok now reduceArgs c (ji_coord _ I)) as (Hc & Em & Er); [by right|].
  pose proof (request_spec ord HO now reduceArgs c (or_intror eq_refl)) as Hs. rewrite HD in Hc, Em, Er, Hs. cbn in Hc, Em, Er.
  destruct Hs as (_ & _ & _ & _ & _ & HN & _ & _ & _ & Hnew). destruct (Hnew Hcode eq_refl) as [Hm Hin].
  pose proof (ji_coord _ I) as [EnF ? ? ? Hrange ?]. cbn in *.
  eapply job_inv_frame; [exact I|done|done|rewrite Er; by left|].
  intros j [->|?]%elem_of_cons; [right|by left]. cbn. pose proof (zlen_nonneg fileList).
  split; [|split; [by apply Hrange|split; [congruence|split; [lia|done]]]].
  apply (dom_empty_iff_L (D:=gset string)). by rewrite Em, Hm, dom_empty_L.
Qed.

Lemma job_reduce_write c fs os l1 l2 y n x result entries :
  job_inv (mkMR c fs os (l1 ++ ReduceJob y n x result :: l2)) → n <= x → entries ≡ₚ map_to_list result →
  job_inv (mkMR c fs (<[outname y := line reducef <$> entries]> os) (l1 ++ ReduceWritten y :: l2)).
Proof.
  intros [I1 I2 I3 I4 I5 I6] Hnx HE. cbn in *.
  destruct (I6 (ReduceJob y n x result)) as (Hm & Hy & -> & Hx & ->); [set_solver|].
  assert (x = zlen fileList) as -> by lia. split; cbn; try done.
  - intros y' lines [[->%outname_inj <-]|[_ Hl]]%lookup_insert_Some; [by apply outputOk_parts|by apply I4].
  - intros _ y' Hy' Hnot. by apply is_Some_insert, I5.
  - intros j Hj. set (R := ReduceJob _ _ _ _) in *. assert (j = ReduceWritten y ∨ j ∈ l1 ++ R :: l2) as [->|Hin] by set_solver.
    + cbn. split; [done|]. rewrite lookup_insert_eq. eauto.
    + eapply job_ok_mono, I6; [done| |done|done]. intros. by apply is_Some_insert.
Qed.

Lemma job_reduce_finish now c fs os l1 l2 y :
  job_inv (mkMR c fs os (l1 ++ ReduceWritten y :: l2)) →
  job_inv (mkMR (DispatchTask ord now (reduceFinishArgs y) c).1 fs os (l1 ++ l2)).
Proof.
  intros I. destruct (reduce_finish_spec ord HO now y c) as (E1 & E2 & E3 & E4 & E5 & E6). fold (reduceFinishArgs y) in *.
  set (c' := (DispatchTask ord now (reduceFinishArgs y) c).1) in *.
  destruct (ji_jobs _ I (ReduceWritten y)) as [Hy Hout]; [set_solver|]. pose proof (ji_coord _ I) as [H1 H2 H3 H4 H5 H6]. cbn in *.
  eapply job_inv_frame; [exact I| |by rewrite E4| |set_solver].
  - split; rewrite ?E1, ?E2, ?E3, ?E4; try done; [set_solver|]. intros Hm. specialize (H6 Hm).
    apply (dom_empty_iff_L (D:=gset Z)). rewrite H6 in E5. set_solver.
  - intros _ y' Hy' Hnot. destruct (decide (y' = y)) as [->|]; [by right|left]. set_solver.
Qed.

Lemma job_step s s' :
  mr_step ord mapf reducef sort json content s s' → job_inv s → job_inv s'.
Proof.
  intros HS. destruct HS as [now c fs os js c' reply data pending HD _ Hcode Hdata HF| | | now c fs os js c' reply HD _ Hcode
    |c fs os l1 l2 y n x result kvs Hx Hf|c fs os l1 l2 y n x result entries Hx HE| |now c fs os js args Hreq|c fs os l1 l2 j]; intros I.
  - by eapply job_map_request.
  - by eapply job_map_write.
  - by eapply job_map_finish.
  - by eapply job_reduce_request.
  - destruct (ji_jobs _ I (ReduceJob y n x result)) as (Hm & Hy & -> & Hxr & ->); [set_solver|]. cbn in Hm.
    eapply job_inv_frame; [exact I|apply I|done|by left|].
    intros j Hj. set (J := ReduceJob y _ (x + 1) _) in *.
    assert (j = J ∨ j ∈ l1 ++ ReduceJob y (zlen fileList) x (readFile (parts y x) ∅) :: l2) as [->|?] by set_solver; [right|by left].
    split; [done|]. split; [done|]. split; [done|]. split; [lia|].
    assert (kvs = expected x y) as -> by (apply (ji_inter _ I) in Hf; [done|lia..]).
    by rewrite parts_step, readFile_app by lia.
  - by eapply job_reduce_write.
  - by eapply job_reduce_finish.
  - destruct (request_coord_ok now args c (ji_coord _ I) Hreq) as (Hc & Em & Er).
    eapply job_inv_frame; [exact I|done|done|rewrite Er; by left|by left].
  - eapply job_inv_frame; [exact I|apply I|done|by left|]. intros j' Hj'. left. set_solver.
Qed.

(** *** The start and the end *)

Lemma make_foldl now l c :
  NoDup l.*2 →
  let c' := foldl (λ c '(index, v),
      mkCoordinator (nfile c) (nReduce c) (<[v := index]> (files c)) (<[v := now - Hour]> (mTasks c)) (rTasks c)) c l in
  nfile c' = nfile c ∧ nReduce c' = nReduce c ∧ rTasks c' = rTasks c ∧
  (∀ f, f ∈ dom (mTasks c') ↔ f ∈ dom (mTasks c) ∨ f ∈ l.*2) ∧
  (∀ f x, (x, f) ∈ l → files c' !! f = Some x) ∧ (∀ f, f ∉ l.*2 → files c' !! f = files c !! f).
Proof.
  revert c. induction l as [|[i v] l IH]; intros c HN; cbn [foldl].
  { split_and!; try done; set_solver. }
  rewrite fmap_cons in HN |- *. cbn [snd] in *. apply NoDup_cons in HN as [Hv HN].
  edestruct (IH (mkCoordinator (nfile c) (nReduce c) (<[v := i]> (files c)) (<[v := now - Hour]> (mTasks c)) (rTasks c)) HN)
    as (-> & -> & -> & Hm & Hin & Hout). cbn in *.
  split_and!; try done.
  - intros f. rewrite Hm, dom_insert_L. set_solver.
  - intros f x [[= -> ->]|Hx]%elem_of_cons; [|by apply Hin]. rewrite Hout by done. by rewrite lookup_insert_eq.
  - intros f Hf. rewrite Hout by set_solver. rewrite lookup_insert_ne; [done|]. set_solver.
Qed.

Lemma make_inv now : job_inv (mkMR (MakeCoordinator now fileList nRed) ∅ ∅ []).
Proof.
  assert ((zip (upto (zlen fileList)) fileList).*2 = fileList) as H2.
  { apply snd_zip. unfold upto. rewrite length_fmap, length_seq. unfold zlen. lia. }
  destruct (make_foldl now (zip (upto (zlen fileList)) fileList) (mkCoordinator (zlen fileList) nRed ∅ ∅ ∅))
    as (E1 & E2 & E3 & E4 & E5 & _); [by rewrite H2|].
  fold (MakeCoordinator now fileList nRed) in *. rewrite H2 in E4. cbn in *.
  assert (∀ f, f ∈ dom (mTasks (MakeCoordinator now fileList nRed)) ↔ f ∈ fileList) as Hm by set_solver.
  split; cbn.
  - split; try done.
    + intros f x [? Hx]%index_Some. apply E5. eapply list_elem_of_lookup_2, lookup_zip_Some. split; [|done].
      unfold upto. rewrite list_lookup_fmap, lookup_seq_lt; [cbn; f_equal; lia|].
      apply lookup_lt_Some in Hx. unfold zlen. lia.
    + intros f. by rewrite Hm.
    + rewrite E3. set_solver.
  - intros x y kvs _ _. by rewrite lookup_empty.
  - intros x f Hx Hnot. destruct Hnot. apply Hm. by eapply index_elem_of.
  - intros y lines. by rewrite lookup_empty.
  - intros Hem. destruct fileList as [|f l]; [done|]. exfalso.
    assert (f ∈ dom (mTasks (MakeCoordinator now (f :: l) nRed))) as Hf by (apply Hm; by left). rewrite Hem in Hf. set_solver.
  - by intros j ?%elem_of_nil.
Qed.

Lemma job_reached now s :
  rtc (mr_step ord mapf reducef sort json content) (mkMR (MakeCoordinator now fileList nRed) ∅ ∅ []) s → job_inv s.
Proof.
  generalize (make_inv now). generalize (mkMR (MakeCoordinator now fileList nRed) ∅ ∅ []). intros s0 I0 HR.
  induction HR; [done|]. by eauto using job_step.
Qed.

(** What there is when no task is left. *)
Lemma job_outputs s :
  job_inv s → mTasks (coord s) = ∅ → rTasks (coord s) = ∅ →
  (∀ f, f ∈ fileList → is_Some (content f)) ∧ ∀ y, 0 <= y < nRed → ∃ lines, outs s !! outname y = Some lines ∧ outputOk y lines.
Proof.
  intros I Hm Hr. split.
  - intros f [x Hx]%elem_of_index. apply (ji_written _ I x f); [done|]. by rewrite Hm, dom_empty_L; apply not_elem_of_empty.
  - intros y Hy. destruct (ji_reduced _ I Hm y Hy) as [lines Hl]; [by rewrite Hr, dom_empty_L; apply not_elem_of_empty|].
    exists lines. split; [done|]. by apply (ji_outs _ I).
Qed.

(** A finished job is right.  Start a coordinator on distinct, at least one,
    input files and at least one reduce task; let any number of workers take tasks,
    lose them, write files, die and report in any order, with tasks handed out
    again after ten seconds.  When [Done] says so, every input could be read and
    every output file exists; output [y] has one line for each key emitted by the
    map function with [ihash(key) % nReduce = y], with the reduce function applied
    to all values emitted for the key, and no other line. *)
Theorem mapreduce_correct now s :
  rtc (mr_step ord mapf reducef sort json content) (mkMR (MakeCoordinator now fileList nRed) ∅ ∅ []) s →
  Done (coord s) = true →
  (∀ f, f ∈ fileList → is_Some (content f)) ∧
  ∀ y, 0 <= y < nRed → ∃ lines, outs s !! outname y = Some lines ∧ outputOk y lines.
Proof. intros HR [Hm Hr]%Done_iff. by apply job_outputs; [eapply job_reached|..]. Qed.

End job.

(** ** Leases *)

(** A request for work is given a task exactly when one is free.  While map
    tasks are left, [MapRequest] gets one that is not finished and was not handed
    out in the last ten seconds, with its number, and the coordinator notes the
    time; if there is none it gets [NoTask] and nothing changes.  The same for
    [ReduceRequest] once the map tasks are done.  In the wrong phase, and after the
    end, a request changes nothing. *)
Theorem DispatchTask_lease ord now c :
  valid_tasks ord →
  (let '(c', reply) := DispatchTask ord now mapArgs c in
   (∃ f t, mTasks c !! f = Some t ∧ 10 * Second < now - t ∧ c' = c <| mTasks := <[f := now]> (mTasks c) |> ∧
      reply = mkReply (nfile c) (nReduce c) MapStatus (default 0 (files c !! f)) f 0 NewTask) ∨
   (c' = c ∧ ReplyCode reply = NoTask ∧ MasterStatus reply = GetCoordinatorStatus c ∧
    ∀ f t, mTasks c !! f = Some t → now - t <= 10 * Second)) ∧
  (let '(c', reply) := DispatchTask ord now reduceArgs c in
   (∃ y t, mTasks c = ∅ ∧ rTasks c !! y = Some t ∧ 10 * Second < now - t ∧
      c' = c <| rTasks := <[y := now]> (rTasks c) |> ∧
      reply = mkReply (nfile c) (nReduce c) ReduceStatus 0 "" y NewTask) ∨
   (c' = c ∧ ReplyCode reply = NoTask ∧ MasterStatus reply = GetCoordinatorStatus c ∧
    (mTasks c = ∅ → ∀ y t, rTasks c !! y = Some t → now - t <= 10 * Second))).
Proof.
  intros HO.
  assert (∀ K `{Countable K} (m : gmap K Z) k t, (k, t) ∈ ord K _ _ m ↔ m !! k = Some t) as Hel.
  { intros K ? ? m k t. rewrite (HO _ _ _ m). apply elem_of_map_to_list. }
  unfold DispatchTask. destruct (status_cases c) as [[Hm ->]|[(Hm & Hr & ->)|(Hm & Hr & ->)]]; cbn -[firstExpired Z.mul].
  - split; [|by right].
    destruct (firstExpired now (ord _ _ _ (mTasks c))) as [f|] eqn:E.
    + left. apply firstExpired_elem in E as (t & Hin & Ht). exists f, t. split_and!; try done. by apply Hel.
    + right. split_and!; try done. intros f t Hf. eapply firstExpired_None; [done|]. by apply Hel.
  - split; [right; split_and!; try done; intros f t; by rewrite Hm|].
    destruct (firstExpired now (ord _ _ _ (rTasks c))) as [y|] eqn:E.
    + left. apply firstExpired_elem in E as (t & Hin & Ht). exists y, t. split_and!; try done. by apply Hel.
    + right. split_and!; try done. intros _ y t Hf. eapply firstExpired_None; [done|]. by apply Hel.
  - rewrite Hm, Hr. split; right; split_and!; try done; intros; by rewrite lookup_empty in *.
Qed.

(** ** A run *)

Module MRExamples.

Definition plainTasks : TaskOrder := λ K _ _ m, map_to_list m.
Lemma plainTasks_valid : valid_tasks plainTasks.
Proof. by intros K ? ? m. Qed.

(** Word count on one file with the word "b" twice. *)
Definition wc_map (_ : string) (_ : string) : list KeyValue := [mkKV "b" "1"; mkKV "b" "1"].
Definition wc_reduce (_ : string) (vs : list string) : string := pretty (zlen vs).
Definition wc_content (f : string) : option string := if String.eqb f "in" then Some "b b" else None.
Definition wc_start : MR := mkMR (MakeCoordinator 0 ["in"] 1) ∅ ∅ [].

Definition wc_end : MR := mkMR (mkCoordinator 1 1 {["in" := 0]} ∅ ∅)
  {["mr-0-0" := [mkKV "b" "1"; mkKV "b" "1"]]} {["mr-out-0" := [("b 2" +:+ newline)%string]]} [].

Lemma wc_run : rtc (mr_step plainTasks wc_map wc_reduce (λ l, l) (λ kv, kv) wc_content) wc_start wc_end.
Proof.
  eapply rtc_l; [eapply (mr_map_request _ _ _ _ _ _ 0); [vm_compute; reflexivity..|]; vm_compute; reflexivity|].
  eapply rtc_l; [eapply (mr_map_write _ _ _ _ _ _ _ _ _ [] [])|].
  eapply rtc_l; [eapply (mr_map_finish _ _ _ _ _ _ 5 _ _ _ [] [])|].
  eapply rtc_l; [eapply (mr_reduce_request _ _ _ _ _ _ 6); vm_compute; reflexivity|].
  eapply rtc_l; [eapply (mr_reduce_read _ _ _ _ _ _ _ _ _ [] []); vm_compute; reflexivity|].
  eapply rtc_l; [eapply (mr_reduce_write _ _ _ _ _ _ _ _ _ [] []); [vm_compute; intros [=]|reflexivity]|].
  eapply rtc_l; [eapply (mr_reduce_finish _ _ _ _ _ _ 7 _ _ _ [] [])|].
  match goal with |- rtc _ ?a ?b => assert (a = b) as -> by (vm_compute; reflexivity) end. apply rtc_refl.
Qed.

Lemma mapreduce_correct_witness :
  Done (coord wc_end) = true ∧ ∃ lines, outs wc_end !! "mr-out-0" = Some lines ∧
    outputOk wc_map wc_reduce wc_content ["in"] 1 0 lines.
Proof.
  split; [reflexivity|].
  destruct (mapreduce_correct plainTasks plainTasks_valid wc_map wc_reduce (λ l, l) (λ l, reflexivity l)
    (λ kv, kv) wc_content (λ _ _ _ _, eq_refl) ["in"] 1) with (now := 0) (s := wc_end) as [_ Hout].
  - discriminate.
  - apply NoDup_singleton.
  - lia.
  - apply wc_run.
  - reflexivity.
  - apply (Hout 0). lia.
Defined.

Lemma DispatchTask_lease_witness :
  let c := MakeCoordinator 0 ["in"] 1 in
  (DispatchTask plainTasks 0 mapArgs c).2 = mkReply 1 1 MapStatus 0 "in" 0 NewTask.
Proof.
  intros c. destruct (DispatchTask_lease plainTasks 0 c plainTasks_valid) as [HM _].
  destruct (DispatchTask plainTasks 0 mapArgs c) as [c' reply]. cbn [snd].
  destruct HM as [(f & t & Hf & _ & _ & ->)|(_ & _ & _ & Hno)].
  - change (mTasks c) with ({["in" := 0 - Hour]} : gmap string Z) in Hf.
    apply lookup_singleton_Some in Hf as [<- _]. reflexivity.
  - specialize (Hno "in" (0 - Hour) eq_refl). vm_compute in Hno. by destruct Hno.
Defined.

End MRExamples.
