(* ===== verification/Bitset.v ===== *)
(** * Bit sets ([porcupine/bitset.go])

    A set of small numbers as a slice of 64-bit words, and that its operations are
    those of finite sets. *)

From S2P Require Import Prelude.

Definition bitset := list Z.

(** A [uint64]. *)
Definition word (w : Z) : Prop := 0 <= w < 2 ^ 64.

Definition newBitset (bits : Z) : bitset :=
  let extra := if negb (bits mod 64 =? 0) then 1 else 0 in
  let chunks := bits / 64 + extra in
  replicate (Z.to_nat chunks) 0.

(** [make] and [copy]: a slice of its own with the same words. *)
Definition cloneBits (b : bitset) : bitset :=
  let dataCopy := replicate (length b) 0 in
  take (length dataCopy) b ++ drop (length b) dataCopy.

Definition bitsetIndex (pos : Z) : Z * Z := (pos / 64, pos mod 64).

Definition setBit (pos : Z) (b : bitset) : option bitset :=
  let '(major, minor) := bitsetIndex pos in
  w ← index b major; store b major (Z.lor w (Z.shiftl 1 minor mod 2 ^ 64)).

Definition clearBit (pos : Z) (b : bitset) : option bitset :=
  let '(major, minor) := bitsetIndex pos in
  w ← index b major; store b major (Z.ldiff w (Z.shiftl 1 minor mod 2 ^ 64)).

Definition getBit (pos : Z) (b : bitset) : option bool :=
  let '(major, minor) := bitsetIndex pos in
  w ← index b major; Some (negb (Z.land w (Z.shiftl 1 minor mod 2 ^ 64) =? 0)).

(** [bits.OnesCount64] *)
Definition onesCount64 (w : Z) : Z := zlen (filter (λ i, Z.testbit w i = true) (upto 64)).

Definition popcnt (b : bitset) : Z := foldl (λ total v, total + onesCount64 v) 0 b.

Definition hash (b : bitset) : Z := foldl Z.lxor (popcnt b mod 2 ^ 64) b.

Fixpoint equalWords (b b2 : bitset) : bool :=
  match b, b2 with
  | w :: b, w2 :: b2 => if negb (w =? w2) then false else equalWords b b2
  | _, _ => true
  end.

Definition equals (b b2 : bitset) : bool :=
  if negb (length b =? length b2)%nat then false else equalWords b b2.

(** ** As a set *)

(** The bit at a position. *)
Definition bit (b : bitset) (pos : Z) : bool :=
  match index b (pos / 64) with Some w => Z.testbit w (pos mod 64) | None => false end.

Definition members (b : bitset) : list Z := filter (λ p, bit b p = true) (upto (64 * zlen b)).

(** A set of numbers below [n]: the words are [uint64], as many as [n] positions
    need and no more, and no position from [n] on is set. *)
Record wf_bits (n : Z) (b : bitset) : Prop := {
  wb_words : ∀ w, w ∈ b → word w;
  wb_len : zlen b = (n + 63) / 64;
  wb_none : ∀ q, n <= q → bit b q = false;
}.

Lemma wb_room n b : wf_bits n b → n <= 64 * zlen b.
Proof. intros [_ -> _]. div_lia. Qed.

Lemma pos_split pos : pos = 64 * (pos / 64) + pos mod 64 ∧ 0 <= pos mod 64 < 64.
Proof. split; [by apply Z.div_mod|by apply Z.mod_pos_bound]. Qed.

Lemma pos_eq p q : p / 64 = q / 64 → p mod 64 = q mod 64 → p = q.
Proof. intros. rewrite (proj1 (pos_split p)), (proj1 (pos_split q)). congruence. Qed.

Lemma mask_pow minor : 0 <= minor < 64 → Z.shiftl 1 minor mod 2 ^ 64 = 2 ^ minor.
Proof.
  intros Hm. rewrite Z.shiftl_1_l, Z.mod_small; [done|].
  split; [by apply Z.pow_nonneg|]. apply Z.pow_lt_mono_r; lia.
Qed.

Lemma word_bits w : 0 <= w → (∀ i, 64 <= i → Z.testbit w i = false) → word w.
Proof.
  intros H0 Hb. split; [done|]. destruct (Z.eq_dec w 0) as [->|Hne]; [done|].
  apply Z.log2_lt_pow2; [lia|]. destruct (Z.lt_ge_cases (Z.log2 w) 64) as [|Hge]; [done|].
  specialize (Hb _ Hge). rewrite Z.bit_log2 in Hb by lia. done.
Qed.

Lemma word_high w i : word w → 64 <= i → Z.testbit w i = false.
Proof.
  intros [H0 H1] Hi. destruct (Z.eq_dec w 0) as [->|Hne]; [apply Z.bits_0|].
  apply Z.bits_above_log2; [done|]. apply Z.log2_lt_pow2; [lia|].
  eapply Z.lt_le_trans; [exact H1|]. apply Z.pow_le_mono_r; lia.
Qed.

Lemma word_set w m : word w → 0 <= m < 64 → word (Z.lor w (2 ^ m)).
Proof.
  intros Hw Hm. pose proof (Z.pow_nonneg 2 m). apply word_bits; [apply Z.lor_nonneg; split; [apply Hw|lia]|].
  intros i Hi. rewrite Z.lor_spec, (word_high w) by done. simpl. apply Z.pow2_bits_false. lia.
Qed.

Lemma word_clear w m : word w → 0 <= m < 64 → word (Z.ldiff w (2 ^ m)).
Proof.
  intros Hw Hm. apply word_bits; [apply Z.ldiff_nonneg; left; apply Hw|].
  intros i Hi. by rewrite Z.ldiff_spec, (word_high w).
Qed.

(** Storing one word changes the bits of that word only. *)
Lemma bit_store b pos f :
  0 <= pos → is_Some (index b (pos / 64)) →
  ∃ w b', index b (pos / 64) = Some w ∧ store b (pos / 64) (f w) = Some b' ∧ zlen b' = zlen b ∧
    (∀ w', w' ∈ b' → w' = f w ∨ w' ∈ b) ∧
    ∀ q, 0 <= q → bit b' q = if decide (q / 64 = pos / 64) then Z.testbit (f w) (q mod 64) else bit b q.
Proof.
  intros Hp [w Hw]. exists w, (<[Z.to_nat (pos / 64) := f w]> b). pose proof (index_lt _ _ _ Hw) as Hr.
  split_and!; [done|by apply store_is_Some|apply zlen_insert| |].
  - intros w' Hin. apply list_elem_of_lookup in Hin as [i Hi]. rewrite list_lookup_insert in Hi.
    destruct (decide _) as [_|_]; [left; congruence|right; by eapply list_elem_of_lookup_2].
  - intros q Hq. unfold bit. destruct (decide _) as [->|Hne]; [by rewrite index_insert_eq|].
    rewrite index_insert_ne; [done|lia|lia].
Qed.

Lemma room n b pos : wf_bits n b → 0 <= pos < n → is_Some (index b (pos / 64)).
Proof.
  intros Hr%wb_room Hp. apply index_is_Some. split; [apply Z.div_pos; lia|]. apply Z.div_lt_upper_bound; lia.
Qed.

Lemma setBit_spec n b pos :
  wf_bits n b → 0 <= pos < n →
  ∃ b', setBit pos b = Some b' ∧ wf_bits n b' ∧ zlen b' = zlen b ∧
    ∀ q, 0 <= q → bit b' q = bool_decide (q = pos) || bit b q.
Proof.
  intros Hwf Hp. destruct (pos_split pos) as [_ Hm].
  destruct (bit_store b pos (λ w, Z.lor w (2 ^ (pos mod 64)))) as (w & b' & Hw & Hs & Hl & Hin & Hb); [lia|by eapply room|].
  exists b'. unfold setBit, bitsetIndex. rewrite Hw. cbn [mbind option_bind]. rewrite mask_pow, Hs by done.
  assert (∀ q, 0 <= q → bit b' q = bool_decide (q = pos) || bit b q) as Hset.
  { intros q Hq. rewrite Hb by done. destruct (decide (q / 64 = pos / 64)) as [E|E].
    - unfold bit. rewrite E, Hw, Z.lor_spec. destruct (decide (q mod 64 = pos mod 64)) as [E'|E'].
      + rewrite bool_decide_eq_true_2 by (by apply pos_eq). rewrite E', Z.pow2_bits_true by lia. by rewrite orb_true_r.
      + rewrite bool_decide_eq_false_2 by (intros ->; done). rewrite Z.pow2_bits_false by lia. by rewrite orb_false_r.
    - rewrite bool_decide_eq_false_2 by (intros ->; done). done. }
  split_and!; [done| |done|exact Hset]. split; [|rewrite Hl; apply Hwf|].
  - intros w' [->|?]%Hin; [|by apply Hwf].
    apply word_set; [|done]. by eapply (wb_words _ _ Hwf), index_elem_of.
  - intros q Hq. rewrite Hset, (wb_none _ _ Hwf), bool_decide_eq_false_2 by lia. done.
Qed.

(** Two slices with words and the same bits are the same. *)
Lemma bits_ext b b' :
  (∀ w, w ∈ b → word w) → (∀ w, w ∈ b' → word w) → zlen b = zlen b' →
  (∀ q, 0 <= q < 64 * zlen b → bit b q = bit b' q) → b = b'.
Proof.
  intros Hw Hw' Hl Hq. apply list_eq. intros i. destruct (b !! i) as [w|] eqn:E.
  2:{ apply lookup_ge_None_1 in E. symmetry. apply lookup_ge_None_2. unfold zlen in Hl. lia. }
  destruct (b' !! i) as [w'|] eqn:E'; [|apply lookup_ge_None_1 in E'; apply lookup_lt_Some in E; unfold zlen in Hl; lia].
  f_equal. apply Z.bits_inj'. intros j Hj. destruct (Z.lt_ge_cases j 64) as [Hlt|Hge].
  - specialize (Hq (64 * Z.of_nat i + j)). unfold bit in Hq.
    rewrite (Z.mul_comm 64), Z.div_add_l, (Z.div_small j), Z.add_0_r in Hq by lia.
    replace ((Z.of_nat i * 64 + j) mod 64) with j in Hq by (rewrite Z.add_comm, Z.mod_add, Z.mod_small; lia).
    rewrite !index_lookup, !Nat2Z.id, E, E' in Hq by lia. apply Hq.
    apply lookup_lt_Some in E. unfold zlen. lia.
  - rewrite !word_high; [done| |done| |done]; [by eapply Hw', list_elem_of_lookup_2|by eapply Hw, list_elem_of_lookup_2].
Qed.

Lemma clearBit_spec n b pos :
  wf_bits n b → 0 <= pos < n →
  ∃ b', clearBit pos b = Some b' ∧ wf_bits n b' ∧ zlen b' = zlen b ∧
    ∀ q, 0 <= q → bit b' q = negb (bool_decide (q = pos)) && bit b q.
Proof.
  intros Hwf Hp. destruct (pos_split pos) as [_ Hm].
  destruct (bit_store b pos (λ w, Z.ldiff w (2 ^ (pos mod 64)))) as (w & b' & Hw & Hs & Hl & Hin & Hb); [lia|by eapply room|].
  exists b'. unfold clearBit, bitsetIndex. rewrite Hw. cbn [mbind option_bind]. rewrite mask_pow, Hs by done.
  assert (∀ q, 0 <= q → bit b' q = negb (bool_decide (q = pos)) && bit b q) as Hclr.
  { intros q Hq. rewrite Hb by done. destruct (decide (q / 64 = pos / 64)) as [E|E].
    - unfold bit. rewrite E, Hw, Z.ldiff_spec. destruct (decide (q mod 64 = pos mod 64)) as [E'|E'].
      + rewrite bool_decide_eq_true_2 by (by apply pos_eq). rewrite E', Z.pow2_bits_true by lia. by rewrite andb_false_r.
      + rewrite bool_decide_eq_false_2 by (intros ->; done). rewrite Z.pow2_bits_false by lia. by rewrite andb_true_r.
    - rewrite bool_decide_eq_false_2 by (intros ->; done). done. }
  split_and!; [done| |done|exact Hclr]. split; [|rewrite Hl; apply Hwf|].
  - intros w' [->|?]%Hin; [|by apply Hwf].
    apply word_clear; [|done]. by eapply (wb_words _ _ Hwf), index_elem_of.
  - intros q Hq. rewrite Hclr, (wb_none _ _ Hwf) by lia. apply andb_false_r.
Qed.

(** Clearing what was just set gives back the same words. *)
Lemma clear_set n b pos b' :
  wf_bits n b → 0 <= pos < n → bit b pos = false → setBit pos b = Some b' → clearBit pos b' = Some b.
Proof.
  intros Hwf Hp Hf Hs. destruct (setBit_spec n b pos Hwf Hp) as (b1 & Hs1 & Hwf1 & Hl1 & Hb1).
  assert (b1 = b') as -> by congruence. destruct (clearBit_spec n b' pos Hwf1 Hp) as (b2 & -> & Hwf2 & Hl2 & Hb2).
  f_equal. apply bits_ext; [apply Hwf2|apply Hwf|lia|]. intros q [Hq _]. rewrite Hb2, Hb1 by done.
  case_bool_decide as E; simpl; [by subst|done].
Qed.

Lemma cloneBits_id b : cloneBits b = b.
Proof.
  unfold cloneBits. rewrite length_replicate, take_ge by lia.
  rewrite drop_ge by (rewrite length_replicate; lia). apply app_nil_r.
Qed.

Lemma equalWords_eq b b2 : length b = length b2 → equalWords b b2 = true ↔ b = b2.
Proof.
  revert b2. induction b as [|w b IH]; intros [|w2 b2] Hl; simplify_eq/=; [done|].
  destruct (Z.eqb_spec w w2) as [->|]; simpl; [rewrite IH by done; naive_solver|naive_solver].
Qed.

Lemma equals_eq b b2 : equals b b2 = true ↔ b = b2.
Proof.
  unfold equals. destruct (Nat.eqb_spec (length b) (length b2)); simpl; [by apply equalWords_eq|naive_solver].
Qed.

Lemma index_replicate n (x y : Z) i : index (replicate n x) i = Some y → y = x.
Proof. intros [_ H]%index_Some. by apply lookup_replicate in H as [-> _]. Qed.

Lemma newBitset_spec n :
  0 <= n → wf_bits n (newBitset n) ∧ zlen (newBitset n) = (n + 63) / 64 ∧ ∀ q, bit (newBitset n) q = false.
Proof.
  intros Hn. unfold newBitset. set (chunks := _ + _). assert (chunks = (n + 63) / 64) as Hc.
  { unfold chunks. destruct (Z.eqb_spec (n mod 64) 0); simpl; div_lia. }
  assert (zlen (replicate (Z.to_nat chunks) 0) = chunks) as Hz by (unfold zlen; rewrite length_replicate, Hc; div_lia).
  assert (∀ q, bit (replicate (Z.to_nat chunks) 0) q = false) as Hq.
  { intros q. unfold bit. destruct (index _ _) as [w|] eqn:E; [|done]. apply index_replicate in E as ->. apply Z.bits_0. }
  split_and!; [split|by rewrite Hz|done]; [|by rewrite Hz|by intros].
  intros w [i Hi]%list_elem_of_lookup. apply lookup_replicate in Hi as [-> _]. done.
Qed.

(** ** Counting *)

Lemma upto_app a b : 0 <= a → 0 <= b → upto (a + b) = upto a ++ ((λ i, a + i) <$> upto b).
Proof.
  intros Ha Hb. unfold upto. replace (Z.to_nat (a + b)) with (Z.to_nat a + Z.to_nat b)%nat by lia.
  rewrite seq_app, fmap_app. f_equal. rewrite <-list_fmap_compose, Nat.add_0_l.
  rewrite <-(Nat.add_0_r (Z.to_nat a)) at 1. rewrite <-fmap_add_seq, <-list_fmap_compose.
  apply list_fmap_ext. intros i x _. simpl. lia.
Qed.

Lemma filter_fmap_len {A B} (P : B → Prop) (Q : A → Prop) `{∀ x, Decision (P x), ∀ x, Decision (Q x)} (f : A → B) l :
  (∀ x, x ∈ l → P (f x) ↔ Q x) → zlen (filter P (f <$> l)) = zlen (filter Q l).
Proof.
  induction l as [|x l IH]; intros Hl; [done|]. rewrite fmap_cons, !zlen_filter_cons, IH by (intros; apply Hl; by right).
  f_equal. specialize (Hl x ltac:(by left)). repeat case_decide; naive_solver.
Qed.

Lemma popcnt_snoc b w : popcnt (b ++ [w]) = popcnt b + onesCount64 w.
Proof. unfold popcnt. by rewrite foldl_app. Qed.

Lemma popcnt_members b : popcnt b = zlen (members b).
Proof.
  induction b as [|w b IH] using rev_ind; [done|]. rewrite popcnt_snoc, IH. unfold members.
  pose proof (zlen_nonneg b). rewrite zlen_app, zlen_cons, zlen_nil.
  replace (64 * (zlen b + (0 + 1))) with (64 * zlen b + 64) by lia. rewrite upto_app, filter_app, zlen_app by lia.
  f_equal.
  - assert (∀ (P Q : Z → Prop) `{∀ x, Decision (P x), ∀ x, Decision (Q x)} l,
      (∀ x, x ∈ l → P x ↔ Q x) → zlen (filter P l) = zlen (filter Q l)) as Hext.
    { intros P Q ? ? l HPQ. rewrite <-(list_fmap_id l) at 1. by apply filter_fmap_len. }
    apply Hext. intros p [Hp1 Hp2]%upto_elem. unfold bit. rewrite index_app_l; [done|].
    apply Z.div_lt_upper_bound; lia.
  - unfold onesCount64. symmetry. apply filter_fmap_len. intros i Hi%upto_elem. unfold bit.
    replace ((64 * zlen b + i) / 64) with (zlen b) by (rewrite Z.mul_comm, Z.div_add_l, Z.div_small; lia).
    rewrite index_app_r, Z.sub_diag by lia. cbn.
    replace ((64 * zlen b + i) mod 64) with i; [done|]. rewrite Z.add_comm, (Z.mul_comm 64), Z.mod_add, Z.mod_small; lia.
Qed.

Lemma members_elem b p : p ∈ members b ↔ 0 <= p < 64 * zlen b ∧ bit b p = true.
Proof. unfold members. rewrite list_elem_of_filter, upto_elem. naive_solver. Qed.

Lemma getBit_spec n b pos : wf_bits n b → 0 <= pos < n → getBit pos b = Some (bit b pos).
Proof.
  intros Hwf Hp. destruct (pos_split pos) as [_ Hm]. destruct (room n b pos Hwf Hp) as [w Hw].
  unfold getBit, bitsetIndex, bit. rewrite Hw. cbn [mbind option_bind]. rewrite mask_pow by done. f_equal.
  destruct (Z.eqb_spec (Z.land w (2 ^ (pos mod 64))) 0) as [E|E]; simpl.
  - symmetry. assert (Z.testbit (Z.land w (2 ^ (pos mod 64))) (pos mod 64) = false) as Hf by (rewrite E; apply Z.bits_0).
    rewrite Z.land_spec, Z.pow2_bits_true, andb_true_r in Hf by lia. done.
  - destruct (Z.testbit w (pos mod 64)) eqn:Ht; [done|]. destruct E. apply Z.bits_inj'. intros j Hj.
    rewrite Z.land_spec, Z.bits_0. destruct (decide (j = pos mod 64)) as [->|Hne]; [by rewrite Ht|].
    by rewrite Z.pow2_bits_false, andb_false_r by lia.
Qed.

Lemma members_below n b p : wf_bits n b → p ∈ members b → 0 <= p < n.
Proof.
  intros Hwf [Hp Hb]%members_elem. destruct (Z.lt_ge_cases p n); [lia|].
  by rewrite (wb_none _ _ Hwf) in Hb.
Qed.

(** C26: the bit set is a set of numbers below the [n] it was made for, kept in
    exactly as many [uint64] words as [n] positions need, with no bit beyond
    them.  A new one is empty; [set], [clear] and [get] of a position below [n]
    never panic and add, remove and test one member, and keep the representation;
    [popcnt] counts the members; a clone is equal; and [equals] holds exactly for
    equal sets.  A position beyond the words panics. *)
Theorem bitset_refines_set n b pos :
  wf_bits n b → 0 <= pos < n →
  wf_bits n (newBitset n) ∧ members (newBitset n) = [] ∧
  (∀ p, p ∈ members b → 0 <= p < n) ∧
  (∃ b', setBit pos b = Some b' ∧ wf_bits n b' ∧ ∀ p, p ∈ members b' ↔ p = pos ∨ p ∈ members b) ∧
  (∃ b', clearBit pos b = Some b' ∧ wf_bits n b' ∧ ∀ p, p ∈ members b' ↔ p ≠ pos ∧ p ∈ members b) ∧
  getBit pos b = Some (bool_decide (pos ∈ members b)) ∧
  popcnt b = zlen (members b) ∧ equals (cloneBits b) b = true ∧
  (∀ b2, wf_bits n b2 → equals b b2 = true ↔ ∀ p, p ∈ members b ↔ p ∈ members b2) ∧
  (∀ p, 64 * ((n + 63) / 64) <= p → setBit p b = None ∧ clearBit p b = None ∧ getBit p b = None).
Proof.
  intros Hwf Hp. pose proof (wb_room _ _ Hwf) as Hroom.
  assert (0 <= pos < 64 * zlen b) as Hr by lia.
  destruct (newBitset_spec n ltac:(lia)) as (Hn1 & _ & Hn2). split; [done|]. split_and!.
  - apply filter_none. intros p _. by rewrite Hn2.
  - intros p. by apply members_below.
  - destruct (setBit_spec n b pos Hwf Hp) as (b' & Hs & Hwf' & Hl & Hb). exists b'. split_and!; [done..|].
    intros p. rewrite !members_elem, Hl. split.
    + intros [H1 H2]. rewrite Hb in H2 by lia. case_bool_decide; [by left|right; done].
    + intros [->|[H1 H2]]; [split; [done|]; rewrite Hb, bool_decide_eq_true_2 by lia; done|].
      split; [done|]. rewrite Hb, H2 by lia. by rewrite orb_true_r.
  - destruct (clearBit_spec n b pos Hwf Hp) as (b' & Hs & Hwf' & Hl & Hb). exists b'. split_and!; [done..|].
    intros p. rewrite !members_elem, Hl. split.
    + intros [H1 H2]. rewrite Hb in H2 by lia. case_bool_decide; [done|]. done.
    + intros [H0 [H1 H2]]. split; [done|]. rewrite Hb, H2, bool_decide_eq_false_2 by lia. done.
  - rewrite (getBit_spec n) by done. f_equal. destruct (bit b pos) eqn:E.
    + symmetry. apply bool_decide_eq_true_2, members_elem. done.
    + symmetry. apply bool_decide_eq_false_2. rewrite members_elem. intros [_ Ht]. congruence.
  - apply popcnt_members.
  - rewrite cloneBits_id. by apply equals_eq.
  - intros b2 Hwf2. assert (zlen b2 = zlen b) as Hl by (rewrite (wb_len _ _ Hwf); apply Hwf2). rewrite equals_eq. split; [by intros ->|]. intros Hm.
    apply bits_ext; [apply Hwf|apply Hwf2|done|]. intros q Hq. specialize (Hm q). rewrite !members_elem, Hl in Hm.
    destruct (bit b q), (bit b2 q); [done| | |done]; exfalso; naive_solver.
  - intros p Hpos. rewrite <-(wb_len _ _ Hwf) in Hpos. unfold setBit, clearBit, getBit, bitsetIndex.
    by rewrite index_None_ge by (apply Z.div_le_lower_bound; lia).
Qed.

Lemma bitset_refines_set_witness :
  ∃ b', setBit 70 (newBitset 100) = Some b' ∧ members b' = [70] ∧ getBit 70 b' = Some true.
Proof.
  destruct (newBitset_spec 100 ltac:(lia)) as [Hwf _].
  destruct (bitset_refines_set 100 (newBitset 100) 70 Hwf ltac:(lia)) as (_ & _ & _ & (b' & Hs & Hwf' & _) & _).
  exists b'. split; [exact Hs|]. vm_compute in Hs. injection Hs as <-. split; vm_compute; reflexivity.
Defined.
