(* ===== verification/Porcupine.v ===== *)
(** * The linearizability checker ([porcupine/checker.go], [model.go], [porcupine.go])

    The tests of the key/value services record a history of operations and ask this
    checker whether it is linearizable.  It searches depth first for an order of the
    operations, over a doubly linked list of their call and return entries from
    which an operation is unlinked when it is chosen and to which it is linked again
    on the way back, and remembers the pairs of chosen operations and state it has
    been to.

    Nodes live in a heap; a nil or dangling pointer is a panic.  Descriptions of
    operations and states, for the visualisation, are left out. *)

From S2P Require Import Prelude Bitset.

(** A pointer to a sequence of ids: its number and the ids. *)
Notation seqPtr := (nat * list Z)%type.

Section checker.
(** [interface{}] values of operations, and states. *)
Context {V S : Type}.

Record Operation := mkOperation { ClientId : Z; Input : V; Call : Z; Output : V; Return : Z }.

Inductive EventKind := CallEvent | ReturnEvent.
Record Event := mkEvent { ev_ClientId : Z; Kind : EventKind; ev_Value : V; Id : Z }.

(** The functions may panic; a nil function is [None]. *)
Record Model := mkModel {
  Partition : option (list Operation → option (list (list Operation)));
  PartitionEvent : option (list Event → option (list (list Event)));
  Init : S;
  Step : S → V → V → option (bool * S);
  Equal : option (S → S → bool);
}.

Definition NoPartition (history : list Operation) : option (list (list Operation)) := Some [history].
Definition NoPartitionEvent (history : list Event) : option (list (list Event)) := Some [history].
Definition ShallowEqual `{!EqDecision S} (state1 state2 : S) : bool := bool_decide (state1 = state2).

Inductive CheckResult := Unknown | Ok | Illegal.

(** ** Entries *)

Inductive entryKind := callEntry | returnEntry.
Record entry := mkEntry { kind : entryKind; value : V; id : Z; time : Z; clientId : Z }.

#[export] Instance entryKind_eq_dec : EqDecision entryKind.
Proof. solve_decision. Defined.

(** [byTime.Less] *)
Definition less (a b : entry) : bool :=
  if negb (time a =? time b) then time a <? time b
  else bool_decide (kind a = callEntry) && bool_decide (kind b = returnEntry).

Fixpoint operationEntries (i : Z) (history : list Operation) : list entry :=
  match history with
  | [] => []
  | elem :: history =>
    mkEntry callEntry (Input elem) i (Call elem) (ClientId elem)
    :: mkEntry returnEntry (Output elem) i (Return elem) (ClientId elem)
    :: operationEntries (i + 1) history
  end.

(** [sort] is [sort.Sort(byTime(_))]. *)
Definition makeEntries (sort : list entry → list entry) (history : list Operation) : list entry :=
  sort (operationEntries 0 history).

Definition renumberStep (acc : list Event * gmap Z Z * Z) (v : Event) : list Event * gmap Z Z * Z :=
  let '(e, m, next) := acc in
  match m !! Id v with
  | Some r => (e ++ [mkEvent (ev_ClientId v) (Kind v) (ev_Value v) r], m, next)
  | None => (e ++ [mkEvent (ev_ClientId v) (Kind v) (ev_Value v) next], <[Id v := next]> m, next + 1)
  end.
Definition renumber (events : list Event) : list Event := (foldl renumberStep ([], ∅, 0) events).1.1.

Definition convertEntries (events : list Event) : list entry :=
  zip_with (λ i elem, mkEntry (match Kind elem with ReturnEvent => returnEntry | CallEvent => callEntry end)
                        (ev_Value elem) (Id elem) i (ev_ClientId elem))
           (upto (zlen events)) events.

(** ** The linked list *)

Definition ptr := option nat.
Record node := mkNode { nvalue : option V; match_ : ptr; nid : Z; next : ptr; prev : ptr }.
#[local] Notation heap := (gmap nat node).

#[export] Instance eta_node : Eta node := λ n, mkNode (nvalue n) (match_ n) (nid n) (next n) (prev n).
#[export] Instance set_next : Setter next.
Proof. setter. Defined.
#[export] Instance set_prev : Setter prev.
Proof. setter. Defined.

(** Field assignments through a pointer. *)
Definition setNext (p : nat) (q : ptr) (h : heap) : option heap := n ← h !! p; Some (<[p := n <| next := q |>]> h).
Definition setPrev (p : nat) (q : ptr) (h : heap) : option heap := n ← h !! p; Some (<[p := n <| prev := q |>]> h).

Definition insertBefore (n : nat) (mark : ptr) (h : heap) : option heap :=
  match mark with
  | None => Some h
  | Some m =>
    nd ← h !! m;
    let beforeMark := prev nd in
    h ← setPrev m (Some n) h;
    h ← setNext n (Some m) h;
    match beforeMark with
    | None => Some h
    | Some b => h ← setPrev n (Some b) h; setNext b (Some n) h
    end
  end.

(** [length]; the list has at most as many nodes as the heap. *)
Fixpoint lengthFrom (fuel : nat) (n : ptr) (h : heap) : option Z :=
  match n with
  | None => Some 0
  | Some p =>
    match fuel with
    | O => None
    | Datatypes.S fuel => nd ← h !! p; l ← lengthFrom fuel (next nd) h; Some (l + 1)
    end
  end.
Definition lengthList (n : ptr) (h : heap) : option Z := lengthFrom (size h) n h.

(** [makeLinkedEntries], from the last entry to the first; the node of entry [i] is
    allocated at [i]. *)
Record Linking := mkLinking { l_heap : heap; l_root : ptr; l_match : gmap Z nat }.

Definition linkEntry (i : nat) (elem : entry) (l : Linking) : option Linking :=
  match kind elem with
  | returnEntry =>
    let h := <[i := mkNode (Some (value elem)) None (id elem) None None]> (l_heap l) in
    h ← insertBefore i (l_root l) h;
    Some (mkLinking h (Some i) (<[id elem := i]> (l_match l)))
  | callEntry =>
    let h := <[i := mkNode (Some (value elem)) (l_match l !! id elem) (id elem) None None]> (l_heap l) in
    h ← insertBefore i (l_root l) h;
    Some (mkLinking h (Some i) (l_match l))
  end.

Fixpoint linkFrom (i : nat) (entries : list entry) : option Linking :=
  match entries with
  | [] => Some (mkLinking ∅ None ∅)
  | elem :: entries => l ← linkFrom (Datatypes.S i) entries; linkEntry i elem l
  end.
Definition makeLinkedEntries (entries : list entry) : option (heap * ptr) :=
  l ← linkFrom 0 entries; Some (l_heap l, l_root l).

(** [p.f] of a pointer that must not be nil. *)
Definition lift (e : nat) (h : heap) : option heap :=
  nd ← h !! e; p ← prev nd;
  h ← setNext p (next nd) h;
  q ← next nd;
  h ← setPrev q (prev nd) h;
  m ← match_ nd; md ← h !! m; mp ← prev md;
  h ← setNext mp (next md) h;
  match next md with Some mq => setPrev mq (prev md) h | None => Some h end.

Definition unlift (e : nat) (h : heap) : option heap :=
  nd ← h !! e; m ← match_ nd; md ← h !! m; mp ← prev md;
  h ← setNext mp (Some m) h;
  h ← match next md with Some mq => setPrev mq (Some m) h | None => Some h end;
  nd ← h !! e; p ← prev nd;
  h ← setNext p (Some e) h;
  q ← next nd;
  setPrev q (Some e) h.

(** ** The search *)

Record cacheEntry := mkCacheEntry { linearized_ : bitset; state_ : S }.
Record callsEntry := mkCallsEntry { ce_entry : nat; ce_state : S }.

Definition cacheContains (equal : S → S → bool) (cache : gmap Z (list cacheEntry)) (e : cacheEntry) : bool :=
  existsb (λ elem, equals (linearized_ e) (linearized_ elem) && equal (state_ e) (state_ elem))
          (default [] (cache !! hash (linearized_ e))).

(** The variables of [checkSingle].  A sequence of ids is not written to once it is
    pointed to. *)
Record Search := mkSearch {
  s_heap : heap; s_entry : ptr; linearized : bitset; cache : gmap Z (list cacheEntry);
  calls : list callsEntry; longest : list (option seqPtr); state : S; fresh : nat }.

#[export] Instance eta_Search : Eta Search := λ s,
  mkSearch (s_heap s) (s_entry s) (linearized s) (cache s) (calls s) (longest s) (state s) (fresh s).
#[export] Instance set_s_heap : Setter s_heap.
Proof. setter. Defined.
#[export] Instance set_s_entry : Setter s_entry.
Proof. setter. Defined.
#[export] Instance set_linearized : Setter linearized.
Proof. setter. Defined.
#[export] Instance set_cache : Setter cache.
Proof. setter. Defined.
#[export] Instance set_calls : Setter calls.
Proof. setter. Defined.
#[export] Instance set_longest : Setter longest.
Proof. setter. Defined.
#[export] Instance set_state : Setter state.
Proof. setter. Defined.
#[export] Instance set_fresh : Setter fresh.
Proof. setter. Defined.

(** The ids of the calls made so far. *)
Definition callIds (h : heap) (cs : list callsEntry) : option (list Z) :=
  mapM (λ v, nd ← h !! ce_entry v; Some (nid nd)) cs.

(** The loop that fills [longest]; [k] numbers the sequence. *)
Definition longestStep (k : nat) (seq : list Z) (callsLen : Z) (acc : option (list (option seqPtr))) (i : Z)
    : option (list (option seqPtr)) :=
  longest ← acc;
  old ← index longest i;
  match old with
  | Some (_, s) => if zlen s <? callsLen then store longest i (Some (k, seq)) else Some longest
  | None => store longest i (Some (k, seq))
  end.

(** One round of the loop, or the return. *)
Inductive Round := Continue (s : Search) | Finish (ok : bool) (l : list (option seqPtr)).

Definition checkRound (model : Model) (equal : S → S → bool) (computePartial kill : bool) (headEntry : nat)
    (s : Search) : option Round :=
  head ← s_heap s !! headEntry;
  match next head with
  | None =>
    seq ← callIds (s_heap s) (calls s);
    Some (Finish true ((λ _, Some (fresh s, seq)) <$> longest s))
  | Some _ =>
    if kill then Some (Finish false (longest s))
    else
      e ← s_entry s; nd ← s_heap s !! e;
      match match_ nd with
      | Some m =>
        matching ← s_heap s !! m;
        input ← nvalue nd; output ← nvalue matching;
        '(ok, newState) ← Step model (state s) input output;
        if ok : bool then
          newLinearized ← setBit (nid nd) (cloneBits (linearized s));
          let newCacheEntry := mkCacheEntry newLinearized newState in
          if negb (cacheContains equal (cache s) newCacheEntry) then
            let hsh := hash newLinearized in
            let cache' := <[hsh := default [] (cache s !! hsh) ++ [newCacheEntry]]> (cache s) in
            let calls' := calls s ++ [mkCallsEntry e (state s)] in
            lin ← setBit (nid nd) (linearized s);
            h ← lift e (s_heap s);
            head ← h !! headEntry;
            Some (Continue (s <| cache := cache' |> <| calls := calls' |> <| state := newState |>
                              <| linearized := lin |> <| s_heap := h |> <| s_entry := next head |>))
          else Some (Continue (s <| s_entry := next nd |>))
        else Some (Continue (s <| s_entry := next nd |>))
      | None =>
        match calls s with
        | [] => Some (Finish false (longest s))
        | _ :: _ =>
          seq ← callIds (s_heap s) (calls s);
          longest' ← (if computePartial then foldl (longestStep (fresh s) seq (zlen (calls s))) (Some (longest s)) seq
                      else Some (longest s));
          callsTop ← last_entry (calls s);
          top ← s_heap s !! ce_entry callsTop;
          lin ← clearBit (nid top) (linearized s);
          h ← unlift (ce_entry callsTop) (s_heap s);
          top ← h !! ce_entry callsTop;
          Some (Continue (s <| longest := longest' |> <| fresh := Datatypes.S (fresh s) |>
                            <| state := ce_state callsTop |> <| linearized := lin |>
                            <| calls := take (length (calls s) - 1) (calls s) |>
                            <| s_heap := h |> <| s_entry := next top |>))
        end
      end
  end.

(** The loop; [kill n] is what round [n] loads from the kill flag. *)
Fixpoint checkLoop (model : Model) (equal : S → S → bool) (computePartial : bool) (kill : nat → bool)
    (headEntry fuel n : nat) (s : Search) : option (bool * list (option seqPtr)) :=
  match fuel with
  | O => None
  | Datatypes.S fuel =>
    r ← checkRound model equal computePartial (kill n) headEntry s;
    match r with
    | Continue s => checkLoop model equal computePartial kill headEntry fuel (Datatypes.S n) s
    | Finish ok l => Some (ok, l)
    end
  end.

Definition checkSingle (model : Model) (equal : S → S → bool) (fuel : nat) (history : list entry)
    (computePartial : bool) (kill : nat → bool) : option (bool * list (option seqPtr)) :=
  '(h, entry) ← makeLinkedEntries history;
  len ← lengthList entry h;
  let n := len / 2 in
  let headEntry := length history in
  let h := <[headEntry := mkNode None None (-1) None None]> h in
  h ← insertBefore headEntry entry h;
  checkLoop model equal computePartial kill headEntry fuel 0
    (mkSearch h entry (newBitset n) ∅ [] (replicate (Z.to_nat n) None) (Init model) 0).

(** ** Checking the partitions in parallel *)

(** What the collecting loop receives next. *)
Inductive Message := ResultMsg (ok : bool) | TimeoutMsg.
#[export] Instance Message_eq_dec : EqDecision Message.
Proof. solve_decision. Defined.

(** The loop of [checkParallel]: [ok], [timedOut], [count] and the messages not
    received when it is left, [None] while it waits for another message. *)
Fixpoint collect (computeInfo : bool) (total count : nat) (ok : bool) (msgs : list Message)
    : option (bool * bool * nat * list Message) :=
  match msgs with
  | [] => None
  | ResultMsg result :: msgs =>
    let count := Datatypes.S count in
    let ok := ok && result in
    if negb ok && negb computeInfo then Some (ok, false, count, msgs)
    else if (total <=? count)%nat then Some (ok, false, count, msgs)
    else collect computeInfo total count ok msgs
  | TimeoutMsg :: msgs => Some (ok, true, count, msgs)
  end.

(** With [computeInfo] the other goroutines are waited for. *)
Definition waitAll (total count : nat) (msgs : list Message) : option unit :=
  if (total - count <=? length (filter (λ m, m ≠ TimeoutMsg) msgs))%nat then Some tt else None.

Definition verdict (ok timedOut : bool) : CheckResult :=
  if negb ok then Illegal else if timedOut then Unknown else Ok.

(** The sequences of a partition, one for each distinct pointer. *)
Definition partials (longest : list (option seqPtr)) : list (list Z) :=
  (map_to_list (list_to_map (omap (λ x, x) longest) : gmap nat (list Z))).*2.

Record linearizationInfo := mkInfo { history : list (list entry); partialLinearizations : list (list (list Z)) }.
Definition noInfo : linearizationInfo := mkInfo [] [].

(** [msgs] is what arrives on the two channels, [longest] what the goroutines
    return beside their verdicts. *)
Definition checkParallel (hist : list (list entry)) (computeInfo : bool) (msgs : list Message)
    (longest : list (list (option seqPtr))) : option (CheckResult * linearizationInfo) :=
  '(ok, timedOut, count, rest) ← collect computeInfo (length hist) 0 true msgs;
  info ← (if computeInfo : bool then _ ← waitAll (length hist) count rest; Some (mkInfo hist (partials <$> longest))
          else Some noInfo);
  Some (verdict ok timedOut, info).

Definition fillDefault `{!EqDecision S} (model : Model) : Model :=
  mkModel (Some (default NoPartition (Partition model))) (Some (default NoPartitionEvent (PartitionEvent model)))
    (Init model) (Step model) (Some (default ShallowEqual (Equal model))).

(** The partitions a check is run on. *)
Definition operationPartitions `{!EqDecision S} (sort : list entry → list entry) (model : Model)
    (hist : list Operation) : option (list (list entry)) :=
  match Partition (fillDefault model) with
  | Some part => l ← part hist; Some (map (makeEntries sort) l)
  | None => None
  end.
Definition eventPartitions `{!EqDecision S} (model : Model) (hist : list Event) : option (list (list entry)) :=
  match PartitionEvent (fillDefault model) with
  | Some part => l ← part hist; Some (map (λ sub, convertEntries (renumber sub)) l)
  | None => None
  end.

Definition checkEvents `{!EqDecision S} (model : Model) (hist : list Event) (verbose : bool) msgs longest :=
  l ← eventPartitions model hist; checkParallel l verbose msgs longest.
Definition checkOperations `{!EqDecision S} (sort : list entry → list entry) (model : Model)
    (hist : list Operation) (verbose : bool) msgs longest :=
  l ← operationPartitions sort model hist; checkParallel l verbose msgs longest.

(** The interface; without a timeout no [TimeoutMsg] arrives. *)
Definition CheckOperations `{!EqDecision S} sort model hist msgs : option bool :=
  '(res, _) ← checkOperations sort model hist false msgs []; Some (match res with Ok => true | _ => false end).
Definition CheckOperationsTimeout `{!EqDecision S} sort model hist msgs : option CheckResult :=
  '(res, _) ← checkOperations sort model hist false msgs []; Some res.
Definition CheckOperationsVerbose `{!EqDecision S} sort model hist msgs longest :=
  checkOperations sort model hist true msgs longest.
Definition CheckEvents `{!EqDecision S} model hist msgs : option bool :=
  '(res, _) ← checkEvents model hist false msgs []; Some (match res with Ok => true | _ => false end).
Definition CheckEventsTimeout `{!EqDecision S} model hist msgs : option CheckResult :=
  '(res, _) ← checkEvents model hist false msgs []; Some res.
Definition CheckEventsVerbose `{!EqDecision S} model hist msgs longest := checkEvents model hist true msgs longest.

End checker.

Arguments Operation : clear implicits.
Arguments Event : clear implicits.
Arguments Model : clear implicits.
Arguments entry : clear implicits.
Arguments node : clear implicits.
Arguments Linking : clear implicits.
Arguments Search : clear implicits.
Arguments cacheEntry : clear implicits.
Arguments callsEntry : clear implicits.
