(* ===== verification/LinkedList.v ===== *)
(** * The checker's linked list

    Chains of nodes in the heap, what unlinking a node does to them, and that
    linking it again restores the heap as it was. *)

From S2P Require Import Prelude Bitset Porcupine.

Notation heap V := (gmap nat (node V)).

Section lists.
Context {V : Type}.
Implicit Types (h : heap V) (a b p q : nat) (l : list nat) (nd : node V).

(** [b] follows [a]. *)
Definition linked h a b : Prop :=
  ∃ na nb, h !! a = Some na ∧ next na = Some b ∧ h !! b = Some nb ∧ prev nb = Some a.

(** The list that starts after [a] is [l]. *)
Fixpoint links h a l : Prop :=
  match l with
  | [] => ∃ na, h !! a = Some na ∧ next na = None
  | b :: l => linked h a b ∧ links h b l
  end.

(** What never changes in a node. *)
Definition info nd := (nvalue nd, match_ nd, nid nd).
Definition same_info h h' : Prop := ∀ p, info <$> h' !! p = info <$> h !! p.

Lemma same_info_refl h : same_info h h.
Proof. done. Qed.

Lemma same_info_trans h1 h2 h3 : same_info h1 h2 → same_info h2 h3 → same_info h1 h3.
Proof. intros H1 H2 p. by rewrite H2, H1. Qed.

Lemma same_info_insert h p nd nd' : h !! p = Some nd → info nd' = info nd → same_info h (<[p := nd']> h).
Proof.
  intros Hp Hi q. destruct (decide (p = q)) as [<-|]; [rewrite lookup_insert_eq, Hp; cbn; by rewrite Hi|].
  by rewrite lookup_insert_ne.
Qed.

(** A chain depends on the [next] of its nodes but the last and on the [prev] of its nodes but the first. *)
Lemma links_agree h h' a l :
  (∀ x, x ∈ a :: l → next <$> h' !! x = next <$> h !! x) →
  (∀ x, x ∈ l → prev <$> h' !! x = prev <$> h !! x) → links h a l → links h' a l.
Proof.
  revert a. induction l as [|b l IH]; intros a Hn Hp; cbn [links].
  - intros (na & Ha & Hna). specialize (Hn a ltac:(by left)). rewrite Ha in Hn. cbn in Hn.
    destruct (h' !! a) as [na'|]; [|done]. injection Hn as Hn. exists na'. by rewrite Hn.
  - intros [(na & nb & Ha & Hna & Hb & Hnb) Hl]. split.
    + pose proof (Hn a ltac:(by left)) as H1. pose proof (Hp b ltac:(by left)) as H2. rewrite Ha in H1. rewrite Hb in H2.
      destruct (h' !! a) as [na'|] eqn:E1, (h' !! b) as [nb'|] eqn:E2; try done. injection H1 as H1. injection H2 as H2.
      exists na', nb'. split_and!; congruence.
    + apply IH; [intros; apply Hn; by right|intros; apply Hp; by right|done].
Qed.

Lemma links_last h a l x : links h a (l ++ [x]) → ∃ nx, h !! x = Some nx ∧ next nx = None.
Proof. revert a. induction l as [|b l IH]; intros a; cbn; [naive_solver|]. intros [_ ?]. by eapply IH. Qed.

(** The last node of a chain that starts after [a]. *)
Definition lastOf a l : nat := default a (last l).

Lemma lastOf_cons a b l : lastOf a (b :: l) = lastOf b l.
Proof. unfold lastOf. rewrite last_cons. by destruct (last l). Qed.

Lemma lastOf_elem a l : lastOf a l ∈ a :: l.
Proof.
  unfold lastOf. destruct (last l) as [x|] eqn:E; [right|left]. by apply last_Some_elem_of.
Qed.

(** The neighbours of a node in the middle of a chain. *)
Lemma links_mid h a l1 x l2 :
  links h a (l1 ++ x :: l2) → linked h (lastOf a l1) x ∧ links h x l2.
Proof.
  revert a. induction l1 as [|b l1 IH]; intros a; cbn [app links]; [done|].
  intros [_ [H1 H2]%IH]. by rewrite lastOf_cons.
Qed.

(** ** Taking a node out *)

Definition unlink (x : nat) h : option (heap V) :=
  nd ← h !! x; p ← prev nd;
  h ← setNext p (next nd) h;
  match next nd with Some q => setPrev q (prev nd) h | None => Some h end.

Definition relink (x : nat) h : option (heap V) :=
  nd ← h !! x; p ← prev nd;
  h ← setNext p (Some x) h;
  match next nd with Some q => setPrev q (Some x) h | None => Some h end.

(** A chain keeps its first part and goes on differently. *)
Lemma links_splice h h' a l1 l2 l2' :
  links h a (l1 ++ l2) → NoDup (a :: l1) →
  (∀ x, x ∈ a :: l1 → x ≠ lastOf a l1 → next <$> h' !! x = next <$> h !! x) →
  (∀ x, x ∈ l1 → prev <$> h' !! x = prev <$> h !! x) →
  links h' (lastOf a l1) l2' → links h' a (l1 ++ l2').
Proof.
  revert a. induction l1 as [|b l1 IH]; intros a Hl Hnd Hn Hp Hl'; [done|].
  cbn [app links] in *. destruct Hl as [(na & nb & Ha & Hna & Hb & Hnb) Hl]. apply NoDup_cons in Hnd as [Hab Hnd].
  rewrite lastOf_cons in *. split.
  - pose proof (Hn a ltac:(by left)) as H1. pose proof (Hp b ltac:(by left)) as H2. rewrite Ha in H1. rewrite Hb in H2.
    assert (a ≠ lastOf b l1) as Hne by (intros E; apply Hab; rewrite E; apply lastOf_elem). specialize (H1 Hne).
    destruct (h' !! a) as [na'|] eqn:E1, (h' !! b) as [nb'|] eqn:E2; try done. injection H1 as H1. injection H2 as H2.
    exists na', nb'. split_and!; congruence.
  - apply IH; [done|done|intros; apply Hn; [by right|done]|intros; apply Hp; by right|done].
Qed.

(** What the nodes of a chain without repetitions are not. *)
Lemma chain_distinct a l1 x l2 :
  NoDup (a :: l1 ++ x :: l2) →
  lastOf a l1 ≠ x ∧ NoDup (a :: l1) ∧ NoDup l2 ∧ ∀ q, q ∈ l2 → q ≠ x ∧ q ∉ a :: l1.
Proof.
  intros Hnd. pose proof (lastOf_elem a l1) as He. rewrite app_comm_cons in Hnd.
  apply NoDup_app in Hnd as (Hnd1 & Hdis & [Hxl Hnd2]%NoDup_cons). split_and!; [|done..|].
  - intros E. apply (Hdis x); [by rewrite <-E|by left].
  - intros q Hq. split; [by intros ->|]. intros Hin. apply (Hdis q Hin). by right.
Qed.

(** The last node of a chain leaves it. *)
Lemma unlink_last h a l1 x np nx :
  links h a (l1 ++ [x]) → NoDup (a :: l1) → lastOf a l1 ≠ x → h !! lastOf a l1 = Some np → next np = Some x →
  h !! x = Some nx → prev nx = Some (lastOf a l1) → next nx = None →
  ∃ h', unlink x h = Some h' ∧ links h' a (l1 ++ []) ∧ same_info h h' ∧ h' !! x = h !! x ∧ relink x h' = Some h.
Proof.
  intros Hl Hnd1 Hpx Hp Hnp Hx Hnx Hend. set (p := lastOf a l1) in *. set (np' := np <| next := None |>).
  unfold unlink, relink. rewrite Hx. cbn [mbind option_bind]. rewrite Hnx. cbn [mbind option_bind].
  unfold setNext at 1. rewrite Hp, Hend. cbn [mbind option_bind]. fold np'.
  exists (<[p := np']> h). split; [done|]. rewrite lookup_insert_ne by done. split_and!; [|by eapply same_info_insert|done|].
  - apply (links_splice h _ a l1 [x]); [done..| | |].
    + intros y _ Hy. by rewrite lookup_insert_ne.
    + intros y Hy. destruct (decide (p = y)) as [<-|]; [rewrite lookup_insert_eq, Hp; done|by rewrite lookup_insert_ne].
    + fold p. exists np'. by rewrite lookup_insert_eq.
  - rewrite Hx. cbn [mbind option_bind]. rewrite Hnx. cbn [mbind option_bind]. unfold setNext.
    rewrite lookup_insert_eq. cbn [mbind option_bind]. rewrite Hend, insert_insert_eq. f_equal. apply insert_id.
    rewrite Hp. f_equal. unfold np'. destruct np; simpl in *. by rewrite Hnp.
Qed.

(** Writing two nodes twice leaves the first writes. *)
Lemma insert_two_back h p q np nq np' nq' :
  p ≠ q → h !! p = Some np → h !! q = Some nq → <[q := nq]> (<[p := np]> (<[q := nq']> (<[p := np']> h))) = h.
Proof.
  intros Hpq Hp Hq. apply map_eq. intros k. destruct (decide (q = k)) as [<-|]; [by rewrite lookup_insert_eq|].
  rewrite lookup_insert_ne by done. destruct (decide (p = k)) as [<-|]; [by rewrite lookup_insert_eq|].
  by rewrite !lookup_insert_ne.
Qed.

(** So does a node with another one behind it. *)
Lemma unlink_inner h a l1 x q l3 np nx nq :
  links h a (l1 ++ x :: q :: l3) → NoDup (a :: l1 ++ x :: q :: l3) → h !! lastOf a l1 = Some np → next np = Some x →
  h !! x = Some nx → prev nx = Some (lastOf a l1) → next nx = Some q → h !! q = Some nq → prev nq = Some x → links h q l3 →
  ∃ h', unlink x h = Some h' ∧ links h' a (l1 ++ q :: l3) ∧ same_info h h' ∧ h' !! x = h !! x ∧ relink x h' = Some h.
Proof.
  intros Hl Hnd Hp Hnp Hx Hnx Hxq Hqn Hnq Hl3. destruct (chain_distinct _ _ _ _ Hnd) as (Hpx & Hnd1 & [Hql3 _]%NoDup_cons & Hq).
  pose proof (lastOf_elem a l1) as Hpin. set (p := lastOf a l1) in *.
  destruct (Hq q ltac:(by left)) as [Hqx Hq1]. assert (p ≠ q) as Hpq by (intros ->; done).
  set (np' := np <| next := Some q |>). set (nq' := nq <| prev := Some p |>).
  unfold unlink, relink. rewrite Hx. cbn [mbind option_bind]. rewrite Hnx, Hxq. cbn [mbind option_bind].
  unfold setNext at 1. rewrite Hp. cbn [mbind option_bind]. fold np'.
  unfold setPrev at 1. rewrite lookup_insert_ne, Hqn by done. cbn [mbind option_bind]. fold nq'.
  exists (<[q := nq']> (<[p := np']> h)). split; [done|]. rewrite !(lookup_insert_ne _ _ x) by done. split_and!; [| |done|].
  - apply (links_splice h _ a l1 (x :: q :: l3)); [done..| | |].
    + intros y Hy Hyp. rewrite !lookup_insert_ne; [done| |]; [done|by intros ->].
    + intros y Hy. assert (q ≠ y) by (intros ->; apply Hq1; by right). rewrite lookup_insert_ne by done.
      destruct (decide (p = y)) as [<-|]; [rewrite lookup_insert_eq, Hp; done|by rewrite lookup_insert_ne].
    + fold p. cbn [links]. split; [exists np', nq'; rewrite lookup_insert_ne, !lookup_insert_eq by done; done|].
      eapply (links_agree h); [| |done]; intros y Hy;
        assert (p ≠ y) by (intros ->; destruct (Hq y); [set_solver|done]).
      * destruct (decide (q = y)) as [<-|]; [rewrite lookup_insert_eq, Hqn; done|by rewrite !lookup_insert_ne].
      * assert (q ≠ y) by (by intros ->). by rewrite !lookup_insert_ne.
  - apply (same_info_trans h (<[p := np']> h)); [by eapply same_info_insert|].
    eapply same_info_insert; [by rewrite lookup_insert_ne|done].
  - rewrite Hx. cbn [mbind option_bind]. rewrite Hnx, Hxq. cbn [mbind option_bind]. unfold setNext.
    rewrite lookup_insert_ne, lookup_insert_eq by done. cbn [mbind option_bind]. unfold setPrev.
    rewrite lookup_insert_ne, lookup_insert_eq by done. cbn [mbind option_bind]. f_equal.
    assert (np' <| next := Some x |> = np) as -> by (unfold np'; destruct np; simpl in *; by rewrite Hnp).
    assert (nq' <| prev := Some x |> = nq) as -> by (unfold nq'; destruct nq; simpl in *; by rewrite Hnq).
    by apply insert_two_back.
Qed.

(** The chain without [x], and the way back. *)
Lemma unlink_spec h a l1 x l2 :
  links h a (l1 ++ x :: l2) → NoDup (a :: l1 ++ x :: l2) →
  ∃ h', unlink x h = Some h' ∧ links h' a (l1 ++ l2) ∧ same_info h h' ∧ h' !! x = h !! x ∧ relink x h' = Some h.
Proof.
  intros Hl Hnd. destruct (links_mid _ _ _ _ _ Hl) as [(np & nx & Hp & Hnp & Hx & Hnx) Hl2].
  destruct (chain_distinct _ _ _ _ Hnd) as (Hpx & Hnd1 & _). destruct l2 as [|q l3].
  - destruct Hl2 as (nx' & Hx' & Hend). assert (nx' = nx) as -> by congruence. by eapply unlink_last.
  - destruct Hl2 as [(nx' & nq & Hx' & Hxq & Hqn & Hnq) Hl3]. assert (nx' = nx) as -> by congruence. by eapply unlink_inner.
Qed.

(** ** [lift] and [unlift] *)

Lemma lift_unlink h e nd q m :
  h !! e = Some nd → next nd = Some q → match_ nd = Some m → lift e h = h1 ← unlink e h; unlink m h1.
Proof.
  intros He Hq Hm. unfold lift, unlink. rewrite He. cbn [mbind option_bind]. destruct (prev nd) as [p|]; [|done].
  cbn [mbind option_bind]. rewrite Hq. destruct (setNext p (Some q) h) as [h1|]; [|done]. cbn [mbind option_bind].
  destruct (setPrev q (Some p) h1) as [h2|]; [|done]. cbn [mbind option_bind]. by rewrite Hm.
Qed.

Lemma unlift_relink h e nd m h1 nd1 q :
  h !! e = Some nd → match_ nd = Some m → relink m h = Some h1 → h1 !! e = Some nd1 → next nd1 = Some q →
  unlift e h = relink e h1.
Proof.
  intros He Hm Hr He1 Hq. unfold unlift, relink in *. rewrite He. cbn [mbind option_bind]. rewrite Hm. cbn [mbind option_bind].
  destruct (h !! m) as [md|]; [|done]. cbn [mbind option_bind] in *. destruct (prev md) as [mp|]; [|done].
  cbn [mbind option_bind] in *. destruct (setNext mp (Some m) h) as [h2|]; [|done]. cbn [mbind option_bind] in *.
  rewrite Hr. cbn [mbind option_bind]. rewrite He1. cbn [mbind option_bind]. destruct (prev nd1) as [p|]; [|done].
  cbn [mbind option_bind]. by rewrite Hq.
Qed.

(** An operation leaves the list and comes back. *)
Lemma lift_spec h a pre e mid m post nd :
  links h a (pre ++ e :: mid ++ m :: post) → NoDup (a :: pre ++ e :: mid ++ m :: post) →
  h !! e = Some nd → match_ nd = Some m →
  ∃ h', lift e h = Some h' ∧ links h' a (pre ++ mid ++ post) ∧ same_info h h' ∧ unlift e h' = Some h.
Proof.
  intros Hl Hnd He Hm.
  assert (∃ q, next nd = Some q) as [q Hq].
  { apply links_mid in Hl as [_ Hl]. destruct mid as [|b mid]; cbn [app links] in Hl;
      destruct Hl as [(nd' & ? & He' & Hn & _) _]; rewrite He in He'; injection He' as <-; eauto. }
  destruct (unlink_spec h a pre e (mid ++ m :: post) Hl Hnd) as (h1 & U1 & L1 & S1 & E1 & R1).
  rewrite app_assoc in L1. destruct (unlink_spec h1 a (pre ++ mid) m post L1) as (h2 & U2 & L2 & S2 & _ & R2).
  { rewrite <-app_assoc. eapply sublist_NoDup; [exact Hnd|].
    apply sublist_skip, sublist_app; [done|]. by apply sublist_cons. }
  exists h2. rewrite (lift_unlink h e nd q m), U1 by done. rewrite <-app_assoc in L2.
  split_and!; [done|done|by eapply same_info_trans|].
  pose proof (S2 e) as Hi. rewrite E1, He in Hi. destruct (h2 !! e) as [nd2|] eqn:He2; [|done]. injection Hi as _ Hm2 _.
  rewrite (unlift_relink h2 e nd2 m h1 nd q); [done|done|congruence|done|congruence|done].
Qed.

(** ** Building the list *)

Lemma insertBefore_spec h n m l nd :
  links h m l → NoDup (n :: m :: l) → h !! n = Some nd → (∀ nm, h !! m = Some nm → prev nm = None) →
  ∃ h', insertBefore n (Some m) h = Some h' ∧ links h' n (m :: l) ∧ same_info h h' ∧
    (∀ x, x ≠ m → prev <$> h' !! x = prev <$> h !! x) ∧ (∀ x, is_Some (h' !! x) ↔ is_Some (h !! x)).
Proof.
  intros Hl Hnd Hn Hprev.
  assert (∃ nm, h !! m = Some nm) as [nm Hm].
  { destruct l; [destruct Hl as (nm & ? & _)|destruct Hl as [(nm & ? & ? & _) _]]; eauto. }
  assert (n ≠ m ∧ n ∉ l ∧ m ∉ l) as (Hnm & Hnl & Hml).
  { apply NoDup_cons in Hnd as [H1 [H2 _]%NoDup_cons]. set_solver. }
  unfold insertBefore. rewrite Hm. cbn [mbind option_bind]. rewrite (Hprev nm Hm).
  unfold setPrev, setNext. rewrite Hm. cbn [mbind option_bind]. rewrite lookup_insert_ne, Hn by done. cbn [mbind option_bind].
  eexists. split; [done|]. split_and!.
  - cbn [links]. split.
    + do 2 eexists. rewrite lookup_insert_eq. split_and!; [done|done|by rewrite lookup_insert_ne, lookup_insert_eq by done|done].
    + eapply (links_agree h); [| |done].
      * intros x Hx. assert (n ≠ x) by set_solver. rewrite lookup_insert_ne by done.
        destruct (decide (m = x)) as [<-|]; [rewrite lookup_insert_eq, Hm; done|by rewrite lookup_insert_ne].
      * intros x Hx. rewrite !lookup_insert_ne by set_solver. done.
  - apply (same_info_trans h (<[m := nm <| prev := Some n |>]> h)); [by eapply same_info_insert|].
    eapply same_info_insert; [by rewrite lookup_insert_ne|done].
  - intros x Hx. destruct (decide (n = x)) as [<-|]; [by rewrite lookup_insert_eq, Hn|]. by rewrite !lookup_insert_ne.
  - intros x. destruct (decide (n = x)) as [<-|]; [rewrite lookup_insert_eq, Hn; by split; eauto|]. rewrite lookup_insert_ne by done.
    destruct (decide (m = x)) as [<-|]; [rewrite lookup_insert_eq, Hm; by split; eauto|]. by rewrite lookup_insert_ne.
Qed.

Lemma lengthFrom_spec h a l fuel :
  links h a l → (length l < fuel)%nat → lengthFrom fuel (Some a) h = Some (zlen l + 1).
Proof.
  revert a fuel. induction l as [|b l IH]; intros a fuel Hl Hf; (destruct fuel as [|fuel]; [simpl in Hf; lia|]); cbn [lengthFrom].
  - destruct Hl as (na & -> & Hn). cbn [mbind option_bind]. rewrite Hn. by destruct fuel.
  - destruct Hl as [(na & nb & -> & Hn & _) Hl]. cbn [mbind option_bind]. rewrite Hn, (IH b) by (simpl in Hf; done || lia).
    cbn [mbind option_bind]. rewrite zlen_cons. f_equal; lia.
Qed.

End lists.
