(* ===== verification/Linearize.v ===== *)
(** * The checker finds linearizations

    [checkSingle] on a well-formed history ends, and answers whether the history is
    linearizable: whether its operations can be put in an order that respects which
    returned before which was called and in which the model accepts every output. *)

From S2P Require Import Prelude Bitset Porcupine LinkedList.

Section entries.
Context {V : Type}.
Implicit Types (E : list (entry V)) (e : entry V) (a : Z) (i c r : nat).

(** ** Histories *)

Definition callAt E i a : Prop := ∃ e, E !! i = Some e ∧ kind e = callEntry ∧ id e = a.
Definition returnAt E i a : Prop := ∃ e, E !! i = Some e ∧ kind e = returnEntry ∧ id e = a.

(** Operations [0..n-1], each with one call and, after it, one return. *)
Record wf_entries E (n : nat) : Prop := {
  we_length : length E = (2 * n)%nat;
  we_ids : ∀ i e, E !! i = Some e → 0 <= id e < Z.of_nat n;
  we_pairs : ∀ a, 0 <= a < Z.of_nat n → ∃ c r, (c < r)%nat ∧ callAt E c a ∧ returnAt E r a ∧
    ∀ i e, E !! i = Some e → id e = a → i = c ∨ i = r;
}.

(** Operation [a] returned before [b] was called. *)
Definition before E (a b : Z) : Prop := ∃ r c, returnAt E r a ∧ callAt E c b ∧ (r < c)%nat.

Lemma callAt_unique E n i j a : wf_entries E n → callAt E i a → callAt E j a → i = j.
Proof.
  intros W (e & He & Hk & <-) (e' & He' & Hk' & Hid).
  destruct (we_pairs _ _ W (id e)) as (c & r & _ & _ & (er & Her & Hkr & _) & Hu); [by eapply we_ids|].
  destruct (Hu i e He eq_refl) as [->| ->], (Hu j e' He' Hid) as [->| ->]; congruence.
Qed.

Lemma returnAt_unique E n i j a : wf_entries E n → returnAt E i a → returnAt E j a → i = j.
Proof.
  intros W (e & He & Hk & <-) (e' & He' & Hk' & Hid).
  destruct (we_pairs _ _ W (id e)) as (c & r & _ & (ec & Hec & Hkc & _) & _ & Hu); [by eapply we_ids|].
  destruct (Hu i e He eq_refl) as [->| ->], (Hu j e' He' Hid) as [->| ->]; congruence.
Qed.

(** ** The list of a history *)

(** The first return of an operation in a part of the history that starts at [i]. *)
Fixpoint returnFrom i E a : option nat :=
  match E with
  | [] => None
  | e :: E => if decide (kind e = returnEntry ∧ id e = a) then Some i else returnFrom (S i) E a
  end.

Lemma returnFrom_Some i E a r :
  returnFrom i E a = Some r ↔ ∃ j, r = (i + j)%nat ∧ returnAt E j a ∧ ∀ k, (k < j)%nat → ¬ returnAt E k a.
Proof.
  revert i. induction E as [|e E IH]; intros i; cbn [returnFrom].
  { split; [done|]. intros (j & _ & (e & He & _) & _). by destruct j. }
  destruct (decide _) as [[Hk Hid]|Hne].
  - split.
    + intros [= <-]. exists 0%nat. split_and!; [lia|by exists e|lia].
    + intros (j & -> & _ & Hmin). destruct j as [|j]; [by rewrite Nat.add_0_r|]. destruct (Hmin 0%nat); [lia|]. by exists e.
  - rewrite IH. split.
    + intros (j & -> & Hr & Hmin). exists (S j). split_and!; [lia|exact Hr|]. intros [|k] Hk; [|apply Hmin; lia].
      intros (e' & [= <-] & ? & ?). naive_solver.
    + intros (j & -> & Hr & Hmin). destruct j as [|j]; [destruct Hr as (e' & [= <-] & ? & ?); naive_solver|].
      exists j. split_and!; [lia|exact Hr|]. intros k Hk. by apply (Hmin (S k)); lia.
Qed.

(** The fields a node of the list gets and keeps. *)
Definition nodeInfo i E e : option V * ptr * Z :=
  (Some (value e), match kind e with callEntry => returnFrom i E (id e) | returnEntry => None end, id e).

(** One node in front of the list. *)
Lemma link_front i len (h : heap V) (root : ptr) nd :
  (∀ x, is_Some (h !! x) ↔ (S i <= x < S i + len)%nat) → next nd = None → prev nd = None →
  root = (if decide (len = 0%nat) then None else Some (S i)) →
  (len ≠ 0%nat → links h (S i) (seq (S (S i)) (len - 1)) ∧ ∀ nd', h !! S i = Some nd' → prev nd' = None) →
  ∃ h', insertBefore i root (<[i := nd]> h) = Some h' ∧ same_info (<[i := nd]> h) h' ∧
    (∀ x, is_Some (h' !! x) ↔ (i <= x < S i + len)%nat) ∧
    links h' i (seq (S i) len) ∧ ∀ nd', h' !! i = Some nd' → prev nd' = None.
Proof.
  intros Hdom Hn Hp -> Hl. destruct (decide (len = 0%nat)) as [->|Hlen].
  - exists (<[i := nd]> h). cbn. split_and!; [done|done| | |].
    + intros x. destruct (decide (i = x)) as [<-|]; [rewrite lookup_insert_eq; split; [lia|eauto]|].
      rewrite lookup_insert_ne, Hdom by done. lia.
    + exists nd. by rewrite lookup_insert_eq.
    + intros nd'. rewrite lookup_insert_eq. by intros [= <-].
  - destruct (Hl Hlen) as [HL Hprev].
    destruct (insertBefore_spec (<[i := nd]> h) i (S i) (seq (S (S i)) (len - 1)) nd) as (h' & HI & HL' & HS & HP & HD).
    + eapply (links_agree h); [| |done].
      * intros x Hx. rewrite lookup_insert_ne; [done|]. apply elem_of_cons in Hx as [->|Hx%elem_of_seq]; lia.
      * intros x Hx%elem_of_seq. rewrite lookup_insert_ne by lia. done.
    + apply (NoDup_seq i (S (S (len - 1)))).
    + apply lookup_insert_eq.
    + intros nm. rewrite lookup_insert_ne by lia. apply Hprev.
    + exists h'. split_and!; [done|done| | |].
      * intros x. rewrite HD. destruct (decide (i = x)) as [<-|]; [rewrite lookup_insert_eq; split; [lia|eauto]|].
        rewrite lookup_insert_ne, Hdom by done. lia.
      * replace (seq (S i) len) with (S i :: seq (S (S i)) (len - 1)); [done|]. by destruct len; [|rewrite Nat.sub_succ, Nat.sub_0_r].
      * intros nd' Hnd'. specialize (HP i ltac:(lia)). rewrite Hnd', lookup_insert_eq in HP. injection HP as ->. done.
Qed.

Lemma linkFrom_spec i E :
  ∃ l, linkFrom i E = Some l ∧
    (∀ a, l_match l !! a = returnFrom i E a) ∧
    (∀ x, is_Some (l_heap l !! x) ↔ (i <= x < i + length E)%nat) ∧
    (∀ j e, E !! j = Some e → ∃ nd, l_heap l !! (i + j)%nat = Some nd ∧ info nd = nodeInfo (i + S j) (drop (S j) E) e) ∧
    l_root l = (if decide (E = []) then None else Some i) ∧
    (E ≠ [] → links (l_heap l) i (seq (S i) (length E - 1)) ∧ ∀ nd, l_heap l !! i = Some nd → prev nd = None).
Proof.
  revert i. induction E as [|e E IH]; intros i.
  { eexists. split; [done|]. cbn. split_and!; try done.
    intros x. rewrite lookup_empty. split; [by intros []|lia]. }
  destruct (IH (S i)) as (l & Hl & Hmatch & Hdom & Hinfo & Hroot & Hlinks). cbn [linkFrom]. rewrite Hl. cbn [mbind option_bind].
  set (nd := mkNode (Some (value e)) (match kind e with callEntry => returnFrom (S i) E (id e) | returnEntry => None end) (id e) None None).
  destruct (link_front i (length E) (l_heap l) (l_root l) nd) as (h' & HI & HS & HD & HL & HP).
  { intros x. rewrite Hdom. lia. } { done. } { done. }
  { rewrite Hroot. destruct E; done. } { intros Hne. apply Hlinks. by destruct E. }
  assert (∃ m', linkEntry i e l = Some (mkLinking h' (Some i) m') ∧ ∀ a, m' !! a = returnFrom i (e :: E) a) as (m' & -> & Hm').
  { unfold linkEntry, nd in *. cbn [returnFrom]. destruct (kind e) eqn:Hk.
    - rewrite Hmatch, HI. eexists. split; [done|]. intros a. rewrite decide_False by naive_solver. apply Hmatch.
    - rewrite HI. eexists. split; [done|]. intros a. destruct (decide (id e = a)) as [<-|Hne].
      + rewrite decide_True by done. cbn [l_match]. by rewrite lookup_insert_eq.
      + rewrite decide_False by naive_solver. rewrite lookup_insert_ne by done. apply Hmatch. }
  eexists. split; [done|]. cbn [l_match l_heap l_root]. split_and!.
  - done.
  - intros x. rewrite HD. simpl. lia.
  - intros j e' Hj. pose proof (HS (i + j)%nat) as Hi. destruct j as [|j].
    + rewrite Nat.add_0_r in *. rewrite lookup_insert_eq in Hi. destruct (h' !! i) as [nd'|]; [|done].
      injection Hi as Hi1 Hi2 Hi3. exists nd'. split; [done|]. injection Hj as <-. unfold info. rewrite Hi1, Hi2, Hi3. unfold nodeInfo.
      replace (i + 1)%nat with (S i) by lia. cbn. by rewrite drop_0.
    + cbn in Hj. destruct (Hinfo j e' Hj) as (nd' & Hnd' & Hi'). replace (i + S j)%nat with (S i + j)%nat in * by lia.
      rewrite lookup_insert_ne, Hnd' in Hi by lia. destruct (h' !! (S i + j)%nat) as [nd''|]; [|done].
      injection Hi as Hi1 Hi2 Hi3. exists nd''. split; [done|]. unfold info in *. rewrite Hi1, Hi2, Hi3, Hi'.
      by replace (S i + S j)%nat with (i + S (S j))%nat by lia.
  - done.
  - intros _. split; [|done]. cbn [length]. by rewrite Nat.sub_succ, Nat.sub_0_r.
Qed.

End entries.

(** ** Ranges *)

(** A part of a range of numbers is in order. *)
Lemma filter_seq_split (P : nat → Prop) `{∀ x, Decision (P x)} i k pre x suf :
  filter P (seq i k) = pre ++ x :: suf → (∀ y, y ∈ pre → (y < x)%nat) ∧ (∀ y, y ∈ suf → (x < y)%nat).
Proof.
  revert i pre. induction k as [|k IH]; intros i pre; cbn [seq]; [by destruct pre|]. rewrite filter_cons.
  destruct (decide (P i)) as [Hi|Hi]; [|by apply IH]. destruct pre as [|p pre]; cbn [app]; intros [= -> HF].
  - split; [by intros ? ?%elem_of_nil|]. intros y Hy. rewrite <-HF in Hy.
    apply list_elem_of_filter in Hy as [_ Hy%elem_of_seq]. lia.
  - destruct (IH _ _ HF) as [H1 H2]. split; [|done]. intros y [->|Hy]%elem_of_cons; [|by apply H1].
    assert (x ∈ filter P (seq (S p) k)) as Hx by (rewrite HF; set_solver).
    apply list_elem_of_filter in Hx as [_ Hx%elem_of_seq]. lia.
Qed.

Lemma seq_cut i k x : (i <= x < i + k)%nat → seq i k = seq i (x - i) ++ x :: seq (S x) (i + k - x - 1).
Proof.
  intros Hx. replace k with ((x - i) + S (i + k - x - 1))%nat at 1 by lia. rewrite seq_app. f_equal. cbn [seq].
  replace (i + (x - i))%nat with x by lia. done.
Qed.

(** ** Linearizations *)

Section search.
Context {V S : Type} (model : Model V S) (E : list (entry V)) (n : nat) (W : wf_entries E n).
Implicit Types (R : gset Z) (s : S) (a : Z) (c r x y : nat) (h : heap V).

(** The outcome of operation [a] in a state. *)
Definition outcome a s (ok : bool) s' : Prop := ∃ c r ec er,
  E !! c = Some ec ∧ kind ec = callEntry ∧ id ec = a ∧ E !! r = Some er ∧ kind er = returnEntry ∧ id er = a ∧
  Step model s (value ec) (value er) = Some (ok, s').

(** [linp R s seq R' s']: the operations [seq], out of [R], are accepted one after
    another from [s] to [s'], each when no other of [R] has to come before it; [R'] is left. *)
Inductive linp : gset Z → S → list Z → gset Z → S → Prop :=
  | linp_nil R s : linp R s [] R s
  | linp_cons R s a s1 seq R' s' :
      a ∈ R → (∀ b, b ∈ R → ¬ before E b a) → outcome a s true s1 →
      linp (R ∖ {[a]}) s1 seq R' s' → linp R s (a :: seq) R' s'.

Definition dead R s : Prop := ∀ seq s', ¬ linp R s seq ∅ s'.

Definition ids : gset Z := list_to_set (upto (Z.of_nat n)).

Lemma ids_elem a : a ∈ ids ↔ 0 <= a < Z.of_nat n.
Proof. unfold ids. rewrite elem_of_list_to_set. apply upto_elem. Qed.

Lemma linp_snoc R s seq a R' s1 s' :
  linp R s seq R' s1 → a ∈ R' → (∀ b, b ∈ R' → ¬ before E b a) → outcome a s1 true s' →
  linp R s (seq ++ [a]) (R' ∖ {[a]}) s'.
Proof.
  induction 1 as [R s|R s b s2 seq R' s1 Hb Hm Ho Hl IH]; intros Ha Hmin Hout; cbn.
  - econstructor; [done..|constructor].
  - econstructor; [done..|]. by apply IH.
Qed.

Lemma linp_app R s seq R1 s1 seq2 R2 s2 : linp R s seq R1 s1 → linp R1 s1 seq2 R2 s2 → linp R s (seq ++ seq2) R2 s2.
Proof. induction 1; intros; cbn; [done|]. econstructor; eauto. Qed.

Lemma linp_elem R s seq R' s' : linp R s seq R' s' → ∀ a, a ∈ seq → a ∈ R.
Proof. clear W n. induction 1; set_solver. Qed.

(** Where an operation of the history is. *)
Lemma ops_pos a : a ∈ ids → ∃ c r, (c < r)%nat ∧ callAt E c a ∧ returnAt E r a.
Proof. intros Ha%ids_elem. destruct (we_pairs _ _ W a Ha) as (c & r & ? & ? & ? & _). eauto. Qed.

Lemma outcome_fun a s ok ok' s1 s2 : outcome a s ok s1 → outcome a s ok' s2 → ok = ok' ∧ s1 = s2.
Proof.
  intros (c & r & ec & er & H1 & H2 & H3 & H4 & H5 & H6 & H7) (c' & r' & ec' & er' & G1 & G2 & G3 & G4 & G5 & G6 & G7).
  assert (c = c') as <- by (eapply callAt_unique; [done|by exists ec|by exists ec']).
  assert (r = r') as <- by (eapply returnAt_unique; [done|by exists er|by exists er']). naive_solver.
Qed.

(** ** The entries that are left *)

Definition left_at R x : Prop := match E !! x with Some e => id e ∈ R | None => False end.
#[local] Instance left_at_dec R x : Decision (left_at R x).
Proof. unfold left_at. destruct (E !! x); apply _. Defined.

Definition cur R : list nat := filter (left_at R) (seq 0 (length E)).

Lemma left_at_iff R x : left_at R x ↔ ∃ e, E !! x = Some e ∧ id e ∈ R.
Proof. unfold left_at. destruct (E !! x); naive_solver. Qed.

Lemma cur_elem R x : x ∈ cur R ↔ ∃ e, E !! x = Some e ∧ id e ∈ R.
Proof.
  unfold cur. rewrite list_elem_of_filter, left_at_iff, elem_of_seq. split; [naive_solver|].
  intros (e & He & Hid). split; [naive_solver|]. apply lookup_lt_Some in He. lia.
Qed.

Lemma cur_NoDup R : NoDup (cur R).
Proof. apply NoDup_filter, NoDup_seq. Qed.

Lemma cur_length R : (length (cur R) <= length E)%nat.
Proof. unfold cur. etrans; [apply length_filter|]. by rewrite length_seq. Qed.

(** The order of the list is the order of the history. *)
Lemma cur_order R pre x suf :
  cur R = pre ++ x :: suf → (∀ y, y ∈ pre → (y < x)%nat) ∧ (∀ y, y ∈ suf → (x < y)%nat).
Proof. apply filter_seq_split. Qed.

(** Without operation [a] its two entries are gone. *)
Lemma cur_remove R a c r :
  a ∈ R → callAt E c a → returnAt E r a → (c < r)%nat →
  ∃ pre mid post, cur R = pre ++ c :: mid ++ r :: post ∧ cur (R ∖ {[a]}) = pre ++ mid ++ post.
Proof.
  intros Ha Hc Hr Hcr.
  assert (∀ x, x ≠ c → x ≠ r → left_at R x ↔ left_at (R ∖ {[a]}) x) as Hsame.
  { intros x Hxc Hxr. rewrite !left_at_iff. split; intros (e & He & Hid); exists e; (split; [done|]); [|set_solver].
    apply elem_of_difference. split; [done|]. intros Heq%elem_of_singleton. destruct (kind e) eqn:Hk.
    - apply Hxc. eapply callAt_unique; [done|by exists e|done].
    - apply Hxr. eapply returnAt_unique; [done|by exists e|done]. }
  assert (left_at R c ∧ left_at R r ∧ ¬ left_at (R ∖ {[a]}) c ∧ ¬ left_at (R ∖ {[a]}) r) as (L1 & L2 & L3 & L4).
  { destruct Hc as (ec & Hec & _ & <-), Hr as (er & Her & _ & Hid). unfold left_at. rewrite Hec, Her, Hid. set_solver. }
  assert (r < length E)%nat as Hlen by (destruct Hr as (er & Her & _); by eapply lookup_lt_Some).
  set (F := λ R i k, filter (left_at R) (seq i k)).
  assert (∀ i k, (∀ x, (i <= x < i + k)%nat → x ≠ c ∧ x ≠ r) → F R i k = F (R ∖ {[a]}) i k) as HF.
  { intros i k Hx. unfold F. revert i Hx. induction k as [|k IH]; intros i Hx; [done|]. cbn [seq]. rewrite !filter_cons.
    rewrite IH by (intros; apply Hx; lia). destruct (Hx i ltac:(lia)) as [H1 H2]. specialize (Hsame i H1 H2).
    destruct (decide (left_at R i)), (decide (left_at (R ∖ {[a]}) i)); naive_solver. }
  assert (∀ R', cur R' = F R' 0%nat c ++ filter (left_at R') [c] ++ F R' (Datatypes.S c) (r - c - 1)%nat ++
    filter (left_at R') [r] ++ F R' (Datatypes.S r) (length E - r - 1)%nat) as Hcur.
  { intros R'. unfold cur, F. rewrite <-!filter_app. f_equal. rewrite (seq_cut 0 (length E) c) by lia.
    rewrite (seq_cut (Datatypes.S c) (0 + length E - c - 1) r) by lia. cbn [app]. rewrite Nat.sub_0_r.
    replace (r - Datatypes.S c)%nat with (r - c - 1)%nat by lia.
    by replace (Datatypes.S c + (0 + length E - c - 1) - r - 1)%nat with (length E - r - 1)%nat by lia. }
  exists (F R 0%nat c), (F R (Datatypes.S c) (r - c - 1)%nat), (F R (Datatypes.S r) (length E - r - 1)%nat).
  rewrite !Hcur. rewrite !filter_cons, !filter_nil, !decide_True, !decide_False by done. cbn.
  split; [done|]. rewrite !HF by lia. done.
Qed.

End search.
