(* ===== verification/LinearSearch.v ===== *)
(** * The depth-first search of the checker

    What a run of the loop of [checkSingle] does from a node of the list: it finds a
    linearization of the operations that are left, or comes back to where it was,
    with what it has excluded in the cache. *)

From S2P Require Import Prelude Bitset Porcupine LinkedList Linearize.

Section search.
Context {V S : Type} (model : Model V S) (equal : S → S → bool) (computePartial : bool).
Context (E : list (entry V)) (n : nat) (W : wf_entries E n).
Context (Hequal : ∀ s s', equal s s' = true → s = s').
Context (Htotal : ∀ i j ei ej s, E !! i = Some ei → E !! j = Some ej → kind ei = callEntry → kind ej = returnEntry →
  id ei = id ej → is_Some (Step model s (value ei) (value ej))).
Implicit Types (R : gset Z) (s : S) (a : Z) (c r x y : nat) (h : heap V).

#[local] Notation ids := (ids n).
#[local] Notation cur := (cur E).
#[local] Notation linp := (linp model E).
#[local] Notation dead := (dead model E).
#[local] Notation outcome := (outcome model E).
#[local] Notation hd := (length E).
#[local] Notation Search := (Search V S).
#[local] Notation round := (checkRound model equal computePartial false hd).

(** ** What holds between two rounds *)

Record heap_ok h : Prop := {
  ho_node : ∀ i e, E !! i = Some e → ∃ nd, h !! i = Some nd ∧ nvalue nd = Some (value e) ∧ nid nd = id e ∧
    match kind e with
    | callEntry => ∃ r, match_ nd = Some r ∧ returnAt E r (id e)
    | returnEntry => match_ nd = None
    end;
}.

Lemma heap_ok_same h h' : same_info h h' → heap_ok h → heap_ok h'.
Proof.
  intros HS [H]. split. intros i e He. destruct (H i e He) as (nd & Hnd & Hv & Hid & Hm).
  specialize (HS i). rewrite Hnd in HS. destruct (h' !! i) as [nd'|] eqn:E'; [|done]. injection HS as H1 H2 H3.
  exists nd'. split_and!; [done|congruence|congruence|]. by rewrite H2.
Qed.

(** The bits are those of the operations that are not left. *)
Record bits_ok (b : bitset) R : Prop := {
  bo_wf : wf_bits (Z.of_nat n) b;
  bo_len : zlen b = (Z.of_nat n + 63) / 64;
  bo_bits : ∀ a, 0 <= a < Z.of_nat n → bit b a = bool_decide (a ∉ R);
}.

Lemma bits_ok_fun b R R' : bits_ok b R → bits_ok b R' → R ⊆ ids → R' ⊆ ids → R = R'.
Proof.
  intros [_ _ H] [_ _ H'] HR HR'.
  assert (∀ a, a ∈ ids → a ∉ R ↔ a ∉ R') as Hiff.
  { intros a Hr%ids_elem. rewrite <-(bool_decide_eq_true (a ∉ R)), <-(bool_decide_eq_true (a ∉ R')).
    by rewrite <-H, <-H'. }
  apply set_eq. intros a. split; intros Ha; [specialize (Hiff a (HR a Ha))|specialize (Hiff a (HR' a Ha))].
  - destruct (decide (a ∈ R')); naive_solver.
  - destruct (decide (a ∈ R)); naive_solver.
Qed.

Lemma bits_ok_set b R a :
  bits_ok b R → a ∈ R → R ⊆ ids →
  ∃ b', setBit a b = Some b' ∧ bits_ok b' (R ∖ {[a]}) ∧ clearBit a b' = Some b.
Proof.
  intros [Hw Hl Hb] Ha HR. pose proof (HR a Ha) as Hr%ids_elem.
  destruct (setBit_spec _ b a Hw Hr) as (b' & Hs & Hw' & Hl' & Hb'). exists b'. split; [done|]. split.
  - split; [done|lia|]. intros q Hq. rewrite Hb', Hb by lia.
    destruct (decide (q = a)) as [->|Hqa].
    + rewrite (bool_decide_eq_true_2 (a = a)) by done. symmetry. apply bool_decide_eq_true_2.
      intros [_ []]%elem_of_difference. by apply elem_of_singleton.
    + rewrite (bool_decide_eq_false_2 (q = a)) by done. cbn. apply bool_decide_ext.
      rewrite elem_of_difference, elem_of_singleton. naive_solver.
  - eapply clear_set; [done|done| |done]. rewrite Hb by done. apply bool_decide_eq_false_2. intros Hn. by apply Hn.
Qed.

(** Every remembered pair is hopeless or on the path [P] to the current one. *)
Definition cache_ok (P : list (gset Z * S)) (ca : gmap Z (list (cacheEntry S))) : Prop :=
  ∀ k es ce, ca !! k = Some es → ce ∈ es → ∃ R, R ⊆ ids ∧ bits_ok (linearized_ ce) R ∧
    (dead R (state_ ce) ∨ (R, state_ ce) ∈ P).

Lemma cacheContains_dead P ca b s R :
  cache_ok P ca → bits_ok b R → R ⊆ ids → (∀ R' s', (R', s') ∈ P → ¬ R' ⊆ R) →
  cacheContains equal ca (mkCacheEntry b s) = true → dead R s.
Proof.
  intros HC Hb HR HP Hc. unfold cacheContains in Hc. apply existsb_exists in Hc as (ce & Hin & Hc).
  apply andb_true_iff in Hc as [H1%equals_eq H2%Hequal]. cbn [linearized_ state_] in *. subst.
  destruct (ca !! hash (linearized_ ce)) as [es|] eqn:Ec; apply list_elem_of_In in Hin; [|by apply elem_of_nil in Hin]. cbn in Hin.
  destruct (HC _ _ _ Ec Hin) as (R' & HR' & Hb' & Hd). assert (R' = R) as -> by (by eapply bits_ok_fun).
  destruct Hd as [?|HinP]; [done|]. by destruct (HP _ _ HinP).
Qed.

Lemma cache_ok_add P ca b s R k :
  cache_ok P ca → bits_ok b R → R ⊆ ids →
  cache_ok ((R, s) :: P) (<[k := default [] (ca !! k) ++ [mkCacheEntry b s]]> ca).
Proof.
  intros HC Hb HR k' es ce [[<- <-]|[_ Hk']]%lookup_insert_Some Hin.
  - apply elem_of_app in Hin as [Hin|Hin].
    + destruct (ca !! k) as [es|] eqn:Ek; [|by apply elem_of_nil in Hin].
      destruct (HC _ _ _ Ek Hin) as (R' & ? & ? & [?|?]); exists R'; (split_and!; [done..|]); [by left|right; by right].
    + apply list_elem_of_singleton in Hin as ->. exists R. split_and!; [done..|]. right. by left.
  - destruct (HC _ _ _ Hk' Hin) as (R' & ? & ? & [?|?]); exists R'; (split_and!; [done..|]); [by left|right; by right].
Qed.

Lemma cache_ok_dead P ca R s : cache_ok ((R, s) :: P) ca → dead R s → cache_ok P ca.
Proof.
  intros HC Hd k es ce Hk Hin. destruct (HC _ _ _ Hk Hin) as (R' & ? & ? & [?|[[= -> ->]|?]%elem_of_cons]); eauto.
Qed.

(** The calls on the stack, by operation. *)
Definition calls_ok (cs : list (callsEntry S)) (path : list Z) : Prop :=
  Forall2 (λ v a, callAt E (ce_entry v) a) cs path.

Lemma callIds_ok h cs path : heap_ok h → calls_ok cs path → callIds h cs = Some path.
Proof.
  intros [HH] HC. apply mapM_Some. eapply Forall2_impl; [exact HC|]. intros v a (e & He & _ & <-). cbn.
  destruct (HH _ _ He) as (nd & -> & _ & Hid & _). cbn. by rewrite Hid.
Qed.

(** A sequence noted for operation [i] is a linearizable prefix with [i]. *)
Definition longest_ok (lo : list (option seqPtr)) : Prop :=
  length lo = n ∧ ∀ i k q, lo !! i = Some (Some (k, q)) → Z.of_nat i ∈ q ∧ ∃ R s, linp ids (Init model) q R s.

Lemma longest_fold k q callsLen js lo :
  (∃ R s, linp ids (Init model) q R s) → (∀ a, a ∈ js → a ∈ q ∧ a ∈ ids) → longest_ok lo →
  ∃ lo', foldl (longestStep k q callsLen) (Some lo) js = Some lo' ∧ longest_ok lo'.
Proof.
  intros Hq. revert lo. induction js as [|a js IH]; intros lo Hjs HL; cbn [foldl]; [by exists lo|].
  destruct (Hjs a ltac:(by left)) as [Ha Hr%ids_elem].
  assert (∃ lo1, longestStep k q callsLen (Some lo) a = Some lo1 ∧ longest_ok lo1) as (lo1 & -> & HL1).
  { destruct HL as [Hlen HL]. unfold longestStep. cbn [mbind option_bind].
    destruct (index_is_Some lo a) as [old Ho]; [unfold zlen; lia|]. rewrite Ho. cbn [mbind option_bind].
    assert (∃ lo1, store lo a (Some (k, q)) = Some lo1 ∧ longest_ok lo1) as Hst.
    { eexists. split; [apply store_is_Some; unfold zlen; lia|]. split; [by rewrite length_insert|].
      intros i k' q' Hi. rewrite list_lookup_insert in Hi. destruct (decide _) as [[Hia _]|_]; [|by eapply HL].
      injection Hi as <- <-. split; [|done]. by replace (Z.of_nat i) with a by lia. }
    destruct old as [[k' q']|]; [|done]. destruct (_ <? _); [done|]. by exists lo. }
  apply IH; [|done]. intros b Hb. apply Hjs. by right.
Qed.

(** ** Rounds *)

Inductive rounds : nat → Search → Search → Prop :=
  | rounds_0 z : rounds 0 z z
  | rounds_S j z z1 z2 : round z = Some (Continue z1) → rounds j z1 z2 → rounds (Datatypes.S j) z z2.

Lemma rounds_app j k z1 z2 z3 : rounds j z1 z2 → rounds k z2 z3 → rounds (j + k) z1 z3.
Proof. induction 1; intros; cbn; [done|]. econstructor; eauto. Qed.

Lemma rounds_loop j z z' f i :
  rounds j z z' → checkLoop model equal computePartial (λ _, false) hd (j + f) i z =
                  checkLoop model equal computePartial (λ _, false) hd f (i + j) z'.
Proof.
  intros HR. revert i. induction HR as [z|j z z1 z2 Hr _ IH]; intros i; [by rewrite Nat.add_0_r|].
  cbn [checkLoop Nat.add]. rewrite Hr. cbn [mbind option_bind]. rewrite IH. by rewrite Nat.add_succ_r.
Qed.

(** The loop with the operations [R] left in state [st]; [path] are the ones chosen
    and [P] the pairs on the way. *)
Record here R st (path : list Z) (P : list (gset Z * S)) (z : Search) : Prop := {
  h_links : links (s_heap z) hd (cur R);
  h_heap : heap_ok (s_heap z);
  h_sub : R ⊆ ids;
  h_bits : bits_ok (linearized z) R;
  h_cache : cache_ok P (cache z);
  h_path : ∀ R' s', (R', s') ∈ P → R ⊆ R';
  h_calls : calls_ok (calls z) path;
  h_linp : linp ids (Init model) path R st;
  h_longest : longest_ok (longest z);
  h_state : state z = st;
}.

Lemma cur_hd R : NoDup (hd :: cur R).
Proof.
  apply NoDup_cons. split; [|apply cur_NoDup]. rewrite cur_elem. intros (e & He & _). apply lookup_lt_Some in He. lia.
Qed.

Lemma links_next h x l : links h x l → ∃ nx, h !! x = Some nx ∧ next nx = head l.
Proof. destruct l; cbn; [naive_solver|]. intros [(? & ? & ? & ? & _) _]. eauto. Qed.

(** The entries of an operation that is left. *)
Lemma call_here R pre x suf a :
  R ⊆ ids → cur R = pre ++ x :: suf → callAt E x a → a ∈ R ∧ ∃ r, returnAt E r a ∧ (x < r)%nat ∧ r ∈ suf.
Proof.
  intros HR Hc Hx. assert (a ∈ R) as Ha.
  { assert (x ∈ cur R) as Hin by (rewrite Hc; set_solver). apply cur_elem in Hin as (e & He & Hid).
    destruct Hx as (e' & He' & _ & <-). congruence. }
  split; [done|]. destruct (ops_pos E n W a (HR a Ha)) as (c & r & Hcr & Hca & Hra).
  assert (c = x) as -> by (by eapply callAt_unique). exists r. split_and!; [done..|].
  assert (r ∈ cur R) as Hin. { apply cur_elem. destruct Hra as (e & He & _ & <-). eauto. }
  rewrite Hc in Hin. apply elem_of_app in Hin as [Hin|[->|Hin]%elem_of_cons]; [|lia|done].
  apply cur_order in Hc as [Hpre _]. apply Hpre in Hin. lia.
Qed.

Lemma minimal_here R pre x suf a :
  cur R = pre ++ x :: suf → (∀ y, y ∈ pre → ∃ b, callAt E y b) → callAt E x a →
  ∀ b, b ∈ R → ¬ before E b a.
Proof.
  intros Hc Hpre Hx b Hb (r & c & Hr & Hca & Hlt). assert (c = x) as -> by (by eapply callAt_unique).
  assert (r ∈ cur R) as Hin. { apply cur_elem. destruct Hr as (e & He & _ & <-). eauto. }
  rewrite Hc in Hin. apply cur_order in Hc as [_ Hsuf].
  apply elem_of_app in Hin as [Hin|[->|Hin]%elem_of_cons]; [|lia|apply Hsuf in Hin; lia].
  destruct (Hpre _ Hin) as (b' & e' & He' & Hk' & _), Hr as (e & He & Hk & _). congruence.
Qed.

(** A round at a call either moves on, and no linearization starts with it, or
    chooses the operation. *)
Lemma round_call R st path P z pre x suf a :
  here R st path P z → cur R = pre ++ x :: suf → (∀ y, y ∈ pre → ∃ b, callAt E y b) → callAt E x a →
  s_entry z = Some x →
  ∃ y suf', suf = y :: suf' ∧ (∃ nx, s_heap z !! x = Some nx ∧ next nx = Some y) ∧
  ((round z = Some (Continue (z <| s_entry := Some y |>)) ∧ ∀ q s2, ¬ linp R st (a :: q) ∅ s2) ∨
   (∃ s1 z1, round z = Some (Continue z1) ∧ outcome a st true s1 ∧ here (R ∖ {[a]}) s1 (path ++ [a]) ((R ∖ {[a]}, s1) :: P) z1 ∧
      s_entry z1 = head (cur (R ∖ {[a]})) ∧ unlift x (s_heap z1) = Some (s_heap z) ∧
      clearBit a (linearized z1) = Some (linearized z) ∧ calls z1 = calls z ++ [mkCallsEntry x st])).
Proof.
  intros HH Hc Hpre Hx Hentry. destruct HH as [HL [Hheap] HR Hbits Hca HP Hcs Hlinp Hlo Hst].
  destruct (call_here _ _ _ _ _ HR Hc Hx) as (Ha & r & Hr & Hxr & Hrs).
  destruct suf as [|y suf']; [by apply elem_of_nil in Hrs|]. exists y, suf'. split; [done|].
  destruct Hx as (e & He & Hk & Hid). destruct (Hheap x e He) as (nx & Hnx & Hvx & Hidx & Hmx). rewrite Hk in Hmx.
  destruct Hmx as (r' & Hm & Hr'). rewrite Hid in *. assert (r' = r) as -> by (by eapply returnAt_unique).
  destruct Hr as (er & Her & Hkr & Hidr). destruct (Hheap r er Her) as (nr & Hnr & Hvr & _).
  assert (next nx = Some y) as Hy.
  { rewrite Hc in HL. apply links_mid in HL as [_ HL]. apply links_next in HL as (nx' & Hnx' & Hn). cbn in Hn. congruence. }
  split; [by eexists|].
  destruct (Htotal x r e er st He Her Hk Hkr) as [[ok s1] Hstep]; [congruence|].
  assert (outcome a st ok s1) as Hout by (exists x, r, e, er; done).
  assert (∃ hn w, s_heap z !! hd = Some hn ∧ next hn = Some w) as (hn & w & Hhn & Hw).
  { destruct (links_next _ _ _ HL) as (hn & Hhn & Hn). rewrite Hc in Hn. destruct pre as [|w pre]; cbn in Hn; eauto. }
  destruct (bits_ok_set _ _ _ Hbits Ha HR) as (b' & Hset & Hbits' & Hclear).
  assert (R ∖ {[a]} ⊆ ids) as HR' by set_solver.
  unfold checkRound. rewrite Hhn. cbn [mbind option_bind]. rewrite Hw, Hentry. cbn [mbind option_bind].
  rewrite Hnx. cbn [mbind option_bind]. rewrite Hm, Hnr. cbn [mbind option_bind]. rewrite Hvx, Hvr. cbn [mbind option_bind].
  rewrite Hst, Hstep. cbn [mbind option_bind]. destruct ok.
  2:{ left. rewrite Hy. split; [done|]. intros q s2 Hl. inversion Hl as [|????????? Hout']; subst.
      destruct (outcome_fun _ _ _ W _ _ _ _ _ _ Hout Hout'). done. }
  rewrite cloneBits_id, Hidx, Hset. cbn [mbind option_bind].
  destruct (cacheContains equal (cache z) (mkCacheEntry b' s1)) eqn:Hcc; cbn [negb].
  - left. rewrite Hy. split; [done|]. intros q s2 Hl. inversion Hl as [|????????? Hout' Hl']; subst.
    destruct (outcome_fun _ _ _ W _ _ _ _ _ _ Hout Hout') as [_ ->].
    eapply (cacheContains_dead P); [done|done|done| |done|done]. intros R' s' Hin Hsub. apply HP in Hin. set_solver.
  - right. destruct (cur_remove E n W R a x r) as (pre0 & mid & post & Hc1 & Hc2); [done|by exists e|by exists er|done|].
    destruct (lift_spec (s_heap z) hd pre0 x mid r post nx) as (h' & Hlift & HL' & HS & Hunlift);
      [by rewrite <-Hc1|rewrite <-Hc1; apply cur_hd|done|done|].
    rewrite <-Hc2 in HL'. destruct (links_next _ _ _ HL') as (hn' & Hhn' & Hnext').
    eexists s1, _. cbn [mbind option_bind]. rewrite Hlift. cbn [mbind option_bind]. rewrite Hhn'. cbn [mbind option_bind].
    split; [done|]. split; [done|]. split; [|done].
    split; cbn; try done.
    + eapply heap_ok_same; [done|by split].
    + by apply cache_ok_add.
    + intros R' s' [[= -> ->]|Hin]%elem_of_cons; [done|]. apply HP in Hin. set_solver.
    + apply Forall2_app; [done|]. constructor; [by exists e|done].
    + eapply linp_snoc; [done|done| |done]. eapply minimal_here; [exact Hc|exact Hpre|]. by exists e.
Qed.

(** A round at a return takes the last choice back. *)
Lemma round_return R1 s1 path P z a cs x st h nx w y lin :
  here R1 s1 path P z → s_entry z = Some y → (∃ b, returnAt E y b) → cur R1 ≠ [] →
  calls z = cs ++ [mkCallsEntry x st] → callAt E x a →
  unlift x (s_heap z) = Some h → h !! x = Some nx → next nx = w → clearBit a (linearized z) = Some lin →
  ∃ lo', longest_ok lo' ∧
    round z = Some (Continue (mkSearch h w lin (cache z) cs lo' st (Datatypes.S (fresh z)))).
Proof.
  intros [HL Hheap HR Hbits Hca HP Hcs Hlinp Hlo Hst] Hentry (b & e & He & Hk & _) Hne Hcalls (ex & Hex & _ & Hidx) Hun Hx Hw Hcl.
  assert (∃ lo', (if computePartial then foldl (longestStep (fresh z) path (zlen (calls z))) (Some (longest z)) path
                  else Some (longest z)) = Some lo' ∧ longest_ok lo') as (lo' & Hfold & Hlo').
  { destruct computePartial; [|by exists (longest z)]. apply longest_fold; [eauto| |done].
    intros i Hi. split; [done|]. by eapply linp_elem. }
  exists lo'. split; [done|]. destruct (links_next _ _ _ HL) as (hn & Hhn & Hn).
  destruct (cur R1) as [|v l]; [done|]. cbn in Hn.
  destruct (ho_node _ Hheap y e He) as (ny & Hny & _ & _ & Hm). rewrite Hk in Hm.
  destruct (ho_node _ Hheap x ex Hex) as (nx0 & Hnx0 & _ & Hid0 & _).
  unfold checkRound. rewrite Hhn. cbn [mbind option_bind]. rewrite Hn, Hentry. cbn [mbind option_bind]. rewrite Hny.
  cbn [mbind option_bind]. rewrite Hm, (callIds_ok _ _ _ Hheap Hcs). cbn [mbind option_bind]. rewrite Hfold.
  assert (last_entry (calls z) = Some (mkCallsEntry x st)) as -> by (rewrite Hcalls; apply last_entry_snoc).
  cbn [mbind option_bind ce_entry ce_state]. rewrite Hnx0. cbn [mbind option_bind]. rewrite Hid0, Hidx, Hcl. cbn [mbind option_bind].
  rewrite Hun. cbn [mbind option_bind]. rewrite Hx. cbn [mbind option_bind]. rewrite Hw.
  assert (take (length (calls z) - 1) (calls z) = cs) as ->.
  { rewrite Hcalls, length_app, Nat.add_sub. apply take_app_length. }
  destruct (calls z) as [|? ?] eqn:E0; [by destruct cs|]. by destruct z.
Qed.

(** ** Exploring *)

(** Enough rounds when [m] operations are left. *)
Fixpoint bound (m : nat) : nat := match m with O => O | Datatypes.S m => length E * (bound m + 2) end.

(** The loop is left with everything chosen. *)
Record success R st (path : list Z) (z : Search) : Prop := {
  su_exit : ∃ hn, s_heap z !! hd = Some hn ∧ next hn = None;
  su_found : ∃ q s', linp R st q ∅ s' ∧ calls_ok (calls z) (path ++ q);
  su_heap : heap_ok (s_heap z);
  su_len : length (longest z) = n;
}.

(** The loop is back, at a return, with nothing found among the calls [xs]. *)
Record failure R st (P : list (gset Z * S)) (z z' : Search) (xs : list nat) : Prop := {
  fa_same : (s_heap z', linearized z', calls z', state z') = (s_heap z, linearized z, calls z, state z);
  fa_entry : ∃ y b, s_entry z' = Some y ∧ returnAt E y b;
  fa_cache : cache_ok P (cache z');
  fa_longest : longest_ok (longest z');
  fa_none : ∀ a c q s', callAt E c a → c ∈ xs → ¬ linp R st (a :: q) ∅ s';
}.

Lemma here_frame R st path P z z' :
  here R st path P z → (s_heap z', linearized z', calls z', state z') = (s_heap z, linearized z, calls z, state z) →
  cache_ok P (cache z') → longest_ok (longest z') → here R st path P z'.
Proof. intros [? ? ? ? ? ? ? ? ? ?] [= E1 E2 E3 E4] ? ?. split; rewrite ?E1, ?E2, ?E3, ?E4; done. Qed.

(** At a return the calls behind it have to wait. *)
Lemma stuck_return R st P z pre x suf b path :
  here R st path P z → cur R = pre ++ x :: suf → returnAt E x b → s_entry z = Some x → failure R st P z z (x :: suf).
Proof.
  intros HH Hc Hx Hentry. split; [done|by eauto|by eapply h_cache|by eapply h_longest|].
  intros a c q s' Hca Hin Hl. inversion Hl as [|? ? ? ? ? ? ? Ha Hmin]; subst. apply (Hmin b).
  - assert (x ∈ cur R) as HxR by (rewrite Hc; set_solver). apply cur_elem in HxR as (e & He & Hid).
    destruct Hx as (e' & He' & _ & <-). congruence.
  - exists x, c. split_and!; [done..|]. apply elem_of_cons in Hin as [->|Hin].
    + destruct Hca as (e & He & Hk & _), Hx as (e' & He' & Hk' & _). congruence.
    + apply cur_order in Hc as [_ Hsuf]. by apply Hsuf.
Qed.

Lemma cur_empty : cur ∅ = [].
Proof.
  destruct (cur ∅) as [|x l] eqn:Hc; [done|]. assert (x ∈ cur ∅) as Hx by (rewrite Hc; by left).
  apply cur_elem in Hx as (e & _ & []%elem_of_empty).
Qed.

Lemma cur_nil R : R ⊆ ids → cur R = [] → R = ∅.
Proof.
  intros HR Hc. apply set_eq. intros a. split; [|by intros ?%elem_of_empty]. intros Ha.
  destruct (ops_pos E n W a (HR a Ha)) as (c & r & _ & (e & He & _ & Hid) & _).
  assert (c ∈ cur R) as Hin by (apply cur_elem; exists e; by rewrite Hid). rewrite Hc in Hin. by apply elem_of_nil in Hin.
Qed.

(** With every call excluded the pair is hopeless. *)
Lemma failure_dead R st P z z' : R ⊆ ids → cur R ≠ [] → failure R st P z z' (cur R) → dead R st.
Proof.
  intros HR Hne HF q s' Hl. destruct q as [|a q].
  - inversion Hl; subst. by apply Hne, cur_empty.
  - assert (a ∈ R) as Ha by (inversion Hl; done). destruct (ops_pos E n W a (HR a Ha)) as (c & r & _ & Hc & _).
    eapply (fa_none _ _ _ _ _ _ HF); [done| |done]. apply cur_elem. destruct Hc as (e & He & _ & <-). eauto.
Qed.

(** A call that is excluded, in front of the ones that are. *)
Lemma failure_cons R st P z z1 z2 x a xs :
  (s_heap z1, linearized z1, calls z1, state z1) = (s_heap z, linearized z, calls z, state z) →
  callAt E x a → (∀ q s', ¬ linp R st (a :: q) ∅ s') → failure R st P z1 z2 xs → failure R st P z z2 (x :: xs).
Proof.
  intros Hs Hx Hn [Hs2 ? ? ? Hnone]. split; [congruence|done..|].
  intros a' c q s' Hca [->|Hin]%elem_of_cons; [|by eapply Hnone].
  assert (a' = a) as ->; [|done]. destruct Hca as (e & He & _ & <-), Hx as (e' & He' & _ & <-). congruence.
Qed.

(** Choosing the last operation that is left. *)
Lemma success_last R st path P z1 a s1 :
  here (R ∖ {[a]}) s1 (path ++ [a]) P z1 → a ∈ R → (∀ b, b ∈ R → ¬ before E b a) → outcome a st true s1 →
  cur (R ∖ {[a]}) = [] → success R st path z1.
Proof.
  intros HH Ha Hmin Hout Hnil. split.
  - destruct (links_next _ _ _ (h_links _ _ _ _ _ HH)) as (hn & Hhn & Hn). rewrite Hnil in Hn. eauto.
  - exists [a], s1. split; [|by eapply h_calls]. econstructor; [done..|].
    rewrite (cur_nil _ (h_sub _ _ _ _ _ HH) Hnil). constructor.
  - by eapply h_heap.
  - by apply (h_longest _ _ _ _ _ HH).
Qed.

Lemma success_cons R st path z a s1 :
  a ∈ R → (∀ b, b ∈ R → ¬ before E b a) → outcome a st true s1 →
  success (R ∖ {[a]}) s1 (path ++ [a]) z → success R st path z.
Proof.
  intros Ha Hmin Hout [He (q & s' & Hl & Hc) ? ?]. split; [done| |done..]. exists (a :: q), s'.
  split; [by econstructor|]. by rewrite <-app_assoc in Hc.
Qed.

(** Back at the choice of [a], after the pair it led to was exhausted. *)
Lemma backtrack R st path P z x a y nx s1 z1 z2 :
  here R st path P z → callAt E x a → s_heap z !! x = Some nx → next nx = Some y → outcome a st true s1 →
  here (R ∖ {[a]}) s1 (path ++ [a]) ((R ∖ {[a]}, s1) :: P) z1 → cur (R ∖ {[a]}) ≠ [] →
  unlift x (s_heap z1) = Some (s_heap z) → clearBit a (linearized z1) = Some (linearized z) →
  calls z1 = calls z ++ [mkCallsEntry x st] →
  failure (R ∖ {[a]}) s1 ((R ∖ {[a]}, s1) :: P) z1 z2 (cur (R ∖ {[a]})) →
  ∃ z3, round z2 = Some (Continue z3) ∧
    (s_heap z3, linearized z3, calls z3, state z3) = (s_heap z, linearized z, calls z, state z) ∧
    cache_ok P (cache z3) ∧ longest_ok (longest z3) ∧ s_entry z3 = Some y ∧ ∀ q s', ¬ linp R st (a :: q) ∅ s'.
Proof.
  intros HH Hx Hnx Hy Hout HH1 Hne Hun Hcl Hcs HF.
  pose proof (failure_dead _ _ _ _ _ (h_sub _ _ _ _ _ HH1) Hne HF) as Hdead.
  destruct HF as [Hs (w & b & Hw & Hwb) Hca Hlo _]. pose proof (here_frame _ _ _ _ _ _ HH1 Hs Hca Hlo) as HH2.
  injection Hs as E1 E2 E3 E4. rewrite <-E1 in Hun. rewrite <-E2 in Hcl. rewrite <-E3 in Hcs.
  destruct (round_return _ _ _ _ _ a _ _ _ _ _ _ _ _ HH2 Hw (ex_intro _ b Hwb) Hne Hcs Hx Hun Hnx Hy Hcl) as (lo' & Hlo' & Hr).
  eexists. split; [exact Hr|]. cbn. split_and!; [|by eapply cache_ok_dead|done|done|].
  - by rewrite (h_state _ _ _ _ _ HH).
  - intros q s' Hl. inversion Hl as [|????????? Hout' Hl']; subst.
    destruct (outcome_fun _ _ _ W _ _ _ _ _ _ Hout Hout') as [_ ->]. by eapply Hdead.
Qed.

(** What is left once [a] is chosen fits the bound of one operation less. *)
Lemma chosen_bound m R a x' suf'' j :
  size R = m → a ∈ R → cur (R ∖ {[a]}) = x' :: suf'' → (j <= length (x' :: suf'') * (bound (m - 1 - 1) + 2))%nat →
  (m - 1 < m)%nat ∧ size (R ∖ {[a]}) = (m - 1)%nat ∧ (j <= bound (m - 1))%nat.
Proof.
  intros Hm Ha Hc Hj. assert (size R ≠ 0%nat) by (intros ?%size_empty_inv; set_solver).
  assert (size (R ∖ {[a]}) = (m - 1)%nat) as Hsz by (rewrite size_difference, size_singleton by set_solver; lia).
  split_and!; [lia|done|]. pose proof (cur_length E (R ∖ {[a]})) as Hlen. rewrite Hc in Hlen.
  assert (m - 1 ≠ 0)%nat as Hm1.
  { intros Hm1. assert (R ∖ {[a]} = ∅) as Hnil; [|by rewrite Hnil, cur_empty in Hc].
    apply leibniz_equiv, size_empty_inv. lia. }
  destruct (m - 1)%nat as [|k]; [done|]. cbn [bound]. rewrite Nat.sub_succ, Nat.sub_0_r in Hj. nia.
Qed.

Lemma explore m : ∀ R st path P z pre x suf,
  size R = m → here R st path P z → cur R = pre ++ x :: suf → (∀ y, y ∈ pre → ∃ b, callAt E y b) → s_entry z = Some x →
  ∃ j z', rounds j z z' ∧ (j <= length (x :: suf) * (bound (m - 1) + 2))%nat ∧
    (success R st path z' ∨ failure R st P z z' (x :: suf)).
Proof.
  induction m as [m IHm] using lt_wf_ind. intros R st path P z pre x suf Hm.
  revert z pre x. induction suf as [suf IHs] using (induction_ltof1 _ length). unfold ltof in IHs.
  intros z pre x HH Hc Hpre Hentry.
  assert (∃ e, E !! x = Some e) as [e He].
  { assert (x ∈ cur R) as HxR by (rewrite Hc; set_solver). apply cur_elem in HxR as (e & He & _). by exists e. }
  destruct (kind e) eqn:Hk.
  2:{ exists 0%nat, z. split_and!; [constructor|lia|]. right. eapply stuck_return; [done|done| |done]. by exists e. }
  assert (callAt E x (id e)) as Hx by (by exists e). set (a := id e) in *.
  pose proof (h_sub _ _ _ _ _ HH) as HR.
  destruct (call_here _ _ _ _ _ HR Hc Hx) as (Ha & _). pose proof (minimal_here _ _ _ _ _ Hc Hpre Hx) as Hmin.
  destruct (round_call _ _ _ _ _ _ _ _ _ HH Hc Hpre Hx Hentry) as (y & suf' & -> & (nx & Hnx & Hy) & Hcase).
  (* the calls behind [x], once [x] is excluded *)
  assert (∀ z1, (s_heap z1, linearized z1, calls z1, state z1) = (s_heap z, linearized z, calls z, state z) →
    cache_ok P (cache z1) → longest_ok (longest z1) → s_entry z1 = Some y → (∀ q s', ¬ linp R st (a :: q) ∅ s') →
    ∃ j z', rounds j z1 z' ∧ (j <= length (y :: suf') * (bound (m - 1) + 2))%nat ∧
      (success R st path z' ∨ failure R st P z z' (x :: y :: suf'))) as Hnext.
  { intros z1 Hs Hca Hlo He1 Hn. destruct (IHs suf' ltac:(cbn; lia) z1 (pre ++ [x]) y) as (j & z' & Hr & Hj & Hsf).
    - by eapply here_frame.
    - by rewrite <-app_assoc.
    - intros w [Hw| ->%list_elem_of_singleton]%elem_of_app; [by apply Hpre|by exists a].
    - done.
    - exists j, z'. split_and!; [done..|]. destruct Hsf as [?|HF]; [by left|right]. by eapply failure_cons. }
  destruct Hcase as [[Hround Hn]|(s1 & z1 & Hround & Hout & HH1 & He1 & Hun & Hcl & Hcs)].
  { destruct (Hnext (z <| s_entry := Some y |>)) as (j & z' & Hr & Hj & Hsf); [done|by apply HH|by apply HH|done|done|].
    exists (Datatypes.S j), z'. split_and!; [by econstructor|cbn [length] in *; lia|done]. }
  destruct (cur (R ∖ {[a]})) as [|x' suf''] eqn:Hc1.
  { exists 1%nat, z1. split_and!; [by repeat econstructor|cbn [length]; lia|]. left. by eapply success_last. }
  destruct (chosen_bound m R a x' suf'' 0 Hm Ha Hc1 ltac:(lia)) as (Hlt & Hsz & _).
  destruct (IHm (m - 1)%nat Hlt (R ∖ {[a]}) s1 (path ++ [a]) ((R ∖ {[a]}, s1) :: P) z1 [] x' suf'')
    as (j1 & z2 & Hr1 & Hj1 & Hsf1); [done..|by intros w Hw%elem_of_nil|done|].
  destruct (chosen_bound m R a x' suf'' j1 Hm Ha Hc1 Hj1) as (_ & _ & Hj1').
  destruct Hsf1 as [Hsu|HF1].
  { exists (1 + j1)%nat, z2. split_and!; [by econstructor|cbn [length]; nia|]. left. by eapply success_cons. }
  destruct (backtrack R st path P z x a y nx s1 z1 z2) as (z3 & Hr3 & Hs3 & Hca3 & Hlo3 & He3 & Hn3);
    rewrite ?Hc1; try done.
  destruct (Hnext z3 Hs3 Hca3 Hlo3 He3 Hn3) as (j2 & z' & Hr2 & Hj2 & Hsf2).
  exists (1 + (j1 + (1 + j2)))%nat, z'. split_and!; [|cbn [length] in *; nia|done].
  econstructor; [done|]. eapply rounds_app; [done|]. by econstructor.
Qed.

End search.
