(* ===== verification/LinearCheck.v ===== *)
(** * What [checkSingle] answers

    On a well-formed history [checkSingle] ends within a number of rounds that is
    given, and answers whether there is a linearization; the kill flag can only turn
    the answer to no.  On the entries of a list of operations this is whether the
    operations are linearizable: whether they can be put in an order in which none
    comes before one that had returned when it was called, and in which the model
    accepts every output. *)

From S2P Require Import Prelude Bitset Porcupine LinkedList Linearize LinearSearch.

(** ** The search on a well-formed history *)

Section single.
Context {V S : Type} (model : Model V S) (equal : S → S → bool) (computePartial : bool).
Context (E : list (entry V)) (n : nat) (W : wf_entries E n).

#[local] Notation ids := (ids n).
#[local] Notation linp := (linp model E).
#[local] Notation hd := (length E).
#[local] Notation Search := (Search V S).
#[local] Notation here := (here model E n).

Lemma cur_ids : cur E ids = seq 0 (length E).
Proof.
  unfold cur. apply filter_all. intros x Hx%elem_of_seq. apply left_at_iff.
  destruct (lookup_lt_is_Some_2 E x) as [e He]; [lia|]. exists e. split; [done|]. apply ids_elem. by eapply we_ids.
Qed.

(** The list has the entries in order, behind the node added in front. *)
Lemma makeLinkedEntries_spec :
  ∃ h root h', makeLinkedEntries E = Some (h, root) ∧ root = (if decide (E = []) then None else Some 0%nat) ∧
    lengthList root h = Some (Z.of_nat (length E)) ∧
    insertBefore hd root (<[hd := mkNode None None (-1) None None]> h) = Some h' ∧
    links h' hd (seq 0 (length E)) ∧ heap_ok E h'.
Proof.
  destruct (linkFrom_spec 0 E) as (l & Hl & _ & Hdom & Hinfo & Hroot & Hlinks). cbn [Nat.add] in *.
  set (nd := mkNode None None (-1) None None).
  assert (∃ h', insertBefore hd (l_root l) (<[hd := nd]> (l_heap l)) = Some h' ∧ links h' hd (seq 0 (length E)) ∧
    same_info (<[hd := nd]> (l_heap l)) h') as (h' & HI & HL & HS).
  { rewrite Hroot. destruct (decide (E = [])) as [->|Hne].
    - eexists. split; [done|]. split; [|apply same_info_refl]. exists nd. by rewrite lookup_insert_eq.
    - destruct (Hlinks Hne) as [HL Hprev]. assert (length E ≠ 0)%nat as Hlen by (by destruct E).
      destruct (insertBefore_spec (<[hd := nd]> (l_heap l)) hd 0%nat (seq 1 (length E - 1)) nd) as (h' & HI & HL' & HS & _).
      + eapply (links_agree (l_heap l)); [| |done]; intros x Hx; (rewrite lookup_insert_ne; [done|]).
        * apply elem_of_cons in Hx as [->|Hx%elem_of_seq]; lia.
        * apply elem_of_seq in Hx. lia.
      + apply NoDup_cons. split; [|apply (NoDup_seq 0 (Datatypes.S (length E - 1)))].
        intros [?|?%elem_of_seq]%elem_of_cons; lia.
      + apply lookup_insert_eq.
      + intros nm. rewrite lookup_insert_ne by done. apply Hprev.
      + exists h'. split_and!; [done| |done]. by destruct (length E) as [|k]; [|rewrite Nat.sub_succ, Nat.sub_0_r in HL']. }
  exists (l_heap l), (l_root l), h'. unfold makeLinkedEntries. rewrite Hl. split_and!; try done.
  - rewrite Hroot. destruct (decide (E = [])) as [->|Hne]; [unfold lengthList; by destruct (size _)|].
    destruct (Hlinks Hne) as [HL' _].
    assert (size (l_heap l) = length E) as Hsz.
    { rewrite <-size_dom. rewrite <-(length_seq (length E) 0). rewrite <-(size_list_to_set (C := gset nat)) by apply NoDup_seq.
      f_equal. apply set_eq. intros x. rewrite elem_of_dom, Hdom, elem_of_list_to_set, elem_of_seq. lia. }
    unfold lengthList. rewrite Hsz. assert (length E ≠ 0)%nat by (by destruct E).
    rewrite (lengthFrom_spec _ _ _ _ HL'); [|rewrite length_seq; lia]. unfold zlen. rewrite length_seq. f_equal. lia.
  - split. intros i e He. destruct (Hinfo i e He) as (nd' & Hnd' & Hi). specialize (HS i).
    rewrite lookup_insert_ne, Hnd' in HS by (apply lookup_lt_Some in He; lia). destruct (h' !! i) as [nd''|]; [|done].
    injection HS as H1 H2 H3. injection Hi as I1 I2 I3. exists nd''. split_and!; [done|congruence|congruence|].
    rewrite H2, I2. destruct (kind e) eqn:Hk; [|done].
    destruct (we_pairs _ _ W (id e)) as (c & r & Hcr & _ & Hr & Hu); [by eapply we_ids|].
    assert (i = c) as ->. { destruct (Hu i e He eq_refl) as [?| ->]; [done|]. destruct Hr as (er & Her & Hkr & _). congruence. }
    exists r. split; [|done]. apply returnFrom_Some. exists (r - (c + 1))%nat. split; [lia|].
    split.
    + destruct Hr as (er & Her & ?). exists er. rewrite lookup_drop. replace (Datatypes.S c + (r - (c + 1)))%nat with r by lia. done.
    + intros k Hk' (er & Her & Hkr & Hidr). rewrite lookup_drop in Her.
      assert (Datatypes.S c + k = r)%nat; [|lia]. eapply returnAt_unique; [done|by exists er|done].
Qed.

(** The loop starts with every operation left. *)
Lemma checkSingle_start fuel kill :
  ∃ z, checkSingle model equal fuel E computePartial kill = checkLoop model equal computePartial kill hd fuel 0 z ∧
    here ids (Init model) [] [] z ∧ s_entry z = head (cur E ids) ∧ calls z = [].
Proof.
  destruct makeLinkedEntries_spec as (h & root & h' & HM & Hroot & Hlen & HI & HL & HH).
  unfold checkSingle. rewrite HM. cbn [mbind option_bind]. rewrite Hlen. cbn [mbind option_bind].
  rewrite HI. cbn [mbind option_bind].
  assert (Z.of_nat (length E) / 2 = Z.of_nat n) as Hn.
  { rewrite (we_length _ _ W), Nat2Z.inj_mul. rewrite Z.mul_comm. by apply Z.div_mul. }
  eexists. split; [done|]. rewrite Hn. split; [|cbn; split; [|done]].
  - destruct (newBitset_spec (Z.of_nat n)) as (Hw & Hl & Hb); [lia|].
    split; cbn; try done.
    + by rewrite cur_ids.
    + split; [done|done|]. intros a Ha. rewrite Hb. symmetry. apply bool_decide_eq_false_2.
      intros Hna. apply Hna. by apply ids_elem.
    + intros R' s' []%elem_of_nil.
    + constructor.
    + constructor.
    + split; [by rewrite length_replicate, Nat2Z.id|]. intros i k q Hi. apply lookup_replicate in Hi as [? _]. done.
  - rewrite cur_ids, Hroot. destruct (decide (E = [])) as [->|Hne]; [done|]. by destruct E.
Qed.

(** A kill flag can only end the loop with no. *)
Lemma checkLoop_kill kill fuel i z b l :
  checkLoop model equal computePartial (λ _, false) hd fuel i z = Some (b, l) →
  ∃ b' l', checkLoop model equal computePartial kill hd fuel i z = Some (b', l') ∧
    (b' = true → b = true ∧ l' = l) ∧ ((∀ j, kill j = false) → b' = b ∧ l' = l).
Proof.
  revert i z. induction fuel as [|fuel IH]; intros i z; cbn [checkLoop]; [done|].
  destruct (kill i) eqn:Hk.
  - intros H. unfold checkRound in *. destruct (s_heap z !! hd) as [hn|]; [|done]. cbn [mbind option_bind] in *.
    destruct (next hn) as [x|].
    + exists false, (longest z). split_and!; [done|done|]. intros Hn. by rewrite Hn in Hk.
    + destruct (callIds _ _); [|done]. cbn [mbind option_bind] in *. injection H as <- <-. by eexists _, _.
  - destruct (checkRound _ _ _ false _ _) as [[z'|b' l']|]; [|intros [= -> ->]; by eexists _, _|done]. cbn [mbind option_bind]. apply IH.
Qed.

Lemma checkSingle_kill kill fuel b l :
  checkSingle model equal fuel E computePartial (λ _, false) = Some (b, l) →
  ∃ b' l', checkSingle model equal fuel E computePartial kill = Some (b', l') ∧
    (b' = true → b = true ∧ l' = l) ∧ ((∀ j, kill j = false) → b' = b ∧ l' = l).
Proof.
  unfold checkSingle. destruct (makeLinkedEntries E) as [[h entry]|]; [|done]. cbn [mbind option_bind].
  destruct (lengthList _ _) as [len|]; [|done]. cbn [mbind option_bind].
  destruct (insertBefore _ _ _) as [h'|]; [|done]. apply checkLoop_kill.
Qed.

Lemma checkLoop_ext kill kill' fuel i z :
  (∀ j, kill j = kill' j) →
  checkLoop model equal computePartial kill hd fuel i z = checkLoop model equal computePartial kill' hd fuel i z.
Proof.
  intros Hk. revert i z. induction fuel as [|fuel IH]; intros i z; [done|]. cbn [checkLoop]. rewrite Hk.
  destruct (checkRound _ _ _ _ _ _) as [[]|]; [|done..]. apply IH.
Qed.

Lemma checkSingle_ext kill kill' fuel :
  (∀ j, kill j = kill' j) →
  checkSingle model equal fuel E computePartial kill = checkSingle model equal fuel E computePartial kill'.
Proof.
  intros Hk. unfold checkSingle. destruct (makeLinkedEntries E) as [[h entry]|]; [|done]. cbn [mbind option_bind].
  destruct (lengthList _ _) as [len|]; [|done]. cbn [mbind option_bind].
  destruct (insertBefore _ _ _) as [h'|]; [|done]. by apply checkLoop_ext.
Qed.

(** More rounds do not change the answer. *)
Lemma checkLoop_more kill fuel fuel' i z r :
  checkLoop model equal computePartial kill hd fuel i z = Some r → (fuel <= fuel')%nat →
  checkLoop model equal computePartial kill hd fuel' i z = Some r.
Proof.
  revert fuel' i z. induction fuel as [|fuel IH]; intros fuel' i z; cbn [checkLoop]; [done|].
  destruct fuel' as [|fuel']; [lia|]. cbn [checkLoop]. intros H Hf. inv_bind H. rewrite E0. cbn [mbind option_bind].
  destruct x; [|done]. apply IH; [done|lia].
Qed.

Lemma checkSingle_more kill fuel fuel' r :
  checkSingle model equal fuel E computePartial kill = Some r → (fuel <= fuel')%nat →
  checkSingle model equal fuel' E computePartial kill = Some r.
Proof.
  unfold checkSingle. destruct (makeLinkedEntries E) as [[h entry]|]; [|done]. cbn [mbind option_bind].
  destruct (lengthList _ _) as [len|]; [|done]. cbn [mbind option_bind].
  destruct (insertBefore _ _ _) as [h'|]; [|done]. apply checkLoop_more.
Qed.

(** Enough rounds for the whole search. *)
Definition enough : nat := length E * (bound E (n - 1) + 2) + 1.

Context (Hequal : ∀ s s', equal s s' = true → s = s').
Context (Htotal : ∀ i j ei ej s, E !! i = Some ei → E !! j = Some ej → kind ei = callEntry → kind ej = returnEntry →
  id ei = id ej → is_Some (Step model s (value ei) (value ej))).

Lemma success_finish z i fuel :
  success model E n ids (Init model) [] z → (0 < fuel)%nat →
  ∃ q s' k, checkLoop model equal computePartial (λ _, false) hd fuel i z = Some (true, replicate n (Some (k, q))) ∧
    linp ids (Init model) q ∅ s'.
Proof.
  intros [(hn & Hhn & Hn) (q & s' & Hl & Hc) Hh Hlen] Hf. destruct fuel as [|fuel]; [lia|].
  exists q, s', (fresh z). split; [|done]. cbn [checkLoop app] in *. unfold checkRound. rewrite Hhn. cbn [mbind option_bind].
  rewrite Hn, (callIds_ok E _ _ _ Hh Hc). cbn [mbind option_bind]. do 2 f_equal. erewrite const_fmap by done. by rewrite Hlen.
Qed.

Lemma failure_finish z z' xs i fuel :
  here ids (Init model) [] [] z → calls z = [] → cur E ids ≠ [] →
  failure model E n ids (Init model) [] z z' xs → (0 < fuel)%nat →
  checkLoop model equal computePartial (λ _, false) hd fuel i z' = Some (false, longest z').
Proof.
  intros HH Hcs Hne [Hs (y & b & Hy & e & He & Hk & _) _ _ _] Hf. destruct fuel as [|fuel]; [lia|].
  injection Hs as E1 E2 E3 E4. cbn [checkLoop]. unfold checkRound. rewrite E1.
  destruct (links_next _ _ _ (h_links _ _ _ _ _ _ _ _ HH)) as (hn & Hhn & Hn). rewrite Hhn. cbn [mbind option_bind].
  destruct (cur E ids) as [|w l]; [done|]. cbn in Hn. rewrite Hn, Hy. cbn [mbind option_bind].
  destruct (ho_node _ _ (h_heap _ _ _ _ _ _ _ _ HH) y e He) as (ny & -> & _ & _ & Hm). cbn [mbind option_bind].
  rewrite Hk in Hm. by rewrite Hm, E3, Hcs.
Qed.

(** Without a kill the loop ends, with a linearization or without one to find. *)
Lemma checkSingle_decides fuel :
  (enough <= fuel)%nat →
  ∃ b l, checkSingle model equal fuel E computePartial (λ _, false) = Some (b, l) ∧
    (if b then ∃ q s' k, l = replicate n (Some (k, q)) ∧ linp ids (Init model) q ∅ s'
     else longest_ok model E n l ∧ ∀ q s', ¬ linp ids (Init model) q ∅ s').
Proof.
  intros Hf. unfold enough in Hf. destruct (checkSingle_start fuel (λ _, false)) as (z & -> & HH & Hentry & Hcs).
  destruct (cur E ids) as [|x suf] eqn:Hc.
  - destruct (success_finish z 0 fuel) as (q & s' & k & -> & Hl); [|lia|eexists _, _; split; [done|by exists q, s', k]].
    pose proof (links_next _ _ _ (h_links _ _ _ _ _ _ _ _ HH)) as (hn & Hhn & Hn). rewrite Hc in Hn. split.
    + by exists hn.
    + exists [], (Init model). split; [|rewrite Hcs; constructor].
      rewrite (cur_nil E n W ids) by done. constructor.
    + by eapply h_heap.
    + by apply (h_longest _ _ _ _ _ _ _ _ HH).
  - destruct (explore model equal computePartial E n W Hequal Htotal n ids (Init model) [] [] z [] x suf)
      as (j & z' & Hr & Hj & Hsf); [|done|done|by intros y ?%elem_of_nil|done|].
    { unfold Linearize.ids. rewrite size_list_to_set; [by rewrite upto_length, Nat2Z.id|]. apply upto_NoDup. }
    assert (j + 1 <= fuel)%nat as Hjf. { pose proof (cur_length E ids) as Hlen. rewrite Hc in Hlen. nia. }
    replace fuel with (j + (fuel - j))%nat by lia. rewrite (rounds_loop _ _ _ _ _ _ _ _ _ Hr).
    destruct Hsf as [Hsu|HF].
    + destruct (success_finish _ (0 + j) (fuel - j) Hsu) as (q & s' & k & -> & Hl); [lia|]. eexists _, _. split; [done|by exists q, s', k].
    + rewrite (failure_finish z z' (x :: suf)) by (done || lia || by rewrite Hc). eexists _, _. split; [done|].
      split; [by eapply fa_longest|]. rewrite <-Hc in HF. eapply failure_dead; [done|done|by rewrite Hc|exact HF].
Qed.

End single.
