(* ===== verification/Histories.v ===== *)
(** * Histories of operations

    What it means for a list of operations to be linearizable, and that the entries
    [makeEntries] makes of them are a well-formed history of which it says the
    same. *)

From S2P Require Import Prelude Bitset Porcupine LinkedList Linearize LinearSearch LinearCheck.

Section histories.
Context {V S : Type} (model : Model V S).
Implicit Types (o : Operation V) (ops hist : list (Operation V)) (s : S) (e : entry V) (E : list (entry V)).

(** The model accepts the outputs of the operations one after another. *)
Fixpoint accepted s ops : bool :=
  match ops with
  | [] => true
  | o :: ops => match Step model s (Input o) (Output o) with Some (true, s') => accepted s' ops | _ => false end
  end.

(** [o1] had returned when [o2] was called. *)
Definition precedes o1 o2 : Prop := Return o1 < Call o2.

(** None comes before one that precedes it. *)
Definition in_order ops : Prop := StronglySorted (λ o1 o2, ¬ precedes o2 o1) ops.

Definition linearizable hist : Prop := ∃ ops, ops ≡ₚ hist ∧ in_order ops ∧ accepted (Init model) ops = true.

Lemma linearizable_perm hist hist' : hist ≡ₚ hist' → linearizable hist → linearizable hist'.
Proof. intros HP (ops & H1 & H2 & H3). exists ops. split_and!; [by rewrite H1|done..]. Qed.

(** The operations with the numbers [q] can come first in an order of all: they are
    accepted in this order, and with each of them those that precede it are there. *)
Definition linearizable_prefix hist (q : list Z) : Prop :=
  NoDup q ∧ (∃ ops, Forall2 (λ a o, index hist a = Some o) q ops ∧ in_order ops ∧ accepted (Init model) ops = true) ∧
  ∀ a b oa ob, a ∈ q → index hist a = Some oa → index hist b = Some ob → precedes ob oa → b ∈ q.

(** ** Entries *)

(** [sort.Sort(byTime(_))]: any order of the entries in which none is less than one
    before it. *)
Definition sorts (sort : list (entry V) → list (entry V)) : Prop :=
  ∀ E, sort E ≡ₚ E ∧ StronglySorted (λ e1 e2, less e2 e1 = false) (sort E).

(** [less] is a strict weak order, so a sorting function exists. *)
#[local] Instance less_trans : Transitive (λ e1 e2, less e2 e1 = false).
Proof. intros e1 e2 e3. unfold less. destruct (kind e1), (kind e2), (kind e3); zbool_lia. Qed.
#[local] Instance less_total : Total (λ e1 e2, less e2 e1 = false).
Proof. intros e1 e2. unfold less. destruct (kind e1), (kind e2); zbool; (by left) || (by right) || (left; lia) || (right; lia). Qed.

#[local] Instance less_dec e1 e2 : Decision ((λ e1 e2, less e2 e1 = false) e1 e2) := decide (less e2 e1 = false).

Definition sortByTime : list (entry V) → list (entry V) := merge_sort (λ e1 e2, less e2 e1 = false).

Lemma sortByTime_sorts : sorts sortByTime.
Proof. intros E. split; [apply merge_sort_Permutation|apply (StronglySorted_merge_sort _)]. Qed.

Lemma operationEntries_lookup hist i e :
  e ∈ operationEntries i hist ↔ ∃ j o, hist !! j = Some o ∧
    (e = mkEntry callEntry (Input o) (i + Z.of_nat j) (Call o) (ClientId o) ∨
     e = mkEntry returnEntry (Output o) (i + Z.of_nat j) (Return o) (ClientId o)).
Proof.
  revert i. induction hist as [|o hist IH]; intros i; cbn [operationEntries].
  { split; [by intros ?%elem_of_nil|]. by intros (j & o & ? & _). }
  rewrite !elem_of_cons, IH. split.
  - intros [->|[->|(j & o' & Hj & He)]].
    + exists 0%nat, o. rewrite Z.add_0_r. auto.
    + exists 0%nat, o. rewrite Z.add_0_r. auto.
    + exists (Datatypes.S j), o'. split; [done|]. by replace (i + Z.of_nat (Datatypes.S j)) with (i + 1 + Z.of_nat j) by lia.
  - intros ([|j] & o' & Hj & He); cbn in Hj.
    + injection Hj as <-. rewrite Z.add_0_r in He. tauto.
    + right; right. exists j, o'. split; [done|]. by replace (i + 1 + Z.of_nat j) with (i + Z.of_nat (Datatypes.S j)) by lia.
Qed.

Lemma operationEntries_length i hist : length (operationEntries i hist) = (2 * length hist)%nat.
Proof. revert i. induction hist as [|o hist IH]; intros i; cbn [operationEntries length]; [done|]. rewrite IH. lia. Qed.

(** An entry is determined by its operation and kind. *)
Lemma operationEntries_NoDup i hist : NoDup ((λ e, (kind e, id e)) <$> operationEntries i hist).
Proof.
  revert i. induction hist as [|o hist IH]; intros i; cbn [operationEntries fmap list_fmap]; [constructor|].
  assert (∀ k, (k, i) ∉ (λ e, (kind e, id e)) <$> operationEntries (i + 1) hist) as Hn.
  { intros k (e & Heq & He)%list_elem_of_fmap. injection Heq as _ Hid.
    apply operationEntries_lookup in He as (j & o' & _ & [->| ->]); cbn in Hid; lia. }
  apply NoDup_cons. split; [|apply NoDup_cons; split; [apply Hn|apply IH]].
  intros [Heq|Hin]%elem_of_cons; [done|]. by eapply Hn.
Qed.

Section made.
Context (sort : list (entry V) → list (entry V)) (Hsort : sorts sort) (hist : list (Operation V)).
Context (Htimes : ∀ o, o ∈ hist → Call o <= Return o).
#[local] Notation E := (makeEntries sort hist).
#[local] Notation n := (length hist).

Lemma made_perm : E ≡ₚ operationEntries 0 hist.
Proof. apply Hsort. Qed.

Lemma made_elem e : e ∈ E ↔ ∃ j o, hist !! j = Some o ∧
    (e = mkEntry callEntry (Input o) (Z.of_nat j) (Call o) (ClientId o) ∨
     e = mkEntry returnEntry (Output o) (Z.of_nat j) (Return o) (ClientId o)).
Proof. rewrite made_perm. apply operationEntries_lookup. Qed.

Lemma made_unique i j e e' : E !! i = Some e → E !! j = Some e' → kind e = kind e' → id e = id e' → i = j.
Proof.
  intros Hi Hj Hk Hid.
  assert (NoDup ((λ e, (kind e, id e)) <$> E)) as HN.
  { rewrite made_perm. apply operationEntries_NoDup. }
  eapply NoDup_lookup; [exact HN|by rewrite list_lookup_fmap, Hi|]. rewrite list_lookup_fmap, Hj. cbn. by rewrite Hk, Hid.
Qed.

(** Where the entries of an operation are. *)
Lemma made_pos j o : hist !! j = Some o →
  ∃ c r, E !! c = Some (mkEntry callEntry (Input o) (Z.of_nat j) (Call o) (ClientId o)) ∧
         E !! r = Some (mkEntry returnEntry (Output o) (Z.of_nat j) (Return o) (ClientId o)).
Proof.
  intros Hj. destruct (list_elem_of_lookup_1 E (mkEntry callEntry (Input o) (Z.of_nat j) (Call o) (ClientId o))) as [c Hc].
  { apply made_elem. eauto 6. }
  destruct (list_elem_of_lookup_1 E (mkEntry returnEntry (Output o) (Z.of_nat j) (Return o) (ClientId o))) as [r Hr].
  { apply made_elem. eauto 6. }
  eauto.
Qed.

(** An entry that is less than another is before it. *)
Lemma made_less i j e e' : E !! i = Some e → E !! j = Some e' → less e e' = true → (i < j)%nat.
Proof.
  intros Hi Hj Hl. destruct (decide (i < j)%nat) as [|Hij]; [done|]. exfalso.
  destruct (decide (i = j)) as [->|Hne].
  { assert (e' = e) as -> by congruence. unfold less in Hl. rewrite Z.eqb_refl in Hl. cbn in Hl. destruct (kind e); done. }
  destruct (Hsort (operationEntries 0 hist)) as [_ HS].
  assert (less e e' = false) by (eapply (StronglySorted_lookup _ _ j i _ _ HS); [done|done|lia]). congruence.
Qed.

Lemma made_wf : wf_entries E n.
Proof.
  split.
  - rewrite made_perm. apply operationEntries_length.
  - intros i e He%list_elem_of_lookup_2. apply made_elem in He as (j & o & Hj%lookup_lt_Some & [->| ->]); cbn; lia.
  - intros a Ha. destruct (lookup_lt_is_Some_2 hist (Z.to_nat a)) as [o Ho]; [lia|].
    destruct (made_pos _ _ Ho) as (c & r & Hc & Hr). rewrite Z2Nat.id in Hc, Hr by lia. exists c, r. split_and!.
    + eapply made_less; [done|done|]. unfold less. cbn.
      apply list_elem_of_lookup_2 in Ho. apply Htimes in Ho. zbool_lia.
    + by eexists.
    + by eexists.
    + intros i e He Hid. destruct (kind e) eqn:Hk; [left|right]; by eapply made_unique.
Qed.

(** The order of the entries is the order of time. *)
Lemma made_before i j o1 o2 :
  hist !! i = Some o1 → hist !! j = Some o2 → before E (Z.of_nat i) (Z.of_nat j) ↔ precedes o1 o2.
Proof.
  intros H1 H2. destruct (made_pos _ _ H1) as (_ & r & _ & Hr), (made_pos _ _ H2) as (c & _ & Hc & _). unfold precedes. split.
  - intros (r' & c' & (er & Her & Hkr & Hidr) & (ec & Hec & Hkc & Hidc) & Hlt).
    assert (r' = r) as -> by (by eapply made_unique). assert (c' = c) as -> by (by eapply made_unique).
    destruct (Z.lt_ge_cases (Return o1) (Call o2)) as [|Hge]; [done|].
    assert (c < r)%nat; [|lia]. eapply made_less; [exact Hc|exact Hr|]. unfold less. cbn. zbool_lia.
  - intros Hlt. exists r, c. split_and!; [by eexists|by eexists|]. eapply made_less; [done|done|]. unfold less. cbn. zbool_lia.
Qed.

Lemma made_outcome i o s b s' :
  hist !! i = Some o → outcome model E (Z.of_nat i) s b s' ↔ Step model s (Input o) (Output o) = Some (b, s').
Proof.
  intros Hi. destruct (made_pos _ _ Hi) as (c & r & Hc & Hr). split.
  - intros (c' & r' & ec & er & Hec & Hkc & Hidc & Her & Hkr & Hidr & Hs).
    assert (c' = c) as -> by (by eapply made_unique). assert (r' = r) as -> by (by eapply made_unique).
    rewrite Hc in Hec. rewrite Hr in Her. by simplify_eq.
  - intros Hs. eexists c, r, _, _. by split_and!.
Qed.

(** A partial linearization of the entries is an order of some of the operations. *)
Lemma linp_ops R s seq R' s' :
  linp model E R s seq R' s' → R ⊆ ids n →
  NoDup seq ∧ (∀ a, a ∈ R ↔ a ∈ seq ∨ a ∈ R') ∧ (∀ a, a ∈ seq → a ∉ R') ∧ (∀ a b, a ∈ seq → b ∈ R' → ¬ before E b a) ∧
  ∃ ops, Forall2 (λ a o, hist !! Z.to_nat a = Some o) seq ops ∧ in_order ops ∧ accepted s ops = true.
Proof.
  intros Hl. induction Hl as [R s|R s a s1 seq R' s' Ha Hmin Hout Hl IH]; intros HR.
  { split_and!; [constructor|..]; try (intros; by set_solver). exists []. split_and!; [constructor|constructor|done]. }
  destruct IH as (HN & Hset & Hdis & Hclosed & ops & HF & Hord & Hacc); [set_solver|].
  assert (a ∉ seq ∧ a ∉ R') as [Hna HnR].
  { assert (a ∉ R ∖ {[a]}) as Hn by (intros [_ []]%elem_of_difference; by apply elem_of_singleton). rewrite Hset in Hn. tauto. }
  assert (∀ b, b ∈ R ↔ b = a ∨ b ∈ seq ∨ b ∈ R') as Hset'.
  { intros b. rewrite <-Hset, elem_of_difference, elem_of_singleton. destruct (decide (b = a)) as [->|]; tauto. }
  split_and!.
  - by apply NoDup_cons.
  - intros b. rewrite Hset', elem_of_cons. tauto.
  - intros b [->|Hb]%elem_of_cons; [done|by apply Hdis].
  - intros b c [->|Hb]%elem_of_cons Hc; [apply Hmin, Hset'; tauto|by apply Hclosed].
  - pose proof (HR a Ha) as Hr%ids_elem. destruct (lookup_lt_is_Some_2 hist (Z.to_nat a)) as [o Ho]; [lia|].
    exists (o :: ops). split_and!; [by constructor| |].
    + constructor; [done|]. apply Forall_lookup. intros j o' Ho'.
      destruct (Forall2_lookup_r _ _ _ _ _ HF Ho') as (b & Hb & Hbo). intros Hp.
      assert (b ∈ R) as HbR by (apply Hset'; right; left; by eapply list_elem_of_lookup_2).
      apply (Hmin b HbR). pose proof (HR b HbR) as Hb0%ids_elem.
      rewrite <-(Z2Nat.id a), <-(Z2Nat.id b) by lia. by eapply made_before.
    + cbn. rewrite <-(Z2Nat.id a) in Hout by lia. apply (made_outcome _ _ _ _ _ Ho) in Hout. by rewrite Hout.
Qed.

Lemma ops_linp R s seq ops :
  NoDup seq → list_to_set seq = R → R ⊆ ids n → Forall2 (λ a o, hist !! Z.to_nat a = Some o) seq ops →
  in_order ops → accepted s ops = true → ∃ s', linp model E R s seq ∅ s'.
Proof.
  intros HN HR Hsub HF. revert R s HR Hsub. induction HF as [|a o seq ops Ho HF IH]; intros R s HR Hsub Hord Hacc.
  { exists s. cbn in HR. subst. constructor. }
  cbn in Hacc. destruct (Step _ _ _ _) as [[[] s1]|] eqn:Hs; try done.
  apply NoDup_cons in HN as [Hna HN]. inversion Hord as [|? ? Hord' Hall]; subst. cbn in *.
  assert (a ∈ ids n) as Hr%ids_elem by set_solver.
  destruct (IH HN (list_to_set seq) s1 eq_refl) as [s' Hl]; [set_solver|done|done|].
  exists s'. econstructor.
  - set_solver.
  - intros b [->%elem_of_singleton|Hb%elem_of_list_to_set]%elem_of_union Hbef.
    + rewrite <-(Z2Nat.id a) in Hbef by lia. apply (made_before _ _ _ _ Ho Ho) in Hbef.
      apply list_elem_of_lookup_2 in Ho. apply Htimes in Ho. unfold precedes in Hbef. lia.
    + apply list_elem_of_lookup in Hb as [j Hj]. destruct (Forall2_lookup_l _ _ _ _ _ HF Hj) as (o' & Ho' & Hbo).
      assert (b ∈ ids n) as Hb%ids_elem. { apply Hsub. apply elem_of_union_r, elem_of_list_to_set. by eapply list_elem_of_lookup_2. }
      rewrite <-(Z2Nat.id a), <-(Z2Nat.id b) in Hbef by lia. apply (made_before _ _ _ _ Hbo Ho) in Hbef.
      rewrite Forall_lookup in Hall. by eapply Hall.
  - rewrite <-(Z2Nat.id a) by lia. apply (made_outcome _ _ _ _ _ Ho). exact Hs.
  - replace (({[a]} ∪ list_to_set seq) ∖ {[a]}) with (list_to_set seq : gset Z); [done|]. set_solver.
Qed.

Lemma made_linearizable : linearizable hist ↔ ∃ q s', linp model E (ids n) (Init model) q ∅ s'.
Proof.
  assert (Forall2 (λ a o, hist !! Z.to_nat a = Some o) (upto (Z.of_nat n)) hist) as HF0.
  { apply Forall2_same_length_lookup. split; [by rewrite upto_length, Nat2Z.id|]. intros i a o Ha Ho.
    unfold upto in Ha. rewrite list_lookup_fmap in Ha. destruct (seq _ _ !! i) as [k|] eqn:Hk; [|done].
    apply lookup_seq in Hk as [-> _]. injection Ha as <-. by rewrite Nat2Z.id. }
  split.
  - intros (ops & HP & Hord & Hacc).
    destruct (Forall2_perm_r _ _ _ _ HF0 (symmetry HP)) as (q & Hq & HF).
    destruct (ops_linp (ids n) (Init model) q ops) as [s' Hl]; [| |done|done|done|done|by eauto].
    + rewrite <-Hq. apply upto_NoDup.
    + unfold ids. by rewrite <-Hq.
  - intros (q & s' & Hl). destruct (linp_ops _ _ _ _ _ Hl) as (HN & Hset & _ & _ & ops & HF & Hord & Hacc); [done|].
    assert (q ≡ₚ upto (Z.of_nat n)) as HP.
    { apply NoDup_Permutation; [done|apply upto_NoDup|]. intros a. rewrite upto_elem, <-ids_elem, Hset, elem_of_empty. tauto. }
    exists ops. split_and!; [|done..]. destruct (Forall2_perm_l _ _ _ _ HF HP) as (ops' & HP' & HF').
    rewrite HP'. replace ops' with hist; [done|]. eapply Forall2_det; [|exact HF0|exact HF']. intros; simplify_eq/=; congruence.
Qed.

Lemma linp_prefix q R s : linp model E (ids n) (Init model) q R s → linearizable_prefix hist q.
Proof.
  intros Hl. pose proof (linp_elem _ _ _ _ _ _ _ Hl) as Hids.
  destruct (linp_ops _ _ _ _ _ Hl) as (HN & Hset & Hdis & Hclosed & ops & HF & Hord & Hacc); [done|].
  split_and!; [done|exists ops; split_and!; [|done..]|].
  - apply Forall2_same_length_lookup. split; [by eapply Forall2_length|]. intros i a o Ha Ho.
    rewrite index_lookup; [|apply list_elem_of_lookup_2, Hids, ids_elem in Ha; lia].
    by destruct (Forall2_lookup_lr _ _ _ _ _ _ HF Ha Ho).
  - intros a b oa ob Ha [Ha0 Hoa]%index_Some [Hb0 Hob]%index_Some Hp.
    assert (b ∈ ids n) as Hb. { apply ids_elem. apply lookup_lt_Some in Hob. lia. }
    apply Hset in Hb as [?|HbR]; [done|]. destruct (Hclosed a b Ha HbR).
    rewrite <-(Z2Nat.id a), <-(Z2Nat.id b) by lia. by eapply made_before.
Qed.

End made.
End histories.
