(* ===== verification/LinearVerdict.v ===== *)
(** * The verdict of the checker

    [checkSingle] on the operations of a partition ([checkSingle_correct]), and the
    verdict [checkParallel] puts together from the partitions it checks at the same
    time ([operations_verdict]). *)

From S2P Require Import Prelude Bitset Porcupine LinkedList Linearize LinearSearch LinearCheck Histories.

Section verdict.
Context {V S : Type} (model : Model V S) (equal : S → S → bool).
Context (sort : list (entry V) → list (entry V)).
Implicit Types (hist : list (Operation V)) (parts : list (list (Operation V))).

(** Calls come before returns, and [Step] does not panic on what was recorded. *)
Record wf_history hist : Prop := {
  wh_times : ∀ o, o ∈ hist → Call o <= Return o;
  wh_step : ∀ o s, o ∈ hist → is_Some (Step model s (Input o) (Output o));
}.

Lemma wf_history_perm hist hist' : hist ≡ₚ hist' → wf_history hist → wf_history hist'.
Proof. intros HP [H1 H2]. split; intros o; [|intros s]; intros Ho; rewrite <-HP in Ho; eauto. Qed.

(** Enough rounds for a history of [n] operations. *)
Definition enoughFor (n : nat) : nat := (2 * n * (Nat.iter (n - 1) (λ k, 2 * n * (k + 2)) 0 + 2) + 1)%nat.

Lemma enough_for E n : wf_entries E n → enough (V := V) E n = enoughFor n.
Proof.
  intros W. unfold enough, enoughFor. rewrite (we_length _ _ W). do 3 f_equal.
  induction (n - 1)%nat as [|k IH]; [done|]. cbn [bound Nat.iter]. by rewrite IH, (we_length _ _ W).
Qed.

Lemma made_total hist : sorts sort → wf_history hist →
  ∀ i j ei ej s, makeEntries sort hist !! i = Some ei → makeEntries sort hist !! j = Some ej →
  kind ei = callEntry → kind ej = returnEntry → id ei = id ej → is_Some (Step model s (value ei) (value ej)).
Proof.
  intros Hs Hw i j ei ej s Hi%list_elem_of_lookup_2 Hj%list_elem_of_lookup_2 Hki Hkj Hid.
  apply (made_elem sort Hs) in Hi as (i' & o & Ho & [->| ->]); [|done].
  apply (made_elem sort Hs) in Hj as (j' & o' & Ho' & [->| ->]); [done|]. cbn in *.
  assert (i' = j') as -> by lia. assert (o' = o) as -> by congruence. eapply wh_step; [done|]. by eapply list_elem_of_lookup_2.
Qed.

(** The answer of [checkSingle]: yes only when the operations are linearizable, and
    yes whenever they are, unless it is killed. *)
Lemma single_verdict hist fuel computePartial kill :
  sorts sort → wf_history hist → (∀ s s', equal s s' = true → s = s') → (enoughFor (length hist) <= fuel)%nat →
  ∃ b l, checkSingle model equal fuel (makeEntries sort hist) computePartial kill = Some (b, l) ∧
    (b = true → linearizable model hist) ∧
    ((∀ j, kill j = false) → linearizable model hist → b = true).
Proof.
  intros Hs Hw Heq Hf. pose proof (made_wf sort Hs hist (wh_times _ Hw)) as W. rewrite <-(enough_for _ _ W) in Hf.
  pose proof (made_linearizable model sort Hs hist (wh_times _ Hw)) as Hlin.
  destruct (checkSingle_decides model equal computePartial _ _ W Heq (made_total hist Hs Hw) fuel Hf) as (b & l & Hc & Hb).
  destruct (checkSingle_kill _ _ _ _ kill _ _ _ Hc) as (b' & l' & Hc' & Hb1 & Hb2). exists b', l'. split_and!; [done| |].
  - intros [-> _]%Hb1. apply Hlin. destruct Hb as (q & s' & _ & _ & ?). eauto.
  - intros [-> _]%Hb2 (q & s' & Hl)%Hlin. destruct b; [done|]. by destruct (proj2 Hb q s').
Qed.

(** What [checkSingle] notes in [longest] when it is not killed. *)
Lemma single_notes hist fuel computePartial :
  sorts sort → wf_history hist → (∀ s s', equal s s' = true → s = s') → (enoughFor (length hist) <= fuel)%nat →
  ∃ b l, checkSingle model equal fuel (makeEntries sort hist) computePartial (λ _, false) = Some (b, l) ∧
    length l = length hist ∧
    (∀ i k q, l !! i = Some (Some (k, q)) → Z.of_nat i ∈ q ∧ linearizable_prefix model hist q) ∧
    (b = true → ∃ k q, l = replicate (length hist) (Some (k, q)) ∧ length q = length hist).
Proof.
  intros Hs Hw Heq Hf. pose proof (made_wf sort Hs hist (wh_times _ Hw)) as W. rewrite <-(enough_for _ _ W) in Hf.
  pose proof (linp_ops model sort Hs hist (wh_times _ Hw)) as Hops.
  pose proof (linp_prefix model sort Hs hist (wh_times _ Hw)) as Hpre.
  destruct (checkSingle_decides model equal computePartial _ _ W Heq (made_total hist Hs Hw) fuel Hf) as (b & l & Hc & Hb).
  exists b, l. split; [done|]. destruct b.
  - destruct Hb as (q & s' & k & -> & Hl). destruct (Hops _ _ _ _ _ Hl) as (HN & Hset & _); [done|]. split_and!.
    + by rewrite length_replicate.
    + intros i k' q' [[= <- <-] Hi]%lookup_replicate. split; [|by eapply Hpre].
      destruct (Hset (Z.of_nat i)) as [[?|[]%elem_of_empty] _]; [apply ids_elem; lia|done].
    + intros _. exists k, q. split; [done|]. rewrite <-(size_list_to_set (C := gset Z)) by done.
      rewrite <-(Nat2Z.id (length hist)), <-upto_length, <-(size_list_to_set (C := gset Z)) by apply upto_NoDup.
      f_equal. apply set_eq. intros a. rewrite elem_of_list_to_set. pose proof (Hset a) as Ha. unfold ids in Ha.
      rewrite elem_of_empty in Ha. tauto.
  - destruct Hb as [[Hlen Hlo] _]. split_and!; [done| |done]. intros i k q Hi.
    destruct (Hlo _ _ _ Hi) as (? & R & s & Hl). split; [done|]. by eapply Hpre.
Qed.

(** C12: [checkSingle] on the entries of a history ends, and answers yes only when
    the operations are linearizable, and yes whenever they are unless it is killed.
    The sequence it notes for an operation has the operation in it and can start a
    linearization; a linearizable history gets one complete linearization for every
    operation. *)
Theorem checkSingle_correct hist fuel computePartial kill :
  sorts sort → wf_history hist → (∀ s s', equal s s' = true → s = s') → (enoughFor (length hist) <= fuel)%nat →
  ∃ b l, checkSingle model equal fuel (makeEntries sort hist) computePartial kill = Some (b, l) ∧
    (b = true → linearizable model hist) ∧
    ((∀ j, kill j = false) → (linearizable model hist → b = true) ∧ length l = length hist ∧
      (∀ i k q, l !! i = Some (Some (k, q)) → Z.of_nat i ∈ q ∧ linearizable_prefix model hist q) ∧
      (b = true → ∃ k q, l = replicate (length hist) (Some (k, q)) ∧ length q = length hist)).
Proof.
  intros Hs Hw Heq Hf. destruct (single_verdict hist fuel computePartial kill Hs Hw Heq Hf) as (b & l & Hc & H1 & H2).
  exists b, l. split_and!; [done|done|]. intros Hk. split; [by apply H2|].
  destruct (single_notes hist fuel computePartial Hs Hw Heq Hf) as (b' & l' & Hc' & Hl).
  rewrite (checkSingle_ext _ _ _ _ (λ _, false) kill) in Hc' by done. assert (b' = b ∧ l' = l) as [-> ->] by naive_solver. exact Hl.
Qed.

(** ** In parallel *)

(** What arrives on the two channels while the goroutines [R] run: the results of
    [checkSingle] on their partitions, and at some point a timeout.  The kill flag is
    set by the loop that receives, on the first no (without [computeInfo]) or on the
    timeout; a goroutine whose result is received before has not seen it. *)
Inductive arrivals (hist : list (list (entry V))) (computeInfo : bool) : gset nat → bool → list Message → Prop :=
  | arrivals_nil R killed : arrivals hist computeInfo R killed []
  | arrivals_result R killed i sub fuel kill ok l msgs :
      i ∈ R → hist !! i = Some sub → checkSingle model equal fuel sub computeInfo kill = Some (ok, l) →
      (killed = false → ∀ j, kill j = false) →
      arrivals hist computeInfo (R ∖ {[i]}) (killed || (negb ok && negb computeInfo)) msgs →
      arrivals hist computeInfo R killed (ResultMsg ok :: msgs)
  | arrivals_timeout R killed msgs :
      arrivals hist computeInfo R true msgs → arrivals hist computeInfo R killed (TimeoutMsg :: msgs).

Lemma waitAll_enough total count msgs :
  (total <= count + length (filter (λ m, m ≠ TimeoutMsg) msgs))%nat → waitAll total count msgs = Some tt.
Proof. intros H. unfold waitAll. destruct (Nat.leb_spec (total - count) (length (filter (λ m, m ≠ TimeoutMsg) msgs))); [done|lia]. Qed.

(** The loop is left when the results arrive, and the rest can be waited for. *)
Lemma collect_returns computeInfo total count ok msgs :
  (count < total)%nat → (total <= count + length (filter (λ m, m ≠ TimeoutMsg) msgs))%nat →
  ∃ ok' timedOut count' rest, collect computeInfo total count ok msgs = Some (ok', timedOut, count', rest) ∧
    waitAll total count' rest = Some tt.
Proof.
  revert count ok. induction msgs as [|[result|] msgs IH]; intros count ok Hc Hm; cbn [collect].
  - cbn in Hm. lia.
  - rewrite filter_cons, decide_True in Hm by done. cbn [length] in Hm.
    destruct (negb (ok && result) && negb computeInfo); [do 4 eexists; split; [done|apply waitAll_enough; lia]|].
    destruct (Nat.leb_spec total (Datatypes.S count)) as [Hle|Hlt]; [|apply IH; lia].
    do 4 eexists. split; [done|]. apply waitAll_enough. lia.
  - rewrite filter_cons, decide_False in Hm by naive_solver.
    do 4 eexists. split; [done|]. apply waitAll_enough. lia.
Qed.

(** What the results that were received say. *)
Lemma collect_verdict (hist : list (list (entry V))) computeInfo (P : nat → Prop) R count ok msgs ok' timedOut count' rest :
  arrivals hist computeInfo R false msgs →
  (∀ i sub fuel b l, hist !! i = Some sub →
     checkSingle model equal fuel sub computeInfo (λ _, false) = Some (b, l) → b = true ↔ P i) →
  collect computeInfo (length hist) count ok msgs = Some (ok', timedOut, count', rest) →
  (∀ i, i ∈ R → (i < length hist)%nat) → (count + size R = length hist)%nat →
  (if ok then ∀ i, (i < length hist)%nat → i ∉ R → P i else ∃ i, (i < length hist)%nat ∧ ¬ P i) →
  match verdict ok' timedOut with
  | Ok => ∀ i, (i < length hist)%nat → P i
  | Illegal => ∃ i, (i < length hist)%nat ∧ ¬ P i
  | Unknown => TimeoutMsg ∈ msgs
  end.
Proof.
  intros HA HP. remember false as killed eqn:Hk in HA. revert count ok Hk.
  induction HA as [R killed|R killed i sub fuel kill b l msgs Hi Hsub Hcs Hkill HA IH|R killed msgs HA IH];
    intros count ok -> Hcol HR Hsz Hok; cbn [collect] in Hcol; [done| |].
  - assert (checkSingle model equal fuel sub computeInfo (λ _, false) = Some (b, l)) as Hcs'.
    { rewrite <-Hcs. apply checkSingle_ext. intros j. symmetry. by apply Hkill. }
    pose proof (HP _ _ _ _ _ Hsub Hcs') as HPi.
    assert (size (R ∖ {[i]}) = size R - 1)%nat as Hsz'.
    { rewrite size_difference, size_singleton by set_solver. done. }
    assert (size R ≠ 0)%nat by (intros ?%size_empty_inv; set_solver).
    assert (if ok && b then ∀ j, (j < length hist)%nat → j ∉ R ∖ {[i]} → P j else ∃ j, (j < length hist)%nat ∧ ¬ P j) as Hok'.
    { destruct ok, b; cbn; try done.
      - intros j Hj HjR. destruct (decide (j = i)) as [->|]; [by apply HPi|]. apply Hok; [done|]. set_solver.
      - exists i. split; [by apply HR|]. intros Hp. apply HPi in Hp. done. }
    destruct (negb (ok && b) && negb computeInfo) eqn:Hstop.
    { injection Hcol as <- <- <- <-. destruct (ok && b); done. }
    destruct (Nat.leb_spec (length hist) (Datatypes.S count)) as [Hle|Hlt].
    + injection Hcol as <- <- <- <-. destruct (ok && b); cbn; [|done]. intros j Hj. apply Hok'; [done|].
      assert (R ∖ {[i]} = ∅) as ->; [|set_solver]. apply leibniz_equiv, size_empty_inv. lia.
    + specialize (IH (Datatypes.S count) (ok && b)). destruct (verdict ok' timedOut); [right|..];
        (apply IH; [|done|set_solver|lia|done]).
      all: destruct ok, b, computeInfo; done.
  - injection Hcol as <- <- <- <-. destruct ok; cbn; [left|done].
Qed.

(** [checkSingle] on partition [i] says whether it is linearizable. *)
Lemma partition_verdict parts computeInfo i sub fuel b l :
  sorts sort → Forall wf_history parts → (∀ s s', equal s s' = true → s = s') →
  (makeEntries sort <$> parts) !! i = Some sub →
  checkSingle model equal fuel sub computeInfo (λ _, false) = Some (b, l) →
  b = true ↔ ∃ hist, parts !! i = Some hist ∧ linearizable model hist.
Proof.
  intros Hs Hw Heq Hi Hc. rewrite list_lookup_fmap in Hi. destruct (parts !! i) as [hist|] eqn:Hp; [|done]. injection Hi as <-.
  assert (wf_history hist) as Hwh by (eapply Forall_lookup_1; eauto).
  destruct (single_verdict hist (fuel `max` enoughFor (length hist)) computeInfo (λ _, false) Hs Hwh Heq)
    as (b' & l' & Hc' & H1 & H2); [lia|].
  eapply (checkSingle_more _ _ _ _ _ _ (fuel `max` enoughFor (length hist))) in Hc; [|lia].
  assert (b' = b) as -> by congruence. naive_solver.
Qed.

(** The verdict on partitions of which [P] says whether they are linearizable. *)
Lemma parallel_verdict (hist : list (list (entry V))) computeInfo (P : nat → Prop) msgs longest :
  (∀ i sub fuel b l, hist !! i = Some sub →
     checkSingle model equal fuel sub computeInfo (λ _, false) = Some (b, l) → b = true ↔ P i) →
  hist ≠ [] → arrivals hist computeInfo (set_seq 0 (length hist)) false msgs →
  (length hist <= length (filter (λ m, m ≠ TimeoutMsg) msgs))%nat →
  ∃ res info, checkParallel hist computeInfo msgs longest = Some (res, info) ∧
    match res with
    | Ok => ∀ i, (i < length hist)%nat → P i
    | Illegal => ∃ i, (i < length hist)%nat ∧ ¬ P i
    | Unknown => TimeoutMsg ∈ msgs
    end.
Proof.
  intros HP Hne HA Hm. unfold checkParallel.
  destruct (collect_returns computeInfo (length hist) 0 true msgs) as (ok & timedOut & count & rest & Hc & Hwait);
    [by destruct hist; [|cbn; lia]|done|].
  rewrite Hc. cbn [mbind option_bind].
  assert (∃ info, (if computeInfo then _ ← waitAll (length hist) count rest;
      Some (mkInfo hist (partials <$> longest)) else Some noInfo) = Some info) as [info Hinfo].
  { destruct computeInfo; [rewrite Hwait|]; by eexists. }
  rewrite Hinfo. cbn [mbind option_bind]. eexists _, _. split; [done|].
  assert (size (set_seq 0 (length hist) : gset nat) = length hist) as Hsz by apply size_set_seq.
  eapply (collect_verdict _ _ P); [done|done|done| |exact Hsz|].
  - by intros i [_ ?]%elem_of_set_seq.
  - intros i Hi []. apply elem_of_set_seq. lia.
Qed.

(** In terms of the partitions. *)
Definition verdict_on parts (msgs : list Message) (res : CheckResult) : Prop :=
  match res with
  | Ok => Forall (linearizable model) parts
  | Illegal => Exists (λ hist, ¬ linearizable model hist) parts
  | Unknown => TimeoutMsg ∈ msgs
  end.

Lemma operations_verdict parts computeInfo msgs longest :
  sorts sort → Forall wf_history parts → (∀ s s', equal s s' = true → s = s') → parts ≠ [] →
  arrivals (makeEntries sort <$> parts) computeInfo (set_seq 0 (length parts)) false msgs →
  (length parts <= length (filter (λ m, m ≠ TimeoutMsg) msgs))%nat →
  ∃ res info, checkParallel (makeEntries sort <$> parts) computeInfo msgs longest = Some (res, info) ∧
    verdict_on parts msgs res.
Proof.
  intros Hs Hw Heq Hne HA Hm. rewrite <-(length_fmap (makeEntries sort)) in HA, Hm.
  destruct (parallel_verdict (makeEntries sort <$> parts) computeInfo (λ i, ∃ hist, parts !! i = Some hist ∧ linearizable model hist)
    msgs longest) as (res & info & Hc & Hv); [|by destruct parts|done|done|].
  { intros. by eapply partition_verdict. }
  exists res, info. split; [done|]. rewrite length_fmap in Hv. destruct res; cbn; [done| |].
  - apply Forall_lookup. intros i hist Hi. destruct (Hv i) as (hist' & Hi' & ?); [by eapply lookup_lt_Some|]. congruence.
  - destruct Hv as (i & Hi & Hn). destruct (lookup_lt_is_Some_2 parts i Hi) as [hist Hh].
    apply Exists_exists. exists hist. split; [by eapply list_elem_of_lookup_2|]. intros Hl. apply Hn. eauto.
Qed.

(** Without a partition and without a timeout nothing arrives, and the loop waits. *)
Lemma no_partitions computeInfo R msgs longest :
  arrivals [] computeInfo R false msgs → TimeoutMsg ∉ msgs → checkParallel ([] : list (list (entry V))) computeInfo msgs longest = None.
Proof.
  intros HA Hn. inversion HA as [|? ? i sub ? ? ? ? ? ? Hi|]; subst; [done|done|]. destruct Hn. by left.
Qed.

End verdict.

Arguments arrivals {V S}.
