(* ===== verification/KvModel.v ===== *)
(** * The key/value model ([models/kv.go])

    The model the tests of kvraft and shardkv check their histories against.  A
    history is split by key, and a part is checked against a single value.  This is
    sound: a history is linearizable as operations on a map exactly when every part is
    linearizable as operations on a value ([kv_locality]). *)

From S2P Require Import Prelude Bitset Porcupine LinkedList Linearize LinearSearch LinearCheck Histories LinearVerdict.

Record KvInput := mkKvInput { Op : Z; Key : string; Value : string }.
Record KvOutput := mkKvOutput { out_Value : string }.

(** What the [interface{}] values of the operations hold. *)
Inductive kvval := VInput (i : KvInput) | VOutput (o : KvOutput).

(** [v.(KvInput)] and [v.(KvOutput)]: a panic on another type. *)
Definition asInput (v : kvval) : option KvInput := match v with VInput i => Some i | _ => None end.
Definition asOutput (v : kvval) : option KvOutput := match v with VOutput o => Some o | _ => None end.

(** The loop over the history that fills [m]. *)
Definition partitionStep (acc : option (gmap string (list (Operation kvval)))) (v : Operation kvval)
    : option (gmap string (list (Operation kvval))) :=
  m ← acc; i ← asInput (Input v);
  Some (<[Key i := default [] (m !! Key i) ++ [v]]> m).

(** [KvModel.Partition]; [None] is a panic. *)
Definition kvPartition (history : list (Operation kvval)) : option (list (list (Operation kvval))) :=
  m ← foldl partitionStep (Some ∅) history;
  let keys := merge_sort String.le (map_to_list m).*1 in
  Some ((λ k, default [] (m !! k)) <$> keys).

Definition kvInit : string := EmptyString.

(** [KvModel.Step] *)
Definition kvStep (state : string) (input output : kvval) : option (bool * string) :=
  inp ← asInput input; out ← asOutput output;
  if Op inp =? 0 then Some (bool_decide (out_Value out = state), state)
  else if Op inp =? 1 then Some (true, Value inp)
  else Some (true, (state +:+ Value inp)%string).

(** [KvModel.DescribeOperation], for the visualisation. *)
Definition kvDescribeOperation (input output : kvval) : option string :=
  inp ← asInput input; out ← asOutput output;
  Some (if Op inp =? 0 then "get('" +:+ Key inp +:+ "') -> '" +:+ out_Value out +:+ "'"
        else if Op inp =? 1 then "put('" +:+ Key inp +:+ "', '" +:+ Value inp +:+ "')"
        else if Op inp =? 2 then "append('" +:+ Key inp +:+ "', '" +:+ Value inp +:+ "')"
        else "<invalid>").

(** [Equal] and [PartitionEvent] are nil. *)
Definition KvModel : Model kvval string := mkModel (Some kvPartition) None kvInit kvStep None.

(** ** The service as one map *)

Definition mapStep (m : gmap string string) (input output : kvval) : option (bool * gmap string string) :=
  inp ← asInput input; out ← asOutput output;
  let v := default EmptyString (m !! Key inp) in
  if Op inp =? 0 then Some (bool_decide (out_Value out = v), m)
  else if Op inp =? 1 then Some (true, <[Key inp := Value inp]> m)
  else Some (true, <[Key inp := (v +:+ Value inp)%string]> m).

Definition MapModel : Model kvval (gmap string string) := mkModel None None ∅ mapStep None.

(** The recorded values have the types the model expects. *)
Record kv_typed (o : Operation kvval) : Prop := {
  kt_input : is_Some (asInput (Input o));
  kt_output : is_Some (asOutput (Output o));
  kt_times : Call o <= Return o;
}.

Definition keyOf (o : Operation kvval) : string := match asInput (Input o) with Some i => Key i | None => EmptyString end.

Implicit Types (o : Operation kvval) (ops hist : list (Operation kvval)) (k : string).

(** The operations on a key. *)
Definition atKey k ops := filter (λ o, keyOf o = k) ops.

Lemma partition_fold hist m :
  Forall kv_typed hist →
  ∃ m', foldl partitionStep (Some m) hist = Some m' ∧
    ∀ k, m' !! k = match atKey k hist with [] => m !! k | l => Some (default [] (m !! k) ++ l) end.
Proof.
  revert m. induction hist as [|o hist IH]; intros m HT; [by exists m|].
  inversion HT as [|? ? [[i Hi] _ _] HT']; subst. cbn [foldl]. unfold partitionStep at 2. cbn [mbind option_bind]. rewrite Hi.
  cbn [mbind option_bind]. destruct (IH (<[Key i := default [] (m !! Key i) ++ [o]]> m) HT') as (m' & Hm' & Hk).
  exists m'. split; [done|]. intros k. rewrite Hk. unfold atKey. rewrite filter_cons.
  assert (keyOf o = Key i) as Hko by (unfold keyOf; by rewrite Hi). rewrite Hko.
  destruct (decide (Key i = k)) as [<-|Hne].
  - rewrite lookup_insert_eq. destruct (filter _ hist); cbn; [done|]. by rewrite <-app_assoc.
  - rewrite lookup_insert_ne by done. done.
Qed.

(** The parts are the operations by key. *)
Lemma kvPartition_spec hist :
  Forall kv_typed hist →
  ∃ parts, kvPartition hist = Some parts ∧
    ∀ part, part ∈ parts ↔ ∃ k, part = atKey k hist ∧ part ≠ [].
Proof.
  intros HT. destruct (partition_fold hist ∅ HT) as (m & Hm & Hk). unfold kvPartition. rewrite Hm. cbn [mbind option_bind].
  eexists. split; [done|]. intros part. rewrite list_elem_of_fmap.
  assert (∀ k, k ∈ merge_sort String.le (map_to_list m).*1 ↔ is_Some (m !! k)) as Hkeys.
  { intros k. rewrite merge_sort_Permutation, list_elem_of_fmap. split.
    - intros ([k' l] & -> & Hin%elem_of_map_to_list). by exists l.
    - intros [l Hl]. exists (k, l). split; [done|]. by apply elem_of_map_to_list. }
  assert (∀ k, m !! k = match atKey k hist with [] => None | l => Some l end) as Hk'.
  { intros k. rewrite Hk, lookup_empty. by destruct (atKey k hist). }
  split.
  - intros (k & -> & [l Hl]%Hkeys). rewrite Hl. cbn. exists k. rewrite Hk' in Hl. by destruct (atKey k hist); simplify_eq.
  - intros (k & -> & Hne). exists k. rewrite Hkeys, Hk'. destruct (atKey k hist); [done|]. split; [done|by eexists].
Qed.

(** ** Locality *)

Lemma linearizable_nil {V S} (model : Model V S) : linearizable model [].
Proof. exists []. split_and!; [done|constructor|done]. Qed.

(** A step on the map is a step on the value of the key. *)
Lemma mapStep_kvStep o (m : gmap string string) :
  kv_typed o →
  ∃ b v m', kvStep (default EmptyString (m !! keyOf o)) (Input o) (Output o) = Some (b, v) ∧
    mapStep m (Input o) (Output o) = Some (b, m') ∧
    ∀ k, default EmptyString (m' !! k) = if decide (k = keyOf o) then v else default EmptyString (m !! k).
Proof.
  intros [[i Hi] [out Ho] _]. unfold kvStep, mapStep, keyOf. rewrite Hi, Ho. cbn [mbind option_bind].
  destruct (Op i =? 0); [|destruct (Op i =? 1)]; do 3 eexists; (split_and!; [done|done|]); intros k;
    destruct (decide (k = Key i)) as [->|Hne]; rewrite ?lookup_insert_eq, ?lookup_insert_ne by done; done.
Qed.

Lemma accepted_by_key ops (m : gmap string string) :
  Forall kv_typed ops →
  accepted MapModel m ops = true ↔ ∀ k, accepted KvModel (default EmptyString (m !! k)) (atKey k ops) = true.
Proof.
  revert m. induction ops as [|o ops IH]; intros m HT; [done|].
  inversion HT as [|? ? Hty HT']; subst. destruct (mapStep_kvStep o m Hty) as (b & v & m' & Hkv & Hmap & Hm').
  cbn [accepted Step MapModel]. rewrite Hmap.
  assert (∀ k, atKey k (o :: ops) = if decide (k = keyOf o) then o :: atKey k ops else atKey k ops) as Hcons.
  { intros k. unfold atKey. rewrite filter_cons. destruct (decide (keyOf o = k)), (decide (k = keyOf o)); congruence. }
  destruct b.
  - rewrite IH by done. apply forall_proper. intros k. rewrite Hm', Hcons. destruct (decide (k = keyOf o)) as [->|]; [|done].
    cbn [accepted Step KvModel]. by rewrite Hkv.
  - split; [done|]. intros Hk. specialize (Hk (keyOf o)). rewrite Hcons, decide_True in Hk by done.
    cbn [accepted Step KvModel] in Hk. by rewrite Hkv in Hk.
Qed.

Lemma in_order_filter (P : Operation kvval → Prop) `{∀ o, Decision (P o)} ops : in_order ops → in_order (filter P ops).
Proof.
  unfold in_order. induction 1 as [|o ops HS IH HF]; [constructor|]. rewrite filter_cons. destruct (decide (P o)); [|done].
  constructor; [done|]. apply Forall_forall. intros o' [_ Ho']%list_elem_of_filter. rewrite Forall_forall in HF. by apply HF.
Qed.

(** An operation that was called first. *)
Lemma earliest (l : list (Operation kvval)) : l ≠ [] → ∃ o, o ∈ l ∧ ∀ o', o' ∈ l → Call o <= Call o'.
Proof.
  induction l as [|o l IH]; [done|]. intros _. destruct (decide (l = [])) as [->|Hne].
  { exists o. split; [by left|]. intros o' ->%list_elem_of_singleton. lia. }
  destruct (IH Hne) as (o1 & H1 & Hmin). destruct (Z.le_gt_cases (Call o) (Call o1)).
  - exists o. split; [by left|]. intros o' [->|Ho']%elem_of_cons; [lia|]. specialize (Hmin o' Ho'). lia.
  - exists o1. split; [by right|]. intros o' [->|Ho']%elem_of_cons; [lia|]. by apply Hmin.
Qed.

(** An operation behind the head of its key does not precede an earlier call. *)
Lemma head_first (g : string → list (Operation kvval)) hist (heads : list (Operation kvval)) h o :
  Forall kv_typed hist → (∀ k, in_order (g k)) → o ∈ hist → o ∈ g (keyOf o) →
  (∃ h', head (g (keyOf o)) = Some h' ∧ h' ∈ heads) → (∀ h', h' ∈ heads → Call h <= Call h') → ¬ precedes o h.
Proof.
  intros HT Hord Ho Hog (h' & Hh' & Hin) Hmin Hp. specialize (Hmin _ Hin). unfold precedes in Hp.
  rewrite Forall_forall in HT. apply HT in Ho. destruct Ho as [_ _ Ht]. specialize (Hord (keyOf o)).
  destruct (g (keyOf o)) as [|h'' l]; [done|]. injection Hh' as ->. inversion Hord as [|? ? _ HF]; subst.
  apply elem_of_cons in Hog as [<-|Hl]; [lia|]. rewrite Forall_forall in HF. apply (HF o Hl). unfold precedes. lia.
Qed.

(** Orders for the keys can be merged into an order for all: the earliest call among
    the heads can come first. *)
Lemma merge_orders n : ∀ hist (g : string → list (Operation kvval)),
  length hist = n → Forall kv_typed hist → (∀ k, g k ≡ₚ atKey k hist) → (∀ k, in_order (g k)) →
  ∃ ops, ops ≡ₚ hist ∧ in_order ops ∧ ∀ k, atKey k ops = g k.
Proof.
  induction n as [|n IH]; intros hist g Hlen HT Hg Hord.
  { destruct hist; [|done]. exists []. split_and!; [done|constructor|]. intros k. symmetry. by apply Permutation_nil_r. }
  set (heads := omap (λ o, head (g (keyOf o))) hist).
  assert (∀ o k, o ∈ g k → o ∈ hist ∧ keyOf o = k) as Hin.
  { intros o k Ho. rewrite Hg in Ho. by apply list_elem_of_filter in Ho as [? ?]. }
  assert (∀ o, o ∈ hist → ∃ h, head (g (keyOf o)) = Some h ∧ h ∈ heads) as Hheads.
  { intros o Ho. assert (o ∈ g (keyOf o)) as Hog by (rewrite Hg; by apply list_elem_of_filter).
    destruct (g (keyOf o)) as [|h l] eqn:Hgk; [by apply elem_of_nil in Hog|]. exists h. split; [done|].
    apply list_elem_of_omap. exists o. by rewrite Hgk. }
  destruct (earliest heads) as (h & Hh & Hmin).
  { destruct hist as [|o hist']; [done|]. destruct (Hheads o ltac:(by left)) as (h & _ & Hh). intros Hn. rewrite Hn in Hh. by apply elem_of_nil in Hh. }
  assert (∃ t, g (keyOf h) = h :: t) as [t Ht].
  { apply list_elem_of_omap in Hh as (o & Ho & Hho). destruct (g (keyOf o)) as [|h' t] eqn:Hgo; [done|]. injection Hho as ->.
    destruct (Hin h (keyOf o)) as [_ Hk]; [rewrite Hgo; by left|]. exists t. by rewrite Hk. }
  assert (h ∈ hist) as Hhist by (apply (Hin h (keyOf h)); rewrite Ht; by left).
  apply elem_of_Permutation in Hhist as [hist' HP].
  destruct (IH hist' (λ k, if decide (k = keyOf h) then t else g k)) as (ops & Hperm & Hops & Hkeys).
  { apply Permutation_length in HP. cbn in HP. lia. }
  { rewrite HP in HT. by inversion HT. }
  { intros k. specialize (Hg k). unfold atKey in *. rewrite HP, filter_cons in Hg. destruct (decide (k = keyOf h)) as [->|Hne].
    - rewrite decide_True, Ht in Hg by done. by apply Permutation_cons_inv in Hg.
    - by rewrite decide_False in Hg by congruence. }
  { intros k. destruct (decide (k = keyOf h)) as [->|]; [|done]. specialize (Hord (keyOf h)). rewrite Ht in Hord. by inversion Hord. }
  exists (h :: ops). split_and!.
  - by rewrite Hperm, HP.
  - constructor; [done|]. apply Forall_forall. intros o Ho. rewrite Hperm in Ho.
    assert (o ∈ hist) as Hoh by (rewrite HP; by right).
    eapply head_first; eauto. rewrite Hg. by apply list_elem_of_filter.
  - intros k. specialize (Hkeys k). unfold atKey in *. rewrite filter_cons, Hkeys.
    destruct (decide (keyOf h = k)) as [<-|Hne]; [by rewrite decide_True|by rewrite decide_False by congruence].
Qed.

(** A history is linearizable on the map when its keys are. *)
Lemma linearizable_by_key hist :
  Forall kv_typed hist → linearizable MapModel hist ↔ ∀ k, linearizable KvModel (atKey k hist).
Proof.
  intros HT. split.
  - intros (ops & HP & Hord & Hacc) k. exists (atKey k ops). split_and!; [unfold atKey; by rewrite HP|by apply in_order_filter|].
    rewrite accepted_by_key in Hacc by (by rewrite HP). apply (Hacc k).
  - intros Hk. destruct (choose_list [] (λ k ops, ops ≡ₚ atKey k hist ∧ in_order ops ∧ accepted KvModel kvInit ops = true)
      (keyOf <$> hist)) as (g & Hg & Hg0); [intros k _; apply Hk|].
    assert (∀ k, g k ≡ₚ atKey k hist ∧ in_order (g k) ∧ accepted KvModel kvInit (g k) = true) as Hall.
    { intros k. destruct (decide (k ∈ keyOf <$> hist)) as [Hin|Hn]; [by apply Hg|]. rewrite Hg0 by done.
      split_and!; [|constructor|done]. unfold atKey. rewrite filter_none; [done|].
      intros o Ho <-. apply Hn. by apply list_elem_of_fmap_2. }
    destruct (merge_orders _ hist g eq_refl HT) as (ops & HP & Hord & Hkeys); [intros k; by apply Hall..|].
    exists ops. split_and!; [done..|]. apply accepted_by_key; [by rewrite HP|]. intros k. rewrite Hkeys. by apply Hall.
Qed.

(** What holds of the parts holds of the keys. *)
Lemma parts_by_key hist parts :
  (∀ part, part ∈ parts ↔ ∃ k, part = atKey k hist ∧ part ≠ []) →
  Forall (linearizable KvModel) parts ↔ ∀ k, linearizable KvModel (atKey k hist).
Proof.
  intros Hparts. rewrite Forall_forall. split; [intros Hall k|].
  - destruct (decide (atKey k hist = [])) as [->|Hne]; [apply linearizable_nil|]. apply Hall, Hparts. eauto.
  - intros Hk part (k & -> & _)%Hparts. apply Hk.
Qed.

(** splitting the history by key loses nothing: a history of typed operations
    has parts, one for each key with its operations in their order, and it is
    linearizable as operations on one map exactly when every part is linearizable as
    operations on one value. *)
Theorem kv_locality hist :
  Forall kv_typed hist →
  ∃ parts, kvPartition hist = Some parts ∧
    (∀ part, part ∈ parts ↔ ∃ k, part = filter (λ o, keyOf o = k) hist ∧ part ≠ []) ∧
    (linearizable MapModel hist ↔ Forall (linearizable KvModel) parts).
Proof.
  intros HT. destruct (kvPartition_spec hist HT) as (parts & Hp & Hparts). exists parts. split_and!; [done..|].
  rewrite (parts_by_key hist parts) by done. by apply linearizable_by_key.
Qed.

(** ** Checking a history against the model *)

Lemma typed_wf hist : Forall kv_typed hist → wf_history KvModel hist.
Proof.
  intros HT. rewrite Forall_forall in HT. split.
  - intros o Ho. apply HT in Ho. apply Ho.
  - intros o s [[i Hi] [out Ho] _]%HT. cbn. unfold kvStep. rewrite Hi, Ho. cbn [mbind option_bind].
    destruct (Op i =? 0); [|destruct (Op i =? 1)]; by eexists.
Qed.

(** What arrives when the partitions of a history are checked. *)
Definition kv_arrivals (sort : list (entry kvval) → list (entry kvval)) hist (computeInfo : bool) (msgs : list Message) : Prop :=
  ∃ parts, kvPartition hist = Some parts ∧
    arrivals KvModel ShallowEqual (makeEntries sort <$> parts) computeInfo (set_seq 0 (length parts)) false msgs ∧
    (length parts <= length (filter (λ m, m ≠ TimeoutMsg) msgs))%nat.

Lemma kv_verdict sort hist computeInfo msgs longest :
  sorts sort → Forall kv_typed hist → hist ≠ [] → kv_arrivals sort hist computeInfo msgs →
  ∃ res info, checkOperations sort KvModel hist computeInfo msgs longest = Some (res, info) ∧
    match res with
    | Ok => linearizable MapModel hist
    | Illegal => ¬ linearizable MapModel hist
    | Unknown => TimeoutMsg ∈ msgs
    end.
Proof.
  intros Hs HT Hne (parts & Hp & HA & Hm). destruct (kvPartition_spec hist HT) as (parts' & Hp' & Hparts).
  assert (parts' = parts) as -> by congruence.
  destruct (operations_verdict KvModel ShallowEqual sort parts computeInfo msgs longest) as (res & info & Hc & Hv); try done.
  - apply Forall_forall. intros part (k & -> & _)%Hparts. apply typed_wf, Forall_forall.
    intros o [_ Ho]%list_elem_of_filter. rewrite Forall_forall in HT. by apply HT.
  - intros s s'. apply bool_decide_eq_true.
  - intros ->. destruct hist as [|o hist]; [done|]. specialize (Hparts (atKey (keyOf o) (o :: hist))).
    apply (not_elem_of_nil (atKey (keyOf o) (o :: hist))), Hparts. exists (keyOf o). split; [done|].
    unfold atKey. by rewrite filter_cons, decide_True.
  - exists res, info. split.
    + unfold checkOperations, operationPartitions. cbn [fillDefault Partition KvModel default Datatypes.id]. rewrite Hp. exact Hc.
    + pose proof (linearizable_by_key hist HT) as Hiff. rewrite <-(parts_by_key hist parts Hparts) in Hiff.
      destruct res; [done|by apply Hiff|]. cbn in Hv. intros Hall%Hiff. rewrite Exists_exists in Hv. destruct Hv as (part & Hin & Hn). rewrite Forall_forall in Hall. auto.
Qed.

(** C11: once the goroutines have sent their results, the check of a recorded history
    of gets, puts and appends returns.  [CheckOperations], without a timeout, is true
    exactly when the history is linearizable as operations on one map; a verdict Ok
    or Illegal of [CheckOperationsVerbose] is right, and Unknown means a timeout. *)
Theorem kv_check_correct sort hist msgs longest :
  sorts sort → Forall kv_typed hist → hist ≠ [] →
  (kv_arrivals sort hist false msgs → TimeoutMsg ∉ msgs →
     ∃ b, CheckOperations sort KvModel hist msgs = Some b ∧ (b = true ↔ linearizable MapModel hist)) ∧
  (kv_arrivals sort hist true msgs →
     ∃ res info, CheckOperationsVerbose sort KvModel hist msgs longest = Some (res, info) ∧
       match res with
       | Ok => linearizable MapModel hist
       | Illegal => ¬ linearizable MapModel hist
       | Unknown => TimeoutMsg ∈ msgs
       end).
Proof.
  intros Hs HT Hne. split; [intros HA Hnt|intros HA; by apply kv_verdict].
  destruct (kv_verdict sort hist false msgs [] Hs HT Hne HA) as (res & info & Hc & Hv).
  unfold CheckOperations. rewrite Hc. cbn [mbind option_bind]. eexists. split; [done|]. destruct res; [done|by split|by split].
Qed.

(** the check of an empty history without a timeout does not return: there is no
    partition, so no result ever arrives and the loop waits. *)
Theorem kv_check_empty_waits sort msgs :
  arrivals KvModel ShallowEqual [] false ∅ false msgs → TimeoutMsg ∉ msgs →
  CheckOperations sort KvModel [] msgs = None.
Proof.
  intros HA Hn. unfold CheckOperations, checkOperations, operationPartitions. cbn [fillDefault Partition KvModel default Datatypes.id].
  change (kvPartition []) with (Some ([] : list (list (Operation kvval)))). cbn [mbind option_bind map].
  by rewrite (no_partitions _ _ _ _ _ _ HA Hn).
Qed.

(** ** A recorded history *)

Module CheckerExamples.

Definition op (client kind : Z) (key value out : string) (call return_ : Z) : Operation kvval :=
  mkOperation client (VInput (mkKvInput kind key value)) call (VOutput (mkKvOutput out)) return_.

(** A get overlaps a put of the same key and sees it, another key gets an append. *)
Definition good : list (Operation kvval) :=
  [op 0 1 "x" "a" "" 0 10; op 1 0 "x" "" "a" 5 15; op 2 2 "y" "b" "" 7 8; op 1 0 "y" "" "b" 16 17].

(** A get after the put still sees the old value. *)
Definition stale : list (Operation kvval) :=
  [op 0 1 "x" "a" "" 0 4; op 1 0 "x" "" "" 5 15; op 2 2 "y" "b" "" 7 8].

Lemma good_typed : Forall kv_typed good.
Proof. repeat constructor; cbn; try lia; by eexists. Qed.

Lemma stale_typed : Forall kv_typed stale.
Proof. repeat constructor; cbn; try lia; by eexists. Qed.

Lemma arrive_good : kv_arrivals sortByTime good false [ResultMsg true; ResultMsg true].
Proof.
  eexists. split; [vm_compute; reflexivity|]. split; [|vm_compute; repeat constructor].
  eapply (arrivals_result _ _ _ _ _ _ 1%nat _ 20 (λ _, false)); [by vm_compute|vm_compute; reflexivity|vm_compute; reflexivity|done|].
  eapply (arrivals_result _ _ _ _ _ _ 0%nat _ 20 (λ _, false)); [by vm_compute|vm_compute; reflexivity|vm_compute; reflexivity|done|].
  constructor.
Qed.

(** The no of the key x arrives first and the other goroutine is killed. *)
Lemma arrive_stale : kv_arrivals sortByTime stale false [ResultMsg false; ResultMsg false].
Proof.
  eexists. split; [vm_compute; reflexivity|]. split; [|vm_compute; repeat constructor].
  eapply (arrivals_result _ _ _ _ _ _ 0%nat _ 20 (λ _, false)); [by vm_compute|vm_compute; reflexivity|vm_compute; reflexivity|done|].
  eapply (arrivals_result _ _ _ _ _ _ 1%nat _ 20 (λ _, true)); [by vm_compute|vm_compute; reflexivity|vm_compute; reflexivity|done|].
  constructor.
Qed.

Lemma checkSingle_correct_witness :
  (∃ l, checkSingle KvModel ShallowEqual 41 (makeEntries sortByTime (atKey "x" good)) true (λ _, false) = Some (true, l)) ∧
  linearizable KvModel (atKey "x" good).
Proof.
  destruct (checkSingle_correct KvModel ShallowEqual sortByTime (atKey "x" good) 41 true (λ _, false) sortByTime_sorts)
    as (b & l & Hc & Hb & _).
  - apply typed_wf. vm_compute. repeat constructor; cbn; try lia; by eexists.
  - intros s s'. apply bool_decide_eq_true.
  - vm_compute. repeat constructor.
  - assert (b = true) as -> by (vm_compute in Hc; congruence). split; [by exists l|by apply Hb].
Defined.

Lemma kv_locality_witness :
  kvPartition good = Some [atKey "x" good; atKey "y" good] ∧
  (linearizable MapModel good ↔ Forall (linearizable KvModel) [atKey "x" good; atKey "y" good]).
Proof.
  destruct (kv_locality good good_typed) as (parts & Hp & _ & Hl).
  assert (parts = [atKey "x" good; atKey "y" good]) as -> by (vm_compute in Hp; injection Hp as <-; vm_compute; reflexivity).
  by split.
Defined.

Lemma kv_check_correct_witness :
  (CheckOperations sortByTime KvModel good [ResultMsg true; ResultMsg true] = Some true ∧ linearizable MapModel good) ∧
  (CheckOperations sortByTime KvModel stale [ResultMsg false; ResultMsg false] = Some false ∧ ¬ linearizable MapModel stale).
Proof.
  split.
  - destruct (kv_check_correct sortByTime good [ResultMsg true; ResultMsg true] [] sortByTime_sorts good_typed ltac:(done)) as [H _].
    destruct (H arrive_good) as (b & Hc & Hb); [by intros [?|[?|?%elem_of_nil]%elem_of_cons]%elem_of_cons|].
    assert (b = true) as -> by (vm_compute in Hc; congruence). split; [done|by apply Hb].
  - destruct (kv_check_correct sortByTime stale [ResultMsg false; ResultMsg false] [] sortByTime_sorts stale_typed ltac:(done)) as [H _].
    destruct (H arrive_stale) as (b & Hc & Hb); [by intros [?|[?|?%elem_of_nil]%elem_of_cons]%elem_of_cons|].
    assert (b = false) as -> by (vm_compute in Hc; congruence). split; [done|]. intros Hl. by apply Hb in Hl.
Defined.

Lemma kv_check_empty_waits_witness : CheckOperations sortByTime KvModel [] [] = None.
Proof. apply kv_check_empty_waits; [constructor|apply not_elem_of_nil]. Defined.

End CheckerExamples.
