(* ===== verification/Visualize.v ===== *)
(** * What the checker shows ([porcupine/visualization.go])

    [computeVisualizationData] turns what a verbose check returns into the data of a web
    page: the operations, the partial linearizations with the states they go through, and
    for each operation the longest of them it is in.  The model's descriptions and
    [sort.Slice], which may reorder sequences of equal length, are arguments; a value
    missing from a map is nil, on which the model's functions panic.  [Visualize] and
    [VisualizePath] print the data as JSON into a page. *)

From S2P Require Import Prelude Bitset Porcupine LinkedList Linearize LinearSearch LinearCheck Histories LinearVerdict KvModel.

Record historyElement := mkElement { hClientId : Z; Start : Z; End_ : Z; Description : string }.
#[export] Instance eta_historyElement : Eta historyElement := λ e,
  mkElement (hClientId e) (Start e) (End_ e) (Description e).
#[export] Instance set_hClientId : Setter hClientId.
Proof. setter. Defined.
#[export] Instance set_Start : Setter Start.
Proof. setter. Defined.
#[export] Instance set_End_ : Setter End_.
Proof. setter. Defined.
#[export] Instance set_Description : Setter Description.
Proof. setter. Defined.

Record linearizationStep := mkStep { Index : Z; StateDescription : string }.
Notation partialLinearization := (list linearizationStep).

Record partitionVisualizationData := mkData {
  History : list historyElement;
  PartialLinearizations : list partialLinearization;
  Largest : gmap Z Z;
}.

Section visualize.
Context {V S : Type} (model : Model V S).
Context (DescribeOperation : V → V → option string) (DescribeState : S → string).
Context (sortPartials : list (list Z) → list (list Z)).

(** The variables of the loop over the entries. *)
Record Values := mkValues { elements : list historyElement; callValue : gmap Z V; returnValue : gmap Z V }.

Definition showEntry (acc : option Values) (elem : entry V) : option Values :=
  vs ← acc;
  h ← index (elements vs) (id elem);
  match kind elem with
  | callEntry =>
    hs ← store (elements vs) (id elem) (h <| hClientId := clientId elem |> <| Start := time elem |>);
    Some (mkValues hs (<[id elem := value elem]> (callValue vs)) (returnValue vs))
  | returnEntry =>
    input ← callValue vs !! id elem;
    desc ← DescribeOperation input (value elem);
    hs ← store (elements vs) (id elem) (h <| End_ := time elem |> <| Description := desc |>);
    Some (mkValues hs (callValue vs) (<[id elem := value elem]> (returnValue vs)))
  end.

Definition showHistory (E : list (entry V)) : option Values :=
  foldl showEntry (Some (mkValues (replicate (Z.to_nat (Z.quot (zlen E) 2)) (mkElement 0 0 0 "")) ∅ ∅)) E.

(** The variables of the loops over the partial linearizations: [largestSize] and [largestIndex]. *)
Notation Sizes := (gmap Z Z * gmap Z Z)%type.

Definition noteSize (i len histId : Z) (sz : Sizes) : Sizes :=
  if getz 0 sz.1 histId <? len then (<[histId := len]> sz.1, <[histId := i]> sz.2) else sz.

(** One partial linearization, from [state]. *)
Fixpoint showPartial (vs : Values) (i len : Z) (state : S) (partial : list Z) (sz : Sizes) : option (partialLinearization * Sizes) :=
  match partial with
  | [] => Some ([], sz)
  | histId :: partial =>
    input ← callValue vs !! histId; output ← returnValue vs !! histId;
    '(ok, state) ← Step model state input output;
    if (ok : bool) then
      '(steps, sz) ← showPartial vs i len state partial (noteSize i len histId sz);
      Some (mkStep histId (DescribeState state) :: steps, sz)
    else None
  end.

Fixpoint showPartials (vs : Values) (i : Z) (ps : list (list Z)) (sz : Sizes) : option (list partialLinearization * Sizes) :=
  match ps with
  | [] => Some ([], sz)
  | partial :: ps =>
    '(steps, sz) ← showPartial vs i (zlen partial) (Init model) partial sz;
    '(rest, sz) ← showPartials vs (i + 1) ps sz;
    Some (steps :: rest, sz)
  end.

Definition showPartition (E : list (entry V)) (ps : list (list Z)) : option partitionVisualizationData :=
  vs ← showHistory E;
  '(ls, sz) ← showPartials vs 0 (sortPartials ps) (∅, ∅);
  Some (mkData (elements vs) ls sz.2).

Definition computeVisualizationData (info : linearizationInfo (V := V)) : option (list partitionVisualizationData) :=
  mapM (λ p, E ← index (history info) p; ps ← index (partialLinearizations info) p; showPartition E ps)
       (upto (zlen (history info))).

(** The page with the data in it.  [marshal] is [json.Marshal], [page] what
    [fmt.Fprintf] makes of the text of the page and the data, [write] the output: what it
    then holds.  The inner [None] is an error that is returned. *)
Definition Visualize (marshal : list partitionVisualizationData → option string) (page : string → string)
    (write : string → option string) (info : linearizationInfo (V := V)) : option (option string) :=
  data ← computeVisualizationData info;
  Some (jsonData ← marshal data; write (page jsonData)).

(** [create] is [os.Create] on the path. *)
Definition VisualizePath (marshal : list partitionVisualizationData → option string) (page : string → string)
    (create : string → option (string → option string)) (info : linearizationInfo (V := V)) (path : string) : option (option string) :=
  match create path with
  | None => Some None
  | Some write => Visualize marshal page write info
  end.

(** ** The history is shown as it is *)

Definition shown (o : Operation V) : historyElement :=
  mkElement (ClientId o) (Call o) (Return o) (default EmptyString (DescribeOperation (Input o) (Output o))).

(** What is known of an operation when its call or its return were seen. *)
Definition partlyShown (o : Operation V) (called returned : bool) : historyElement :=
  mkElement (if called then ClientId o else 0) (if called then Call o else 0) (if returned then Return o else 0)
    (if returned then default EmptyString (DescribeOperation (Input o) (Output o)) else EmptyString).

Definition met (k : entryKind) (pre : list (entry V)) (a : Z) : bool :=
  bool_decide (Exists (λ e, kind e = k ∧ id e = a) pre).

Lemma met_snoc k pre e a : met k (pre ++ [e]) a = met k pre a || (bool_decide (kind e = k) && (id e =? a)).
Proof.
  unfold met. apply Bool.eq_true_iff_eq. rewrite orb_true_iff, andb_true_iff, !bool_decide_eq_true, Exists_app, Exists_cons, Z.eqb_eq.
  pose proof (Exists_nil (λ e : entry V, kind e = k ∧ id e = a)). tauto.
Qed.

Section made.
Context (sort : list (entry V) → list (entry V)) (Hsort : sorts sort) (hist : list (Operation V)).
Context (Htimes : ∀ o, o ∈ hist → Call o <= Return o).
Context (Hdesc : ∀ o, o ∈ hist → is_Some (DescribeOperation (Input o) (Output o))).
#[local] Notation E := (makeEntries sort hist).

(** The values after the entries [pre]. *)
Record seen (pre : list (entry V)) (vs : Values) : Prop := {
  se_length : length (elements vs) = length hist;
  se_shown : ∀ j o, hist !! j = Some o →
    elements vs !! j = Some (partlyShown o (met callEntry pre (Z.of_nat j)) (met returnEntry pre (Z.of_nat j))) ∧
    callValue vs !! Z.of_nat j = (if met callEntry pre (Z.of_nat j) then Some (Input o) else None) ∧
    returnValue vs !! Z.of_nat j = (if met returnEntry pre (Z.of_nat j) then Some (Output o) else None);
}.

(** A call is met before its return. *)
Lemma call_first pre e suf : E = pre ++ e :: suf → kind e = returnEntry → met callEntry pre (id e) = true.
Proof.
  intros HE Hk. apply bool_decide_eq_true. assert (E !! length pre = Some e) as He by (rewrite HE, lookup_app_r, Nat.sub_diag by lia; done).
  pose proof (made_wf sort Hsort hist Htimes) as W. destruct (we_pairs _ _ W (id e)) as (c & r & Hcr & (ec & Hec & Hkc & Hidc) & _ & Hu); [by eapply we_ids|].
  destruct (Hu _ _ He eq_refl) as [Hx|Hx]; [subst c; congruence|]. subst r. rewrite HE, lookup_app_l in Hec by done.
  apply Exists_exists. exists ec. split; [by eapply list_elem_of_lookup_2|done].
Qed.

Lemma showEntry_seen pre e suf vs : E = pre ++ e :: suf → seen pre vs → ∃ vs', showEntry (Some vs) e = Some vs' ∧ seen (pre ++ [e]) vs'.
Proof.
  intros HE [Hlen Hse]. assert (e ∈ E) as Hin by (rewrite HE; set_solver). apply (made_elem sort Hsort) in Hin as (j & o & Hj & Hoe).
  assert (id e = Z.of_nat j) as Hid by (by destruct Hoe as [->| ->]). destruct (Hse j o Hj) as (He & Hc & Hr).
  unfold showEntry. cbn [mbind option_bind]. rewrite Hid, index_lookup, Nat2Z.id, He by lia. cbn [mbind option_bind].
  assert (0 <= Z.of_nat j < zlen (elements vs)) as Hjr by (apply lookup_lt_Some in He; unfold zlen; lia).
  destruct (kind e) eqn:Hk.
  - rewrite store_is_Some by done. cbn [mbind option_bind]. eexists. split; [reflexivity|]. split; [cbn; by rewrite length_insert|]. cbn [elements callValue returnValue]. intros j' o' Hj'.
    destruct Hoe as [->| ->]; [|done]. cbn in *. rewrite !met_snoc. cbn. rewrite orb_false_r, Nat2Z.id. destruct (decide (j' = j)) as [->|Hne].
    + assert (o' = o) as -> by congruence. rewrite list_lookup_insert_eq, lookup_insert_eq, Z.eqb_refl, orb_true_r by (apply lookup_lt_Some in He; lia).
      split_and!; [|done..]. by destruct (met returnEntry pre (Z.of_nat j)).
    + rewrite list_lookup_insert_ne, lookup_insert_ne by lia. replace (Z.of_nat j =? Z.of_nat j') with false by lia. rewrite orb_false_r. by apply Hse.
  - pose proof (call_first pre e suf HE Hk) as Hcall. rewrite Hid in Hcall. rewrite Hc, Hcall. cbn [mbind option_bind].
    assert (value e = Output o) as -> by (destruct Hoe as [->| ->]; done). destruct (Hdesc o) as [desc Hdo]; [by eapply list_elem_of_lookup_2|]. rewrite Hdo. cbn [mbind option_bind].
    rewrite store_is_Some by done. cbn [mbind option_bind]. eexists. split; [reflexivity|]. split; [cbn; by rewrite length_insert|]. cbn [elements callValue returnValue]. intros j' o' Hj'.
    destruct Hoe as [->| ->]; [done|]. cbn in *. rewrite !met_snoc. cbn. rewrite orb_false_r, Nat2Z.id. destruct (decide (j' = j)) as [->|Hne].
    + assert (o' = o) as -> by congruence. rewrite list_lookup_insert_eq, lookup_insert_eq, Z.eqb_refl, orb_true_r by (apply lookup_lt_Some in He; lia).
      rewrite Hcall. split_and!; [unfold partlyShown; by rewrite Hdo|by rewrite Hc, Hcall|done].
    + rewrite list_lookup_insert_ne, lookup_insert_ne by lia. replace (Z.of_nat j =? Z.of_nat j') with false by lia. rewrite orb_false_r. by apply Hse.
Qed.

Lemma showHistory_ok : ∃ vs, showHistory E = Some vs ∧ elements vs = shown <$> hist ∧
  ∀ a o, index hist a = Some o → callValue vs !! a = Some (Input o) ∧ returnValue vs !! a = Some (Output o).
Proof.
  pose proof (made_wf sort Hsort hist Htimes) as W.
  assert (∀ suf pre vs, E = pre ++ suf → seen pre vs → ∃ vs', foldl showEntry (Some vs) suf = Some vs' ∧ seen E vs') as HF.
  { induction suf as [|e suf IH]; intros pre vs HE Hs; [rewrite app_nil_r in HE; exists vs; by rewrite HE|].
    destruct (showEntry_seen pre e suf vs HE Hs) as (vs' & Hv & Hs'). cbn [foldl]. rewrite Hv. apply (IH (pre ++ [e])); [by rewrite <-app_assoc|done]. }
  unfold showHistory. replace (Z.to_nat (Z.quot (zlen E) 2)) with (length hist).
  2: { unfold zlen. rewrite (we_length _ _ W), Z.quot_div_nonneg by lia. rewrite Nat2Z.inj_mul. change (Z.of_nat 2) with 2. rewrite Z.mul_comm, Z.div_mul by lia. lia. }
  destruct (HF E [] (mkValues (replicate (length hist) (mkElement 0 0 0 "")) ∅ ∅)) as (vs & Hv & [Hlen Hse]); [done| |].
  { split; [cbn; by rewrite length_replicate|]. intros j o Hj. cbn. rewrite lookup_replicate_2 by (by eapply lookup_lt_Some). by rewrite !lookup_empty. }
  assert (∀ k j o, hist !! j = Some o → met k E (Z.of_nat j) = true) as Hmet.
  { intros k j o Hj. apply bool_decide_eq_true, Exists_exists. destruct (made_pos sort Hsort hist j o Hj) as (c & r & Hc & Hr).
    destruct k; [exists (mkEntry callEntry (Input o) (Z.of_nat j) (Call o) (ClientId o))|exists (mkEntry returnEntry (Output o) (Z.of_nat j) (Return o) (ClientId o))];
      (split; [by eapply list_elem_of_lookup_2|done]). }
  exists vs. split_and!; [done| |].
  - apply list_eq. intros j. rewrite list_lookup_fmap. destruct (hist !! j) as [o|] eqn:Hj.
    + destruct (Hse j o Hj) as (-> & _). by rewrite !(Hmet _ _ _ Hj).
    + cbn. apply lookup_ge_None in Hj. apply lookup_ge_None. lia.
  - intros a o [Ha Hj]%index_Some. destruct (Hse _ o Hj) as (_ & Hc & Hr). rewrite !(Hmet _ _ _ Hj), Z2Nat.id in * by done. done.
Qed.

(** ** Partial linearizations replay *)

Lemma showPartial_ok vs q ops state i len sz :
  (∀ a o, index hist a = Some o → callValue vs !! a = Some (Input o) ∧ returnValue vs !! a = Some (Output o)) →
  Forall2 (λ a o, index hist a = Some o) q ops → accepted model state ops = true →
  ∃ steps, showPartial vs i len state q sz = Some (steps, foldl (λ sz a, noteSize i len a sz) sz q) ∧ Index <$> steps = q.
Proof.
  intros Hv HF. revert state sz. induction HF as [|a o q ops Ha _ IH]; intros state sz Hacc; [by exists []|]. cbn [showPartial accepted foldl] in *.
  destruct (Hv a o Ha) as [-> ->]. cbn [mbind option_bind]. destruct (Step model state (Input o) (Output o)) as [[[] state']|]; [|done..]. cbn [mbind option_bind].
  destruct (IH state' (noteSize i len a sz) Hacc) as (steps & -> & Hs). cbn [mbind option_bind]. eexists. split; [reflexivity|]. cbn. by rewrite Hs.
Qed.
End made.

Lemma noteSizes i len q sz a :
  let sz' := foldl (λ sz a, noteSize i len a sz) sz q in
  sz'.1 !! a = (if decide (a ∈ q ∧ getz 0 sz.1 a < len) then Some len else sz.1 !! a) ∧
  sz'.2 !! a = (if decide (a ∈ q ∧ getz 0 sz.1 a < len) then Some i else sz.2 !! a).
Proof.
  cbv zeta. revert sz. induction q as [|b q IH]; intros sz; cbn [foldl].
  { rewrite !decide_False by (by intros [?%elem_of_nil _]). done. }
  destruct (IH (noteSize i len b sz)) as [-> ->]. unfold noteSize, getz. destruct (Z.ltb_spec (default 0 (sz.1 !! b)) len) as [Hlt|Hge]; cbn [fst snd].
  - destruct (decide (a = b)) as [->|Hne].
    + rewrite !lookup_insert_eq. destruct (decide (b ∈ b :: q ∧ _)) as [_|Hd]; [by repeat case_decide|]. exfalso. apply Hd. split; [by left|done].
    + rewrite !lookup_insert_ne by congruence. destruct (decide (a ∈ q ∧ _)) as [Hd|Hd], (decide (a ∈ b :: q ∧ _)) as [Hd'|Hd']; try done; set_solver.
  - destruct (decide (a ∈ q ∧ _)) as [Hd|Hd], (decide (a ∈ b :: q ∧ _)) as [Hd'|Hd']; try done; [set_solver|].
    exfalso. destruct Hd' as [[->|?]%elem_of_cons ?]; [lia|tauto].
Qed.

(** [sz] is right for the sequences [qs]. *)
Definition sized (qs : list (list Z)) (sz : Sizes) : Prop :=
  ∀ a, (sz.2 !! a = None → sz.1 !! a = None ∧ ∀ q, q ∈ qs → a ∉ q) ∧
    ∀ i, sz.2 !! a = Some i → ∃ q, index qs i = Some q ∧ a ∈ q ∧ sz.1 !! a = Some (zlen q) ∧ ∀ q', q' ∈ qs → a ∈ q' → zlen q' <= zlen q.

Lemma sized_snoc qs q sz : sized qs sz → sized (qs ++ [q]) (foldl (λ sz a, noteSize (zlen qs) (zlen q) a sz) sz q).
Proof.
  intros Hs a. destruct (Hs a) as [HN HS]. destruct (noteSizes (zlen qs) (zlen q) q sz a) as [-> ->]. case_decide as Hd.
  - split; [done|]. intros i [= <-]. exists q. rewrite index_app_r, Z.sub_diag by lia. split_and!; [done|tauto|done|].
    intros q' [Hq'| ->%list_elem_of_singleton]%elem_of_app Ha; [|lia]. unfold getz in Hd. destruct (sz.2 !! a) as [i|] eqn:Ei; [|by destruct (HN eq_refl) as [_ Hno]; destruct (Hno q')].
    destruct (HS i eq_refl) as (q0 & _ & _ & Hz & Hmax). rewrite Hz in Hd. cbn in Hd. specialize (Hmax q' Hq' Ha). unfold Datatypes.id in *. lia.
  - split.
    + intros Hn. destruct (HN Hn) as [Hz Hno]. split; [done|]. intros q' [Hq'| ->%list_elem_of_singleton]%elem_of_app; [by apply Hno|]. intros Ha. apply Hd. split; [done|].
      unfold getz. rewrite Hz. cbn. apply list_elem_of_split in Ha as (? & ? & ->). rewrite zlen_app, zlen_cons. pose proof (zlen_nonneg x). pose proof (zlen_nonneg x0). unfold Datatypes.id. lia.
    + intros i Hi. destruct (HS i Hi) as (q0 & Hq0 & Ha0 & Hz & Hmax). exists q0. pose proof (index_lt _ _ _ Hq0). rewrite index_app_l by lia. split_and!; [done..|].
      intros q' [Hq'| ->%list_elem_of_singleton]%elem_of_app Ha; [by apply Hmax|]. unfold getz in Hd. rewrite Hz in Hd. cbn in Hd. unfold Datatypes.id in *. apply Z.nlt_ge. tauto.
Qed.

Lemma showPartials_ok hist vs before qs sz :
  (∀ a o, index hist a = Some o → callValue vs !! a = Some (Input o) ∧ returnValue vs !! a = Some (Output o)) →
  (∀ q, q ∈ qs → linearizable_prefix model hist q) → sized before sz →
  ∃ ls sz', showPartials vs (zlen before) qs sz = Some (ls, sz') ∧ map (map Index) ls = qs ∧ sized (before ++ qs) sz'.
Proof.
  intros Hv. revert before sz. induction qs as [|q qs IH]; intros before sz Hq Hs; [exists [], sz; by rewrite app_nil_r|]. cbn [showPartials].
  destruct (Hq q) as (_ & (ops & HF & _ & Hacc) & _); [by left|].
  destruct (showPartial_ok hist vs q ops (Init model) (zlen before) (zlen q) sz Hv HF Hacc) as (steps & -> & Hst). cbn [mbind option_bind].
  destruct (IH (before ++ [q]) _ (λ q' H, Hq q' (list_elem_of_further _ _ _ H)) (sized_snoc before q sz Hs)) as (ls & sz' & Hls & Hix & Hs').
  rewrite zlen_app in Hls. change (zlen [q]) with 1 in Hls. rewrite Hls. cbn [mbind option_bind]. exists (steps :: ls), sz'. split_and!; [done| |].
  - cbn. f_equal; [exact Hst|exact Hix].
  - by rewrite <-app_assoc in Hs'.
Qed.

Lemma partials_elem (l : list (option seqPtr)) q : q ∈ partials l → ∃ i k, l !! i = Some (Some (k, q)).
Proof.
  unfold partials. intros ([k q'] & -> & Hk%elem_of_map_to_list)%list_elem_of_fmap. apply elem_of_list_to_map_2 in Hk.
  apply list_elem_of_omap in Hk as (x & Hx & ->). apply list_elem_of_lookup in Hx as [i Hi]. eauto.
Qed.

Lemma partials_replicate k q m : (0 < m)%nat → partials (replicate m (Some (k, q))) = [q].
Proof.
  intros Hm. unfold partials. assert (list_to_map (omap (λ x, x) (replicate m (Some (k, q)))) = ({[k := q]} : gmap nat (list Z))) as ->.
  { assert (omap (λ x, x) (replicate m (Some (k, q))) = replicate m (k, q)) as -> by (clear; induction m as [|m IH]; [done|cbn; by f_equal]).
    destruct m as [|m]; [lia|]. clear Hm. induction m as [|m IH]; [done|]. rewrite replicate_S, list_to_map_cons, IH. cbn. apply insert_singleton_eq. }
  by rewrite map_to_list_singleton.
Qed.

(** C40: What a verbose check of a history shows.  On the entries of the history and
    the sequences [checkSingle] notes, [computeVisualizationData] does not panic: every
    sequence replays in the model.  The page lists the operations with their clients,
    times and descriptions, in order; the sequences noted, in the order [sort.Slice]
    puts them; and for an operation the number of a longest sequence it is in.  For a
    linearizable history every operation has one. *)
Theorem visualization_faithful (equal : S → S → bool) (sort : list (entry V) → list (entry V)) (hist : list (Operation V)) fuel :
  sorts sort → wf_history model hist → (∀ s s', equal s s' = true → s = s') → (enoughFor (length hist) <= fuel)%nat →
  (∀ o, o ∈ hist → is_Some (DescribeOperation (Input o) (Output o))) → (∀ ps, sortPartials ps ≡ₚ ps) →
  ∃ b l d, checkSingle model equal fuel (makeEntries sort hist) true (λ _, false) = Some (b, l) ∧
    computeVisualizationData (mkInfo [makeEntries sort hist] [partials l]) = Some [d] ∧
    History d = shown <$> hist ∧ map (map Index) (PartialLinearizations d) = sortPartials (partials l) ∧
    (∀ a i, Largest d !! a = Some i → ∃ q, index (sortPartials (partials l)) i = Some q ∧ a ∈ q ∧
       ∀ q', q' ∈ partials l → a ∈ q' → zlen q' <= zlen q) ∧
    (b = true → ∀ j, 0 <= j < zlen hist → is_Some (Largest d !! j)).
Proof.
  intros Hs Hw He Hf Hd Hp. destruct (single_notes model equal sort hist fuel true Hs Hw He Hf) as (b & l & HC & Hlen & Hnote & Hfull).
  destruct (showHistory_ok sort Hs hist (wh_times _ _ Hw) Hd) as (vs & Hvs & Hel & Hv).
  destruct (showPartials_ok hist vs [] (sortPartials (partials l)) (∅, ∅) Hv) as (ls & sz & Hls & Hix & Hsz).
  { intros q Hq. rewrite Hp in Hq. apply partials_elem in Hq as (i & k & Hi). by apply (Hnote _ _ _ Hi). }
  { intros a. cbn. rewrite lookup_empty. split; [|done]. intros _. split; [done|]. by intros q ?%elem_of_nil. }
  cbn [app] in Hsz. change (zlen []) with 0 in Hls. exists b, l, (mkData (elements vs) ls sz.2).
  split_and!; [done| |done|done| |].
  - change (computeVisualizationData _) with (d ← showPartition (makeEntries sort hist) (partials l); Some [d]).
    unfold showPartition. rewrite Hvs. cbn [mbind option_bind]. by rewrite Hls.
  - intros a i Hi. destruct (Hsz a) as [_ HS]. destruct (HS i Hi) as (q & ? & ? & _ & Hmax). exists q. split_and!; [done..|]. intros q' Hq'. apply Hmax. by rewrite Hp.
  - intros -> j Hj. destruct (Hfull eq_refl) as (k & q & -> & Hq). destruct (Hsz j) as [HN _]. destruct (sz.2 !! j) as [i|] eqn:Ei; [by exists i|]. exfalso.
    destruct (HN eq_refl) as [_ Hno]. apply (Hno q).
    + rewrite Hp, partials_replicate by (unfold zlen in Hj; lia). by left.
    + destruct (Hnote (Z.to_nat j) k q) as [Hin _]; [apply lookup_replicate_2; unfold zlen in Hj; lia|]. by rewrite Z2Nat.id in Hin by lia.
Qed.

End visualize.

Module VisualizeExamples.
Import CheckerExamples.

(** Longest first. *)
Definition longer (p q : list Z) : Prop := (length q <= length p)%nat.
#[local] Instance longer_dec p q : Decision (longer p q).
Proof. unfold longer. apply _. Defined.
Definition byLength : list (list Z) → list (list Z) := merge_sort longer.

(** A put and a get that overlap. *)
Lemma visualization_faithful_witness :
  ∃ l d, checkSingle KvModel ShallowEqual 41 (makeEntries sortByTime (atKey "x" good)) true (λ _, false) = Some (true, l) ∧
    computeVisualizationData KvModel kvDescribeOperation (λ s, s) byLength (mkInfo [makeEntries sortByTime (atKey "x" good)] [partials l]) = Some [d] ∧
    Description <$> History d = ["put('x', 'a')"; "get('x') -> 'a'"]%string ∧ is_Some (Largest d !! 1).
Proof.
  assert (Forall kv_typed (atKey "x" good)) as Ht by (vm_compute; repeat constructor; cbn; try lia; by eexists).
  destruct (visualization_faithful KvModel kvDescribeOperation (λ s, s) byLength ShallowEqual sortByTime (atKey "x" good) 41 sortByTime_sorts)
    as (b & l & d & Hc & Hd & Hh & _ & _ & Hb).
  - apply typed_wf. exact Ht.
  - intros s s'. apply bool_decide_eq_true.
  - vm_compute. repeat constructor.
  - intros o Ho. rewrite Forall_forall in Ht. destruct (Ht o Ho) as [[i Hi] [out Hout] _]. unfold kvDescribeOperation. rewrite Hi, Hout. by eexists.
  - intros ps. apply merge_sort_Permutation.
  - assert (b = true) as -> by (vm_compute in Hc; congruence). exists l, d. split_and!; [exact Hc|exact Hd|rewrite Hh; reflexivity|].
    apply Hb; [reflexivity|vm_compute; split; congruence].
Defined.

End VisualizeExamples.
