(* ===== verification/Recording.v ===== *)
(** * Clients that record what they see

    The clients of the tests note when a call of their clerk began and ended and what
    it returned ([Get], [Put] and [Append] of kvraft/test_test.go, the loop of
    [TestUnreliable3] in shardkv/test_test.go), and hand the list to the checker of
    [Porcupine].  Here the clients, for any service, and how a history is shown to be
    linearizable: by giving every operation a number. *)

From S2P Require Import Prelude Bitset Porcupine LinkedList Linearize LinearSearch LinearCheck Histories LinearVerdict KvModel Dedup.

(** ** The clients *)

(** The input a request is recorded with. *)
Class Recorded (Op : Type) := inputOf : Op → KvInput.

Section clients.
Context {Op : Type} `{!Request Op} `{!EqDecision Op} `{!Recorded Op}.

(** What a client remembers of a call: the number it records and the time. *)
Record Stamp := mkStamp { cli : Z; start : Z }.

Inductive Phase :=
  | Calling (st : Stamp)                           (* the clock is read, the clerk not yet called *)
  | Waiting (st : Stamp) (op : Op)                 (* the clerk sends and retries [op] *)
  | Answered (st : Stamp) (op : Op) (out : string) (* the clerk has its reply *).

Record Clients := mkClients {
  now : Z;
  calls : gmap Z Phase;            (* by clerk *)
  operations : list (Operation kvval);
}.

(** The operation a client appends to the log of operations. *)
Definition logged (st : Stamp) (op : Op) (out : string) (finish : Z) : Operation kvval :=
  mkOperation (cli st) (VInput (inputOf op)) (start st) (VOutput (mkKvOutput out)) finish.

Inductive ClientEvent :=
  | CTick (t : Z)
  | CBegin (c : Z) (cli : Z)
  | CIssue (op : Op)
  | CAnswer (op : Op) (out : string)
  | CEnd (c : Z).

(** One client moves, or time passes. *)
Definition clientStep (ev : ClientEvent) (C : Clients) : option Clients :=
  match ev with
  | CTick t => if now C <=? t then Some (mkClients t (calls C) (operations C)) else None
  | CBegin c n =>
    match calls C !! c with
    | None => Some (mkClients (now C) (<[c := Calling (mkStamp n (now C))]> (calls C)) (operations C))
    | Some _ => None
    end
  | CIssue op =>
    match calls C !! client op with
    | Some (Calling st) => Some (mkClients (now C) (<[client op := Waiting st op]> (calls C)) (operations C))
    | _ => None
    end
  | CAnswer op out =>
    match calls C !! client op with
    | Some (Waiting st op') =>
      if decide (op' = op) then Some (mkClients (now C) (<[client op := Answered st op out]> (calls C)) (operations C))
      else None
    | _ => None
    end
  | CEnd c =>
    match calls C !! c with
    | Some (Answered st op out) =>
      Some (mkClients (now C) (delete c (calls C)) (operations C ++ [logged st op out (now C)]))
    | _ => None
    end
  end.

(** The events that are the clients' own. *)
Definition clientOnly (ev : ClientEvent) : bool :=
  match ev with CTick _ | CBegin _ _ | CEnd _ => true | _ => false end.

End clients.

Arguments Phase : clear implicits.
Arguments Clients : clear implicits.
Arguments ClientEvent : clear implicits.

(** ** Lists in the order of a number *)

Section blocks.
Context {A : Type} (f : A → nat) (l : list A).

Fixpoint blocks (n : nat) : list A :=
  match n with O => [] | S n => blocks n ++ filter (λ x, f x = n) l end.

Lemma filter_lt_S n : filter (λ x, (f x < S n)%nat) l ≡ₚ filter (λ x, (f x < n)%nat) l ++ filter (λ x, f x = n) l.
Proof.
  induction l as [|x l' IH]; [done|]. rewrite !filter_cons. destruct (decide (f x = n)).
  - rewrite decide_True, decide_False by lia. rewrite IH. by rewrite Permutation_middle.
  - destruct (decide (f x < n)%nat); [rewrite decide_True by lia|rewrite decide_False by lia; done]. cbn. by rewrite IH.
Qed.

Lemma blocks_filter n : blocks n ≡ₚ filter (λ x, (f x < n)%nat) l.
Proof.
  induction n as [|n IH]; cbn; [by rewrite filter_none by lia|]. by rewrite filter_lt_S, IH.
Qed.

Lemma blocks_perm n : (∀ x, x ∈ l → (f x < n)%nat) → blocks n ≡ₚ l.
Proof. intros Hl. rewrite blocks_filter. by rewrite filter_all. Qed.

Lemma blocks_sorted n : StronglySorted (λ x y, (f x <= f y)%nat) (blocks n).
Proof.
  induction n as [|n IH]; cbn; [constructor|]. apply StronglySorted_app. split_and!; [|done|].
  - intros x y Hx [<- _]%list_elem_of_filter. rewrite blocks_filter in Hx. apply list_elem_of_filter in Hx. lia.
  - assert (∀ x y, x ∈ filter (λ x, f x = n) l → y ∈ filter (λ x, f x = n) l → (f x <= f y)%nat) as Hn.
    { intros x y [-> _]%list_elem_of_filter [-> _]%list_elem_of_filter. done. }
    induction (filter _ l) as [|x k IHk]; constructor.
    + apply IHk. intros y z Hy Hz. apply Hn; by right.
    + apply Forall_forall. intros y Hy. apply Hn; [by left|by right].
Qed.
End blocks.

Lemma NoDup_fmap_elem {A B} (f : A → B) l x y : NoDup (f <$> l) → x ∈ l → y ∈ l → f x = f y → x = y.
Proof.
  intros HN [i Hi]%list_elem_of_lookup [j Hj]%list_elem_of_lookup Hf.
  assert (i = j) as ->; [|congruence].
  eapply NoDup_lookup; [exact HN|by rewrite list_lookup_fmap, Hi|]. rewrite list_lookup_fmap, Hj. cbn. by rewrite Hf.
Qed.

(** ** Linearizability *)

(** The state after a sequence of operations, if all are accepted. *)
Fixpoint runs (m : gmap string string) (ops : list (Operation kvval)) : option (gmap string string) :=
  match ops with
  | [] => Some m
  | o :: ops => match mapStep m (Input o) (Output o) with Some (true, m') => runs m' ops | _ => None end
  end.

Lemma runs_app m ops ops' : runs m (ops ++ ops') = m' ← runs m ops; runs m' ops'.
Proof. revert m. induction ops as [|o ops IH]; intros m; [done|]. cbn. destruct (mapStep _ _ _) as [[[] ?]|]; done. Qed.

Lemma runs_accepted m ops m' : runs m ops = Some m' → accepted MapModel m ops = true.
Proof. revert m. induction ops as [|o ops IH]; intros m; [done|]. cbn. destruct (mapStep _ _ _) as [[[] ?]|]; try done. apply IH. Qed.

(** Operations that are numbered as they happened, and accepted in the order of the
    numbers: the state before number [n] is [st n]. *)
Lemma blocks_linearizable {A} (entry : A → Operation kvval) (E : list A) (num : A → nat) (st : nat → gmap string string) N :
  st 0%nat = ∅ → (∀ x, x ∈ E → (num x < N)%nat) →
  (∀ x y, x ∈ E → y ∈ E → precedes (entry y) (entry x) → (num y < num x)%nat) →
  (∀ n, (n < N)%nat → runs (st n) (entry <$> filter (λ x, num x = n) E) = Some (st (S n))) →
  linearizable MapModel (entry <$> E).
Proof.
  intros H0 Hlt Hord Hruns. exists (entry <$> blocks num E N). split_and!.
  - by rewrite blocks_perm.
  - pose proof (blocks_sorted num E N) as HS. unfold in_order.
    assert (∀ x, x ∈ blocks num E N → x ∈ E) as Hin by (intros x Hx; by rewrite blocks_perm in Hx).
    induction HS as [|x l HS IH HF]; [constructor|]. constructor; [apply IH; intros y Hy; apply Hin; by right|].
    apply Forall_fmap, Forall_forall. intros y Hy Hp. rewrite Forall_forall in HF. specialize (HF y Hy).
    apply Hord in Hp; [lia|apply Hin; by left|apply Hin; by right].
  - apply (runs_accepted _ _ (st N)). assert (∀ n, (n <= N)%nat → runs ∅ (entry <$> blocks num E n) = Some (st n)) as HR; [|by apply HR].
    induction n as [|n IH]; intros Hn; [by rewrite <-H0|]. cbn [blocks]. rewrite fmap_app, runs_app, IH by lia. apply Hruns. lia.
Qed.
