(* ===== verification/KvHistory.v ===== *)
(** * The histories kvraft's clients record

    The clients of the tests (kvraft/test_test.go, [Get], [Put], [Append]) note when
    a call of their clerk began and ended and what it returned, and hand the list to
    the checker of [Porcupine].  Here the clients are put on top of [KVRaft]'s
    system of requests, log and servers: every history they can record is
    linearizable, so the checker accepts it. *)

From S2P Require Import Prelude Bitset Porcupine LinkedList Linearize LinearSearch LinearCheck Histories LinearVerdict KvModel.
From S2P Require Import LabGob Persister Raft RaftApi Dedup KVRaft Recording.

(** ** The clients *)

(** What a client records as the input of a request. *)
#[export] Instance kvInput : Recorded Op := λ op,
  if IsGetOp op then mkKvInput 0 (ga_Key (GetArg op)) EmptyString
  else let a := PutAppendArg op in
    mkKvInput (if String.eqb (pa_Op a) T_PUT then 1 else 2) (pa_Key a) (pa_Value a).

#[export] Instance getargs_eq : EqDecision GetArgs.
Proof. solve_decision. Defined.
#[export] Instance putargs_eq : EqDecision PutAppendArgs.
Proof. solve_decision. Defined.
#[export] Instance op_eq : EqDecision Op.
Proof. solve_decision. Defined.

(** The requests clerks make: [Get], [Put] and [Append]. *)
Definition clerk_op (op : Op) : Prop :=
  if IsGetOp op then op = getOp (GetArg op)
  else op = putOp (PutAppendArg op) ∧ (pa_Op (PutAppendArg op) = T_PUT ∨ pa_Op (PutAppendArg op) = T_APPEND).
#[export] Instance clerk_op_dec op : Decision (clerk_op op).
Proof. unfold clerk_op. destruct (IsGetOp op); apply _. Defined.

Section history.
Context {R : Type} `{!RaftApi Op R}.
Implicit Types (op : Op) (kv : KVServer R) (L : list Op).

(** A server's successful reply, with the value a Get returns. *)
Inductive replies : Op → KVServer R → string → Prop :=
  | reply_put_dup a kv kv' : PutAppendBegin a kv = Some (kv', inl (mkPAReply true)) → replies (putOp a) kv EmptyString
  | reply_put a t kv : PutAppendResume a t kv = Some (mkPAReply true) → replies (putOp a) kv EmptyString
  | reply_get_dup a kv kv' v : GetBegin a kv = Some (kv', inl (mkGetReply v true)) → replies (getOp a) kv v
  | reply_get a t kv v : GetResume a t kv = Some (mkGetReply v true) → replies (getOp a) kv v.

Record HSys := mkHSys { sys : Sys; clients : Clients Op }.

(** The system of [KVRaft] driven by the clients. *)
Inductive hstep : HSys → HSys → Prop :=
  | h_client ev s C C' : clientOnly ev = true → clientStep ev C = Some C' → hstep (mkHSys s C) (mkHSys s C')
  | h_issue op s C C' :
    clerk_op op → clientStep (CIssue op) C = Some C' → reqno op = completed (issued s) (client op) + 1 →
    hstep (mkHSys s C)
      (mkHSys (mkSys (op :: sent s) (clog s) (<[client op := op]> (pending s)) (<[client op := reqno op]> (issued s)) (acked s)) C')
  | h_commit op s C :
    op ∈ sent s → hstep (mkHSys s C) (mkHSys (mkSys (sent s) (clog s ++ [op]) (pending s) (issued s) (acked s)) C)
  | h_answer op out k kv s C C' :
    clientStep (CAnswer op out) C = Some C' → (k <= length (clog s))%nat → serves (clog s) k kv → replies op kv out →
    hstep (mkHSys s C)
      (mkHSys (mkSys (sent s) (clog s) (delete (client op) (pending s)) (issued s) (op :: acked s)) C').

Definition hsys0 : HSys := mkHSys sys0 (mkClients 0 ∅ []).

Lemma replies_acknowledges op kv out : replies op kv out → acknowledges op kv.
Proof. by intros []; econstructor. Qed.

(** A Get returns the value the server holds. *)
Lemma replies_value op kv out : replies op kv out → IsGetOp op = true → out = getValue (KVMap kv) (ga_Key (GetArg op)).
Proof.
  intros [] Hg; try done; cbn.
  - unfold GetBegin in H. destruct (negb _); [done|]. destruct (_ <=? _); [by simplify_eq|].
    inv_bind H. destruct x as [? [[? ?] []]]; by simplify_eq/=.
  - unfold GetResume in H. inv_bind H. by destruct x; simplify_eq.
Qed.

(** ** The order of the log *)

(** A finished or answered call, with what the proof needs to place it: how long the
    log was when the call began and how much of it the server that answered had
    applied. *)
Record Placed := mkPlaced { p_stamp : Stamp; p_op : Op; p_out : string; p_floor : nat; p_applied : nat }.

Record Ghost := mkGhost { floors : gmap Z nat; applied : gmap Z nat; ended : list (Placed * Z) }.

Definition logged_of (x : Placed * Z) : Operation kvval := logged (p_stamp x.1) (p_op x.1) (p_out x.1) x.2.

(** The call is in the log, after its beginning and before its reply. *)
Record placed L (x : Placed) : Prop := {
  pl_floor : (p_floor x <= length L)%nat;
  pl_applied : (p_applied x <= length L)%nat;
  pl_after : p_op x ∉ take (p_floor x) L;
  pl_before : p_op x ∈ take (p_applied x) L;
  pl_clerk : clerk_op (p_op x);
  pl_value : IsGetOp (p_op x) = true →
    p_out x = getValue (kv_spec (firsts [] (take (p_applied x) L))) (ga_Key (GetArg (p_op x)));
}.

(** Nothing that had ended by the time [st] was taken saw more of the log than [f]. *)
Definition begun (C : Clients Op) (g : Ghost) L (st : Stamp) (f : nat) : Prop :=
  start st <= now C ∧ (f <= length L)%nat ∧
  ∀ y t, (y, t) ∈ ended g → t < start st → (p_applied y <= f)%nat.

Definition phase_ok (s : Sys) (C : Clients Op) (g : Ghost) (c : Z) (ph : Phase Op) : Prop :=
  ∃ f, floors g !! c = Some f ∧
  match ph with
  | Calling st => begun C g (clog s) st f ∧ pending s !! c = None
  | Waiting st op => begun C g (clog s) st f ∧ pending s !! c = Some op ∧ client op = c ∧ op ∉ take f (clog s) ∧
      op ∉ (p_op ∘ fst) <$> ended g ∧ clerk_op op
  | Answered st op out => begun C g (clog s) st f ∧ pending s !! c = None ∧ client op = c ∧ op ∈ sent s ∧
      op ∉ (p_op ∘ fst) <$> ended g ∧ ∃ k, applied g !! c = Some k ∧ placed (clog s) (mkPlaced st op out f k)
  end.

(** Where a request that was sent is now. *)
Definition accounted (C : Clients Op) (g : Ghost) op : Prop :=
  (∃ st, calls C !! client op = Some (Waiting st op)) ∨
  (∃ st out, calls C !! client op = Some (Answered st op out)) ∨
  op ∈ (p_op ∘ fst) <$> ended g.

Record HInv (h : HSys) (g : Ghost) : Prop := {
  hi_sys : SInv (sys h);
  hi_unique : ∀ op op', op ∈ sent (sys h) → op' ∈ sent (sys h) → same_request op op' → op = op';
  hi_account : ∀ op, op ∈ sent (sys h) → accounted (clients h) g op;
  hi_idle : ∀ c, calls (clients h) !! c = None → pending (sys h) !! c = None;
  hi_calls : ∀ c ph, calls (clients h) !! c = Some ph → phase_ok (sys h) (clients h) g c ph;
  hi_ended : ∀ x t, (x, t) ∈ ended g → placed (clog (sys h)) x ∧ begun (clients h) g (clog (sys h)) (p_stamp x) (p_floor x) ∧
    p_op x ∈ sent (sys h) ∧ start (p_stamp x) <= t <= now (clients h);
  hi_once : NoDup ((p_op ∘ fst) <$> ended g);
  hi_logged : operations (clients h) = logged_of <$> ended g;
}.

(** ** The invariant is kept *)

Lemma placed_prefix L L' x : L `prefix_of` L' → placed L x → placed L' x.
Proof.
  intros [k ->] []. split; rewrite ?length_app, ?take_app_le by done; auto with lia.
Qed.

(** What may happen to the rest of the system without touching client [c]. *)
Record evolves (s : Sys) (C : Clients Op) (g : Ghost) (s' : Sys) (C' : Clients Op) (g' : Ghost) : Prop := {
  ev_log : clog s `prefix_of` clog s';
  ev_sent : ∀ op, op ∈ sent s → op ∈ sent s';
  ev_now : now C <= now C';
  ev_ended : ∀ y t, (y, t) ∈ ended g' → (y, t) ∈ ended g ∨ t = now C;
}.

Lemma begun_evolves s C g s' C' g' st f :
  evolves s C g s' C' g' → begun C g (clog s) st f → begun C' g' (clog s') st f.
Proof.
  intros [[k Hk] _ Hn He] (Hs & Hf & Hb). rewrite Hk. split_and!; [lia|rewrite length_app; lia|].
  intros y t [Hy| ->]%He Ht; [by eapply Hb|lia].
Qed.

Lemma not_ended g g' c op :
  client op = c → op ∉ (p_op ∘ fst) <$> ended g → (∀ y t, (y, t) ∈ ended g' → (y, t) ∈ ended g ∨ client (p_op y) ≠ c) →
  op ∉ (p_op ∘ fst) <$> ended g'.
Proof.
  intros Hc Hn He ([y t] & -> & Hy)%list_elem_of_fmap. apply He in Hy as [Hy|Hy]; [|done].
  apply Hn, list_elem_of_fmap. by exists (y, t).
Qed.

Lemma phase_evolves s C g s' C' g' c ph :
  evolves s C g s' C' g' → pending s' !! c = pending s !! c → floors g' !! c = floors g !! c → applied g' !! c = applied g !! c →
  (∀ y t, (y, t) ∈ ended g' → (y, t) ∈ ended g ∨ client (p_op y) ≠ c) →
  phase_ok s C g c ph → phase_ok s' C' g' c ph.
Proof.
  intros X Hp Hf Ha He (f & Hfl & Hph). exists f. split; [by rewrite Hf|]. pose proof X as [[k Hk] Hsent _ _].
  destruct ph as [st|st op|st op out]; rewrite Hp.
  - destruct Hph. split; [by eapply begun_evolves|done].
  - destruct Hph as (Hb & ? & ? & Hn & ? & ?). pose proof Hb as (_ & Hle & _). split_and!; [by eapply begun_evolves|done|done| |by eapply not_ended|done].
    by rewrite Hk, take_app_le.
  - destruct Hph as (Hb & ? & ? & ? & ? & n & Hn & Hpl). split_and!; [by eapply begun_evolves|done|done|by apply Hsent|by eapply not_ended|].
    exists n. rewrite Ha. split; [done|]. eapply placed_prefix; [by exists k|done].
Qed.

Lemma ended_evolves s C g s' C' g' x t :
  evolves s C g s' C' g' →
  placed (clog s) x ∧ begun C g (clog s) (p_stamp x) (p_floor x) ∧ p_op x ∈ sent s ∧ start (p_stamp x) <= t <= now C →
  placed (clog s') x ∧ begun C' g' (clog s') (p_stamp x) (p_floor x) ∧ p_op x ∈ sent s' ∧ start (p_stamp x) <= t <= now C'.
Proof.
  intros X (H1 & H2 & H3 & H4). pose proof X as [Hl Hs Hn _].
  split_and!; [by eapply placed_prefix|by eapply begun_evolves|by apply Hs|lia|lia].
Qed.

Lemma evolves_clients s C g C' g' :
  now C <= now C' → (∀ y t, (y, t) ∈ ended g' → (y, t) ∈ ended g ∨ t = now C) → evolves s C g s C' g'.
Proof. by split. Qed.

Lemma HInv_tick s C g t :
  HInv (mkHSys s C) g → now C <= t → HInv (mkHSys s (mkClients t (calls C) (operations C))) g.
Proof.
  intros I Ht. set (C' := mkClients t (calls C) (operations C)).
  assert (evolves s C g s C' g) as X by (apply evolves_clients; [done|auto]). destruct I. split; cbn in *; try done.
  - intros c ph Hc. eapply phase_evolves; eauto.
  - intros x u Hx. eapply ended_evolves; eauto.
Qed.

Lemma HInv_begin s C g c n :
  HInv (mkHSys s C) g → calls C !! c = None →
  HInv (mkHSys s (mkClients (now C) (<[c := Calling (mkStamp n (now C))]> (calls C)) (operations C)))
    (mkGhost (<[c := length (clog s)]> (floors g)) (applied g) (ended g)).
Proof.
  intros I Hc. set (C' := mkClients _ _ _). set (g' := mkGhost _ _ _).
  assert (evolves s C g s C' g') as X by (apply evolves_clients; [done|auto]). destruct I as [I1 I2 I3 I4 I5 I6 I7 I8]. split; cbn in *; try done.
  - intros op Hop. destruct (I3 op Hop) as [[st Hst]|[(st & out & Hst)|He]]; [left; exists st|right; left; exists st, out|by do 2 right];
      cbn; (rewrite lookup_insert_ne; [done|congruence]).
  - intros c' [Hc' _]%lookup_insert_None. by apply I4.
  - intros c' ph [[<- <-]|[Hne Hph]]%lookup_insert_Some.
    + exists (length (clog s)). split; [apply lookup_insert_eq|]. split; [|by apply I4]. split_and!; [cbn; lia|lia|].
      intros y t Hy _. by apply I6 in Hy as [[] _].
    + eapply phase_evolves; eauto; cbn; by rewrite ?lookup_insert_ne.
Qed.

Lemma HInv_end s C g c st op out :
  HInv (mkHSys s C) g → calls C !! c = Some (Answered st op out) →
  ∃ g', HInv (mkHSys s (mkClients (now C) (delete c (calls C)) (operations C ++ [logged st op out (now C)]))) g'.
Proof.
  intros I Hc. pose proof (hi_calls _ _ I _ _ Hc) as (f & Hf & Hb & Hp & Hcl & Hs & Hn & k & Hk & Hpl).
  set (x := mkPlaced st op out f k). set (g' := mkGhost (floors g) (applied g) (ended g ++ [(x, now C)])). exists g'. set (C' := mkClients _ _ _).
  assert (∀ y t, (y, t) ∈ ended g' ↔ (y, t) ∈ ended g ∨ y = x ∧ t = now C) as Hends.
  { intros y t. cbn. rewrite elem_of_app, list_elem_of_singleton. naive_solver. }
  assert (evolves s C g s C' g') as X.
  { apply evolves_clients; [cbn; lia|]. intros y t. rewrite Hends. tauto. }
  destruct I as [I1 I2 I3 I4 I5 I6 I7 I8]. split; cbn [sys clients] in *; try done.
  - intros o Ho. assert (op ∈ (p_op ∘ fst) <$> ended g') as Hin.
    { apply list_elem_of_fmap. exists (x, now C). split; [done|]. apply Hends. by right. }
    destruct (decide (client o = c)) as [E|Hne].
    + destruct (I3 o Ho) as [[st' Hst]|[(st' & out' & Hst)|He]]; [congruence| |].
      * right; right. rewrite E, Hc in Hst. by simplify_eq.
      * right; right. cbn. rewrite fmap_app. apply elem_of_app. by left.
    + destruct (I3 o Ho) as [[st' Hst]|[(st' & out' & Hst)|He]];
        [left; exists st'; cbn; by rewrite lookup_delete_ne|right; left; exists st', out'; cbn; by rewrite lookup_delete_ne|].
      right; right. cbn. rewrite fmap_app. apply elem_of_app. by left.
  - cbn. intros c' [<-|Hc']%lookup_delete_None; [done|by apply I4].
  - cbn. intros c' ph [Hne Hph]%lookup_delete_Some. eapply phase_evolves; eauto. intros y t [Hy|[-> _]]%Hends; [by left|]. right. cbn. congruence.
  - intros y t [Hy|[-> ->]]%Hends; [by eapply ended_evolves; eauto|]. split_and!; [done|by eapply begun_evolves|done|apply Hb|cbn; lia].
  - cbn. rewrite fmap_app. apply NoDup_app. split_and!; [done| |apply NoDup_singleton]. intros o Ho ->%list_elem_of_singleton. done.
  - cbn. by rewrite fmap_app, I8.
Qed.

Lemma sent_ended h g op : HInv h g → op ∈ (p_op ∘ fst) <$> ended g → op ∈ sent (sys h).
Proof. intros I ([x t] & -> & Hx)%list_elem_of_fmap. by apply (hi_ended _ _ I) in Hx as (_ & _ & ? & _). Qed.

Lemma HInv_issue s C g op st :
  HInv (mkHSys s C) g → clerk_op op → calls C !! client op = Some (Calling st) →
  reqno op = completed (issued s) (client op) + 1 →
  HInv (mkHSys (mkSys (op :: sent s) (clog s) (<[client op := op]> (pending s)) (<[client op := reqno op]> (issued s)) (acked s))
          (mkClients (now C) (<[client op := Waiting st op]> (calls C)) (operations C))) g.
Proof.
  intros I Hop Hc Hn. set (s' := mkSys _ _ _ _ _). set (C' := mkClients _ _ _).
  assert (evolves s C g s' C' g) as X by (split; try done; [intros o Ho; by right|auto]).
  destruct (hi_calls _ _ I _ _ Hc) as (f & Hf & Hb & Hp).
  assert (∀ o, o ∈ sent s → ¬ same_request o op) as Hnew.
  { intros o Ho [E1 E2]. apply (si_sent _ (hi_sys _ _ I)) in Ho. cbn in Ho. rewrite E1, E2 in Ho. lia. }
  assert (op ∉ sent s) as Hns by (intros Ho; by apply (Hnew op Ho)).
  pose proof (sent_ended _ _ op I) as Hse. destruct I as [I1 I2 I3 I4 I5 I6 I7 I8]. split; cbn [sys clients] in *; try done.
  - by apply SInv_issue.
  - intros o o' [->|Ho]%elem_of_cons [->|Ho']%elem_of_cons HS; [done| | |by apply I2].
    + destruct (Hnew o' Ho'). by destruct HS.
    + by destruct (Hnew o Ho).
  - cbn. intros o [->|Ho]%elem_of_cons; [left; exists st; apply lookup_insert_eq|].
    destruct (I3 o Ho) as [[st' Hst]|[(st' & out' & Hst)|He]]; [left; exists st'|right; left; exists st', out'|by do 2 right];
      cbn; (rewrite lookup_insert_ne; [done|congruence]).
  - cbn. intros c [Hc' Hne]%lookup_insert_None. rewrite lookup_insert_ne by done. by apply I4.
  - cbn. intros c ph [[<- <-]|[Hne Hph]]%lookup_insert_Some.
    + exists f. split; [done|]. split_and!; [done|apply lookup_insert_eq|done| |tauto|done].
      intros Ho%elem_of_take. destruct Ho as (? & Ho%list_elem_of_lookup_2 & _). by apply (si_log _ I1) in Ho.
    + eapply phase_evolves; eauto. cbn. by rewrite lookup_insert_ne.
  - intros x t Hx. eapply ended_evolves; eauto.
Qed.

Lemma HInv_commit s C g op :
  HInv (mkHSys s C) g → op ∈ sent s → HInv (mkHSys (mkSys (sent s) (clog s ++ [op]) (pending s) (issued s) (acked s)) C) g.
Proof.
  intros I Hop. set (s' := mkSys _ _ _ _ _).
  assert (evolves s C g s' C g) as X by (split; try done; [by exists [op]|auto]).
  destruct I as [I1 I2 I3 I4 I5 I6 I7 I8]. split; cbn [sys clients] in *; try done.
  - by apply SInv_commit.
  - intros c ph Hc. eapply phase_evolves; eauto.
  - intros x t Hx. eapply ended_evolves; eauto.
Qed.

Lemma HInv_answer s C g op out k kv st :
  HInv (mkHSys s C) g → calls C !! client op = Some (Waiting st op) → (k <= length (clog s))%nat →
  serves (clog s) k kv → replies op kv out →
  HInv (mkHSys (mkSys (sent s) (clog s) (delete (client op) (pending s)) (issued s) (op :: acked s))
          (mkClients (now C) (<[client op := Answered st op out]> (calls C)) (operations C)))
    (mkGhost (floors g) (<[client op := k]> (applied g)) (ended g)).
Proof.
  intros I Hc Hk Hs Hr. set (s' := mkSys _ _ _ _ _). set (C' := mkClients _ _ _). set (g' := mkGhost _ _ _).
  assert (evolves s C g s' C' g') as X by (split; try done; auto).
  destruct (hi_calls _ _ I _ _ Hc) as (f & Hf & Hb & Hp & _ & Hnf & Hne & Hcl).
  destruct I as [I1 I2 I3 I4 I5 I6 I7 I8]. cbn [sys clients] in *. destruct (si_pending _ I1 _ _ Hp) as (Hsent & _ & _).
  assert (placed (clog s) (mkPlaced st op out f k)) as HP.
  { pose proof (acknowledged_in_log _ _ _ _ I1 Hp Hs (replies_acknowledges _ _ _ Hr)) as (o & Ho & HS)%Exists_exists.
    split; cbn [p_op p_floor p_applied p_out]; try done; [apply Hb| |].
    - rewrite (I2 op o); [done|done| |done]. apply (si_log _ I1).
      apply elem_of_take in Ho as (? & Ho & _). by eapply list_elem_of_lookup_2.
    - intros Hg. rewrite <-(serves_firsts _ _ _ I1 Hs). by apply replies_value. }
  split; cbn [sys clients]; try done.
  - eapply SInv_ack; eauto using replies_acknowledges.
  - cbn. intros o Ho. destruct (decide (client o = client op)) as [E|Hneq].
    + destruct (I3 o Ho) as [[st' Hst]|[(st' & out' & Hst)|He]]; [|congruence|by do 2 right].
      assert (o = op) as -> by congruence. right; left. exists st, out. apply lookup_insert_eq.
    + destruct (I3 o Ho) as [[st' Hst]|[(st' & out' & Hst)|He]]; [left; exists st'|right; left; exists st', out'|by do 2 right];
        cbn; by rewrite lookup_insert_ne.
  - cbn. intros c [Hc' Hn]%lookup_insert_None. rewrite lookup_delete_ne by done. by apply I4.
  - cbn. intros c ph [[<- <-]|[Hn Hph]]%lookup_insert_Some.
    + exists f. split; [done|]. split_and!; [done|apply lookup_delete_eq|done|done|done|].
      exists k. split; [apply lookup_insert_eq|done].
    + eapply phase_evolves; eauto; cbn; by rewrite ?lookup_delete_ne, ?lookup_insert_ne.
Qed.

(** The cases of a client's event. *)
Lemma HInv_client ev s C C' g :
  HInv (mkHSys s C) g → clientOnly ev = true → clientStep ev C = Some C' → ∃ g', HInv (mkHSys s C') g'.
Proof.
  intros I Hev HC. destruct ev; try done; cbn in HC.
  - destruct (Z.leb_spec (now C) t); [|done]. injection HC as <-. exists g. by apply HInv_tick.
  - destruct (calls C !! c) eqn:Hc; [done|]. injection HC as <-. eexists. by apply HInv_begin.
  - destruct (calls C !! c) as [[]|] eqn:Hc; try done. injection HC as <-. by eapply HInv_end.
Qed.

Lemma HInv_step h h' g : HInv h g → hstep h h' → ∃ g', HInv h' g'.
Proof.
  intros I HS. revert I. destruct HS; intros I; [eapply HInv_client; eauto| |exists g; by apply HInv_commit|].
  - cbn in H0. destruct (calls C !! client op) as [[]|] eqn:Hc; try done. injection H0 as <-. exists g. by apply HInv_issue.
  - cbn in H. destruct (calls C !! client op) as [[]|] eqn:Hc; try done. destruct (decide _) as [->|]; [|done].
    injection H as <-. eexists. by eapply HInv_answer.
Qed.

Lemma HInv_init : HInv hsys0 (mkGhost ∅ ∅ []).
Proof.
  split; cbn; try set_solver; [apply kv_SInv_init|constructor].
Qed.

Lemma HInv_reachable h : rtc hstep hsys0 h → ∃ g, HInv h g.
Proof.
  intros HR. assert (∃ g, HInv hsys0 g) as H0 by (eexists; apply HInv_init). revert H0.
  induction HR as [|h1 h2 h3 Hs _ IH]; [done|]. intros [g I]. apply IH. by eapply HInv_step.
Qed.

(** ** A service with one log *)

(** What a request does to a map, from the input that is recorded of it. *)
Definition effect (i : KvInput) (m : gmap string string) : gmap string string :=
  if KvModel.Op i =? 0 then m
  else if KvModel.Op i =? 1 then <[Key i := Value i]> m
  else <[Key i := (default EmptyString (m !! Key i) +:+ Value i)%string]> m.

Definition mapAfter L : gmap string string := foldl (λ m op, effect (inputOf op) m) ∅ L.

(** The requests sent, the log, the numbers the clerks have used, the clients. *)
Record LogService := mkLogService {
  ls_sent : list Op; ls_log : list Op; ls_numbers : gmap Z Z; ls_clients : Clients Op }.

(** Requests go to the end of one log, any number of times; a request is answered
    from a part of the log that contains it, a Get with the value of its key after
    the first occurrences of the requests in that part. *)
Inductive lstep : LogService → LogService → Prop :=
  | l_client ev snt L num C C' :
    clientOnly ev = true → clientStep ev C = Some C' → lstep (mkLogService snt L num C) (mkLogService snt L num C')
  | l_issue op snt L num C C' :
    clerk_op op → reqno op = completed num (client op) + 1 → clientStep (CIssue op) C = Some C' →
    lstep (mkLogService snt L num C) (mkLogService (op :: snt) L (<[client op := reqno op]> num) C')
  | l_commit op snt L num C :
    op ∈ snt → lstep (mkLogService snt L num C) (mkLogService snt (L ++ [op]) num C)
  | l_answer op out k snt L num C C' :
    (k <= length L)%nat → op ∈ take k L →
    out = (if IsGetOp op
           then default EmptyString (mapAfter (firsts [] (take k L)) !! ga_Key (GetArg op)) else EmptyString) →
    clientStep (CAnswer op out) C = Some C' →
    lstep (mkLogService snt L num C) (mkLogService snt L num C').

Definition logService0 : LogService := mkLogService [] [] ∅ (mkClients 0 ∅ []).

Definition as_log (h : HSys) : LogService := mkLogService (sent (sys h)) (clog (sys h)) (issued (sys h)) (clients h).

Lemma HInv_clerk h g op : HInv h g → op ∈ sent (sys h) → clerk_op op.
Proof.
  intros I Hop. destruct (hi_account _ _ I op Hop) as [[st Hst]|[(st & out & Hst)|He]].
  - by destruct (hi_calls _ _ I _ _ Hst) as (? & _ & _ & _ & _ & _ & _ & ?).
  - by destruct (hi_calls _ _ I _ _ Hst) as (? & _ & _ & _ & _ & _ & _ & ? & _ & []).
  - apply list_elem_of_fmap in He as ([x t] & -> & Hx). by apply (hi_ended _ _ I) in Hx as [[] _].
Qed.

Lemma effect_execute op m : clerk_op op → effect (inputOf op) m = execute op m.
Proof.
  unfold clerk_op, effect, execute, inputOf, kvInput. destruct (IsGetOp op); [done|].
  intros [_ [-> | ->]]; done.
Qed.

Lemma mapAfter_spec L : (∀ op, op ∈ L → clerk_op op) → mapAfter L = kv_spec L.
Proof.
  induction L as [|op L IH] using rev_ind; [done|]. intros Hc. unfold mapAfter, kv_spec in *. rewrite !foldl_app. cbn.
  rewrite IH by (intros o Ho; apply Hc, elem_of_app; by left). apply effect_execute, Hc, elem_of_app. right. by left.
Qed.

Lemma mapAfter_log h g k : HInv h g → mapAfter (firsts [] (take k (clog (sys h)))) = kv_spec (firsts [] (take k (clog (sys h)))).
Proof.
  intros I. apply mapAfter_spec. intros op Hop. eapply HInv_clerk; [done|]. apply (si_log _ (hi_sys _ _ I)).
  apply firsts_elem in Hop. apply elem_of_take in Hop as (? & ? & _). by eapply list_elem_of_lookup_2.
Qed.

Lemma replies_put op kv out : replies op kv out → IsGetOp op = false → out = EmptyString.
Proof. by intros []. Qed.

Lemma hstep_lstep h h' g : HInv h g → hstep h h' → lstep (as_log h) (as_log h').
Proof.
  intros I HS. revert I. destruct HS as [| | |op out k kv s C C' HC Hk Hs Hr]; intros I; [by eapply l_client|by eapply l_issue|by apply l_commit|].
  pose proof HC as HC'. cbn in HC'. destruct (calls C !! client op) as [[]|] eqn:Hc; try done.
  destruct (decide _) as [->|]; [|done]. injection HC' as <-.
  pose proof (HInv_answer _ _ _ _ _ _ _ _ I Hc Hk Hs Hr) as I'.
  destruct (hi_calls _ _ I' (client op) (Answered st op out)) as (f & _ & _ & _ & _ & _ & _ & k' & _ & HP); [apply lookup_insert_eq|].
  destruct HP as [_ Hle _ Hin _ Hval]. cbn in Hle, Hin, Hval.
  apply (l_answer op out k'); [done|done| |done]. 
  pose proof (mapAfter_log _ _ k' I) as Hm. cbn [sys clog] in Hm |- *. rewrite Hm.
  destruct (IsGetOp op) eqn:Hg; [by apply Hval|by eapply replies_put].
Qed.

Lemma hsteps_lsteps h : rtc hstep hsys0 h → rtc lstep logService0 (as_log h).
Proof.
  intros HR. assert (∃ g, HInv hsys0 g) as H0 by (eexists; apply HInv_init).
  change logService0 with (as_log hsys0). revert H0.
  induction HR as [|h1 h2 h3 Hs _ IH]; [done|]. intros [g I].
  eapply rtc_l; [by eapply hstep_lstep|]. apply IH. by eapply HInv_step.
Qed.

(** ** Linearizability *)

(** The place of a request in the log. *)
Definition place L op : nat := match list_find (.= op) L with Some (p, _) => p | None => 0%nat end.

Lemma place_spec L op : op ∈ L → L !! place L op = Some op ∧ op ∉ take (place L op) L.
Proof.
  intros Hop. unfold place. destruct (list_find (.= op) L) as [[p o]|] eqn:HF.
  - apply list_find_Some in HF as (Hp & -> & Hn). split; [done|]. intros (j & Hj & Hlt)%elem_of_take. by eapply Hn.
  - apply list_find_None in HF. rewrite Forall_forall in HF. by apply HF in Hop.
Qed.

Lemma place_bounds L x : placed L x → (p_floor x <= place L (p_op x) < p_applied x)%nat.
Proof.
  intros [_ _ Hn Hy _ _]. assert (p_op x ∈ L) as Hin by (apply elem_of_take in Hy as (? & ? & _); by eapply list_elem_of_lookup_2).
  destruct (place_spec L _ Hin) as [Hp Hnot]. split.
  - destruct (decide (p_floor x <= place L (p_op x))%nat); [done|]. destruct Hn. apply elem_of_take. exists (place L (p_op x)). split; [done|lia].
  - destruct (decide (place L (p_op x) < p_applied x)%nat); [done|]. destruct Hnot.
    apply elem_of_take in Hy as (j & Hj & ?). apply elem_of_take. exists j. split; [done|lia].
Qed.

(** A Put or Append takes effect where the log has it first, a Get after what the
    server that answered had applied. *)
Definition rank L (x : Placed * Z) : nat :=
  if IsGetOp (p_op x.1) then 2 * p_applied x.1 - 1 else 2 * place L (p_op x.1).

Lemma runs_gets m l :
  (∀ x, x ∈ l → IsGetOp (p_op x.1) = true ∧ p_out x.1 = getValue m (ga_Key (GetArg (p_op x.1)))) → runs m (logged_of <$> l) = Some m.
Proof.
  induction l as [|x l IH]; intros Hl; [done|]. destruct (Hl x) as [Hg Ho]; [by left|]. cbn. unfold inputOf, kvInput. rewrite Hg. cbn.
  rewrite bool_decide_eq_true_2 by done. apply IH. intros y Hy. apply Hl. by right.
Qed.

Lemma runs_put m x : clerk_op (p_op x.1) → IsGetOp (p_op x.1) = false → runs m [logged_of x] = Some (execute (p_op x.1) m).
Proof.
  unfold clerk_op. intros Hc Hg. rewrite Hg in Hc. destruct Hc as [_ Hop]. cbn. unfold inputOf, kvInput, execute. rewrite Hg. cbn.
  destruct Hop as [-> | ->]; done.
Qed.

Section linearize.
Context (h : HSys) (g : Ghost) (I : HInv h g).
#[local] Notation L := (clog (sys h)).
#[local] Notation E := (ended g).
Context (Hdone : ∀ op, op ∈ sent (sys h) → op ∈ (p_op ∘ fst) <$> E).

Lemma rank_bound x : x ∈ E → (rank L x < 2 * length L)%nat.
Proof.
  destruct x as [x t]. intros (HP & _)%(hi_ended _ _ I). pose proof (place_bounds _ _ HP). pose proof (pl_applied _ _ HP).
  unfold rank. cbn. destruct (IsGetOp _); lia.
Qed.

(** An operation that ended before another began is ranked before it. *)
Lemma rank_order x y : x ∈ E → y ∈ E → precedes (logged_of y) (logged_of x) → (rank L y < rank L x)%nat.
Proof.
  destruct x as [x tx], y as [y ty]. intros Hx Hy Hp. cbn in Hp. unfold precedes in Hp. cbn in Hp.
  destruct (hi_ended _ _ I _ _ Hx) as (PX & (_ & _ & HB) & _ & _). destruct (hi_ended _ _ I _ _ Hy) as (PY & _).
  specialize (HB y ty Hy Hp). pose proof (place_bounds _ _ PX). pose proof (place_bounds _ _ PY).
  unfold rank. cbn. destruct (IsGetOp (p_op x)), (IsGetOp (p_op y)); lia.
Qed.

Lemma seen_elem i op : L !! i = Some op → Exists (same_request op) (take i L) ↔ op ∈ take i L.
Proof.
  intros Hi. rewrite Exists_exists. split; [|by exists op]. intros (o & Ho & HS).
  assert (∀ o j, L !! j = Some o → o ∈ sent (sys h)) as Hs.
  { intros o' j Hj%list_elem_of_lookup_2. by apply (si_log _ (hi_sys _ _ I)). }
  pose proof Ho as (j & Hj & _)%elem_of_take. by rewrite (hi_unique _ _ I op o) by eauto.
Qed.

Lemma spec_S i op : L !! i = Some op →
  kv_spec (firsts [] (take (S i) L)) =
  if decide (op ∈ take i L) then kv_spec (firsts [] (take i L)) else execute op (kv_spec (firsts [] (take i L))).
Proof.
  intros Hi. rewrite (take_S_r _ _ op) by done. rewrite firsts_app. cbn. rewrite app_nil_r.
  destruct (decide (op ∈ take i L)) as [Hin|Hn].
  - rewrite decide_True by (by apply (seen_elem i)). by rewrite app_nil_r.
  - rewrite decide_False by (by rewrite (seen_elem i)). unfold kv_spec. by rewrite foldl_app.
Qed.

Lemma put_rank x i : x ∈ E → rank L x = (2 * i)%nat → IsGetOp (p_op x.1) = false ∧ L !! i = Some (p_op x.1) ∧ p_op x.1 ∉ take i L.
Proof.
  destruct x as [x t]. intros (HP & _)%(hi_ended _ _ I) Hr. unfold rank in Hr. cbn in *. pose proof (place_bounds _ _ HP).
  destruct (IsGetOp _); [lia|]. split; [done|]. replace i with (place L (p_op x)) by lia. apply place_spec.
  pose proof (pl_before _ _ HP) as (? & ? & _)%elem_of_take. by eapply list_elem_of_lookup_2.
Qed.

(** The block of the log's entry [i]: the operation that put it there, if it is its
    first occurrence. *)
Lemma runs_entry i op : L !! i = Some op →
  runs (kv_spec (firsts [] (take i L))) (logged_of <$> filter (λ x, rank L x = (2 * i)%nat) E)
  = Some (kv_spec (firsts [] (take (S i) L))).
Proof.
  intros Hi. rewrite (spec_S i op) by done. set (m := kv_spec _).
  destruct (decide (op ∈ take i L ∨ IsGetOp op = true)) as [Hno|Hyes].
  - rewrite filter_none.
    + cbn. f_equal. destruct (decide _) as [|Hn]; [done|]. destruct Hno as [|Hg]; [done|]. unfold execute. by rewrite Hg.
    + intros x Hx Hr. destruct (put_rank x i Hx Hr) as (Hg & Hx' & Hn). assert (p_op x.1 = op) as Hop by congruence. rewrite Hop in *.
      destruct Hno; [done|congruence].
  - apply Decidable.not_or in Hyes as [Hn Hg]; [|tauto..].
    assert (op ∈ (p_op ∘ fst) <$> E) as (x & Hxo & Hx)%list_elem_of_fmap.
    { apply Hdone, (si_log _ (hi_sys _ _ I)). by eapply list_elem_of_lookup_2. }
    assert (place L op = i) as Hpl.
    { destruct (place_spec L op) as [Hp Hnp]; [by eapply list_elem_of_lookup_2|]. apply Nat.le_antisymm.
      - destruct (decide (place L op <= i)%nat); [done|]. destruct Hnp. apply elem_of_take. exists i. split; [done|lia].
      - destruct (decide (i <= place L op)%nat); [done|]. destruct Hn. apply elem_of_take. exists (place L op). split; [done|lia]. }
    assert (filter (λ x, rank L x = (2 * i)%nat) E = [x]) as ->.
    { apply Permutation_singleton_r, NoDup_Permutation; [apply NoDup_filter; by eapply NoDup_fmap_1, hi_once|apply NoDup_singleton|].
      intros y. rewrite list_elem_of_filter, list_elem_of_singleton. split.
      - intros [Hr Hy]. destruct (put_rank y i Hy Hr) as (_ & Hyo & _). cbn in Hxo.
        eapply NoDup_fmap_elem; [apply (hi_once _ _ I)|done|done|]. cbn. congruence.
      - intros ->. split; [|done]. unfold rank. cbn in Hxo. rewrite <-Hxo, Hpl. by destruct (IsGetOp op). }
    destruct x as [x t]. cbn in Hxo. subst op. change (logged_of <$> [(x, t)]) with [logged_of (x, t)].
    rewrite runs_put; [by rewrite decide_False| |by destruct (IsGetOp _)]. by apply (hi_ended _ _ I) in Hx as [[] _].
Qed.

(** The Gets of a block are served from the state there. *)
Lemma runs_reads i :
  runs (kv_spec (firsts [] (take (S i) L))) (logged_of <$> filter (λ x, rank L x = (2 * i + 1)%nat) E)
  = Some (kv_spec (firsts [] (take (S i) L))).
Proof.
  apply runs_gets. intros [x t] [Hr Hx]%list_elem_of_filter. destruct (hi_ended _ _ I _ _ Hx) as (HP & _).
  pose proof (place_bounds _ _ HP). unfold rank in Hr. cbn in *. destruct (IsGetOp (p_op x)) eqn:Hg; [|lia].
  split; [done|]. rewrite (pl_value _ _ HP Hg). by replace (p_applied x) with (S i) by lia.
Qed.

Lemma history_linearizable : linearizable MapModel (operations (clients h)).
Proof.
  rewrite (hi_logged _ _ I).
  apply (blocks_linearizable logged_of E (rank L) (λ n, kv_spec (firsts [] (take (Nat.div2 (S n)) L))) (2 * length L)).
  - done.
  - apply rank_bound.
  - apply rank_order.
  - intros n Hn. destruct (Nat.Even_or_Odd n) as [[i ->]|[i ->]].
    + rewrite Nat.div2_succ_double. replace (S (S (2 * i))) with (2 * (S i))%nat by lia. rewrite Nat.div2_double.
      destruct (lookup_lt_is_Some_2 L i) as [op Hop]; [lia|]. by rewrite (runs_entry i op).
    + replace (S (2 * i + 1)) with (2 * S i)%nat by lia. rewrite Nat.div2_succ_double, Nat.div2_double. apply runs_reads.
Qed.

Lemma history_typed : Forall kv_typed (operations (clients h)).
Proof.
  rewrite (hi_logged _ _ I). apply Forall_fmap, Forall_forall. intros [x t] Hx. destruct (hi_ended _ _ I _ _ Hx) as (_ & _ & _ & Ht).
  split; cbn; [by eexists|by eexists|lia].
Qed.

End linearize.

(** When no call is under way every request has ended. *)
Lemma all_ended h g : HInv h g → calls (clients h) = ∅ → ∀ op, op ∈ sent (sys h) → op ∈ (p_op ∘ fst) <$> ended g.
Proof.
  intros I Hc op Hop. destruct (hi_account _ _ I op Hop) as [[st Hst]|[(st & out & Hst)|He]]; [..|done]; by rewrite Hc in Hst.
Qed.

Lemma recorded_linearizable h :
  rtc hstep hsys0 h → calls (clients h) = ∅ →
  Forall kv_typed (operations (clients h)) ∧ linearizable MapModel (operations (clients h)).
Proof.
  intros [g I]%HInv_reachable Hc. pose proof (all_ended _ _ I Hc). split; [by eapply history_typed|by eapply history_linearizable].
Qed.

End history.
