(* ===== verification/KvCluster.v ===== *)
(** * kvraft on a cluster of Raft peers

    The whole service: the cluster of [RaftElection], on every peer a [KVServer] fed
    by the peer's apply loop, the handlers of the requests in flight, and the clients
    of [KvHistory].  The peers take no snapshots ([maxraftstate] is -1), nothing
    restarts.  The system follows [KvHistory]'s, so what the clients record is
    linearizable whatever is lost, delayed, repeated or elected. *)

From S2P Require Import Prelude Bitset Porcupine LinkedList Linearize LinearSearch LinearCheck Histories LinearVerdict KvModel.
From S2P Require Import LabGob Persister Raft RaftLog RaftState Voting RaftElection Replication RaftSafety RaftFrame ApplyStream RaftApi.
From S2P Require Import Dedup KVRaft Recording KvHistory.

Section world.
Context `{!Gob (PersistentState Op)} `{!Gob SnapshotState}.
#[local] Notation Server := (KVServer (Raft Op)).
Implicit Types (op : Op) (kv : Server) (rf : Raft Op) (L : list (RaftLogEntry Op)).

Record World := mkWorld {
  cluster : Cluster Op;
  servers : gmap Z Server;
  rounds : gmap Z (Round Op);                                     (* an apply loop between its critical sections *)
  handlers : list (Z * Op * Z);                                   (* waiting: server, request, startTerm *)
  answers : list (Op * string);                                   (* successful replies *)
  requests : list Op;                                             (* every request a clerk has sent *)
  numbers : gmap Z Z;                                             (* the clerks' reqNo *)
  users : Clients Op;
}.

#[export] Instance eta_World : Eta World := λ w,
  mkWorld (cluster w) (servers w) (rounds w) (handlers w) (answers w) (requests w) (numbers w) (users w).
#[export] Instance set_cluster : Setter cluster.
Proof. setter. Defined.
#[export] Instance set_servers : Setter servers.
Proof. setter. Defined.
#[export] Instance set_rounds : Setter rounds.
Proof. setter. Defined.
#[export] Instance set_handlers : Setter handlers.
Proof. setter. Defined.
#[export] Instance set_answers : Setter answers.
Proof. setter. Defined.
#[export] Instance set_requests : Setter requests.
Proof. setter. Defined.
#[export] Instance set_numbers : Setter numbers.
Proof. setter. Defined.
#[export] Instance set_users : Setter users.
Proof. setter. Defined.

(** A server with its Raft peer. *)
Definition serverAt (i : Z) (w : World) : option Server :=
  kv ← servers w !! i;
  r ← nodes (cluster w) !! i;
  Some (kv <| rf := r |>).

Definition setServer (i : Z) kv (w : World) : World :=
  w <| servers := <[i := kv]> (servers w) |> <| cluster := set_node i (rf kv) (cluster w) |>.

(** How the run of a handler ends. *)
Inductive Outcome := Failed | Succeeded (value : string) | Waits (startTerm : Z).

Definition handle op kv : option (Server * Outcome) :=
  if IsGetOp op then
    '(kv, r) ← GetBegin (GetArg op) kv;
    Some (kv, match r with
              | inl reply => if gr_Success reply then Succeeded (gr_Value reply) else Failed
              | inr startTerm => Waits startTerm
              end)
  else
    '(kv, r) ← PutAppendBegin (PutAppendArg op) kv;
    Some (kv, match r with
              | inl reply => if par_Success reply then Succeeded EmptyString else Failed
              | inr startTerm => Waits startTerm
              end).

(** [None]: it waits again. *)
Definition wakeup op (startTerm : Z) kv : option Outcome :=
  if IsGetOp op then
    reply ← GetResume (GetArg op) startTerm kv;
    Some (if gr_Success reply then Succeeded (gr_Value reply) else Failed)
  else
    reply ← PutAppendResume (PutAppendArg op) startTerm kv;
    Some (if par_Success reply then Succeeded EmptyString else Failed).

Definition respond (i : Z) op (o : Outcome) (w : World) : World :=
  match o with
  | Failed => w
  | Succeeded v => w <| answers := (op, v) :: answers w |>
  | Waits t => w <| handlers := (i, op, t) :: handlers w |>
  end.

Inductive WEvent :=
  | WRaft (ev : Event Op)             (* something happens between the peers *)
  | WTake (i : Z)                     (* an apply loop starts a round *)
  | WReceive (i : Z)                  (* the server takes a message from the apply channel *)
  | WEnd (i : Z)                      (* the round ends *)
  | WUser (ev : ClientEvent Op)
  | WIssue (op : Op)                  (* a clerk numbers a request and sends it *)
  | WRequest (i : Z) (op : Op)        (* a request reaches a server *)
  | WWake (k : nat)                   (* a waiting handler wakes up *)
  | WAnswer (op : Op) (out : string)  (* a successful reply reaches the clerk *).

(** What services and apply loops do to their peers is in the other events. *)
Definition internal (ev : Event Op) : bool :=
  match ev with
  | Local _ (OpUpdateCommit _) | Local _ OpKill => true
  | Local _ _ => false
  | _ => true
  end.

Definition wstep (ev : WEvent) (w : World) : option World :=
  match ev with
  | WRaft ev =>
    if internal ev then c ← cstep ev (cluster w); Some (w <| cluster := c |>) else None
  | WTake i =>
    '(c, rs) ← takeRound i (cluster w) (rounds w);
    Some (w <| cluster := c |> <| rounds := rs |>)
  | WReceive i =>
    '(msgs, es) ← rounds w !! i;
    match msgs with
    | [] => None
    | m :: msgs =>
      kv ← serverAt i w;
      kv ← applyLog m kv;
      Some (setServer i kv w <| rounds := <[i := (msgs, es)]> (rounds w) |>)
    end
  | WEnd i =>
    '(c, rs) ← endRound i (cluster w) (rounds w);
    Some (w <| cluster := c |> <| rounds := rs |>)
  | WUser ev =>
    if clientOnly ev then C ← clientStep ev (users w); Some (w <| users := C |>) else None
  | WIssue op =>
    if decide (clerk_op op ∧ reqno op = completed (numbers w) (client op) + 1) then
      C ← clientStep (CIssue op) (users w);
      Some (w <| requests := op :: requests w |> <| numbers := <[client op := reqno op]> (numbers w) |> <| users := C |>)
    else None
  | WRequest i op =>
    if decide (op ∈ requests w) then
      kv ← serverAt i w;
      '(kv, o) ← handle op kv;
      Some (respond i op o (setServer i kv w))
    else None
  | WWake k =>
    '(i, op, t) ← handlers w !! k;
    kv ← serverAt i w;
    o ← wakeup op t kv;
    Some (respond i op o (w <| handlers := delete k (handlers w) |>))
  | WAnswer op out =>
    if decide ((op, out) ∈ answers w) then
      C ← clientStep (CAnswer op out) (users w);
      Some (w <| users := C |>)
    else None
  end.

Definition wrun (w w' : World) : Prop := ∃ ev, wstep ev w = Some w'.

(** [n] fresh servers. *)
Definition init_world (env : Z → Env) (n : Z) : World :=
  let c := init_cluster env n in
  mkWorld c (map_imap (λ i r, StartKVServer r i MakePersister (-1)) (nodes c)) ∅ [] [] [] ∅ (mkClients 0 ∅ []).

(** ** The servers *)

(** A server has applied what its peer's apply loop has sent it. *)
Definition server_ok L (round : option (Round Op)) rf kv : Prop :=
  ∃ k, round_ok L round rf k ∧ serves (Command <$> L) k kv.

Lemma serves_app (l l' : list Op) k kv : (k <= length l)%nat → serves (l ++ l') k kv ↔ serves l k kv.
Proof. intros Hk. unfold serves. by rewrite take_app_le. Qed.

Lemma serves_prefix L L' k kv kv' :
  L `prefix_of` L' → Z.of_nat k <= zlen L → service kv' = service kv → serves (Command <$> L) k kv → serves (Command <$> L') k kv'.
Proof.
  intros [x ->] Hk Hsv Hs. rewrite fmap_app, serves_app by (rewrite length_fmap; unfold zlen in Hk; lia).
  unfold serves in *. by rewrite Hsv.
Qed.

Lemma server_ok_prefix L L' round rf rf' kv kv' :
  L `prefix_of` L' → LastApplied rf' = LastApplied rf → service kv' = service kv → server_ok L round rf kv → server_ok L' round rf' kv'.
Proof.
  intros HL Ha Hk (k & Hr & Hs). exists k. split; [by eapply round_prefix|].
  eapply (serves_prefix L); [done| |done..]. apply round_le in Hr. lia.
Qed.

(** ** The handlers *)

Lemma GetBegin_cases a kv kv' r :
  GetBegin a kv = Some (kv', r) →
  service kv' = service kv ∧ (rf kv' = rf kv ∨ ∃ ret, Raft.Start (getOp a) (rf kv) = Some (rf kv', ret)) ∧
  ∀ reply, r = inl reply → gr_Success reply = true → replies (getOp a) kv (gr_Value reply).
Proof.
  intros HG. pose proof HG as HG'. unfold GetBegin in HG. destruct (negb _); [injection HG as <- <-; split_and!; [done|by left|]; by intros ? [= <-]|].
  destruct (_ <=? _).
  - injection HG as <- <-. split_and!; [done|by left|]. intros reply [= <-] _. by econstructor.
  - inv_bind HG. destruct x as [r1 [[? t] lead]]. destruct lead; cbn in HG; injection HG as <- <-;
      (split_and!; [done|right; eauto|]); by intros ? [= <-].
Qed.

Lemma PutAppendBegin_cases a kv kv' r :
  PutAppendBegin a kv = Some (kv', r) →
  service kv' = service kv ∧ (rf kv' = rf kv ∨ ∃ ret, Raft.Start (putOp a) (rf kv) = Some (rf kv', ret)) ∧
  ∀ reply, r = inl reply → par_Success reply = true → replies (putOp a) kv EmptyString.
Proof.
  intros HG. pose proof HG as HG'. unfold PutAppendBegin in HG. destruct (negb _); [injection HG as <- <-; split_and!; [done|by left|]; by intros ? [= <-]|].
  destruct (_ <=? _).
  - injection HG as <- <-. split_and!; [done|by left|]. intros reply [= <-] _. by econstructor.
  - inv_bind HG. destruct x as [r1 [[? t] lead]]. destruct lead; cbn in HG; injection HG as <- <-;
      (split_and!; [done|right; eauto|]); by intros ? [= <-].
Qed.

(** What is left of a clerk's request when its fields are taken apart. *)
Lemma clerk_op_get op : clerk_op op → IsGetOp op = true → getOp (GetArg op) = op.
Proof. unfold clerk_op. intros H E. by rewrite E in H. Qed.
Lemma clerk_op_put op : clerk_op op → IsGetOp op = false → putOp (PutAppendArg op) = op.
Proof. unfold clerk_op. intros H E. rewrite E in H. by destruct H. Qed.

Lemma handle_cases op kv kv' o :
  clerk_op op → handle op kv = Some (kv', o) →
  service kv' = service kv ∧ (rf kv' = rf kv ∨ ∃ ret, Raft.Start op (rf kv) = Some (rf kv', ret)) ∧
  ∀ v, o = Succeeded v → replies op kv v.
Proof.
  intros Hop HH. unfold handle in HH. destruct (IsGetOp op) eqn:Hg; inv_bind HH; destruct x as [k r]; injection HH as <- <-.
  - apply GetBegin_cases in E as (HS & HR & HA). rewrite (clerk_op_get op) in * by done. split_and!; [done|done|].
    intros v. destruct r as [reply|]; [|done]. destruct (gr_Success reply) eqn:Hs; [|done]. intros [= <-]. by apply HA.
  - apply PutAppendBegin_cases in E as (HS & HR & HA). rewrite (clerk_op_put op) in * by done. split_and!; [done|done|].
    intros v. destruct r as [reply|]; [|done]. destruct (par_Success reply) eqn:Hs; [|done]. intros [= <-]. by eapply HA.
Qed.

Lemma wakeup_cases op t kv o :
  clerk_op op → wakeup op t kv = Some o → o = Failed ∨ ∃ v, o = Succeeded v ∧ replies op kv v.
Proof.
  intros Hop HW. unfold wakeup in HW. destruct (IsGetOp op) eqn:Hg; inv_bind HW; injection HW as <-.
  - destruct x as [v []]; [right|by left]. exists v. split; [done|]. rewrite <-(clerk_op_get op) by done. by econstructor.
  - destruct x as [[]]; [right|by left]. exists EmptyString. split; [done|]. rewrite <-(clerk_op_put op) by done. by econstructor.
Qed.

(** ** The simulation *)

Record WRel (n : Z) (w : World) (h : HSys) s L : Prop := {
  wr_cluster : CRel (λ op, op ∈ requests w) n (cluster w) s L;
  wr_log : clog (sys h) = Command <$> L;
  wr_sent : sent (sys h) = requests w;
  wr_issued : issued (sys h) = numbers w;
  wr_users : clients h = users w;
  wr_clerk : ∀ op, op ∈ requests w → clerk_op op;
  wr_servers : ∀ i kv r, servers w !! i = Some kv → nodes (cluster w) !! i = Some r → server_ok L (rounds w !! i) r kv;
  wr_handlers : ∀ i op t, (i, op, t) ∈ handlers w → op ∈ requests w;
  wr_answers : ∀ op v, (op, v) ∈ answers w → ∃ k kv, (k <= length L)%nat ∧ serves (Command <$> L) k kv ∧ replies op kv v;
}.

Lemma commits (h : HSys) (cmds : list Op) :
  (∀ op, op ∈ cmds → op ∈ sent (sys h)) →
  rtc (hstep (R := Raft Op)) h
    (mkHSys (mkSys (sent (sys h)) (clog (sys h) ++ cmds) (pending (sys h)) (issued (sys h)) (acked (sys h))) (clients h)).
Proof.
  destruct h as [[st lg pe iss ac] C]. cbn. induction cmds as [|op cmds IH] using rev_ind; intros Hs; [by rewrite app_nil_r|].
  eapply rtc_r; [apply IH; intros o Ho; apply Hs, elem_of_app; by left|]. rewrite app_assoc. apply (h_commit op (mkSys st (lg ++ cmds) pe iss ac)).
  apply Hs, elem_of_app. right. by left.
Qed.

Lemma WRel_next n w h s L w' s' L' :
  WRel n w h s L → CRel (λ op, op ∈ requests w) n (cluster w') s' L' → L `prefix_of` L' →
  requests w' = requests w → numbers w' = numbers w → users w' = users w →
  (∀ i kv r, servers w' !! i = Some kv → nodes (cluster w') !! i = Some r → server_ok L' (rounds w' !! i) r kv) →
  (∀ i op t, (i, op, t) ∈ handlers w' → op ∈ requests w) →
  (∀ op v, (op, v) ∈ answers w' → (op, v) ∈ answers w ∨
     ∃ k kv, (k <= length L')%nat ∧ serves (Command <$> L') k kv ∧ replies op kv v) →
  ∃ h', rtc (hstep (R := Raft Op)) h h' ∧ WRel n w' h' s' L'.
Proof.
  intros W HC [new ->] Hreq Hnum Hus Hsv Hh Ha. eexists. split; [apply (commits h (Command <$> new))|].
  - intros op (e & -> & He)%list_elem_of_fmap. rewrite (wr_sent _ _ _ _ _ W). apply (cr_sent _ _ _ _ _ HC), elem_of_app. by right.
  - split; cbn [sys clients sent clog issued]; rewrite ?Hreq, ?Hnum, ?Hus; try done; try apply W.
    + by rewrite (wr_log _ _ _ _ _ W), fmap_app.
    + intros op v [Hold|Hnew]%Ha; [|done]. destruct (wr_answers _ _ _ _ _ W _ _ Hold) as (k & kv & Hk & Hs & Hr).
      exists k, kv. rewrite fmap_app, serves_app by (by rewrite length_fmap). split_and!; [rewrite length_app; lia|done|done].
Qed.

#[local] Notation simulated n h w' := (∃ h' s' L', rtc (hstep (R := Raft Op)) h h' ∧ WRel n w' h' s' L').

Section events.
Context (n : Z) (Hn : 0 < n) (w : World) (h : HSys) (s : RState (RaftLogEntry Op)) (L : list (RaftLogEntry Op)).
Context (W : WRel n w h s L).

Lemma served_prefix i kv r L' r' kv' :
  servers w !! i = Some kv → nodes (cluster w) !! i = Some r → L `prefix_of` L' → LastApplied r' = LastApplied r →
  service kv' = service kv → server_ok L' (rounds w !! i) r' kv'.
Proof. intros Hkv Hr HL Ha Hk. eapply server_ok_prefix; [done..|]. by apply W. Qed.

Lemma sim_WRaft ev c' : internal ev = true → cstep ev (cluster w) = Some c' → simulated n h (w <| cluster := c' |>).
Proof.
  intros Hi HS. destruct (CRel_quiet _ n (cluster w) s L ev c' Hn (wr_cluster _ _ _ _ _ W)) as (s' & L' & HC & HL & HN);
    [by destruct ev as [| | | | | | |? []]..|done|].
  destruct (WRel_next n w h s L (w <| cluster := c' |>) s' L') as (h' & HR & W'); try done; [|apply W|by left|by eauto].
  cbn. intros i kv r' Hkv (r & Hr & Ha)%HN. by eapply served_prefix.
Qed.

(** The two ends of a round. *)
Lemma sim_round c' rs s' L' :
  CRel (λ op, op ∈ requests w) n c' s' L' → L `prefix_of` L' →
  (∀ j r' k, nodes c' !! j = Some r' → (∀ r, nodes (cluster w) !! j = Some r → round_ok L (rounds w !! j) r k) → round_ok L' (rs !! j) r' k) →
  (∀ j r', nodes c' !! j = Some r' → is_Some (nodes (cluster w) !! j)) →
  simulated n h (w <| cluster := c' |> <| rounds := rs |>).
Proof.
  intros HC HL Hrounds Hdom.
  destruct (WRel_next n w h s L (w <| cluster := c' |> <| rounds := rs |>) s' L') as (h' & HR & W'); try done; [|apply W|by left|by eauto].
  cbn. intros i kv r' Hkv Hr'. destruct (Hdom i r' Hr') as [r Hr].
  destruct (wr_servers _ _ _ _ _ W _ _ _ Hkv Hr) as (k & Hk & Hs). exists k. split.
  - eapply Hrounds; [done|]. intros r0 Hr0. assert (r0 = r) as -> by congruence. done.
  - eapply (serves_prefix L); [done| |done|done]. apply round_le in Hk. lia.
Qed.

Lemma sim_WTake i c' rs : takeRound i (cluster w) (rounds w) = Some (c', rs) → simulated n h (w <| cluster := c' |> <| rounds := rs |>).
Proof.
  intros HT. destruct (takeRound_ok _ n _ s L i _ _ _ Hn (wr_cluster _ _ _ _ _ W) HT) as (s' & L' & HC & HL & HR).
  eapply sim_round; [done..|]. intros j r' Hj. by eapply (takeRound_dom i), mk_is_Some.
Qed.

Lemma sim_WEnd i c' rs : endRound i (cluster w) (rounds w) = Some (c', rs) → simulated n h (w <| cluster := c' |> <| rounds := rs |>).
Proof.
  intros HT. destruct (endRound_ok _ n _ s L i _ _ _ Hn (wr_cluster _ _ _ _ _ W) HT) as (s' & L' & HC & HL & HR).
  eapply sim_round; [done..|]. intros j r' Hj. by eapply (endRound_dom i), mk_is_Some.
Qed.

(** A server takes the next message of the round. *)
Lemma sim_WReceive i m msgs es kv kv' :
  rounds w !! i = Some (m :: msgs, es) → serverAt i w = Some kv → applyLog m kv = Some kv' →
  simulated n h (setServer i kv' w <| rounds := <[i := (msgs, es)]> (rounds w) |>).
Proof.
  intros Hround HA Happ. unfold serverAt in HA. inv_bind HA. rename x into kv0, E into Hkv. inv_bind HA. rename x into r, E into Hr. injection HA as <-.
  destruct (wr_servers _ _ _ _ _ W _ _ _ Hkv Hr) as (k & Hok & Hsv). rewrite Hround in Hok.
  destruct (round_receive _ _ _ _ _ _ Hok) as (e & He & Hidx & -> & Hok').
  change (RaftState.commandMsg e) with (commandMsg (Command e) (Index e)) in Happ.
  destruct (applyLog_command (Command e) (Index e) (kv0 <| rf := r |>)) as (kv1 & Hkv1 & Hsvc & _ & Hrf).
  assert (kv1 = kv') as -> by congruence. cbn in Hrf.
  assert (cluster (setServer i kv' w) = cluster w) as Hcl by (cbn; by rewrite Hrf, set_node_id).
  destruct (WRel_next n w h s L (setServer i kv' w <| rounds := <[i := (msgs, es)]> (rounds w) |>) s L)
    as (h' & HR & W'); try done; [cbn in *; rewrite Hcl; apply W| |apply W|by left|by eauto].
  intros j kv2 q Hkv2 Hq. change (nodes (cluster (setServer i kv' w)) !! j = Some q) in Hq. rewrite Hcl in Hq. cbn in Hkv2 |- *.
  destruct (decide (j = i)) as [->|Hne]; [|rewrite lookup_insert_ne in Hkv2 by done; rewrite lookup_insert_ne by done; by apply W].
  rewrite lookup_insert_eq in Hkv2. rewrite lookup_insert_eq. injection Hkv2 as <-. assert (q = r) as -> by congruence.
  exists (S k). split; [done|]. unfold serves in *. rewrite Hsvc. change (service (kv0 <| rf := r |>)) with (service kv0). rewrite Hsv.
  rewrite (take_S_r _ _ (Command e)), foldl_app; [done|]. by rewrite list_lookup_fmap, He.
Qed.

Lemma respond_same i op o w1 :
  requests (respond i op o w1) = requests w1 ∧ numbers (respond i op o w1) = numbers w1 ∧ users (respond i op o w1) = users w1 ∧
  cluster (respond i op o w1) = cluster w1 ∧ servers (respond i op o w1) = servers w1 ∧ rounds (respond i op o w1) = rounds w1.
Proof. by destruct o. Qed.

(** A handler's run, when the peers have moved to [c'] and [L'] is committed. *)
Lemma sim_respond i op o kv kv' r r' s' L' w1 :
  op ∈ requests w → servers w !! i = Some kv → nodes (cluster w) !! i = Some r →
  service kv' = service kv → LastApplied r' = LastApplied r → (∀ v, o = Succeeded v → replies op (kv <| rf := r |>) v) →
  CRel (λ op, op ∈ requests w) n (set_node i r' (cluster w)) s' L' → L `prefix_of` L' →
  requests w1 = requests w → numbers w1 = numbers w → users w1 = users w → cluster w1 = set_node i r' (cluster w) →
  servers w1 = <[i := kv']> (servers w) → rounds w1 = rounds w → answers w1 = answers w →
  (∀ x, x ∈ handlers w1 → x ∈ handlers w) → simulated n h (respond i op o w1).
Proof.
  intros Hop Hkv Hr Hk Ha Ho HC HL E1 E2 E3 E4 E5 E6 E7 E8.
  destruct (respond_same i op o w1) as (F1 & F2 & F3 & F4 & F5 & F6).
  destruct (WRel_next n w h s L (respond i op o w1) s' L') as (h' & HR & W'); [done|congruence|done|congruence..| | | |by eauto].
  - intros j k q. rewrite F4, F5, F6, E4, E5, E6. intros Hj Hq. destruct (decide (j = i)) as [->|Hne].
    + rewrite lookup_insert_eq in Hj. cbn in Hq. rewrite lookup_insert_eq in Hq. injection Hj as <-. injection Hq as <-. by eapply served_prefix.
    + rewrite lookup_insert_ne in Hj by done. cbn in Hq. rewrite lookup_insert_ne in Hq by done. by eapply served_prefix.
  - intros j q t Hj. destruct o; cbn in Hj; [by eapply W, E8|by eapply W, E8|].
    apply elem_of_cons in Hj as [[= _ -> _]|Hj]; [done|by eapply W, E8].
  - intros q v Hq. destruct o as [|v'|]; cbn in Hq; rewrite ?E7 in Hq; [by left| |by left].
    apply elem_of_cons in Hq as [[= -> ->]|Hq]; [right|by left].
    destruct (served_prefix i kv r L' r' kv Hkv Hr HL Ha eq_refl) as (k & Hle & Hsv).
    exists k, (kv <| rf := r |>). apply round_le in Hle. split_and!; [unfold zlen in Hle; lia|exact Hsv|by apply Ho].
Qed.

Lemma serverAt_Some i kv : serverAt i w = Some kv →
  ∃ kv0 r, servers w !! i = Some kv0 ∧ nodes (cluster w) !! i = Some r ∧ kv = kv0 <| rf := r |>.
Proof. unfold serverAt. intros HA. inv_bind HA. inv_bind HA. injection HA as <-. eauto. Qed.

Lemma sim_WRequest i op kv kv' o :
  op ∈ requests w → serverAt i w = Some kv → handle op kv = Some (kv', o) → simulated n h (respond i op o (setServer i kv' w)).
Proof.
  intros Hop (kv0 & r & Hkv & Hr & ->)%serverAt_Some HH.
  destruct (handle_cases op (kv0 <| rf := r |>) kv' o) as (Hsvc & Hrf & Ho); [by apply W|done|].
  destruct Hrf as [Hrf|(ret & HS)].
  - cbn in Hrf. eapply (sim_respond i op o kv0 kv' r r s L); try done; [by rewrite set_node_id by done; apply W|cbn; by rewrite Hrf].
  - cbn in HS. destruct (CRel_quiet _ n (cluster w) s L (Local i (OpStart op)) (set_node i (rf kv') (cluster w)) Hn (wr_cluster _ _ _ _ _ W)) as (s' & L' & HC & HL & HN);
      [done|done|eapply local_step; [done|done|cbn; by rewrite HS]|].
    destruct (HN i (rf kv')) as (r0 & Hr0 & Ha); [apply lookup_insert_eq|]. assert (r0 = r) as -> by congruence.
    by eapply (sim_respond i op o kv0 kv' r (rf kv') s' L').
Qed.

Lemma sim_WWake k i op t kv o :
  handlers w !! k = Some (i, op, t) → serverAt i w = Some kv → wakeup op t kv = Some o →
  simulated n h (respond i op o (w <| handlers := delete k (handlers w) |>)).
Proof.
  intros Hk (kv0 & r & Hkv & Hr & ->)%serverAt_Some HW.
  assert (op ∈ requests w) as Hop by (eapply (wr_handlers _ _ _ _ _ W), list_elem_of_lookup_2, Hk).
  eapply (sim_respond i op o kv0 kv0 r r s L); try done.
  - intros v ->. destruct (wakeup_cases op t (kv0 <| rf := r |>) (Succeeded v)) as [?|(v' & [= <-] & Hv)]; [by apply W|done|done|done].
  - rewrite set_node_id by done. apply W.
  - cbn. by rewrite set_node_id.
  - cbn. by rewrite insert_id.
  - cbn. intros x Hx. by apply elem_of_delete in Hx.
Qed.

Lemma sim_WUser ev C : clientOnly ev = true → clientStep ev (users w) = Some C → simulated n h (w <| users := C |>).
Proof.
  intros Hev HC. exists (mkHSys (sys h) C), s, L. split; [|destruct W; by split]. apply rtc_once.
  pose proof (wr_users _ _ _ _ _ W) as Hu. destruct h as [sh Ch]. cbn in *. subst Ch. by eapply h_client.
Qed.

Lemma sim_WIssue op C :
  clerk_op op → reqno op = completed (numbers w) (client op) + 1 → clientStep (CIssue op) (users w) = Some C →
  simulated n h (w <| requests := op :: requests w |> <| numbers := <[client op := reqno op]> (numbers w) |> <| users := C |>).
Proof.
  intros Hop Hnum HC. destruct W as [W1 W2 W3 W4 W5 W6 W7 W8 W9]. destruct h as [sh Ch]. cbn in *. subst Ch.
  do 3 eexists. split; [apply rtc_once; eapply h_issue; [exact Hop|exact HC|by rewrite W4]|]. split; cbn; try done.
  - eapply CRel_weaken; [|exact W1]. intros o Ho. by right.
  - by rewrite W3.
  - by rewrite W4.
  - intros o [->|Ho]%elem_of_cons; auto.
  - intros i o t Ho. right. by eapply W8.
Qed.

Lemma sim_WAnswer op out C :
  (op, out) ∈ answers w → clientStep (CAnswer op out) (users w) = Some C → simulated n h (w <| users := C |>).
Proof.
  intros Hin HC. destruct (wr_answers _ _ _ _ _ W _ _ Hin) as (k & kv & Hk & Hsv & Hr).
  destruct W as [W1 W2 W3 W4 W5 W6 W7 W8 W9]. destruct h as [sh Ch]. cbn in *. subst Ch.
  do 3 eexists. split; [apply rtc_once; eapply (h_answer op out k kv); [exact HC|by rewrite W2, length_fmap|by rewrite W2|done]|].
  by split.
Qed.

End events.

Lemma WRel_step n w h s L ev w' : 0 < n → WRel n w h s L → wstep ev w = Some w' → simulated n h w'.
Proof.
  intros Hn W HS. destruct ev as [ev|i|i|i|ev|op|i op|k|op out]; cbn in HS.
  - destruct (internal ev) eqn:Hi; [|done]. inv_bind HS. injection HS as <-. by eapply sim_WRaft.
  - inv_bind HS. destruct x. injection HS as <-. by eapply sim_WTake.
  - inv_bind HS. destruct x as [[|m msgs] es]; [done|]. inv_bind HS. inv_bind HS. injection HS as <-. by eapply sim_WReceive.
  - inv_bind HS. destruct x. injection HS as <-. by eapply sim_WEnd.
  - destruct (clientOnly ev) eqn:Hev; [|done]. inv_bind HS. injection HS as <-. by eapply sim_WUser.
  - destruct (decide _) as [[Hop Hnum]|]; [|done]. inv_bind HS. injection HS as <-. by eapply sim_WIssue.
  - destruct (decide _) as [Hop|]; [|done]. inv_bind HS. inv_bind HS. destruct x0 as [kv' o]. injection HS as <-. by eapply sim_WRequest.
  - inv_bind HS. destruct x as [[i op] t]. inv_bind HS. inv_bind HS. injection HS as <-. by eapply sim_WWake.
  - destruct (decide _) as [Hin|]; [|done]. inv_bind HS. injection HS as <-. by eapply sim_WAnswer.
Qed.

Lemma WRel_init env n : 0 < n →
  WRel n (init_world env n) hsys0 (init_machine (init_cluster env n)) [].
Proof.
  intros Hn. split; cbn; try done; try set_solver; [by apply CRel_init|].
  intros i kv r Hkv Hr. exists 0%nat. split; [by apply (round_init env n i)|]. rewrite map_lookup_imap in Hkv. inv_bind Hkv.
  unfold StartKVServer, ReadSnapshot in Hkv. cbn in Hkv. by injection Hkv as <-.
Qed.

Lemma WRel_reachable env n w :
  0 < n → rtc wrun (init_world env n) w → ∃ h s L, rtc (hstep (R := Raft Op)) hsys0 h ∧ WRel n w h s L.
Proof.
  intros Hn HR. assert (∃ h s L, rtc (hstep (R := Raft Op)) hsys0 h ∧ WRel n (init_world env n) h s L) as H0.
  { do 3 eexists. split; [done|by apply WRel_init]. }
  revert H0. induction HR as [|w1 w2 w3 [ev HS] _ IH]; [done|]. intros (h & s & L & Hh & W). apply IH.
  destruct (WRel_step _ _ _ _ _ _ _ Hn W HS) as (h' & s' & L' & Hh' & W'). exists h', s', L'. split; [by etrans|done].
Qed.

(** ** The theorems *)

(** C3: the replicated service refines a service with one log.  For every run of the
    peers, apply loops, servers, handlers and clients there is a run of the system in
    which requests are put on one log and a request is answered only from a part of
    the log that contains it, a Get with the value one map has after the first
    occurrences of the requests in that part; the clients see the same replies, every
    server holds that map for some part of the log that contains what its peer has
    applied, and what a peer has committed is a part of the log. *)
Theorem kvraft_refines_log env n w :
  0 < n → rtc wrun (init_world env n) w →
  ∃ a, rtc lstep logService0 a ∧ ls_clients a = users w ∧ ls_sent a = requests w ∧ ls_numbers a = numbers w ∧
    (∀ i kv r, servers w !! i = Some kv → nodes (cluster w) !! i = Some r →
       ∃ k, LastApplied r <= Z.of_nat k <= zlen (ls_log a) ∧ KVMap kv = mapAfter (firsts [] (take k (ls_log a)))) ∧
    ∀ i r, nodes (cluster w) !! i = Some r →
      Command <$> take (Z.to_nat (CommitIndex r)) (Logs r) `prefix_of` ls_log a.
Proof.
  intros Hn HR. destruct (WRel_reachable env n w Hn HR) as (h & s & L & Hh & W). exists (as_log h).
  destruct (HInv_reachable h Hh) as [g I]. split_and!; [by apply hsteps_lsteps|apply W|apply W|apply W|..]; cbn [as_log ls_log].
  - intros i kv r Hkv Hr. destruct (wr_servers _ _ _ _ _ W _ _ _ Hkv Hr) as (k & Hk & Hs).
    exists k. rewrite (mapAfter_log _ _ k I), <-(serves_firsts (sys h) k kv) by (try apply I; by rewrite (wr_log _ _ _ _ _ W)).
    split; [|done]. rewrite (wr_log _ _ _ _ _ W). apply round_le in Hk. unfold zlen in *. by rewrite length_fmap.
  - intros i r Hr. rewrite (wr_log _ _ _ _ _ W). destruct (cr_committed _ _ _ _ _ (wr_cluster _ _ _ _ _ W) _ _ Hr) as [l ->]. rewrite fmap_app. by eexists.
Qed.

(** C1: the replicated service is linearizable.  Whatever messages are lost, delayed,
    reordered or repeated, whichever leaders are elected and however clerks retry,
    once no call is under way the history the clients have recorded is that of one
    map on which every operation took effect at some moment between its call and its
    return; and porcupine's check of it against the key/value model returns true. *)
Theorem kvraft_linearizable env n w :
  0 < n → rtc wrun (init_world env n) w → calls (users w) = ∅ →
  linearizable MapModel (operations (users w)) ∧
  ∀ sort msgs, sorts sort → operations (users w) ≠ [] → kv_arrivals sort (operations (users w)) false msgs → TimeoutMsg ∉ msgs →
    CheckOperations sort KvModel (operations (users w)) msgs = Some true.
Proof.
  intros Hn HR Hc. destruct (WRel_reachable env n w Hn HR) as (h & s & L & Hh & W). pose proof (wr_users _ _ _ _ _ W) as Hu.
  destruct (recorded_linearizable h Hh) as [HT HL]; [by rewrite Hu|]. rewrite Hu in HT, HL. split; [done|].
  intros sort msgs Hsort Hne Harr Hnt. destruct (kv_verdict sort _ false msgs [] Hsort HT Hne Harr) as (res & info & Hv & Hres).
  unfold CheckOperations. rewrite Hv. cbn. by destruct res.
Qed.

End world.

(** ** A concrete run *)

Module ServiceExamples.
Import KVExamples.

Definition w0 : World := init_world (λ _, mkEnv 0 0) 3.
Definition tick1 : Env := mkEnv 1000000000 0.

Definition runAll (evs : list WEvent) (w : World) : option World := foldl (λ acc ev, w ← acc; wstep ev w) (Some w) evs.

Lemma runAll_wrun evs w w' : runAll evs w = Some w' → rtc wrun w w'.
Proof.
  unfold runAll. revert w. induction evs as [|ev evs IH]; cbn; intros w HR; [by simplify_eq|].
  destruct (wstep ev w) as [w1|] eqn:HS; [eapply rtc_l; [by exists ev|by apply IH]|].
  exfalso. clear -HR. induction evs; [done|auto].
Qed.

Definition getx : GetArgs := mkGet "x" 8 1.

(** Peer 0 wins term 1. *)
Definition elect0 : list WEvent := [WRaft (Tick 0 tick1); WRaft (Vote 0 2 tick1); WRaft (VoteBack 0 2 true)].

(** The leader replicates its log to peer 2, commits, and the server applies. *)
Definition commit0 (k : nat) : list WEvent :=
  [WRaft (Replicate 0 2 1); WRaft (Deliver k tick1); WRaft (RaftElection.Return 0 true); WRaft (Local 0 (OpUpdateCommit 1)); WTake 0; WReceive 0; WEnd 0].

Definition put_run : list WEvent :=
  [WUser (CBegin 7 0); WIssue (putOp put1); WRequest 0 (putOp put1)] ++ commit0 2 ++
  [WWake 0; WRequest 0 (putOp put1); WAnswer (putOp put1) ""; WUser (CTick 5); WUser (CEnd 7)].

(** A Get of another client overlaps the Put. *)
Definition get_run : list WEvent :=
  [WIssue (getOp getx); WRequest 0 (getOp getx)] ++ commit0 2 ++ [WWake 0; WAnswer (getOp getx) "a"; WUser (CTick 9); WUser (CEnd 8)].

Definition whole_run : list WEvent := elect0 ++ [WUser (CBegin 8 1)] ++ put_run ++ get_run.
Definition w1 : World := default w0 (runAll whole_run w0).

Lemma w1_reached : rtc wrun (init_world (λ _, mkEnv 0 0) 3) w1.
Proof. apply (runAll_wrun whole_run). vm_compute. reflexivity. Qed.

Lemma kvraft_linearizable_witness :
  length (operations (users w1)) = 2%nat ∧ linearizable MapModel (operations (users w1)).
Proof.
  split; [vm_compute; reflexivity|].
  destruct (kvraft_linearizable (λ _, mkEnv 0 0) 3 w1) as [HL _]; [lia|apply w1_reached|vm_compute; reflexivity|exact HL].
Defined.

Lemma kvraft_refines_log_witness :
  ∃ a k, rtc lstep logService0 a ∧ ls_clients a = users w1 ∧ ls_sent a = [getOp getx; putOp put1] ∧
    {["x" := "a"]} = mapAfter (firsts [] (take k (ls_log a))).
Proof.
  destruct (kvraft_refines_log (λ _, mkEnv 0 0) 3 w1) as (a & Ha & Hc & Hs & _ & Hm & _); [lia|apply w1_reached|].
  assert (∃ kv r, servers w1 !! 0 = Some kv ∧ nodes (cluster w1) !! 0 = Some r ∧ KVMap kv = {["x" := "a"]}) as (kv & r & Hkv & Hr & HK).
  { eexists _, _. split_and!; vm_compute; reflexivity. }
  destruct (Hm 0 kv r Hkv Hr) as (k & _ & HK'). exists a, k.
  split; [exact Ha|]. split; [exact Hc|]. split; [rewrite Hs; vm_compute; reflexivity|]. by rewrite <-HK, <-HK'.
Defined.

End ServiceExamples.
