(* ===== verification/ShardSystem.v ===== *)
(** * The sharded service as one system

    The controller, the groups with their servers, and the clients of the tests on
    top of them: every function of shardkv/server.go that changes a server is an
    event of the system.  Of Raft a server sees a [Peer]: it may lead, what a leader
    starts may be committed, every server of the group gets the committed commands in
    one order or a snapshot another server of the group has taken.  Servers fail and
    start again from their snapshots. *)

From S2P Require Import Prelude Bitset Porcupine LinkedList Linearize LinearSearch LinearCheck Histories LinearVerdict KvModel Recording.
From S2P Require Import LabGob Persister Raft RaftLog RaftState RaftApi Dedup Clerk ShardCtrler Rebalance CtrlerState ShardKV Migration.
From S2P Require Import ShardGroups ShardReplicas.

(** ** A server's Raft peer *)

Record Peer := mkPeer {
  leading : bool;
  term : Z;
  size : Z;                       (* of the persisted state *)
  started : list Op;              (* what the server has started while it led *)
  saved : option (Z * bytes);     (* the snapshot, with the index it stands for *)
}.

Definition peer0 : Peer := mkPeer false 0 0 [] None.

#[export] Program Instance peer_api : RaftApi Op Peer := {|
  rf_ok := λ _, True;
  rf_GetState := λ p, (term p, leading p);
  rf_Start := λ op p,
    if leading p then Some (mkPeer (leading p) (term p) (size p) (started p ++ [op]) (saved p), (zlen (started p) + 1, term p, true))
    else Some (p, (-1, -1, false));
  rf_Snapshot := λ idx data p, Some (mkPeer (leading p) (term p) (size p) (started p) (Some (idx, data)));
  rf_StateSize := size;
  rf_Kill := λ p, p;
|}.
Next Obligation. intros op p _. cbn. destruct (leading p) eqn:E; do 2 eexists; split_and!; try done; cbn; by rewrite ?E; eauto. Qed.
Next Obligation. intros idx data p _. by eexists. Qed.
Next Obligation. done. Qed.

(** ** Requests *)

#[export] Instance shard_request : Request Op := {| client := ClientId; reqno := ReqNo |}.

Definition getOp (a : GetArgs) : Op := mkOp GET a PutAppendArgs0 (ga_ClientId a) (ga_ReqNo a) Config0 [] ClientInfo0.
Definition putOp (a : PutAppendArgs) : Op :=
  mkOp (if String.eqb (pa_Op a) "Put" then PUT else APPEND) GetArgs0 a (pa_ClientId a) (pa_ReqNo a) Config0 [] ClientInfo0.

#[export] Instance config_eq : EqDecision Config.
Proof. solve_decision. Defined.
#[export] Instance getargs_eq : EqDecision GetArgs.
Proof. solve_decision. Defined.
#[export] Instance putargs_eq : EqDecision PutAppendArgs.
Proof. solve_decision. Defined.
#[export] Instance optype_eq : EqDecision OpType.
Proof. solve_decision. Defined.
#[export] Instance shift_eq : EqDecision ShiftShard.
Proof. solve_decision. Defined.
#[export] Instance info_eq : EqDecision ClientInfo.
Proof. solve_decision. Defined.
#[export] Instance op_eq : EqDecision Op.
Proof. solve_decision. Defined.

(** The requests the clerks' [Get], [Put] and [Append] make. *)
Definition clerk_op (op : Op) : Prop :=
  match opType op with
  | GET => op = getOp (GetArg op) ∧ ga_ShardId (GetArg op) = key2shard (ga_Key (GetArg op))
  | _ => op = putOp (PutAppendArg op) ∧ pa_ShardId (PutAppendArg op) = key2shard (pa_Key (PutAppendArg op)) ∧
      (pa_Op (PutAppendArg op) = "Put" ∨ pa_Op (PutAppendArg op) = "Append")
  end.
#[export] Instance clerk_op_dec op : Decision (clerk_op op).
Proof. unfold clerk_op. destruct (opType op); apply _. Defined.

(** What the test records as the input of a request. *)
#[export] Instance shardInput : Recorded Op := λ op,
  match opType op with
  | GET => mkKvInput 0 (ga_Key (GetArg op)) EmptyString
  | PUT => mkKvInput 1 (pa_Key (PutAppendArg op)) (pa_Value (PutAppendArg op))
  | _ => mkKvInput 2 (pa_Key (PutAppendArg op)) (pa_Value (PutAppendArg op))
  end.

(** ** The system *)

Section system.
Context `{!Gob SnapshotState}.
(** The order in which the [n]th step meets its maps; the server a name stands for. *)
Context (ords : nat → Order) (address : string → Z * Z).
#[local] Notation Server := (ShardKV Peer).
Implicit Types (op : Op) (skv : Server) (srv : Z * Z).

Record World := mkWorld {
  steps : nat;
  configs : list Config;                              (* the controller's log *)
  commits : list (Z * Op);                            (* what the groups have committed, in the order of time *)
  servers : gmap (Z * Z) Server;                      (* by group and number *)
  starting : list (Z * Z * Op);                       (* go skv.rf.Start(op) *)
  pulls : list (Z * Z * list string * PullShardsArgs);(* go skv.doPullShards(...) *)
  results : list (Z * Z * nat * Result);              (* sent on a channel *)
  handlers : list (Z * Z * Op * nat);                 (* waiting: server, request, channel *)
  answers : list (Op * string);                       (* successful replies *)
  requests : list Op;                                 (* every request a clerk has sent *)
  seq : Z;                                            (* numbers the requests of all clerks *)
  users : Clients Op;
}.

#[export] Instance eta_World : Eta World := λ w,
  mkWorld (steps w) (configs w) (commits w) (servers w) (starting w) (pulls w) (results w) (handlers w) (answers w)
    (requests w) (seq w) (users w).
#[export] Instance set_steps : Setter steps.
Proof. setter. Defined.
#[export] Instance set_configs : Setter configs.
Proof. setter. Defined.
#[export] Instance set_commits : Setter commits.
Proof. setter. Defined.
#[export] Instance set_servers : Setter servers.
Proof. setter. Defined.
#[export] Instance set_starting : Setter starting.
Proof. setter. Defined.
#[export] Instance set_pulls : Setter pulls.
Proof. setter. Defined.
#[export] Instance set_results : Setter results.
Proof. setter. Defined.
#[export] Instance set_handlers : Setter handlers.
Proof. setter. Defined.
#[export] Instance set_answers : Setter answers.
Proof. setter. Defined.
#[export] Instance set_requests : Setter requests.
Proof. setter. Defined.
#[export] Instance set_seq : Setter seq.
Proof. setter. Defined.
#[export] Instance set_users : Setter users.
Proof. setter. Defined.

Definition setServer srv skv (w : World) : World := w <| servers := <[srv := skv]> (servers w) |>.

(** How the run of a handler ends, as the clerk sees it. *)
Inductive Outcome := Failed | Succeeded (value : string) | Waits (ch : nat).

Definition getOutcome (r : GetReply) : Outcome :=
  if String.eqb (gr_Err r) OK || String.eqb (gr_Err r) ErrNoKey then Succeeded (gr_Value r) else Failed.
Definition putOutcome (r : PutAppendReply) : Outcome := if String.eqb (par_Err r) OK then Succeeded EmptyString else Failed.

Definition handle op skv : option (Server * Outcome) :=
  match opType op with
  | GET =>
    '(skv, r) ← GetBegin (GetArg op) skv;
    Some (skv, match r with inl reply => getOutcome reply | inr ch => Waits ch end)
  | _ =>
    '(skv, r) ← PutAppendBegin (PutAppendArg op) skv;
    Some (skv, match r with inl reply => putOutcome reply | inr ch => Waits ch end)
  end.

(** After the wait: a result from the channel, or the timeout. *)
Definition resume op (r : option Result) skv : Server * Outcome :=
  match opType op with
  | GET => let '(skv, reply) := GetEnd (GetArg op) r skv in (skv, getOutcome reply)
  | _ => let '(skv, reply) := PutAppendEnd (PutAppendArg op) r skv in (skv, putOutcome reply)
  end.

Definition respond srv op (o : Outcome) (w : World) : World :=
  match o with
  | Failed => w
  | Succeeded v => w <| answers := (op, v) :: answers w |>
  | Waits ch => w <| handlers := (srv, op, ch) :: handlers w |>
  end.

(** What the controller's clerk returns from [Query]: the answer of a server that has
    executed [k] commands' configurations, or the empty one a repeated request gets. *)
Definition ctrlAnswer (seen : option nat) (cfgs : list Config) (num : Z) : Config :=
  match seen with Some k => default zeroConfig (queried num (take k cfgs)) | None => zeroConfig end.

(** What [checkMissShards] starts: commands and goroutines. *)
Definition startAction srv (w : World) (a : PullAction) : World :=
  match a with
  | StartOp op => w <| starting := (srv, op) :: starting w |>
  | PullFrom names configNum shards => w <| pulls := (srv, names, mkPull configNum shards) :: pulls w |>
  end.

Inductive Event :=
  | EUser (ev : ClientEvent Op)
  | EIssue (op : Op)                       (* a clerk numbers a request and sends it *)
  | ERequest (srv : Z * Z) (op : Op)       (* a request reaches a server *)
  | EResume (k : nat) (r : option nat)     (* a waiting handler goes on with a result, or times out *)
  | EAnswer (op : Op) (out : string)       (* a successful reply reaches the clerk *)
  | EControl (op : ShardCtrler.Op)         (* the controller executes a command *)
  | ERaft (srv : Z * Z) (leads : bool) (t sz : Z)   (* the peer changes *)
  | ECommit (srv : Z * Z) (k : nat)        (* a started command is committed *)
  | EApply (srv : Z * Z)                   (* applyLog: the next command *)
  | ESnapshot (srv : Z * Z)                (* a round of Snapshot *)
  | EInstall (srv src : Z * Z)             (* applyLog: the snapshot of another server *)
  | ERestart (srv : Z * Z)                 (* the server fails and starts again *)
  | EUpdateConfig (srv : Z * Z) (seen : option nat)
  | ECheckMiss (srv : Z * Z)
  | EPull (k : nat) (name : string)        (* a ShardDock call of a goroutine *)
  | EPullStop (k : nat)
  | EStart (k : nat)
  | EHello (srv : Z * Z) (nums : gmap Z Z) (* sayHello, with what the others answered *).

Definition step (ord : Order) (ev : Event) (w : World) : option World :=
  match ev with
  | EUser ev => if clientOnly ev then C ← clientStep ev (users w); Some (w <| users := C |>) else None
  | EIssue op =>
    if decide (clerk_op op ∧ reqno op = seq w + 1 ∧ seq w + 1 < 2 ^ 63) then
      C ← clientStep (CIssue op) (users w);
      Some (w <| requests := op :: requests w |> <| seq := seq w + 1 |> <| users := C |>)
    else None
  | ERequest srv op =>
    if decide (op ∈ requests w) then
      skv ← servers w !! srv;
      '(skv, o) ← handle op skv;
      Some (respond srv op o (setServer srv skv w))
    else None
  | EResume k None =>
    '(srv, op, ch) ← handlers w !! k;
    skv ← servers w !! srv;
    let '(skv, o) := resume op None skv in
    Some (respond srv op o (setServer srv skv w <| handlers := delete k (handlers w) |>))
  | EResume k (Some j) =>
    '(srv, op, ch) ← handlers w !! k;
    '(srv', ch', res) ← results w !! j;
    if decide (srv' = srv ∧ ch' = ch) then
      skv ← servers w !! srv;
      let '(skv, o) := resume op (Some res) skv in
      Some (respond srv op o (setServer srv skv w <| handlers := delete k (handlers w) |> <| results := delete j (results w) |>))
    else None
  | EAnswer op out =>
    if decide ((op, out) ∈ answers w) then C ← clientStep (CAnswer op out) (users w); Some (w <| users := C |>) else None
  | EControl op => cfgs ← ShardCtrler.execute ord op (configs w); Some (w <| configs := cfgs |>)
  | ERaft srv leads t sz =>
    skv ← servers w !! srv;
    Some (setServer srv (skv <| rf := mkPeer leads t sz (started (rf skv)) (saved (rf skv)) |>) w)
  | ECommit srv k =>
    skv ← servers w !! srv;
    op ← started (rf skv) !! k;
    Some (w <| commits := commits w ++ [(srv.1, op)] |>)
  | EApply srv =>
    skv ← servers w !! srv;
    op ← logOf srv.1 (commits w) !! Z.to_nat (CommitedId skv);
    '(skv, sends) ← applyLog ord (mkApplyMsg true (Some op) (CommitedId skv + 1) false [] 0 0) skv;
    Some (setServer srv skv w <| results := ((λ x, (srv, x.1, x.2)) <$> sends) ++ results w |>)
  | ESnapshot srv => skv ← servers w !! srv; skv ← Snapshot skv; Some (setServer srv skv w)
  | EInstall srv src =>
    if decide (srv.1 = src.1) then
      skv ← servers w !! srv;
      skv' ← servers w !! src;
      '(idx, data) ← saved (rf skv');
      '(skv, sends) ← applyLog ord (mkApplyMsg false None 0 true data 0 idx) skv;
      Some (setServer srv skv w)
    else None
  | ERestart srv =>
    skv ← servers w !! srv;
    skv ← StartServer (mkPeer false (term (rf skv)) (size (rf skv)) (started (rf skv)) (saved (rf skv))) srv.2
            (mkPersister [] (match saved (rf skv) with Some (_, data) => data | None => [] end)) (maxraftstate skv) srv.1;
    Some (setServer srv skv w
            <| starting := filter (λ x, x.1 ≠ srv) (starting w) |>
            <| pulls := filter (λ x, x.1.1 ≠ srv) (pulls w) |>
            <| results := filter (λ x, x.1.1 ≠ srv) (results w) |>
            <| handlers := filter (λ x, x.1.1 ≠ srv) (handlers w) |>)
  | EUpdateConfig srv seen =>
    skv ← servers w !! srv;
    skv ← updateConfig (ctrlAnswer seen (configs w)) skv;
    Some (setServer srv skv w)
  | ECheckMiss srv =>
    skv ← servers w !! srv;
    acts ← checkMissShards ord skv;
    Some (foldl (startAction srv) w acts)
  | EPull k name =>
    '(srv, names, args) ← pulls w !! k;
    if decide (name ∈ (names : list string)) then
      other ← servers w !! address name;
      let reply := ShardDock args other in
      if pr_Success reply
      then Some (w <| starting := (srv, shardsOp (pr_ShiftShards reply) (pr_ClientInfo reply)) :: starting w |>
                   <| pulls := delete k (pulls w) |>)
      else Some w
    else None
  | EPullStop k =>
    '(srv, names, args) ← pulls w !! k;
    skv ← servers w !! srv;
    if negb (Num (CurConfig skv) =? ps_ConfigNum args) then Some (w <| pulls := delete k (pulls w) |>) else None
  | EStart k =>
    '(srv, op) ← starting w !! k;
    skv ← servers w !! srv;
    '(r, _) ← rf_Start op (rf skv);
    Some (setServer srv (skv <| rf := r |>) w <| starting := delete k (starting w) |>)
  | EHello srv nums => skv ← servers w !! srv; Some (setServer srv (sayHelloEnd ord nums skv) w)
  end.

Definition wstep (ev : Event) (w : World) : option World := step (ords (steps w)) ev (w <| steps := S (steps w) |>).
Definition wrun (w w' : World) : Prop := ∃ ev, wstep ev w = Some w'.

(** Fresh servers, a controller without groups, no clients. *)
Definition bootServer (maxrs : Z) srv : Server :=
  mkShardKV srv.2 peer0 srv.1 maxrs 0 Config0 Config0 ∅ ∅ ClientInfo0 ∅ 0 ∅ ∅ ∅ 0.
Definition init_world (maxrs : Z) (srvs : list (Z * Z)) : World :=
  mkWorld 0 [Config0] [] (list_to_map ((λ srv, (srv, bootServer maxrs srv)) <$> srvs)) [] [] [] [] [] [] 0 (mkClients 0 ∅ []).

Lemma bootServer_StartServer maxrs srv : StartServer peer0 srv.2 MakePersister maxrs srv.1 = Some (bootServer maxrs srv).
Proof. done. Qed.

End system.
