(* ===== verification/ShardSafety.v ===== *)
(** * Safety of the sharded service

    Runs of the system of [ShardSystem]: every server is a replica of its group's log
    ([ShardReplicas]), the logs together keep every shard in one place
    ([ShardGroups]), and what a server answers is what a single store would. *)

From S2P Require Import Prelude Bitset Porcupine LinkedList Linearize LinearSearch LinearCheck Histories LinearVerdict KvModel Recording.
From S2P Require Import LabGob Persister Raft RaftLog RaftState RaftApi Dedup Clerk ShardCtrler Rebalance CtrlerState ShardKV Migration.
From S2P Require Import ShardService ShardGroups ShardReplicas ShardSystem.

(** One order of maps for what the groups do. *)
Definition byKey : Order := λ _ _ m, map_to_list m.
Lemma byKey_valid : valid_order byKey.
Proof. by intros s V m. Qed.

Section safety.
Context `{!Gob SnapshotState} (ords : nat → Order) (Hords : ∀ n, valid_order (ords n)) (address : string → Z * Z).
(** The configurations and the requests of the whole run. *)
Context (F : list Config) (S : list Op) (ST : setting F (λ op, op ∈ S)).
#[local] Notation Server := (ShardKV Peer).
#[local] Notation grp := (groupOf byKey peer0).
#[local] Notation com := (committed byKey F (λ op, op ∈ S) peer0).
#[local] Notation prop G := (proposal F (λ op, op ∈ S) (grp G)).
#[local] Notation execd := (executions byKey peer0).
Implicit Types (op : Op) (skv : Server) (srv : Z * Z) (G : list (Z * Op)).

(** ** What a request got *)

(** The [N]th commit executes the request. *)
Definition doneAt G op (N : nat) : Prop := ∃ g, G !! N = Some (g, op) ∧ executes op (grp (take N G) g) = true.
Definition storeAt G (N : nat) : gmap string string := store (execd (take N G)).

(** The answer to a request, with the moment it is right: when the request was
    executed, or, for a Get, at a later one. *)
Inductive answeredAt G op (v : string) : nat → Prop :=
  | answered_done N : doneAt G op N → v = (effect op (storeAt G N)).2 → answeredAt G op v (2 * N)
  | answered_read N M : opType op = GET → (M < N <= length G)%nat → doneAt G op M →
      v = getValue (storeAt G N) (opKey op) → answeredAt G op v (2 * N - 1).

Lemma doneAt_lt G op N : doneAt G op N → (N < length G)%nat.
Proof. intros (g & Hg & _). by apply lookup_lt_Some in Hg. Qed.

Lemma doneAt_take G op N M : (M <= length G)%nat → doneAt (take M G) op N ↔ (N < M)%nat ∧ doneAt G op N.
Proof.
  intros HM. unfold doneAt. destruct (decide (N < M)%nat) as [Hlt|Hge].
  - setoid_rewrite lookup_take_lt; [|done]. rewrite take_take. replace (N `min` M)%nat with N by lia. naive_solver.
  - rewrite lookup_take_ge by lia. naive_solver lia.
Qed.

Lemma doneAt_app G l op N : doneAt G op N → doneAt (G ++ l) op N.
Proof.
  intros HD. pose proof (doneAt_lt _ _ _ HD). apply (doneAt_take _ _ _ (length G)); [rewrite length_app; lia|].
  by rewrite take_app_length.
Qed.

Lemma answeredAt_app G l op v r : answeredAt G op v r → answeredAt (G ++ l) op v r.
Proof.
  intros [N HD ->|N M Hg HN HD ->]; unfold storeAt.
  - pose proof (doneAt_lt _ _ _ HD). apply answered_done; [by apply doneAt_app|]. unfold storeAt. by rewrite take_app_le by lia.
  - apply (answered_read _ _ _ N M); [done|rewrite length_app; lia|by apply doneAt_app|]. unfold storeAt. by rewrite take_app_le by lia.
Qed.

Lemma executions_elem G op : op ∈ execd G ↔ ∃ N, doneAt G op N.
Proof.
  unfold executions, doneAt. rewrite list_elem_of_In, in_concat. setoid_rewrite <-list_elem_of_In. split.
  - intros (l & Hl & Hop). apply elem_of_lookup_imap_1 in Hl as (N & [g o] & -> & Hx). unfold executed1 in Hop. cbn in Hop.
    destruct (executes o _) eqn:HE; [|by apply elem_of_nil in Hop]. apply list_elem_of_singleton in Hop as ->. by exists N, g.
  - intros (N & g & HN & HE). exists [op]. split; [|by left]. apply elem_of_lookup_imap. exists N, (g, op).
    unfold executed1. cbn. by rewrite HE.
Qed.

(** ** Servers *)

Definition atLog G (g : Z) (p : nat) skv : Prop :=
  (p <= length (logOf g G))%nat ∧ CommitedId skv = Z.of_nat p ∧ rep skv (replay byKey peer0 g (take p (logOf g G))).

Definition saved_ok G (g : Z) (x : option (Z * bytes)) : Prop :=
  match x with
  | None => True
  | Some (idx, data) => ∃ p skv, atLog G g p skv ∧ idx = CommitedId skv ∧ data = gob_encode (snapshotState skv)
  end.

Record server_ok G srv skv : Prop := {
  so_group : srv.1 ≠ 0;
  so_at : ∃ p, atLog G srv.1 p skv;
  so_started : ∀ op, op ∈ started (rf skv) → prop G srv.1 op;
  so_saved : saved_ok G srv.1 (saved (rf skv));
}.

Definition result_ok G (res : Result) : Prop :=
  Err res ≠ ErrNoKey ∧
  (Err res = OK → ∃ op r, op ∈ S ∧ request op = (r_ClientId res, r_ReqNo res) ∧ answeredAt G op (Value res) r).

Definition waiting op (C : Clients Op) : Prop := ∃ st, calls C !! client op = Some (Waiting st op).

Record sinv (w : World) : Prop := {
  v_configs : configs w `prefix_of` F;
  v_requests : ∀ op, op ∈ requests w → op ∈ S ∧ clerk_op op ∧ ReqNo op <= seq w;
  v_committed : com (commits w);
  v_sent : ∀ g op, (g, op) ∈ commits w → 1 <= ReqNo op → op ∈ requests w;
  v_servers : ∀ srv skv, servers w !! srv = Some skv → server_ok (commits w) srv skv;
  v_started : ∀ srv skv op, servers w !! srv = Some skv → op ∈ started (rf skv) → 1 <= ReqNo op → op ∈ requests w;
  v_starting : ∀ srv op, (srv, op) ∈ starting w → prop (commits w) srv.1 op ∧ ReqNo op = 0;
  v_results : ∀ srv ch res, (srv, ch, res) ∈ results w → result_ok (commits w) res;
  v_handlers : ∀ srv op ch, (srv, op, ch) ∈ handlers w → op ∈ requests w;
  v_answers : ∀ op v, (op, v) ∈ answers w → op ∈ requests w ∧
    (waiting op (users w) → ∃ r, answeredAt (commits w) op v r);
  v_waiting : ∀ op, waiting op (users w) → op ∈ requests w ∧
    ∀ op', op' ∈ requests w → client op' = client op → ReqNo op' <= ReqNo op;
}.

Lemma atLog_app G l g p skv : atLog G g p skv → atLog (G ++ l) g p skv.
Proof.
  intros (Hp & Hc & HR). unfold atLog. assert (logOf g (G ++ l) = logOf g G ++ logOf g l) as ->.
  { unfold logOf. by rewrite filter_app, fmap_app. }
  rewrite length_app, take_app_le by done. split_and!; [lia|done|done].
Qed.

Lemma saved_ok_app G l g x : saved_ok G g x → saved_ok (G ++ l) g x.
Proof. destruct x as [[idx data]|]; [|done]. intros (p & skv & Ha & ? & ?). exists p, skv. split; [by apply atLog_app|done]. Qed.

(** The part of a server the log is about. *)
Definition service skv :=
  (gid skv, CurConfig skv, LastConfig skv, Shards skv, ShardKVMap skv, Info skv, OutShardsDock skv, Config2ClientInfo skv,
   CommitedId skv).

Lemma rep_service skv skv' τ : service skv' = service skv → rep skv τ → rep skv' τ.
Proof. intros [= E1 E2 E3 E4 E5 E6 E7 E8 _] []. split; rewrite ?E1, ?E2, ?E3, ?E4, ?E5, ?E6, ?E7, ?E8; done. Qed.

Lemma server_ok_service G srv skv skv' :
  server_ok G srv skv → service skv' = service skv → saved (rf skv') = saved (rf skv) →
  (∀ op, op ∈ started (rf skv') → op ∈ started (rf skv) ∨ prop G srv.1 op) → server_ok G srv skv'.
Proof.
  intros [Hg [p (Hp & Hc & HR)] Hs Hsv] HE Hsave Hst. split; [done| |naive_solver|by rewrite Hsave].
  exists p. split_and!; [done|by injection HE as _ _ _ _ _ _ _ _ ->|by eapply rep_service].
Qed.

(** The state of a server is one the group was in. *)
Lemma server_past G srv skv : com G → server_ok G srv skv →
  ∃ N, (N <= length G)%nat ∧ rep skv (grp (take N G) srv.1) ∧ winv F (λ op, op ∈ S) (grp (take N G)) (execd (take N G)) (take N G).*2.
Proof.
  intros HG [_ [p (Hp & _ & HR)] _ _]. destruct (logOf_take _ _ _ Hp) as (N & HN & Hl & _). exists N. split_and!; [done| |].
  - unfold groupOf. by rewrite Hl.
  - by eapply committed_winv, committed_take; [apply byKey_valid| |].
Qed.

(** ** Small changes *)

Lemma sinv_setServer w srv skv :
  sinv w → server_ok (commits w) srv skv → (∀ op, op ∈ started (rf skv) → 1 <= ReqNo op → op ∈ requests w) →
  sinv (setServer srv skv w).
Proof.
  intros [] Hok Hst. split; try done; cbn.
  - intros srv' skv' [[<- <-]|[_ ?]]%lookup_insert_Some; auto.
  - intros srv' skv' op [[<- <-]|[_ ?]]%lookup_insert_Some; eauto.
Qed.

(** The rest of the system when goroutines, handlers or results go away. *)
Definition core (w : World) := (configs w, commits w, servers w, answers w, requests w, seq w, users w).

Lemma sinv_less w w' :
  sinv w → core w' = core w → (∀ x, x ∈ starting w' → x ∈ starting w) → (∀ x, x ∈ results w' → x ∈ results w) →
  (∀ x, x ∈ handlers w' → x ∈ handlers w) → sinv w'.
Proof.
  intros [] [= E1 E2 E3 E4 E5 E6 E7] H1 H2 H3. split; rewrite ?E1, ?E2, ?E3, ?E4, ?E5, ?E6, ?E7; try done; eauto.
Qed.

Lemma sinv_respond w srv op o :
  sinv w → op ∈ requests w → (∀ v, o = Succeeded v → waiting op (users w) → ∃ r, answeredAt (commits w) op v r) →
  sinv (respond srv op o w).
Proof.
  intros I Hop Ho. destruct o as [|v|ch]; cbn; [done|..]; destruct I; split; try done; cbn.
  - intros op' v' [[= -> ->]|?]%elem_of_cons; eauto.
  - intros srv' op' ch' [[= -> -> ->]|?]%elem_of_cons; eauto.
Qed.

(** ** Requests at a server *)

Lemma executed_executedIn c r skv : executed c r skv = true ↔ executedIn (Info skv) c r.
Proof.
  unfold executed, executedIn. rewrite orb_true_iff, andb_true_iff, Z.ltb_lt, Z.eqb_eq, String.eqb_eq. done.
Qed.

Lemma requests_ok w op : sinv w → op ∈ requests w → isClientOp op = true ∧ op_ok op ∧ 1 <= ReqNo op.
Proof. intros I Hop. by apply (st_sent _ _ ST), (v_requests _ I). Qed.

(** A request the sessions show as done was executed before. *)
Lemma executed_past w srv skv op :
  sinv w → servers w !! srv = Some skv → waiting op (users w) → executed (ClientId op) (ReqNo op) skv = true →
  ∃ N M, (M < N <= length (commits w))%nat ∧ doneAt (commits w) op M ∧ rep skv (grp (take N (commits w)) srv.1) ∧
    winv F (λ op, op ∈ S) (grp (take N (commits w))) (execd (take N (commits w))) (take N (commits w)).*2.
Proof.
  intros I Hs Hw HE. destruct (v_waiting _ I op Hw) as [Hop Hlast]. destruct (requests_ok w op I Hop) as (_ & _ & Hr).
  destruct (server_past (commits w) srv skv) as (N & HN & HR & W); [apply I|by apply (v_servers _ I)|].
  apply executed_executedIn in HE. rewrite (rp_info _ _ HR) in HE. unfold executedIn in HE.
  set (ci := Info (grp (take N (commits w)) srv.1)) in *.
  destruct (w_real _ _ _ _ _ W srv.1 (ClientId op)) as [(o & Ho & Heq) HOK]; [fold ci; lia|]. fold ci in Heq, HOK.
  injection Heq as Hc1 Hc2. apply list_elem_of_fmap in Ho as ([g o'] & -> & Ho). cbn in *.
  assert ((g, o') ∈ commits w) as Ho' by (apply elem_of_take in Ho as (? & ? & _); by eapply list_elem_of_lookup_2).
  assert (ReqNo o' <= ReqNo op) as Hle by (apply Hlast; [apply (v_sent _ I g); [done|lia]|done]).
  destruct HE as [?|[Heq HE]]; [lia|]. destruct (HOK HE) as (x & Hx & Hreq). rewrite <-Heq in Hreq.
  assert (x = op) as ->.
  { apply (st_unique _ _ ST); [by apply (w_sent _ _ _ _ _ W)|by apply (v_requests _ I)|by rewrite Hreq]. }
  apply executions_elem in Hx as [M HM]. apply doneAt_take in HM as [? ?]; [|done]. exists N, M. by split_and!.
Qed.

Lemma effect_put op m : opType op ≠ GET → (effect op m).2 = "".
Proof. unfold effect. by destruct (opType op). Qed.

Lemma put_answered G op M : opType op ≠ GET → doneAt G op M → ∃ r, answeredAt G op "" r.
Proof. intros Hp HD. eexists. apply (answered_done _ _ _ M); [done|]. by rewrite effect_put. Qed.

(** A command is started. *)
Lemma started_ok w srv skv op r x skv' :
  sinv w → servers w !! srv = Some skv → prop (commits w) srv.1 op → (1 <= ReqNo op → op ∈ requests w) →
  rf_Start op (rf skv) = Some (r, x) → service skv' = service skv → rf skv' = r →
  server_ok (commits w) srv skv' ∧ (∀ o, o ∈ started (rf skv') → 1 <= ReqNo o → o ∈ requests w).
Proof.
  intros I Hs Hprop Hreq HR HE Hrf. pose proof (v_servers _ I _ _ Hs) as Hok. cbn in HR.
  assert (saved r = saved (rf skv) ∧ ∀ o, o ∈ started r → o ∈ started (rf skv) ∨ o = op) as [Hsv Hst].
  { destruct (leading (rf skv)); injection HR as <- _; cbn; [|by auto]. split; [done|].
    intros o [?|?%list_elem_of_singleton]%elem_of_app; auto. }
  split.
  - eapply server_ok_service; [done|done|by rewrite Hrf|]. rewrite Hrf. intros o [?| ->]%Hst; auto.
  - rewrite Hrf. intros o [?| ->]%Hst; [by eapply (v_started _ I)|done].
Qed.

Lemma start_ok w srv skv op r x skv' :
  sinv w → servers w !! srv = Some skv → op ∈ requests w → rf_Start op (rf skv) = Some (r, x) →
  service skv' = service skv → rf skv' = r →
  server_ok (commits w) srv skv' ∧ (∀ o, o ∈ started (rf skv') → 1 <= ReqNo o → o ∈ requests w).
Proof. intros I Hs Hop. apply started_ok; [done|done| |done]. by apply prop_request, (v_requests _ I). Qed.

Lemma handle_ok w srv skv op skv' o :
  sinv w → servers w !! srv = Some skv → op ∈ requests w → handle op skv = Some (skv', o) →
  (server_ok (commits w) srv skv' ∧ (∀ o, o ∈ started (rf skv') → 1 <= ReqNo o → o ∈ requests w)) ∧
  ∀ v, o = Succeeded v → waiting op (users w) → ∃ r, answeredAt (commits w) op v r.
Proof.
  intros I Hs Hop HH. pose proof (v_servers _ I _ _ Hs) as Hok.
  assert (server_ok (commits w) srv skv ∧ (∀ o, o ∈ started (rf skv) → 1 <= ReqNo o → o ∈ requests w)) as Hsame.
  { split; [done|]. intros. by eapply (v_started _ I). }
  destruct (v_requests _ I _ Hop) as (_ & Hclerk & _). unfold clerk_op in Hclerk. unfold handle in HH.
  destruct (opType op) eqn:Ht.
  1:{ destruct Hclerk as [Heq _]. inv_bind HH. destruct x as [s1 out]. injection HH as <- <-.
    unfold GetBegin in E. destruct (negb _); [injection E as <- <-; by split|]. inv_bind E.
    destruct (negb (x =? gid skv)); [injection E as <- <-; by split|].
    assert (ga_ClientId (GetArg op) = ClientId op ∧ ga_ReqNo (GetArg op) = ReqNo op) as [Ec Er] by (by rewrite Heq).
    destruct (executed _ _ skv) eqn:HE.
    - rewrite Ec, Er in HE. destruct (negb (hasShard _ _)) eqn:Hh; injection E as <- <-; [by split|]. split; [done|].
      intros v [= <-] Hw. destruct (executed_past w srv skv op I Hs Hw HE) as (N & M & HN & HM & HR & W).
      eexists. apply (answered_read _ _ _ N M); [done|done|done|]. unfold getValue, opKey, storeAt. rewrite Ht.
      rewrite (rp_map _ _ HR). rewrite (w_data _ _ _ _ _ W); [done|]. rewrite <-(rp_shards _ _ HR). by destruct (hasShard _ _).
    - inv_bind E. destruct x0 as [r [[? ?] isL]]. change (mkOp GET _ _ _ _ _ _ _) with (getOp (GetArg op)) in E1. rewrite <-Heq in E1.
      destruct (negb isL); injection E as <- <-; (split; [by eapply start_ok|done]). }
  all: destruct Hclerk as (Heq & _); inv_bind HH; destruct x as [s1 out]; injection HH as <- <-;
    unfold PutAppendBegin in E; destruct (negb _); [injection E as <- <-; by split|]; inv_bind E;
    destruct (negb (x =? gid skv)); [injection E as <- <-; by split|];
    assert (pa_ClientId (PutAppendArg op) = ClientId op ∧ pa_ReqNo (PutAppendArg op) = ReqNo op) as [Ec Er] by (by rewrite Heq);
    destruct (executed _ _ skv) eqn:HE;
    [rewrite Ec, Er in HE; injection E as <- <-; split; [done|]; intros v [= <-] Hw;
     destruct (executed_past w srv skv op I Hs Hw HE) as (N & M & HN & HM & HR & W); eapply put_answered; [congruence|done]|
     inv_bind E; destruct x0 as [r [[? ?] isL]];
     change (mkOp (if String.eqb (pa_Op (PutAppendArg op)) "Put" then PUT else APPEND) _ _ _ _ _ _ _) with (putOp (PutAppendArg op)) in E1; rewrite <-Heq in E1;
     destruct (negb isL); injection E as <- <-; (split; [by eapply start_ok|done])].
Qed.

(** A result is taken by the handler of its request only. *)
Lemma resume_ok w srv skv op r skv' o :
  sinv w → servers w !! srv = Some skv → op ∈ requests w → (∀ res, r = Some res → result_ok (commits w) res) →
  resume op r skv = (skv', o) →
  (server_ok (commits w) srv skv' ∧ (∀ o, o ∈ started (rf skv') → 1 <= ReqNo o → o ∈ requests w)) ∧
  ∀ v, o = Succeeded v → waiting op (users w) → ∃ r, answeredAt (commits w) op v r.
Proof.
  intros I Hs Hop Hr HE. pose proof (v_servers _ I _ _ Hs) as Hok. destruct (v_requests _ I _ Hop) as (HS & Hclerk & _).
  assert (∀ m, (server_ok (commits w) srv (skv <| CompletedChan := m |>)) ∧
    (∀ o, o ∈ started (rf (skv <| CompletedChan := m |>)) → 1 <= ReqNo o → o ∈ requests w)) as Hsrv.
  { intros m. split; [eapply server_ok_service; try done; auto|]. intros o' ?. by eapply (v_started _ I). }
  assert (∀ res, r = Some res → r_ClientId res = ClientId op → r_ReqNo res = ReqNo op → Err res = OK →
    ∃ r, answeredAt (commits w) op (Value res) r) as Hans.
  { intros res HR Hc Hn Herr. destruct (Hr res HR) as [_ HO]. destruct (HO Herr) as (x & q & Hx & Hreq & HA).
    assert (x = op) as ->; [|eauto]. apply (st_unique _ _ ST); [done|done|]. rewrite Hreq. unfold request. congruence. }
  unfold clerk_op in Hclerk. unfold resume in HE. destruct (opType op) eqn:Ht.
  1:{ destruct Hclerk as [Heq _]. unfold GetEnd in HE. injection HE as <- <-. split; [apply Hsrv|].
    intros v Hv _. destruct r as [res|]; [|done]. destruct (_ && _) eqn:HM; [|done].
    apply andb_true_iff in HM as [H1%Z.eqb_eq H2%Z.eqb_eq]. unfold getOutcome in Hv. cbn in Hv.
    destruct (String.eqb_spec (Err res) OK) as [Herr|]; cbn in Hv.
    - injection Hv as <-. apply Hans; try done; by rewrite Heq.
    - destruct (String.eqb_spec (Err res) ErrNoKey) as [Herr|]; [|done]. by destruct (Hr res eq_refl). }
  all: destruct Hclerk as (Heq & _); unfold PutAppendEnd in HE; injection HE as <- <-; (split; [apply Hsrv|]);
    intros v Hv _; destruct r as [res|]; [|done]; destruct (_ && _) eqn:HM; [|done];
    apply andb_true_iff in HM as [H1%Z.eqb_eq H2%Z.eqb_eq]; unfold putOutcome in Hv; cbn in Hv;
    destruct (String.eqb_spec (Err res) OK) as [Herr|]; [injection Hv as <-|done];
    destruct (Hans res) as (q & [N HD _|N M Hg _ _ _]); [done|by rewrite Heq|by rewrite Heq|done| |congruence];
    eapply put_answered; [congruence|done].
Qed.

(** ** The log *)

(** The next command of the log. *)
Lemma apply_ok w srv skv op ord skv' sends :
  sinv w → valid_order ord → servers w !! srv = Some skv → logOf srv.1 (commits w) !! Z.to_nat (CommitedId skv) = Some op →
  applyLog ord (mkApplyMsg true (Some op) (CommitedId skv + 1) false [] 0 0) skv = Some (skv', sends) →
  (server_ok (commits w) srv skv' ∧ (∀ o, o ∈ started (rf skv') → 1 <= ReqNo o → o ∈ requests w)) ∧
  ∀ ch res, (ch, res) ∈ sends → result_ok (commits w) res.
Proof.
  intros I HO Hs Hlog HA. pose proof (v_servers _ I _ _ Hs) as Hok. pose proof (v_committed _ I) as HC. set (G := commits w) in *.
  destruct (so_at _ _ _ Hok) as (p & Hp & Hc & HR). rewrite Hc, Nat2Z.id in Hlog.
  destruct (replay_later byKey byKey_valid F _ ST peer0 G srv.1 p HC) as (Gτ & _ & _). set (τ := replay _ _ _ _) in *.
  assert (op ∈ logOf srv.1 G) as Hin by by eapply list_elem_of_lookup_2.
  assert (op_ok op) as Hop by (eapply log_ok; [apply byKey_valid|done|done|done]).
  destruct (applyOp_rep byKey byKey_valid ord op skv τ HO HR Gτ Hop) as (s1 & sends' & E1 & HR1 & HL1 & Hsend).
  unfold applyLog in HA. cbn [CommandValid MsgCommand] in HA. cbn [mbind option_bind] in HA. rewrite E1 in HA.
  cbn [mbind option_bind] in HA. injection HA as <- <-. injection HL1 as _ Hrf _ Hcm _ _ _. split.
  - split.
    + split; [apply Hok| |cbn; rewrite Hrf; apply Hok|cbn; rewrite Hrf; apply Hok].
      exists (Datatypes.S p). split_and!.
      * by apply lookup_lt_Some in Hlog.
      * cbn. rewrite Hcm. unfold max. zbool; lia.
      * rewrite (take_S_r _ _ op) by done. unfold replay. rewrite foldl_app. cbn. by destruct HR1; split.
    + cbn. rewrite Hrf. intros o ?. by eapply (v_started _ I).
  - intros ch res Hres. destruct (Hsend ch res Hres) as [Hnk HOK]. split; [done|]. intros Herr.
    destruct (HOK Herr) as (Hcl & HE & -> & -> & ->). destruct (logOf_take _ _ _ Hp) as (N & HN & Hl & HGN).
    assert (grp (take N G) srv.1 = τ) as Hτ by (unfold groupOf; by rewrite Hl).
    assert (doneAt G op N) as HD by (exists srv.1; split; [by apply HGN|by rewrite Hτ]).
    assert (op ∈ S) as HS.
    { apply (w_sent _ _ _ _ _ (committed_winv byKey byKey_valid F _ ST peer0 G HC)), executions_elem. by exists N. }
    exists op, (2 * N)%nat. split_and!; [done|done|]. apply answered_done; [done|]. unfold storeAt.
    pose proof (committed_winv byKey byKey_valid F _ ST peer0 _ (committed_take _ _ _ _ G N HC)) as W.
    assert (hasShard (Shards τ) (key2shard (opKey op)) = true) as Hh.
    { unfold executes in HE. apply andb_true_iff in HE as [_ HE]. by apply bool_decide_eq_true in HE as [_ ?]. }
    rewrite <-Hτ in Hh |- *. apply (effect_agree op _ _ (opKey op)); by apply (w_data _ _ _ _ _ W).
Qed.

(** ** Snapshots *)

Lemma atLog_gid G g p skv : com G → atLog G g p skv → gid skv = g.
Proof.
  intros HC (_ & _ & HR). rewrite (rp_gid _ _ HR). apply (replay_later byKey byKey_valid F _ ST peer0 G g p HC).
Qed.

Lemma ReadSnapshot_ok G g p skv0 skv skv' :
  com G → atLog G g p skv0 → gid skv = g → ReadSnapshot (gob_encode (snapshotState skv0)) skv = Some skv' →
  atLog G g p skv' ∧ started (rf skv') = started (rf skv) ∧ saved_ok G g (saved (rf skv')).
Proof.
  intros HC HA Hg. pose proof (atLog_gid _ _ _ _ HC HA) as Hg0. unfold ReadSnapshot.
  rewrite bool_decide_eq_false_2 by apply gob_encode_nonempty. rewrite gob_decode_encode. unfold snapshotState at 1. cbn.
  intros [= <-]. split_and!; [|done|by exists p, skv0]. destruct HA as (Hp & Hc & []). split_and!; [done|done|].
  split; cbn; try done. by rewrite <-rp_gid, Hg0.
Qed.

Lemma snapshot_ok w srv skv skv' :
  sinv w → servers w !! srv = Some skv → Snapshot skv = Some skv' →
  server_ok (commits w) srv skv' ∧ (∀ o, o ∈ started (rf skv') → 1 <= ReqNo o → o ∈ requests w).
Proof.
  intros I Hs HS. pose proof (v_servers _ I _ _ Hs) as Hok. unfold Snapshot in HS. destruct (_ || _).
  { injection HS as <-. split; [done|]. intros o. by eapply (v_started _ I). }
  inv_bind HS. cbn in E. injection E as <-. injection HS as <-. split.
  - destruct Hok as [Hg [p Hp] Hst _]. split; [done| |done|by exists p, skv]. exists p. destruct Hp as (? & ? & []).
    by split_and!.
  - cbn. intros o. by eapply (v_started _ I).
Qed.

Lemma install_ok w srv src skv skv2 idx data ord skv' sends :
  sinv w → srv.1 = src.1 → servers w !! srv = Some skv → servers w !! src = Some skv2 → saved (rf skv2) = Some (idx, data) →
  applyLog ord (mkApplyMsg false None 0 true data 0 idx) skv = Some (skv', sends) →
  server_ok (commits w) srv skv' ∧ (∀ o, o ∈ started (rf skv') → 1 <= ReqNo o → o ∈ requests w).
Proof.
  intros I Hg Hs Hs2 Hsv HA. pose proof (v_servers _ I _ _ Hs) as Hok.
  assert (∀ o, o ∈ started (rf skv) → 1 <= ReqNo o → o ∈ requests w) as Hst by (intros o Ho; exact (v_started _ I srv skv o Hs Ho)).
  unfold applyLog in HA. cbn [CommandValid SnapshotValid SnapshotIndex Snapshot_] in HA. destruct (_ && _); [|by simplify_eq].
  inv_bind HA. injection HA as <- <-. pose proof (so_saved _ _ _ (v_servers _ I _ _ Hs2)) as HV. rewrite Hsv in HV.
  destruct HV as (p & skv0 & Ha & _ & ->). rewrite <-Hg in Ha. destruct (so_at _ _ _ Hok) as [q Hq].
  destruct (ReadSnapshot_ok _ _ _ _ _ _ (v_committed _ I) Ha (atLog_gid _ _ _ _ (v_committed _ I) Hq) E) as (H1 & H2 & H3).
  rewrite H2. split; [|done]. split; [apply Hok|by exists p|rewrite H2; apply Hok|done].
Qed.

Lemma restart_ok w srv skv skv' :
  sinv w → servers w !! srv = Some skv →
  StartServer (mkPeer false (term (rf skv)) (size (rf skv)) (started (rf skv)) (saved (rf skv))) srv.2
    (mkPersister [] (match saved (rf skv) with Some (_, data) => data | None => [] end)) (maxraftstate skv) srv.1 = Some skv' →
  server_ok (commits w) srv skv' ∧ (∀ o, o ∈ started (rf skv') → 1 <= ReqNo o → o ∈ requests w).
Proof.
  intros I Hs HA. pose proof (v_servers _ I _ _ Hs) as Hok. pose proof (so_saved _ _ _ Hok) as HV.
  assert (∀ o, o ∈ started (rf skv) → 1 <= ReqNo o → o ∈ requests w) as Hst by (intros o Ho; exact (v_started _ I srv skv o Hs Ho)).
  unfold StartServer, Persister.ReadSnapshot in HA. rewrite clone_id in HA.
  destruct (saved (rf skv)) as [[idx data]|] eqn:Hsv; cbn [snapshot] in HA.
  - destruct HV as (p & skv0 & Ha & _ & ->).
    eapply (ReadSnapshot_ok _ _ _ _ _ _ (v_committed _ I) Ha) in HA as (H1 & H2 & H3); [|done].
    cbn in H2. rewrite H2. split; [|done]. split; [apply Hok|by exists p|rewrite H2; apply Hok|done].
  - injection HA as <-. split; [|done]. split; [apply Hok| |apply Hok|by cbn]. exists 0%nat.
    split_and!; [lia|done|]. by split.
Qed.

(** ** Configurations and shards *)

Lemma index_prefix {A} (l l' : list A) i x : l `prefix_of` l' → index l i = Some x → index l' i = Some x.
Proof. intros [k ->] Hi. rewrite index_app_l; [done|]. apply index_lt in Hi. lia. Qed.

(** Whatever the controller's servers have seen, its answer to a query for the next
    configuration is that one or an old one. *)
Lemma ctrlAnswer_next seen cfgs n :
  cfgs `prefix_of` F → 1 <= n → let cfg := ctrlAnswer seen cfgs n in
  n - 1 < Num cfg → Num cfg = n ∧ index F n = Some cfg.
Proof.
  intros HP Hn. destruct seen as [k|]; cbn; [|lia]. assert (take k cfgs `prefix_of` F) as HP'.
  { etrans; [|exact HP]. exists (drop k cfgs). by rewrite take_drop. }
  set (l := take k cfgs) in *. unfold queried. destruct (Z.eqb_spec n (-1)); [lia|]. cbn [orb]. destruct (Z.leb_spec (zlen l) n).
  - destruct (last_entry l) as [cfg|] eqn:HL; cbn; [|lia]. pose proof (index_lt _ _ _ HL). apply (index_prefix _ F) in HL; [|done].
    apply (nb_num _ (st_numbered _ _ ST)) in HL as [HL _]. lia.
  - destruct (index l n) as [cfg|] eqn:HL; cbn; [|lia]. apply (index_prefix _ F) in HL; [|done]. intros _.
    by destruct (nb_num _ (st_numbered _ _ ST) _ _ HL) as [-> _].
Qed.

Lemma updateConfig_ok w srv skv seen skv' :
  sinv w → servers w !! srv = Some skv → updateConfig (ctrlAnswer seen (configs w)) skv = Some skv' →
  server_ok (commits w) srv skv' ∧ (∀ o, o ∈ started (rf skv') → 1 <= ReqNo o → o ∈ requests w).
Proof.
  intros I Hs HU. pose proof (v_servers _ I _ _ Hs) as Hok.
  assert (server_ok (commits w) srv skv ∧ (∀ o, o ∈ started (rf skv) → 1 <= ReqNo o → o ∈ requests w)) as Hsame.
  { split; [done|]. intros o Ho. exact (v_started _ I srv skv o Hs Ho). }
  unfold updateConfig in HU. destruct (negb _); [by injection HU as <-|]. destruct (negb _); [by injection HU as <-|].
  destruct (so_at _ _ _ Hok) as (p & _ & _ & HR).
  destruct (replay_later byKey byKey_valid F _ ST peer0 _ srv.1 p (v_committed _ I)) as (_ & _ & Hle & _). rewrite <-(rp_cur _ _ HR) in Hle.
  assert (0 <= Num (CurConfig skv)) as H0.
  { destruct (server_past _ _ _ (v_committed _ I) Hok) as (N & _ & HR' & W). rewrite (rp_cur _ _ HR').
    pose proof (index_lt _ _ _ (w_cur _ _ _ _ _ W srv.1)). lia. }
  destruct (Z.leb_spec (Num (ctrlAnswer seen (configs w) (Num (CurConfig skv) + 1))) (Num (CurConfig skv))); [by injection HU as <-|].
  inv_bind HU. destruct x as [r ret]. injection HU as <-.
  destruct (ctrlAnswer_next seen (configs w) (Num (CurConfig skv) + 1)) as [Hn Hi]; [apply I|lia|lia|].
  eapply (started_ok w srv skv (configOp _)); [done|done| |done|exact E|done|done].
  apply prop_config; [by rewrite Hn|lia].
Qed.

(** The shards of the first configuration come from nowhere. *)
Lemma checkMiss_ok w srv skv ord acts op :
  sinv w → servers w !! srv = Some skv → checkMissShards ord skv = Some acts → StartOp op ∈ acts →
  prop (commits w) srv.1 op ∧ ReqNo op = 0.
Proof.
  intros I Hs HC Hin. pose proof (v_servers _ I _ _ Hs) as Hok.
  destruct (server_past _ _ _ (v_committed _ I) Hok) as (N & _ & HR & W). set (τ := grp (take N (commits w)) srv.1) in *.
  unfold checkMissShards in HC. destruct (negb _); [injection HC as <-; by apply elem_of_nil in Hin|].
  unfold isMigrateFinished in HC. cbn [fst snd] in HC. case_bool_decide as Hm; [injection HC as <-; by apply elem_of_nil in Hin|].
  unfold pullShards in HC. inv_bind HC. destruct (Z.eqb_spec x 0) as [->|Hx].
  2:{ inv_bind HC. injection HC as <-. by apply list_elem_of_fmap in Hin as ([? ?] & [=] & _). }
  injection HC as <-. apply list_elem_of_singleton in Hin as [= ->]. split; [|done]. apply prop_first.
  assert (Num (CurConfig skv) = 1) as Hone.
  { destruct (missing skv) as [|s l] eqn:Hms; [done|]. assert (s ∈ missing skv) as [[Ho _] _]%list_elem_of_filter by (rewrite Hms; by left).
    pose proof (w_cur _ _ _ _ _ W srv.1) as Hcur. pose proof (w_last _ _ _ _ _ W srv.1) as Hlast. fold τ in Hcur, Hlast.
    rewrite <-(rp_cur _ _ HR) in Hcur, Hlast. rewrite <-(rp_last _ _ HR) in Hlast. pose proof (index_lt _ _ _ Hcur).
    destruct (decide (Num (CurConfig skv) = 0)) as [E0|].
    - rewrite E0, (st_first _ _ ST) in Hcur. injection Hcur as Hcur. rewrite <-Hcur in Ho. apply index_elem_of, elem_of_replicate in Ho as [Ho _].
      destruct (so_group _ _ _ Hok). rewrite (rp_gid _ _ HR) in Ho. unfold τ in Ho. by rewrite (w_gid _ _ _ _ _ W) in Ho.
    - destruct (decide (Num (CurConfig skv) = 1)); [done|]. by destruct (st_assigned _ _ ST (Num (CurConfig skv) - 1) (LastConfig skv) ltac:(lia) (Hlast ltac:(lia))). }
  intros sh (s & -> & Hsu)%list_elem_of_fmap. cbn. split_and!; [done|done|..]; apply upto_elem in Hsu;
    rewrite (rp_cur _ _ HR) in Hsu; unfold τ in Hsu; rewrite (gi_cfg _ (w_ginv _ _ _ _ _ W srv.1)) in Hsu; lia.
Qed.

Lemma sinv_actions w srv acts :
  sinv w → (∀ op, StartOp op ∈ acts → prop (commits w) srv.1 op ∧ ReqNo op = 0) → sinv (foldl (startAction srv) w acts).
Proof.
  revert w. induction acts as [|a acts IH]; intros w I Ha; [done|]. cbn.
  assert (sinv (startAction srv w a)) as I'.
  { destruct a as [op|names n ids]; [|by apply (sinv_less w)]. destruct I. split; try done. cbn.
    intros srv' op' [[= -> ->]|?]%elem_of_cons; [apply Ha; by left|eauto]. }
  apply IH; [done|]. intros op Hop. assert (commits (startAction srv w a) = commits w) as -> by by destruct a. apply Ha. by right.
Qed.

Lemma pull_ok w srv skv args :
  sinv w → servers w !! srv = Some skv → pr_Success (ShardDock args skv) = true →
  ∀ g, prop (commits w) g (shardsOp (pr_ShiftShards (ShardDock args skv)) (pr_ClientInfo (ShardDock args skv))).
Proof.
  intros I Hs HD g. pose proof (v_servers _ I _ _ Hs) as Hok. pose proof (v_committed _ I) as HC. set (G := commits w) in *.
  destruct (so_at _ _ _ Hok) as (p & Hp & _ & HR). destruct (logOf_take _ _ _ Hp) as (N & HN & Hl & _).
  destruct (replay_later byKey byKey_valid F _ ST peer0 _ srv.1 p HC) as (Gτ & _ & Hle & Hdk).
  pose proof (committed_winv byKey byKey_valid F _ ST peer0 _ (committed_take _ _ _ _ G N HC)) as W.
  assert (grp (take N G) srv.1 = replay byKey peer0 srv.1 (take p (logOf srv.1 G))) as Hτ by (unfold groupOf; by rewrite Hl).
  set (τ := replay _ _ _ _) in *. set (n := ps_ConfigNum args) in *.
  destruct (ShardDock_rep args skv τ HR HD) as (dock & Hdock & Hi & Hsh). fold n in Hdock, Hi.
  assert (Config2ClientInfo τ !! n = Some (pr_ClientInfo (ShardDock args skv))) as Hci.
  { apply Hi. rewrite <-Hτ. apply (w_info _ _ _ _ _ W). rewrite Hτ. eauto. }
  assert (n <= Num (CurConfig τ)) as Hn.
  { unfold ShardDock in HD, Hsh. destruct (OutShardsDock skv !! ps_ConfigNum args) as [dk|]; [|done]. case_bool_decide as Hne; [done|].
    cbn in Hsh. destruct (copyShard <$> _) as [|sh l]; [done|]. destruct (Hsh sh) as [s Hs']; [by left|].
    by apply (gi_dock _ Gτ _ _ _ _ Hdock Hs'). }
  destruct (Hdk n Hn) as [Hd1 Hd2]. apply prop_dock. exists srv.1, n. split_and!; [lia|by rewrite Hd2|].
  intros sh [s Hs']%Hsh. exists dock. rewrite Hd1. split; [done|]. by destruct (gi_dock _ Gτ _ _ _ _ Hdock Hs') as (_ & -> & _).
Qed.

Lemma hello_ok w srv skv ord nums :
  sinv w → servers w !! srv = Some skv →
  server_ok (commits w) srv (sayHelloEnd ord nums skv) ∧
  (∀ o, o ∈ started (rf (sayHelloEnd ord nums skv)) → 1 <= ReqNo o → o ∈ requests w).
Proof.
  intros I Hs. pose proof (v_servers _ I _ _ Hs) as [Hg (p & Hp & Hc & HR) Hst Hsv].
  destruct (sayHelloEnd_rep ord nums skv _ HR) as [HR' [= _ Hrf _ Hcm _ _ _]]. rewrite Hrf. split.
  - split; [done| |by rewrite Hrf|by rewrite Hrf]. exists p. split_and!; [done|by rewrite Hcm|done].
  - intros o Ho. exact (v_started _ I srv skv o Hs Ho).
Qed.

(** ** The invariant is kept *)

Lemma sinv_commit w srv skv op :
  sinv w → servers w !! srv = Some skv → op ∈ started (rf skv) → sinv (w <| commits := commits w ++ [(srv.1, op)] |>).
Proof.
  intros I Hs Hop. pose proof (v_servers _ I _ _ Hs) as Hok. set (G' := commits w ++ [(srv.1, op)]).
  assert (com G') as HC by (apply committed_snoc; [apply I|apply Hok|by apply Hok]).
  assert (∀ g o, prop (commits w) g o → prop G' g o) as Hprop by (intros g o; by apply (proposal_later byKey byKey_valid F _ ST)).
  pose proof I as []. split; try done; cbn.
  - intros g o [?|[= -> ->]%list_elem_of_singleton]%elem_of_app Hr; eauto.
  - intros srv' skv' Hs'. destruct (v_servers0 _ _ Hs') as [? [p ?] ? ?]. split; [done| |auto|by apply saved_ok_app].
    exists p. by apply atLog_app.
  - intros srv' o Ho. destruct (v_starting0 _ _ Ho). auto.
  - intros srv' ch res Hr. destruct (v_results0 _ _ _ Hr) as [? HO]. split; [done|]. intros (o & r & ? & ? & ?)%HO.
    exists o, r. split_and!; [done|done|by apply answeredAt_app].
  - intros o v Ho. destruct (v_answers0 _ _ Ho) as [? HA]. split; [done|]. intros [r ?]%HA. exists r. by apply answeredAt_app.
Qed.

Lemma sinv_users w C : sinv w → (∀ op, waiting op C → waiting op (users w)) → sinv (w <| users := C |>).
Proof.
  intros [] HC. split; try done; cbn.
  - intros op v Ho. destruct (v_answers0 _ _ Ho) as [? HA]. split; [done|]. intros Hw. by apply HA, HC.
  - intros op Hw. by apply v_waiting0, HC.
Qed.

(** Only a new call makes a client wait. *)
Lemma clientStep_waiting ev C C' op :
  clientStep ev C = Some C' → (∀ o, ev ≠ CIssue o) → waiting op C' → waiting op C.
Proof.
  unfold waiting. destruct ev as [t|c n|o|o out|c]; cbn; intros HC Hev [st Hw].
  - destruct (_ <=? _); [|done]. injection HC as <-. eauto.
  - destruct (calls C !! c); [done|]. injection HC as <-. cbn in Hw. apply lookup_insert_Some in Hw as [[_ ?]|[_ ?]]; [done|eauto].
  - by destruct (Hev o).
  - destruct (calls C !! client o) as [[]|]; try done. destruct (decide _); [|done]. injection HC as <-. cbn in Hw.
    apply lookup_insert_Some in Hw as [[_ ?]|[_ ?]]; [done|eauto].
  - destruct (calls C !! c) as [[]|]; try done. injection HC as <-. cbn in Hw. apply lookup_delete_Some in Hw as [_ ?]. eauto.
Qed.

Lemma sinv_issue w op C :
  sinv w → clerk_op op → reqno op = seq w + 1 → clientStep (CIssue op) (users w) = Some C → op ∈ S →
  sinv (w <| requests := op :: requests w |> <| seq := seq w + 1 |> <| users := C |>).
Proof.
  intros I Hcl Hn HC HS. cbn in HC. destruct (calls (users w) !! client op) as [[st| |]|] eqn:Hc; try done. injection HC as <-.
  assert (op ∉ requests w) as Hnew.
  { intros Hop. destruct (v_requests _ I _ Hop) as (_ & _ & Hle). unfold reqno, shard_request in Hn. cbn in Hn. lia. }
  assert (∀ o, waiting o (mkClients (Recording.now (users w)) (<[client op := Waiting st op]> (calls (users w))) (operations (users w))) →
    o = op ∨ waiting o (users w) ∧ client o ≠ client op) as Hw.
  { intros o [st' Ho]. cbn in Ho. apply lookup_insert_Some in Ho as [[_ ?]|[? ?]]; [left; congruence|right]. split; [by exists st'|done]. }
  destruct I. split; try done; cbn.
  - intros o [->|Ho]%elem_of_cons; [unfold reqno, shard_request in Hn; cbn in Hn; split_and!; [done|done|lia]|].
    destruct (v_requests0 _ Ho) as (? & ? & ?). split_and!; [done|done|lia].
  - intros g o ? ?. right. eauto.
  - intros srv skv o ? ? ?. right. eauto.
  - intros srv o ch ?. right. eauto.
  - intros o v Ho. destruct (v_answers0 _ _ Ho) as [Hr HA]. split; [by right|]. intros [->|[? _]]%Hw; [done|auto].
  - intros o [->|[Ho Hne]]%Hw.
    + split; [by left|]. intros o' [->|Ho']%elem_of_cons _; [done|]. destruct (v_requests0 _ Ho') as (_ & _ & ?).
      unfold reqno, shard_request in Hn. cbn in Hn. lia.
    + destruct (v_waiting0 _ Ho) as [? Hl]. split; [by right|]. intros o' [->|?]%elem_of_cons Hce; [congruence|auto].
Qed.

(** A handler that waited goes on. *)
Lemma sinv_resume w srv op ch r skv skv' o hs rs :
  sinv w → (srv, op, ch) ∈ handlers w → servers w !! srv = Some skv → (∀ res, r = Some res → result_ok (commits w) res) →
  resume op r skv = (skv', o) → (∀ x, x ∈ hs → x ∈ handlers w) → (∀ x, x ∈ rs → x ∈ results w) →
  sinv (respond srv op o (setServer srv skv' w <| handlers := hs |> <| results := rs |>)).
Proof.
  intros I Hh Hs Hres HR Hhs Hrs. assert (op ∈ requests w) as Hop by by eapply (v_handlers _ I).
  destruct (resume_ok w srv skv op r skv' o I Hs Hop Hres HR) as [[H1 H2] H3].
  apply sinv_respond; [|done|done]. by apply (sinv_less (setServer srv skv' w)); [apply sinv_setServer|..].
Qed.

(** A call for shards returns. *)
Lemma sinv_pull w srv k args srv' skv w' :
  sinv w → servers w !! srv' = Some skv →
  (if pr_Success (ShardDock args skv)
   then Some (w <| starting := (srv, shardsOp (pr_ShiftShards (ShardDock args skv)) (pr_ClientInfo (ShardDock args skv))) :: starting w |>
                <| pulls := delete k (pulls w) |>)
   else Some w) = Some w' → sinv w'.
Proof.
  intros I Hs HS. destruct (pr_Success (ShardDock args skv)) eqn:HD; [|by injection HS as <-]. injection HS as <-.
  pose proof (pull_ok w _ skv args I Hs HD) as Hp. destruct I. split; try done. cbn.
  intros srv0 op' [[= -> ->]|?]%elem_of_cons; [by split|eauto].
Qed.

(** A command a goroutine had for Raft is started. *)
Lemma sinv_start w srv op skv r ret st :
  sinv w → (srv, op) ∈ starting w → servers w !! srv = Some skv → rf_Start op (rf skv) = Some (r, ret) →
  (∀ x, x ∈ st → x ∈ starting w) → sinv (setServer srv (skv <| rf := r |>) w <| starting := st |>).
Proof.
  intros I Hin Hs HR Hst. destruct (v_starting _ I srv op Hin) as [Hp H0].
  destruct (started_ok w srv skv op r ret (skv <| rf := r |>) I Hs Hp) as [H1 H2]; [lia|done|done|done|].
  by apply (sinv_less (setServer srv (skv <| rf := r |>) w)); [apply sinv_setServer|..].
Qed.

Lemma sinv_step ord ev w w' :
  valid_order ord → step address ord ev w = Some w' → sinv w → configs w' `prefix_of` F →
  (∀ op, op ∈ requests w' → op ∈ S) → sinv w'.
Proof.
  intros HO HS I HF Hreq. destruct ev as [ev|op|srv op|k [j|]|op out|op|srv l t sz|srv k|srv|srv|srv src|srv|srv seen|srv|k name|k|k|srv nums];
    cbn [step] in HS.
  - destruct (clientOnly ev) eqn:Hcl; [|done]. inv_bind HS. injection HS as <-. apply sinv_users; [done|]. intros op.
    eapply clientStep_waiting; [done|]. intros o ->. done.
  - destruct (decide _) as [(Hcl & Hn & _)|]; [|done]. inv_bind HS. injection HS as <-.
    apply sinv_issue; [done..|]. apply Hreq. by left.
  - destruct (decide _) as [Hop|]; [|done]. inv_bind HS. inv_bind HS. destruct x0 as [skv o]. injection HS as <-.
    destruct (handle_ok w srv x op skv o I E Hop E0) as [[H1 H2] H3]. apply sinv_respond; [by apply sinv_setServer|done|done].
  - inv_bind HS. destruct x as [[srv op] ch]. inv_bind HS. destruct x as [[srv' ch'] res]. destruct (decide _) as [[-> ->]|]; [|done].
    inv_bind HS. destruct (resume op (Some res) x) as [skv o] eqn:HR. injection HS as <-.
    eapply (sinv_resume w srv op ch (Some res)); [done|by eapply list_elem_of_lookup_2|done| |exact HR|..].
    + intros ? [= <-]. eapply (v_results _ I), list_elem_of_lookup_2, E0.
    + intros y; apply list_elem_of_delete_inv.
    + intros y; apply list_elem_of_delete_inv.
  - inv_bind HS. destruct x as [[srv op] ch]. inv_bind HS. destruct (resume op None x) as [skv o] eqn:HR. injection HS as <-.
    eapply (sinv_resume w srv op ch None _ _ _ _ (results w)); [done|by eapply list_elem_of_lookup_2|done|done|exact HR| |done].
    intros y; apply list_elem_of_delete_inv.
  - destruct (decide _) as [Ha|]; [|done]. inv_bind HS. injection HS as <-. apply sinv_users; [done|]. intros o.
    eapply clientStep_waiting; [done|]. by intros o' ?.
  - inv_bind HS. injection HS as <-. by destruct I; split.
  - inv_bind HS. injection HS as <-. pose proof (v_servers _ I _ _ E) as Hok. apply sinv_setServer; [done| |].
    + eapply server_ok_service; try done; auto.
    + cbn. intros o Ho. exact (v_started _ I srv x o E Ho).
  - inv_bind HS. inv_bind HS. injection HS as <-. eapply sinv_commit; [done|done|]. by eapply list_elem_of_lookup_2.
  - inv_bind HS. inv_bind HS. inv_bind HS. destruct x1 as [skv sends]. injection HS as <-.
    destruct (apply_ok w srv x x0 ord skv sends I HO E E0 E1) as [[H1 H2] H3]. pose proof (sinv_setServer _ _ _ I H1 H2) as [].
    split; try done. cbn. intros srv' ch res [(y & [= -> -> ->] & Hy)%list_elem_of_fmap|?]%elem_of_app; [|eauto].
    destruct y. by eapply H3.
  - inv_bind HS. inv_bind HS. injection HS as <-. destruct (snapshot_ok w srv x x0 I E E0). by apply sinv_setServer.
  - destruct (decide _) as [Hg|]; [|done]. inv_bind HS. inv_bind HS. inv_bind HS. destruct x1 as [idx data]. inv_bind HS.
    destruct x1 as [skv sends]. injection HS as <-. destruct (install_ok w srv src x x0 idx data ord skv sends I Hg E E0 E1 E2).
    by apply sinv_setServer.
  - inv_bind HS. inv_bind HS. injection HS as <-. destruct (restart_ok w srv x x0 I E E0) as [H1 H2].
    apply (sinv_less (setServer srv x0 w)); [by apply sinv_setServer|done|..]; intros y; cbn; by intros [_ ?]%list_elem_of_filter.
  - inv_bind HS. inv_bind HS. injection HS as <-. destruct (updateConfig_ok w srv x seen x0 I E E0). by apply sinv_setServer.
  - inv_bind HS. inv_bind HS. injection HS as <-. apply sinv_actions; [done|]. intros op. by eapply checkMiss_ok.
  - inv_bind HS. destruct x as [[srv names] args]. destruct (decide _); [|done]. inv_bind HS. by eapply sinv_pull.
  - inv_bind HS. destruct x as [[srv names] args]. inv_bind HS. destruct (negb _); [|done]. injection HS as <-.
    by apply (sinv_less w).
  - inv_bind HS. destruct x as [srv op]. inv_bind HS. inv_bind HS. destruct x0 as [r ret]. injection HS as <-.
    eapply sinv_start; [done|by eapply list_elem_of_lookup_2|done|done|]. intros y; apply list_elem_of_delete_inv.
  - inv_bind HS. injection HS as <-. destruct (hello_ok w srv x ord nums I E). by apply sinv_setServer.
Qed.

End safety.
