(* ===== verification/ShardLinear.v ===== *)
(** * The sharded service is linearizable

    Runs of [ShardSystem] from the start: the invariant of [ShardSafety] holds in
    them, the servers together are one store ([shardkv_one_store]), and the histories
    the clients of the tests record are linearizable ([shardkv_linearizable]). *)

From S2P Require Import Prelude Bitset Porcupine LinkedList Linearize LinearSearch LinearCheck Histories LinearVerdict KvModel Recording.
From S2P Require Import LabGob Persister Raft RaftLog RaftState RaftApi Dedup Clerk ShardCtrler Rebalance CtrlerState ShardKV Migration.
From S2P Require Import ShardService ShardGroups ShardReplicas ShardSystem ShardSafety.

Section runs.
Context `{!Gob SnapshotState} (ords : nat → Order) (Hords : ∀ n, valid_order (ords n)) (address : string → Z * Z).
#[local] Notation Server := (ShardKV Peer).
Implicit Types (op : Op) (skv : Server) (srv : Z * Z) (w : World).

(** ** What a step adds *)

Lemma startActions_frame srv acts w :
  let w' := foldl (startAction srv) w acts in
  configs w' = configs w ∧ requests w' = requests w ∧ seq w' = seq w ∧ users w' = users w ∧ commits w' = commits w.
Proof.
  revert w. induction acts as [|a acts IH]; intros w; [done|]. cbn. destruct (IH (startAction srv w a)) as (-> & -> & -> & -> & ->).
  by destruct a.
Qed.

Lemma respond_frame srv op o w :
  let w' := respond srv op o w in
  configs w' = configs w ∧ requests w' = requests w ∧ seq w' = seq w ∧ users w' = users w ∧ commits w' = commits w.
Proof. by destruct o. Qed.

(** How the parts the clients and the controller see may change. *)
Inductive changes w w' : Prop :=
  | ch_same : configs w' = configs w → requests w' = requests w → seq w' = seq w → users w' = users w → commits w' = commits w → changes w w'
  | ch_commit x : configs w' = configs w → requests w' = requests w → seq w' = seq w → users w' = users w → commits w' = commits w ++ [x] → changes w w'
  | ch_control ord cop : valid_order ord → ShardCtrler.execute ord cop (configs w) = Some (configs w') →
      requests w' = requests w → seq w' = seq w → users w' = users w → commits w' = commits w → changes w w'
  | ch_user ev : clientOnly ev = true → clientStep ev (users w) = Some (users w') →
      configs w' = configs w → requests w' = requests w → seq w' = seq w → commits w' = commits w → changes w w'
  | ch_issue op : clerk_op op → reqno op = seq w + 1 → clientStep (CIssue op) (users w) = Some (users w') →
      configs w' = configs w → requests w' = op :: requests w → seq w' = seq w + 1 → commits w' = commits w → changes w w'
  | ch_answer op out : (op, out) ∈ answers w → clientStep (CAnswer op out) (users w) = Some (users w') →
      configs w' = configs w → requests w' = requests w → seq w' = seq w → commits w' = commits w → changes w w'.

Lemma step_changes ord ev w w' : valid_order ord → step address ord ev w = Some w' → changes w w'.
Proof.
  intros HO HS. destruct ev as [ev|op|srv op|k [j|]|op out|op|srv l t sz|srv k|srv|srv|srv src|srv|srv seen|srv|k name|k|k|srv nums];
    cbn [step] in HS.
  - destruct (clientOnly ev) eqn:Hcl; [|done]. inv_bind HS. injection HS as <-. by eapply ch_user.
  - destruct (decide _) as [(Hcl & Hn & _)|]; [|done]. inv_bind HS. injection HS as <-. by eapply ch_issue.
  - destruct (decide _); [|done]. inv_bind HS. inv_bind HS. destruct x0 as [skv o]. injection HS as <-.
    destruct (respond_frame srv op o (setServer srv skv w)) as (? & ? & ? & ? & ?). by apply ch_same.
  - inv_bind HS. destruct x as [[srv op] ch]. inv_bind HS. destruct x as [[srv' ch'] res]. destruct (decide _); [|done].
    inv_bind HS. destruct (resume op (Some res) x) as [skv o]. injection HS as <-. by destruct o; apply ch_same.
  - inv_bind HS. destruct x as [[srv op] ch]. inv_bind HS. destruct (resume op None x) as [skv o]. injection HS as <-.
    by destruct o; apply ch_same.
  - destruct (decide _) as [Ha|]; [|done]. inv_bind HS. injection HS as <-. by eapply ch_answer.
  - inv_bind HS. injection HS as <-. by eapply ch_control.
  - inv_bind HS. injection HS as <-. by apply ch_same.
  - inv_bind HS. inv_bind HS. injection HS as <-. by eapply ch_commit.
  - inv_bind HS. inv_bind HS. inv_bind HS. destruct x1. injection HS as <-. by apply ch_same.
  - inv_bind HS. inv_bind HS. injection HS as <-. by apply ch_same.
  - destruct (decide _); [|done]. inv_bind HS. inv_bind HS. inv_bind HS. destruct x1. inv_bind HS. destruct x1. injection HS as <-.
    by apply ch_same.
  - inv_bind HS. inv_bind HS. injection HS as <-. by apply ch_same.
  - inv_bind HS. inv_bind HS. injection HS as <-. by apply ch_same.
  - inv_bind HS. inv_bind HS. injection HS as <-. destruct (startActions_frame srv x0 w) as (? & ? & ? & ? & ?). by apply ch_same.
  - inv_bind HS. destruct x as [[srv names] args]. destruct (decide _); [|done]. inv_bind HS.
    destruct (pr_Success _); injection HS as <-; by apply ch_same.
  - inv_bind HS. destruct x as [[srv names] args]. inv_bind HS. destruct (negb _); [|done]. injection HS as <-. by apply ch_same.
  - inv_bind HS. destruct x as [srv op]. inv_bind HS. inv_bind HS. destruct x0. injection HS as <-. by apply ch_same.
  - inv_bind HS. injection HS as <-. by apply ch_same.
Qed.

Lemma wrun_changes w w' : wrun ords address w w' → changes w w'.
Proof. intros [ev HS]. apply step_changes in HS; [|done]. destruct HS; [by apply ch_same|by eapply ch_commit|by eapply ch_control|
  by eapply ch_user|by eapply ch_issue|by eapply ch_answer]. Qed.

(** ** The controller and the requests *)

Record base w : Prop := {
  b_numbered : numbered (configs w);
  b_first : index (configs w) 0 = Some Config0;
  b_clerk : ∀ op, op ∈ requests w → clerk_op op ∧ 1 <= ReqNo op <= seq w;
  b_seq : 0 <= seq w;
  b_unique : ∀ op op', op ∈ requests w → op' ∈ requests w → ReqNo op = ReqNo op' → op = op';
}.

Lemma changes_grow w w' : changes w w' → base w →
  base w' ∧ configs w `prefix_of` configs w' ∧ ∀ op, op ∈ requests w → op ∈ requests w'.
Proof.
  intros HC B. pose proof B as [B1 B2 B3 B4 B5].
  assert (∀ w', configs w' = configs w → requests w' = requests w → seq w' = seq w →
    base w' ∧ configs w `prefix_of` configs w' ∧ ∀ op, op ∈ requests w → op ∈ requests w') as Hsame.
  { intros w1 E1 E2 E3. rewrite E1, E2. split; [|done]. split; rewrite ?E1, ?E2, ?E3; done. }
  destruct HC as [| |ord cop HO HE E2 E3|ev|op Hcl Hn HC E1 E2 E3 _|]; try (by apply Hsame).
  - destruct (execute_numbered ord cop _ _ HO B1 HE) as [HN HP]. rewrite E2. split_and!; [|done|done].
    split; rewrite ?E2, ?E3; try done. by eapply index_prefix.
  - rewrite E1, E2. unfold reqno, shard_request in Hn. cbn in Hn. split_and!; [|done|by intros; right].
    split; rewrite ?E1, ?E2, ?E3; try done; [|lia|].
    + intros o [->|Ho]%elem_of_cons; [split; [done|lia]|]. destruct (B3 o Ho). split; [done|lia].
    + intros o o' [->|Ho]%elem_of_cons [->|Ho']%elem_of_cons He; [done| | |by apply B5].
      * destruct (B3 o' Ho'). lia.
      * destruct (B3 o Ho). lia.
Qed.

Lemma base_init maxrs srvs : base (init_world maxrs srvs).
Proof. split; cbn; try done; [apply numbered_init|..]; by intros op ?%elem_of_nil || by intros op op' ?%elem_of_nil. Qed.

Lemma base_reachable maxrs srvs w : rtc (wrun ords address) (init_world maxrs srvs) w → base w.
Proof.
  revert w. apply rtc_ind_r; [apply base_init|]. intros w1 w2 _ HS IH.
  by destruct (changes_grow w1 w2 (wrun_changes _ _ HS) IH).
Qed.

Lemma clerk_op_client op : clerk_op op → isClientOp op = true ∧ op_ok op.
Proof.
  unfold clerk_op, isClientOp, op_ok. destruct (opType op) eqn:Ht; try (by intros [? ?]); try (by intros (? & ? & ?)).
  all: intros (Heq & _); rewrite Heq in Ht; cbn in Ht; by destruct (String.eqb _ _).
Qed.

(** Every configuration but the first assigns shard 0 to a group. *)
Definition assigned w : Prop := ∀ n cfg, 1 <= n → index (configs w) n = Some cfg → owner cfg 0 ≠ Some 0.

(** The configurations and requests of a run. *)
Lemma base_setting w :
  base w → assigned w →
  setting (configs w) (λ op, op ∈ requests w).
Proof.
  intros B Ha. split; try apply B; [done|..].
  - intros op Hop. destruct (b_clerk _ B op Hop) as [[]%clerk_op_client ?]. split_and!; [done|done|lia].
  - intros op op' Hop Hop' [= _ He]. by apply B.
Qed.

(** ** The invariant holds in every run *)

Lemma sinv_init F S maxrs srvs : (∀ srv, srv ∈ srvs → srv.1 ≠ 0) → [Config0] `prefix_of` F → sinv F S (init_world maxrs srvs).
Proof.
  intros Hg HF.
  assert (∀ srv skv, servers (init_world maxrs srvs) !! srv = Some skv → skv = bootServer maxrs srv ∧ srv.1 ≠ 0) as Hs.
  { intros srv skv Hs%elem_of_list_to_map_2. apply list_elem_of_fmap in Hs as (x & [= -> ->] & Hx). by split; [|apply Hg]. }
  split; cbn; try done.
  all: try (by intros ? ?%elem_of_nil || by intros ? ? ?%elem_of_nil || by intros ? ? ? ?%elem_of_nil).
  - constructor.
  - intros srv skv [-> Hsrv]%Hs. split; [done| |by intros op ?%elem_of_nil|done]. exists 0%nat. split_and!; [lia|done|by split].
  - intros srv skv op [-> _]%Hs Hop. by apply elem_of_nil in Hop.
  - by intros op [st Hst].
Qed.

Lemma sinv_wrun F S w w' :
  setting F (λ op, op ∈ S) → wrun ords address w w' → sinv F S w → configs w' `prefix_of` F → (∀ op, op ∈ requests w' → op ∈ S) →
  sinv F S w'.
Proof.
  intros ST [ev HS] I. eapply (sinv_step address F S ST); [apply Hords|exact HS|].
  by apply (sinv_less F S w).
Qed.

(** ** Where a call is *)

(** A call that got its answer: how many commands were committed when it began, and
    when its answer was right. *)
Record Placed := mkPlaced { p_stamp : Stamp; p_op : Op; p_out : string; p_floor : nat; p_rank : nat }.
Implicit Types (G : list (Z * Op)) (C : Clients Op) (E : list (Placed * Z)) (rs : list Op).

Definition opOf (x : Placed * Z) : Op := p_op x.1.
Definition logged_of (x : Placed * Z) : Operation kvval := logged (p_stamp x.1) (p_op x.1) (p_out x.1) x.2.

Definition placed G (x : Placed) : Prop := answeredAt G (p_op x) (p_out x) (p_rank x) ∧ (2 * p_floor x <= p_rank x)%nat.

(** What had ended when [st] was taken was right before [f] commands were committed. *)
Definition begun C E G (st : Stamp) (f : nat) : Prop :=
  start st <= Recording.now C ∧ (f <= length G)%nat ∧ ∀ y t, (y, t) ∈ E → t < start st → (p_rank y < 2 * f)%nat.

(** A request is committed after its call began. *)
Definition after G op (f : nat) : Prop := ∀ N g, G !! N = Some (g, op) → (f <= N)%nat.

Definition stampOf (ph : Phase Op) : Stamp := match ph with Calling st | Waiting st _ | Answered st _ _ => st end.

Definition phase_ok G (rs : list Op) E (c : Z) (f : nat) (ph : Phase Op) : Prop :=
  match ph with
  | Calling _ => True
  | Waiting _ op => client op = c ∧ op ∈ rs ∧ op ∉ opOf <$> E ∧ after G op f
  | Answered st op out => client op = c ∧ op ∈ rs ∧ op ∉ opOf <$> E ∧ ∃ r, placed G (mkPlaced st op out f r)
  end.

(** Where a request is now. *)
Definition accounted C E op : Prop :=
  waiting op C ∨ (∃ st out, calls C !! client op = Some (Answered st op out)) ∨ op ∈ opOf <$> E.

Record recorded C G (rs : list Op) E : Prop := {
  hi_account : ∀ op, op ∈ rs → accounted C E op;
  hi_calls : ∀ c ph, calls C !! c = Some ph → ∃ f, begun C E G (stampOf ph) f ∧ phase_ok G rs E c f ph;
  hi_ended : ∀ x t, (x, t) ∈ E → placed G x ∧ begun C E G (p_stamp x) (p_floor x) ∧ p_op x ∈ rs ∧
    start (p_stamp x) <= t <= Recording.now C;
  hi_once : NoDup (opOf <$> E);
  hi_logged : operations C = logged_of <$> E;
}.

Lemma answeredAt_lt G op v r : answeredAt G op v r → (r < 2 * length G)%nat.
Proof. intros [N HD _|N M _ HN _ _]; [apply doneAt_lt in HD; lia|lia]. Qed.

Lemma answered_after G op v r f : answeredAt G op v r → after G op f → (2 * f <= r)%nat.
Proof. intros [N (g & Hg & _) _|N M _ HN (g & Hg & _) _] HA; apply HA in Hg; lia. Qed.

Lemma recorded_commit C G rs E x : recorded C G rs E → recorded C (G ++ [x]) rs E.
Proof.
  intros I. assert (∀ st f, begun C E G st f → begun C E (G ++ [x]) st f) as HB.
  { intros st f (? & ? & ?). split_and!; [done|rewrite length_app; lia|done]. }
  assert (∀ y, placed G y → placed (G ++ [x]) y) as HP by (intros y [? ?]; split; [by apply answeredAt_app|done]).
  destruct I as [I1 I2 I3 I4 I5]. split; try done.
  - intros c ph Hc. destruct (I2 c ph Hc) as (f & Hb & Hph). exists f. split; [by apply HB|]. destruct ph as [|st op|st op out]; [done|..].
    + destruct Hph as (? & ? & ? & Ha). split_and!; [done..|]. intros N g [HN|[Hl _]]%lookup_app_Some; [by eapply Ha|].
      destruct Hb as (_ & ? & _). lia.
    + destruct Hph as (? & ? & ? & r & Hp). split_and!; [done..|]. exists r. by apply HP.
  - intros y t Hy. destruct (I3 y t Hy) as (? & ? & ? & ?). split_and!; auto; lia.
Qed.

(** Time passes; what ends now ends at the present time. *)
Lemma begun_later C C' E E' G st f :
  Recording.now C <= Recording.now C' → (∀ y t, (y, t) ∈ E' → (y, t) ∈ E ∨ t = Recording.now C) →
  begun C E G st f → begun C' E' G st f.
Proof. intros Hn HE (Hs & Hf & Hb). split_and!; [lia|done|]. intros y t [Hy| ->]%HE Ht; [by eapply Hb|lia]. Qed.

(** The others, when client [c] moves. *)
Lemma phase_other C C' G rs rs' E E' c ph :
  Recording.now C <= Recording.now C' → (∀ y t, (y, t) ∈ E' → (y, t) ∈ E ∨ t = Recording.now C ∧ client (p_op y) ≠ c) →
  (∀ op, op ∈ rs → op ∈ rs') →
  (∃ f, begun C E G (stampOf ph) f ∧ phase_ok G rs E c f ph) → ∃ f, begun C' E' G (stampOf ph) f ∧ phase_ok G rs' E' c f ph.
Proof.
  intros Hn HE Hrs (f & Hb & Hph). exists f. split; [eapply begun_later; [done| |done]; naive_solver|].
  assert (∀ op, client op = c → op ∉ opOf <$> E → op ∉ opOf <$> E') as Hne.
  { intros op Hc Hno ([y t] & -> & Hy)%list_elem_of_fmap. destruct (HE y t Hy) as [?|[_ ?]]; [|done].
    apply Hno, list_elem_of_fmap. by exists (y, t). }
  destruct ph as [|st op|st op out]; [done|..]; destruct Hph as (? & ? & ? & ?); split_and!; auto.
Qed.

Lemma ended_later C C' G rs rs' E E' x t :
  Recording.now C <= Recording.now C' → (∀ y t, (y, t) ∈ E' → (y, t) ∈ E ∨ t = Recording.now C) → (∀ op, op ∈ rs → op ∈ rs') →
  placed G x ∧ begun C E G (p_stamp x) (p_floor x) ∧ p_op x ∈ rs ∧ start (p_stamp x) <= t <= Recording.now C →
  placed G x ∧ begun C' E' G (p_stamp x) (p_floor x) ∧ p_op x ∈ rs' ∧ start (p_stamp x) <= t <= Recording.now C'.
Proof. intros Hn HE Hrs (? & ? & ? & ?). split_and!; [done|by eapply begun_later|auto|lia|lia]. Qed.

Lemma recorded_begin C G rs E c n :
  recorded C G rs E → calls C !! c = None →
  recorded (mkClients (Recording.now C) (<[c := Calling (mkStamp n (Recording.now C))]> (calls C)) (operations C)) G rs E.
Proof.
  intros [I1 I2 I3 I4 I5] Hc. split; try done.
  - intros op Hop. destruct (I1 op Hop) as [[st Hst]|[(st & out & Hst)|He]]; [left; exists st|right; left; exists st, out|by do 2 right];
      cbn; (rewrite lookup_insert_ne; [done|congruence]).
  - cbn. intros c' ph [[<- <-]|[_ Hph]]%lookup_insert_Some; [|eapply phase_other; [| | |by apply I2]; cbn; auto; lia].
    exists (length G). split; [|done]. split_and!; [cbn; lia|done|]. intros y t Hy _. destruct (I3 y t Hy) as ([HA _] & _).
    by apply answeredAt_lt in HA.
Qed.

Lemma recorded_issue C G rs E op st :
  recorded C G rs E → calls C !! client op = Some (Calling st) → op ∉ rs → op ∉ G.*2 →
  recorded (mkClients (Recording.now C) (<[client op := Waiting st op]> (calls C)) (operations C)) G (op :: rs) E.
Proof.
  intros [I1 I2 I3 I4 I5] Hc Hrs HG. split; try done.
  - intros o [->|Ho]%elem_of_cons; [left; exists st; apply lookup_insert_eq|].
    destruct (I1 o Ho) as [[st' Hst]|[(st' & out & Hst)|He]]; [left; exists st'|right; left; exists st', out|by do 2 right];
      cbn; (rewrite lookup_insert_ne; [done|congruence]).
  - cbn. intros c' ph [[<- <-]|[_ Hph]]%lookup_insert_Some;
      [|eapply phase_other; [| | |by apply I2]; cbn; auto; [lia|intros; by right]].
    destruct (I2 _ _ Hc) as (f & Hb & _). exists f. split; [done|]. split_and!; [done|by left| |].
    + intros ([y t] & -> & Hy)%list_elem_of_fmap. by destruct (I3 y t Hy) as (_ & _ & ? & _).
    + intros N g HN. destruct HG. apply list_elem_of_fmap. exists (g, op). split; [done|]. by eapply list_elem_of_lookup_2.
  - intros x t Hx. eapply ended_later; [| | |by apply I3]; cbn; auto; [lia|intros; by right].
Qed.

Lemma recorded_answer C G rs E op out st r :
  recorded C G rs E → calls C !! client op = Some (Waiting st op) → answeredAt G op out r →
  recorded (mkClients (Recording.now C) (<[client op := Answered st op out]> (calls C)) (operations C)) G rs E.
Proof.
  intros [I1 I2 I3 I4 I5] Hc HA. split; try done.
  - intros o Ho. destruct (decide (o = op)) as [->|Hne]; [right; left; exists st, out; apply lookup_insert_eq|].
    destruct (I1 o Ho) as [[st' Hst]|[(st' & out' & Hst)|He]]; [left; exists st'|right; left; exists st', out'|by do 2 right];
      cbn; (rewrite lookup_insert_ne; [done|congruence]).
  - cbn. intros c' ph [[<- <-]|[_ Hph]]%lookup_insert_Some; [|eapply phase_other; [| | |by apply I2]; cbn; auto; lia].
    destruct (I2 _ _ Hc) as (f & Hb & _ & ? & ? & Haf). exists f. split; [done|]. split_and!; [done|done|done|].
    exists r. split; [done|]. cbn. by eapply answered_after.
Qed.

Lemma recorded_end C G rs E c st op out :
  recorded C G rs E → calls C !! c = Some (Answered st op out) →
  ∃ E', recorded (mkClients (Recording.now C) (delete c (calls C)) (operations C ++ [logged st op out (Recording.now C)])) G rs E'.
Proof.
  intros [I1 I2 I3 I4 I5] Hc. destruct (I2 _ _ Hc) as (f & Hb & <- & Hrs & Hno & r & Hp).
  set (x := mkPlaced st op out f r). exists (E ++ [(x, Recording.now C)]).
  assert (∀ y t, (y, t) ∈ E ++ [(x, Recording.now C)] → (y, t) ∈ E ∨ y = x ∧ t = Recording.now C) as HE.
  { intros y t [?|[= -> ->]%list_elem_of_singleton]%elem_of_app; auto. }
  assert (opOf <$> E ++ [(x, Recording.now C)] = (opOf <$> E) ++ [op]) as Hops by by rewrite fmap_app.
  split.
  - intros o Ho. destruct (decide (o = op)) as [->|Hne]; [do 2 right; rewrite Hops; set_solver|].
    destruct (I1 o Ho) as [[st' Hst]|[(st' & out' & Hst)|He]]; [left; exists st'|right; left; exists st', out'|
      do 2 right; rewrite Hops; apply elem_of_app; by left]; cbn; (rewrite lookup_delete_ne; [done|congruence]).
  - cbn. intros c' ph [Hne Hph]%lookup_delete_Some. eapply phase_other; [| | |by apply I2]; cbn; auto; [lia|].
    intros y t [?|[-> ->]]%HE; [by left|right]. by split.
  - intros y t [Hy|[-> ->]]%HE.
    + eapply ended_later; [| | |by apply I3]; cbn; auto; [lia|]. intros y' t' [?|[_ ?]]%HE; auto.
    + split_and!; [done| |done|by destruct Hb|done]. eapply begun_later; [..|done]; cbn; [lia|].
      intros y' t' [?|[_ ?]]%HE; auto.
  - rewrite Hops. apply NoDup_app. split_and!; [done| |apply NoDup_singleton]. by intros o Ho ->%list_elem_of_singleton.
  - cbn. by rewrite I5, fmap_app.
Qed.

(** Every step that changes what the clients see. *)
Lemma recorded_changes F S w w' E :
  changes w w' → base w → sinv F S w → recorded (users w) (commits w) (requests w) E →
  ∃ E', recorded (users w') (commits w') (requests w') E'.
Proof.
  intros HC B I R. destruct HC as [? Hr ? Hu Hm|x ? Hr ? Hu Hm|? ? ? ? Hr ? Hu Hm|ev Hev Hu ? Hr ? Hm|op Hcl Hn Hu ? Hr ? Hm|op out Ha Hu ? Hr ? Hm].
  - exists E. by rewrite Hu, Hm, Hr.
  - exists E. rewrite Hu, Hm, Hr. by apply recorded_commit.
  - exists E. by rewrite Hu, Hm, Hr.
  - rewrite Hm, Hr. destruct ev as [t|c n| | |c]; try done; cbn in Hu.
    + destruct (Z.leb_spec (Recording.now (users w)) t); [|done]. injection Hu as Hu. rewrite <-Hu. exists E. pose proof R as [I1 I2 I3 I4 I5]. split; try done.
      * intros c ph Hph. eapply phase_other; [| | |by apply I2]; cbn; auto.
      * intros x t' Hx. eapply ended_later; [| | |by apply I3]; cbn; auto.
    + destruct (calls (users w) !! c) eqn:Hc; [done|]. injection Hu as <-. exists E. by apply recorded_begin.
    + destruct (calls (users w) !! c) as [[]|] eqn:Hc; try done. injection Hu as <-. by eapply recorded_end.
  - rewrite Hm, Hr. cbn [clientStep] in Hu. destruct (calls (users w) !! client op) as [[st| |]|] eqn:Hc; try done. injection Hu as <-. exists E.
    assert (op ∉ requests w) as Hnew by (intros [_ ?]%(b_clerk _ B); unfold reqno, shard_request in Hn; cbn in Hn; lia).
    apply (recorded_issue _ _ _ _ op); [done|done|done|]. intros ([g o] & -> & Ho)%list_elem_of_fmap. apply Hnew.
    eapply (v_sent _ _ _ I); [done|]. pose proof (b_seq _ B). unfold reqno, shard_request in Hn. cbn in *. lia.
  - rewrite Hm, Hr. cbn [clientStep] in Hu. destruct (calls (users w) !! client op) as [[|st op'|]|] eqn:Hc; try done.
    destruct (decide (op' = op)) as [->|]; [|done]. injection Hu as <-. exists E.
    destruct (v_answers _ _ _ I _ _ Ha) as [_ [r HA]]; [by exists st|]. by eapply (recorded_answer _ _ _ _ op).
Qed.

(** The invariants, whatever configurations and requests follow. *)
Definition world_ok w : Prop :=
  ∀ F S, setting F (λ op, op ∈ S) → configs w `prefix_of` F → (∀ op, op ∈ requests w → op ∈ S) →
  sinv F S w ∧ ∃ E, recorded (users w) (commits w) (requests w) E.

Lemma reachable_ok maxrs srvs w :
  (∀ srv, srv ∈ srvs → srv.1 ≠ 0) → rtc (wrun ords address) (init_world maxrs srvs) w → world_ok w.
Proof.
  intros Hg. revert w. apply rtc_ind_r.
  - intros F S ST HF _. split; [by apply sinv_init|]. exists []. split; cbn; try done; [| |constructor];
      intros ? ? ?%elem_of_nil || intros ? ?%elem_of_nil; done.
  - intros w1 w2 HR HS IH F S ST HF Hreq. pose proof (base_reachable _ _ _ HR) as B. pose proof (wrun_changes _ _ HS) as HC.
    destruct (changes_grow _ _ HC B) as (_ & HP & Hrs).
    destruct (IH F S ST) as [I [E R]]; [by etrans|auto|]. split; [by eapply sinv_wrun|by eapply recorded_changes].
Qed.

(** ** Linearizability *)

Lemma shard_runs_gets m (l : list (Placed * Z)) :
  (∀ x, x ∈ l → opType (opOf x) = GET ∧ p_out x.1 = getValue m (opKey (opOf x))) → runs m (logged_of <$> l) = Some m.
Proof.
  induction l as [|x l IH]; intros Hl; [done|]. destruct (Hl x) as [Hg Ho]; [by left|]. unfold opOf, opKey in *. rewrite Hg in Ho.
  cbn. unfold inputOf, shardInput. rewrite Hg. cbn. rewrite bool_decide_eq_true_2 by done. apply IH. intros y Hy. apply Hl. by right.
Qed.

Lemma runs_write m (x : Placed * Z) :
  clerk_op (opOf x) → opType (opOf x) ≠ GET → runs m [logged_of x] = Some (effect (opOf x) m).1.
Proof.
  intros [Hc _]%clerk_op_client Hg. cbn. unfold inputOf, shardInput, effect, opKey, isClientOp, opOf in *.
  by destruct (opType (p_op x.1)).
Qed.

Section linearize.
Context (w : World) (E : list (Placed * Z)) (B : base w) (ST : setting (configs w) (λ op, op ∈ requests w)).
Context (I : sinv (configs w) (requests w) w) (R : recorded (users w) (commits w) (requests w) E) (Hidle : calls (users w) = ∅).
#[local] Notation G := (commits w).
#[local] Notation rank x := (p_rank x.1).

Lemma winv_take N : winv (configs w) (λ op, op ∈ requests w) (groupOf byKey peer0 (take N G)) (executions byKey peer0 (take N G)) (take N G).*2.
Proof. apply (committed_winv byKey byKey_valid _ _ ST), committed_take, I. Qed.

Lemma storeAt_S N g op : G !! N = Some (g, op) →
  storeAt G (S N) = if executes op (groupOf byKey peer0 (take N G) g) then (effect op (storeAt G N)).1 else storeAt G N.
Proof.
  intros HN. unfold storeAt. rewrite (take_S_r _ _ _ HN), executions_snoc. by destruct (executes _ _); rewrite ?store_snoc.
Qed.

(** A request is executed once. *)
Lemma doneAt_once op N M : doneAt G op N → doneAt G op M → N = M.
Proof.
  assert (∀ N M, doneAt G op N → doneAt G op M → ¬ (N < M)%nat) as Hlt.
  { clear N M. intros N M HN HM Hlt. pose proof (doneAt_lt _ _ _ HM). destruct HM as (g & HM & HE).
    pose proof (w_once _ _ _ _ _ (winv_take (S M))) as HD. rewrite (take_S_r _ _ _ HM), executions_snoc, HE, fmap_app in HD.
    apply NoDup_app in HD as (_ & HD & _). apply (HD (request op)); [|by left]. apply list_elem_of_fmap. exists op. split; [done|].
    apply executions_elem. exists N. apply doneAt_take; [lia|done]. }
  intros HN HM. destruct (Nat.lt_trichotomy N M) as [?|[?|?]]; [by destruct (Hlt N M)|done|by destruct (Hlt M N)].
Qed.

Lemma done_sent op N : doneAt G op N → op ∈ requests w.
Proof.
  intros HD. apply (w_sent _ _ _ _ _ (winv_take (length G))), executions_elem. exists N. rewrite take_ge by done. done.
Qed.

Lemma shard_all_ended op : op ∈ requests w → ∃ x, x ∈ E ∧ op = opOf x.
Proof.
  intros Hop. destruct (hi_account _ _ _ _ R op Hop) as [[st Hst]|[(st & out & Hst)|(x & ? & ?)%list_elem_of_fmap]]; [..|eauto];
    by rewrite Hidle in Hst.
Qed.

(** What the operations of a number are. *)
Lemma rank_done x i : x ∈ E → rank x = (2 * i)%nat → doneAt G (opOf x) i ∧ p_out x.1 = (effect (opOf x) (storeAt G i)).2.
Proof.
  destruct x as [x t]. intros ((HA & _) & _)%(hi_ended _ _ _ _ R) Hr. unfold opOf. cbn in *.
  inversion HA as [N HD Hv HN|N M Hg HN HD Hv Hr']; [|lia]. by replace i with N by lia.
Qed.

Lemma rank_read x i : x ∈ E → rank x = (2 * i + 1)%nat →
  opType (opOf x) = GET ∧ p_out x.1 = getValue (storeAt G (S i)) (opKey (opOf x)).
Proof.
  destruct x as [x t]. intros ((HA & _) & _)%(hi_ended _ _ _ _ R) Hr. unfold opOf. cbn in *.
  inversion HA as [N HD Hv HN|N M Hg HN HD Hv Hr']; [lia|]. by replace (S i) with N by lia.
Qed.

Lemma done_rank op i : doneAt G op i → opType op ≠ GET → ∃ x, x ∈ E ∧ op = opOf x ∧ rank x = (2 * i)%nat.
Proof.
  intros HD Hg. destruct (shard_all_ended op) as ([x t] & Hx & ->); [by eapply done_sent|]. exists (x, t). split_and!; [done|done|].
  destruct (hi_ended _ _ _ _ R x t Hx) as ((HA & _) & _). unfold opOf in *. cbn in *.
  inversion HA as [N HD' Hv HN|N M Hg' HN HD' Hv Hr']; [|done]. by rewrite (doneAt_once _ _ _ HD HD').
Qed.

(** The block of a commit: the operation it executes, if it does. *)
Lemma runs_commit i : (i < length G)%nat →
  runs (storeAt G i) (logged_of <$> filter (λ x, rank x = (2 * i)%nat) E) = Some (storeAt G (S i)).
Proof.
  intros Hi. destruct (lookup_lt_is_Some_2 G i Hi) as [[g op] HG]. rewrite (storeAt_S _ _ _ HG).
  assert (∀ x, x ∈ filter (λ x, rank x = (2 * i)%nat) E → opOf x = op ∧ executes op (groupOf byKey peer0 (take i G) g) = true) as Hx.
  { intros x [Hr Hx]%list_elem_of_filter. destruct (rank_done x i Hx Hr) as [(h & Hh & HE) _]. rewrite HG in Hh. by injection Hh as -> ->. }
  destruct (executes _ _) eqn:HE; [|destruct (filter _ E) as [|x l]; [done|destruct (Hx x) as [_ ?]; [by left|done]]].
  assert (doneAt G op i) as HD by by exists g. destruct (decide (opType op = GET)) as [Hg|Hg].
  - unfold effect at 1. rewrite Hg. apply shard_runs_gets. intros x Hin. destruct (Hx x Hin) as [Hop _]. rewrite Hop. split; [done|].
    apply list_elem_of_filter in Hin as [Hr Hin]. destruct (rank_done x i Hin Hr) as [_ ->]. rewrite Hop. unfold effect. by rewrite Hg.
  - destruct (done_rank op i HD Hg) as (x & Hin & Hop & Hr).
    assert (filter (λ x, rank x = (2 * i)%nat) E = [x]) as ->.
    { apply Permutation_singleton_r, NoDup_Permutation; [apply NoDup_filter; by eapply NoDup_fmap_1, hi_once|apply NoDup_singleton|].
      intros y. rewrite list_elem_of_singleton. split; [|intros ->; by apply list_elem_of_filter].
      intros Hy. destruct (Hx y Hy) as [Hyo _]. apply list_elem_of_filter in Hy as [_ Hy].
      eapply NoDup_fmap_elem; [apply (hi_once _ _ _ _ R)|done|done|congruence]. }
    change (logged_of <$> [x]) with [logged_of x]. rewrite runs_write; rewrite <-?Hop; [done| |done].
    by apply (b_clerk _ B), (done_sent op i).
Qed.

Lemma shard_history_linearizable : linearizable MapModel (operations (users w)).
Proof.
  rewrite (hi_logged _ _ _ _ R).
  apply (blocks_linearizable logged_of E (λ x, rank x) (λ n, storeAt G (Nat.div2 (S n))) (2 * length G)).
  - done.
  - intros [x t] ((HA & _) & _)%(hi_ended _ _ _ _ R). by apply answeredAt_lt in HA.
  - intros [x tx] [y ty] Hx Hy Hp. unfold precedes in Hp. cbn in Hp.
    destruct (hi_ended _ _ _ _ R _ _ Hx) as ((_ & Hf) & (_ & _ & HB) & _ & _). specialize (HB y ty Hy Hp). cbn. lia.
  - intros n Hn. destruct (Nat.Even_or_Odd n) as [[i ->]|[i ->]].
    + rewrite Nat.div2_succ_double. replace (S (S (2 * i))) with (2 * (S i))%nat by lia. rewrite Nat.div2_double.
      apply runs_commit. lia.
    + replace (S (2 * i + 1)) with (2 * S i)%nat by lia. rewrite Nat.div2_succ_double, Nat.div2_double.
      apply shard_runs_gets. intros x [Hr Hx]%list_elem_of_filter. by apply rank_read.
Qed.

Lemma shard_history_typed : Forall kv_typed (operations (users w)).
Proof.
  rewrite (hi_logged _ _ _ _ R). apply Forall_fmap, Forall_forall. intros [x t] Hx. destruct (hi_ended _ _ _ _ R _ _ Hx) as (_ & _ & _ & Ht).
  split; cbn; [by eexists|by eexists|lia].
Qed.

End linearize.

Lemma run_ok maxrs srvs w :
  (∀ srv, srv ∈ srvs → srv.1 ≠ 0) → rtc (wrun ords address) (init_world maxrs srvs) w →
  assigned w →
  base w ∧ setting (configs w) (λ op, op ∈ requests w) ∧ sinv (configs w) (requests w) w ∧
  ∃ E, recorded (users w) (commits w) (requests w) E.
Proof.
  intros Hg HR Ha. pose proof (base_reachable _ _ _ HR) as B. pose proof (base_setting w B Ha) as ST.
  destruct (reachable_ok maxrs srvs w Hg HR _ _ ST) as [I HE]; auto.
Qed.

(** ** The theorems *)

(** C2: the sharded service is linearizable.  Groups of servers take configurations
    from the controller, hand shards and sessions over to each other, fail, restart,
    take and install snapshots and collect garbage, clerks retry requests at any
    server of any group; if the controller's configurations keep assigning shard 0,
    then, once no call is under way, the history the clients have recorded is that of
    one map on which every operation took effect at some moment between its call and
    its return, and porcupine's check of it against the key/value model returns
    true. *)
Theorem shardkv_linearizable maxrs srvs w :
  (∀ srv, srv ∈ srvs → srv.1 ≠ 0) → rtc (wrun ords address) (init_world maxrs srvs) w →
  assigned w → calls (users w) = ∅ →
  linearizable MapModel (operations (users w)) ∧
  ∀ sort msgs, sorts sort → operations (users w) ≠ [] → kv_arrivals sort (operations (users w)) false msgs → TimeoutMsg ∉ msgs →
    CheckOperations sort KvModel (operations (users w)) msgs = Some true.
Proof.
  intros Hg HR Ha Hc. destruct (run_ok maxrs srvs w Hg HR Ha) as (B & ST & I & E & R).
  pose proof (shard_history_linearizable w E B ST I R Hc) as HL. split; [done|]. intros sort msgs Hsort Hne Harr Hnt.
  destruct (kv_verdict sort _ false msgs [] Hsort (shard_history_typed w E R) Hne Harr) as (res & info & Hv & Hres).
  unfold CheckOperations. rewrite Hv. cbn. by destruct res.
Qed.

(** C4: the groups of a sharded service are one store.  In every run in which every
    configuration but the first assigns shard 0 to a group (when all groups leave
    and one joins again it fails), the requests the groups' logs execute are requests
    clerks have sent, none of them executed twice, in whatever groups and configurations; the logs never give one shard to
    two groups; and what any server holds of a key whose shard it has is what one
    map, updated by these requests in the order the groups committed them, held at
    some moment of the run. *)
Theorem shardkv_one_store maxrs srvs w :
  (∀ srv, srv ∈ srvs → srv.1 ≠ 0) → rtc (wrun ords address) (init_world maxrs srvs) w →
  assigned w →
  let group := groupOf byKey peer0 (commits w) in
  let done := executions byKey peer0 (commits w) in
  NoDup (request <$> done) ∧ (∀ op, op ∈ done → op ∈ requests w) ∧
  (∀ g h s, hasShard (Shards (group g)) s = true → hasShard (Shards (group h)) s = true → g = h) ∧
  ∀ srv skv, servers w !! srv = Some skv → ∃ N, (N <= length (commits w))%nat ∧
    ∀ k, hasShard (Shards skv) (key2shard k) = true → ShardKVMap skv !! k = store (executions byKey peer0 (take N (commits w))) !! k.
Proof.
  intros Hg HR Ha. destruct (run_ok maxrs srvs w Hg HR Ha) as (B & ST & I & _).
  pose proof (committed_winv byKey byKey_valid _ _ ST peer0 _ (v_committed _ _ _ I)) as W. split_and!; [apply W|apply W|..].
  - intros g h s. by eapply one_holder.
  - intros srv skv Hs. destruct (server_past _ _ ST _ _ _ (v_committed _ _ _ I) (v_servers _ _ _ I _ _ Hs)) as (N & HN & Hrep & WN).
    exists N. split; [done|]. intros k Hk. rewrite (rp_map _ _ Hrep). apply (w_data _ _ _ _ _ WN). by rewrite <-(rp_shards _ _ Hrep).
Qed.

End runs.

(** ** Concrete runs *)

Module ShardSystemExamples.
#[local] Existing Instance ShardExamples.gobState.

Definition named (name : string) : Z * Z := (if String.eqb name "a" then 1 else 2, 0).
Definition w0 : World := init_world 0 [(1, 0); (2, 0)].

Definition runAll (evs : list Event) (w : World) : option World :=
  foldl (λ acc ev, w ← acc; wstep (λ _, byKey) named ev w) (Some w) evs.

Lemma shard_runAll_wrun evs w w' : runAll evs w = Some w' → rtc (wrun (λ _, byKey) named) w w'.
Proof.
  unfold runAll. revert w. induction evs as [|ev evs IH]; cbn; intros w HR; [by simplify_eq|].
  destruct (wstep _ named ev w) as [w1|] eqn:HS; [eapply rtc_l; [by exists ev|by apply IH]|].
  exfalso. clear -HR. induction evs; [done|auto].
Qed.

Definition join g name : Event := EControl (ShardCtrler.joinOp (mkJoin 1 1 {[g := [name]]})).
Definition leave g : Event := EControl (ShardCtrler.leaveOp (mkLeave 1 1 [g])).
(** The next configuration; the commands started for it; a command gets through. *)
Definition commit srv k : list Event := [ECommit srv k; EApply srv].
Definition next srv k : list Event := EUpdateConfig srv (Some 9%nat) :: commit srv k.
Definition firstShard srv k : list Event := [ECheckMiss srv; EStart 0] ++ commit srv k.
Definition pullFrom srv name k : list Event := [ECheckMiss srv; EPull 0 name; EStart 0] ++ commit srv k.

Definition put1 : Op := putOp (mkPA "x" "a" "Put" 0 7 1).
Definition get2 : Op := getOp (mkGet "x" 0 8 2).

(** A call from its beginning to its end, at a server that leads. *)
Definition call srv op k out t : list Event :=
  [EUser (CBegin (ClientId op) 0); EIssue op; ERequest srv op] ++ commit srv k ++
  [EResume 0 (Some 0%nat); EAnswer op out; EUser (CTick t); EUser (CEnd (ClientId op)); EUser (CTick (t + 1))].

Definition lead : list Event := [ERaft (1, 0) true 1 0; ERaft (2, 0) true 1 0].

(** A Put at group 1, its shard goes to group 2, whose server takes a snapshot,
    fails and starts again, a Get there. *)
Definition move_run : list Event :=
  lead ++ [join 1 "a"] ++ next (1, 0) 0 ++ firstShard (1, 0) 1 ++ call (1, 0) put1 2 "" 5 ++
  [join 2 "b"] ++ next (1, 0) 3 ++ next (2, 0) 0 ++ next (2, 0) 1 ++ pullFrom (2, 0) "a" 2 ++
  [ESnapshot (2, 0); ERestart (2, 0); ERaft (2, 0) true 2 0] ++ call (2, 0) get2 3 "a" 9.
Definition w1 : World := default w0 (runAll move_run w0).

Lemma shard_w1_reached : rtc (wrun (λ _, byKey) named) w0 w1.
Proof. apply (shard_runAll_wrun move_run). vm_compute. reflexivity. Qed.

Lemma two_groups : ∀ srv : Z * Z, srv ∈ [(1, 0); (2, 0)] → srv.1 ≠ 0.
Proof. intros srv [->|[->|[]%elem_of_nil]%elem_of_cons]%elem_of_cons; discriminate. Qed.

Lemma w1_assigned : assigned w1.
Proof.
  intros n cfg Hn Hi. pose proof (index_lt _ _ _ Hi). assert (zlen (configs w1) = 3) as Hlen by (vm_compute; reflexivity).
  assert (n = 1 ∨ n = 2) as Hn2 by lia.
  destruct Hn2 as [-> | ->]; vm_compute in Hi; injection Hi as <-; vm_compute; discriminate.
Qed.

Lemma shardkv_linearizable_witness :
  length (operations (users w1)) = 2%nat ∧ linearizable MapModel (operations (users w1)).
Proof.
  split; [vm_compute; reflexivity|].
  destruct (shardkv_linearizable (λ _, byKey) (λ _, byKey_valid) named 0 [(1, 0); (2, 0)] w1) as [HL _];
    [apply two_groups|apply shard_w1_reached|apply w1_assigned|vm_compute; reflexivity|exact HL].
Defined.

Lemma shardkv_one_store_witness :
  executions byKey peer0 (commits w1) = [put1; get2] ∧
  ∃ N, (N <= length (commits w1))%nat ∧ store (executions byKey peer0 (take N (commits w1))) !! "x" = Some "a".
Proof.
  split; [vm_compute; reflexivity|].
  destruct (shardkv_one_store (λ _, byKey) (λ _, byKey_valid) named 0 [(1, 0); (2, 0)] w1) as (_ & _ & _ & HS);
    [apply two_groups|apply shard_w1_reached|apply w1_assigned|].
  destruct (HS (2, 0) (default (bootServer 0 (2, 0)) (servers w1 !! (2, 0)))) as (N & HN & Hk); [vm_compute; reflexivity|].
  exists N. split; [exact HN|]. rewrite <-(Hk "x"); vm_compute; reflexivity.
Defined.

(** A Put at group 1, the only group. *)
Definition put_run : list Event :=
  lead ++ [join 1 "a"] ++ next (1, 0) 0 ++ firstShard (1, 0) 1 ++ call (1, 0) put1 2 "" 5.
(** It leaves and joins again, and its server follows the configurations. *)
Definition rejoin_run : list Event :=
  [leave 1; join 1 "a"] ++ next (1, 0) 3 ++ next (1, 0) 4 ++ firstShard (1, 0) 5.

(** C32: the data does not survive a configuration without groups.  A client puts
    "a" at key "x" of the only group; the group leaves and joins again; a client
    gets "x" from it.  [pullShards] takes the configuration that assigns shard 0 to
    no group for the first one and starts with empty shards, so the Get, which
    begins at 6, after the Put has ended at 5, returns the empty string, although
    the server still has "a" in the dock of the configuration without groups.  The
    history is not linearizable; without leaving and joining the same Get returns
    "a". *)
Theorem leave_all_loses_data :
  ∃ w skv sh,
    runAll (put_run ++ rejoin_run ++ call (1, 0) get2 6 "" 9) (init_world 0 [(1, 0); (2, 0)]) = Some w ∧
    rtc (wrun (λ _, byKey) named) (init_world 0 [(1, 0); (2, 0)]) w ∧ calls (users w) = ∅ ∧
    Groups <$> configs w = [∅; {[1 := ["a"]]}; ∅; {[1 := ["a"]]}] ∧
    operations (users w) =
      [mkOperation 0 (VInput (mkKvInput 1 "x" "a")) 0 (VOutput (mkKvOutput "")) 5;
       mkOperation 0 (VInput (mkKvInput 0 "x" "")) 6 (VOutput (mkKvOutput "")) 9] ∧
    servers w !! (1, 0) = Some skv ∧ (OutShardsDock skv !! 2 ≫= (.!! 0)) = Some sh ∧ ss_KVMap sh !! "x" = Some "a" ∧
    ¬ linearizable MapModel (operations (users w)) ∧
    ∃ w', runAll (put_run ++ call (1, 0) get2 3 "a" 9) (init_world 0 [(1, 0); (2, 0)]) = Some w'.
Proof.
  assert (∃ w, runAll (put_run ++ rejoin_run ++ call (1, 0) get2 6 "" 9) w0 = Some w) as [w Hw]
    by (eexists; vm_compute; reflexivity).
  assert (operations (users w) =
      [mkOperation 0 (VInput (mkKvInput 1 "x" "a")) 0 (VOutput (mkKvOutput "")) 5;
       mkOperation 0 (VInput (mkKvInput 0 "x" "")) 6 (VOutput (mkKvOutput "")) 9]) as Hops
    by (vm_compute in Hw; injection Hw as <-; vm_compute; reflexivity).
  assert (calls (users w) = ∅ ∧ Groups <$> configs w = [∅; {[1 := ["a"]]}; ∅; {[1 := ["a"]]}]) as [Hc HG]
    by (vm_compute in Hw; injection Hw as <-; vm_compute; done).
  assert (∃ skv sh, servers w !! (1, 0) = Some skv ∧ (OutShardsDock skv !! 2 ≫= (.!! 0)) = Some sh ∧
    ss_KVMap sh !! "x" = Some "a") as (skv & sh & Hs & Hd & Hx)
    by (vm_compute in Hw; injection Hw as <-; eexists _, _; split_and!; vm_compute; reflexivity).
  exists w, skv, sh. split; [exact Hw|]. split; [exact (shard_runAll_wrun _ _ _ Hw)|].
  split; [exact Hc|]. split; [exact HG|]. split; [exact Hops|]. split; [exact Hs|]. split; [exact Hd|].
  split; [exact Hx|]. split; [|eexists; vm_compute; reflexivity].
  rewrite Hops. intros (ops & HP & Ho & Ha).
  apply symmetry, Permutation_length_2_inv in HP as [-> | ->]; [vm_compute in Ha; discriminate|].
  apply StronglySorted_inv in Ho as [_ Ho]. apply Forall_inv in Ho. apply Ho. vm_compute. reflexivity.
Qed.

End ShardSystemExamples.
