(* ===== verification/LabRpc.v ===== *)
(** * The simulated network ([labrpc/labrpc.go])

    Clients call methods of servers through end points of a network that may delay
    and lose requests and replies, and from which servers are deleted.  Every call is
    processed by goroutines of its own; a state of the system holds the network, the
    servers, the objects behind them and the calls in flight, and one step is what a
    goroutine does under a lock or between two communications.

    Delays and random choices are nondeterminism: a delayed goroutine takes its next
    step later, and a message that may be lost has a step that loses it.  A handler
    runs in one step.  [reflect] and labgob's codec are parameters; a call of
    [log.Fatal] and a panic are [None].

    [Call] decodes into the caller's variable, where gob leaves what it does not find
    in the message; [finishCall] decodes into a new value.  The callers in the
    repository pass a new variable for every call, except the clerk of kvraft, which
    uses one for all attempts of an operation; a reply that makes it try again has
    [Success] false and an empty [Value], so that its variable still is as new. *)

From S2P Require Import Prelude.

Section labrpc.
(** Names of end points and servers, reflected types, values, and the state of the
    objects that serve. *)
Context {name : Type} `{Countable name} {ty val obj : Type}.
(** [labgob]: encoding a value, decoding into a new value of a type; what is left in
    the new value when decoding fails. *)
Context (encode : val → bytes) (decode : ty → bytes → option val) (zero : ty → val).

(** ** Services *)

(** A method as [reflect] shows it: [Func] runs it on the receiver with the argument
    and a pointer to a new reply, and gives the reply back. *)
Record Method := mkMethod {
  PkgPath : string; MName : string; NumIn : Z; In2IsPtr : bool; In2Elem : ty; NumOut : Z;
  Func : obj → val → val → obj * val }.

Record Service := mkService { svc_name : string; methods : gmap string Method }.

Definition suitable (m : Method) : bool :=
  negb (negb (bool_decide (PkgPath m = "")) || negb (NumIn m =? 3) || negb (In2IsPtr m) || negb (NumOut m =? 0)).

Definition MakeService (typeName : string) (typ : list Method) : Service :=
  mkService typeName (foldl (λ ms m, if suitable m then <[MName m := m]> ms else ms) ∅ typ).

Record reqMsg := mkReq { rq_endname : name; svcMeth : string; argsType : ty; rq_args : bytes }.
Record replyMsg := mkReply { rp_ok : bool; rp_reply : bytes }.
Definition failed : replyMsg := mkReply false [].

(** [Service.dispatch] *)
Definition svcDispatch (svc : Service) (methname : string) (req : reqMsg) (o : obj) : option (obj * replyMsg) :=
  match methods svc !! methname with
  | Some method =>
    let args := default (zero (argsType req)) (decode (argsType req) (rq_args req)) in
    let '(o', replyv) := Func method o args (zero (In2Elem method)) in
    Some (o', mkReply true (encode replyv))
  | None => None
  end.

(** ** Servers *)

Record Server := mkServer { services : gmap string Service; sv_count : Z }.
Definition MakeServer : Server := mkServer ∅ 0.
Definition AddService (svc : Service) (rs : Server) : Server := mkServer (<[svc_name svc := svc]> (services rs)) (sv_count rs).
Definition sv_GetCount (rs : Server) : Z := sv_count rs.

(** [svcMeth[:dot]] and [svcMeth[dot+1:]] at the last dot. *)
Fixpoint splitLastDot (s : string) : option (string * string) :=
  match s with
  | EmptyString => None
  | String a r =>
    match splitLastDot r with
    | Some (p, q) => Some (String a p, q)
    | None => if bool_decide (a = Ascii.ascii_of_nat 46) then Some (EmptyString, r) else None
    end
  end.

(** [Server.dispatch]: the server with the request counted, the objects and the reply. *)
Definition svDispatch (rs : Server) (req : reqMsg) (o : obj) : option (Server * obj * replyMsg) :=
  let rs := mkServer (services rs) (sv_count rs + 1) in
  '(serviceName, methodName) ← splitLastDot (svcMeth req);
  match services rs !! serviceName with
  | Some service => '(o', r) ← svcDispatch service methodName req o; Some (rs, o', r)
  | None => None
  end.

(** ** The network *)

(** A server is a pointer, the number of the server in a store.  [closed]: the channel
    [done] is closed; [serving]: the goroutine that reads [endCh] has not seen it. *)
Record Network := mkNetwork {
  reliable : bool; longDelays : bool; longReordering : bool;
  ends : gset name; enabled : gmap name bool; servers : gmap name (option nat);
  connections : gmap name (option name); count : Z; nbytes : Z; closed : bool; serving : bool }.

#[export] Instance eta_Network : Eta Network := λ n,
  mkNetwork (reliable n) (longDelays n) (longReordering n) (ends n) (enabled n) (servers n) (connections n)
    (count n) (nbytes n) (closed n) (serving n).
#[export] Instance set_reliable : Setter reliable.
Proof. setter. Defined.
#[export] Instance set_longDelays : Setter longDelays.
Proof. setter. Defined.
#[export] Instance set_longReordering : Setter longReordering.
Proof. setter. Defined.
#[export] Instance set_ends : Setter ends.
Proof. setter. Defined.
#[export] Instance set_enabled : Setter enabled.
Proof. setter. Defined.
#[export] Instance set_servers : Setter servers.
Proof. setter. Defined.
#[export] Instance set_connections : Setter connections.
Proof. setter. Defined.
#[export] Instance set_count : Setter count.
Proof. setter. Defined.
#[export] Instance set_nbytes : Setter nbytes.
Proof. setter. Defined.
#[export] Instance set_closed : Setter closed.
Proof. setter. Defined.
#[export] Instance set_serving : Setter serving.
Proof. setter. Defined.

Definition wrap32 (x : Z) : Z := (x + 2 ^ 31) mod 2 ^ 32 - 2 ^ 31.

Definition MakeNetwork : Network := mkNetwork true false false ∅ ∅ ∅ ∅ 0 0 false true.
(** Closing a closed channel panics. *)
Definition Cleanup (rn : Network) : option Network := if closed rn then None else Some (rn <| closed := true |>).
Definition Reliable (yes : bool) (rn : Network) : Network := rn <| reliable := yes |>.
Definition LongReordering (yes : bool) (rn : Network) : Network := rn <| longReordering := yes |>.
Definition LongDelays (yes : bool) (rn : Network) : Network := rn <| longDelays := yes |>.

Definition MakeEnd (endname : name) (rn : Network) : option Network :=
  if decide (endname ∈ ends rn) then None
  else Some (rn <| ends := {[endname]} ∪ ends rn |> <| enabled := <[endname := false]> (enabled rn) |>
                <| connections := <[endname := None]> (connections rn) |>).
Definition AddServer (servername : name) (rs : nat) (rn : Network) : Network :=
  rn <| servers := <[servername := Some rs]> (servers rn) |>.
Definition DeleteServer (servername : name) (rn : Network) : Network :=
  rn <| servers := <[servername := None]> (servers rn) |>.
Definition Connect (endname servername : name) (rn : Network) : Network :=
  rn <| connections := <[endname := Some servername]> (connections rn) |>.
Definition Enable (endname : name) (en : bool) (rn : Network) : Network :=
  rn <| enabled := <[endname := en]> (enabled rn) |>.
(** A nil server panics. *)
Definition GetCount (servername : name) (srvs : gmap nat Server) (rn : Network) : option Z :=
  s ← getz None (servers rn) servername; sv ← srvs !! s; Some (sv_GetCount sv).
Definition GetTotalCount (rn : Network) : Z := count rn.
Definition GetTotalBytes (rn : Network) : Z := nbytes rn.

(** What a goroutine of [processReq] knows of its end point. *)
Record EndInfo := mkInfo { i_enabled : bool; i_servername : option name; i_server : option nat; i_reliable : bool; i_longreordering : bool }.

Definition readEndnameInfo (endname : name) (rn : Network) : EndInfo :=
  let servername := getz None (connections rn) endname in
  mkInfo (getz false (enabled rn) endname) servername
    (match servername with Some s => getz None (servers rn) s | None => None end) (reliable rn) (longReordering rn).

Definition isServerDead (endname servername : name) (server : nat) (rn : Network) : bool :=
  negb (getz false (enabled rn) endname) || negb (bool_decide (getz None (servers rn) servername = Some server)).

(** ** Calls *)

(** The endname, the server and its name, and the two flags read when a request is
    handed to the server. *)
Record Ticket := mkTicket { t_servername : name; t_server : nat; t_reliable : bool; t_longreordering : bool }.

(** Where the goroutines of a call are: in [Call] before the request is sent; before
    [readEndnameInfo]; in the loop that waits for the handler; behind it, with the
    reply if there is one; behind the choice, with the message to send to the client;
    with the message sent; and back from [Call], with the value decoded if it is
    true. *)
Inductive Phase :=
  | Calling
  | Sent
  | Waiting (t : Ticket)
  | Leaving (t : Ticket) (r : option replyMsg)
  | Sending (r : replyMsg)
  | Answered (r : replyMsg)
  | Returned (v : option val).

(** The goroutine that runs the handler: it has not been started, is about to
    dispatch, holds a reply for [ech], or has handed it over. *)
Inductive Job := NoJob | Dispatching (server : nat) | Holding (r : replyMsg) | Finished.

Record Flight := mkFlight { req : reqMsg; replyTy : ty; phase : Phase; job : Job }.

Record World := mkWorld { net : Network; srvs : gmap nat Server; objs : obj; flights : gmap nat Flight }.

(** The first part of [Call]. *)
Definition startCall (endname : name) (meth : string) (argTy replyTy : ty) (args : val) : Flight :=
  mkFlight (mkReq endname meth argTy (encode args)) replyTy Calling NoJob.

(** The goroutine of the network takes a request from [endCh]. *)
Definition accept (req : reqMsg) (rn : Network) : Network :=
  rn <| count := wrap32 (count rn + 1) |> <| nbytes := wrap64 (nbytes rn + zlen (rq_args req)) |>.

(** The beginning of [processReq]: the message for the client when there is no server
    or the request is dropped, else what is handed to the server. *)
Definition receive (drop : bool) (req : reqMsg) (rn : Network) : replyMsg + Ticket :=
  let i := readEndnameInfo (rq_endname req) rn in
  match i_enabled i, i_servername i, i_server i with
  | true, Some servername, Some server =>
    if negb (i_reliable i) && drop then inl failed
    else inr (mkTicket servername server (i_reliable i) (i_longreordering i))
  | _, _, _ => inl failed
  end.

(** The end of [processReq]: the message for the client. *)
Definition conclude (drop : bool) (req : reqMsg) (t : Ticket) (r : option replyMsg) (rn : Network) : replyMsg :=
  match r with
  | None => failed
  | Some r =>
    if isServerDead (rq_endname req) (t_servername t) (t_server t) rn then failed
    else if negb (t_reliable t) && drop then failed
    else r
  end.

(** The end of [Call]; a reply that cannot be decoded is fatal. *)
Definition finishCall (replyTy : ty) (rep : replyMsg) : option (option val) :=
  if rp_ok rep then v ← decode replyTy (rp_reply rep); Some (Some v) else Some None.

(** ** Steps *)

(** The calls a test harness makes on the network. *)
Inductive Admin :=
  | ACleanup | AReliable (yes : bool) | ALongReordering (yes : bool) | ALongDelays (yes : bool)
  | AMakeEnd (e : name) | AAddServer (n : name) (s : nat) | ADeleteServer (n : name)
  | AConnect (e n : name) | AEnable (e : name) (en : bool).

Definition administer (a : Admin) (rn : Network) : option Network :=
  match a with
  | ACleanup => Cleanup rn
  | AReliable yes => Some (Reliable yes rn)
  | ALongReordering yes => Some (LongReordering yes rn)
  | ALongDelays yes => Some (LongDelays yes rn)
  | AMakeEnd e => MakeEnd e rn
  | AAddServer n s => Some (AddServer n s rn)
  | ADeleteServer n => Some (DeleteServer n rn)
  | AConnect e n => Some (Connect e n rn)
  | AEnable e en => Some (Enable e en rn)
  end.

(** The execution of a handler: for which call, at which server, and what it did. *)
Record Exec := mkExec { e_id : nat; e_server : nat; e_before : obj; e_after : obj; e_reply : replyMsg }.

(** What is seen of a step. *)
Inductive Label := LSilent | LAdmin (a : Admin) | LAccept (size : Z) | LSend (size : Z) | LExec (e : Exec).

Definition move (w : World) (id : nat) (f : Flight) (p : Phase) (j : Job) : World :=
  mkWorld (net w) (srvs w) (objs w) (<[id := mkFlight (req f) (replyTy f) p j]> (flights w)).
Definition withNet (rn : Network) (w : World) : World := mkWorld rn (srvs w) (objs w) (flights w).

Inductive step (w : World) : Label → World → Prop :=
  | step_admin a rn : administer a (net w) = Some rn → step w (LAdmin a) (withNet rn w)
  | step_server s rs : srvs w !! s = None → sv_count rs = 0 →
      step w LSilent (mkWorld (net w) (<[s := rs]> (srvs w)) (objs w) (flights w))
  | step_local o : step w LSilent (mkWorld (net w) (srvs w) o (flights w))
  | step_stop : closed (net w) = true → step w LSilent (withNet ((net w) <| serving := false |>) w)
  | step_call id endname meth argTy rTy args : flights w !! id = None →
      step w LSilent (mkWorld (net w) (srvs w) (objs w) (<[id := startCall endname meth argTy rTy args]> (flights w)))
  | step_accept id f : flights w !! id = Some f → phase f = Calling → serving (net w) = true →
      step w (LAccept (zlen (rq_args (req f)))) (move (withNet (accept (req f) (net w)) w) id f Sent (job f))
  | step_refuse id f : flights w !! id = Some f → phase f = Calling → closed (net w) = true →
      step w LSilent (move w id f (Returned None) (job f))
  | step_unserved id f drop r : flights w !! id = Some f → phase f = Sent → receive drop (req f) (net w) = inl r →
      step w LSilent (move w id f (Sending r) (job f))
  | step_served id f drop t : flights w !! id = Some f → phase f = Sent → receive drop (req f) (net w) = inr t →
      step w LSilent (move w id f (Waiting t) (Dispatching (t_server t)))
  | step_dispatch id f s rs rs' o r : flights w !! id = Some f → job f = Dispatching s → srvs w !! s = Some rs →
      svDispatch rs (req f) (objs w) = Some (rs', o, r) →
      step w (LExec (mkExec id s (objs w) o r))
        (mkWorld (net w) (<[s := rs']> (srvs w)) o (<[id := mkFlight (req f) (replyTy f) (phase f) (Holding r)]> (flights w)))
  | step_reply id f t r : flights w !! id = Some f → phase f = Waiting t → job f = Holding r →
      step w LSilent (move w id f (Leaving t (Some r)) Finished)
  | step_dead id f t : flights w !! id = Some f → phase f = Waiting t →
      isServerDead (rq_endname (req f)) (t_servername t) (t_server t) (net w) = true →
      step w LSilent (move w id f (Leaving t None) (job f))
  | step_drain id f r : flights w !! id = Some f → (∀ t, phase f ≠ Waiting t) → job f = Holding r →
      step w LSilent (move w id f (phase f) Finished)
  | step_conclude id f t r drop : flights w !! id = Some f → phase f = Leaving t r →
      step w LSilent (move w id f (Sending (conclude drop (req f) t r (net w))) (job f))
  | step_send id f r : flights w !! id = Some f → phase f = Sending r →
      step w (LSend (zlen (rp_reply r)))
        (move (withNet ((net w) <| nbytes := wrap64 (nbytes (net w) + zlen (rp_reply r)) |>) w) id f (Answered r) (job f))
  | step_return id f r v : flights w !! id = Some f → phase f = Answered r → finishCall (replyTy f) r = Some v →
      step w LSilent (move w id f (Returned v) (job f)).

(** Runs, with what is seen of them, the last first. *)
Inductive run : World → list Label → World → Prop :=
  | run_nil w : run w [] w
  | run_snoc w tr w1 l w2 : run w tr w1 → step w1 l w2 → run w (l :: tr) w2.

(** The executions seen of a call. *)
Definition execOf (id : nat) (l : Label) : option Exec :=
  match l with LExec e => if decide (e_id e = id) then Some e else None | _ => None end.
Definition execs (id : nat) (tr : list Label) : list Exec := omap (execOf id) tr.

End labrpc.

Arguments Method : clear implicits.
Arguments Service : clear implicits.
Arguments Server : clear implicits.
Arguments reqMsg : clear implicits.
Arguments Ticket : clear implicits.
Arguments Phase : clear implicits.
Arguments Flight : clear implicits.
Arguments Exec : clear implicits.
Arguments Admin : clear implicits.
Arguments Label : clear implicits.
Arguments Network name {_ _}.
Arguments World name {_ _} ty val obj.
