(* ===== verification/RpcContract.v ===== *)
(** * What a call through the network means

    [labrpc]'s promises to the programs above it: a handler runs at most once for a
    call, a call that is true returns what the handler of a live server replied
    ([call_contract]); no reply comes from a deleted server ([deleted_server_silent]);
    a reliable network answers ([reliable_call]); a call always has a next step, and
    only a bounded number of them ([call_returns]); and the counters the tests read
    ([counters_correct]). *)

From S2P Require Import Prelude LabRpc.

Section contract.
Context {name : Type} `{Countable name} {ty val obj : Type}.
Context (encode : val → bytes) (decode : ty → bytes → option val) (zero : ty → val).
#[local] Notation World := (World name ty val obj).
#[local] Notation reqMsg := (reqMsg name ty).
#[local] Notation Ticket := (Ticket name).
#[local] Notation Flight := (Flight name ty val).
#[local] Notation Exec := (Exec obj).
#[local] Notation Label := (Label name obj).
#[local] Notation step := (step encode decode zero).
#[local] Notation run := (run encode decode zero).
Implicit Types (w : World) (id : nat) (f : Flight) (e : Exec) (tr : list Label) (t : Ticket).

(** ** Dispatch *)

Fixpoint nodot (s : string) : bool :=
  match s with EmptyString => true | String a r => negb (bool_decide (a = Ascii.ascii_of_nat 46)) && nodot r end.

Lemma splitLastDot_none s : nodot s = true → splitLastDot s = None.
Proof.
  induction s as [|a s IH]; cbn [nodot splitLastDot]; [done|]. intros [Ha%negb_true_iff Hs]%andb_true_iff.
  by rewrite (IH Hs), Ha.
Qed.

Lemma splitLastDot_app s1 s2 : nodot s2 = true → splitLastDot (s1 +:+ "." +:+ s2) = Some (s1, s2).
Proof.
  intros Hs. induction s1 as [|a s1 IH].
  - change (splitLastDot (String (Ascii.ascii_of_nat 46) s2) = Some (EmptyString, s2)). cbn [splitLastDot].
    by rewrite (splitLastDot_none s2 Hs).
  - change (splitLastDot (String a (s1 +:+ "." +:+ s2)) = Some (String a s1, s2)). cbn [splitLastDot]. by rewrite IH.
Qed.

(** The handlers of a type are its suitable methods. *)
Lemma MakeService_methods (typ : list (Method ty val obj)) (ms : gmap string (Method ty val obj)) m :
  NoDup (MName <$> typ) → m ∈ typ → ms !! MName m = None →
  foldl (λ ms m, if suitable m then <[MName m := m]> ms else ms) ms typ !! MName m = if suitable m then Some m else None.
Proof.
  assert (∀ (typ : list (Method ty val obj)) (ms : gmap string (Method ty val obj)) k, k ∉ MName <$> typ →
    foldl (λ ms (m : Method ty val obj), if suitable m then <[MName m := m]> ms else ms) ms typ !! k = ms !! k) as Hout.
  { clear. induction typ as [|m typ IH]; intros ms k Hk; [done|]. cbn in *. apply not_elem_of_cons in Hk as [Hne Hk].
    rewrite IH by done. destruct (suitable m); [|done]. by rewrite lookup_insert_ne. }
  revert ms. induction typ as [|m' typ IH]; intros ms HN Hm Hms; [by apply elem_of_nil in Hm|]. cbn in *.
  apply NoDup_cons in HN as [Hn HN]. apply elem_of_cons in Hm as [<-|Hm].
  - rewrite Hout by done. destruct (suitable m); [apply lookup_insert_eq|done].
  - apply IH; [done|done|]. destruct (suitable m'); [|done]. rewrite lookup_insert_ne; [done|].
    intros Heq. apply Hn. rewrite Heq. by apply list_elem_of_fmap_2.
Qed.

(** A request for [Type.Method] that arrives at a server with the service of the
    type runs that method on the decoded argument, in front of a new reply, and
    answers with the encoded reply; the server counts it.  A method that is not a
    handler (unexported, or with other parameters) is refused. *)
Theorem dispatch_runs_method (rs : Server ty val obj) typeName typ m (rq : reqMsg) (o : obj) :
  NoDup (MName <$> typ) → m ∈ typ → nodot (MName m) = true → svcMeth rq = (typeName +:+ "." +:+ MName m)%string →
  svDispatch encode decode zero (AddService (MakeService typeName typ) rs) rq o =
    if suitable m then
      let args := default (zero (argsType rq)) (decode (argsType rq) (rq_args rq)) in
      let '(o', v) := Func m o args (zero (In2Elem m)) in
      Some (mkServer (<[typeName := MakeService typeName typ]> (services rs)) (sv_count rs + 1), o', mkReply true (encode v))
    else None.
Proof.
  intros HN Hm Hd Hs. unfold svDispatch. rewrite Hs, splitLastDot_app by done. cbn [mbind option_bind services AddService svc_name MakeService].
  rewrite lookup_insert_eq. unfold svcDispatch. cbn [methods MakeService]. rewrite MakeService_methods by done.
  destruct (suitable m); [|done]. destruct (Func m o _ _). done.
Qed.

(** ** Executions *)

(** The handler was dispatched on the request of the call. *)
Definition genuine (rq : reqMsg) (e : Exec) : Prop :=
  ∃ rs rs', svDispatch encode decode zero rs rq (e_before e) = Some (rs', e_after e, e_reply e).

(** What is known of a call of which the executions [es] were seen. *)
Record flight_ok id (f : Flight) (es : list Exec) : Prop := {
  fo_genuine : Forall (genuine (req f)) es;
  fo_job : match job f with
           | NoJob | Dispatching _ => es = []
           | Holding r => ∃ e, es = [e] ∧ e_reply e = r
           | Finished => ∃ e, es = [e]
           end;
  fo_phase : match phase f with
             | Calling | Sent => job f = NoJob
             | Waiting t => job f = Dispatching (t_server t) ∨ ∃ r, job f = Holding r
             | Leaving _ (Some r) => ∃ e, es = [e] ∧ e_reply e = r
             | Leaving _ None => True
             | Sending r | Answered r => rp_ok r = true → ∃ e, es = [e] ∧ e_reply e = r
             | Returned (Some v) => ∃ e, es = [e] ∧ rp_ok (e_reply e) = true ∧ decode (replyTy f) (rp_reply (e_reply e)) = Some v
             | Returned None => True
             end;
}.

Definition flights_ok (tr : list Label) w : Prop :=
  ∀ id, match flights w !! id with Some f => flight_ok id f (execs id tr) | None => execs id tr = [] end.

(** A step that moves one call and shows no execution. *)
Lemma flights_ok_move l tr w id f f' rn srv o :
  (∀ id', execOf id' l = None) → flights_ok tr w → flights w !! id = Some f →
  (flight_ok id f (execs id tr) → flight_ok id f' (execs id tr)) →
  flights_ok (l :: tr) (mkWorld rn srv o (<[id := f']> (flights w))).
Proof.
  intros Hl HI Hf Hk id'. specialize (HI id'). unfold execs. cbn [omap list_omap]. rewrite Hl. cbn [flights].
  destruct (decide (id = id')) as [<-|Hne]; [rewrite lookup_insert_eq; rewrite Hf in HI; by apply Hk|].
  rewrite lookup_insert_ne by done. exact HI.
Qed.

Lemma flights_ok_frame l tr w rn srv o :
  (∀ id', execOf id' l = None) → flights_ok tr w → flights_ok (l :: tr) (mkWorld rn srv o (flights w)).
Proof. intros Hl HI id'. specialize (HI id'). unfold execs. cbn [omap list_omap]. rewrite Hl. exact HI. Qed.

(** Case analysis on where a call is. *)
Ltac at_phase :=
  match goal with
  | Hp : phase ?f = _ |- flight_ok _ ?f _ → _ => intros [Hgen Hjob Hphase]; rewrite Hp in Hphase
  end.

Lemma execs_cons id l tr : execs id (l :: tr) = match execOf id l with Some e => e :: execs id tr | None => execs id tr end.
Proof. unfold execs. cbn [omap list_omap]. by destruct (execOf id l). Qed.

Lemma execs_genuine id e f es : flight_ok id f es → es = [e] → genuine (req f) e.
Proof. intros [Hg _ _] ->. by inversion Hg. Qed.

(** The one execution of a call. *)
Lemma flights_ok_exec tr w id f s rs rs' o r rn srv :
  flights_ok tr w → flights w !! id = Some f → job f = Dispatching s →
  svDispatch encode decode zero rs (req f) (objs w) = Some (rs', o, r) →
  flights_ok (LExec (mkExec id s (objs w) o r) :: tr)
    (mkWorld rn srv o (<[id := mkFlight (req f) (replyTy f) (phase f) (Holding r)]> (flights w))).
Proof.
  intros HI Hf Hj Hd id'. specialize (HI id'). rewrite execs_cons. cbn [execOf e_id flights].
  destruct (decide (id = id')) as [<-|Hne]; [|by rewrite lookup_insert_ne].
  rewrite lookup_insert_eq. rewrite Hf in HI. destruct HI as [Hgen Hjob Hphase]. rewrite Hj in *. subst.
  rewrite Hjob in *. split; cbn [req replyTy phase job].
  - constructor; [|constructor]. by exists rs, rs'.
  - eauto.
  - destruct (phase f) as [| |t|t [r'|]|r'|r'|[v|]]; try done; try naive_solver.
Qed.

Lemma flights_ok_step tr w l w' : flights_ok tr w → step w l w' → flights_ok (l :: tr) w'.
Proof.
  intros HI HS. destruct HS as [a rn Ha|s rs Hs Hc|o|Hc|id en meth aT rT args Hid|id f Hf Hp Hs|id f Hf Hp Hc
    |id f drop r Hf Hp Hr|id f drop t Hf Hp Hr|id f s rs rs' o r Hf Hj Hs Hd|id f t r Hf Hp Hj|id f t Hf Hp Hd
    |id f r Hf Hp Hj|id f t r drop Hf Hp|id f r Hf Hp|id f r v Hf Hp Hv].
  1-4: by apply flights_ok_frame.
  6: by eapply flights_ok_exec.
  - intros id'. specialize (HI id'). rewrite execs_cons. cbn [execOf flights].
    destruct (decide (id = id')) as [<-|Hne]; [|by rewrite lookup_insert_ne].
    rewrite lookup_insert_eq. rewrite Hid in HI. rewrite HI. by repeat constructor.
  - eapply flights_ok_move; [done|done|exact Hf|]. at_phase. by split.
  - eapply flights_ok_move; [done|done|exact Hf|]. at_phase. by split.
  - eapply flights_ok_move; [done|done|exact Hf|]. at_phase. split; [done|done|]. cbn. intros Hok.
    unfold receive in Hr. repeat case_match; simplify_eq; done.
  - eapply flights_ok_move; [done|done|exact Hf|]. at_phase. rewrite Hphase in Hjob. split; [done|done|by left].
  - eapply flights_ok_move; [done|done|exact Hf|]. at_phase. rewrite Hj in Hjob. destruct Hjob as (e & He & Hr).
    split; [done|by exists e|by exists e].
  - eapply flights_ok_move; [done|done|exact Hf|]. at_phase. by split.
  - eapply flights_ok_move; [done|done|exact Hf|]. intros [Hgen Hjob Hphase]. rewrite Hj in *. destruct Hjob as (e & He & Hr).
    split; cbn; [done|by exists e|]. destruct (phase f); try done. by destruct (Hp t).
  - eapply flights_ok_move; [done|done|exact Hf|]. at_phase. split; [done|done|]. cbn. unfold conclude. intros Hok.
    destruct r; [|done]. repeat case_match; done.
  - eapply flights_ok_move; [done|done|exact Hf|]. at_phase. by split.
  - eapply flights_ok_move; [done|done|exact Hf|]. at_phase. split; [done|done|]. cbn. unfold finishCall in Hv.
    destruct (rp_ok r) eqn:Hok; [|by simplify_eq]. destruct (Hphase eq_refl) as (e & He & <-).
    inv_bind Hv. simplify_eq. by exists e.
Qed.

Lemma flights_ok_run w tr w' : run w tr w' → flights w = ∅ → flights_ok tr w'.
Proof.
  intros HR Hw. induction HR as [|w tr w1 l w2 HR IH HS]; [|by eapply flights_ok_step; [apply IH|]].
  intros id. by rewrite Hw, lookup_empty.
Qed.

(** C14: whatever the network loses, delays and deletes, the handler of a call is run
    at most once; and if the call returns true it was run exactly once, on this
    request, and the value returned is the reply of that execution. *)
Theorem call_contract w tr w' id f :
  run w tr w' → flights w = ∅ → flights w' !! id = Some f →
  (length (execs id tr) <= 1)%nat ∧
  ∀ v, phase f = Returned (Some v) →
    ∃ e, execs id tr = [e] ∧ genuine (req f) e ∧ decode (replyTy f) (rp_reply (e_reply e)) = Some v.
Proof.
  intros HR Hw Hf. pose proof (flights_ok_run _ _ _ HR Hw id) as HI. rewrite Hf in HI. split.
  - destruct HI as [_ Hjob _]. destruct (job f); [by rewrite Hjob; cbn; lia..| |]; destruct Hjob as (e & He); 
      [destruct He as [He _]|]; by rewrite He.
  - intros v Hp. pose proof (fo_phase _ _ _ HI) as Hphase. rewrite Hp in Hphase. destruct Hphase as (e & He & _ & Hd).
    exists e. split_and!; [done|by eapply execs_genuine|done].
Qed.

(** ** One call, and the network around it *)

(** The steps of one call. *)
Inductive moves w : Flight → Flight → Prop :=
  | mv_accept f : phase f = Calling → serving (net w) = true → moves w f (mkFlight (req f) (replyTy f) Sent (job f))
  | mv_refuse f : phase f = Calling → closed (net w) = true → moves w f (mkFlight (req f) (replyTy f) (Returned None) (job f))
  | mv_unserved f drop r : phase f = Sent → receive drop (req f) (net w) = inl r →
      moves w f (mkFlight (req f) (replyTy f) (Sending r) (job f))
  | mv_served f drop t : phase f = Sent → receive drop (req f) (net w) = inr t →
      moves w f (mkFlight (req f) (replyTy f) (Waiting t) (Dispatching (t_server t)))
  | mv_dispatch f s r : job f = Dispatching s → rp_ok r = true → moves w f (mkFlight (req f) (replyTy f) (phase f) (Holding r))
  | mv_reply f t r : phase f = Waiting t → job f = Holding r → moves w f (mkFlight (req f) (replyTy f) (Leaving t (Some r)) Finished)
  | mv_dead f t : phase f = Waiting t → isServerDead (rq_endname (req f)) (t_servername t) (t_server t) (net w) = true →
      moves w f (mkFlight (req f) (replyTy f) (Leaving t None) (job f))
  | mv_drain f r : (∀ t, phase f ≠ Waiting t) → job f = Holding r → moves w f (mkFlight (req f) (replyTy f) (phase f) Finished)
  | mv_conclude f t r drop : phase f = Leaving t r →
      moves w f (mkFlight (req f) (replyTy f) (Sending (conclude drop (req f) t r (net w))) (job f))
  | mv_send f r : phase f = Sending r → moves w f (mkFlight (req f) (replyTy f) (Answered r) (job f))
  | mv_return f r v : phase f = Answered r → finishCall decode (replyTy f) r = Some v →
      moves w f (mkFlight (req f) (replyTy f) (Returned v) (job f)).

Lemma svDispatch_ok rs (rq : reqMsg) (o : obj) rs' o' r :
  svDispatch encode decode zero rs rq o = Some (rs', o', r) → rp_ok r = true ∧ sv_count rs' = sv_count rs + 1.
Proof.
  unfold svDispatch. intros Hd. inv_bind Hd. destruct x as [sn mn]. destruct (services _ !! sn) as [svc|]; [|done].
  inv_bind Hd. destruct x as [o1 r1]. simplify_eq. split; [|done]. unfold svcDispatch in E0.
  destruct (methods svc !! mn) as [m|]; [|done]. destruct (Func m _ _ _). by simplify_eq.
Qed.

Lemma step_flight w l w' id f :
  step w l w' → flights w !! id = Some f → ∃ f', flights w' !! id = Some f' ∧ (f' = f ∨ moves w f f').
Proof.
  intros HS Hf.
  assert (∀ id1 f1 f1', flights w !! id1 = Some f1 → moves w f1 f1' →
    ∃ f', <[id1 := f1']> (flights w) !! id = Some f' ∧ (f' = f ∨ moves w f f')) as Hmove.
  { intros id1 f1 f1' H1 Hm. destruct (decide (id1 = id)) as [->|Hne].
    - exists f1'. rewrite lookup_insert_eq. split; [done|right]. congruence.
    - exists f. rewrite lookup_insert_ne by done. auto. }
  destruct HS; cbn [flights move withNet]; try (by exists f; auto); try (eapply Hmove; [eassumption|by econstructor]).
  - exists f. rewrite lookup_insert_ne by congruence. auto.
  - eapply Hmove; [eassumption|]. eapply mv_dispatch; [eassumption|]. by eapply svDispatch_ok.
Qed.

(** What of the network only the harness changes. *)
Definition conf (rn : Network name) := (reliable rn, longReordering rn, enabled rn, servers rn, connections rn, closed rn).

Lemma step_conf w l w' :
  step w l w' →
  (∃ a, l = LAdmin a ∧ administer a (net w) = Some (net w')) ∨
  (conf (net w') = conf (net w) ∧ (closed (net w) = false → serving (net w') = serving (net w))).
Proof. intros HS. destruct HS; cbn [net withNet move]; eauto. right. split; [done|]. cbn. congruence. Qed.

Lemma run_ind_flight w tr w' id (P : Network name → Flight → Prop) (Q : Label → Prop) f :
  run w tr w' → flights w !! id = Some f → P (net w) f → Forall Q tr →
  (∀ w1 l w2 f1 f2, step w1 l w2 → Q l → P (net w1) f1 → f2 = f1 ∨ moves w1 f1 f2 → P (net w2) f2) →
  ∃ f', flights w' !! id = Some f' ∧ P (net w') f'.
Proof.
  intros HR Hf HP HQ Hstep. induction HR as [|w tr w1 l w2 HR IH HS]; [eauto|].
  inversion HQ as [|? ? Hl HQ']; subst. destruct (IH Hf HP HQ') as (f1 & Hf1 & HP1).
  destruct (step_flight _ _ _ _ _ HS Hf1) as (f2 & Hf2 & Hm). eauto.
Qed.

(** ** Deleted servers *)

(** The request was handed to the server of the ticket and no message chosen yet. *)
Definition handedTo t f : Prop := phase f = Waiting t ∨ ∃ r, phase f = Leaving t r.

Definition silenced t f : Prop :=
  match phase f with
  | Waiting t' => t' = t
  | Leaving t' _ => t' = t
  | Sending r | Answered r => rp_ok r = false
  | Returned v => v = None
  | _ => False
  end.

Lemma administer_deleted (a : Admin name) (rn rn' : Network name) n s :
  administer a rn = Some rn' → a ≠ AAddServer n s → getz None (servers rn) n ≠ Some s → getz None (servers rn') n ≠ Some s.
Proof.
  intros Ha Hne Hs. unfold getz in *. destruct a; cbn in Ha; unfold Cleanup, MakeEnd in Ha; repeat case_match; simplify_eq; try done.
  - cbn. destruct (decide (n = n0)) as [->|]; [|by rewrite lookup_insert_ne]. rewrite lookup_insert_eq. cbn. congruence.
  - cbn. destruct (decide (n = n0)) as [->|]; [|by rewrite lookup_insert_ne]. by rewrite lookup_insert_eq.
Qed.

(** when the server a request was handed to is deleted, or replaced, before the
    reply is sent, the call does not return true, even if the handler has been run or
    is run later, as long as that server is not added again. *)
Theorem deleted_server_silent w tr w' id f t :
  run w tr w' → flights w !! id = Some f → handedTo t f →
  getz None (servers (net w)) (t_servername t) ≠ Some (t_server t) →
  Forall (λ l, l ≠ LAdmin (AAddServer (t_servername t) (t_server t))) tr →
  ∃ f', flights w' !! id = Some f' ∧ ∀ v, phase f' ≠ Returned (Some v).
Proof.
  intros HR Hf Hp Hdel Htr.
  destruct (run_ind_flight w tr w' id (λ rn f, getz None (servers rn) (t_servername t) ≠ Some (t_server t) ∧ silenced t f)
    (λ l, l ≠ LAdmin (AAddServer (t_servername t) (t_server t))) f) as (f' & Hf' & _ & Hs); try done.
  - split; [done|]. unfold silenced. by destruct Hp as [->|[r ->]].
  - intros w1 l w2 f1 f2 HS Hl [Hdel1 Hs1] Hm. split.
    + destruct (step_conf _ _ _ HS) as [(a & -> & Ha)|[Hc _]]; [|by injection Hc as _ _ _ ->].
      eapply administer_deleted; [exact Ha| |done]. congruence.
    + destruct Hm as [->|Hm]; [done|]. unfold silenced in *.
      destruct Hm as [? Hp1 ?|? Hp1 ?|? drop r Hp1 Hr|? drop t1 Hp1 Hr|? s r Hj Hr|? t1 r Hp1 Hj|? t1 Hp1 Hd|? r Hn Hj|? t1 r drop Hp1|? r Hp1|? r v Hp1 Hv];
        try rewrite Hp1 in Hs1; cbn [phase]; try done.
      * subst t1. unfold conclude. destruct r; [|done]. unfold isServerDead.
        rewrite bool_decide_eq_false_2 by done. by rewrite orb_true_r.
      * unfold finishCall in Hv. rewrite Hs1 in Hv. by injection Hv as <-.
  - exists f'. split; [done|]. intros v Hv. unfold silenced in Hs. by rewrite Hv in Hs.
Qed.

(** ** A reliable network *)

(** The end point is enabled and connected to a server that is there. *)
Definition good_end (rn : Network name) (en sn : name) (s : nat) : Prop :=
  reliable rn = true ∧ getz false (enabled rn) en = true ∧ getz None (connections rn) en = Some sn ∧
  getz None (servers rn) sn = Some s ∧ closed rn = false.

Lemma good_end_conf rn rn' en sn s : conf rn' = conf rn → good_end rn en sn s → good_end rn' en sn s.
Proof. intros [= H1 H2 H3 H4 H5 H6]. unfold good_end. by rewrite H1, H3, H4, H5, H6. Qed.

Definition answering sn s f : Prop :=
  match job f with Holding r => rp_ok r = true | _ => True end ∧
  match phase f with
  | Calling | Sent => True
  | Waiting t => t_servername t = sn ∧ t_server t = s ∧ t_reliable t = true
  | Leaving t r => t_servername t = sn ∧ t_server t = s ∧ t_reliable t = true ∧ ∃ r', r = Some r' ∧ rp_ok r' = true
  | Sending r | Answered r => rp_ok r = true
  | Returned v => v ≠ None
  end.

(** A call through an enabled end point of a reliable network, connected to a
    server that stays there, does not return false: nothing is lost, however late the
    handler is. *)
Theorem reliable_call w tr w' id f sn s :
  run w tr w' → flights w !! id = Some f → (phase f = Calling ∨ phase f = Sent) → job f = NoJob →
  good_end (net w) (rq_endname (req f)) sn s → Forall (λ l, ∀ a, l ≠ LAdmin a) tr →
  ∃ f', flights w' !! id = Some f' ∧ phase f' ≠ Returned None.
Proof.
  intros HR Hf Hp Hj Hgood Htr.
  destruct (run_ind_flight w tr w' id (λ rn f', good_end rn (rq_endname (req f)) sn s ∧ req f' = req f ∧ answering sn s f')
    (λ l, ∀ a, l ≠ LAdmin a) f) as (f' & Hf' & _ & _ & Ha); try done.
  - split_and!; [done|done|]. unfold answering. rewrite Hj. by destruct Hp as [->| ->].
  - intros w1 l w2 f1 f2 HS Hl (Hg & Hrq & Ha) Hm.
    assert (good_end (net w2) (rq_endname (req f)) sn s) as Hg2.
    { destruct (step_conf _ _ _ HS) as [(a & -> & _)|[Hc _]]; [by destruct (Hl a)|by eapply good_end_conf]. }
    split; [done|]. destruct Hm as [->|Hm]; [done|]. destruct Hg as (G1 & G2 & G3 & G4 & G5), Ha as [Haj Hap].
    unfold answering in *.
    destruct Hm as [? Hp1 ?|? Hp1 Hc1|? drop r Hp1 Hr|? drop t1 Hp1 Hr|? s1 r Hj1 Hr|? t1 r Hp1 Hj1|? t1 Hp1 Hd|? r Hn Hj1|? t1 r drop Hp1|? r Hp1|? r v Hp1 Hv];
      try rewrite Hp1 in Hap; cbn [phase job req]; (split; [done|split; try done]).
    + congruence.
    + unfold receive, readEndnameInfo in Hr. cbn in Hr. rewrite Hrq, G3, G2, G4, G1 in Hr. done.
    + unfold receive, readEndnameInfo in Hr. cbn in Hr. rewrite Hrq, G3, G2, G4, G1 in Hr. cbn in Hr. by injection Hr as <-.
    + rewrite Hj1 in Haj. destruct Hap as (? & ? & ?). by eauto 6.
    + destruct Hap as (E1 & E2 & _). unfold isServerDead in Hd. rewrite E1, E2, Hrq, G2, G4 in Hd.
      rewrite bool_decide_eq_true_2 in Hd by done. done.
    + destruct Hap as (E1 & E2 & Hrel & r' & -> & Hr'). unfold conclude, isServerDead.
      rewrite E1, E2, Hrq, G2, G4, bool_decide_eq_true_2, Hrel by done. done.
    + unfold finishCall in Hv. rewrite Hap in Hv. inv_bind Hv. by simplify_eq.
  - exists f'. split; [done|]. intros Hr. destruct Ha as [_ Hp']. by rewrite Hr in Hp'.
Qed.

(** ** Every call returns *)

Definition phaseRank (p : Phase name val) : nat :=
  match p with
  | Calling => 6 | Sent => 5 | Waiting _ => 4 | Leaving _ _ => 3 | Sending _ => 2 | Answered _ => 1 | Returned _ => 0
  end.
Definition jobRank (j : Job) : nat := match j with Dispatching _ => 2 | Holding _ => 1 | _ => 0 end.
Definition rank f : nat := (3 * phaseRank (phase f) + jobRank (job f))%nat.

Lemma moves_rank w f f' : moves w f f' → (rank f' < rank f)%nat.
Proof.
  intros Hm. unfold rank.
  destruct Hm as [? Hp ?|? Hp ?|? drop r Hp ?|? drop t Hp ?|? s r Hj ?|? t r Hp Hj|? t Hp ?|? r Hn Hj|? t r drop Hp|? r Hp|? r v Hp ?];
    rewrite ?Hp, ?Hj; cbn; lia.
Qed.

Lemma serving_or_closed w tr w' : run w tr w' → serving (net w) = true → serving (net w') = true ∨ closed (net w') = true.
Proof.
  intros HR Hs. induction HR as [|w tr w1 l w2 HR IH HS]; [by left|]. specialize (IH Hs).
  destruct HS as [a rn Ha| | | | | | | | | | | | | | | ]; try exact IH; [|by right].
  destruct a; cbn in Ha; unfold Cleanup, MakeEnd in Ha; repeat case_match; simplify_eq; cbn; auto.
Qed.

(** The next step of a call that is not over. *)
Lemma call_next tr w id f :
  flights_ok tr w → flights w !! id = Some f → (∀ v, phase f ≠ Returned v) →
  serving (net w) = true ∨ closed (net w) = true →
  (∀ s, job f = Dispatching s → ∃ rs, srvs w !! s = Some rs ∧ is_Some (svDispatch encode decode zero rs (req f) (objs w))) →
  (∀ r, phase f = Answered r → is_Some (finishCall decode (replyTy f) r)) →
  ∃ l w' f', step w l w' ∧ flights w' !! id = Some f' ∧ moves w f f'.
Proof.
  intros HI Hf Hnr Hs Hd Ha. specialize (HI id). rewrite Hf in HI. destruct HI as [_ _ Hphase].
  destruct (phase f) as [| |t|t r|r|r|v] eqn:Hp.
  - destruct Hs as [Hs|Hs]; eexists _, _, _; (split; [econstructor; eassumption|split; [apply lookup_insert_eq|by econstructor]]).
  - destruct (receive false (req f) (net w)) as [r|t] eqn:Hr; eexists _, _, _;
      (split; [econstructor; eassumption|split; [apply lookup_insert_eq|by econstructor]]).
  - destruct Hphase as [Hj|[r Hj]].
    + destruct (Hd _ Hj) as (rs & Hrs & [[[rs' o] r] Hdis]). eexists _, _, _.
      split; [by eapply step_dispatch|split; [apply lookup_insert_eq|]]. eapply mv_dispatch; [done|]. by eapply svDispatch_ok.
    + eexists _, _, _. split; [by eapply step_reply|split; [apply lookup_insert_eq|by econstructor]].
  - eexists _, _, _. split; [by eapply (step_conclude _ _ _ _ id f t r false)|split; [apply lookup_insert_eq|by econstructor]].
  - eexists _, _, _. split; [by eapply step_send|split; [apply lookup_insert_eq|by econstructor]].
  - destruct (Ha r eq_refl) as [v Hv].
    eexists _, _, _. split; [by eapply step_return|split; [apply lookup_insert_eq|by econstructor]].
  - by destruct (Hnr v).
Qed.

(** C19: a call always gets on, whatever the network does.  No step of the system
    takes it back, and while it has not returned it has a step of its own, provided its
    handler returns and its reply can be decoded; the rank, at most 20, bounds the
    number of its steps. *)
Theorem call_returns w tr w' id f :
  run w tr w' → flights w = ∅ → serving (net w) = true → flights w' !! id = Some f →
  (∀ l w'', step w' l w'' → ∃ f', flights w'' !! id = Some f' ∧ (f' = f ∨ (rank f' < rank f)%nat)) ∧
  ((∀ v, phase f ≠ Returned v) →
   (∀ s, job f = Dispatching s → ∃ rs, srvs w' !! s = Some rs ∧ is_Some (svDispatch encode decode zero rs (req f) (objs w'))) →
   (∀ r, phase f = Answered r → is_Some (finishCall decode (replyTy f) r)) →
   ∃ l w'' f', step w' l w'' ∧ flights w'' !! id = Some f' ∧ (rank f' < rank f <= 20)%nat).
Proof.
  intros HR Hw Hs Hf. split.
  - intros l w'' HS. destruct (step_flight _ _ _ _ _ HS Hf) as (f' & Hf' & [->|Hm]); [by eauto|].
    exists f'. split; [done|right]. by eapply moves_rank.
  - intros Hnr Hd Ha. destruct (call_next tr w' id f) as (l & w'' & f' & HS & Hf' & Hm); try done.
    { by eapply flights_ok_run. } { by eapply serving_or_closed. }
    exists l, w'', f'. split_and!; [done|done|by eapply moves_rank|].
    unfold rank. destruct (phase f), (job f); cbn; lia.
Qed.

(** ** Counters *)

Definition isAccept (l : Label) : bool := match l with LAccept _ => true | _ => false end.
Definition isExecAt (s : nat) (l : Label) : bool := match l with LExec e => bool_decide (e_server e = s) | _ => false end.
Definition sizeOf (l : Label) : Z := match l with LAccept n | LSend n => n | _ => 0 end.
Definition tally (p : Label → bool) tr : Z := foldr (λ l k, (if p l then 1 else 0) + k) 0 tr.
Definition volume tr : Z := foldr (λ l k, sizeOf l + k) 0 tr.

Lemma wrap32_add a b : wrap32 (wrap32 a + b) = wrap32 (a + b).
Proof.
  unfold wrap32. f_equal. replace (_ + b + 2 ^ 31) with ((a + 2 ^ 31) mod 2 ^ 32 + b) by lia.
  rewrite Zplus_mod_idemp_l. f_equal. lia.
Qed.

Lemma wrap64_add a b : wrap64 (wrap64 a + b) = wrap64 (a + b).
Proof.
  unfold wrap64. f_equal. replace (_ + b + 2 ^ 63) with ((a + 2 ^ 63) mod 2 ^ 64 + b) by lia.
  rewrite Zplus_mod_idemp_l. f_equal. lia.
Qed.

Definition countAt (srv : gmap nat (Server ty val obj)) (s : nat) : Z := match srv !! s with Some rs => sv_count rs | None => 0 end.

(** What a step adds to the counters. *)
Lemma step_counts w l w' :
  step w l w' →
  (count (net w') = if isAccept l then wrap32 (count (net w) + 1) else count (net w)) ∧
  (nbytes (net w') = nbytes (net w) ∧ sizeOf l = 0 ∨ nbytes (net w') = wrap64 (nbytes (net w) + sizeOf l)) ∧
  ∀ s, countAt (srvs w') s = (if isExecAt s l then 1 else 0) + countAt (srvs w) s.
Proof.
  intros HS. destruct HS as [a rn Ha|s rs Hs Hc| | | | | | | |id f s rs rs' o r Hf Hj Hs Hd| | | | | | ];
    cbn [net srvs move withNet isAccept isExecAt sizeOf count nbytes accept]; try (split_and!; [done|by auto|done]).
  - destruct a; cbn in Ha; unfold Cleanup, MakeEnd in Ha; repeat case_match; simplify_eq; (split_and!; [done|by auto|done]).
  - split_and!; [done|by auto|]. intros s'. unfold countAt. destruct (decide (s = s')) as [<-|]; [|by rewrite lookup_insert_ne].
    rewrite lookup_insert_eq, Hs. lia.
  - split_and!; [done|by auto|]. intros s'. unfold countAt. cbn [e_server]. destruct (decide (s = s')) as [<-|Hne].
    + rewrite bool_decide_eq_true_2, lookup_insert_eq, Hs by done. destruct (svDispatch_ok _ _ _ _ _ _ Hd) as [_ ->]. lia.
    + rewrite bool_decide_eq_false_2 by done. by rewrite lookup_insert_ne.
Qed.

(** C28: the counters the tests read, on a new network: the total count is the number
    of requests sent, modulo the width of its type, the bytes are those of requests and
    replies, and the count of a server is the number of handlers that were run on it,
    also for calls that were told they had failed. *)
Theorem counters_correct w tr w' :
  run w tr w' → net w = MakeNetwork → srvs w = ∅ →
  GetTotalCount (net w') = wrap32 (tally isAccept tr) ∧ GetTotalBytes (net w') = wrap64 (volume tr) ∧
  ∀ n s rs, getz None (servers (net w')) n = Some s → srvs w' !! s = Some rs →
    GetCount n (srvs w') (net w') = Some (tally (isExecAt s) tr).
Proof.
  intros HR Hn Hs.
  cut (count (net w') = wrap32 (tally isAccept tr) ∧ nbytes (net w') = wrap64 (volume tr) ∧
    ∀ s, countAt (srvs w') s = tally (isExecAt s) tr).
  { intros (H1 & H2 & H3). split_and!; [done..|]. intros n s rs Hns Hrs. unfold GetCount. rewrite Hns. cbn [mbind option_bind].
    rewrite Hrs. cbn [mbind option_bind]. specialize (H3 s). unfold countAt in H3. rewrite Hrs in H3. by rewrite <-H3. }
  induction HR as [w|w tr w1 l w2 HR IH HS].
  { rewrite Hn, Hs. split_and!; [done..|]. intros s. unfold countAt. by rewrite lookup_empty. }
  destruct (IH Hn Hs) as (H1 & H2 & H3), (step_counts _ _ _ HS) as (S1 & S2 & S3).
  unfold tally, volume in *. cbn [foldr]. split_and!.
  - rewrite S1, H1. destruct (isAccept l); [|done]. rewrite wrap32_add. f_equal. lia.
  - destruct S2 as [[-> ->]| ->]; [by rewrite H2|]. rewrite H2, wrap64_add. f_equal. lia.
  - intros s. by rewrite S3, H3.
Qed.

End contract.

(** ** An echo server *)

Module RpcExamples.

(** Values are byte strings, sent as they are; the server counts its calls. *)
Definition enc (v : bytes) : bytes := v.
Definition dec (_ : unit) (b : bytes) : option bytes := Some b.
Definition zer (_ : unit) : bytes := [].
Definition echo : Method unit bytes nat := mkMethod "" "Echo" 3 true tt 0 (λ o args _, (S o, args)).
Definition hidden : Method unit bytes nat := mkMethod "main" "hidden" 3 true tt 0 (λ o args _, (o, args)).
Definition server : Server unit bytes nat := AddService (MakeService "Test" [echo; hidden]) MakeServer.
Definition hello : bytes := [Byte.x68; Byte.x69].

Definition start : World Z unit bytes nat := mkWorld MakeNetwork ∅ 0%nat ∅.

(** A server with an end point connected to it, and a call on its way. *)
Definition net3 : Network Z := default MakeNetwork (MakeEnd 1 (AddServer 7 0%nat MakeNetwork)).
Definition net5 : Network Z := Enable 1 true (Connect 1 7 net3).
Definition call0 : Flight Z unit bytes := startCall enc 1 "Test.Echo" tt tt hello.
Definition net7 : Network Z := accept (req call0) net5.
Definition ticket : Ticket Z := mkTicket 7 0%nat true false.
Definition served : Server unit bytes nat := mkServer (services server) 1.
Definition reply0 : replyMsg := mkReply true hello.

Definition world (rn : Network Z) (sv : Server unit bytes nat) (o : nat) (p : Phase Z bytes) (j : Job) : World Z unit bytes nat :=
  mkWorld rn {[0%nat := sv]} o {[0%nat := mkFlight (req call0) tt p j]}.

Lemma run_next (w : World Z unit bytes nat) tr w1 l w2 w3 :
  run enc dec zer w tr w1 → step enc dec zer w1 l w2 → w2 = w3 → run enc dec zer w (l :: tr) w3.
Proof. intros ? ? <-. by econstructor. Qed.

Definition idle (rn : Network Z) : World Z unit bytes nat := mkWorld rn {[0%nat := server]} 0%nat ∅.

Definition setUp : list (Label Z nat) :=
  [LSilent; LAdmin (AEnable 1 true); LAdmin (AConnect 1 7); LAdmin (AMakeEnd 1); LAdmin (AAddServer 7 0%nat); LSilent].
Definition called : World Z unit bytes nat := world net5 server 0 Calling NoJob.

Lemma run_called : run enc dec zer start setUp called.
Proof.
  eapply (run_next _ _ (idle net5)); [|exact (step_call enc dec zer (idle net5) 0%nat 1 "Test.Echo" tt tt hello eq_refl)|reflexivity].
  eapply (run_next _ _ (idle (Connect 1 7 net3)));
    [|exact (step_admin enc dec zer (idle (Connect 1 7 net3)) (AEnable 1 true) _ eq_refl)|reflexivity].
  eapply (run_next _ _ (idle net3)); [|exact (step_admin enc dec zer (idle net3) (AConnect 1 7) _ eq_refl)|reflexivity].
  eapply (run_next _ _ (idle (AddServer 7 0%nat MakeNetwork)));
    [|exact (step_admin enc dec zer (idle (AddServer 7 0%nat MakeNetwork)) (AMakeEnd 1) net3 eq_refl)|reflexivity].
  eapply (run_next _ _ (idle MakeNetwork)); [|exact (step_admin enc dec zer (idle MakeNetwork) (AAddServer 7 0%nat) _ eq_refl)|reflexivity].
  eapply (run_next _ _ start); [|exact (step_server enc dec zer start 0%nat server eq_refl eq_refl)|reflexivity].
  apply run_nil.
Qed.

(** The request is sent and executed. *)
Definition exec0 : Exec nat := mkExec 0 0 0%nat 1%nat reply0.
Definition executing : list (Label Z nat) := [LExec exec0; LSilent; LAccept 2].
Definition executed : World Z unit bytes nat := world net7 served 1 (Waiting ticket) (Holding reply0).

Lemma run_executed w tr : run enc dec zer w tr called → run enc dec zer w (executing ++ tr) executed.
Proof.
  intros HR. eapply (run_next _ _ (world net7 server 0 (Waiting ticket) (Dispatching 0)));
    [|exact (step_dispatch enc dec zer (world net7 server 0 (Waiting ticket) (Dispatching 0)) 0%nat _ 0%nat _ _ _ _ eq_refl eq_refl eq_refl eq_refl)|reflexivity].
  eapply (run_next _ _ (world net7 server 0 Sent NoJob));
    [|exact (step_served enc dec zer (world net7 server 0 Sent NoJob) 0%nat _ false _ eq_refl eq_refl eq_refl)|reflexivity].
  by eapply (run_next _ _ called); [exact HR|exact (step_accept enc dec zer called 0%nat _ eq_refl eq_refl eq_refl)|reflexivity].
Qed.

(** The reply is received, and the client gets [r]. *)
Lemma run_answered w tr rn sent :
  run enc dec zer w tr (world rn served 1 (Waiting ticket) (Holding reply0)) →
  sent = conclude false (req call0) ticket (Some reply0) rn →
  ∃ rn' v, run enc dec zer w ([LSilent; LSend (zlen (rp_reply sent)); LSilent; LSilent] ++ tr) (world rn' served 1 (Returned v) Finished) ∧
    finishCall dec tt sent = Some v ∧ conf rn' = conf rn.
Proof.
  intros HR ->. set (sent := conclude _ _ _ _ _). assert (∃ v, finishCall dec tt sent = Some v) as [v Hv].
  { unfold finishCall. destruct (rp_ok sent); by eexists. }
  set (rn' := rn <| nbytes := wrap64 (nbytes rn + zlen (rp_reply sent)) |>).
  exists rn', v. split_and!; [|done|done].
  eapply (run_next _ _ (world rn' served 1 (Answered sent) Finished));
    [|exact (step_return enc dec zer (world rn' served 1 (Answered sent) Finished) 0%nat _ sent v eq_refl eq_refl Hv)|reflexivity].
  eapply (run_next _ _ (world rn served 1 (Sending sent) Finished));
    [|exact (step_send enc dec zer (world rn served 1 (Sending sent) Finished) 0%nat _ sent eq_refl eq_refl)|reflexivity].
  eapply (run_next _ _ (world rn served 1 (Leaving ticket (Some reply0)) Finished));
    [|exact (step_conclude enc dec zer (world rn served 1 (Leaving ticket (Some reply0)) Finished) 0%nat _ ticket (Some reply0) false eq_refl eq_refl)|reflexivity].
  by eapply (run_next _ _ (world rn served 1 (Waiting ticket) (Holding reply0)));
    [exact HR|exact (step_reply enc dec zer (world rn served 1 (Waiting ticket) (Holding reply0)) 0%nat _ ticket reply0 eq_refl eq_refl eq_refl)|reflexivity].
Qed.

Lemma dispatch_runs_method_witness :
  svDispatch enc dec zer (AddService (MakeService "Test" [echo; hidden]) MakeServer) (req call0) 4%nat =
    Some (served, 5%nat, reply0).
Proof.
  rewrite (dispatch_runs_method enc dec zer MakeServer "Test" [echo; hidden] echo (req call0) 4%nat); [reflexivity| |by left|reflexivity..].
  repeat constructor; set_solver.
Defined.

Lemma call_contract_witness :
  ∃ tr w, run enc dec zer start tr w ∧ (phase <$> flights w !! 0%nat) = Some (Returned (Some hello)) ∧ execs 0 tr = [exec0].
Proof.
  destruct (run_answered _ _ _ _ (run_executed _ _ run_called) eq_refl) as (rn' & v & HR & Hv & _).
  assert (v = Some hello) as -> by (vm_compute in Hv; injection Hv as <-; reflexivity).
  destruct (call_contract enc dec zer _ _ _ 0%nat _ HR eq_refl eq_refl) as [_ Hc].
  destruct (Hc hello eq_refl) as (e & He & _). eexists _, _. split_and!; [exact HR|reflexivity|].
  rewrite He. vm_compute in He. by injection He as <-.
Defined.

(** The server is deleted after it has executed the request. *)
Lemma deleted_server_silent_witness :
  ∃ w, run enc dec zer (withNet (DeleteServer 7 net7) executed) [LSilent; LSend 0; LSilent; LSilent] w ∧
    ∃ f, flights w !! 0%nat = Some f ∧ phase f ≠ Returned (Some hello).
Proof.
  destruct (run_answered (withNet (DeleteServer 7 net7) executed) [] (DeleteServer 7 net7) _ (run_nil _ _ _ _) eq_refl)
    as (rn' & v & HR & _). eexists. split; [exact HR|].
  destruct (deleted_server_silent enc dec zer _ _ _ 0%nat _ ticket HR eq_refl) as (f & Hf & Hp).
  - by left.
  - vm_compute. discriminate.
  - repeat constructor; discriminate.
  - exists f. split; [exact Hf|apply Hp].
Defined.

Lemma reliable_call_witness :
  ∃ tr w f, run enc dec zer called tr w ∧ flights w !! 0%nat = Some f ∧ phase f ≠ Returned None.
Proof.
  pose proof (run_executed called [] (run_nil _ _ _ _)) as HR.
  destruct (run_answered _ _ _ _ HR eq_refl) as (rn' & v & HR' & _).
  destruct (reliable_call enc dec zer _ _ _ 0%nat _ 7 0%nat HR' eq_refl) as (f & Hf & Hp).
  - by left.
  - reflexivity.
  - vm_compute. by repeat split.
  - repeat constructor; discriminate.
  - eexists _, _, f. split_and!; [exact HR'|exact Hf|exact Hp].
Defined.

Lemma call_returns_witness : ∃ l w f, step enc dec zer executed l w ∧ flights w !! 0%nat = Some f ∧ (rank f < 13)%nat.
Proof.
  destruct (call_returns enc dec zer _ _ executed 0%nat _ (run_executed _ _ run_called) eq_refl eq_refl eq_refl) as [_ Hn].
  destruct Hn as (l & w & f & HS & Hf & Hr & _); [discriminate..|]. exists l, w, f. split_and!; [exact HS|exact Hf|exact Hr].
Defined.

Lemma counters_correct_witness :
  GetTotalCount (net executed) = 1 ∧ GetTotalBytes (net executed) = 2 ∧ GetCount 7 (srvs executed) (net executed) = Some 1.
Proof.
  destruct (counters_correct enc dec zer start _ executed (run_executed _ _ run_called) eq_refl eq_refl) as (H1 & H2 & H3).
  rewrite H1, H2, (H3 7 0%nat served eq_refl eq_refl). split_and!; vm_compute; reflexivity.
Defined.

End RpcExamples.
