(* ===== verification/HarnessNet.v ===== *)
(** * The wiring of the tests ([raft/config.go], [kvraft/config.go], [shardctrler/config.go])

    The harnesses give every server a set of end points of the network of [LabRpc],
    one for each server, and enable and disable them to connect, crash, restart and
    partition servers.  Random end point names are arguments. *)

From S2P Require Import Prelude LabGob Persister Raft RaftHarness LabRpc.

(** Servers go by number, end points by random strings. *)
Inductive Name := NInt (i : Z) | NStr (s : string).
#[export] Instance Name_eq : EqDecision Name.
Proof. solve_decision. Defined.
#[export] Instance Name_countable : Countable Name :=
  inj_countable' (λ x, match x with NInt i => inl i | NStr s => inr s end)
    (λ x, match x with inl i => NInt i | inr s => NStr s end) ltac:(by intros []).

Notation Net := (Network Name).

(** An end point over which a request can leave. *)
Definition on (rn : Net) (e : Name) : Prop := getz false (enabled rn) e = true.

(** ** Links *)

(** [cfg.endnames]: nil for a server never started. *)
Definition Endnames : Type := list (option (list string)).

(** [cfg.endnames[i][j]]; out of range, or nil, panics. *)
Definition endname (eps : Endnames) (i j : Z) : option string :=
  es ← index eps i; es ← es; index es j.

Definition started (eps : Endnames) (i : Z) : Prop := ∃ es, index eps i = Some (Some es).
#[export] Instance started_dec eps i : Decision (started eps i).
Proof.
  refine (match index eps i as o return index eps i = o → _ with
          | Some (Some es) => λ E, left (ex_intro _ es E) | _ => λ E, right _ end eq_refl);
    intros [es' E']; congruence.
Defined.

(** A loop of [cfg.net.Enable] over links. *)
Definition enableLinks (eps : Endnames) (b : bool) (links : list (Z * Z)) (rn : Net) : option Net :=
  foldl (λ acc l, rn ← acc; e ← endname eps l.1 l.2; Some (Enable (NStr e) b rn)) (Some rn) links.

(** The new end points of a server, each to one of the servers. *)
Definition makeEnds (srvname : Z → Name) (names : list string) (rn : Net) : option Net :=
  foldl (λ acc je, rn ← acc; rn ← MakeEnd (NStr je.2) rn; Some (Connect (NStr je.2) (srvname je.1) rn))
        (Some rn) (imap (λ j e, (Z.of_nat j, e)) names).

Lemma enableLinks_cons eps b l links rn :
  enableLinks eps b (l :: links) rn = e ← endname eps l.1 l.2; enableLinks eps b links (Enable (NStr e) b rn).
Proof.
  unfold enableLinks. cbn. destruct (endname eps l.1 l.2); [done|]. cbn. induction links; [done|auto].
Qed.

Definition linked (eps : Endnames) (links : list (Z * Z)) (e : Name) : Prop :=
  ∃ l s, l ∈ links ∧ endname eps l.1 l.2 = Some s ∧ e = NStr s.

Lemma enableLinks_spec eps b links rn :
  (∀ l, l ∈ links → is_Some (endname eps l.1 l.2)) →
  ∃ m, enableLinks eps b links rn = Some (rn <| enabled := m |>) ∧
    ∀ e, on (rn <| enabled := m |>) e ↔ if b then on rn e ∨ linked eps links e else on rn e ∧ ¬ linked eps links e.
Proof.
  revert rn. induction links as [|l links IH]; intros rn Hl.
  { exists (enabled rn). split; [by destruct rn|]. intros e. destruct b.
    - split; [by left|]. intros [?|(? & ? & ?%elem_of_nil & _)]; done.
    - split; [|by intros [? _]]. intros He. split; [done|]. by intros (? & ? & ?%elem_of_nil & _). }
  rewrite enableLinks_cons. destruct (Hl l) as [s Hs]; [by left|]. rewrite Hs. cbn [mbind option_bind].
  destruct (IH (Enable (NStr s) b rn)) as (m & Hm & Hon); [intros l' Hl'; apply Hl; by right|]. exists m. split; [exact Hm|]. intros e.
  specialize (Hon e). change (on ((Enable (NStr s) b rn) <| enabled := m |>) e) with (on (rn <| enabled := m |>) e) in Hon.
  assert (linked eps (l :: links) e ↔ e = NStr s ∨ linked eps links e) as Hlk.
  { unfold linked. setoid_rewrite elem_of_cons. split.
    - intros (l' & s' & [->|Hl'] & Hs' & ->); [left; congruence|right; eauto].
    - intros [->|(l' & s' & ? & ? & ?)]; [exists l, s; auto|exists l', s'; auto]. }
  assert (on (Enable (NStr s) b rn) e ↔ (e = NStr s ∧ b = true) ∨ (e ≠ NStr s ∧ on rn e)) as Hen.
  { unfold on, getz, Enable. cbn. destruct (decide (e = NStr s)) as [->|Hne].
    - rewrite lookup_insert_eq. cbn. naive_solver.
    - rewrite lookup_insert_ne by congruence. naive_solver. }
  destruct (decide (e = NStr s)), b; rewrite Hon, Hen, Hlk; naive_solver.
Qed.

(** Two loops over links, one after the other. *)
Lemma enableLinks_two eps b l1 l2 rn :
  (∀ l, l ∈ l1 ++ l2 → is_Some (endname eps l.1 l.2)) →
  ∃ m, (∀ {B} (k : Net → option B),
      (rn1 ← enableLinks eps b l1 rn; rn2 ← enableLinks eps b l2 rn1; k rn2) = k (rn <| enabled := m |>)) ∧
    ∀ e, on (rn <| enabled := m |>) e ↔
      if b then on rn e ∨ linked eps (l1 ++ l2) e else on rn e ∧ ¬ linked eps (l1 ++ l2) e.
Proof.
  intros Hl. destruct (enableLinks_spec eps b (l1 ++ l2) rn Hl) as (m & HE & Hm). exists m. split; [|exact Hm].
  intros B k. unfold enableLinks in *. rewrite foldl_app in HE.
  destruct (foldl _ (Some rn) l1) as [rn1|] eqn:E1; [cbn; by rewrite HE|].
  exfalso. clear -HE. revert HE. match goal with |- ?x = _ → _ => assert (x = None) as -> end; [|done]. induction l2; [done|auto].
Qed.

Lemma makeEnds_spec srvname names rn :
  NoDup names → (∀ s, s ∈ names → NStr s ∉ ends rn) →
  ∃ rn', makeEnds srvname names rn = Some rn' ∧ servers rn' = servers rn ∧ ends rn' = list_to_set (NStr <$> names) ∪ ends rn ∧
    (∀ e, on rn' e ↔ on rn e ∧ e ∉ NStr <$> names) ∧
    (∀ j s, index names j = Some s → connections rn' !! NStr s = Some (Some (srvname j))) ∧
    ∀ e, e ∉ NStr <$> names → connections rn' !! e = connections rn !! e.
Proof.
  unfold makeEnds. intros HN Hf. set (f := λ acc je, _).
  assert (∀ names k rn, NoDup names → (∀ s, s ∈ names → NStr s ∉ ends rn) →
    ∃ rn', foldl f (Some rn) (imap (λ j e, (Z.of_nat (k + j), e)) names) = Some rn' ∧ servers rn' = servers rn ∧
      ends rn' = list_to_set (NStr <$> names) ∪ ends rn ∧ (∀ e, on rn' e ↔ on rn e ∧ e ∉ NStr <$> names) ∧
      (∀ j s, names !! j = Some s → connections rn' !! NStr s = Some (Some (srvname (Z.of_nat (k + j))))) ∧
      ∀ e, e ∉ NStr <$> names → connections rn' !! e = connections rn !! e) as H.
  { clear. induction names as [|s names IH]; intros k rn HN Hf.
    { exists rn. cbn. split_and!; try done; [set_solver|]. intros e. split; [|by intros [? _]]. intros He. split; [done|set_solver]. }
    apply NoDup_cons in HN as [Hs HN]. cbn [imap foldl]. unfold f at 2. cbn [mbind option_bind fst snd].
    unfold MakeEnd. rewrite decide_False by (apply Hf; by left). cbn [mbind option_bind].
    match goal with |- context [foldl f (Some ?r) _] => set (rn1 := r) end.
    replace (imap ((λ j e, (Z.of_nat (k + j), e)) ∘ S) names) with (imap (λ j e, (Z.of_nat (S k + j), e)) names)
      by (apply imap_ext; intros; cbn; do 2 f_equal; lia).
    destruct (IH (S k) rn1 HN) as (rn' & HF & HS & HE & HO & HC & HC').
    { intros s' Hs'. unfold rn1. cbn. intros [Heq%elem_of_singleton|Hin]%elem_of_union; [by injection Heq as ->|]. apply (Hf s'); [by right|done]. }
    exists rn'. split_and!; [exact HF|done|rewrite HE; unfold rn1; cbn; set_solver| | |].
    - intros e. rewrite HO. assert (on rn1 e ↔ on rn e ∧ e ≠ NStr s) as ->.
      { unfold on, getz, rn1. cbn. destruct (decide (e = NStr s)) as [->|Hne]; [rewrite lookup_insert_eq; cbn; naive_solver|].
        rewrite lookup_insert_ne by congruence. naive_solver. }
      rewrite fmap_cons, not_elem_of_cons. tauto.
    - intros [|j] s' Hj; cbn in Hj.
      + injection Hj as <-. rewrite HC'; [|intros (x & [= <-] & ?)%list_elem_of_fmap; done]. unfold rn1. cbn. rewrite lookup_insert_eq. by rewrite Nat.add_0_r.
      + rewrite (HC j s' Hj). by replace (S k + j)%nat with (k + S j)%nat by lia.
    - intros e He. apply not_elem_of_cons in He as [Hne He]. rewrite HC' by done. unfold rn1. cbn. by rewrite !lookup_insert_ne by congruence. }
  destruct (H names 0%nat rn HN Hf) as (rn' & HF & HS & HE & HO & HC & HC'). exists rn'. split_and!; try done.
  intros j s [Hj0 Hj]%index_Some. rewrite (HC _ _ Hj). do 2 f_equal. f_equal. lia.
Qed.

Lemma endname_Some eps i j s : endname eps i j = Some s ↔ ∃ es, index eps i = Some (Some es) ∧ index es j = Some s.
Proof.
  unfold endname. split.
  - intros HE. inv_bind HE. inv_bind HE. subst x. eauto.
  - intros (es & -> & Hj). done.
Qed.

Lemma linked_pairs eps (up : Z → Prop) i l e :
  (∀ k, k ∈ l ↔ up k) →
  linked eps (((i,.) <$> l) ++ ((.,i) <$> l)) e ↔
  ∃ a b s, e = NStr s ∧ endname eps a b = Some s ∧ (a = i ∧ up b ∨ b = i ∧ up a).
Proof.
  intros Hup. unfold linked. setoid_rewrite elem_of_app. setoid_rewrite list_elem_of_fmap. split.
  - intros ([a b] & s & [(k & [= -> ->] & Hk%Hup)|(k & [= -> ->] & Hk%Hup)] & Hs & ->); eauto 10.
  - intros (a & b & s & -> & Hs & [[-> Hb%Hup]|[-> Ha%Hup]]); eexists (_, _), s; eauto 10.
Qed.

Lemma endname_store eps i names eps' : store eps i (Some names) = Some eps' →
  ∀ a b, endname eps' a b = if decide (a = i) then index names b else endname eps a b.
Proof.
  intros [Hi ->]%store_Some a b. unfold endname. case_decide as Ha; [subst a; by rewrite index_insert_eq by done|].
  by rewrite index_insert_ne by (done || lia).
Qed.

Lemma started_store eps i names eps' : store eps i (Some names) = Some eps' → ∀ k, started eps' k ↔ k = i ∨ started eps k.
Proof.
  intros [Hi ->]%store_Some k. unfold started. destruct (decide (k = i)) as [->|Hne].
  - rewrite index_insert_eq by done. naive_solver.
  - rewrite index_insert_ne by (done || lia). naive_solver.
Qed.

Lemma persister_same p : SaveStateAndSnapshot (ReadRaftState (Copy p)) (ReadSnapshot (Copy p)) MakePersister = p.
Proof. unfold SaveStateAndSnapshot, ReadRaftState, ReadSnapshot. rewrite !clone_id. by destruct p. Qed.

Lemma saved_store (sv : list (option Persister)) i p sv' : store sv i (Some p) = Some sv' →
  (∀ q, index sv i = Some (Some q) → p = q) → ∀ k q, index sv k = Some (Some q) → index sv' k = Some (Some q).
Proof.
  intros [Hi ->]%store_Some Hp k q Hk. destruct (decide (k = i)) as [->|Hne].
  - rewrite index_insert_eq by done. by rewrite (Hp _ Hk).
  - by rewrite index_insert_ne by (done || lia).
Qed.

Lemma index_unique (names : list string) i j s : NoDup names → index names i = Some s → index names j = Some s → i = j.
Proof. intros HN [? Hi]%index_Some [? Hj]%index_Some. pose proof (NoDup_lookup _ _ _ _ HN Hi Hj). lia. Qed.

(** A loop over the servers that each time can go on, goes through; [inj] is [Some] or [inr]. *)
Lemma fold_upto {T S : Type} (f : T → Z → T) (inj : S → T) (P : list Z → S → Prop) size s :
  P [] s →
  (∀ before i s, 0 <= i < size → i ∉ before → (∃ after, upto size = before ++ i :: after) → P before s →
    ∃ s', f (inj s) i = inj s' ∧ P (before ++ [i]) s') →
  ∃ s', foldl f (inj s) (upto size) = inj s' ∧ P (upto size) s'.
Proof.
  intros H0 Hstep. assert (∀ after before s, upto size = before ++ after → P before s →
    ∃ s', foldl f (inj s) after = inj s' ∧ P (upto size) s') as HF; [|by apply (HF (upto size) [])].
  clear s H0. induction after as [|i after IH]; intros before s Hu HP; [rewrite app_nil_r in Hu; rewrite Hu; by exists s|].
  assert (i ∉ before) as Hi. { pose proof (upto_NoDup size) as HN. rewrite Hu in HN. apply NoDup_app in HN as (_ & Hd & _). intros Hin. apply (Hd i Hin). by left. }
  destruct (Hstep before i s) as (s' & Hs' & HP'); [apply upto_elem; rewrite Hu; set_solver|done|by eexists|done|].
  cbn. rewrite Hs'. apply (IH (before ++ [i])); [by rewrite <-app_assoc|done].
Qed.

(** ** Sizes *)

(** The largest of the sizes; a nil persister panics. *)
Definition maxSize (size : Persister → Z) (n : Z) (saved : list (option Persister)) : option Z :=
  foldl (λ acc i, m ← acc; p ← index saved i; p ← p;
           let k := size p in Some (if m <? k then k else m)) (Some 0) (upto n).

(** With every persister there, it is the maximum. *)
Lemma maxSize_spec size n saved :
  (∀ i, 0 <= i < n → ∃ p, index saved i = Some (Some p) ∧ 0 <= size p) → 0 <= n →
  ∃ m, maxSize size n saved = Some m ∧ (∀ i p, 0 <= i < n → index saved i = Some (Some p) → size p <= m) ∧
    (m = 0 ∨ ∃ i p, 0 <= i < n ∧ index saved i = Some (Some p) ∧ m = size p).
Proof.
  intros Hall Hn. unfold maxSize. set (f := λ acc i, _). destruct (fold_upto f Some (λ before m, 0 <= m ∧ (∀ i p, i ∈ before → index saved i = Some (Some p) → size p <= m) ∧ (m = 0 ∨ ∃ i p, 0 <= i < n ∧ index saved i = Some (Some p) ∧ m = size p)) n 0) as (m & -> & _ & Hle & Hm).
  - split_and!; [lia|by intros ? ? ?%elem_of_nil|by left].
  - intros before i m Hi _ _ (Hm0 & Hle & Hm). destruct (Hall i Hi) as (p & Hp & Hp0). unfold f. cbn [mbind option_bind]. rewrite Hp. cbn [mbind option_bind]. eexists. split; [reflexivity|].
    split_and!; [destruct (Z.ltb_spec m (size p)); lia| |].
    + intros k q [Hk| ->%list_elem_of_singleton]%elem_of_app Hq; [specialize (Hle _ _ Hk Hq)|assert (q = p) as -> by congruence]; destruct (Z.ltb_spec m (size p)); lia.
    + destruct (Z.ltb_spec m (size p)); [right; eauto|done].
  - exists m. split_and!; [done| |done]. intros i p Hi%upto_elem. by apply Hle.
Qed.

(** ** raft/config.go *)

Module RaftNet.

Section raft_config.
Context {Cmd : Type} `{!Gob (Z * list (option Cmd))}.

Record config := mkConfig {
  net : Net;
  n : Z;
  alive : list bool;                (* rafts[i] is not nil *)
  connected : list bool;            (* whether each server is on the net *)
  saved : list (option Persister);
  endnames : Endnames;              (* the port file names each sends to *)
  copies : RaftHarness.config Cmd;
}.

#[export] Instance eta_config : Eta config := λ c,
  mkConfig (net c) (n c) (alive c) (connected c) (saved c) (endnames c) (copies c).
#[export] Instance set_net : Setter net.
Proof. setter. Defined.
#[export] Instance set_alive : Setter alive.
Proof. setter. Defined.
#[export] Instance set_connected : Setter connected.
Proof. setter. Defined.
#[export] Instance set_saved : Setter saved.
Proof. setter. Defined.
#[export] Instance set_endnames : Setter endnames.
Proof. setter. Defined.
#[export] Instance set_copies : Setter copies.
Proof. setter. Defined.

Definition isConnected (cfg : config) (i : Z) : Prop := index (connected cfg) i = Some true.
#[export] Instance isConnected_dec cfg i : Decision (isConnected cfg i).
Proof. unfold isConnected. apply _. Defined.

(** Attach server [i] to the net. *)
Definition connect (i : Z) (cfg : config) : option config :=
  c ← store (connected cfg) i true;
  let cfg := cfg <| connected := c |> in
  let up := filter (isConnected cfg) (upto (n cfg)) in
  rn ← enableLinks (endnames cfg) true ((i,.) <$> up) (net cfg);
  rn ← enableLinks (endnames cfg) true ((.,i) <$> up) rn;
  Some (cfg <| net := rn |>).

(** Detach server [i] from the net. *)
Definition disconnect (i : Z) (cfg : config) : option config :=
  c ← store (connected cfg) i false;
  let cfg := cfg <| connected := c |> in
  rn ← enableLinks (endnames cfg) false ((i,.) <$> filter (λ _, started (endnames cfg) i) (upto (n cfg))) (net cfg);
  rn ← enableLinks (endnames cfg) false ((.,i) <$> filter (started (endnames cfg)) (upto (n cfg))) rn;
  Some (cfg <| net := rn |>).

(** Shut down a server but save its persistent state. *)
Definition crash1 (i : Z) (cfg : config) : option config :=
  cfg ← disconnect i cfg;
  let cfg := cfg <| net := DeleteServer (NInt i) (net cfg) |> in
  p ← index (saved cfg) i;
  let p := Copy <$> p in
  al ← store (alive cfg) i false;
  let p := (λ p, SaveStateAndSnapshot (ReadRaftState p) (ReadSnapshot p) MakePersister) <$> p in
  sv ← store (saved cfg) i p;
  Some (cfg <| alive := al |> <| saved := sv |>).

(** The snapshot a server restarts from, if it has one. *)
Definition restore (i : Z) (p : Persister) (c : RaftHarness.config Cmd) : M (RaftHarness.config Cmd) :=
  let snapshot := ReadSnapshot p in
  if 0 <? zlen snapshot then ingestSnap (Cmd := Cmd) i snapshot (-1) c else mret c.

(** A fresh persister with the content of the old one. *)
Definition renew (i : Z) (p : option Persister) (c : RaftHarness.config Cmd) : M (Persister * RaftHarness.config Cmd) :=
  match p with
  | Some p => let p := Copy p in c ← restore i p c; mret (p, c)
  | None => mret (MakePersister, c)
  end.

(** Start or restart a server; [names] are the random strings, [srv] the new server. *)
Definition start1 (i : Z) (names : list string) (srv : nat) (cfg : config) : M config :=
  cfg ← orPanic (crash1 i cfg);
  eps ← orPanic (store (endnames cfg) i (Some names));
  rn ← orPanic (makeEnds NInt names (net cfg));
  la ← orPanic (store (lastApplied (copies cfg)) i 0);
  let c := (copies cfg) <| lastApplied := la |> in
  p ← orPanic (index (saved cfg) i);
  '(p, c) ← renew i p c;
  sv ← orPanic (store (saved cfg) i (Some p));
  al ← orPanic (store (alive cfg) i true);
  mret (cfg <| endnames := eps |> <| saved := sv |> <| alive := al |> <| copies := c |>
            <| net := AddServer (NInt i) srv rn |>).

(** [make_config] before it starts the servers. *)
Definition config0 (size : Z) (unreliable : bool) : config :=
  let k := Z.to_nat size in
  mkConfig (LongDelays true (Reliable (negb unreliable) MakeNetwork)) size
    (replicate k false) (replicate k false) (replicate k None) (replicate k None) (newCopies size).

(** [names i] and [srv i]: the random strings and the server of server [i]. *)
Definition make_config (size : Z) (unreliable : bool) (names : Z → list string) (srv : Z → nat) : M config :=
  cfg ← foldl (λ acc i, cfg ← acc; start1 i (names i) (srv i) cfg) (inr (config0 size unreliable)) (upto size);
  foldl (λ acc i, cfg ← acc; orPanic (connect i cfg)) (inr cfg) (upto size).

Definition LogSize (cfg : config) : option Z := maxSize RaftStateSize (n cfg) (saved cfg).

(** ** Counters *)

Definition rpcCount (server : Z) (srvs : gmap nat (Server () () ())) (cfg : config) : option Z :=
  GetCount (NInt server) srvs (net cfg).
Definition rpcTotal (cfg : config) : Z := GetTotalCount (net cfg).
Definition bytesTotal (cfg : config) : Z := GetTotalBytes (net cfg).
Definition setunreliable (unrel : bool) (cfg : config) : config := cfg <| net := Reliable (negb unrel) (net cfg) |>.
Definition setlongreordering (longrel : bool) (cfg : config) : config := cfg <| net := LongReordering longrel (net cfg) |>.

(** The counters when a test begins, and what it prints at its end: the peers, and the
    requests, bytes and agreements since. *)
Record Statistics := mkStatistics { rpcs0 : Z; bytes0 : Z; cmds0 : Z; maxIndex0 : Z }.
Definition begin (cfg : config) : Statistics :=
  mkStatistics (rpcTotal cfg) (bytesTotal cfg) 0 (maxIndex (copies cfg)).
Definition end_ (cfg : config) (s : Statistics) : Z * Z * Z * Z :=
  (n cfg, rpcTotal cfg - rpcs0 s, bytesTotal cfg - bytes0 s, maxIndex (copies cfg) - maxIndex0 s).

(** A running server saves: [save] changes the persister [Make] was given, which is
    [saved[i]] until [crash1] puts a copy there. *)
Definition persistAt (i : Z) (save : Persister → Persister) (cfg : config) : option config :=
  running ← index (alive cfg) i;
  p ← index (saved cfg) i;
  if running : bool then
    p ← p; sv ← store (saved cfg) i (Some (save p)); Some (cfg <| saved := sv |>)
  else None.

(** What the tests do to servers, and what the running servers save. *)
Inductive Action :=
  | AConnect (i : Z) | ADisconnect (i : Z) | ACrash (i : Z) | AStart (i : Z) (names : list string) (srv : nat)
  | APersist (i : Z) (state : bytes) | APersistSnapshot (i : Z) (state snap : bytes).

Definition act (a : Action) (cfg : config) : M config :=
  match a with
  | AConnect i => orPanic (connect i cfg)
  | ADisconnect i => orPanic (disconnect i cfg)
  | ACrash i => orPanic (crash1 i cfg)
  | AStart i names srv => start1 i names srv cfg
  | APersist i state => orPanic (persistAt i (SaveRaftState state) cfg)
  | APersistSnapshot i state snap => orPanic (persistAt i (SaveStateAndSnapshot state snap) cfg)
  end.

(** A snapshot is one an applier made. *)
Definition legible (snap : bytes) : Prop := snap = [] ∨ is_Some (gob_decode (A := Z * list (option Cmd)) snap).
Definition readable (cfg : config) (i : Z) : Prop := ∀ p, index (saved cfg) i = Some (Some p) → legible (snapshot p).

Definition fresh (cfg : config) (names : list string) : Prop :=
  zlen names = n cfg ∧ NoDup names ∧ ∀ s, s ∈ names → NStr s ∉ ends (net cfg).

(** Servers are numbered up to [n], a server is started before it is connected, the
    random strings are new ones, only running servers save, and the snapshots they save
    are those of appliers. *)
Definition sensible (cfg : config) (a : Action) : Prop :=
  match a with
  | AConnect i => 0 <= i < n cfg ∧ started (endnames cfg) i
  | ADisconnect i | ACrash i => 0 <= i < n cfg
  | AStart i names _ => 0 <= i < n cfg ∧ fresh cfg names
  | APersist i _ => index (alive cfg) i = Some true
  | APersistSnapshot i _ snap => index (alive cfg) i = Some true ∧ legible snap
  end.

(** What the persister of server [i] holds after an action, and after several, when it
    held [p] before: the state and the snapshot the server saved last. *)
Definition wrote (i : Z) (a : Action) (p : Persister) : Persister :=
  match a with
  | APersist k state => if k =? i then mkPersister state (snapshot p) else p
  | APersistSnapshot k state snap => if k =? i then mkPersister state snap else p
  | _ => p
  end.
Definition written (i : Z) (acts : list Action) (p : Persister) : Persister := foldl (λ p a, wrote i a p) p acts.

(** What is kept for server [i]. *)
Definition kept (cfg : config) (i : Z) : Persister := default MakePersister (mjoin (index (saved cfg) i)).

Record wired (cfg : config) : Prop := {
  wi_sizes : zlen (connected cfg) = n cfg ∧ zlen (endnames cfg) = n cfg ∧ zlen (saved cfg) = n cfg ∧ zlen (alive cfg) = n cfg ∧
    zlen (lastApplied (copies cfg)) = n cfg ∧ zlen (logs (copies cfg)) = n cfg;
  wi_width : ∀ i es, index (endnames cfg) i = Some (Some es) → zlen es = n cfg;
  wi_unique : ∀ i j i' j' s, endname (endnames cfg) i j = Some s → endname (endnames cfg) i' j' = Some s → i = i' ∧ j = j';
  wi_ends : ∀ i j s, endname (endnames cfg) i j = Some s →
    NStr s ∈ ends (net cfg) ∧ connections (net cfg) !! NStr s = Some (Some (NInt j));
  wi_started : ∀ i, isConnected cfg i → started (endnames cfg) i;
  wi_on : ∀ e, on (net cfg) e ↔
    ∃ i j s, e = NStr s ∧ endname (endnames cfg) i j = Some s ∧ isConnected cfg i ∧ isConnected cfg j;
  wi_servers : ∀ i, index (alive cfg) i = Some true ↔ ∃ s, servers (net cfg) !! NInt i = Some (Some s);
  wi_alive : ∀ i, index (alive cfg) i = Some true → started (endnames cfg) i;
  wi_saved : ∀ i, started (endnames cfg) i → ∃ p, index (saved cfg) i = Some (Some p);
  wi_readable : ∀ i, readable cfg i;
}.

Lemma wired_link cfg i j : wired cfg → started (endnames cfg) i → 0 <= j < n cfg → is_Some (endname (endnames cfg) i j).
Proof.
  intros W [es Hes] Hj. rewrite <-(wi_width _ W _ _ Hes) in Hj. destruct (index_is_Some es j Hj) as [s Hs].
  exists s. apply endname_Some. eauto.
Qed.

Lemma endname_range cfg i j s : wired cfg → endname (endnames cfg) i j = Some s → 0 <= i < n cfg ∧ 0 <= j < n cfg ∧ started (endnames cfg) i.
Proof.
  intros W (es & Hi & Hj)%endname_Some. pose proof (wi_width _ W _ _ Hi). pose proof (index_lt _ _ _ Hi).
  pose proof (index_lt _ _ _ Hj). destruct (wi_sizes _ W) as (_ & ? & _). split_and!; [lia..|by exists es].
Qed.

Lemma isConnected_store cfg i b c :
  store (connected cfg) i b = Some c → ∀ k, isConnected (cfg <| connected := c |>) k ↔ (k = i ∧ b = true) ∨ (k ≠ i ∧ isConnected cfg k).
Proof.
  intros [Hi ->]%store_Some k. unfold isConnected. cbn. destruct (decide (k = i)) as [->|Hne].
  - rewrite index_insert_eq by done. naive_solver congruence.
  - rewrite index_insert_ne by (done || lia). naive_solver.
Qed.

Lemma connect_wired cfg i : wired cfg → 0 <= i < n cfg → started (endnames cfg) i → 
  ∃ cfg', connect i cfg = Some cfg' ∧ wired cfg' ∧ n cfg' = n cfg ∧ endnames cfg' = endnames cfg ∧ saved cfg' = saved cfg ∧
    ∀ k, isConnected cfg' k ↔ k = i ∨ isConnected cfg k.
Proof.
  intros W Hi Hst. unfold connect. destruct (wi_sizes _ W) as (Hs & _).
  rewrite (store_is_Some (connected cfg) i true) by lia. cbn [mbind option_bind].
  set (cfg1 := cfg <| connected := _ |>). assert (∀ k, isConnected cfg1 k ↔ k = i ∨ k ≠ i ∧ isConnected cfg k) as Hc.
  { intros k. unfold cfg1. rewrite (isConnected_store cfg i true) by (apply store_is_Some; lia). naive_solver. }
  assert (∀ k, isConnected cfg1 k → started (endnames cfg) k ∧ 0 <= k < n cfg) as Hup.
  { intros k [->|[_ Hk]]%Hc; [done|]. split; [by apply (wi_started _ W)|]. apply index_lt in Hk. lia. }
  set (up := filter (isConnected cfg1) (upto (n cfg1))).
  assert (∀ k, k ∈ up ↔ isConnected cfg1 k) as Hel.
  { intros k. unfold up. rewrite list_elem_of_filter, upto_elem. split; [by intros [? _]|]. intros Hk. split; [done|by apply Hup]. }
  destruct (enableLinks_two (endnames cfg1) true ((i,.) <$> up) ((.,i) <$> up) (net cfg1)) as (m & -> & Hm).
  { intros l [(k & -> & Hk%Hel%Hup)%list_elem_of_fmap|(k & -> & Hk%Hel%Hup)%list_elem_of_fmap]%elem_of_app; apply (wired_link cfg); done || apply Hk. }
  eexists. split_and!; [reflexivity| |done..|intros k; etransitivity; [exact (Hc k)|]; destruct (decide (k = i)); naive_solver]. pose proof W as [W1 W2 W3 W4 W5 W6 W7]. split; try done.
  - cbn. by rewrite zlen_insert.
  - intros k Hk. by apply Hup.
  - intros e. etransitivity; [exact (Hm e)|]. cbn. rewrite (linked_pairs _ _ _ _ _ Hel). etransitivity; [apply or_iff_compat_r, W6|].
    split.
    + intros [(a & b & s & -> & He & Ha & Hb)|(a & b & s & -> & He & Hab)]; exists a, b, s; (split_and!; [done..| |]); apply Hc;
        [destruct (decide (a = i))|destruct (decide (b = i))| |]; naive_solver.
    + intros (a & b & s & -> & He & Ha & Hb). destruct (decide (a = i)) as [->|Hai]; [right; eauto 10|].
      destruct (decide (b = i)) as [->|Hbi]; [right; eauto 10|]. left. exists a, b, s. apply Hc in Ha, Hb. naive_solver.
Qed.

Lemma disconnect_wired cfg i : wired cfg → 0 <= i < n cfg →
  ∃ cfg', disconnect i cfg = Some cfg' ∧ wired cfg' ∧ n cfg' = n cfg ∧ endnames cfg' = endnames cfg ∧ saved cfg' = saved cfg ∧
    servers (net cfg') = servers (net cfg) ∧ ends (net cfg') = ends (net cfg) ∧ alive cfg' = alive cfg ∧ copies cfg' = copies cfg ∧
    ¬ isConnected cfg' i.
Proof.
  intros W Hi. unfold disconnect. destruct (wi_sizes _ W) as (Hs & _).
  rewrite (store_is_Some (connected cfg) i false) by lia. cbn [mbind option_bind].
  set (cfg1 := cfg <| connected := _ |>). assert (∀ k, isConnected cfg1 k ↔ k ≠ i ∧ isConnected cfg k) as Hc.
  { intros k. unfold cfg1. rewrite (isConnected_store cfg i false) by (apply store_is_Some; lia). naive_solver. }
  set (l1 := filter (λ _, started (endnames cfg1) i) (upto (n cfg1))). set (l2 := filter (started (endnames cfg1)) (upto (n cfg1))).
  destruct (enableLinks_two (endnames cfg1) false ((i,.) <$> l1) ((.,i) <$> l2) (net cfg1)) as (m & -> & Hm).
  { intros l [(k & -> & [Hst Hk%upto_elem]%list_elem_of_filter)%list_elem_of_fmap|(k & -> & [Hst Hk%upto_elem]%list_elem_of_filter)%list_elem_of_fmap]%elem_of_app;
      by apply (wired_link cfg). }
  assert (∀ e, linked (endnames cfg1) (((i,.) <$> l1) ++ ((.,i) <$> l2)) e ↔
    ∃ a b s, e = NStr s ∧ endname (endnames cfg) a b = Some s ∧ (a = i ∨ b = i)) as Hlk.
  { intros e. unfold linked. setoid_rewrite elem_of_app. setoid_rewrite list_elem_of_fmap. split.
    - intros ([a b] & s & [(k & [= -> ->] & _)|(k & [= -> ->] & _)] & Hs' & ->); eauto 10.
    - intros (a & b & s & -> & Hs' & Hab). destruct (endname_range _ _ _ _ W Hs') as (Ha & Hb & Hst). exists (a, b), s. split_and!; [|done..].
      destruct Hab as [->| ->]; [left; exists b|right; exists a]; (split; [done|]); apply list_elem_of_filter; by rewrite upto_elem. }
  eexists. split_and!; [reflexivity| |done..|by intros [? _]%Hc].
  pose proof W as [W1 W2 W3 W4 W5 W6 W7]. split; try done.
  - cbn. by rewrite zlen_insert.
  - intros k [_ Hk]%Hc. by apply W5.
  - intros e. specialize (Hm e). cbv iota in Hm. rewrite Hlk in Hm. etransitivity; [exact Hm|]. etransitivity; [apply and_iff_compat_r, W6|]. split.
    + intros [(a & b & s & -> & He & Ha & Hb) Hn]. exists a, b, s. split_and!; [done..| |]; apply Hc; (split; [|done]); naive_solver.
    + intros (a & b & s & -> & He & [Hai Ha]%Hc & [Hbi Hb]%Hc). split; [by exists a, b, s|]. intros (a' & b' & s' & [= <-] & He' & Hab).
      destruct (W3 _ _ _ _ _ He He') as [-> ->]. naive_solver.
Qed.

Lemma alive_store cfg i b al :
  store (alive cfg) i b = Some al → ∀ k, index al k = Some true ↔ (k = i ∧ b = true) ∨ (k ≠ i ∧ index (alive cfg) k = Some true).
Proof.
  intros [Hi ->]%store_Some k. destruct (decide (k = i)) as [->|Hne].
  - rewrite index_insert_eq by done. naive_solver congruence.
  - rewrite index_insert_ne by (done || lia). naive_solver.
Qed.

(** The harness keeps what a server saved. *)
Lemma crash1_wired cfg i : wired cfg → 0 <= i < n cfg →
  ∃ cfg', crash1 i cfg = Some cfg' ∧ wired cfg' ∧ n cfg' = n cfg ∧ endnames cfg' = endnames cfg ∧ saved cfg' = saved cfg ∧
    ends (net cfg') = ends (net cfg) ∧ copies cfg' = copies cfg ∧ ¬ isConnected cfg' i.
Proof.
  intros W Hi. unfold crash1. destruct (disconnect_wired cfg i W Hi) as (cfg1 & -> & W1 & Hn & He & Hsv & Hse & Hen & Hal & Hco & Hni).
  cbn [mbind option_bind]. destruct (wi_sizes _ W1) as (? & ? & ? & ? & _). set (cfg2 := cfg1 <| net := _ |>).
  change (saved cfg2) with (saved cfg1). change (alive cfg2) with (alive cfg1).
  destruct (index_is_Some (saved cfg1) i) as [p Hp]; [lia|]. rewrite Hp. cbn [mbind option_bind].
  pose proof (store_is_Some (alive cfg1) i false) as Ha. rewrite Ha by lia. cbn [mbind option_bind]. rewrite store_is_Some by lia. cbn [mbind option_bind].
  assert ((λ p, SaveStateAndSnapshot (ReadRaftState p) (ReadSnapshot p) MakePersister) <$> (Copy <$> p) = p) as Heq.
  { destruct p; [|done]. cbn. f_equal. apply persister_same. }
  rewrite Heq. apply index_Some in Hp as [_ Hp]. rewrite list_insert_id by done.
  eexists. split_and!; [reflexivity| |done..]. pose proof W1 as [V1 V2 V3 V4 V5 V6 V7 V8 V9 V10]. split; try done.
  - cbn. by rewrite zlen_insert.
  - intros k. cbn. rewrite (alive_store cfg1 i false) by (apply Ha; lia). rewrite V7. destruct (decide (k = i)) as [->|Hne].
    + rewrite lookup_insert_eq. naive_solver.
    + rewrite lookup_insert_ne by congruence. naive_solver.
  - intros k. cbn. rewrite (alive_store cfg1 i false) by (apply Ha; lia). intros [[_ ?]|[_ Hk]]; [done|]. by apply V8.
Qed.

Lemma restore_sizes cfg i p c : readable cfg i → index (saved cfg) i = Some (Some p) →
  0 <= i < zlen (logs c) → 0 <= i < zlen (lastApplied c) →
  ∃ c', restore i p c = inr c' ∧ zlen (logs c') = zlen (logs c) ∧ zlen (lastApplied c') = zlen (lastApplied c).
Proof.
  intros Hr Hp Hl Hla. unfold restore, ReadSnapshot. rewrite clone_id. destruct (Hr _ Hp) as [->|[[idx xlog] Hd]]; [by exists c|].
  destruct (0 <? zlen (snapshot p)); [|by exists c]. unfold ingestSnap. rewrite Hd. cbn [Z.eqb Z.opp negb andb].
  rewrite store_is_Some by done. cbn [orPanic mbind M_bind]. rewrite store_is_Some by done. cbn [orPanic mbind M_bind].
  eexists. split; [reflexivity|]. cbn. by rewrite !zlen_insert.
Qed.

(** Wiring a server that is off the net with new end points. *)
Lemma rewire cfg i names srv eps rn sv al c :
  wired cfg → 0 <= i < n cfg → fresh cfg names → ¬ isConnected cfg i →
  store (endnames cfg) i (Some names) = Some eps → makeEnds NInt names (net cfg) = Some rn →
  zlen sv = n cfg → (∀ k, (k = i ∨ started (endnames cfg) k) → ∃ p, index sv k = Some (Some p)) →
  (∀ k p, index sv k = Some (Some p) → legible (snapshot p)) → store (alive cfg) i true = Some al → zlen (lastApplied c) = n cfg → zlen (logs c) = n cfg →
  wired (cfg <| endnames := eps |> <| saved := sv |> <| alive := al |> <| copies := c |> <| net := AddServer (NInt i) srv rn |>).
Proof.
  intros [W1 W2 W3 W4 W5 W6 W7 W8 W9 W10] Hi (Hlen & HN & Hf) Hni Heps Hrn Hsv Hps Hlg Hal Hla Hlo.
  destruct (makeEnds_spec NInt names (net cfg) HN Hf) as (rn' & Hrn' & HS & HE & HO & HC & HC'). simplify_eq.
  pose proof (endname_store _ _ _ _ Heps) as He. pose proof (started_store _ _ _ _ Heps) as Hst.
  assert (∀ a b s, endname (endnames cfg) a b = Some s → NStr s ∉ NStr <$> names) as Hold.
  { intros a b s Hs (x & [= <-] & Hx)%list_elem_of_fmap. by apply (Hf s), (W4 a b). }
  split; cbn; try done.
  - apply store_Some in Heps as [_ ->]. apply store_Some in Hal as [_ ->]. rewrite !zlen_insert. naive_solver.
  - apply store_Some in Heps as [Hi' ->]. intros k es Hk. destruct (decide (k = i)) as [->|Hne].
    + rewrite index_insert_eq in Hk by done. congruence.
    + rewrite index_insert_ne in Hk by (done || lia). eauto.
  - intros a b a' b' s. rewrite !He. repeat case_decide; intros Ha Hb; subst; [|exfalso..|by eauto].
    + split; [done|]. apply index_Some in Ha as [? Ha], Hb as [? Hb]. pose proof (NoDup_lookup _ _ _ _ HN Ha Hb). lia.
    + eapply Hold, list_elem_of_fmap; [exact Hb|]. apply index_elem_of in Ha. eauto.
    + eapply Hold, list_elem_of_fmap; [exact Ha|]. apply index_elem_of in Hb. eauto.
  - intros a b s. rewrite He. case_decide; intros Hs.
    + split; [|by apply HC]. rewrite HE, elem_of_union, elem_of_list_to_set, list_elem_of_fmap. left. apply index_elem_of in Hs. eauto.
    + destruct (W4 _ _ _ Hs) as [? Hc]. split; [rewrite HE; set_solver|]. rewrite HC' by eauto. exact Hc.
  - intros k Hk. apply Hst. right. by apply W5.
  - intros e. etransitivity; [exact (HO e)|]. etransitivity; [apply and_iff_compat_r, W6|]. split.
    + intros [(a & b & s & -> & Hs & Ha & Hb) _]. exists a, b, s. rewrite He, decide_False by congruence. done.
    + intros (a & b & s & -> & Hs & Ha & Hb). rewrite He, decide_False in Hs by (intros ->; done). split; [by exists a, b, s|eauto].
  - intros k. rewrite (alive_store cfg i true) by done. rewrite W7, HS. destruct (decide (k = i)) as [->|Hne].
    + rewrite lookup_insert_eq. naive_solver.
    + rewrite lookup_insert_ne by congruence. naive_solver.
  - intros k. rewrite (alive_store cfg i true) by done. rewrite Hst. intros [[-> _]|[_ ?%W8]]; auto.
  - intros k ?%Hst. auto.
Qed.

Lemma kept_saved cfg cfg' : saved cfg' = saved cfg → ∀ k, kept cfg' k = kept cfg k.
Proof. intros Hs k. unfold kept. by rewrite Hs. Qed.

(** Replacing the persister of one server. *)
Lemma kept_store cfg cfg' i q : 0 <= i < zlen (saved cfg) → saved cfg' = <[Z.to_nat i := Some q]> (saved cfg) →
  ∀ k, kept cfg' k = if i =? k then q else kept cfg k.
Proof.
  intros Hi Hs k. unfold kept. rewrite Hs. destruct (Z.eqb_spec i k) as [<-|Hne]; [by rewrite index_insert_eq|].
  by rewrite index_insert_ne by (done || lia).
Qed.

Lemma persistAt_wired cfg i save : wired cfg → index (alive cfg) i = Some true → legible (snapshot (save (kept cfg i))) →
  ∃ cfg', persistAt i save cfg = Some cfg' ∧ wired cfg' ∧ ∀ k, kept cfg' k = if i =? k then save (kept cfg k) else kept cfg k.
Proof.
  intros W Hal Hlg. pose proof W as [W1 W2 W3 W4 W5 W6 W7 W8 W9 W10]. destruct (W9 i (W8 i Hal)) as [p Hp]. pose proof (index_lt _ _ _ Hp) as Hi.
  assert (kept cfg i = p) as Hk by (unfold kept; by rewrite Hp). unfold persistAt. rewrite Hal, Hp. cbn [mbind option_bind].
  rewrite store_is_Some by done. cbn [mbind option_bind]. eexists. split_and!; [reflexivity| |].
  - split; cbn; try done; [by rewrite zlen_insert| |].
    + intros k Hst. destruct (decide (k = i)) as [->|]; [rewrite index_insert_eq by done; eauto|]. rewrite index_insert_ne by (done || lia). by apply W9.
    + intros k q. cbn. destruct (decide (k = i)) as [->|]; [rewrite index_insert_eq by done; intros [= <-]; by rewrite <-Hk|].
      rewrite index_insert_ne by (done || lia). apply W10.
  - intros k. rewrite (kept_store cfg _ i (save p)) by done. destruct (Z.eqb_spec i k) as [<-|]; [by rewrite Hk|done].
Qed.

Lemma start1_wired cfg i names srv : wired cfg → 0 <= i < n cfg → fresh cfg names →
  ∃ cfg', start1 i names srv cfg = inr cfg' ∧ wired cfg' ∧ n cfg' = n cfg ∧ (∀ k, kept cfg' k = kept cfg k) ∧
    (∀ k, started (endnames cfg') k ↔ k = i ∨ started (endnames cfg) k) ∧
    ends (net cfg') = list_to_set (NStr <$> names) ∪ ends (net cfg).
Proof.
  intros W Hi (Hlen & HN & Hf). pose proof (wi_readable _ W i) as Hr. unfold start1. destruct (crash1_wired cfg i W Hi) as (cfg1 & -> & W1 & Hn & Hep & Hsv & Hen & Hco & Hni).
  destruct (wi_sizes _ W1) as (? & ? & ? & ? & ? & ?). rewrite <-Hen in Hf. cbn [orPanic mbind M_bind].
  pose proof (store_is_Some (endnames cfg1) i (Some names)) as He. rewrite He by lia. cbn [orPanic mbind M_bind].
  destruct (makeEnds_spec NInt names (net cfg1) HN Hf) as (rn & Hrn & _ & HE & _). rewrite Hrn. cbn [orPanic mbind M_bind].
  rewrite (store_is_Some (lastApplied (copies cfg1)) i 0) by lia. cbn [orPanic mbind M_bind]. set (c0 := (copies cfg1) <| lastApplied := <[Z.to_nat i := 0]> (lastApplied (copies cfg1)) |>).
  assert (zlen (lastApplied c0) = n cfg) as Hc0 by (cbn; rewrite zlen_insert; lia).
  destruct (index_is_Some (saved cfg1) i) as [p Hp]; [lia|]. rewrite Hp. cbn [orPanic mbind M_bind].
  assert (∃ q c, renew i p c0 = inr (q, c) ∧
    q = default MakePersister p ∧ zlen (logs c) = n cfg ∧ zlen (lastApplied c) = n cfg) as (q & c & Hq & Hpq & Hlo & Hla).
  { destruct p as [p|]; [|exists MakePersister, c0; split_and!; [done..|cbn; lia|done]].
    destruct (restore_sizes cfg i (Copy p) c0) as (c & Hc & ? & ?);
      [done|rewrite <-Hsv; by destruct p|cbn; lia|lia|]. exists p, c. cbn [renew]. cbv zeta. rewrite Hc. split_and!; [by destruct p|done|cbn in *; lia|lia]. }
  rewrite Hq. cbn [orPanic mbind M_bind]. rewrite (store_is_Some (saved cfg1) i) by lia. cbn [orPanic mbind M_bind].
  pose proof (store_is_Some (alive cfg1) i true) as Ha. rewrite Ha by lia. cbn [orPanic mbind M_bind]. eexists. split; [reflexivity|].
  split_and!.
  - assert (∀ k x, index (<[Z.to_nat i := Some q]> (saved cfg1)) k = Some x → (k = i ∧ x = Some q) ∨ index (saved cfg1) k = Some x) as Hsv'.
    { intros k x. destruct (decide (k = i)) as [->|]; [rewrite index_insert_eq by lia; intros [= <-]; by left|]. rewrite index_insert_ne by (done || lia). by right. }
    eapply rewire; try done; [lia|split; [lia|done]|apply He; lia|rewrite zlen_insert; lia| | |apply Ha; lia|lia|lia].
    + intros k Hk. destruct (decide (k = i)) as [->|Hne]; [rewrite index_insert_eq by lia; eauto|]. rewrite index_insert_ne by (done || lia).
      destruct Hk as [?|Hk]; [done|]. by apply (wi_saved _ W1).
    + intros k p' [[-> [= ->]]|Hk]%Hsv'; [|by apply (wi_readable _ W1 k)]. subst q. destruct p as [p|]; [by apply (wi_readable _ W1 i)|by left].
  - done.
  - intros k. rewrite (kept_store cfg1 _ i q); [|lia|done]. rewrite (kept_saved cfg cfg1 Hsv). destruct (Z.eqb_spec i k) as [<-|]; [|done].
    unfold kept. rewrite <-Hsv, Hp. by subst q.
  - intros k. cbn. rewrite <-Hep. eapply started_store, He. lia.
  - cbn. by rewrite HE, Hen.
Qed.

(** [acts]: actions one after the other, sensible where they are taken. *)
Inductive acted : list Action → config → config → Prop :=
  | acted_nil cfg : acted [] cfg cfg
  | acted_cons a acts cfg cfg' cfg'' :
      sensible cfg a → act a cfg = inr cfg' → acted acts cfg' cfg'' → acted (a :: acts) cfg cfg''.

(** Every sensible action succeeds, and changes what is kept for the servers as they saved. *)
Lemma act_wired cfg a : wired cfg → sensible cfg a →
  ∃ cfg', act a cfg = inr cfg' ∧ wired cfg' ∧ ∀ k, kept cfg' k = wrote k a (kept cfg k).
Proof.
  intros W. destruct a as [i|i|i|i names srv|i state|i state snap]; cbn.
  - intros [Hi Hst]. destruct (connect_wired cfg i W Hi Hst) as (cfg' & -> & W' & _ & _ & Hsv & _). eauto using kept_saved.
  - intros Hi. destruct (disconnect_wired cfg i W Hi) as (cfg' & -> & W' & _ & _ & Hsv & _). eauto using kept_saved.
  - intros Hi. destruct (crash1_wired cfg i W Hi) as (cfg' & -> & W' & _ & _ & Hsv & _). eauto using kept_saved.
  - intros (Hi & Hf). destruct (start1_wired cfg i names srv W Hi Hf) as (cfg' & -> & W' & _ & Hk & _). eauto.
  - intros Ha. destruct (wi_saved _ W i (wi_alive _ W i Ha)) as [p Hp].
    destruct (persistAt_wired cfg i (SaveRaftState state) W Ha) as (cfg' & -> & W' & Hk).
    { unfold kept. rewrite Hp. exact (wi_readable _ W i p Hp). }
    exists cfg'. split_and!; [done..|]. intros k. rewrite Hk. unfold SaveRaftState. by rewrite clone_id.
  - intros [Ha Hl]. destruct (persistAt_wired cfg i (SaveStateAndSnapshot state snap) W Ha) as (cfg' & -> & W' & Hk).
    { cbn. by rewrite clone_id. }
    exists cfg'. split_and!; [done..|]. intros k. rewrite Hk. unfold SaveStateAndSnapshot. by rewrite !clone_id.
Qed.

Lemma acted_wired acts cfg cfg' : acted acts cfg cfg' → wired cfg → wired cfg' ∧ ∀ k, kept cfg' k = written k acts (kept cfg k).
Proof.
  induction 1 as [|a acts cfg cfg1 cfg2 Hs Ha _ IH]; [done|]. intros W. destruct (act_wired cfg a W Hs) as (cfg1' & Ha' & W' & Hk).
  assert (cfg1' = cfg1) as -> by congruence. destruct (IH W') as [W2 Hk2]. split; [done|]. intros k. by rewrite Hk2, Hk.
Qed.

Lemma config0_wired size unreliable : 0 <= size → wired (config0 size unreliable).
Proof.
  intros Hs. assert (∀ i x, index (replicate (Z.to_nat size) None : Endnames) i = Some x → x = None) as Hnone.
  { intros i x [_ Hx]%index_Some. by apply lookup_replicate in Hx as [-> _]. }
  assert (∀ i j, endname (endnames (config0 size unreliable)) i j = None) as He.
  { intros i j. unfold endname. cbn. destruct (index _ i) as [o|] eqn:E; [|done]. by rewrite (Hnone _ _ E). }
  assert (∀ i, index (replicate (Z.to_nat size) false) i ≠ Some true) as Hf.
  { intros i [_ Hx]%index_Some. by apply lookup_replicate in Hx as [? _]. }
  split.
  - cbn. unfold zlen. rewrite !length_replicate. lia.
  - intros i es Hes. by apply Hnone in Hes.
  - intros i j i' j' s. by rewrite He.
  - intros i j s. by rewrite He.
  - intros i Hi. by apply Hf in Hi.
  - intros e. split; [done|]. intros (? & ? & ? & _ & Hx & _). by rewrite He in Hx.
  - intros i. cbn. split; [by intros ?%Hf|]. intros [s Hs']. by rewrite lookup_empty in Hs'.
  - by intros i ?%Hf.
  - intros i [es Hes]. by apply Hnone in Hes.
  - intros i p [_ Hp]%index_Some. by apply lookup_replicate in Hp as [? _].
Qed.

Lemma kept0 size unreliable k : kept (config0 size unreliable) k = MakePersister.
Proof.
  unfold kept. cbn. destruct (index (replicate _ _) k) as [o|] eqn:E; [|done].
  apply index_Some in E as [_ E]. by apply lookup_replicate in E as [-> _].
Qed.

Lemma acted_app acts acts' cfg cfg1 cfg2 : acted acts cfg cfg1 → acted acts' cfg1 cfg2 → acted (acts ++ acts') cfg cfg2.
Proof. induction 1; [done|]. intros. cbn. econstructor; eauto. Qed.

Lemma acted_snoc acts a cfg cfg1 cfg2 : acted acts cfg cfg1 → sensible cfg1 a → act a cfg1 = inr cfg2 → acted (acts ++ [a]) cfg cfg2.
Proof. intros HA Hs Ha. eapply acted_app; [done|]. by repeat econstructor. Qed.

Section make_config.
Context (size : Z) (unreliable : bool) (names : Z → list string) (srv : Z → nat).
Hypothesis Hsize : 0 <= size.
Hypothesis Hlen : ∀ i, 0 <= i < size → zlen (names i) = size.
Hypothesis HN : NoDup (mjoin (names <$> upto size)).

Lemma starts_acted : ∃ cfg,
  foldl (λ acc i, cfg ← acc; start1 i (names i) (srv i) cfg) (inr (config0 size unreliable)) (upto size) = inr cfg ∧
  acted ((λ i, AStart i (names i) (srv i)) <$> upto size) (config0 size unreliable) cfg ∧ n cfg = size ∧
  (∀ i, i ∈ upto size → started (endnames cfg) i).
Proof.
  destruct (fold_upto (λ acc i, cfg ← acc; start1 i (names i) (srv i) cfg) inr (λ before cfg,
    acted ((λ i, AStart i (names i) (srv i)) <$> before) (config0 size unreliable) cfg ∧ n cfg = size ∧
    (∀ i, i ∈ before → started (endnames cfg) i) ∧ ends (net cfg) = list_to_set (NStr <$> mjoin (names <$> before))) size (config0 size unreliable)) as (cfg & ? & ? & ? & ? & _); [| |eauto].
  { split_and!; [constructor|done|intros ? []%elem_of_nil|done]. }
  intros before i cfg Hi Hnew (after & Hu) (HA & Hn & Hst & He).
  rewrite Hu, fmap_app, join_app in HN. cbn in HN. apply NoDup_app in HN as (_ & Hd & [HNi _]%NoDup_app).
  assert (sensible cfg (AStart i (names i) (srv i))) as Hsen.
  { cbn. split; [lia|]. split_and!; [rewrite Hn; by apply Hlen|done|].
    intros s Hin. rewrite He, elem_of_list_to_set. intros (x & [= <-] & Hx)%list_elem_of_fmap. apply (Hd s Hx). apply elem_of_app. by left. }
  destruct (acted_wired _ _ _ HA (config0_wired _ unreliable Hsize)) as [W _]. pose proof Hsen as (Hr & Hf).
  destruct (start1_wired cfg i (names i) (srv i) W Hr Hf) as (cfg' & HS & W' & Hn' & _ & Hst' & He').
  exists cfg'. rewrite !fmap_app, join_app. cbn [fmap list_fmap mjoin list_join]. rewrite app_nil_r.
  split_and!; [done|by eapply acted_snoc|lia| |].
  - intros k [Hk| ->%list_elem_of_singleton]%elem_of_app; apply Hst'; [right; by apply Hst|by left].
  - rewrite He', He, fmap_app, list_to_set_app_L. set_solver.
Qed.

(** [make_config] is such a sequence of actions, and leaves every server connected. *)
Lemma make_config_acted : ∃ cfg, make_config size unreliable names srv = inr cfg ∧
  acted (((λ i, AStart i (names i) (srv i)) <$> upto size) ++ (AConnect <$> upto size)) (config0 size unreliable) cfg ∧
  ∀ i, 0 <= i < size → isConnected cfg i.
Proof.
  destruct starts_acted as (cfg1 & HF & HA & Hn & Hst). unfold make_config. rewrite HF. cbn [mbind M_bind].
  destruct (fold_upto (λ acc i, cfg ← acc; orPanic (connect i cfg)) inr (λ before cfg,
    acted (((λ i, AStart i (names i) (srv i)) <$> upto size) ++ (AConnect <$> before)) (config0 size unreliable) cfg ∧ n cfg = size ∧
    endnames cfg = endnames cfg1 ∧ ∀ i, i ∈ before → isConnected cfg i) size cfg1) as (cfg & HG & HA' & _ & _ & Hc).
  { rewrite app_nil_r. split_and!; [done..|intros ? []%elem_of_nil]. }
  { intros before i cfg Hi _ _ (HA' & Hn' & He' & Hc). assert (started (endnames cfg) i) as Hsti by (rewrite He'; by apply Hst, upto_elem).
    destruct (acted_wired _ _ _ HA' (config0_wired _ unreliable Hsize)) as [W _].
    destruct (connect_wired cfg i W) as (cfg' & HS & W' & Hn'' & He'' & _ & Hc'); [lia|done|]. exists cfg'. cbn [mbind M_bind]. rewrite HS. split; [done|].
    split_and!; [|lia|congruence|].
    - rewrite fmap_app, app_assoc. eapply acted_snoc; [done|split; [lia|done]|cbn; by rewrite HS].
    - intros k [Hk| ->%list_elem_of_singleton]%elem_of_app; apply Hc'; [right; by apply Hc|by left]. }
  exists cfg. split_and!; [exact HG|done|]. intros i Hi. by apply Hc, upto_elem.
Qed.
End make_config.

(** C35: The wiring and the storage of a Raft test.  Whatever sensible sequence of
    connecting, disconnecting, crashing and restarting servers, and of the running
    servers saving, led to a state of the harness: every further such action succeeds;
    the persister of a server that was ever started holds the state and the snapshot
    the server saved last, through any crashes and restarts since; and a request sent
    on an end point [e] reaches server [j] exactly when [e] is the end point to [j] of
    the latest instance of some server [i], both [i] and [j] are connected, and [j] is
    running.  So an instance that was crashed can send nothing to anyone. *)
Theorem links_follow_connections size unreliable acts cfg :
  0 <= size → acted acts (config0 size unreliable) cfg →
  (∀ a, sensible cfg a → ∃ cfg', act a cfg = inr cfg') ∧
  (∀ i, started (endnames cfg) i → index (saved cfg) i = Some (Some (written i acts MakePersister))) ∧
  ∀ e j, (∃ s, readEndnameInfo (NStr e) (net cfg) = mkInfo true (Some (NInt j)) (Some s) (reliable (net cfg)) (longReordering (net cfg))) ↔
    ∃ i, endname (endnames cfg) i j = Some e ∧ isConnected cfg i ∧ isConnected cfg j ∧ index (alive cfg) j = Some true.
Proof.
  intros Hs HA. destruct (acted_wired _ _ _ HA (config0_wired _ unreliable Hs)) as [W Hk]. split_and!.
  { intros a Ha. destruct (act_wired _ _ W Ha) as (cfg' & ? & _). eauto. }
  { intros i [p Hp]%(wi_saved _ W). specialize (Hk i). rewrite kept0 in Hk. rewrite <-Hk. unfold kept. by rewrite Hp. }
  intros e j. unfold readEndnameInfo. split.
  - intros (s & Hinfo). injection Hinfo as Hon Hc Hsrv. apply (wi_on _ W) in Hon as (i & j' & e' & [= <-] & He & Hi & Hj).
    destruct (wi_ends _ W _ _ _ He) as [_ Hcn]. unfold getz in Hc, Hsrv. rewrite Hcn in Hc, Hsrv. cbn in Hc, Hsrv. injection Hc as ->.
    exists i. split_and!; [done..|]. apply (wi_servers _ W). destruct (servers (net cfg) !! NInt j) as [[s'|]|]; [eauto|done..].
  - intros (i & He & Hi & Hj & Hal). apply (wi_servers _ W) in Hal as [s Hsrv]. exists s. destruct (wi_ends _ W _ _ _ He) as [_ Hcn].
    assert (on (net cfg) (NStr e)) as Hon by (apply (wi_on _ W); eauto 10). unfold on in Hon. rewrite Hon.
    unfold getz. rewrite Hcn. cbn. by rewrite Hsrv.
Qed.

End raft_config.

#[export] Instance gob_snapshot : Gob (Z * list (option Z)) := wire_gob _.

(** Two servers; server 0 saves a state with a snapshot, then another state, crashes and
    restarts with new end points. *)
Definition names2 (i : Z) : list string := if i =? 0 then ["a"; "b"]%string else ["c"; "d"]%string.
Definition setup2 : list Action := ((λ i, AStart i (names2 i) (Z.to_nat i)) <$> upto 2) ++ (AConnect <$> upto 2).
Definition snap2 : bytes := gob_encode (1, [None; Some 7]).
Definition crash2 : list Action :=
  [APersistSnapshot 0 [Byte.x01] snap2; APersist 0 [Byte.x02]; ACrash 0; AStart 0 ["e"; "f"]%string 7].
Definition cfg2 : config (Cmd := Z) :=
  match make_config 2 false names2 Z.to_nat with inr cfg => cfg | inl _ => config0 2 false end.
Definition actAll (acts : list Action) (cfg : config (Cmd := Z)) : config (Cmd := Z) :=
  foldl (λ cfg a, match act a cfg with inr cfg' => cfg' | inl _ => cfg end) cfg acts.
Definition cfg3 : config (Cmd := Z) := actAll crash2 cfg2.

Lemma setup2_acted : acted setup2 (config0 2 false) cfg2.
Proof.
  destruct (make_config_acted (Cmd := Z) 2 false names2 Z.to_nat) as (cfg & Hmk & HA & _); [lia| | |].
  - intros i Hi. unfold names2. by destruct (i =? 0).
  - vm_compute. repeat (apply NoDup_cons; split; [rewrite ?not_elem_of_cons; split_and?; try done; by intros ?%elem_of_nil|]). by apply NoDup_nil.
  - unfold cfg2. by rewrite Hmk.
Qed.

Lemma crash2_acted : acted (setup2 ++ crash2) (config0 2 false) cfg3.
Proof.
  eapply acted_app; [exact setup2_acted|].
  apply (acted_cons _ _ _ (actAll (take 1 crash2) cfg2)); [split; [vm_compute; reflexivity|right; vm_compute; by eexists]|vm_compute; reflexivity|].
  apply (acted_cons _ _ _ (actAll (take 2 crash2) cfg2)); [vm_compute; reflexivity|vm_compute; reflexivity|].
  apply (acted_cons _ _ _ (actAll (take 3 crash2) cfg2)); [change (0 <= 0 < 2); lia|vm_compute; reflexivity|].
  apply (acted_cons _ _ _ cfg3); [|vm_compute; reflexivity|constructor].
  split; [change (0 <= 0 < 2); lia|]. split_and!; [vm_compute; reflexivity| |].
  - apply NoDup_cons; split; [by rewrite list_elem_of_singleton|apply NoDup_singleton].
  - intros s. rewrite elem_of_cons, list_elem_of_singleton. intros [->| ->]; apply (bool_decide_unpack _); vm_compute; exact I.
Qed.

Lemma links_follow_connections_witness :
  (∃ s, readEndnameInfo (NStr "c") (net cfg2) = mkInfo true (Some (NInt 0)) (Some s) true false) ∧
  ¬ (∃ s, readEndnameInfo (NStr "b") (net cfg3) = mkInfo true (Some (NInt 1)) (Some s) true false) ∧
  index (saved cfg3) 0 = Some (Some (mkPersister [Byte.x02] snap2)) ∧ index (lastApplied (copies cfg3)) 0 = Some 1.
Proof.
  destruct (links_follow_connections 2 false _ cfg2 ltac:(lia) setup2_acted) as (_ & _ & H2).
  destruct (links_follow_connections 2 false _ cfg3 ltac:(lia) crash2_acted) as (_ & Hs3 & H3). split_and!.
  - apply (H2 "c"%string 0). exists 1. repeat split; vm_compute; reflexivity.
  - rewrite (H3 "b"%string 1). intros (i & He & Hi & _). assert (i = 1) as ->.
    { apply endname_Some in He as (es & Hes & _). pose proof (index_lt _ _ _ Hes) as Hr. replace (zlen (endnames cfg3)) with 2 in Hr by (vm_compute; reflexivity). assert (i = 0 ∨ i = 1) as [->| ->] by lia; [|reflexivity].
      vm_compute in Hi. discriminate Hi. }
    vm_compute in He. discriminate He.
  - rewrite Hs3; [vm_compute; reflexivity|]. exists ["e"; "f"]%string. vm_compute. reflexivity.
  - vm_compute. reflexivity.
Defined.

End RaftNet.
