(* ===== verification/ServiceHarness.v ===== *)
(** * The harness of the kvraft tests ([kvraft/config.go])

    Servers and clerks with end points of their own on one network; the tests switch
    the links between any two servers, and between a clerk and a server, to build
    partitions.  [shardctrler/config.go] has the same code ([CtrlerHarness]). *)

From S2P Require Import Prelude Persister LabRpc HarnessNet.

(** ** Shuffled handles *)

(** [rand i] is [rand.Intn(i + 1)]. *)
Definition random_handles {A} (rand : Z → Z) (kvh : list A) : option (list A) :=
  foldl (λ acc i, sa ← acc; let j := rand i in
           x ← index sa i; y ← index sa j; sa ← store sa i y; store sa j x)
        (Some kvh) (upto (zlen kvh)).

(** ** State *)

Record config := mkConfig {
  net : Net;
  n : Z;
  kvservers : list bool;                (* kvservers[i] is not nil *)
  saved : list (option Persister);
  endnames : Endnames;                  (* names of each server's sending ClientEnds *)
  clerks : gmap nat (list string);      (* a clerk is a pointer *)
  nextClientId : Z;
  maxraftstate : Z;
}.

#[export] Instance eta_config : Eta config := λ c,
  mkConfig (net c) (n c) (kvservers c) (saved c) (endnames c) (clerks c) (nextClientId c) (maxraftstate c).
#[export] Instance set_net : Setter net.
Proof. setter. Defined.
#[export] Instance set_kvservers : Setter kvservers.
Proof. setter. Defined.
#[export] Instance set_saved : Setter saved.
Proof. setter. Defined.
#[export] Instance set_endnames : Setter endnames.
Proof. setter. Defined.
#[export] Instance set_clerks : Setter clerks.
Proof. setter. Defined.
#[export] Instance set_nextClientId : Setter nextClientId.
Proof. setter. Defined.

Definition LogSize (cfg : config) : option Z := maxSize RaftStateSize (n cfg) (saved cfg).
Definition SnapshotSize (cfg : config) : option Z := maxSize Persister.SnapshotSize (n cfg) (saved cfg).

(** ** Links between servers *)

(** Attach server [i] to the servers in [to]. *)
Definition connectUnlocked (i : Z) (to : list Z) (cfg : config) : option config :=
  rn ← enableLinks (endnames cfg) true ((i,.) <$> to) (net cfg);
  rn ← enableLinks (endnames cfg) true ((.,i) <$> to) rn;
  Some (cfg <| net := rn |>).

(** The second loop of [disconnectUnlocked], which looks for nil at [j] and not at [from[j]]. *)
Definition disableIncoming (eps : Endnames) (i : Z) (from : list Z) (rn : Net) : option Net :=
  foldl (λ acc jf, rn ← acc; es ← index eps jf.1;
           match es with
           | Some _ => s ← endname eps jf.2 i; Some (Enable (NStr s) false rn)
           | None => Some rn
           end) (Some rn) (imap (λ j f, (Z.of_nat j, f)) from).

(** Detach server [i] from the servers in [from]. *)
Definition disconnectUnlocked (i : Z) (from : list Z) (cfg : config) : option config :=
  mine ← (match from with [] => Some None | _ => index (endnames cfg) i end);
  rn ← (match mine with
        | Some _ => enableLinks (endnames cfg) false ((i,.) <$> from) (net cfg)
        | None => Some (net cfg)
        end);
  rn ← disableIncoming (endnames cfg) i from rn;
  Some (cfg <| net := rn |>).

Definition All (cfg : config) : list Z := upto (n cfg).

Definition ConnectAll (cfg : config) : option config :=
  foldl (λ acc i, cfg ← acc; connectUnlocked i (All cfg) cfg) (Some cfg) (upto (n cfg)).

(** One of the two loops of [partition]. *)
Definition separate (mine others : list Z) (cfg : config) : option config :=
  foldl (λ acc i, cfg ← acc; cfg ← disconnectUnlocked i others cfg; connectUnlocked i mine cfg) (Some cfg) mine.

Definition partition (p1 p2 : list Z) (cfg : config) : option config :=
  cfg ← separate p1 p2 cfg; separate p2 p1 cfg.

(** ** Clerks *)

(** A nil slice, for a clerk that is not in the map, panics when indexed. *)
Definition enableClient (b : bool) (ck : nat) (to : list Z) (cfg : config) : option config :=
  let es := default [] (clerks cfg !! ck) in
  rn ← foldl (λ acc j, rn ← acc; s ← index es j; Some (Enable (NStr s) b rn)) (Some (net cfg)) to;
  Some (cfg <| net := rn |>).
Definition ConnectClient : nat → list Z → config → option config := enableClient true.
Definition DisconnectClient : nat → list Z → config → option config := enableClient false.

(** [ck] is the new clerk, with the end points in the order [random_handles] gives. *)
Definition makeClient (ck : nat) (names : list string) (rand : Z → Z) (to : list Z) (cfg : config) : option (config * list string) :=
  rn ← makeEnds NInt names (net cfg);
  handles ← random_handles rand names;
  let cfg := cfg <| net := rn |> <| clerks := <[ck := names]> (clerks cfg) |> <| nextClientId := nextClientId cfg + 1 |> in
  cfg ← ConnectClient ck to cfg;
  Some (cfg, handles).

Definition deleteClient (ck : nat) (cfg : config) : config := cfg <| clerks := delete ck (clerks cfg) |>.

(** ** Servers *)

Definition ShutdownServer (i : Z) (cfg : config) : option config :=
  cfg ← disconnectUnlocked i (All cfg) cfg;
  let cfg := cfg <| net := DeleteServer (NInt i) (net cfg) |> in
  p ← index (saved cfg) i;
  sv ← store (saved cfg) i (Copy <$> p);
  kv ← store (kvservers cfg) i false;
  Some (cfg <| saved := sv |> <| kvservers := kv |>).

Definition StartServer (i : Z) (names : list string) (srv : nat) (cfg : config) : option config :=
  eps ← store (endnames cfg) i (Some names);
  rn ← makeEnds NInt names (net cfg);
  p ← index (saved cfg) i;
  sv ← store (saved cfg) i (Some (match p with Some p => Copy p | None => MakePersister end));
  kv ← store (kvservers cfg) i true;
  Some (cfg <| endnames := eps |> <| saved := sv |> <| kvservers := kv |> <| net := AddServer (NInt i) srv rn |>).

(** What each server answers to [GetState]; a nil server panics. *)
Fixpoint leaderFrom (i : Z) (states : list (option bool)) : option (bool * Z) :=
  match states with
  | [] => Some (false, 0)
  | None :: _ => None
  | Some leads :: states => if (leads : bool) then Some (true, i) else leaderFrom (i + 1) states
  end.
Definition Leader (states : list (option bool)) : option (bool * Z) := leaderFrom 0 states.

(** The loop of [make_partition]. *)
Definition deal (l : Z) (acc : option (list Z * list Z * Z)) (i : Z) : option (list Z * list Z * Z) :=
  '(p1, p2, j) ← acc;
  if negb (i =? l) then
    '(p1, p2) ← (if j <? zlen p1 then p1 ← store p1 j i; Some (p1, p2) else p2 ← store p2 (j - zlen p1) i; Some (p1, p2));
    Some (p1, p2, j + 1)
  else Some (p1, p2, j).

(** The two groups, with [l] in the smaller one. *)
Definition dealOut (n l : Z) : option (list Z * list Z) :=
  let p1 := replicate (Z.to_nat (Z.quot n 2 + 1)) 0 in
  let p2 := replicate (Z.to_nat (Z.quot n 2)) 0 in
  '(p1, p2, _) ← foldl (deal l) (Some (p1, p2, 0)) (upto n);
  p2 ← store p2 (zlen p2 - 1) l;
  Some (p1, p2).

(** Partition the servers into two groups, the current leader in the minority. *)
Definition make_partition (n : Z) (states : list (option bool)) : option (list Z * list Z) :=
  '(_, l) ← Leader states; dealOut n l.

(** [make_config] before it starts the servers. *)
Definition config0 (size maxraftstate : Z) : config :=
  let k := Z.to_nat size in
  mkConfig MakeNetwork size (replicate k false) (replicate k None) (replicate k None) ∅ (size + 1000) maxraftstate.

Definition make_config (size : Z) (unreliable : bool) (maxraftstate : Z) (names : Z → list string) (srv : Z → nat) : option config :=
  cfg ← foldl (λ acc i, cfg ← acc; StartServer i (names i) (srv i) cfg) (Some (config0 size maxraftstate)) (upto size);
  cfg ← ConnectAll cfg;
  Some (cfg <| net := Reliable (negb unreliable) (net cfg) |>).

(** ** Wiring *)

(** The link from server [a] to server [b], or from clerk [ck] to server [j], is on. *)
Definition link (cfg : config) (a b : Z) : Prop := ∃ s, endname (endnames cfg) a b = Some s ∧ on (net cfg) (NStr s).
Definition clink (cfg : config) (ck : nat) (j : Z) : Prop := ∃ es s, clerks cfg !! ck = Some es ∧ index es j = Some s ∧ on (net cfg) (NStr s).

Definition allStarted (cfg : config) : Prop := ∀ i, 0 <= i < n cfg → started (endnames cfg) i.

(** Every end point belongs to one server or one clerk and leads to one server. *)
Record wired (cfg : config) : Prop := {
  wi_sizes : zlen (endnames cfg) = n cfg ∧ zlen (saved cfg) = n cfg ∧ zlen (kvservers cfg) = n cfg;
  wi_width : ∀ i es, index (endnames cfg) i = Some (Some es) → zlen es = n cfg;
  wi_unique : ∀ i j i' j' s, endname (endnames cfg) i j = Some s → endname (endnames cfg) i' j' = Some s → i = i' ∧ j = j';
  wi_ends : ∀ i j s, endname (endnames cfg) i j = Some s →
    NStr s ∈ ends (net cfg) ∧ connections (net cfg) !! NStr s = Some (Some (NInt j));
  wi_clerks : ∀ ck es, clerks cfg !! ck = Some es → zlen es = n cfg ∧ ∀ j s, index es j = Some s →
    NStr s ∈ ends (net cfg) ∧ connections (net cfg) !! NStr s = Some (Some (NInt j)) ∧
    (∀ a b, endname (endnames cfg) a b ≠ Some s) ∧
    ∀ ck' es' j', clerks cfg !! ck' = Some es' → index es' j' = Some s → ck = ck' ∧ j = j';
}.

(** Only which end points are enabled differs. *)
Definition rewired (cfg cfg' : config) : Prop := ∃ m, cfg' = cfg <| net := (net cfg) <| enabled := m |> |>.

Lemma rewired_trans cfg1 cfg2 cfg3 : rewired cfg1 cfg2 → rewired cfg2 cfg3 → rewired cfg1 cfg3.
Proof. intros [m ->] [m' ->]. by exists m'. Qed.

Lemma rewired_refl cfg : rewired cfg cfg.
Proof. exists (enabled (net cfg)). by destruct cfg as [[] ? ? ? ? ? ? ?]. Qed.

Lemma rewired_wired cfg cfg' : rewired cfg cfg' → wired cfg → wired cfg'.
Proof. intros [m ->] [? ? ? ? ?]. by split. Qed.

Lemma rewired_started cfg cfg' : rewired cfg cfg' → allStarted cfg → allStarted cfg'.
Proof. by intros [m ->]. Qed.

Lemma rewired_n cfg cfg' : rewired cfg cfg' → n cfg' = n cfg.
Proof. by intros [m ->]. Qed.

Lemma server_link cfg i j : wired cfg → allStarted cfg → 0 <= i < n cfg → 0 <= j < n cfg → is_Some (endname (endnames cfg) i j).
Proof.
  intros W A Hi Hj. destruct (A i Hi) as [es Hes]. rewrite <-(wi_width _ W _ _ Hes) in Hj. destruct (index_is_Some es j Hj) as [s Hs].
  exists s. apply endname_Some. eauto.
Qed.

Lemma linked_iff cfg links a b s : wired cfg → endname (endnames cfg) a b = Some s →
  linked (endnames cfg) links (NStr s) ↔ (a, b) ∈ links.
Proof.
  intros W Hs. split; [|intros Hl; by exists (a, b), s]. intros ([a' b'] & s' & Hl & Hs' & [= <-]).
  by destruct (wi_unique _ W _ _ _ _ _ Hs Hs') as [-> ->].
Qed.

Lemma clerk_unlinked cfg links ck es j s : wired cfg → clerks cfg !! ck = Some es → index es j = Some s →
  ¬ linked (endnames cfg) links (NStr s).
Proof.
  intros W Hck Hj ([a b] & s' & _ & Hs & [= <-]). destruct (wi_clerks _ W _ _ Hck) as [_ Hc]. by destruct (Hc _ _ Hj) as (_ & _ & Hn & _); apply Hn in Hs.
Qed.

(** Switching links between servers leaves the clerks' alone. *)
Lemma switch_links cfg b links m :
  wired cfg →
  (∀ e, on ((net cfg) <| enabled := m |>) e ↔
     if b : bool then on (net cfg) e ∨ linked (endnames cfg) links e else on (net cfg) e ∧ ¬ linked (endnames cfg) links e) →
  (∀ l, l ∈ links → is_Some (endname (endnames cfg) l.1 l.2)) →
  (∀ x y, link (cfg <| net := (net cfg) <| enabled := m |> |>) x y ↔
     if b then link cfg x y ∨ (x, y) ∈ links else link cfg x y ∧ (x, y) ∉ links) ∧
  ∀ ck j, clink (cfg <| net := (net cfg) <| enabled := m |> |>) ck j ↔ clink cfg ck j.
Proof.
  intros W Hon Hl. split.
  - intros x y. unfold link. cbn [endnames net]. change (net (cfg <| net := ?a |>)) with a. split.
    + intros (s & Hs & He). apply Hon in He. pose proof (linked_iff cfg links x y s W Hs). destruct b; naive_solver.
    + intros HL. assert (is_Some (endname (endnames cfg) x y)) as [s Hs].
      { destruct b; [destruct HL as [(s & Hs & _)|Hin]; [by exists s|by apply (Hl (x, y))]|]. destruct HL as [(s & Hs & _) _]. by exists s. }
      exists s. split; [done|]. apply Hon. pose proof (linked_iff cfg links x y s W Hs) as Hlk. destruct b.
      * destruct HL as [(s' & Hs' & He)|Hin]; [left; congruence|right; by apply Hlk].
      * destruct HL as [(s' & Hs' & He) Hin]. split; [congruence|by rewrite Hlk].
  - intros ck j. unfold clink. cbn [clerks net]. change (net (cfg <| net := ?a |>)) with a. split.
    + intros (es & s & Hck & Hs & He). exists es, s. split_and!; [done..|]. apply Hon in He. pose proof (clerk_unlinked _ links _ _ _ _ W Hck Hs). destruct b; naive_solver.
    + intros (es & s & Hck & Hs & He). exists es, s. split_and!; [done..|]. apply Hon. pose proof (clerk_unlinked _ links _ _ _ _ W Hck Hs). destruct b; naive_solver.
Qed.

Definition inRange (cfg : config) (l : list Z) : Prop := ∀ i, i ∈ l → 0 <= i < n cfg.

Lemma pairs_in_range cfg i l : wired cfg → allStarted cfg → 0 <= i < n cfg → inRange cfg l →
  ∀ x, x ∈ ((i,.) <$> l) ++ ((.,i) <$> l) → is_Some (endname (endnames cfg) x.1 x.2).
Proof.
  intros W A Hi Hl x [(k & -> & Hk%Hl)%list_elem_of_fmap|(k & -> & Hk%Hl)%list_elem_of_fmap]%elem_of_app; by apply server_link.
Qed.

Lemma pairs_elem i l (a b : Z) : (a, b) ∈ ((i,.) <$> l) ++ ((.,i) <$> l) ↔ (a = i ∧ b ∈ l) ∨ (b = i ∧ a ∈ l).
Proof. rewrite elem_of_app, !list_elem_of_fmap. naive_solver. Qed.

Lemma connectUnlocked_spec cfg i to : wired cfg → allStarted cfg → 0 <= i < n cfg → inRange cfg to →
  ∃ cfg', connectUnlocked i to cfg = Some cfg' ∧ rewired cfg cfg' ∧
    (∀ a b, link cfg' a b ↔ link cfg a b ∨ (a = i ∧ b ∈ to) ∨ (b = i ∧ a ∈ to)) ∧ ∀ ck j, clink cfg' ck j ↔ clink cfg ck j.
Proof.
  intros W A Hi Hto. pose proof (pairs_in_range cfg i to W A Hi Hto) as Hp.
  destruct (enableLinks_two (endnames cfg) true ((i,.) <$> to) ((.,i) <$> to) (net cfg) Hp) as (m & HE & Hm).
  unfold connectUnlocked. rewrite HE. eexists. split_and!; [reflexivity|by eexists| |].
  - intros a b. rewrite (proj1 (switch_links cfg true _ m W Hm Hp) a b). by rewrite pairs_elem.
  - apply (switch_links cfg true _ m W Hm Hp).
Qed.

Lemma distinct_short cfg l : NoDup l → inRange cfg l → 0 <= n cfg → zlen l <= n cfg.
Proof.
  intros HN Hl Hn. assert (length l <= length (upto (n cfg)))%nat as H.
  { apply submseteq_length, NoDup_submseteq; [done|]. intros x Hx. by apply upto_elem, Hl. }
  rewrite upto_length in H. unfold zlen. lia.
Qed.

Lemma disableIncoming_links cfg i l rn : allStarted cfg → zlen l <= n cfg →
  disableIncoming (endnames cfg) i l rn = enableLinks (endnames cfg) false ((.,i) <$> l) rn.
Proof.
  intros A. unfold disableIncoming, enableLinks.
  assert (∀ k acc, Z.of_nat k + zlen l <= n cfg → foldl (λ acc jf, rn ← acc; es ← index (endnames cfg) jf.1;
    match es with Some _ => s ← endname (endnames cfg) jf.2 i; Some (Enable (NStr s) false rn) | None => Some rn end) acc
      (imap (λ j f, (Z.of_nat (k + j), f)) l) =
    foldl (λ acc l, rn ← acc; e ← endname (endnames cfg) l.1 l.2; Some (Enable (NStr e) false rn)) acc ((.,i) <$> l)) as H.
  { induction l as [|f l IH]; intros k acc Hk; [done|]. cbn [imap fmap list_fmap foldl fst snd].
    replace (imap ((λ j f, (Z.of_nat (k + j), f)) ∘ S) l) with (imap (λ j f, (Z.of_nat (S k + j), f)) l) by (apply imap_ext; intros; cbn; do 2 f_equal; lia).
    rewrite zlen_cons in Hk. rewrite IH by lia. f_equal. destruct acc as [rn'|]; [|done]. cbn [mbind option_bind].
    destruct (A (Z.of_nat (k + 0))) as [es ->]; [unfold zlen in *; lia|done]. }
  intros Hl. apply (H 0%nat). lia.
Qed.

Lemma disconnectUnlocked_spec cfg i from : wired cfg → allStarted cfg → 0 <= i < n cfg → inRange cfg from → zlen from <= n cfg →
  ∃ cfg', disconnectUnlocked i from cfg = Some cfg' ∧ rewired cfg cfg' ∧
    (∀ a b, link cfg' a b ↔ link cfg a b ∧ ¬ (a = i ∧ b ∈ from) ∧ ¬ (b = i ∧ a ∈ from)) ∧ ∀ ck j, clink cfg' ck j ↔ clink cfg ck j.
Proof.
  intros W A Hi Hfrom Hlen. pose proof (pairs_in_range cfg i from W A Hi Hfrom) as Hp.
  destruct (enableLinks_two (endnames cfg) false ((i,.) <$> from) ((.,i) <$> from) (net cfg) Hp) as (m & HE & Hm).
  assert (disconnectUnlocked i from cfg = Some (cfg <| net := (net cfg) <| enabled := m |> |>)) as HD.
  { rewrite <-(HE _ (λ rn, Some (cfg <| net := rn |>))). unfold disconnectUnlocked. destruct from as [|f from]; [done|].
    destruct (A i Hi) as [es ->]. cbn [mbind option_bind]. destruct (enableLinks _ _ _ (net cfg)) as [rn|]; [|done]. cbn [mbind option_bind].
    by rewrite disableIncoming_links. }
  rewrite HD. eexists. split_and!; [reflexivity|by eexists| |].
  - intros a b. rewrite (proj1 (switch_links cfg false _ m W Hm Hp) a b). rewrite pairs_elem. naive_solver.
  - apply (switch_links cfg false _ m W Hm Hp).
Qed.

(** A loop whose rounds only switch links. *)
Lemma fold_rewired (step : Z → config → option config) (P : list Z → config → Prop) l cfg :
  P [] cfg →
  (∀ before i c, i ∈ l → rewired cfg c → P before c → ∃ c', step i c = Some c' ∧ rewired c c' ∧ P (before ++ [i]) c') →
  ∃ cfg', foldl (λ acc i, c ← acc; step i c) (Some cfg) l = Some cfg' ∧ rewired cfg cfg' ∧ P l cfg'.
Proof.
  intros H0 Hstep. assert (∀ after before c, l = before ++ after → rewired cfg c → P before c →
    ∃ cfg', foldl (λ acc i, c ← acc; step i c) (Some c) after = Some cfg' ∧ rewired cfg cfg' ∧ P l cfg') as HF.
  { induction after as [|i after IH]; intros before c Hl Hc HP; [rewrite app_nil_r in Hl; subst before; by exists c|].
    destruct (Hstep before i c) as (c' & Hs & Hr & HP'); [rewrite Hl; set_solver|done..|]. cbn [foldl mbind option_bind]. rewrite Hs.
    apply (IH (before ++ [i])); [by rewrite <-app_assoc|by eapply rewired_trans|done]. }
  apply (HF l []); [done|apply rewired_refl|done].
Qed.

Lemma ConnectAll_spec cfg : wired cfg → allStarted cfg →
  ∃ cfg', ConnectAll cfg = Some cfg' ∧ rewired cfg cfg' ∧ (∀ a b, 0 <= a < n cfg → 0 <= b < n cfg → link cfg' a b) ∧
    ∀ ck j, clink cfg' ck j ↔ clink cfg ck j.
Proof.
  intros W A. destruct (fold_rewired (λ i cfg, connectUnlocked i (All cfg) cfg) (λ before c,
    (∀ a b, a ∈ before → 0 <= b < n cfg → link c a b) ∧ ∀ ck j, clink c ck j ↔ clink cfg ck j) (upto (n cfg)) cfg) as (cfg' & HF & Hr & HL & HC).
  - split; [intros ? ? []%elem_of_nil|done].
  - intros before i c Hi Hr (HL & HC). apply upto_elem in Hi. pose proof (rewired_n _ _ Hr) as Hn.
    destruct (connectUnlocked_spec c i (All c)) as (c' & HE & Hr' & HL' & HC'); [by eapply rewired_wired|by eapply rewired_started|lia|intros k; unfold All; by rewrite upto_elem|].
    exists c'. split_and!; [done..| |].
    + intros a b [Ha| ->%list_elem_of_singleton]%elem_of_app Hb; apply HL'; [left; auto|right; left]. split; [done|]. unfold All. rewrite upto_elem. lia.
    + intros ck j. by rewrite HC', HC.
  - exists cfg'. split_and!; [done..| |done]. intros a b Ha%upto_elem Hb. by apply HL.
Qed.

Lemma separate_spec cfg mine others : wired cfg → allStarted cfg → 0 <= n cfg → inRange cfg mine → inRange cfg others → NoDup others →
  (∀ i, i ∈ mine → i ∉ others) →
  ∃ cfg', separate mine others cfg = Some cfg' ∧ rewired cfg cfg' ∧
    (∀ a b, link cfg' a b ↔ (a ∈ mine ∧ b ∈ mine) ∨ (link cfg a b ∧ ¬ (a ∈ mine ∧ b ∈ others) ∧ ¬ (b ∈ mine ∧ a ∈ others))) ∧
    ∀ ck j, clink cfg' ck j ↔ clink cfg ck j.
Proof.
  intros W A Hn0 Hm Ho HN Hd.
  destruct (fold_rewired (λ i cfg, cfg ← disconnectUnlocked i others cfg; connectUnlocked i mine cfg) (λ before c,
    (∀ a b, link c a b ↔ (a ∈ mine ∧ b ∈ mine ∧ (a ∈ before ∨ b ∈ before)) ∨ (link cfg a b ∧ ¬ (a ∈ before ∧ b ∈ others) ∧ ¬ (b ∈ before ∧ a ∈ others))) ∧
    ∀ ck j, clink c ck j ↔ clink cfg ck j) mine cfg) as (cfg' & HF & Hr & HL & HC).
  - split; [|done]. intros a b. rewrite !elem_of_nil. naive_solver.
  - intros before i c Hi Hr (HL & HC). pose proof (rewired_n _ _ Hr) as Hn.
    assert (inRange c mine ∧ inRange c others) as [Hmc Hoc] by (unfold inRange; by rewrite Hn).
    destruct (disconnectUnlocked_spec c i others) as (c1 & HE1 & Hr1 & HL1 & HC1);
      [by eapply rewired_wired|by eapply rewired_started|auto|done|rewrite Hn; by apply distinct_short|].
    pose proof (rewired_trans _ _ _ Hr Hr1) as Hr1'. pose proof (rewired_n _ _ Hr1') as Hn1.
    destruct (connectUnlocked_spec c1 i mine) as (c2 & HE2 & Hr2 & HL2 & HC2);
      [by eapply rewired_wired|by eapply rewired_started|rewrite Hn1; auto|unfold inRange; by rewrite Hn1|].
    exists c2. rewrite HE1. split_and!; [done|by eapply rewired_trans| |intros ck j; by rewrite HC2, HC1, HC].
    intros a b. rewrite HL2, HL1, HL, !elem_of_app, !list_elem_of_singleton. pose proof (Hd a). pose proof (Hd b). pose proof (Hd i).
    destruct (decide (a = i)), (decide (b = i)); subst; tauto.
  - exists cfg'. split_and!; [done..| |done]. intros a b. rewrite HL. tauto.
Qed.

Lemma partition_spec cfg p1 p2 : wired cfg → allStarted cfg → 0 <= n cfg → inRange cfg (p1 ++ p2) → NoDup (p1 ++ p2) →
  ∃ cfg', partition p1 p2 cfg = Some cfg' ∧ rewired cfg cfg' ∧
    (∀ a b, link cfg' a b ↔ (a ∈ p1 ∧ b ∈ p1) ∨ (a ∈ p2 ∧ b ∈ p2) ∨
       (link cfg a b ∧ ¬ (a ∈ p1 ∧ b ∈ p2) ∧ ¬ (b ∈ p1 ∧ a ∈ p2))) ∧
    ∀ ck j, clink cfg' ck j ↔ clink cfg ck j.
Proof.
  intros W A Hn0 Hr (HN1 & Hd & HN2)%NoDup_app. assert (inRange cfg p1 ∧ inRange cfg p2) as [H1 H2] by (split; intros i Hi; apply Hr, elem_of_app; auto).
  destruct (separate_spec cfg p1 p2) as (c1 & HE1 & Hr1 & HL1 & HC1); [done..|]. pose proof (rewired_n _ _ Hr1) as Hn.
  destruct (separate_spec c1 p2 p1) as (c2 & HE2 & Hr2 & HL2 & HC2);
    [by eapply rewired_wired|by eapply rewired_started|lia|unfold inRange; by rewrite Hn..|done|naive_solver|].
  exists c2. unfold partition. rewrite HE1. split_and!; [done|by eapply rewired_trans| |intros ck j; by rewrite HC2, HC1].
  intros a b. rewrite HL2, HL1. pose proof (Hd a). pose proof (Hd b).
  destruct (decide (a ∈ p1)), (decide (b ∈ p1)), (decide (a ∈ p2)), (decide (b ∈ p2)); tauto.
Qed.

(** ** Partitions *)

Lemma kv_leaderFrom_spec states k : None ∉ states →
  ∃ b l, leaderFrom k states = Some (b, l) ∧ (if b then k <= l < k + zlen states ∧ index states (l - k) = Some (Some true) else l = 0 ∧ Some true ∉ states).
Proof.
  revert k. induction states as [|[[]|] states IH]; intros k Hn; cbn [leaderFrom].
  - exists false, 0. split_and!; [done..|]. by intros ?%elem_of_nil.
  - exists true, k. rewrite zlen_cons. split_and!; [done|pose proof (zlen_nonneg states); lia..|by rewrite Z.sub_diag].
  - apply not_elem_of_cons in Hn as [_ Hn]. destruct (IH (k + 1) Hn) as (b & l & -> & Hb). exists b, l. split; [done|]. destruct b.
    + destruct Hb as [Hl Hi]. rewrite zlen_cons. split; [lia|]. apply index_Some in Hi as [? Hi]. apply index_Some. split; [lia|].
      by replace (Z.to_nat (l - k)) with (S (Z.to_nat (l - (k + 1)))) by lia.
    + destruct Hb as [-> Hf]. split; [done|]. by apply not_elem_of_cons.
  - by apply not_elem_of_cons in Hn as [? _].
Qed.

Lemma Leader_spec states : None ∉ states → states ≠ [] →
  ∃ b l, Leader states = Some (b, l) ∧ 0 <= l < zlen states ∧ (Some true ∈ states → index states l = Some (Some true)).
Proof.
  intros Hn Hne. destruct (kv_leaderFrom_spec states 0 Hn) as (b & l & HL & Hb). exists b, l. split; [done|]. destruct b.
  - destruct Hb as [Hl Hi]. rewrite Z.sub_0_r in Hi. split; [lia|done].
  - destruct Hb as [-> Hf]. split; [destruct states; [done|rewrite zlen_cons; pose proof (zlen_nonneg states); lia]|done].
Qed.

Lemma replicate_store {A} (xs : list A) (v x : A) m j : j = zlen xs → (1 <= m)%nat →
  store (xs ++ replicate m v) j x = Some ((xs ++ [x]) ++ replicate (m - 1) v).
Proof.
  intros -> Hm. rewrite store_is_Some by (rewrite zlen_app; unfold zlen; rewrite length_replicate; lia). f_equal.
  unfold zlen. rewrite Nat2Z.id, insert_app_r_alt, Nat.sub_diag by lia. destruct m as [|m]; [lia|]. cbn. by rewrite Nat.sub_0_r, <-app_assoc.
Qed.

(** The others are dealt to [p1] until it is full, then to [p2]. *)
Lemma deal_all (l : Z) (k1 k2 : nat) (before todo : list Z) :
  (length (filter (λ i, i ≠ l) (before ++ todo)) <= k1 + k2)%nat →
  let dealt xs := (take k1 xs ++ replicate (k1 - length xs) 0, drop k1 xs ++ replicate (k2 - (length xs - k1)) 0, zlen xs) in
  foldl (deal l) (Some (dealt (filter (λ i, i ≠ l) before))) todo = Some (dealt (filter (λ i, i ≠ l) (before ++ todo))).
Proof.
  intros Hlen dealt. revert before Hlen. induction todo as [|i todo IH]; intros before Hlen; [by rewrite app_nil_r|].
  cbn [foldl]. rewrite (app_assoc before [i] todo : before ++ i :: todo = _) in *.
  rewrite <-IH by done. f_equal. rewrite !filter_app in *. set (xs := filter _ before) in *. unfold deal at 1. cbn [mbind option_bind dealt].
  rewrite !length_app in Hlen. rewrite filter_cons in *. destruct (Z.eqb_spec i l) as [->|Hne]; cbn [negb].
  { rewrite decide_False by naive_solver. rewrite filter_nil, app_nil_r. done. }
  rewrite decide_True in * by done. rewrite filter_nil in *. cbn [length] in Hlen. unfold dealt. rewrite !length_app. cbn [length].
  assert (zlen (take k1 xs ++ replicate (k1 - length xs) 0) = Z.of_nat k1) as Hk1.
  { unfold zlen. rewrite length_app, length_take, length_replicate. lia. }
  rewrite Hk1, zlen_app. change (zlen [i]) with 1. destruct (Z.ltb_spec (zlen xs) (Z.of_nat k1)) as [Hlt|Hge]; [unfold zlen in Hlt|unfold zlen in Hge].
  - rewrite !take_ge, !drop_ge by (rewrite ?length_app; cbn; lia). rewrite replicate_store by (done || lia). cbn [mbind option_bind].
    replace (k1 - length xs - 1)%nat with (k1 - (length xs + 1))%nat by lia. by replace (length xs + 1 - k1)%nat with (length xs - k1)%nat by lia.
  - rewrite take_app_le, drop_app_le by lia. replace (k1 - length xs)%nat with 0%nat by lia. replace (k1 - (length xs + 1))%nat with 0%nat by lia.
    rewrite replicate_store by (rewrite ?length_drop; unfold zlen; rewrite ?length_drop; lia).
    cbn [mbind option_bind]. by replace (k2 - (length xs - k1) - 1)%nat with (k2 - (length xs + 1 - k1))%nat by lia.
Qed.

Lemma others_perm (l m : Z) : 0 <= l < m → filter (λ i, i ≠ l) (upto m) ++ [l] ≡ₚ upto m.
Proof.
  intros Hl. apply NoDup_Permutation; [|apply upto_NoDup|].
  - apply NoDup_app. split_and!; [apply NoDup_filter, upto_NoDup| |apply NoDup_singleton]. intros x [Hx _]%list_elem_of_filter. by rewrite list_elem_of_singleton.
  - intros x. rewrite elem_of_app, list_elem_of_filter, list_elem_of_singleton, upto_elem. destruct (decide (x = l)); [subst|]; naive_solver.
Qed.

Lemma dealOut_odd m l : 1 <= m → 0 <= l < 2 * m + 1 →
  ∃ p1 p2, dealOut (2 * m + 1) l = Some (p1, p2) ∧ p1 ++ p2 ≡ₚ upto (2 * m + 1) ∧ zlen p1 = m + 1 ∧ zlen p2 = m ∧ l ∈ p2.
Proof.
  intros Hm Hl. unfold dealOut. set (os := filter (λ i, i ≠ l) (upto (2 * m + 1))).
  assert (length os = Z.to_nat (2 * m)) as Hos.
  { pose proof (Permutation_length (others_perm l (2 * m + 1) ltac:(lia))) as HP. rewrite length_app, upto_length in HP. fold os in HP. cbn in HP. lia. }
  replace (Z.quot (2 * m + 1) 2) with m by (rewrite Z.quot_div_nonneg by lia; apply (Z.div_unique _ 2 m 1); lia).
  pose proof (deal_all l (Z.to_nat (m + 1)) (Z.to_nat m) [] (upto (2 * m + 1))) as HD. fold os in HD. cbv zeta in HD.
  rewrite filter_nil, take_nil, drop_nil in HD. change (zlen []) with 0 in HD. cbn [length app] in HD. rewrite !Nat.sub_0_r in HD.
  rewrite HD by (fold os; lia). clear HD. fold os. cbn [mbind option_bind].
  replace (Z.to_nat (m + 1) - length os)%nat with 0%nat by lia. replace (Z.to_nat m - (length os - Z.to_nat (m + 1)))%nat with 1%nat by lia.
  assert (zlen (drop (Z.to_nat (m + 1)) os) = m - 1) as Hd by (unfold zlen; rewrite length_drop; lia).
  rewrite replicate_store by (rewrite ?zlen_app, ?Hd; change (zlen (replicate 1 0)) with 1; lia). cbn [mbind option_bind replicate Nat.sub]. rewrite !app_nil_r.
  do 2 eexists. split_and!; [reflexivity| | | |].
  - rewrite app_assoc, take_drop. apply others_perm. lia.
  - unfold zlen. rewrite length_take. lia.
  - rewrite zlen_app, Hd. change (zlen [l]) with 1. lia.
  - apply elem_of_app. right. by apply list_elem_of_singleton.
Qed.

Lemma make_partition_odd m states : 1 <= m → None ∉ states → zlen states = 2 * m + 1 →
  ∃ b l p1 p2, Leader states = Some (b, l) ∧ make_partition (2 * m + 1) states = Some (p1, p2) ∧
    p1 ++ p2 ≡ₚ upto (2 * m + 1) ∧ zlen p1 = m + 1 ∧ zlen p2 = m ∧ l ∈ p2 ∧
    (Some true ∈ states → index states l = Some (Some true)).
Proof.
  intros Hm Hn Hlen. destruct (Leader_spec states Hn) as (b & l & HL & Hl & Ht); [intros ->; change (zlen []) with 0 in Hlen; lia|].
  destruct (dealOut_odd m l Hm) as (p1 & p2 & HD & ? & ? & ? & ?); [lia|]. exists b, l, p1, p2. unfold make_partition. rewrite HL. cbn [mbind option_bind].
  rewrite HD. done.
Qed.

(** ** What the tests do *)

Inductive Action :=
  | AConnect (i : Z) (to : list Z) | ADisconnect (i : Z) (from : list Z) | AConnectAll | APartition (p1 p2 : list Z)
  | AClient (ck : nat) (names : list string) (rand : Z → Z) (to : list Z) | ADelete (ck : nat)
  | AConnectClient (ck : nat) (to : list Z) | ADisconnectClient (ck : nat) (from : list Z)
  | AShutdown (i : Z) | AStart (i : Z) (names : list string) (srv : nat).

Definition act (a : Action) (cfg : config) : option config :=
  match a with
  | AConnect i to => connectUnlocked i to cfg
  | ADisconnect i from => disconnectUnlocked i from cfg
  | AConnectAll => ConnectAll cfg
  | APartition p1 p2 => partition p1 p2 cfg
  | AClient ck names rand to => fst <$> makeClient ck names rand to cfg
  | ADelete ck => Some (deleteClient ck cfg)
  | AConnectClient ck to => ConnectClient ck to cfg
  | ADisconnectClient ck from => DisconnectClient ck from cfg
  | AShutdown i => ShutdownServer i cfg
  | AStart i names srv => StartServer i names srv cfg
  end.

Definition fresh (cfg : config) (names : list string) : Prop :=
  zlen names = n cfg ∧ NoDup names ∧ ∀ s, s ∈ names → NStr s ∉ ends (net cfg).

(** Servers are numbered up to [n], lists of servers name each once, clerks are
    known, and the random strings and clerks are new ones. *)
Definition sensible (cfg : config) (a : Action) : Prop :=
  match a with
  | AConnect i l | ADisconnect i l => 0 <= i < n cfg ∧ inRange cfg l ∧ NoDup l
  | AConnectAll | ADelete _ => True
  | APartition p1 p2 => inRange cfg (p1 ++ p2) ∧ NoDup (p1 ++ p2)
  | AClient ck names rand to => clerks cfg !! ck = None ∧ fresh cfg names ∧ (∀ i, 0 <= i → 0 <= rand i <= i) ∧ inRange cfg to
  | AConnectClient ck l | ADisconnectClient ck l => is_Some (clerks cfg !! ck) ∧ inRange cfg l
  | AShutdown i => 0 <= i < n cfg
  | AStart i names _ => 0 <= i < n cfg ∧ fresh cfg names
  end.

Inductive acted : config → config → Prop :=
  | acted_refl cfg : acted cfg cfg
  | acted_step a cfg cfg' cfg'' : sensible cfg a → act a cfg = Some cfg' → acted cfg' cfg'' → acted cfg cfg''.

Lemma swap_perm {A} (l : list A) i j x y : index l i = Some x → index l j = Some y →
  ∃ l', (l1 ← store l i y; store l1 j x) = Some l' ∧ l' ≡ₚ l.
Proof.
  intros [Hi Hx]%index_Some [Hj Hy]%index_Some. pose proof (lookup_lt_Some _ _ _ Hx). pose proof (lookup_lt_Some _ _ _ Hy).
  rewrite store_is_Some by (unfold zlen; lia). cbn [mbind option_bind]. rewrite store_is_Some by (unfold zlen; rewrite length_insert; lia).
  eexists. split; [reflexivity|]. by apply Permutation_insert_swap.
Qed.

Lemma random_handles_perm {A} (rand : Z → Z) (kvh : list A) : (∀ i, 0 <= i → 0 <= rand i <= i) →
  ∃ sa, random_handles rand kvh = Some sa ∧ sa ≡ₚ kvh.
Proof.
  intros Hr. unfold random_handles. set (f := λ acc i, _).
  assert (∀ todo sa, (∀ i, i ∈ todo → 0 <= i < zlen kvh) → sa ≡ₚ kvh → ∃ sa', foldl f (Some sa) todo = Some sa' ∧ sa' ≡ₚ kvh) as H.
  { induction todo as [|i todo IH]; intros sa Ht HP; [by exists sa|]. cbn [foldl]. assert (zlen sa = zlen kvh) as Hz by (unfold zlen; by rewrite HP).
    destruct (index_is_Some sa i) as [x Hx]; [rewrite Hz; apply Ht; by left|]. pose proof (index_lt _ _ _ Hx). pose proof (Hr i).
    destruct (index_is_Some sa (rand i)) as [y Hy]; [lia|]. destruct (swap_perm sa i (rand i) x y Hx Hy) as (sa' & Hs & HP').
    unfold f at 2. cbn [mbind option_bind]. rewrite Hx. cbn [mbind option_bind]. rewrite Hy. cbn [mbind option_bind] in *. rewrite Hs.
    apply IH; [intros k Hk; apply Ht; by right|by rewrite HP']. }
  apply H; [intros i; apply upto_elem|done].
Qed.

Lemma enableClient_spec cfg b ck to es : wired cfg → clerks cfg !! ck = Some es → inRange cfg to →
  ∃ cfg', enableClient b ck to cfg = Some cfg' ∧ rewired cfg cfg' ∧ (∀ a b, link cfg' a b ↔ link cfg a b) ∧
    ∀ ck' j, clink cfg' ck' j ↔ if decide (ck' = ck ∧ j ∈ to) then b = true else clink cfg ck' j.
Proof.
  intros W Hck Hto. destruct (wi_clerks _ W _ _ Hck) as [Hlen Hes]. unfold enableClient. rewrite Hck. change (default [] (Some es)) with es.
  set (f := λ acc j, _). set (named (to : list Z) e := ∃ j s, j ∈ to ∧ index es j = Some s ∧ e = NStr s).
  assert (∃ m, foldl f (Some (net cfg)) to = Some ((net cfg) <| enabled := m |>) ∧
    ∀ e, on ((net cfg) <| enabled := m |>) e ↔ (b = true ∧ named to e) ∨ (on (net cfg) e ∧ ¬ named to e)) as (m & HF & Hm).
  { induction to as [|j to IH] using rev_ind.
    { exists (enabled (net cfg)). split; [by destruct (net cfg)|]. intros e.
      change (on ((net cfg) <| enabled := enabled (net cfg) |>) e) with (on (net cfg) e).
      assert (¬ named [] e) by (by intros (? & ? & ?%elem_of_nil & _)). tauto. }
    destruct IH as (m & HF & Hm); [intros i Hi; apply Hto, elem_of_app; by left|]. destruct (index_is_Some es j) as [s Hs]; [rewrite Hlen; apply Hto; set_solver|].
    exists (<[NStr s := b]> m). rewrite foldl_app, HF. cbn [foldl f mbind option_bind]. rewrite Hs. split; [done|]. intros e.
    assert (on ((net cfg) <| enabled := <[NStr s := b]> m |>) e ↔ (e = NStr s ∧ b = true) ∨ (e ≠ NStr s ∧ on ((net cfg) <| enabled := m |>) e)) as ->.
    { unfold on, getz. cbn. destruct (decide (e = NStr s)) as [->|Hne]; [rewrite lookup_insert_eq; cbn; naive_solver|]. rewrite lookup_insert_ne by done. naive_solver. }
    assert (named (to ++ [j]) e ↔ e = NStr s ∨ named to e) as ->.
    { unfold named. setoid_rewrite elem_of_app. setoid_rewrite list_elem_of_singleton. split.
      - intros (j' & s' & [Hj'| ->] & Hs' & ->); [right; eauto|left; congruence].
      - intros [->|(j' & s' & ? & ? & ?)]; [exists j, s; auto|exists j', s'; auto]. }
    rewrite Hm. destruct (decide (e = NStr s)); tauto. }
  rewrite HF. cbn [mbind option_bind]. eexists. split_and!; [reflexivity|by eexists| |].
  - intros x y. unfold link. cbn [endnames]. change (net (cfg <| net := ?a |>)) with a.
    assert (∀ s, endname (endnames cfg) x y = Some s → on ((net cfg) <| enabled := m |>) (NStr s) ↔ on (net cfg) (NStr s)) as Hsame; [|naive_solver].
    intros s Hs. rewrite Hm. assert (¬ named to (NStr s)) as Hn; [|tauto].
    intros (j & s' & _ & Hj & [= <-]). destruct (Hes _ _ Hj) as (_ & _ & Hx & _). by apply Hx in Hs.
  - intros ck' j. unfold clink. cbn [clerks]. change (net (cfg <| net := ?a |>)) with a. case_decide as Hd.
    + destruct Hd as [-> Hj]. destruct (index_is_Some es j) as [s Hs]; [rewrite Hlen; by apply Hto|].
      assert (on ((net cfg) <| enabled := m |>) (NStr s) ↔ b = true) as Hb.
      { rewrite Hm. assert (named to (NStr s)) by (exists j, s; auto). tauto. }
      split; [intros (es' & s' & Hes' & Hs' & Hon); apply Hb; assert (Some es' = Some es) as [= ->] by (rewrite <-Hck; symmetry; exact Hes'); congruence|intros Hbt; exists es, s; split_and!; [done..|by apply Hb]].
    + assert (∀ es' s, clerks cfg !! ck' = Some es' → index es' j = Some s → on ((net cfg) <| enabled := m |>) (NStr s) ↔ on (net cfg) (NStr s)) as Hsame; [|naive_solver].
      intros es' s Hck' Hs. rewrite Hm. assert (¬ named to (NStr s)) as Hn; [|tauto].
      intros (j' & s' & Hin & Hj & [= <-]). destruct (Hes _ _ Hj) as (_ & _ & _ & Hu). destruct (Hu _ _ _ Hck' Hs) as [-> ->]. naive_solver.
Qed.

(** New end points do not touch the old ones. *)
Lemma newEnds cfg names : wired cfg → fresh cfg names →
  ∃ rn, makeEnds NInt names (net cfg) = Some rn ∧ wired (cfg <| net := rn |>) ∧
    (∀ a b s, endname (endnames cfg) a b = Some s → s ∉ names) ∧
    (∀ ck es s, clerks cfg !! ck = Some es → s ∈ es → s ∉ names) ∧
    ∀ j s, index names j = Some s → NStr s ∈ ends rn ∧ connections rn !! NStr s = Some (Some (NInt j)).
Proof.
  intros W (Hlen & HN & Hf). destruct (makeEnds_spec NInt names (net cfg) HN Hf) as (rn & Hrn & _ & HE & _ & HC & HC').
  assert (∀ s, NStr s ∈ ends (net cfg) → NStr s ∉ NStr <$> names) as Hold by (intros s Hs (x & [= <-] & Hx)%list_elem_of_fmap; by apply (Hf s)).
  destruct W as [W1 W2 W3 W4 W5]. exists rn. split_and!; [done|split; try done| | |].
  - intros i j s Hs. destruct (W4 _ _ _ Hs) as [He Hc]. cbn. rewrite HE, HC' by auto. split; [set_solver|done].
  - intros ck es Hck. destruct (W5 _ _ Hck) as [Hl Hes]. split; [done|]. intros j s Hs. destruct (Hes _ _ Hs) as (He & Hc & Hrest).
    cbn. rewrite HE, HC' by auto. split_and!; [set_solver|done|apply Hrest..].
  - intros a b s Hs Hin. by apply (Hf s Hin), (W4 a b).
  - intros ck es s Hck (j & Hj)%list_elem_of_lookup Hin. apply (Hf s Hin). destruct (W5 _ _ Hck) as [_ Hes].
    apply (Hes (Z.of_nat j)). by rewrite index_lookup, Nat2Z.id by lia.
  - intros j s Hs. split; [|by apply HC]. rewrite HE, elem_of_union, elem_of_list_to_set, list_elem_of_fmap. left. apply index_elem_of in Hs. eauto.
Qed.

Lemma makeClient_wired cfg ck names rand to : wired cfg → sensible cfg (AClient ck names rand to) →
  ∃ cfg' handles, makeClient ck names rand to cfg = Some (cfg', handles) ∧ wired cfg' ∧ endnames cfg' = endnames cfg ∧ n cfg' = n cfg ∧
    handles ≡ₚ names ∧ ∀ j, clink cfg' ck j → j ∈ to.
Proof.
  intros W (Hck & Hf & Hr & Hto). destruct (newEnds cfg names W Hf) as (rn & Hrn & W1 & Hno & Hnc & Hnew). destruct Hf as (Hlen & HN & Hf').
  destruct (random_handles_perm rand names Hr) as (sa & Hsa & HP). unfold makeClient. rewrite Hrn. cbn [mbind option_bind]. rewrite Hsa. cbn [mbind option_bind].
  set (cfg1 := cfg <| net := rn |> <| clerks := <[ck := names]> (clerks cfg) |> <| nextClientId := nextClientId cfg + 1 |>).
  assert (wired cfg1) as W2.
  { destruct W1 as [V1 V2 V3 V4 V5]. split; try done. intros ck' es. unfold cfg1. cbn. intros [[<- <-]|[Hne Hes]]%lookup_insert_Some.
    - split; [done|]. intros j s Hs. destruct (Hnew _ _ Hs) as [? ?]. split_and!; [done..| |].
      + intros a b Hab. by eapply (Hno _ _ _ Hab), index_elem_of.
      + intros ck' es' j' [[<- <-]|[_ Hes']]%lookup_insert_Some Hj'; [split; [done|by eapply index_unique]|].
        exfalso. by eapply (Hnc ck' es' s); [|eapply index_elem_of..].
    - destruct (V5 _ _ Hes) as [? Hx]. split; [done|]. intros j s Hs. destruct (Hx _ _ Hs) as (? & ? & ? & Hu). split_and!; [done..|].
      intros ck'' es' j' [[<- <-]|[_ Hes']]%lookup_insert_Some Hj'; [|by eapply Hu]. exfalso. by eapply (Hnc ck' es s); [|eapply index_elem_of..]. }
  destruct (enableClient_spec cfg1 true ck to names W2) as (cfg2 & HE & Hrw & _ & HC); [by apply lookup_insert_eq|done|].
  unfold ConnectClient. rewrite HE. cbn [mbind option_bind]. exists cfg2, sa. split_and!; [done|by eapply rewired_wired|by destruct Hrw as [m ->]..|done|].
  intros j. rewrite HC. case_decide as Hd; [naive_solver|]. intros (es & s & Hes & Hs & Hon). exfalso.
  unfold cfg1 in Hes. cbn in Hes. rewrite lookup_insert_eq in Hes. injection Hes as <-.
  destruct (makeEnds_spec NInt names (net cfg) HN Hf') as (rn' & Hrn' & _ & _ & Ho & _). simplify_eq. apply Ho in Hon as [_ Hon]. apply Hon, list_elem_of_fmap.
  apply index_elem_of in Hs. eauto.
Qed.

Lemma Copy_same p : Copy p = p.
Proof. by destruct p. Qed.

Definition keepsSaved (cfg cfg' : config) : Prop :=
  ∀ k p, index (saved cfg) k = Some (Some p) → index (saved cfg') k = Some (Some p).

Lemma ShutdownServer_spec cfg i : wired cfg → allStarted cfg → 0 <= i < n cfg →
  ∃ cfg', ShutdownServer i cfg = Some cfg' ∧ wired cfg' ∧ endnames cfg' = endnames cfg ∧ n cfg' = n cfg ∧ saved cfg' = saved cfg ∧
    (∀ a b, link cfg' a b ↔ link cfg a b ∧ a ≠ i ∧ b ≠ i) ∧ getz None (servers (net cfg')) (NInt i) = None.
Proof.
  intros W A Hi. unfold ShutdownServer. assert (zlen (All cfg) = n cfg) as HAll by (unfold zlen, All; rewrite upto_length; lia).
  destruct (disconnectUnlocked_spec cfg i (All cfg)) as (cfg1 & -> & [m ->] & HL & _); [done..|intros k; unfold All; by rewrite upto_elem|lia|].
  cbn [mbind option_bind]. set (cfg1 := cfg <| net := _ |>). destruct (wi_sizes _ W) as (Hep & Hsv & Hkv).
  change (saved (cfg1 <| net := _ |>)) with (saved cfg). change (kvservers (cfg1 <| net := _ |>)) with (kvservers cfg).
  destruct (index_is_Some (saved cfg) i) as [p Hp]; [lia|]. rewrite Hp. cbn [mbind option_bind].
  rewrite (store_is_Some (saved cfg)) by lia. cbn [mbind option_bind]. rewrite (store_is_Some (kvservers cfg)) by lia. cbn [mbind option_bind].
  assert (Copy <$> p = p) as -> by (destruct p; cbn; [by rewrite Copy_same|done]). apply index_Some in Hp as [_ Hp]. rewrite (list_insert_id (saved cfg)) by done.
  eexists. split_and!; [reflexivity| |done..| |].
  - destruct W as [W1 W2 W3 W4 W5]. split; try done. cbn. by rewrite zlen_insert.
  - intros a b. etransitivity; [apply HL|]. unfold All. rewrite !upto_elem. split; [|naive_solver].
    intros ((s & Hs & Hon) & H1 & H2). pose proof Hs as (es & Hes & Hb)%endname_Some. pose proof (wi_width _ W _ _ Hes). apply index_lt in Hes, Hb.
    split; [by exists s|]. split; intros ->; [apply H1|apply H2]; lia.
  - unfold getz. cbn. by rewrite lookup_insert_eq.
Qed.

Lemma StartServer_spec cfg i names srv : wired cfg → 0 <= i < n cfg → fresh cfg names →
  ∃ cfg', StartServer i names srv cfg = Some cfg' ∧ wired cfg' ∧ n cfg' = n cfg ∧ keepsSaved cfg cfg' ∧
    (∀ k, started (endnames cfg') k ↔ k = i ∨ started (endnames cfg) k) ∧ ends (net cfg') = list_to_set (NStr <$> names) ∪ ends (net cfg).
Proof.
  intros W Hi Hf. destruct (newEnds cfg names W Hf) as (rn & Hrn & W1 & Hno & Hnc & Hnew). destruct Hf as (Hlen & HN & Hf').
  destruct (wi_sizes _ W) as (Hep & Hsv & Hkv). unfold StartServer. pose proof (store_is_Some (endnames cfg) i (Some names) ltac:(lia)) as Hst.
  rewrite Hst. cbn [mbind option_bind]. rewrite Hrn. cbn [mbind option_bind]. destruct (index_is_Some (saved cfg) i) as [p Hp]; [lia|]. rewrite Hp. cbn [mbind option_bind].
  pose proof (store_is_Some (saved cfg) i (Some (match p with Some p => Copy p | None => MakePersister end)) ltac:(lia)) as Hss. rewrite Hss. cbn [mbind option_bind].
  rewrite (store_is_Some (kvservers cfg)) by lia. cbn [mbind option_bind].
  pose proof (endname_store _ _ _ _ Hst) as He. eexists. split_and!; [reflexivity| |done| | |].
  - destruct W1 as [V1 V2 V3 V4 V5]. split.
    + cbn. by rewrite !zlen_insert.
    + intros k es. cbn. destruct (decide (k = i)) as [->|Hne]; [rewrite index_insert_eq by lia; congruence|rewrite index_insert_ne by (done || lia); apply V2].
    + intros a b a' b' s. cbn. rewrite !He. repeat case_decide; intros Ha Hb; subst; [split; [done|by eapply index_unique]|exfalso..|by eapply V3].
      * by eapply Hno, index_elem_of.
      * by eapply Hno, index_elem_of.
    + intros a b s. cbn. rewrite He. case_decide; [apply Hnew|apply V4].
    + intros ck es Hck. destruct (V5 _ _ Hck) as [? Hx]. split; [done|]. intros j s Hs. destruct (Hx _ _ Hs) as (? & ? & Hy & ?). split_and!; [done..| |done].
      intros a b. cbn. rewrite He. case_decide; [|apply Hy]. intros Hab. by eapply (Hnc ck es s); [|eapply index_elem_of..].
  - intros k q. cbn. eapply saved_store; [exact Hss|]. intros q' Hq. assert (p = Some q') as -> by congruence. apply Copy_same.
  - cbn. by apply (started_store _ _ _ _ Hst).
  - destruct (makeEnds_spec NInt names (net cfg) HN Hf') as (rn' & Hrn' & _ & HE & _). cbn. congruence.
Qed.

Lemma kv_act_wired cfg a : wired cfg → allStarted cfg → 0 <= n cfg → sensible cfg a →
  ∃ cfg', act a cfg = Some cfg' ∧ wired cfg' ∧ allStarted cfg' ∧ n cfg' = n cfg ∧ keepsSaved cfg cfg'.
Proof.
  intros W A Hn Hs. assert (∀ cfg', rewired cfg cfg' → wired cfg' ∧ allStarted cfg' ∧ n cfg' = n cfg ∧ keepsSaved cfg cfg') as Hrw.
  { intros cfg' Hr. split_and!; [by eapply rewired_wired|by eapply rewired_started|by apply rewired_n|destruct Hr as [m ->]; by intros k p]. }
  destruct a as [i to|i from| |p1 p2|ck names rand to|ck|ck to|ck from|i|i names srv]; cbn [act sensible] in *.
  - destruct Hs as (Hi & Hto & _). destruct (connectUnlocked_spec cfg i to W A Hi Hto) as (cfg' & -> & Hr & _). eauto.
  - destruct Hs as (Hi & Hto & HN). destruct (disconnectUnlocked_spec cfg i from W A Hi Hto) as (cfg' & -> & Hr & _); [by apply distinct_short|eauto].
  - destruct (ConnectAll_spec cfg W A) as (cfg' & -> & Hr & _). eauto.
  - destruct Hs as [Hr HN]. destruct (partition_spec cfg p1 p2 W A Hn Hr HN) as (cfg' & -> & Hr' & _). eauto.
  - destruct (makeClient_wired cfg ck names rand to W Hs) as (cfg' & h & HM & W' & He & Hn' & _). rewrite HM. exists cfg'. split_and!; [done..| |done|].
    + intros i. rewrite Hn', He. apply A.
    + unfold makeClient in HM. inv_bind HM. inv_bind HM. inv_bind HM. injection HM as <- <-. unfold ConnectClient, enableClient in E1. inv_bind E1. injection E1 as <-. by intros k p.
  - exists (deleteClient ck cfg). split_and!; [done| |done..|by intros k p]. destruct W as [W1 W2 W3 W4 W5]. split; try done.
    intros ck' es. cbn. intros [_ Hes]%lookup_delete_Some. destruct (W5 _ _ Hes) as [? Hx]. split; [done|]. intros j s Hj.
    destruct (Hx _ _ Hj) as (? & ? & ? & Hu). split_and!; [done..|]. intros ck'' es' j' [_ ?]%lookup_delete_Some. by apply Hu.
  - destruct Hs as [[es Hes] Hto]. destruct (enableClient_spec cfg true ck to es W Hes Hto) as (cfg' & HE & Hr & _). unfold ConnectClient. rewrite HE. eauto.
  - destruct Hs as [[es Hes] Hto]. destruct (enableClient_spec cfg false ck from es W Hes Hto) as (cfg' & HE & Hr & _). unfold DisconnectClient. rewrite HE. eauto.
  - destruct (ShutdownServer_spec cfg i W A Hs) as (cfg' & -> & W' & He & Hn' & Hsv & _). exists cfg'. split_and!; [done..| |done|intros k p; by rewrite Hsv].
    intros k. rewrite Hn', He. apply A.
  - destruct Hs as [Hi Hf]. destruct (StartServer_spec cfg i names srv W Hi Hf) as (cfg' & -> & W' & Hn' & Hk & Hst & _). exists cfg'. split_and!; [done..| |done|done].
    intros k. rewrite Hn', Hst. auto.
Qed.

Lemma kv_acted_wired cfg cfg' : acted cfg cfg' → wired cfg → allStarted cfg → 0 <= n cfg → wired cfg' ∧ allStarted cfg' ∧ n cfg' = n cfg.
Proof.
  induction 1 as [|a cfg cfg1 cfg2 Hs Ha _ IH]; [done|]. intros W A Hn. destruct (kv_act_wired cfg a W A Hn Hs) as (cfg1' & Ha' & W' & A' & Hn' & _).
  assert (cfg1' = cfg1) as -> by congruence. rewrite <-Hn'. apply IH; [done..|lia].
Qed.

Lemma kv_config0_wired size maxraftstate : 0 <= size → wired (config0 size maxraftstate).
Proof.
  intros Hs. assert (∀ i x, index (replicate (Z.to_nat size) None : Endnames) i = Some x → x = None) as Hnone.
  { intros i x [_ Hx]%index_Some. by apply lookup_replicate in Hx as [-> _]. }
  assert (∀ i j, endname (endnames (config0 size maxraftstate)) i j = None) as He.
  { intros i j. unfold endname. cbn. destruct (index _ i) as [o|] eqn:E; [|done]. by rewrite (Hnone _ _ E). }
  split; try (by intros; rewrite He in *).
  - cbn. unfold zlen. rewrite !length_replicate. lia.
  - intros i es Hes. by apply Hnone in Hes.
  - intros ck es Hck. cbn in Hck. by rewrite lookup_empty in Hck.
Qed.

Section make_config.
Context (size : Z) (unreliable : bool) (maxraft : Z) (names : Z → list string) (srv : Z → nat).
Hypothesis Hsize : 0 <= size.
Hypothesis Hlen : ∀ i, 0 <= i < size → zlen (names i) = size.
Hypothesis HN : NoDup (mjoin (names <$> upto size)).

(** [make_config] succeeds, with every server started and linked to every other. *)
Lemma kv_make_config_wired : ∃ cfg, make_config size unreliable maxraft names srv = Some cfg ∧ wired cfg ∧ allStarted cfg ∧ n cfg = size ∧
  ∀ a b, 0 <= a < size → 0 <= b < size → link cfg a b.
Proof.
  unfold make_config. destruct (fold_upto (λ acc i, cfg ← acc; StartServer i (names i) (srv i) cfg) Some (λ before cfg,
    wired cfg ∧ n cfg = size ∧ (∀ i, i ∈ before → started (endnames cfg) i) ∧ ends (net cfg) = list_to_set (NStr <$> mjoin (names <$> before)))
    size (config0 size maxraft)) as (cfg1 & -> & W & Hn & Hst & _).
  { split_and!; [by apply kv_config0_wired|done|intros ? []%elem_of_nil|done]. }
  { intros before i cfg Hi Hnew (after & Hu) (W & Hn & Hst & He). rewrite Hu, fmap_app, join_app in HN. cbn in HN. apply NoDup_app in HN as (_ & Hd & [HNi _]%NoDup_app).
    destruct (StartServer_spec cfg i (names i) (srv i) W) as (cfg' & HS & W' & Hn' & _ & Hst' & He'); [lia|split_and!; [rewrite Hn; by apply Hlen|done|]|].
    { intros s Hin. rewrite He, elem_of_list_to_set. intros (x & [= <-] & Hx)%list_elem_of_fmap. apply (Hd s Hx). apply elem_of_app. by left. }
    exists cfg'. split_and!; [done..|lia| |].
    - intros k [Hk| ->%list_elem_of_singleton]%elem_of_app; apply Hst'; [right; by apply Hst|by left].
    - rewrite He', He, fmap_app, join_app, fmap_app, list_to_set_app_L. cbn [fmap list_fmap mjoin list_join]. rewrite app_nil_r. set_solver. }
  cbn [mbind option_bind]. assert (allStarted cfg1) as A by (intros i Hi; apply Hst, upto_elem; lia).
  destruct (ConnectAll_spec cfg1 W A) as (cfg2 & -> & Hr & HL & _). cbn [mbind option_bind]. pose proof (rewired_n _ _ Hr) as Hn2.
  eexists. split_and!; [reflexivity| | |cbn; congruence|].
  - destruct (rewired_wired _ _ Hr W) as [W1 W2 W3 W4 W5]. by split.
  - exact (rewired_started _ _ Hr A).
  - intros a b Ha Hb. apply HL; lia.
Qed.
End make_config.

(** Partitioning with the leader in the minority.  After [make_config] and any
    sensible sequence of what the tests do, with an odd number of servers and all of
    them running, [make_partition] splits the servers into [p1] and [p2], [p1] larger
    by one, with the server [Leader] found in [p2] (a leader if any server says it is
    one); [partition] succeeds and leaves two servers linked exactly when they are on
    the same side, and the clerks' links as they were. *)
Theorem leader_in_minority size unreliable maxraft names srv cfg0 cfg states m :
  size = 2 * m + 1 → 1 <= m → (∀ i, 0 <= i < size → zlen (names i) = size) → NoDup (mjoin (names <$> upto size)) →
  make_config size unreliable maxraft names srv = Some cfg0 → acted cfg0 cfg → zlen states = size → None ∉ states →
  ∃ b l p1 p2 cfg', Leader states = Some (b, l) ∧ (Some true ∈ states → index states l = Some (Some true)) ∧
    make_partition (n cfg) states = Some (p1, p2) ∧ p1 ++ p2 ≡ₚ upto size ∧ zlen p1 = zlen p2 + 1 ∧ l ∈ p2 ∧
    partition p1 p2 cfg = Some cfg' ∧ (∀ a b, link cfg' a b ↔ (a ∈ p1 ∧ b ∈ p1) ∨ (a ∈ p2 ∧ b ∈ p2)) ∧
    ∀ ck j, clink cfg' ck j ↔ clink cfg ck j.
Proof.
  intros Hs Hm Hlen HN HM HA Hst Hnn. destruct (kv_make_config_wired size unreliable maxraft names srv ltac:(lia) Hlen HN) as (cfg1 & HM' & W0 & A0 & Hn0 & _).
  assert (cfg1 = cfg0) as -> by congruence. destruct (kv_acted_wired _ _ HA W0 A0 ltac:(lia)) as (W & A & Hn).
  destruct (make_partition_odd m states Hm Hnn ltac:(lia)) as (b & l & p1 & p2 & HL & HP & Hperm & H1 & H2 & Hl & Ht).
  assert (∀ x, x ∈ p1 ++ p2 ↔ 0 <= x < size) as Hall by (intros x; rewrite Hperm, upto_elem; lia).
  destruct (partition_spec cfg p1 p2 W A) as (cfg' & HE & Hr & HL' & HC); [lia|intros x; rewrite Hall; lia|rewrite Hperm; apply upto_NoDup|].
  exists b, l, p1, p2, cfg'. split_and!; [done..|by rewrite Hn, Hn0, Hs|by rewrite Hs|lia|done|done| |done].
  intros x y. rewrite HL'. split; [|tauto]. intros [?|[?|((s & (es & Hes & Hy)%endname_Some & _) & Hxy)]]; [tauto..|].
  pose proof (wi_width _ W _ _ Hes). pose proof (proj1 (wi_sizes _ W)). apply index_lt in Hes, Hy.
  pose proof (proj2 (Hall x) ltac:(lia)) as Hx%elem_of_app. pose proof (proj2 (Hall y) ltac:(lia)) as Hy'%elem_of_app. tauto.
Qed.

Module HarnessExamples.

Definition names3 (i : Z) : list string :=
  if i =? 0 then ["a0"; "a1"; "a2"]%string else if i =? 1 then ["b0"; "b1"; "b2"]%string else ["c0"; "c1"; "c2"]%string.

Lemma names3_distinct : NoDup (mjoin (names3 <$> upto 3)).
Proof.
  vm_compute. repeat (apply NoDup_cons; split; [rewrite ?not_elem_of_cons; split_and?; try discriminate; apply not_elem_of_nil|]). apply NoDup_nil. exact I.
Qed.

(** Three servers, server 2 was shut down and reconnected; server 1 leads. *)
Lemma leader_in_minority_witness :
  ∃ cfg0 cfg cfg', make_config 3 false (-1) names3 Z.to_nat = Some cfg0 ∧ (ShutdownServer 2 cfg0 ≫= ConnectAll) = Some cfg ∧
    partition [0; 2] [1] cfg = Some cfg' ∧ link cfg' 0 2 ∧ ¬ link cfg' 0 1 ∧ ¬ link cfg' 1 2.
Proof.
  assert (∀ i, 0 <= i < 3 → zlen (names3 i) = 3) as Hlen by (intros i _; unfold names3; destruct (i =? 0), (i =? 1); reflexivity).
  destruct (kv_make_config_wired 3 false (-1) names3 Z.to_nat ltac:(lia) Hlen names3_distinct) as (cfg0 & HM & W & A & Hn & _).
  destruct (kv_act_wired cfg0 (AShutdown 2) W A) as (cfg1 & HS & W1 & A1 & Hn1 & _); [lia|cbn; lia|].
  destruct (kv_act_wired cfg1 AConnectAll W1 A1) as (cfg2 & HC & W2 & A2 & Hn2 & _); [lia|exact I|].
  destruct (leader_in_minority 3 false (-1) names3 Z.to_nat cfg0 cfg2 [Some false; Some true; Some false] 1)
    as (b & l & p1 & p2 & cfg' & _ & _ & HP & _ & _ & _ & HE & HLK & _).
  - reflexivity.
  - lia.
  - exact Hlen.
  - exact names3_distinct.
  - exact HM.
  - eapply (acted_step (AShutdown 2)); [cbn; lia|exact HS|]. eapply (acted_step AConnectAll); [exact I|exact HC|apply acted_refl].
  - reflexivity.
  - intros Hin. rewrite !elem_of_cons in Hin. destruct Hin as [Hin|[Hin|[Hin|Hin]]]; [discriminate Hin..|by apply elem_of_nil in Hin].
  - replace (n cfg2) with 3 in HP by lia. change (make_partition 3 [Some false; Some true; Some false]) with (Some ([0; 2], [1])) in HP. injection HP as <- <-.
    exists cfg0, cfg2, cfg'. cbn in HS, HC. rewrite !HLK, HS. cbn. split_and!; [exact HM|exact HC|exact HE|..]; apply (bool_decide_unpack _); vm_compute; exact I.
Defined.

(** With an even number of servers a place of the smaller group keeps its zero. *)
Lemma make_partition_even : make_partition 4 [Some false; Some false; Some false; Some true] = Some ([0; 1; 2], [0; 3]).
Proof. reflexivity. Qed.

(** The guard of the second loop of [disconnectUnlocked] looks at another server. *)
Lemma disconnect_wrong_guard :
  disconnectUnlocked 0 [1] (mkConfig MakeNetwork 2 [true; false] [None; None] [Some ["a"; "b"]%string; None] ∅ 0 0) = None.
Proof. reflexivity. Qed.

End HarnessExamples.
