(* ===== verification/CtrlerHarness.v ===== *)
(** * The harness of the shardctrler tests ([shardctrler/config.go])

    The file repeats [kvraft/config.go]: the functions on the network, the clerks and
    the servers have the same text and are the same definitions here ([kvservers] is
    [servers] there, and [maxraftstate] does not exist).  [Leader] differs: it passes
    over a server that is shut down. *)

From S2P Require Import Prelude Persister LabRpc HarnessNet ServiceHarness.

Notation config := ServiceHarness.config.

Definition LogSize : config → option Z := ServiceHarness.LogSize.
Definition connectUnlocked : Z → list Z → config → option config := ServiceHarness.connectUnlocked.
Definition disconnectUnlocked : Z → list Z → config → option config := ServiceHarness.disconnectUnlocked.
Definition All : config → list Z := ServiceHarness.All.
Definition ConnectAll : config → option config := ServiceHarness.ConnectAll.
Definition partition : list Z → list Z → config → option config := ServiceHarness.partition.
Definition makeClient : nat → list string → (Z → Z) → list Z → config → option (config * list string) := ServiceHarness.makeClient.
Definition deleteClient : nat → config → config := ServiceHarness.deleteClient.
Definition ConnectClient : nat → list Z → config → option config := ServiceHarness.ConnectClient.
Definition DisconnectClient : nat → list Z → config → option config := ServiceHarness.DisconnectClient.
Definition ShutdownServer : Z → config → option config := ServiceHarness.ShutdownServer.
Definition StartServer : Z → list string → nat → config → option config := ServiceHarness.StartServer.
Definition make_config (size : Z) (unreliable : bool) : (Z → list string) → (Z → nat) → option config :=
  ServiceHarness.make_config size unreliable 0.

(** [None] is a server that is shut down. *)
Fixpoint leaderFrom (i : Z) (states : list (option bool)) : bool * Z :=
  match states with
  | [] => (false, 0)
  | Some true :: _ => (true, i)
  | _ :: states => leaderFrom (i + 1) states
  end.
Definition Leader (states : list (option bool)) : bool * Z := leaderFrom 0 states.

Definition make_partition (n : Z) (states : list (option bool)) : option (list Z * list Z) :=
  let '(_, l) := Leader states in dealOut n l.

(** ** The first server that says it leads *)

Lemma ctrler_leaderFrom_spec states k :
  match leaderFrom k states with
  | (true, l) => k <= l < k + zlen states ∧ index states (l - k) = Some (Some true) ∧ ∀ j, k <= j < l → index states (j - k) ≠ Some (Some true)
  | (false, l) => l = 0 ∧ Some true ∉ states
  end.
Proof.
  revert k. assert (∀ st states k, st ≠ Some true → (∀ k, match leaderFrom k states with
      | (true, l) => k <= l < k + zlen states ∧ index states (l - k) = Some (Some true) ∧ ∀ j, k <= j < l → index states (j - k) ≠ Some (Some true)
      | (false, l) => l = 0 ∧ Some true ∉ states end) →
    match leaderFrom (k + 1) states with
      | (true, l) => k <= l < k + zlen (st :: states) ∧ index (st :: states) (l - k) = Some (Some true) ∧ ∀ j, k <= j < l → index (st :: states) (j - k) ≠ Some (Some true)
      | (false, l) => l = 0 ∧ Some true ∉ st :: states end) as Hskip.
  { intros st sts k Hst IH. specialize (IH (k + 1)). assert (∀ j, k + 1 <= j → index (st :: sts) (j - k) = index sts (j - (k + 1))) as Hi.
    { intros j Hj. rewrite !index_lookup by lia. by replace (Z.to_nat (j - k)) with (S (Z.to_nat (j - (k + 1)))) by lia. }
    destruct (leaderFrom (k + 1) sts) as [[] l].
    - destruct IH as (Hl & Hs & Hf). rewrite zlen_cons, Hi by lia. split_and!; [lia..|done|]. intros j Hj. destruct (decide (j = k)) as [->|Hne].
      + rewrite Z.sub_diag. intros [_ Hx]%index_Some. change (Some st = Some (Some true)) in Hx. congruence.
      + rewrite Hi by lia. apply Hf. lia.
    - destruct IH as [-> Hf]. split; [done|]. apply not_elem_of_cons. split; congruence. }
  induction states as [|[[]|] states IH]; intros k; cbn [leaderFrom].
  - split; [done|]. by intros ?%elem_of_nil.
  - rewrite zlen_cons, Z.sub_diag. pose proof (zlen_nonneg states). split_and!; [lia..|done|lia].
  - by apply Hskip.
  - by apply Hskip.
Qed.

(** As long as some server runs and leads, the partition puts the first such server
    in the smaller group. *)
Lemma ctrler_make_partition m states : 1 <= m → zlen states = 2 * m + 1 → Some true ∈ states →
  ∃ l p1 p2, Leader states = (true, l) ∧ index states l = Some (Some true) ∧ make_partition (2 * m + 1) states = Some (p1, p2) ∧
    p1 ++ p2 ≡ₚ upto (2 * m + 1) ∧ zlen p1 = zlen p2 + 1 ∧ l ∈ p2.
Proof.
  intros Hm Hlen Hin. unfold make_partition, Leader. pose proof (ctrler_leaderFrom_spec states 0) as HL. destruct (leaderFrom 0 states) as [[] l]; [|by destruct HL as [_ ?]].
  destruct HL as (Hl & Hs & _). rewrite Z.sub_0_r in Hs. destruct (dealOut_odd m l Hm) as (p1 & p2 & -> & ? & ? & ? & ?); [lia|].
  exists l, p1, p2. split_and!; [done..|lia|done].
Qed.
