(* ===== verification/ShardHarness.v ===== *)
(** * The harness of the shardkv tests ([shardkv/config.go])

    Three controllers, three groups of [n] servers, and clerks, on one network.  Servers
    go by the names the controller's configurations list; every end point is enabled
    when it is made.  Random strings are arguments. *)

From stdpp Require Import pretty.
From S2P Require Import Prelude Persister LabRpc HarnessNet.

(** ** Names *)

(** [strconv.Itoa] is [pretty]. *)
Definition ctrlername (i : Z) : string := "ctrler" +:+ pretty i.
Definition servername (gid i : Z) : string := "server-" +:+ pretty gid +:+ "-" +:+ pretty i.

(** ** State *)

Record group := mkGroup {
  gid : Z;
  servers : list bool;              (* servers[i] is not nil *)
  saved : list (option Persister);
  endnames : Endnames;
  mendnames : Endnames;
}.

#[export] Instance eta_group : Eta group := λ g,
  mkGroup (gid g) (servers g) (saved g) (endnames g) (mendnames g).
#[export] Instance set_servers : Setter servers.
Proof. setter. Defined.
#[export] Instance set_saved : Setter saved.
Proof. setter. Defined.
#[export] Instance set_endnames : Setter endnames.
Proof. setter. Defined.
#[export] Instance set_mendnames : Setter mendnames.
Proof. setter. Defined.

Record config := mkConfig {
  net : Net;
  nctrlers : Z;
  ctrlerservers : list bool;        (* not nil *)
  ngroups : Z;
  n : Z;                            (* servers per k/v group *)
  groups : list (option group);
  clerks : gmap nat (list string);
  nextClientId : Z;
  maxraftstate : Z;
}.

#[export] Instance eta_config : Eta config := λ c,
  mkConfig (net c) (nctrlers c) (ctrlerservers c) (ngroups c) (n c) (groups c) (clerks c) (nextClientId c) (maxraftstate c).
#[export] Instance set_net : Setter net.
Proof. setter. Defined.
#[export] Instance set_ctrlerservers : Setter ctrlerservers.
Proof. setter. Defined.
#[export] Instance set_groups : Setter groups.
Proof. setter. Defined.
#[export] Instance set_clerks : Setter clerks.
Proof. setter. Defined.
#[export] Instance set_nextClientId : Setter nextClientId.
Proof. setter. Defined.

(** [cfg.groups[gi]]; nil is [None] too, since every use dereferences it. *)
Definition groupAt (gi : Z) (cfg : config) : option group := g ← index (groups cfg) gi; g.
Definition setGroup (gi : Z) (g : group) (cfg : config) : option config :=
  gs ← store (groups cfg) gi (Some g); Some (cfg <| groups := gs |>).

(** ** End points *)

(** [MakeEnd], [Connect], [Enable]: also what the closures given to [MakeClerk] and
    [StartServer] do. *)
Definition make_end (name : string) (servername : string) (rn : Net) : option Net :=
  rn ← MakeEnd (NStr name) rn; Some (Enable (NStr name) true (Connect (NStr name) (NStr servername) rn)).

(** A loop of it over the servers [0..len(names)-1]. *)
Definition make_ends (srvname : Z → string) (names : list string) (rn : Net) : option Net :=
  foldl (λ acc je, rn ← acc; make_end je.2 (srvname je.1) rn) (Some rn) (imap (λ j e, (Z.of_nat j, e)) names).

(** A loop that disables end points. *)
Definition disable (names : list string) (rn : Net) : Net :=
  foldl (λ rn s, Enable (NStr s) false rn) rn names.

(** ** Clerks *)

(** The slice of names has length [cfg.n] and takes [cfg.nctrlers] of them. *)
Definition makeClient (ck : nat) (names : list string) (cfg : config) : option config :=
  '(endnames, rn) ←
    foldl (λ acc je, '(es, rn) ← acc; es ← store es je.1 je.2; rn ← make_end je.2 (ctrlername je.1) rn; Some (es, rn))
      (Some (replicate (Z.to_nat (n cfg)) EmptyString, net cfg)) (imap (λ j e, (Z.of_nat j, e)) names);
  Some (cfg <| net := rn |> <| clerks := <[ck := endnames]> (clerks cfg) |> <| nextClientId := nextClientId cfg + 1 |>).

Definition deleteClient (ck : nat) (cfg : config) : config := cfg <| clerks := delete ck (clerks cfg) |>.

(** ** Servers *)

Definition ShutdownServer (gi i : Z) (cfg : config) : option config :=
  gg ← groupAt gi cfg;
  es ← mapM (λ j, endname (endnames gg) i j) (upto (zlen (servers gg)));
  ms ← index (mendnames gg) i;
  let rn := disable (default [] ms) (disable es (net cfg)) in
  let rn := DeleteServer (NStr (servername (gid gg) i)) rn in
  p ← index (saved gg) i;
  sv ← store (saved gg) i (Copy <$> p);
  kv ← store (servers gg) i false;
  setGroup gi (gg <| saved := sv |> <| servers := kv |>) (cfg <| net := rn |>).

Definition ShutdownGroup (gi : Z) (cfg : config) : option config :=
  foldl (λ acc i, cfg ← acc; ShutdownServer gi i cfg) (Some cfg) (upto (n cfg)).

(** [names] and [mnames]: the random strings; [srv]: the new server. *)
Definition StartServer (gi i : Z) (names mnames : list string) (srv : nat) (cfg : config) : option config :=
  gg ← groupAt gi cfg;
  eps ← store (endnames gg) i (Some names);
  rn ← make_ends (servername (gid gg)) names (net cfg);
  meps ← store (mendnames gg) i (Some mnames);
  rn ← make_ends ctrlername mnames rn;
  p ← index (saved gg) i;
  sv ← store (saved gg) i (Some (match p with Some p => Copy p | None => MakePersister end));
  kv ← store (servers gg) i true;
  setGroup gi (gg <| endnames := eps |> <| mendnames := meps |> <| saved := sv |> <| servers := kv |>)
    (cfg <| net := AddServer (NStr (servername (gid gg) i)) srv rn |>).

(** [fresh i]: the random strings and the server for server [i]. *)
Definition StartGroup (gi : Z) (fresh : Z → list string * list string * nat) (cfg : config) : option config :=
  foldl (λ acc i, cfg ← acc; let '(names, mnames, srv) := fresh i in StartServer gi i names mnames srv cfg) (Some cfg) (upto (n cfg)).

(** ** Controllers *)

Definition StartCtrlerserver (i : Z) (names : list string) (srv : nat) (cfg : config) : option config :=
  rn ← make_ends ctrlername names (net cfg);
  cs ← store (ctrlerservers cfg) i true;
  Some (cfg <| ctrlerservers := cs |> <| net := AddServer (NStr (ctrlername i)) srv rn |>).

Definition shardclerk (names : list string) (cfg : config) : option config :=
  rn ← make_ends ctrlername names (net cfg); Some (cfg <| net := rn |>).

(** What [mck.Join] and [mck.Leave] are called with. *)
Definition joinm (gis : list Z) (cfg : config) : option (gmap Z (list string)) :=
  foldl (λ acc g, m ← acc; gg ← groupAt g cfg; Some (<[gid gg := servername (gid gg) <$> upto (n cfg)]> m)) (Some ∅) gis.
Definition join (gi : Z) : config → option (gmap Z (list string)) := joinm [gi].
Definition leavem (gis : list Z) (cfg : config) : option (list Z) :=
  foldl (λ acc g, gids ← acc; gg ← groupAt g cfg; Some (gids ++ [gid gg])) (Some []) gis.
Definition leave (gi : Z) : config → option (list Z) := leavem [gi].

(** ** Checks and set-up *)

Inductive Verdict := Fine | StateTooBig (raft max : Z) | SnapshotNotEmpty.

(** The first complaint of [checklogs]; a nil persister panics. *)
Definition checkSaved (maxraftstate : Z) (p : Persister) : Verdict :=
  let raft := RaftStateSize p in
  let snap := zlen (ReadSnapshot p) in
  if (0 <=? maxraftstate) && (8 * maxraftstate <? raft) then StateTooBig raft maxraftstate
  else if (maxraftstate <? 0) && (0 <? snap) then SnapshotNotEmpty else Fine.

Fixpoint checkAll (cfg : config) (at_ : list (Z * Z)) : option Verdict :=
  match at_ with
  | [] => Some Fine
  | (gi, i) :: rest =>
    gg ← groupAt gi cfg; p ← index (saved gg) i; p ← p;
    match checkSaved (maxraftstate cfg) p with Fine => checkAll cfg rest | v => Some v end
  end.
Definition checklogs (cfg : config) : option Verdict :=
  checkAll cfg (gi ← upto (ngroups cfg); i ← upto (n cfg); [(gi, i)]).

Definition newGroup (size nctrlers gi : Z) : group :=
  mkGroup (100 + gi) (replicate (Z.to_nat size) false) (replicate (Z.to_nat size) None)
    (replicate (Z.to_nat size) None) (replicate (Z.to_nat nctrlers) None).

(** The first part of [make_config], to the controllers' clerk. *)
Definition startCtrlers (size maxraftstate : Z) (cnames : Z → list string) (csrv : Z → nat) (mck : list string) : option config :=
  let cfg := mkConfig MakeNetwork 3 (replicate 3 false) 3 size (replicate 3 None) ∅ (size + 1000) maxraftstate in
  cfg ← foldl (λ acc i, cfg ← acc; StartCtrlerserver i (cnames i) (csrv i) cfg) (Some cfg) (upto (nctrlers cfg));
  shardclerk mck cfg.

Definition make_config (size : Z) (unreliable : bool) (maxraftstate : Z) (cnames : Z → list string) (csrv : Z → nat) (mck : list string)
    (fresh : Z → Z → list string * list string * nat) : option config :=
  cfg ← startCtrlers size maxraftstate cnames csrv mck;
  cfg ← foldl (λ acc gi, cfg ← acc; cfg ← setGroup gi (newGroup (n cfg) (nctrlers cfg) gi) cfg; StartGroup gi (fresh gi) cfg)
          (Some cfg) (upto (ngroups cfg));
  Some (cfg <| net := Reliable (negb unreliable) (net cfg) |>).

(** ** Names are distinct *)

Fixpoint has (c : Ascii.ascii) (s : string) : Prop :=
  match s with EmptyString => False | String a s => a = c ∨ has c s end.

Definition dash : Ascii.ascii := Ascii.ascii_of_nat 45.

Lemma pretty_N_go_dash x s : ¬ has dash s → ¬ has dash (pretty_N_go x s).
Proof.
  revert s. induction (N.lt_wf_0 x) as [x _ IH]; intros s Hs. assert (x = 0 ∨ 0 < x)%N as [->|Hx] by lia; [by rewrite pretty_N_go_0|].
  rewrite pretty_N_go_step by done. apply IH; [by apply N.div_lt|]. intros [Hc|?]; [|done]. revert Hc. unfold pretty_N_char. by repeat case_match.
Qed.

Lemma pretty_dash (z : Z) : 0 <= z → ¬ has dash (pretty z).
Proof.
  destruct z as [|p|p]; [by intros _ [?|?]| |lia]. intros _. exact (pretty_N_go_dash (Npos p) EmptyString (λ H, H)).
Qed.

Lemma split_dash s1 s2 t1 t2 : ¬ has dash s1 → ¬ has dash s2 → s1 +:+ String dash t1 = s2 +:+ String dash t2 → s1 = s2 ∧ t1 = t2.
Proof.
  revert s2. induction s1 as [|a s1 IH]; intros [|b s2] H1 H2 Heq; cbn in *.
  - by injection Heq.
  - injection Heq as <- _. tauto.
  - injection Heq as -> _. tauto.
  - injection Heq as -> Heq. destruct (IH s2) as [-> ->]; tauto.
Qed.

Lemma servername_inj g i g' i' : 0 <= g → 0 <= g' → servername g i = servername g' i' → g = g' ∧ i = i'.
Proof.
  unfold servername. intros Hg Hg' Heq. cbn [String.app] in Heq. injection Heq as Heq.
  destruct (split_dash (pretty g) (pretty g') (pretty i) (pretty i')) as [?%(inj pretty) ?%(inj pretty)]; [by apply pretty_dash..|exact Heq|done].
Qed.

Lemma ctrlername_not_servername g i j : servername g i ≠ ctrlername j.
Proof. done. Qed.

(** ** The network underneath *)

(** [rn'] is [rn] with the new end points [names], the [j]-th leading to [to j]. *)
Definition opened (names : list string) (to : Z → string) (rn rn' : Net) : Prop :=
  NoDup names ∧ (∀ s, s ∈ names → NStr s ∉ ends rn) ∧ LabRpc.servers rn' = LabRpc.servers rn ∧
  (∀ e, e ∈ ends rn' ↔ e ∈ ends rn ∨ e ∈ NStr <$> names) ∧ (∀ e, on rn' e ↔ on rn e ∨ e ∈ NStr <$> names) ∧
  (∀ j s, index names j = Some s → connections rn' !! NStr s = Some (Some (NStr (to j)))) ∧
  (∀ e, e ∉ NStr <$> names → connections rn' !! e = connections rn !! e).

Lemma make_end_inv s srv rn rn' : make_end s srv rn = Some rn' →
  NStr s ∉ ends rn ∧ LabRpc.servers rn' = LabRpc.servers rn ∧ (∀ e, e ∈ ends rn' ↔ e ∈ ends rn ∨ e = NStr s) ∧
  (∀ e, on rn' e ↔ on rn e ∨ e = NStr s) ∧ connections rn' !! NStr s = Some (Some (NStr srv)) ∧
  (∀ e, e ≠ NStr s → connections rn' !! e = connections rn !! e).
Proof.
  unfold make_end, MakeEnd. case_decide as Hin; [done|]. cbn [mbind option_bind]. intros [= <-]. cbn. split_and!; [done..| | | |].
  - intros e. rewrite elem_of_union, elem_of_singleton. tauto.
  - intros e. unfold on, getz. cbn. destruct (decide (e = NStr s)) as [->|Hne].
    + rewrite lookup_insert_eq. naive_solver.
    + rewrite !lookup_insert_ne by done. naive_solver.
  - by rewrite lookup_insert_eq.
  - intros e Hne. by rewrite !lookup_insert_ne by done.
Qed.

Lemma make_ends_inv to names rn rn' : make_ends to names rn = Some rn' → opened names to rn rn'.
Proof.
  unfold make_ends. set (f := λ acc je, _).
  assert (∀ es, foldl f None es = None) as HNone by (induction es; [done|auto]).
  revert rn'. induction names as [|s names IH] using rev_ind; intros rn' HF.
  { cbn in HF. injection HF as <-. split_and!; [apply NoDup_nil; exact I|by intros ? ?%elem_of_nil|done|set_solver|intros e; rewrite elem_of_nil; tauto|by intros j s ?%index_elem_of%elem_of_nil|done]. }
  rewrite imap_app, foldl_app in HF. cbn [imap foldl] in HF. destruct (foldl f (Some rn) _) as [rn1|] eqn:E; [|done].
  destruct (IH rn1) as (HN & Hf & Hsv & HE & HO & HC & HC'); [done|]. cbn [f mbind option_bind fst snd] in HF.
  destruct (make_end_inv _ _ _ _ HF) as (Hs & Hsv' & HE' & HO' & Hc & Hc').
  assert (s ∉ names) as Hsn by (intros Hin; apply Hs, HE; right; by apply list_elem_of_fmap_2). rewrite HE in Hs. unfold opened.
  setoid_rewrite fmap_app. setoid_rewrite elem_of_app. setoid_rewrite list_elem_of_singleton. split_and!.
  - apply NoDup_app. split_and!; [done| |apply NoDup_singleton]. intros x Hx. rewrite list_elem_of_singleton. congruence.
  - intros x [Hx| ->]; [by apply Hf|tauto].
  - congruence.
  - intros e. rewrite HE', HE. tauto.
  - intros e. rewrite HO', HO. tauto.
  - intros j x Hx. destruct (decide (j < zlen names)) as [Hlt|Hge].
    + rewrite index_app_l in Hx by done. rewrite Hc'; [by apply HC|]. intros [= ->]. by apply index_elem_of in Hx.
    + rewrite index_app_r in Hx by lia. pose proof (index_lt _ _ _ Hx) as Hr. change (zlen [s]) with 1 in Hr.
      assert (j = Z.of_nat (length names + 0)) as -> by (unfold zlen in *; lia). replace (Z.of_nat (length names + 0) - zlen names) with 0 in Hx by (unfold zlen; lia).
      cbn in Hx. injection Hx as <-. exact Hc.
  - intros e He. rewrite Hc', HC'; [done|tauto|tauto].
Qed.

Lemma disable_spec names rn : ∃ m, disable names rn = rn <| enabled := m |> ∧ ∀ e, on (rn <| enabled := m |>) e ↔ on rn e ∧ e ∉ NStr <$> names.
Proof.
  unfold disable. revert rn. induction names as [|s names IH]; intros rn.
  { exists (enabled rn). split; [by destruct rn|]. intros e. change (on (rn <| enabled := enabled rn |>) e) with (on rn e). rewrite elem_of_nil. tauto. }
  destruct (IH (Enable (NStr s) false rn)) as (m & HF & Hm). exists m. split; [exact HF|]. intros e. specialize (Hm e).
  change (on ((Enable (NStr s) false rn) <| enabled := m |>) e) with (on (rn <| enabled := m |>) e) in Hm. rewrite Hm, fmap_cons, elem_of_cons.
  unfold on, getz, Enable. cbn. destruct (decide (e = NStr s)) as [->|Hne]; [rewrite lookup_insert_eq; cbn; naive_solver|rewrite lookup_insert_ne by done; naive_solver].
Qed.

(** ** Who can reach whom *)

Definition table (toCtrler : bool) (g : group) : Endnames := if toCtrler then mendnames g else endnames g.

(** [s] is the end point of server [i] of group [gi] to the [j]-th peer or controller. *)
Definition owns (cfg : config) (gi i : Z) (toCtrler : bool) (j : Z) (s : string) : Prop :=
  ∃ g, groupAt gi cfg = Some g ∧ endname (table toCtrler g) i j = Some s.

Definition running (cfg : config) (gi i : Z) : Prop := ∃ g, groupAt gi cfg = Some g ∧ index (servers g) i = Some true.

Record wired (cfg : config) : Prop := {
  wi_gid : ∀ gi g, groupAt gi cfg = Some g → gid g = 100 + gi ∧ 0 <= gi ∧ zlen (servers g) = n cfg;
  wi_sizes : ∀ gi g, groupAt gi cfg = Some g → zlen (endnames g) = n cfg ∧ zlen (saved g) = n cfg ∧ zlen (mendnames g) = nctrlers cfg;
  wi_width : ∀ gi i j s, owns cfg gi i false j s → 0 <= j < n cfg;
  wi_full : ∀ gi i j, running cfg gi i → 0 <= j < n cfg → ∃ s, owns cfg gi i false j s;
  wi_ends : ∀ gi i b j s, owns cfg gi i b j s → NStr s ∈ ends (net cfg);
  wi_unique : ∀ gi i b j gi' i' b' j' s, owns cfg gi i b j s → owns cfg gi' i' b' j' s → gi = gi' ∧ i = i' ∧ b = b' ∧ j = j';
  wi_conn : ∀ gi i b j s, owns cfg gi i b j s →
    connections (net cfg) !! NStr s = Some (Some (NStr (if b then ctrlername j else servername (100 + gi) j)));
  wi_on : ∀ gi i b j s, owns cfg gi i b j s → on (net cfg) (NStr s) ↔ running cfg gi i;
  wi_servers : ∀ gi i, 0 <= gi → is_Some (getz None (LabRpc.servers (net cfg)) (NStr (servername (100 + gi) i))) ↔ running cfg gi i;
}.

Lemma wired_ext cfg cfg' : groups cfg' = groups cfg → n cfg' = n cfg → nctrlers cfg' = nctrlers cfg →
  ends (net cfg') = ends (net cfg) → connections (net cfg') = connections (net cfg) → enabled (net cfg') = enabled (net cfg) →
  LabRpc.servers (net cfg') = LabRpc.servers (net cfg) → wired cfg → wired cfg'.
Proof.
  intros Hg Hn Hc H1 H2 H3 H4 [W1 WS W2 W3 W4 W5 W6 W7 W8].
  split; unfold owns, running, groupAt, on in *; rewrite ?Hg, ?Hn, ?Hc, ?H1, ?H2, ?H3, ?H4; assumption.
Qed.

Lemma setGroup_inv gi g cfg cfg' : setGroup gi g cfg = Some cfg' →
  0 <= gi < zlen (groups cfg) ∧ net cfg' = net cfg ∧ (n cfg' = n cfg ∧ nctrlers cfg' = nctrlers cfg) ∧ ∀ k, groupAt k cfg' = if decide (k = gi) then Some g else groupAt k cfg.
Proof.
  unfold setGroup. intros HS. inv_bind HS. injection HS as <-. apply store_Some in E as [Hi ->]. split_and!; [lia|lia|done..|].
  intros k. unfold groupAt. cbn. case_decide as Hk; [subst k; by rewrite index_insert_eq by done|by rewrite index_insert_ne by (done || lia)].
Qed.

(** New end points, for a clerk or made by [make_end]. *)
Lemma wired_open cfg names to rn : wired cfg → opened names to (net cfg) rn → wired (cfg <| net := rn |>).
Proof.
  intros [W1 WS W2 W3 W4 W5 W6 W7 W8] (_ & Hf & Hsv & HE & HO & _ & HC).
  assert (∀ gi i b j s, owns cfg gi i b j s → NStr s ∉ NStr <$> names) as Hold.
  { intros gi i b j s Ho (x & [= <-] & Hx)%list_elem_of_fmap. by apply (Hf s Hx), (W4 _ _ _ _ _ Ho). }
  split; try done.
  - intros gi i b j s Ho. apply HE. left. by eapply W4.
  - intros gi i b j s Ho. cbn. rewrite HC by (by eapply Hold). by eapply W6.
  - intros gi i b j s Ho. etransitivity; [apply HO|]. pose proof (Hold _ _ _ _ _ Ho). pose proof (W7 _ _ _ _ _ Ho). change (running _ gi i) with (running cfg gi i). tauto.
  - intros gi i Hgi. cbn. rewrite Hsv. by apply W8.
Qed.

(** The groups keep their numbers and sizes. *)
Definition sameShape (cfg cfg' : config) : Prop :=
  (n cfg' = n cfg ∧ nctrlers cfg' = nctrlers cfg) ∧ ∀ k g', groupAt k cfg' = Some g' →
    ∃ g, groupAt k cfg = Some g ∧ gid g' = gid g ∧ zlen (servers g') = zlen (servers g) ∧
      zlen (endnames g') = zlen (endnames g) ∧ zlen (saved g') = zlen (saved g) ∧ zlen (mendnames g') = zlen (mendnames g).

(** The end points [ShutdownServer] disables are the server's own. *)
Lemma own_ends cfg gi i gg es ms : wired cfg → groupAt gi cfg = Some gg →
  mapM (λ j, endname (endnames gg) i j) (upto (zlen (servers gg))) = Some es → index (mendnames gg) i = Some ms →
  ∀ e, e ∈ NStr <$> es ++ default [] ms ↔ ∃ b j s, e = NStr s ∧ owns cfg gi i b j s.
Proof.
  intros W Hgg Hes Hms e. destruct (wi_gid _ W _ _ Hgg) as (_ & _ & Hlen). apply mapM_Some in Hes. rewrite list_elem_of_fmap. split.
  - intros (s & -> & [Hs|Hs]%elem_of_app).
    + destruct (list_elem_of_lookup_1 _ _ Hs) as [k Hk]. destruct (Forall2_lookup_r _ _ _ _ _ Hes Hk) as (j & _ & Hj).
      exists false, j, s. split; [done|]. by exists gg.
    + destruct ms as [ms|]; cbn in Hs; [|by apply elem_of_nil in Hs]. destruct (list_elem_of_lookup_1 _ _ Hs) as [k Hk].
      exists true, (Z.of_nat k), s. split; [done|]. exists gg. split; [done|]. apply endname_Some. exists ms. split; [done|]. by rewrite index_lookup, Nat2Z.id by lia.
  - intros (b & j & s & -> & g & Hg & Hs). assert (g = gg) as -> by congruence. exists s. split; [done|]. apply elem_of_app. destruct b; cbn in Hs.
    + right. apply endname_Some in Hs as (es' & Hes' & Hj). assert (ms = Some es') as -> by congruence. by eapply index_elem_of.
    + left. assert (0 <= j < n cfg) as Hj by (eapply (wi_width _ W gi i); by exists gg).
      assert (upto (zlen (servers gg)) !! Z.to_nat j = Some j) as Hu.
      { unfold upto. rewrite list_lookup_fmap, lookup_seq_lt by lia. cbn. f_equal. lia. }
      destruct (Forall2_lookup_l _ _ _ _ _ Hes Hu) as (s' & Hs' & Hx). assert (s' = s) as -> by congruence. by eapply list_elem_of_lookup_2.
Qed.

Lemma ShutdownServer_inv cfg gi i cfg' : wired cfg → ShutdownServer gi i cfg = Some cfg' →
  0 <= gi ∧ sameShape cfg cfg' ∧ ends (net cfg') = ends (net cfg) ∧ connections (net cfg') = connections (net cfg) ∧
  LabRpc.servers (net cfg') = <[NStr (servername (100 + gi) i) := None]> (LabRpc.servers (net cfg)) ∧
  (∀ gi' i' b j s, owns cfg' gi' i' b j s ↔ owns cfg gi' i' b j s) ∧
  (∀ gi' i', running cfg' gi' i' ↔ running cfg gi' i' ∧ ¬ (gi' = gi ∧ i' = i)) ∧
  ∀ e, on (net cfg') e ↔ on (net cfg) e ∧ ¬ ∃ b j s, e = NStr s ∧ owns cfg gi i b j s.
Proof.
  intros W HS. unfold ShutdownServer in HS. inv_bind HS. rename x into gg, E into Hgg. inv_bind HS. rename x into es, E into Hes.
  inv_bind HS. rename x into ms, E into Hms. cbv zeta in HS. inv_bind HS. rename x into p, E into Hp. inv_bind HS. rename x into sv. inv_bind HS. rename x into kv.
  destruct (disable_spec es (net cfg)) as (m1 & Hd1 & Ho1). destruct (disable_spec (default [] ms) (disable es (net cfg))) as (m2 & Hd2 & Ho2).
  rewrite Hd2, Hd1 in HS. destruct (setGroup_inv _ _ _ _ HS) as (Hgi & Hnet & Hn & Hat).
  apply store_Some in E as [_ ->], E0 as [Hi ->]. destruct (wi_gid _ W _ _ Hgg) as (Hgid & Hgi0 & Hlen).
  set (gg' := gg <| saved := _ |> <| servers := _ |>) in *. assert (∀ k, groupAt k cfg' = if decide (k = gi) then Some gg' else groupAt k cfg) as Hat' by exact Hat.
  clear Hat. split_and!; [lia|split; [exact Hn|]|by rewrite Hnet..|by rewrite Hnet, Hgid| | |].
  - intros k g'. rewrite Hat'. case_decide as Hk; [subst k; intros [= <-]; exists gg; cbn; by rewrite !zlen_insert|eauto 10].
  - intros gi' i' b j s. unfold owns. setoid_rewrite Hat'. case_decide as Hd; [subst gi'|done]. split.
    + intros (g & [= <-] & He). exists gg. split; [done|]. by destruct b.
    + intros (g & Hg & He). eexists. split; [done|]. assert (g = gg) as -> by congruence. by destruct b.
  - intros gi' i'. unfold running. setoid_rewrite Hat'. case_decide as Hd; [subst gi'|naive_solver]. rewrite Hgg. split.
    + intros (g & [= <-] & Hk). cbn in Hk. destruct (decide (i' = i)) as [->|Hne]; [by rewrite index_insert_eq in Hk by done|].
      rewrite index_insert_ne in Hk by (done || lia). split; [by exists gg|naive_solver].
    + intros [(g & [= <-] & Hk) Hne]. eexists. split; [done|]. cbn. by rewrite index_insert_ne by (lia || naive_solver).
  - intros e. rewrite Hnet, <-(own_ends cfg gi i gg es ms W Hgg Hes Hms), fmap_app, elem_of_app. etransitivity; [exact (Ho2 e)|]. rewrite Hd1, (Ho1 e). tauto.
Qed.

Lemma ShutdownServer_wired cfg gi i cfg' : wired cfg → ShutdownServer gi i cfg = Some cfg' → wired cfg'.
Proof.
  intros W HS. destruct (ShutdownServer_inv _ _ _ _ W HS) as (Hgi & [[Hn Hnc] Hsh] & HE & HC & HV & Hown & Hrun & Hon).
  destruct W as [W1 WS W2 W3 W4 W5 W6 W7 W8]. split.
  - intros k g' (g & Hg & -> & -> & _)%Hsh. rewrite Hn. by apply W1.
  - intros k g' (g & Hg & _ & _ & -> & -> & ->)%Hsh. rewrite Hn, Hnc. by apply (WS k).
  - intros k a j s Ho%Hown. rewrite Hn. by eapply W2.
  - intros k a j [Hr _]%Hrun. rewrite Hn. setoid_rewrite Hown. by apply W3.
  - intros k a b j s Ho%Hown. rewrite HE. by eapply W4.
  - intros k a b j k' a' b' j' s H1%Hown H2%Hown. by eapply W5.
  - intros k a b j s Ho%Hown. rewrite HC. by eapply W6.
  - intros k a b j s Ho%Hown. rewrite Hon, Hrun, (W7 _ _ _ _ _ Ho). apply and_iff_compat_l. split; intros Hx.
    + intros [-> ->]. apply Hx. eauto.
    + intros (b' & j' & s' & [= <-] & Ho'). destruct (W5 _ _ _ _ _ _ _ _ _ Ho Ho') as (-> & -> & _). by apply Hx.
  - intros k a Hk. rewrite Hrun, <-(W8 k a Hk), HV. unfold getz. destruct (decide (servername (100 + gi) i = servername (100 + k) a)) as [Heq|Hne].
    + rewrite Heq, lookup_insert_eq. apply servername_inj in Heq as [? ->]; [|lia..]. assert (k = gi) as -> by lia. cbn. split; [by intros [? ?]|naive_solver].
    + rewrite lookup_insert_ne by congruence. assert (¬ (k = gi ∧ a = i)) by (intros [-> ->]; done). tauto.
Qed.

Lemma StartServer_inv cfg gi i names mnames srv cfg' : wired cfg → StartServer gi i names mnames srv cfg = Some cfg' →
  let mine (b : bool) := if b then mnames else names in
  0 <= gi ∧ sameShape cfg cfg' ∧
  (∃ rn, opened names (servername (100 + gi)) (net cfg) rn ∧ ∃ rn', opened mnames ctrlername rn rn' ∧ net cfg' = AddServer (NStr (servername (100 + gi) i)) srv rn') ∧
  (∀ gi' i' b j s, owns cfg' gi' i' b j s ↔ if decide (gi' = gi ∧ i' = i) then index (mine b) j = Some s else owns cfg gi' i' b j s) ∧
  (∀ gi' i', running cfg' gi' i' ↔ running cfg gi' i' ∨ (gi' = gi ∧ i' = i)).
Proof.
  intros W HS mine. unfold StartServer in HS. inv_bind HS. rename x into gg, E into Hgg. inv_bind HS. rename x into eps, E into Heps.
  inv_bind HS. rename x into rn, E into Hrn. inv_bind HS. rename x into meps, E into Hmeps. inv_bind HS. rename x into rn', E into Hrn'.
  inv_bind HS. rename x into p, E into Hp. inv_bind HS. rename x into sv, E into Hsv. inv_bind HS. rename x into kv, E into Hkv.
  destruct (wi_gid _ W _ _ Hgg) as (Hgid & Hgi0 & Hlen). rewrite Hgid in *.
  destruct (setGroup_inv _ _ _ _ HS) as (Hgi & Hnet & Hn & Hat). set (gg' := gg <| endnames := eps |> <| mendnames := meps |> <| saved := sv |> <| servers := kv |>) in *.
  assert (∀ k, groupAt k cfg' = if decide (k = gi) then Some gg' else groupAt k cfg) as Hat' by exact Hat. clear Hat.
  apply make_ends_inv in Hrn, Hrn'. split_and!; [lia|split; [exact Hn|]|by eauto| |].
  - intros k g'. rewrite Hat'. case_decide as Hk; [subst k; intros [= <-]; exists gg|eauto 10].
    apply store_Some in Hkv as [_ ->], Heps as [_ ->], Hmeps as [_ ->], Hsv as [_ ->]. cbn. by rewrite !zlen_insert.
  - intros gi' i' b j s. unfold owns. setoid_rewrite Hat'. destruct (decide (gi' = gi)) as [->|Hne]; [|rewrite decide_False by naive_solver; done].
    assert (endname (table b gg') i' j = if decide (i' = i) then index (mine b) j else endname (table b gg) i' j) as Hnew.
    { destruct b; cbn; by apply endname_store. }
    destruct (decide (i' = i)) as [->|Hne]; [rewrite decide_True by done|rewrite decide_False by naive_solver]; (split; [intros (g & [= <-] & He)|]).
    + congruence.
    + intros Hj. exists gg'. split; [done|congruence].
    + exists gg. split; [done|congruence].
    + intros (g & Hg & He). assert (g = gg) as -> by congruence. exists gg'. split; [done|congruence].
  - intros gi' i'. unfold running. setoid_rewrite Hat'. case_decide as Hd; [subst gi'|naive_solver]. rewrite Hgg. apply store_Some in Hkv as [Hi ->]. split.
    + intros (g & [= <-] & Hk). cbn in Hk. destruct (decide (i' = i)) as [->|Hne]; [by right|]. rewrite index_insert_ne in Hk by (done || lia). left. by exists gg.
    + intros Hr. exists gg'. split; [done|]. cbn. destruct (decide (i' = i)) as [->|Hne]; [by rewrite index_insert_eq|]. rewrite index_insert_ne by (done || lia).
      destruct Hr as [(g & [= <-] & Hk)|[_ ?]]; done.
Qed.

Lemma StartServer_wired cfg gi i names mnames srv cfg' : wired cfg → zlen names = n cfg → ¬ running cfg gi i →
  StartServer gi i names mnames srv cfg = Some cfg' → wired cfg'.
Proof.
  intros W Hnames Hnr HS. destruct (StartServer_inv _ _ _ _ _ _ _ W HS) as (Hgi & [[Hn Hnc] Hsh] & (rn & Hop & rn' & Hop' & Hnet) & Hown & Hrun).
  destruct Hop as (HN1 & Hf1 & Hsv1 & HE1 & HO1 & HC1 & HC1'), Hop' as (HN2 & Hf2 & Hsv2 & HE2 & HO2 & HC2 & HC2').
  assert (∀ e, ends (net cfg') = ends rn' ∧ connections (net cfg') = connections rn' ∧ (on (net cfg') e ↔ on rn' e)) as Hnet'.
  { intros e. by rewrite Hnet. }
  assert (∀ s, s ∈ mnames → s ∉ names ∧ NStr s ∉ ends (net cfg)) as Hdis.
  { intros s Hs. pose proof (Hf2 s Hs) as Hx. rewrite HE1 in Hx. split; [intros Hin; apply Hx; right; by apply list_elem_of_fmap_2|tauto]. }
  assert (∀ (l : list string) s, NStr s ∈ NStr <$> l ↔ s ∈ l) as Hfm.
  { intros l s. rewrite list_elem_of_fmap. naive_solver. }
  assert (∀ b j s, index (if b : bool then mnames else names) j = Some s → NStr s ∉ ends (net cfg) ∧ NStr s ∈ ends (net cfg') ∧ on (net cfg') (NStr s) ∧
    connections (net cfg') !! NStr s = Some (Some (NStr (if b then ctrlername j else servername (100 + gi) j)))) as Hnew.
  { intros b j s Hs. pose proof (index_elem_of _ _ _ Hs) as Hin. destruct (Hnet' (NStr s)) as (-> & -> & ->). rewrite HE2, HO2, HE1, HO1, !Hfm. destruct b.
    - split_and!; [by apply Hdis|by right..|by apply HC2].
    - split_and!; [by apply Hf1|by left; right..|]. rewrite HC2'; [by apply HC1|]. rewrite Hfm. intros Hm. by destruct (Hdis _ Hm). }
  assert (∀ k a b j s, owns cfg k a b j s → NStr s ∈ ends (net cfg') ∧ (on (net cfg') (NStr s) ↔ on (net cfg) (NStr s)) ∧
    connections (net cfg') !! NStr s = connections (net cfg) !! NStr s) as Hold.
  { intros k a b j s Ho. pose proof (wi_ends _ W _ _ _ _ _ Ho) as He. destruct (Hnet' (NStr s)) as (-> & -> & ->).
    assert (s ∉ names ∧ s ∉ mnames) as [Hs1 Hs2] by (split; intros Hin; [by apply (Hf1 s)|by apply (Hdis s)]).
    rewrite HE2, HO2, HE1, HO1, HC2', HC1' by (by rewrite Hfm). rewrite !Hfm. tauto. }
  clear HO1 HO2 HE1 HE2 HC1 HC1' HC2 HC2' Hf1 Hf2. destruct W as [W1 WS W2 W3 W4 W5 W6 W7 W8]. split.
  - intros k g' (g & Hg & -> & -> & _)%Hsh. rewrite Hn. by apply W1.
  - intros k g' (g & Hg & _ & _ & -> & -> & ->)%Hsh. rewrite Hn, Hnc. by apply (WS k).
  - intros k a j s Ho%Hown. rewrite Hn. case_decide; [apply index_lt in Ho; lia|by eapply W2].
  - intros k a j Hr%Hrun. rewrite Hn. setoid_rewrite Hown. case_decide as Hd; [intros Hj; apply index_is_Some; lia|]. apply W3. tauto.
  - intros k a b j s Ho%Hown. case_decide; [by eapply Hnew|by eapply Hold].
  - intros k a b j k' a' b' j' s H1%Hown H2%Hown. destruct (decide (k = gi ∧ a = i)) as [[-> ->]|Hd], (decide (k' = gi ∧ a' = i)) as [[-> ->]|Hd'].
    + assert (b = b') as <-; [|split_and!; [done..|]].
      { destruct b, b'; try done; apply index_elem_of in H1, H2; [by destruct (Hdis _ H1)|by destruct (Hdis _ H2)]. }
      eapply index_unique; [|done..]. by destruct b.
    + exfalso. destruct (Hnew _ _ _ H1) as [Hx _]. by apply Hx, (W4 _ _ _ _ _ H2).
    + exfalso. destruct (Hnew _ _ _ H2) as [Hx _]. by apply Hx, (W4 _ _ _ _ _ H1).
    + by eapply W5.
  - intros k a b j s Ho%Hown. case_decide as Hd; [destruct Hd as [-> _]; by apply (Hnew b j s)|]. destruct (Hold _ _ _ _ _ Ho) as (_ & _ & ->). by eapply W6.
  - intros k a b j s Ho%Hown. rewrite Hrun. case_decide as Hd; [destruct (Hnew _ _ _ Ho); tauto|]. destruct (Hold _ _ _ _ _ Ho) as (_ & -> & _). rewrite (W7 _ _ _ _ _ Ho). tauto.
  - intros k a Hk. rewrite Hrun, <-(W8 k a Hk), Hnet. cbn. rewrite Hsv2, Hsv1. unfold getz.
    destruct (decide (servername (100 + gi) i = servername (100 + k) a)) as [Heq|Hne].
    + rewrite Heq, lookup_insert_eq. apply servername_inj in Heq as [? ->]; [|lia..]. assert (k = gi) as -> by lia. cbn. split; [by right|by intros _].
    + rewrite lookup_insert_ne by congruence. assert (¬ (k = gi ∧ a = i)) by (intros [-> ->]; done). tauto.
Qed.

Lemma makeClient_opens ck names cfg cfg' : makeClient ck names cfg = Some cfg' →
  ∃ rn, make_ends ctrlername names (net cfg) = Some rn ∧ net cfg' = rn ∧ groups cfg' = groups cfg ∧ n cfg' = n cfg ∧ nctrlers cfg' = nctrlers cfg.
Proof.
  unfold makeClient, make_ends. intros HM. inv_bind HM. destruct x as [es rn]. injection HM as <-. exists rn. split_and!; [|done..].
  revert E. generalize (imap (λ j e, (Z.of_nat j, e)) names). intros l. generalize (replicate (Z.to_nat (n cfg)) EmptyString) (net cfg).
  induction l as [|je l IH]; intros es0 rn0 HF; cbn [foldl] in *; [by injection HF as _ <-|].
  assert (∀ l', foldl (λ acc je, '(es, rn) ← acc; es ← store es je.1 je.2; rn ← make_end je.2 (ctrlername je.1) rn; Some (es, rn)) None l' = None) as HNone by (induction l'; auto).
  cbn [mbind option_bind] in *. destruct (store es0 je.1 je.2) as [es1|]; [|cbn in HF; by rewrite HNone in HF]. cbn [mbind option_bind] in HF.
  destruct (make_end je.2 (ctrlername je.1) rn0) as [rn1|]; [|cbn in HF; by rewrite HNone in HF]. cbn [mbind option_bind] in HF. by eapply IH.
Qed.

(** ** What happens during a test *)

Inductive Action :=
  | AStart (gi i : Z) (names mnames : list string) (srv : nat) | AShutdown (gi i : Z)
  | AClient (ck : nat) (names : list string) | ADelete (ck : nat)
  | AOpen (name servername : string).     (* a clerk or a server calls [make_end] *)

Definition act (a : Action) (cfg : config) : option config :=
  match a with
  | AStart gi i names mnames srv => StartServer gi i names mnames srv cfg
  | AShutdown gi i => ShutdownServer gi i cfg
  | AClient ck names => makeClient ck names cfg
  | ADelete ck => Some (deleteClient ck cfg)
  | AOpen name servername => rn ← make_end name servername (net cfg); Some (cfg <| net := rn |>)
  end.

(** A server is started only when it is not running, with one end point for each peer. *)
Definition sensible (cfg : config) (a : Action) : Prop :=
  match a with
  | AStart gi i names _ _ => zlen names = n cfg ∧ ¬ running cfg gi i
  | _ => True
  end.

Inductive acted : config → config → Prop :=
  | acted_refl cfg : acted cfg cfg
  | acted_step a cfg cfg' cfg'' : sensible cfg a → act a cfg = Some cfg' → acted cfg' cfg'' → acted cfg cfg''.

Lemma make_end_opened s srv rn rn' : make_end s srv rn = Some rn' → opened [s] (λ _, srv) rn rn'.
Proof. intros HM. apply (make_ends_inv (λ _, srv) [s]). exact HM. Qed.

Lemma shard_act_wired cfg a cfg' : wired cfg → sensible cfg a → act a cfg = Some cfg' →
  wired cfg' ∧ (n cfg' = n cfg ∧ nctrlers cfg' = nctrlers cfg) ∧ ∀ e, e ∈ ends (net cfg) → e ∈ ends (net cfg') ∧ (on (net cfg') e → on (net cfg) e).
Proof.
  intros W Hs HA. assert (∀ names to rn, opened names to (net cfg) rn → ∀ e, e ∈ ends (net cfg) → e ∈ ends rn ∧ (on rn e → on (net cfg) e)) as Hop.
  { intros names to rn (_ & Hf & _ & HE & HO & _) e He. rewrite HE, HO. split; [by left|]. intros [?|(s & -> & Hs')%list_elem_of_fmap]; [done|]. by apply Hf in Hs'. }
  destruct a as [gi i names mnames srv|gi i|ck names|ck|s srv]; cbn in HA.
  - destruct Hs as [Hl Hr]. split_and!; [by eapply StartServer_wired|by destruct (StartServer_inv _ _ _ _ _ _ _ W HA) as (_ & [[? ?] _] & _)..|].
    destruct (StartServer_inv _ _ _ _ _ _ _ W HA) as (_ & _ & (rn & (_ & Hf1 & _ & HE1 & HO1 & _) & rn' & (_ & Hf2 & _ & HE2 & HO2 & _) & Hnet) & _).
    intros e He. assert (e ∉ NStr <$> names ∧ e ∉ NStr <$> mnames) as [H1 H2].
    { split; intros (s & -> & Hin)%list_elem_of_fmap; [by apply (Hf1 s)|]. apply (Hf2 s Hin), HE1. by left. }
    rewrite Hnet. change (on (AddServer ?a ?b rn') e) with (on rn' e). change (ends (AddServer ?a ?b rn')) with (ends rn'). rewrite HE2, HO2, HE1, HO1. tauto.
  - split; [by eapply ShutdownServer_wired|]. destruct (ShutdownServer_inv _ _ _ _ W HA) as (_ & [[Hn Hnc] _] & HE & _ & _ & _ & _ & Hon).
    split; [done|]. intros e He. rewrite HE, Hon. tauto.
  - destruct (makeClient_opens _ _ _ _ HA) as (rn & Hrn%make_ends_inv & Hnet & Hg & Hn & Hnc). split_and!; [|done..|rewrite Hnet; by eapply Hop].
    eapply (wired_ext (cfg <| net := rn |>)); [done|done|done|by rewrite Hnet..|]. by eapply wired_open.
  - injection HA as <-. split_and!; [|done..]. by eapply (wired_ext cfg).
  - inv_bind HA. injection HA as <-. apply make_end_opened in E. split_and!; [by eapply wired_open|done..|by eapply Hop].
Qed.

Lemma shard_acted_wired cfg cfg' : acted cfg cfg' → wired cfg →
  wired cfg' ∧ (n cfg' = n cfg ∧ nctrlers cfg' = nctrlers cfg) ∧ ∀ e, e ∈ ends (net cfg) → e ∈ ends (net cfg') ∧ (on (net cfg') e → on (net cfg) e).
Proof.
  induction 1 as [|a cfg cfg1 cfg2 Hs Ha _ IH]; [done|]. intros W. destruct (shard_act_wired _ _ _ W Hs Ha) as (W1 & Hn & He).
  destruct (IH W1) as (W2 & Hn2 & He2). split_and!; [done|lia|lia|]. intros e Hin. destruct (He e Hin) as [Hin1 Ho1]. destruct (He2 e Hin1). auto.
Qed.

(** ** Set-up *)

Lemma endname_none k i j : endname (replicate k None) i j = None.
Proof. unfold endname. destruct (index _ i) as [o|] eqn:E; [|done]. apply index_Some in E as [_ E]. by apply lookup_replicate in E as [-> _]. Qed.

Lemma newGroup_wired cfg gi cfg' : wired cfg → 0 <= n cfg → 0 <= nctrlers cfg → groupAt gi cfg = None →
  setGroup gi (newGroup (n cfg) (nctrlers cfg) gi) cfg = Some cfg' →
  wired cfg' ∧ (∀ k, k ≠ gi → groupAt k cfg' = groupAt k cfg) ∧ ∀ i, ¬ running cfg' gi i.
Proof.
  intros W Hn0 Hc0 Hnone HS. destruct (setGroup_inv _ _ _ _ HS) as (Hgi & Hnet & [Hn Hnc] & Hat). set (g0 := newGroup (n cfg) (nctrlers cfg) gi) in *.
  assert (∀ i, index (servers g0) i ≠ Some true) as Hoff by (intros i [_ Hi]%index_Some; by apply lookup_replicate in Hi as [? _]).
  assert (∀ k i b j s, owns cfg' k i b j s ↔ owns cfg k i b j s) as Hown.
  { intros k i b j s. unfold owns. setoid_rewrite Hat. case_decide as Hd; [subst k|done]. split; [|intros (g & ? & _); congruence].
    intros (g & [= <-] & He). destruct b; cbn in He; by rewrite endname_none in He. }
  assert (∀ k i, running cfg' k i ↔ running cfg k i) as Hrun.
  { intros k i. unfold running. setoid_rewrite Hat. case_decide as Hd; [subst k|done]. split; [intros (g & [= <-] & Hon%Hoff)|intros (g & ? & _)]; [done|congruence]. }
  split_and!; [|intros k Hk; by rewrite Hat, decide_False by done|intros i (g & Hg & Hi)%Hrun; congruence].
  destruct W as [W1 WS W2 W3 W4 W5 W6 W7 W8]. split; rewrite ?Hnet, ?Hn, ?Hnc.
  - intros k g. rewrite Hat. case_decide as Hd; [subst k; intros [= <-]|apply W1]. cbn. unfold zlen. rewrite length_replicate. lia.
  - intros k g. rewrite Hat. case_decide as Hd; [subst k; intros [= <-]|apply WS]. cbn. unfold zlen. rewrite !length_replicate. lia.
  - intros k i j s Ho%Hown. by eapply W2.
  - intros k i j Hr%Hrun. setoid_rewrite Hown. by apply W3.
  - intros k i b j s Ho%Hown. by eapply W4.
  - intros k i b j k' i' b' j' s Ho%Hown Ho'%Hown. by eapply W5.
  - intros k i b j s Ho%Hown. by eapply W6.
  - intros k i b j s Ho%Hown. rewrite Hrun. by eapply W7.
  - intros k i Hk. rewrite Hrun. by apply W8.
Qed.

(** A loop that went through. *)
Lemma fold_went {S} (step : Z → S → option S) (P : list Z → S → Prop) l s s' :
  P [] s →
  (∀ before i s s1, (∃ after, l = before ++ i :: after) → P before s → step i s = Some s1 → P (before ++ [i]) s1) →
  foldl (λ acc i, s ← acc; step i s) (Some s) l = Some s' → P l s'.
Proof.
  intros H0 Hstep HF. assert (∀ after before s, l = before ++ after → P before s → foldl (λ acc i, s ← acc; step i s) (Some s) after = Some s' → P l s') as H;
    [|by apply (H l [] s)]. clear s H0 HF. induction after as [|i after IH]; intros before s Hl HP HF; [rewrite app_nil_r in Hl; injection HF as <-; congruence|].
  cbn [foldl mbind option_bind] in HF. destruct (step i s) as [s1|] eqn:E.
  - apply (IH (before ++ [i]) s1); [by rewrite <-app_assoc|eapply Hstep; eauto|done].
  - exfalso. clear -HF. induction after; [done|auto].
Qed.

Lemma upto_fresh m before i after : upto m = before ++ i :: after → i ∉ before.
Proof. intros Hu. pose proof (upto_NoDup m) as HN. rewrite Hu in HN. apply NoDup_app in HN as (_ & Hd & _). intros Hin. apply (Hd i Hin). by left. Qed.

Lemma StartGroup_wired cfg gi fresh cfg' : wired cfg → (∀ i, zlen (fresh i).1.1 = n cfg) → (∀ i, ¬ running cfg gi i) →
  StartGroup gi fresh cfg = Some cfg' →
  wired cfg' ∧ (n cfg' = n cfg ∧ nctrlers cfg' = nctrlers cfg) ∧ ∀ k, groupAt k cfg = None → groupAt k cfg' = None.
Proof.
  intros W Hf Hr HS. unfold StartGroup in HS.
  pose proof (fold_went (λ i cfg, let '(names, mnames, srv) := fresh i in StartServer gi i names mnames srv cfg) (λ before c,
    wired c ∧ (n c = n cfg ∧ nctrlers c = nctrlers cfg) ∧ (∀ k, groupAt k cfg = None → groupAt k c = None) ∧ ∀ i, i ∉ before → ¬ running c gi i) (upto (n cfg)) cfg cfg') as H.
  destruct H as (? & ? & ? & _); [done| |exact HS|done]. intros before i c c1 (after & Hu) (Wc & [Hn Hnc] & Hk & Hrc) HE. specialize (Hf i). destruct (fresh i) as [[names mnames] srv]. cbn in Hf.
  assert (i ∉ before) as Hi by (by eapply upto_fresh).
  destruct (StartServer_inv _ _ _ _ _ _ _ Wc HE) as (_ & [[Hn1 Hnc1] Hsh] & _ & _ & Hrun). split_and!; [eapply StartServer_wired; eauto; lia|lia|lia| |].
  - intros k Hnone%Hk. destruct (groupAt k c1) as [g'|] eqn:E; [|done]. apply Hsh in E as (g & ? & _). congruence.
  - intros k [Hb Hki]%not_elem_of_app. rewrite list_elem_of_singleton in Hki. rewrite Hrun. intros [?|[_ ?]]; [by eapply Hrc|done].
Qed.

Lemma startCtrlers_wired size maxraft cnames csrv mck cfg : startCtrlers size maxraft cnames csrv mck = Some cfg →
  wired cfg ∧ n cfg = size ∧ nctrlers cfg = 3 ∧ ngroups cfg = 3 ∧ ∀ k, groupAt k cfg = None.
Proof.
  unfold startCtrlers, shardclerk. intros HS. inv_bind HS. rename x into c1. inv_bind HS. rename x into rn. injection HS as <-.
  assert (∀ c, (∀ k, groupAt k c = None) → (∀ k i, getz None (LabRpc.servers (net c)) (NStr (servername (100 + k) i)) = None) → wired c) as Hw.
  { intros c Hg Hv. split; try (by intros ? ?; rewrite Hg); try (by intros * (? & ? & _); rewrite Hg in * ).
    - intros gi i _. rewrite Hv. unfold running. rewrite Hg. split; [by intros [? ?]|by intros (? & ? & _)]. }
  pose proof (fold_went (λ i cfg, StartCtrlerserver i (cnames i) (csrv i) cfg) (λ _ c, (∀ k, groupAt k c = None) ∧
    (∀ k i, getz None (LabRpc.servers (net c)) (NStr (servername (100 + k) i)) = None) ∧ n c = size ∧ nctrlers c = 3 ∧ ngroups c = 3) (upto 3)
    (mkConfig MakeNetwork 3 (replicate 3 false) 3 size (replicate 3 None) ∅ (size + 1000) maxraft) c1) as (Hg & Hv & ? & ? & ?); [| |exact E|].
  - split_and!; [|done..]. intros k. unfold groupAt. cbn [groups]. destruct (index _ k) as [g|] eqn:Ek; [|done]. apply index_Some in Ek as [_ Ek].
    by apply (lookup_replicate_1 3 None) in Ek as [-> _].
  - intros before i c c' _ (Hg & Hv & Hn & Hnc & Hng) HS. unfold StartCtrlerserver in HS. inv_bind HS. rename x into rn1. inv_bind HS. injection HS as <-.
    apply make_ends_inv in E1 as (_ & _ & Hsv & _). split_and!; [done| |done..]. intros k j. unfold getz. cbn. rewrite lookup_insert_ne; [|intros [=]]. rewrite Hsv. apply Hv.
  - split_and!; [|done..]. apply make_ends_inv in E0. eapply wired_open; [|done]. by apply Hw.
Qed.

Lemma shard_make_config_wired size unreliable maxraft cnames csrv mck fresh cfg :
  0 <= size → (∀ gi i, zlen (fresh gi i).1.1 = size) → make_config size unreliable maxraft cnames csrv mck fresh = Some cfg →
  wired cfg ∧ n cfg = size ∧ nctrlers cfg = 3.
Proof.
  intros Hs Hf HM. unfold make_config in HM. inv_bind HM. rename x into c0, E into H0. destruct (startCtrlers_wired _ _ _ _ _ _ H0) as (W0 & Hn0 & Hc0 & Hg0 & Hnone).
  inv_bind HM. rename x into c1, E into HF. injection HM as <-. rewrite Hg0 in HF.
  pose proof (fold_went (λ gi cfg, cfg ← setGroup gi (newGroup (n cfg) (nctrlers cfg) gi) cfg; StartGroup gi (fresh gi) cfg) (λ before c,
    wired c ∧ n c = size ∧ nctrlers c = 3 ∧ ∀ k, k ∉ before → groupAt k c = None) (upto 3) c0 c1) as (W1 & Hn1 & Hc1 & _); [done| |exact HF|].
  - intros before gi c c' (after & Hu) (Wc & Hn & Hnc & Hk) HS. inv_bind HS. rename x into c2, E into HG.
    destruct (newGroup_wired c gi c2) as (W2 & Hother & Hoff); [done|lia|lia|by eapply Hk, upto_fresh|done|].
    destruct (setGroup_inv _ _ _ _ HG) as (_ & _ & [Hn2 Hnc2] & _).
    destruct (StartGroup_wired c2 gi (fresh gi) c') as (W3 & [Hn3 Hnc3] & Hk3); [done|intros i; rewrite Hf; lia|done|done|].
    split_and!; [done|lia|lia|]. intros k [Hb Hkg]%not_elem_of_app. rewrite list_elem_of_singleton in Hkg. apply Hk3. rewrite Hother by done. by apply Hk.
  - split_and!; [|done..]. by eapply (wired_ext c1).
Qed.

(** ** The operations succeed *)

Lemma make_ends_total to names rn : NoDup names → (∀ s, s ∈ names → NStr s ∉ ends rn) → ∃ rn', make_ends to names rn = Some rn'.
Proof.
  induction names as [|s names IH] using rev_ind; intros HN Hf; [by exists rn|]. apply NoDup_app in HN as (HN & Hd & _).
  destruct IH as [rn1 H1]; [done|intros x Hx; apply Hf, elem_of_app; by left|]. pose proof (make_ends_inv _ _ _ _ H1) as (_ & _ & _ & HE & _).
  unfold make_ends in *. rewrite imap_app, foldl_app, H1. cbn [imap foldl mbind option_bind]. unfold make_end, MakeEnd. rewrite decide_False; [cbn; by eexists|].
  rewrite HE. intros [Hin|(x & [= <-] & Hx)%list_elem_of_fmap]; [by apply (Hf s); [set_solver|]|]. by apply (Hd s Hx), list_elem_of_singleton.
Qed.

Lemma groupAt_store gi g g' cfg : groupAt gi cfg = Some g → ∃ cfg', setGroup gi g' cfg = Some cfg'.
Proof. unfold groupAt, setGroup. intros HG. inv_bind HG. apply index_lt in E. rewrite store_is_Some by lia. by eexists. Qed.

Lemma StartServer_total cfg gi i g names mnames srv : wired cfg → groupAt gi cfg = Some g → 0 <= i < n cfg → i < nctrlers cfg →
  NoDup (names ++ mnames) → (∀ s, s ∈ names ++ mnames → NStr s ∉ ends (net cfg)) → ∃ cfg', StartServer gi i names mnames srv cfg = Some cfg'.
Proof.
  intros W Hg Hi Hic (HN1 & Hd & HN2)%NoDup_app Hf. destruct (wi_gid _ W _ _ Hg) as (_ & _ & ?), (wi_sizes _ W _ _ Hg) as (? & ? & ?).
  unfold StartServer. rewrite Hg. cbn [mbind option_bind]. rewrite store_is_Some by lia. cbn [mbind option_bind].
  destruct (make_ends_total (servername (gid g)) names (net cfg) HN1) as [rn Hrn]; [intros s Hs; apply Hf, elem_of_app; by left|]. rewrite Hrn. cbn [mbind option_bind].
  rewrite store_is_Some by lia. cbn [mbind option_bind]. apply make_ends_inv in Hrn as (_ & _ & _ & HE & _).
  destruct (make_ends_total ctrlername mnames rn HN2) as [rn' ->].
  { intros s Hs. rewrite HE. intros [Hin|(x & [= <-] & Hx)%list_elem_of_fmap]; [|by apply (Hd s)]. apply (Hf s); [apply elem_of_app; by right|done]. }
  cbn [mbind option_bind]. destruct (index_is_Some (saved g) i) as [p ->]; [lia|]. cbn [mbind option_bind]. rewrite store_is_Some by lia. cbn [mbind option_bind].
  rewrite store_is_Some by lia. cbn [mbind option_bind]. by apply (groupAt_store gi g).
Qed.

Lemma ShutdownServer_total cfg gi i : wired cfg → running cfg gi i → i < nctrlers cfg → ∃ cfg', ShutdownServer gi i cfg = Some cfg'.
Proof.
  intros W Hr Hic. pose proof Hr as (g & Hg & Hi%index_lt). destruct (wi_gid _ W _ _ Hg) as (_ & _ & Hn), (wi_sizes _ W _ _ Hg) as (? & ? & ?).
  unfold ShutdownServer. rewrite Hg. cbn [mbind option_bind].
  assert (∃ es, mapM (λ j, endname (endnames g) i j) (upto (zlen (servers g))) = Some es) as [es ->].
  { apply mapM_is_Some, Forall_forall. intros j Hj%upto_elem. destruct (wi_full _ W gi i j Hr) as (s & g' & Hg' & Hs); [lia|]. exists s. by assert (g' = g) as <- by congruence. }
  cbn [mbind option_bind]. destruct (index_is_Some (mendnames g) i) as [ms ->]; [lia|]. cbn [mbind option_bind].
  destruct (index_is_Some (saved g) i) as [p ->]; [lia|]. cbn [mbind option_bind]. rewrite store_is_Some by lia. cbn [mbind option_bind].
  rewrite store_is_Some by lia. cbn [mbind option_bind]. by apply (groupAt_store gi g).
Qed.

(** C36: The wiring of a shardkv test, with at most three servers in a group.  After
    [make_config] and any sequence of starting and shutting down servers, making and
    deleting clerks, and calls of [make_end]: a running server can be shut down;
    a server of a group has an end point over which requests reach server [j] of its
    group exactly when both are running; and once it is shut down, nothing the test
    does afterwards opens the end points again that the harness had given it.  Only
    those are closed: what it opened itself through [make_end] stays open. *)
Theorem shard_links size unreliable maxraft cnames csrv mck fresh cfg0 cfg gi i :
  0 <= size <= 3 → (∀ gi i, zlen (fresh gi i).1.1 = size) →
  make_config size unreliable maxraft cnames csrv mck fresh = Some cfg0 → acted cfg0 cfg →
  (∀ j, 0 <= gi → 0 <= j < size →
    (∃ s srv, owns cfg gi i false j s ∧ readEndnameInfo (NStr s) (net cfg) =
       mkInfo true (Some (NStr (servername (100 + gi) j))) (Some srv) (reliable (net cfg)) (longReordering (net cfg))) ↔
    running cfg gi i ∧ running cfg gi j) ∧
  (running cfg gi i → ∃ cfg1, ShutdownServer gi i cfg = Some cfg1 ∧
    (∀ cfg2 b j s, acted cfg1 cfg2 → owns cfg gi i b j s → ¬ on (net cfg2) (NStr s)) ∧
    ∀ e, on (net cfg) e → (∀ b j s, owns cfg gi i b j s → e ≠ NStr s) → on (net cfg1) e).
Proof.
  intros Hs Hf HM HA. destruct (shard_make_config_wired size _ _ _ _ _ _ _ ltac:(lia) Hf HM) as (W0 & Hn0 & Hc0).
  destruct (shard_acted_wired _ _ HA W0) as (W & [Hn Hc] & _). split.
  - intros j Hgi Hj. split.
    + intros (s & srv & Ho & Hinfo). unfold readEndnameInfo in Hinfo. injection Hinfo as Hon Hcn Hsv. split; [by apply (wi_on _ W _ _ _ _ _ Ho)|].
      unfold getz in Hcn, Hsv. rewrite (wi_conn _ W _ _ _ _ _ Ho) in Hsv. cbn in Hsv. apply (wi_servers _ W gi j Hgi). unfold getz. rewrite Hsv. by eexists.
    + intros [Hri Hrj]. destruct (wi_full _ W gi i j Hri) as [s Ho]; [lia|]. destruct (proj2 (wi_servers _ W gi j Hgi) Hrj) as [srv Hsrv].
      exists s, srv. split; [done|]. pose proof (proj2 (wi_on _ W _ _ _ _ _ Ho) Hri) as Hon. unfold on in Hon. unfold readEndnameInfo. rewrite Hon.
      unfold getz at 1 2. rewrite (wi_conn _ W _ _ _ _ _ Ho). change (default None (Some (Some ?x))) with (Some x). cbv iota beta. by rewrite Hsrv.
  - intros Hr. destruct (ShutdownServer_total cfg gi i W Hr) as [cfg1 HS].
    { destruct Hr as (g & Hg & Hi%index_lt). destruct (wi_gid _ W _ _ Hg) as (_ & _ & ?). lia. }
    exists cfg1. destruct (ShutdownServer_inv _ _ _ _ W HS) as (_ & _ & HE & _ & _ & _ & _ & Hon). split_and!; [done| |].
    + intros cfg2 b j s HA2 Ho Hx. destruct (shard_acted_wired _ _ HA2) as (_ & _ & Hstay); [by eapply ShutdownServer_wired|].
      apply Hstay in Hx; [|rewrite HE; by eapply wi_ends]. apply Hon in Hx as [_ Hno]. apply Hno. eauto.
    + intros e He Hno. apply Hon. split; [done|]. intros (b & j & s & -> & Ho). by eapply Hno.
Qed.

Module ShardHarnessExamples.

Definition nm (k : Z) : string := pretty k.
Definition fresh1 (gi i : Z) : list string * list string * nat :=
  ([nm (12 + 4 * gi)], nm <$> [13 + 4 * gi; 14 + 4 * gi; 15 + 4 * gi], Z.to_nat (3 + gi)).
Definition made : option config :=
  make_config 1 false (-1) (λ i, nm <$> [3 * i; 3 * i + 1; 3 * i + 2]) Z.to_nat (nm <$> [9; 10; 11]) fresh1.

Lemma running_compute cfg gi i : (g ← groupAt gi cfg; index (servers g) i) = Some true → running cfg gi i.
Proof. intros HR. inv_bind HR. by exists x. Qed.

(** One server in each group: server 0 of group 101 reaches itself, can be shut down,
    and then is cut off, also after it was restarted. *)
Lemma shard_links_witness :
  ∃ cfg, made = Some cfg ∧ running cfg 1 0 ∧
    (∃ s srv, owns cfg 1 0 false 0 s ∧ readEndnameInfo (NStr s) (net cfg) =
       mkInfo true (Some (NStr "server-101-0")) (Some srv) (reliable (net cfg)) (longReordering (net cfg))) ∧
    ∃ cfg1, ShutdownServer 1 0 cfg = Some cfg1 ∧ ∀ b j s, owns cfg 1 0 b j s → ¬ on (net cfg1) (NStr s).
Proof.
  destruct made as [cfg|] eqn:HM; [|exfalso; assert (bool_decide (is_Some made) = true) as Hx by (vm_compute; reflexivity); rewrite HM in Hx; discriminate Hx].
  assert (running cfg 1 0) as Hr.
  { assert ((made ≫= λ cfg, g ← groupAt 1 cfg; index (servers g) 0) = Some true) as Hx by (vm_compute; reflexivity). rewrite HM in Hx. by apply running_compute. }
  destruct (shard_links 1 false (-1) _ _ _ fresh1 cfg cfg 1 0 ltac:(lia) ltac:(intros; reflexivity) HM (acted_refl cfg)) as [HL HS].
  exists cfg. split_and!; [reflexivity|exact Hr|apply (HL 0); [lia|lia|split; exact Hr]|].
  destruct (HS Hr) as (cfg1 & H1 & H2 & _). exists cfg1. split; [exact H1|]. intros b j s Ho. exact (H2 cfg1 b j s (acted_refl cfg1) Ho).
Defined.

(** A clerk's slice of names is too short when a group has fewer servers than there
    are controllers. *)
Lemma makeClient_panics : ∃ cfg, made = Some cfg ∧ makeClient 0 (nm <$> [100; 101; 102]) cfg = None.
Proof.
  destruct made as [cfg|] eqn:HM; [|exfalso; assert (bool_decide (is_Some made) = true) as Hx by (vm_compute; reflexivity); rewrite HM in Hx; discriminate Hx].
  exists cfg. split; [done|]. assert ((made ≫= makeClient 0 (nm <$> [100; 101; 102])) = None) as Hx by (vm_compute; reflexivity). by rewrite HM in Hx.
Qed.

End ShardHarnessExamples.
