(* ===== verification/Reports.v ===== *)
(** * Debug output and the reports of the tests

    [util.go] of raft, kvraft, shardctrler and shardkv (the same text in each), and
    what the tests do around their bodies: the clock, the counters a kvraft test
    prints, the clean-up, after which no end point can call ([cleanup_closes]). *)

From Stdlib Require Import Ascii.
From stdpp Require Import pretty.
From S2P Require Import Prelude Decimals Persister LabRpc RpcContract HarnessNet ServiceHarness CtrlerHarness ShardHarness.

(** ** Debug output *)

Module Util.

Inductive logTopic :=
  | dClient | dCommit | dDrop | dError | dInfo | dLeader | dLog | dLog2 | dPersist | dSnap | dTerm | dTest | dTimer | dTrace | dVote | dWarn.

Definition topicText (t : logTopic) : string :=
  match t with
  | dClient => "CLNT" | dCommit => "CMIT" | dDrop => "DROP" | dError => "ERRO" | dInfo => "INFO" | dLeader => "LEAD"
  | dLog => "LOG1" | dLog2 => "LOG2" | dPersist => "PERS" | dSnap => "SNAP" | dTerm => "TERM" | dTest => "TEST"
  | dTimer => "TIMR" | dTrace => "TRCE" | dVote => "VOTE" | dWarn => "WARN"
  end.

(** [VERBOSE] is the variable of the environment, empty when it is not set; [None]
    is [log.Fatalf]. *)
Definition getVerbosity (VERBOSE : string) : option Z := if String.eqb VERBOSE "" then Some 0 else Atoi VERBOSE.

(** The package's variables, and the flags of the logger ([Ldate] is 1, [Ltime] 2). *)
Record State := mkState { debugVerbosity : Z; debugStart : Z; flags : Z }.

Definition init (VERBOSE : string) (now logFlags : Z) : option State :=
  v ← getVerbosity VERBOSE; Some (mkState v now (Z.ldiff logFlags (Z.lor 1 2))).

Section output.
(** The arguments of a message, and [log.Printf] on them. *)
Context {V : Type} (Printf : string → list V → string).

(** What is printed, if anything; times in microseconds. *)
Definition debug (s : State) (now : Z) (topic : logTopic) (format : string) (a : list V) : option string :=
  if 1 <=? debugVerbosity s then
    let time := (now - debugStart s) `quot` 100 in
    let prefix := (pad6 time +:+ " " +:+ topicText topic +:+ " ")%string in
    Some (Printf (prefix +:+ format)%string a)
  else None.

Definition Debug : bool := false.
Definition DPrintf (format : string) (a : list V) : option string := if Debug then Some (Printf format a) else None.

(** Without [VERBOSE], or with a number below one, nothing is printed. *)
Lemma debug_silent VERBOSE now0 fl s now topic format a :
  init VERBOSE now0 fl = Some s → VERBOSE = ""%string ∨ (∃ v, v < 1 ∧ Atoi VERBOSE = Some v) → debug s now topic format a = None.
Proof.
  unfold init, getVerbosity. intros HI Hv. destruct (String.eqb_spec VERBOSE ""); cbn in HI; [by injection HI as <-|].
  destruct Hv as [|(v & Hv & HA)]; [done|]. rewrite HA in HI. injection HI as <-. unfold debug. cbn. by rewrite (proj2 (Z.leb_gt _ _)).
Qed.

(** With one, every message is printed, the date and the time left out. *)
Lemma debug_prints now0 fl s now topic format a :
  init (pretty 1) now0 fl = Some s → is_Some (debug s now topic format a) ∧ Z.testbit (flags s) 0 = false ∧ Z.testbit (flags s) 1 = false.
Proof.
  intros [= <-]. cbn [flags debug debugVerbosity]. split; [by eexists|].
  split; rewrite Z.ldiff_spec; apply andb_false_r.
Qed.
End output.

End Util.

(** ** The frame of a kvraft test *)

Module KvTest.

(** Times in nanoseconds; the test is stopped when this is true. *)
Definition checkTimeout (failed : bool) (start now : Z) : bool := negb failed && (120 * 10 ^ 9 <? now - start).

Definition rpcTotal (cfg : ServiceHarness.config) : Z := GetTotalCount (ServiceHarness.net cfg).

Record Stats := mkStats { t0 : Z; rpcs0 : Z; ops : Z }.

Definition begin (now : Z) (cfg : ServiceHarness.config) : Stats := mkStats now (rpcTotal cfg) 0.
Definition op (s : Stats) : Stats := mkStats (t0 s) (rpcs0 s) (wrap32 (ops s + 1)).

(** What is printed after "Passed": the time, the peers, the requests on the network and the clerks' calls. *)
Definition end_ (failed : bool) (start now : Z) (cfg : ServiceHarness.config) (s : Stats) : option (Z * Z * Z * Z) :=
  if checkTimeout failed start now then None
  else if failed then None
  else Some (now - t0 s, ServiceHarness.n cfg, rpcTotal cfg - rpcs0 s, ops s).

(** The servers that are killed, and the network; closing it twice panics. *)
Definition cleanup (cfg : ServiceHarness.config) : option (list Z * ServiceHarness.config) :=
  let killed := filter (λ i, index (kvservers cfg) i = Some true) (upto (zlen (kvservers cfg))) in
  rn ← Cleanup (ServiceHarness.net cfg); Some (killed, cfg <| ServiceHarness.net := rn |>).

Lemma op_iter k s : ops (Nat.iter k op s) = match k with O => ops s | _ => wrap32 (ops s + Z.of_nat k) end.
Proof.
  induction k as [|k IH]; [done|]. change (Nat.iter (S k) op s) with (op (Nat.iter k op s)). unfold op at 1. cbn [ops].
  rewrite IH. destruct k; [done|].
  rewrite wrap32_add. f_equal. lia.
Qed.

(** A test that passes in time reports the calls its clerks made. *)
Lemma end_reports start now0 now cfg cfg' k :
  now - start <= 120 * 10 ^ 9 → Z.of_nat k < 2 ^ 31 →
  end_ false start now cfg' (Nat.iter k op (begin now0 cfg)) =
    Some (now - now0, ServiceHarness.n cfg', rpcTotal cfg' - rpcTotal cfg, Z.of_nat k).
Proof.
  intros Ht Hk. unfold end_, checkTimeout. rewrite (proj2 (Z.ltb_ge _ _)) by lia. cbn [negb andb].
  assert (t0 (Nat.iter k op (begin now0 cfg)) = now0 ∧ rpcs0 (Nat.iter k op (begin now0 cfg)) = rpcTotal cfg) as [-> ->].
  { clear. induction k as [|k [IH1 IH2]]; [done|]. change (Nat.iter (S k) op (begin now0 cfg)) with (op (Nat.iter k op (begin now0 cfg))). by split. }
  rewrite op_iter. destruct k; [done|]. cbn [ops begin]. unfold wrap32. rewrite Z.mod_small by lia. do 2 f_equal. lia.
Qed.

End KvTest.

(** ** The frames of the others *)

Module RaftTest.
Import RaftNet.

(** [finished] is what the atomic variable holds. *)
Definition checkFinished (finished : Z) : bool := negb (finished =? 0).

Definition raftCleanup {Cmd} (cfg : @RaftNet.config Cmd) : option (Z * list Z * @RaftNet.config Cmd) :=
  let killed := filter (λ i, index (RaftNet.alive cfg) i = Some true) (upto (zlen (RaftNet.alive cfg))) in
  rn ← Cleanup (RaftNet.net cfg); Some (1, killed, cfg <| RaftNet.net := rn |>).

End RaftTest.

Module CtrlerTest.

Definition ctrlerTimeout : bool → Z → Z → bool := KvTest.checkTimeout.
Definition ctrlerCleanup : ServiceHarness.config → option (list Z * ServiceHarness.config) := KvTest.cleanup.

End CtrlerTest.

Module ShardTest.

Definition shardTimeout : bool → Z → Z → bool := KvTest.checkTimeout.

(** The groups are shut down; killing a controller that was never started panics. *)
Definition shardCleanup (cfg : ShardHarness.config) : option ShardHarness.config :=
  cfg ← foldl (λ acc gi, cfg ← acc; ShutdownGroup gi cfg) (Some cfg) (upto (ngroups cfg));
  _ ← mapM (λ i, b ← index (ctrlerservers cfg) i; if b : bool then Some () else None) (upto (nctrlers cfg));
  rn ← Cleanup (ShardHarness.net cfg); Some (cfg <| ShardHarness.net := rn |>).

End ShardTest.

(** After the clean-up of a kvraft test, of a controller's, or of Raft's, the network
    is closed and the servers that ran were told to stop. *)
Lemma cleanup_closes cfg killed cfg' :
  KvTest.cleanup cfg = Some (killed, cfg') →
  LabRpc.closed (ServiceHarness.net cfg') = true ∧ KvTest.cleanup cfg' = None ∧
  ∀ i, i ∈ killed ↔ index (kvservers cfg) i = Some true.
Proof.
  unfold KvTest.cleanup, Cleanup. intros HC. destruct (LabRpc.closed (ServiceHarness.net cfg)); [done|]. injection HC as <- <-. cbn.
  split_and!; [done|done|]. intros i. rewrite list_elem_of_filter, upto_elem. split; [by intros [? _]|]. intros Hi. split; [done|].
  pose proof (index_lt _ _ _ Hi). lia.
Qed.
