(* ===== verification/MRSequential.v ===== *)
(** * The sequential MapReduce ([main/mrsequential.go])

    The program that computes, in one process, what a MapReduce job should output;
    the tests compare the job with it.  For a reduce function that does not depend on
    the order of its values the finished job and the sequential program output the
    same lines, in some order ([mapreduce_equals_sequential]). *)

From S2P Require Import Prelude MapReduce.

Section sequential.
Context (mapf : string → string → list KeyValue) (reducef : string → list string → string).
(** [sort.Sort(ByKey(_))] and the contents of the files. *)
Context (sort : list KeyValue → list KeyValue) (content : string → option string).
Implicit Types (l : list KeyValue) (kv : KeyValue).

(** The loop over the input files; a file that cannot be read is fatal. *)
Definition readStep (acc : option (list KeyValue)) (filename : string) : option (list KeyValue) :=
  intermediate ← acc; c ← content filename; Some (intermediate ++ mapf filename c).

(** [for j < len(intermediate) && intermediate[j].Key == intermediate[i].Key { j++ }] *)
Fixpoint sameKey (fuel : nat) l (i j : nat) : nat :=
  match fuel, l !! i, l !! j with
  | S fuel, Some kvi, Some kvj => if bool_decide (Key kvj = Key kvi) then sameKey fuel l i (S j) else j
  | _, _, _ => j
  end.

(** The loop that calls Reduce on each distinct key; [None] without fuel. *)
Fixpoint reduceLoop (fuel : nat) l (i : nat) : option (list string) :=
  match fuel with
  | O => None
  | S fuel =>
    match l !! i with
    | None => Some []
    | Some kv =>
      let j := sameKey (length l) l i (S i) in
      let values := Value <$> take (j - i) (drop i l) in
      rest ← reduceLoop fuel l j; Some (line reducef (Key kv, values) :: rest)
    end
  end.

(** The lines of mr-out-0. *)
Definition mrsequential (files : list string) : option (list string) :=
  intermediate ← foldl readStep (Some []) files;
  let intermediate := sort intermediate in
  reduceLoop (S (length intermediate)) intermediate 0.

(** ** Its output *)

(** [sort.Sort(ByKey(_))]: some order in which keys do not decrease. *)
Definition sorts_by_key : Prop :=
  ∀ l, sort l ≡ₚ l ∧ StronglySorted (λ kv1 kv2, String.le (Key kv1) (Key kv2)) (sort l).

Lemma readStep_all files acc :
  (∀ f, f ∈ files → is_Some (content f)) → foldl readStep (Some acc) files = Some (acc ++ emitted mapf content files).
Proof.
  revert acc. induction files as [|f files IH]; intros acc Hf; cbn [foldl]; [by rewrite app_nil_r|].
  destruct (Hf f) as [c Hc]; [by left|]. unfold readStep at 2. cbn [mbind option_bind]. rewrite Hc. cbn [mbind option_bind].
  rewrite IH by (intros g Hg; apply Hf; by right). unfold emitted. cbn. by rewrite Hc, app_assoc.
Qed.

(** The inner loop ends behind the entries with the key. *)
Lemma sameKey_spec fuel l i j kvi :
  l !! i = Some kvi → (i < j)%nat → (length l <= fuel + j)%nat →
  let j' := sameKey fuel l i j in
  (j <= j')%nat ∧ ((j <= length l)%nat → (j' <= length l)%nat) ∧ (∀ k kv, (j <= k < j')%nat → l !! k = Some kv → Key kv = Key kvi) ∧
  (∀ kv, l !! j' = Some kv → Key kv ≠ Key kvi).
Proof.
  revert j. induction fuel as [|fuel IH]; intros j Hi Hj Hf; cbn [sameKey].
  { cbn in Hf. split_and!; [lia|done|lia|]. intros kv Hkv%lookup_lt_Some. lia. }
  rewrite Hi. destruct (l !! j) as [kvj|] eqn:Ej; [|split_and!; [lia|done|lia|congruence]].
  destruct (bool_decide _) eqn:Hb; [apply bool_decide_eq_true in Hb|apply bool_decide_eq_false in Hb; split_and!; [lia|done|lia|congruence]].
  destruct (IH (S j) Hi) as (H1 & H4 & H2 & H3); [lia|lia|]. split_and!; [lia| | |done].
  { intros _. apply H4. by apply lookup_lt_Some in Ej. }
  intros k kv Hk Hkv. destruct (decide (k = j)) as [->|]; [congruence|]. apply (H2 k); [lia|done].
Qed.

(** What is read of the entries from [i] on: one entry for each key, with its values. *)
Lemma reduceLoop_spec fuel l i :
  StronglySorted (λ kv1 kv2, String.le (Key kv1) (Key kv2)) l → (length l < fuel + i)%nat → (i <= length l)%nat →
  ∃ entries, reduceLoop fuel l i = Some (line reducef <$> entries) ∧ NoDup entries.*1 ∧
    (∀ k vs, (k, vs) ∈ entries → vs = valuesOf k (drop i l)) ∧
    (∀ k, k ∈ entries.*1 ↔ k ∈ Key <$> drop i l).
Proof.
  intros HS. revert i. induction fuel as [|fuel IH]; intros i Hf Hi; [lia|]. cbn [reduceLoop].
  destruct (l !! i) as [kv|] eqn:Ei.
  2:{ exists []. apply lookup_ge_None in Ei. rewrite drop_ge by done. split_and!; [done|constructor|by intros ? ? ?%elem_of_nil|done]. }
  destruct (sameKey_spec (length l) l i (S i) kv Ei) as (H1 & H4 & H2 & H3); [lia|lia|]. set (j := sameKey _ _ _ _) in *.
  specialize (H4 ltac:(by apply lookup_lt_Some in Ei)).
  destruct (IH j) as (entries & -> & HN & Hvs & Hks); [lia|done|]. cbn [mbind option_bind].
  assert (drop i l = take (j - i) (drop i l) ++ drop j l) as Hsplit.
  { rewrite <-(take_drop (j - i) (drop i l)) at 1. by rewrite drop_drop, Nat.add_comm, Nat.sub_add by lia. }
  assert (∀ kv', kv' ∈ take (j - i) (drop i l) → Key kv' = Key kv) as Hsame.
  { intros kv' [k Hk]%list_elem_of_lookup. apply lookup_take_Some in Hk as [Hk Hlt]. rewrite lookup_drop in Hk.
    destruct k as [|k]; [rewrite Nat.add_0_r in Hk; congruence|]. apply (H2 (i + S k)%nat); [lia|done]. }
  assert (∀ kv', kv' ∈ drop j l → Key kv' ≠ Key kv) as Hrest.
  { intros kv' [k Hk]%list_elem_of_lookup Heq. rewrite lookup_drop in Hk.
    destruct (lookup_lt_is_Some_2 l j) as [kvj Hj]; [apply lookup_lt_Some in Hk; lia|]. apply (H3 kvj Hj).
    apply (anti_symm String.le).
    - rewrite <-Heq. destruct k as [|k]; [rewrite Nat.add_0_r in Hk; by replace kv' with kvj by congruence|].
      eapply (StronglySorted_lookup _ _ j (j + S k) _ _ HS); [done|done|lia].
    - eapply (StronglySorted_lookup _ _ i j _ _ HS); [done|done|lia]. }
  assert (kv ∈ take (j - i) (drop i l)) as Hkv.
  { apply list_elem_of_lookup. exists 0%nat. by rewrite lookup_take_lt, lookup_drop, Nat.add_0_r by lia. }
  exists ((Key kv, Value <$> take (j - i) (drop i l)) :: entries). cbn [fmap list_fmap fst].
  generalize dependent (take (j - i) (drop i l)). intros same Hsplit Hsame Hkv.
  split_and!; [done| | |].
  - apply NoDup_cons. split; [|done]. rewrite Hks. intros (kv' & Heq & Hin)%list_elem_of_fmap. by apply (Hrest kv').
  - intros k vs [[= -> ->]|Hin]%elem_of_cons; unfold valuesOf; rewrite Hsplit, filter_app.
    + rewrite (filter_all _ same) by done. rewrite (filter_none _ (drop j l)) by done. by rewrite app_nil_r.
    + rewrite (Hvs k vs Hin). unfold valuesOf. rewrite (filter_none _ same); [done|]. intros kv' Hkv' <-.
      assert (Key kv' ∈ entries.*1) as (kv2 & Heq & Hin2)%Hks%list_elem_of_fmap by (apply list_elem_of_fmap; by exists (Key kv', vs)).
      apply (Hrest kv2 Hin2). rewrite <-Heq. by apply Hsame.
  - intros k. rewrite elem_of_cons, Hks, Hsplit, fmap_app, elem_of_app.
    assert (k ∈ Key <$> same ↔ k = Key kv) as ->; [|done]. rewrite list_elem_of_fmap. split; [|by intros ->; exists kv].
    intros (kv' & -> & Hin). by apply Hsame.
Qed.

Lemma valuesOf_nonempty k l : valuesOf k l ≠ [] ↔ k ∈ Key <$> l.
Proof.
  unfold valuesOf. rewrite list_elem_of_fmap. split.
  - destruct (filter _ l) as [|kv l'] eqn:Hf; [done|]. intros _.
    assert (kv ∈ filter (λ kv, Key kv = k) l) as [<- Hin]%list_elem_of_filter by (rewrite Hf; by left). by exists kv.
  - intros (kv & -> & Hin) Hnil%fmap_nil_inv. apply (not_elem_of_nil kv). rewrite <-Hnil. by apply list_elem_of_filter.
Qed.

(** ** The same as the job *)

(** The order of the values does not matter. *)
Definition any_order : Prop := ∀ k vs vs', vs ≡ₚ vs' → reducef k vs = reducef k vs'.

Context (files : list string).
#[local] Notation emitted := (emitted mapf content files).

(** The line of a key. *)
Definition lineOf (k : string) : string := line reducef (k, valuesOf k emitted).

Lemma lines_of entries :
  any_order → (∀ k vs, (k, vs) ∈ entries → vs ≡ₚ valuesOf k emitted) → line reducef <$> entries = lineOf <$> entries.*1.
Proof.
  intros HR. induction entries as [|[k vs] entries IH]; intros He; cbn; [done|]. f_equal.
  - unfold lineOf, line. cbn. rewrite (HR k vs (valuesOf k emitted)); [done|]. apply He. by left.
  - apply IH. intros k' vs' Hin. apply He. by right.
Qed.

Lemma mrsequential_lines :
  sorts_by_key → any_order → (∀ f, f ∈ files → is_Some (content f)) →
  ∃ keys, mrsequential files = Some (lineOf <$> keys) ∧ NoDup keys ∧ ∀ k, k ∈ keys ↔ k ∈ Key <$> emitted.
Proof.
  intros Hs HR Hf. unfold mrsequential. rewrite readStep_all by done. cbn [mbind option_bind app].
  destruct (Hs emitted) as [HP HS].
  destruct (reduceLoop_spec (S (length (sort emitted))) (sort emitted) 0 HS) as (entries & -> & HN & Hvs & Hks); [lia|lia|].
  exists entries.*1. rewrite drop_0 in *. split_and!; [|done|].
  - f_equal. apply lines_of; [done|]. intros k vs Hin. rewrite (Hvs k vs Hin). unfold valuesOf. by rewrite HP.
  - intros k. by rewrite Hks, HP.
Qed.

(** The outputs of the job, one after another. *)
Definition allLines (nRed : Z) (s : MR) : list string := concat ((λ y, default [] (outs s !! outname y)) <$> upto nRed).

Lemma allLines_keys nRed s :
  any_order → 0 < nRed →
  (∀ y, 0 <= y < nRed → ∃ lines, outs s !! outname y = Some lines ∧ outputOk mapf reducef content files nRed y lines) →
  ∃ keys, allLines nRed s = lineOf <$> keys ∧ NoDup keys ∧ ∀ k, k ∈ keys ↔ k ∈ Key <$> emitted.
Proof.
  intros HR Hn Ho.
  destruct (choose_list [] (λ y keys, default [] (outs s !! outname y) = lineOf <$> keys ∧ NoDup keys ∧
    ∀ k, k ∈ keys ↔ ihash k mod nRed = y ∧ k ∈ Key <$> emitted) (upto nRed)) as (g & Hg & _).
  { intros y Hy%upto_elem. destruct (Ho y Hy) as (lines & -> & entries & -> & HN & Hvs & Hall). exists entries.*1. cbn [default Datatypes.id].
    split_and!; [apply lines_of; [done|intros; by apply Hvs]|done|]. intros k. split.
    - intros ([k' vs] & -> & Hin)%list_elem_of_fmap. by destruct (Hvs k' vs Hin) as (? & ? & _).
    - intros [Hh (kv & -> & Hkv)%list_elem_of_fmap]. by apply Hall. }
  exists (concat (g <$> upto nRed)). split_and!.
  - unfold allLines. rewrite concat_fmap_fmap. f_equal. apply list_fmap_ext. intros i y Hy%list_elem_of_lookup_2. by apply Hg.
  - apply NoDup_concat_fmap; [apply upto_NoDup|intros y Hy; by apply Hg|].
    intros y y' k Hy Hy' Hk Hk'. apply (Hg y Hy) in Hk as [<- _]. by apply (Hg y' Hy') in Hk' as [<- _].
  - intros k. rewrite elem_of_concat. split.
    + intros (l & (y & -> & Hy)%list_elem_of_fmap & Hk). by apply (Hg y Hy) in Hk as [_ ?].
    + intros Hk. assert (ihash k mod nRed ∈ upto nRed) as Hy by (apply upto_elem, Z.mod_pos_bound; lia).
      exists (g (ihash k mod nRed)). split; [by apply list_elem_of_fmap_2|]. by apply (Hg _ Hy).
Qed.

End sequential.

(** A sorting function exists. *)
Definition keyLe (kv1 kv2 : KeyValue) : Prop := String.le (Key kv1) (Key kv2).
#[local] Instance keyLe_dec kv1 kv2 : Decision (keyLe kv1 kv2).
Proof. unfold keyLe. apply _. Defined.
#[local] Instance keyLe_trans : Transitive keyLe.
Proof. intros x y z. unfold keyLe. by intros ->. Qed.
#[local] Instance keyLe_total : Total keyLe.
Proof. intros x y. apply (total String.le). Qed.
Definition sortByKey : list KeyValue → list KeyValue := merge_sort keyLe.

Lemma sortByKey_sorts : sorts_by_key sortByKey.
Proof. intros l. split; [apply merge_sort_Permutation|apply (StronglySorted_merge_sort keyLe)]. Qed.

Section finished.
Context (ord : TaskOrder) (HO : valid_tasks ord).
Context (mapf : string → string → list KeyValue) (reducef : string → list string → string) (HR : any_order reducef).
Context (sort : list KeyValue → list KeyValue) (Hsort : ∀ l, sort l ≡ₚ l).
Context (json : KeyValue → KeyValue) (content : string → option string).
Context (Hjson : ∀ f d kv, kv ∈ mapf f d → json kv = kv).
Context (fileList : list string) (nRed now : Z) (Hne : fileList ≠ []) (HND : NoDup fileList) (Hn : 0 < nRed).
Context (s : MR) (Hrun : rtc (mr_step ord mapf reducef sort json content) (mkMR (MakeCoordinator now fileList nRed) ∅ ∅ []) s).
Context (Hdone : Done (coord s) = true).

Lemma job_lines :
  (∀ f, f ∈ fileList → is_Some (content f)) ∧
  ∃ keys, allLines nRed s = lineOf mapf reducef content fileList <$> keys ∧ NoDup keys ∧
    ∀ k, k ∈ keys ↔ k ∈ Key <$> emitted mapf content fileList.
Proof.
  apply Done_iff in Hdone as [Hm Hr].
  pose proof (job_reached ord HO mapf reducef sort Hsort json content Hjson fileList nRed Hne HND Hn now s Hrun) as I.
  destruct (job_outputs _ _ _ _ _ _ s I Hm Hr) as [Hread Houts]. split; [done|]. by apply allLines_keys.
Qed.

(** C15: a finished job computes what the sequential program computes.  For a reduce
    function that does not depend on the order of the values, whatever the workers did
    and however often tasks were repeated, the sequential program succeeds on the same
    files, and the output files together have exactly its lines, in some order. *)
Theorem mapreduce_equals_sequential seqSort :
  sorts_by_key seqSort →
  ∃ lines, mrsequential mapf reducef seqSort content fileList = Some lines ∧ allLines nRed s ≡ₚ lines.
Proof.
  intros Hseq. destruct job_lines as [Hread (keys' & -> & HN' & Hk')].
  destruct (mrsequential_lines mapf reducef seqSort content fileList Hseq HR Hread) as (keys & Hs & HN & Hk).
  exists (lineOf mapf reducef content fileList <$> keys). split; [done|]. apply fmap_Permutation, NoDup_Permutation; [done..|].
  intros k. by rewrite Hk, Hk'.
Qed.

End finished.
