(* ===== verification/MRProcesses.v ===== *)
(** * The MapReduce programs as processes (main/mrcoordinator.go, main/mrworker.go)

    The command lines, the plugins, the calls over the coordinator's socket, and the
    processes: the coordinator polls [Done] and returns a second after it was true;
    a worker process runs the map loop and the reduce loop side by side, dies with
    [log.Fatal] when a request fails, and returns when both loops have.  The system
    of [MapReduce] simulates them ([MapReduce.mr_step]), so what it shows of finished
    jobs holds when the coordinator or a worker has returned. *)

From stdpp Require Import pretty.
From S2P Require Import Prelude MapReduce MRSequential.

(** ** Command lines and plugins *)

Definition MapFn : Type := string → string → list KeyValue.
Definition ReduceFn : Type := string → list string → string.

(** What a symbol of a plugin is, as far as the type assertions tell. *)
Inductive Symbol := MapSymbol (f : MapFn) | ReduceSymbol (f : ReduceFn) | OtherSymbol.

(** How a process ends early: [os.Exit(1)] and [log.Fatal], or a panic. *)
Definition fatal : Z := 1.
Definition panicked : Z := 2.

Section programs.
(** [plugin.Open], giving [Lookup], and the contents of the input files. *)
Context (plugins : string → option (string → option Symbol)) (content : string → option string).

Definition loadPlugin (filename : string) : Z + MapFn * ReduceFn :=
  match plugins filename with
  | None => inl fatal
  | Some Lookup =>
    match Lookup "Map" with
    | None => inl fatal
    | Some (MapSymbol mapf) =>
      match Lookup "Reduce" with
      | None => inl fatal
      | Some (ReduceSymbol reducef) => inr (mapf, reducef)
      | Some _ => inl panicked
      end
    | Some _ => inl panicked
    end
  end.

Definition mrcoordinator (now : Z) (argv : list string) : Z + Coordinator :=
  if zlen argv <? 2 then inl fatal else inr (MakeCoordinator now (drop 1 argv) 10).

Definition mrworker (argv : list string) : Z + MapFn * ReduceFn :=
  match argv with [_; filename] => loadPlugin filename | _ => inl fatal end.

(** The lines of mr-out-0. *)
Definition mrsequentialMain (sort : list KeyValue → list KeyValue) (argv : list string) : Z + list string :=
  match argv with
  | _ :: filename :: _ :: _ =>
    match loadPlugin filename with
    | inl code => inl code
    | inr (mapf, reducef) => match mrsequential mapf reducef sort content (drop 2 argv) with None => inl fatal | Some lines => inr lines end
    end
  | _ => inl fatal
  end.

End programs.

(** ** Calls *)

(** The socket of the coordinator a user started. *)
Definition coordinatorSock (uid : Z) : string := ("/var/tmp/824-mr-" +:+ pretty uid)%string.

(** The example handler and its caller. *)
Definition Example_ (X : Z) : Z := wrap64 (X + 1).
Definition CallExample (ok : bool) : string :=
  if ok then ("reply.Y " +:+ pretty (Example_ 99) +:+ newline)%string else ("call failed!" +:+ newline)%string.

(** What happens to a call on a connection: an error is one before or after the
    handler has run. *)
Inductive Fate := Delivered | RequestLost | ReplyLost.
Inductive CallResult := DialFailed | CallFailed | CallOk (reply : Reply).

(** ** Processes *)

Inductive MapLoop :=
  | MapAsk                                                        (* about to ask for a task *)
  | MapWrites (file : string) (pending : list (string * list KeyValue))
  | MapReturned.
Inductive ReduceLoop :=
  | ReduceAsk
  | ReduceReads (y n x : Z) (result : gmap string (list string))
  | ReduceReport (y : Z)
  | ReduceReturned.

Record Worker := mkWorker { fns : MapFn * ReduceFn; uid : Z; mapLoop : MapLoop; reduceLoop : ReduceLoop }.
Inductive Process := Runs (w : Worker) | Ended (code : Z).

(** [main] of mrcoordinator.go: the loop, the last second, the end. *)
Inductive MainPhase := Polling | LastSecond | Returned.

Record Procs := mkProcs {
  coordinator : Coordinator;
  phase : MainPhase;
  interm : gmap string (list KeyValue);
  outputs : gmap string (list string);
  procs : list Process;
}.

#[export] Instance eta_Worker : Eta Worker := λ w, mkWorker (fns w) (uid w) (mapLoop w) (reduceLoop w).
#[export] Instance set_mapLoop : Setter mapLoop.
Proof. setter. Defined.
#[export] Instance set_reduceLoop : Setter reduceLoop.
Proof. setter. Defined.
#[export] Instance eta_Procs : Eta Procs := λ p, mkProcs (coordinator p) (phase p) (interm p) (outputs p) (procs p).
#[export] Instance set_coordinator : Setter coordinator.
Proof. setter. Defined.
#[export] Instance set_phase : Setter phase.
Proof. setter. Defined.
#[export] Instance set_interm : Setter interm.
Proof. setter. Defined.
#[export] Instance set_outputs : Setter outputs.
Proof. setter. Defined.
#[export] Instance set_procs : Setter procs.
Proof. setter. Defined.

Section processes.
Context (plugins : string → option (string → option Symbol)) (content : string → option string).
Context (ord : TaskOrder) (sort : list KeyValue → list KeyValue) (json : KeyValue → KeyValue).
(** The user of the coordinator, and the order of the [k]th range loop over a table. *)
Context (uid0 : Z) (range : nat → gmap string (list string) → list (string * list string)).
Implicit Types (w : Worker) (p : Procs) (r : CallResult).

(** The socket somebody listens on. *)
Definition listening p : option string := match phase p with Returned => None | _ => Some (coordinatorSock uid0) end.

(** [call] to [Coordinator.DispatchTask], by a process of user [u]. *)
Definition call (u : Z) (fate : Fate) (now : Z) (args : Args) p : Procs * CallResult :=
  if decide (listening p = Some (coordinatorSock u)) then
    let '(c, reply) := DispatchTask ord now args (coordinator p) in
    match fate with
    | Delivered => (p <| coordinator := c |>, CallOk reply)
    | ReplyLost => (p <| coordinator := c |>, CallFailed)
    | RequestLost => (p, CallFailed)
    end
  else (p, DialFailed).

(** The loops after their requests ... *)
Definition mapReply r w : Process :=
  match r with
  | DialFailed | CallFailed => Ended fatal
  | CallOk reply =>
    if negb (MasterStatus reply =? MapStatus) then Runs (w <| mapLoop := MapReturned |>)
    else if ReplyCode reply =? NoTask then Runs (w <| mapLoop := MapAsk |>)
    else if ReplyCode reply =? NewTask then
      match content (MapFileName reply) with
      | None => Ended fatal
      | Some data =>
        match mapFiles (fns w).1 sort json reply data with
        | None => Ended panicked
        | Some pending => Runs (w <| mapLoop := MapWrites (MapFileName reply) pending |>)
        end
      end
    else Runs (w <| mapLoop := MapAsk |>)
  end.

Definition reduceReply r w : Process :=
  match r with
  | DialFailed | CallFailed => Ended fatal
  | CallOk reply =>
    if MasterStatus reply =? ShutDowned then Runs (w <| reduceLoop := ReduceReturned |>)
    else if MasterStatus reply =? ReduceStatus then
      if ReplyCode reply =? NewTask then Runs (w <| reduceLoop := ReduceReads (ReduceTaskId reply) (NFile reply) 0 ∅ |>)
      else Runs (w <| reduceLoop := ReduceAsk |>)
    else Runs (w <| reduceLoop := ReduceAsk |>)
  end.

(** ... and after their reports, whose result they ignore. *)
Definition reported r w : Process := match r with DialFailed => Ended fatal | _ => Runs w end.

(** One step of a loop, between the points where other processes can be seen. *)
Definition mapStep (fate : Fate) (now : Z) w p : option (Procs * Process) :=
  match mapLoop w with
  | MapAsk => let '(p, r) := call (uid w) fate now mapArgs p in Some (p, mapReply r w)
  | MapWrites f [] => let '(p, r) := call (uid w) fate now (mapFinishArgs f) p in Some (p, reported r (w <| mapLoop := MapAsk |>))
  | MapWrites f ((name, kvs) :: pending) =>
    Some (p <| interm := <[name := kvs]> (interm p) |>, Runs (w <| mapLoop := MapWrites f pending |>))
  | MapReturned => None
  end.

Definition reduceStep (fate : Fate) (now : Z) (k : nat) w p : option (Procs * Process) :=
  match reduceLoop w with
  | ReduceAsk => let '(p, r) := call (uid w) fate now reduceArgs p in Some (p, reduceReply r w)
  | ReduceReads y n x result =>
    if x <? n then
      match interm p !! iname x y with
      | None => Some (p, Ended fatal)
      | Some kvs => Some (p, Runs (w <| reduceLoop := ReduceReads y n (x + 1) (readFile kvs result) |>))
      end
    else Some (p <| outputs := <[outname y := line (fns w).2 <$> range k result]> (outputs p) |>, Runs (w <| reduceLoop := ReduceReport y |>))
  | ReduceReport y =>
    let '(p, r) := call (uid w) fate now (reduceFinishArgs y) p in Some (p, reported r (w <| reduceLoop := ReduceAsk |>))
  | ReduceReturned => None
  end.

Inductive Event :=
  | PPoll                                          (* the coordinator calls Done *)
  | PReturn                                        (* and returns *)
  | PStart (argv : list string) (u : Z)            (* a worker process is started *)
  | PMap (i : nat) (fate : Fate) (now : Z)
  | PReduce (i : nat) (fate : Fate) (now : Z) (k : nat)
  | PExit (i : nat)                                (* [wg.Wait()] and the end of [main] *)
  | PDie (i : nat) (code : Z)                      (* the process is killed or crashes in an application function *).

Definition setProc (i : nat) (x : Process) p : Procs := p <| procs := <[i := x]> (procs p) |>.

Definition pstep (ev : Event) p : option Procs :=
  match ev with
  | PPoll => match phase p with Polling => Some (if Done (coordinator p) then p <| phase := LastSecond |> else p) | _ => None end
  | PReturn => match phase p with LastSecond => Some (p <| phase := Returned |>) | _ => None end
  | PStart argv u =>
    let x := match mrworker plugins argv with inl code => Ended code | inr f => Runs (mkWorker f u MapAsk ReduceAsk) end in
    Some (p <| procs := procs p ++ [x] |>)
  | PMap i fate now =>
    match procs p !! i with Some (Runs w) => '(p, x) ← mapStep fate now w p; Some (setProc i x p) | _ => None end
  | PReduce i fate now k =>
    match procs p !! i with Some (Runs w) => '(p, x) ← reduceStep fate now k w p; Some (setProc i x p) | _ => None end
  | PExit i =>
    match procs p !! i with
    | Some (Runs (mkWorker _ _ MapReturned ReduceReturned)) => Some (setProc i (Ended 0) p)
    | _ => None
    end
  | PDie i code =>
    match procs p !! i with Some (Runs w) => if code =? 0 then None else Some (setProc i (Ended code) p) | _ => None end
  end.

Definition prun p p' : Prop := ∃ ev, pstep ev p = Some p'.
Definition startProcs (c : Coordinator) : Procs := mkProcs c Polling ∅ ∅ [].

(** ** The processes are workers of [MapReduce] *)

Definition mapJobs (l : MapLoop) : list Job := match l with MapWrites f pending => [MapJob f pending] | _ => [] end.
Definition reduceJobs (l : ReduceLoop) : list Job :=
  match l with ReduceReads y n x result => [ReduceJob y n x result] | ReduceReport y => [ReduceWritten y] | _ => [] end.
Definition jobsOf (x : Process) : list Job := match x with Runs w => mapJobs (mapLoop w) ++ reduceJobs (reduceLoop w) | Ended _ => [] end.
Definition allJobs (l : list Process) : list Job := concat (jobsOf <$> l).

#[local] Instance allJobs_perm : Proper ((≡ₚ) ==> (≡ₚ)) allJobs.
Proof.
  intros l l' HP. induction HP as [|x l l' _ IH|x y l|l1 l2 l3 _ IH1 _ IH2]; unfold allJobs in *; cbn; [done|by rewrite IH| |by etrans].
  by rewrite !app_assoc, (Permutation_app_comm (jobsOf y)).
Qed.

Lemma allJobs_split l i x : l !! i = Some x → allJobs l ≡ₚ jobsOf x ++ allJobs (delete i l).
Proof. intros Hi. rewrite (delete_Permutation l i x Hi) at 1. done. Qed.

Lemma delete_insert (l : list Process) (i : nat) x : delete i (<[i := x]> l) = delete i l.
Proof. revert i. induction l as [|y l IH]; intros [|i]; cbn; [done..|]. f_equal. apply IH. Qed.

Lemma allJobs_insert l i x y : l !! i = Some x → allJobs (<[i := y]> l) ≡ₚ jobsOf y ++ allJobs (delete i l).
Proof.
  intros Hi. rewrite (allJobs_split _ i y) by (apply list_lookup_insert_eq; by eapply lookup_lt_Some).
  by rewrite delete_insert.
Qed.

Context (mapf : MapFn) (reducef : ReduceFn) (Hplug : ∀ f g, loadPlugin plugins f = inr g → g = (mapf, reducef)).
Context (Hrange : ∀ k m, range k m ≡ₚ map_to_list m).
#[local] Notation mstep := (mr_step ord mapf reducef sort json content).

(** A state of [MapReduce] that shows what the processes did. *)
Record shows (s : MR) p (js : list Job) : Prop := {
  sh_coord : coord s = coordinator p;
  sh_inter : inter s = interm p;
  sh_outs : outs s = outputs p;
  sh_jobs : jobs s ≡ₚ js;
}.

Lemma jobs_position js (j : Job) rest : js ≡ₚ j :: rest → ∃ l1 l2, js = l1 ++ j :: l2 ∧ l1 ++ l2 ≡ₚ rest.
Proof.
  intros HP. assert (j ∈ js) as (l1 & l2 & ->)%list_elem_of_split by (rewrite HP; by left). exists l1, l2. split; [done|].
  by rewrite <-Permutation_middle in HP; apply Permutation_cons_inv in HP.
Qed.

(** Jobs whose process ends are lost. *)
Lemma shows_lost s p js rest : shows s p (js ++ rest) → ∃ s', rtc mstep s s' ∧ shows s' p rest.
Proof.
  revert s. induction js as [|j js IH]; intros s HS; [by exists s|]. destruct s as [c fs os l].
  destruct (jobs_position l j (js ++ rest)) as (l1 & l2 & -> & HP); [apply HS|].
  destruct (IH (mkMR c fs os (l1 ++ l2))) as (s' & HR & HS'); [by destruct HS; split|].
  exists s'. split; [|done]. eapply rtc_l; [apply mr_crash|done].
Qed.

Lemma call_cases u fate now args p p' r :
  call u fate now args p = (p', r) →
  (p' = p ∧ (r = DialFailed ∨ r = CallFailed)) ∨
  (p' = p <| coordinator := (DispatchTask ord now args (coordinator p)).1 |> ∧
   (r = CallFailed ∨ r = CallOk (DispatchTask ord now args (coordinator p)).2)).
Proof.
  unfold call. destruct (decide _); [|by intros [= <- <-]; auto]. destruct (DispatchTask _ _ _ _) as [c reply].
  destruct fate; intros [= <- <-]; auto.
Qed.

Lemma shows_idle s p js now args :
  shows s p js → ReqType args = MapRequest ∨ ReqType args = ReduceRequest →
  ∃ s', rtc mstep s s' ∧ shows s' (p <| coordinator := (DispatchTask ord now args (coordinator p)).1 |>) js.
Proof.
  intros HS Hreq. destruct s as [c fs os l]. eexists. split; [apply rtc_once, (mr_idle _ _ _ _ _ _ now); exact Hreq|].
  destruct HS as [Hc ? ? ?]. cbn in *. by split; cbn; [rewrite Hc|..].
Qed.

Definition mapJobsOf (x : Process) : list Job := match x with Runs w => mapJobs (mapLoop w) | Ended _ => [] end.
Definition reduceJobsOf (x : Process) : list Job := match x with Runs w => reduceJobs (reduceLoop w) | Ended _ => [] end.

Lemma sim_map fate now w s p p' x rest :
  fns w = (mapf, reducef) → mapStep fate now w p = Some (p', x) → shows s p (mapJobs (mapLoop w) ++ rest) →
  ∃ s', rtc mstep s s' ∧ shows s' p' (mapJobsOf x ++ rest).
Proof.
  intros Hf HS HR. unfold mapStep in HS. destruct (mapLoop w) as [|f [|[name kvs] pending]|]; cbn [mapJobs app] in HR; [..|done].
  - destruct (call _ _ _ _ _) as [p1 r] eqn:HC. injection HS as <- <-.
    destruct (call_cases _ _ _ _ _ _ _ HC) as [[-> [-> | ->]]|[-> Hr]]; [by exists s..|].
    destruct (shows_idle s p rest now mapArgs HR) as (s1 & HR1 & HS1); [by left|]. destruct Hr as [-> | ->]; [by exists s1|].
    destruct (DispatchTask ord now mapArgs (coordinator p)) as [c' reply] eqn:HD. cbn [fst snd mapReply] in *.
    destruct (Z.eqb_spec (MasterStatus reply) MapStatus) as [Hm|]; cbn [negb]; [|by exists s1].
    destruct (Z.eqb_spec (ReplyCode reply) NoTask); [by exists s1|]. destruct (Z.eqb_spec (ReplyCode reply) NewTask) as [Hn|]; [|by exists s1].
    destruct (content _) as [data|] eqn:Hd; [|by exists s1]. destruct (mapFiles _ _ _ _ _) as [pending|] eqn:HF; [|by exists s1].
    destruct s as [c fs os l]. destruct HR as [Hc Hi Ho Hj]. cbn in Hc, Hi, Ho, Hj. subst c. rewrite Hf in HF.
    eexists. split; [eapply rtc_once, (mr_map_request _ _ _ _ _ _ now); eauto|]. split; try done. cbn. by rewrite Hj.
  - destruct (call _ _ _ _ _) as [p1 r] eqn:HC. injection HS as <- <-. destruct s as [c fs os l].
    destruct (jobs_position l (MapJob f []) rest) as (l1 & l2 & -> & HP); [apply HR|]. destruct HR as [Hc Hi Ho _]. cbn in Hc, Hi, Ho. subst c.
    assert (∀ w', mapJobsOf (reported r (w' <| mapLoop := MapAsk |>)) = []) as -> by by intros; destruct r.
    destruct (call_cases _ _ _ _ _ _ _ HC) as [[-> _]|[-> _]]; eexists.
    + split; [apply rtc_once, mr_crash|by split].
    + split; [apply rtc_once, (mr_map_finish _ _ _ _ _ _ now)|by split].
  - injection HS as <- <-. destruct s as [c fs os l]. destruct (jobs_position l _ rest (sh_jobs _ _ _ HR)) as (l1 & l2 & Hl & HP). cbn in Hl. subst l.
    destruct HR as [Hc Hi Ho _]. cbn in Hc, Hi, Ho. eexists. split; [apply rtc_once, mr_map_write|]. split; try done; cbn; [by rewrite Hi|].
    by rewrite <-HP, Permutation_middle.
Qed.

Lemma sim_reduce fate now k w s p p' x rest :
  fns w = (mapf, reducef) → reduceStep fate now k w p = Some (p', x) → shows s p (reduceJobs (reduceLoop w) ++ rest) →
  ∃ s', rtc mstep s s' ∧ shows s' p' (reduceJobsOf x ++ rest).
Proof.
  intros Hf HS HR. unfold reduceStep in HS. destruct (reduceLoop w) as [|y n x0 result|y|]; cbn [reduceJobs app] in HR; [..|done].
  - destruct (call _ _ _ _ _) as [p1 r] eqn:HC. injection HS as <- <-.
    destruct (call_cases _ _ _ _ _ _ _ HC) as [[-> [-> | ->]]|[-> Hr]]; [by exists s..|].
    destruct (shows_idle s p rest now reduceArgs HR) as (s1 & HR1 & HS1); [by right|]. destruct Hr as [-> | ->]; [by exists s1|].
    destruct (DispatchTask ord now reduceArgs (coordinator p)) as [c' reply] eqn:HD. cbn [fst snd reduceReply] in *.
    destruct (Z.eqb_spec (MasterStatus reply) ShutDowned); [by exists s1|].
    destruct (Z.eqb_spec (MasterStatus reply) ReduceStatus) as [Hm|]; [|by exists s1].
    destruct (Z.eqb_spec (ReplyCode reply) NewTask) as [Hn|]; [|by exists s1].
    destruct s as [c fs os l]. destruct HR as [Hc Hi Ho Hj]. cbn in Hc, Hi, Ho, Hj. subst c.
    eexists. split; [eapply rtc_once, (mr_reduce_request _ _ _ _ _ _ now); eauto|]. split; try done. cbn. by rewrite Hj.
  - destruct s as [c fs os l]. destruct (jobs_position l _ rest (sh_jobs _ _ _ HR)) as (l1 & l2 & Hl & HP). cbn in Hl. subst l.
    destruct HR as [Hc Hi Ho _]. cbn in Hc, Hi, Ho. destruct (Z.ltb_spec x0 n).
    + destruct (interm p !! iname x0 y) as [kvs|] eqn:Hkv; injection HS as <- <-.
      * eexists. split; [apply rtc_once, (mr_reduce_read _ _ _ _ _ _ _ _ _ _ _ _ _ _ _ kvs); [done|by rewrite Hi]|].
        split; try done. cbn. by rewrite <-HP, Permutation_middle.
      * eexists. split; [apply rtc_once, mr_crash|by split].
    + injection HS as <- <-. eexists. split; [apply rtc_once, (mr_reduce_write _ _ _ _ _ _ _ _ _ _ _ _ _ _ _ (range k result)); [done|apply Hrange]|].
      rewrite Hf. split; try done; cbn; [by rewrite Ho|]. by rewrite <-HP, Permutation_middle.
  - destruct (call _ _ _ _ _) as [p1 r] eqn:HC. injection HS as <- <-. destruct s as [c fs os l].
    destruct (jobs_position l (ReduceWritten y) rest) as (l1 & l2 & -> & HP); [apply HR|]. destruct HR as [Hc Hi Ho _]. cbn in Hc, Hi, Ho. subst c.
    assert (∀ w', reduceJobsOf (reported r (w' <| reduceLoop := ReduceAsk |>)) = []) as -> by by intros; destruct r.
    destruct (call_cases _ _ _ _ _ _ _ HC) as [[-> _]|[-> _]]; eexists.
    + split; [apply rtc_once, mr_crash|by split].
    + split; [apply rtc_once, (mr_reduce_finish _ _ _ _ _ _ now)|by split].
Qed.

Definition loaded (x : Process) : Prop := match x with Runs w => fns w = (mapf, reducef) | Ended _ => True end.

Lemma mapStep_keeps fate now w p p' x :
  mapStep fate now w p = Some (p', x) →
  procs p' = procs p ∧ phase p' = phase p ∧ x ≠ Ended 0 ∧ ∀ w', x = Runs w' → fns w' = fns w ∧ reduceLoop w' = reduceLoop w.
Proof.
  intros HS. unfold mapStep in HS. destruct (mapLoop w) as [|f [|[name kvs] pending]|]; [..|done].
  - destruct (call _ _ _ _ _) as [p1 r] eqn:HC. injection HS as <- <-.
    assert (procs p1 = procs p ∧ phase p1 = phase p) as [-> ->] by (destruct (call_cases _ _ _ _ _ _ _ HC) as [[-> _]|[-> _]]; done).
    unfold mapReply. repeat case_match; split_and!; try done; by intros w' [= <-].
  - destruct (call _ _ _ _ _) as [p1 r] eqn:HC. injection HS as <- <-.
    assert (procs p1 = procs p ∧ phase p1 = phase p) as [-> ->] by (destruct (call_cases _ _ _ _ _ _ _ HC) as [[-> _]|[-> _]]; done).
    destruct r; split_and!; try done; by intros w' [= <-].
  - injection HS as <- <-. split_and!; try done; by intros w' [= <-].
Qed.

Lemma reduceStep_keeps fate now k w p p' x :
  reduceStep fate now k w p = Some (p', x) →
  procs p' = procs p ∧ phase p' = phase p ∧ x ≠ Ended 0 ∧ ∀ w', x = Runs w' → fns w' = fns w ∧ mapLoop w' = mapLoop w.
Proof.
  intros HS. unfold reduceStep in HS. destruct (reduceLoop w) as [|y n x0 result|y|]; [..|done].
  - destruct (call _ _ _ _ _) as [p1 r] eqn:HC. injection HS as <- <-.
    assert (procs p1 = procs p ∧ phase p1 = phase p) as [-> ->] by (destruct (call_cases _ _ _ _ _ _ _ HC) as [[-> _]|[-> _]]; done).
    unfold reduceReply. repeat case_match; split_and!; try done; by intros w' [= <-].
  - repeat case_match; injection HS as <- <-; split_and!; try done; by intros w' [= <-].
  - destruct (call _ _ _ _ _) as [p1 r] eqn:HC. injection HS as <- <-.
    assert (procs p1 = procs p ∧ phase p1 = phase p) as [-> ->] by (destruct (call_cases _ _ _ _ _ _ _ HC) as [[-> _]|[-> _]]; done).
    destruct r; split_and!; try done; by intros w' [= <-].
Qed.

(** A process goes on, or ends and loses the job of its other loop. *)
Lemma shows_process s p i x x' (others : list Job) :
  procs p !! i = Some x → shows s p (jobsOf x' ++ others ++ allJobs (delete i (procs p))) → 
  ∃ s', rtc mstep s s' ∧ shows s' (setProc i x' p) (allJobs (procs (setProc i x' p))).
Proof.
  intros Hi HS. destruct (shows_lost s p others (jobsOf x' ++ allJobs (delete i (procs p)))) as (s' & HR & HS').
  { destruct HS. split; try done. rewrite sh_jobs0. by rewrite !app_assoc, (Permutation_app_comm others). }
  exists s'. split; [done|]. destruct HS'. split; try done.
  change (procs (setProc i x' p)) with (<[i := x']> (procs p)). by rewrite (allJobs_insert _ _ _ _ Hi).
Qed.

Lemma sim_process ev s p p' :
  pstep ev p = Some p' → shows s p (allJobs (procs p)) → Forall loaded (procs p) →
  ∃ s', rtc mstep s s' ∧ shows s' p' (allJobs (procs p')) ∧ Forall loaded (procs p').
Proof.
  intros HS HR HL. assert (∀ i x, procs p !! i = Some x → loaded x) as Hl by (intros; by eapply Forall_lookup_1).
  destruct ev as [| |argv u|i fate now|i fate now k|i|i code]; cbn [pstep] in HS.
  - destruct (phase p); try done. injection HS as <-. exists s. destruct (Done _); by destruct HR.
  - destruct (phase p); try done. injection HS as <-. exists s. by destruct HR.
  - injection HS as <-. exists s. split; [done|]. cbn. split.
    + destruct HR as [? ? ? Hj]. split; try done. unfold allJobs. rewrite fmap_app, concat_app. cbn. rewrite Hj.
      destruct (mrworker _ _); cbn; by rewrite !app_nil_r.
    + apply Forall_app. split; [done|]. apply Forall_singleton. destruct (mrworker _ _) as [|f] eqn:HM; [done|]. cbn. unfold mrworker in HM.
      destruct argv as [|a [|b [|]]]; try done. by eapply Hplug.
  - destruct (procs p !! i) as [[w|]|] eqn:Hi; try done. inv_bind HS. destruct x as [p1 x]. injection HS as <-.
    destruct (mapStep_keeps _ _ _ _ _ _ E) as (Hp & _ & _ & Hx).
    destruct (sim_map fate now w s p p1 x (reduceJobs (reduceLoop w) ++ allJobs (delete i (procs p)))) as (s1 & HR1 & HS1);
      [by apply (Hl i (Runs w))|done|destruct HR; split; try done; rewrite sh_jobs0, (allJobs_split _ i _ Hi); cbn; by rewrite app_assoc|].
    rewrite <-Hp in Hi, HS1. destruct x as [w'|code].
    + destruct (Hx w' eq_refl) as [Hf Hr]. destruct (shows_process s1 p1 i (Runs w) (Runs w') []) as (s2 & HR2 & HS2); [done| |].
      { cbn. by rewrite Hr, <-app_assoc. }
      exists s2. split_and!; [by etrans|done|]. cbn. rewrite Hp. apply Forall_insert; [done|]. cbn. rewrite Hf. by apply (Hl i (Runs w)); rewrite <-Hp.
    + destruct (shows_process s1 p1 i (Runs w) (Ended code) (reduceJobs (reduceLoop w))) as (s2 & HR2 & HS2); [done|done|].
      exists s2. split_and!; [by etrans|done|]. cbn. rewrite Hp. by apply Forall_insert.
  - destruct (procs p !! i) as [[w|]|] eqn:Hi; try done. inv_bind HS. destruct x as [p1 x]. injection HS as <-.
    destruct (reduceStep_keeps _ _ _ _ _ _ _ E) as (Hp & _ & _ & Hx).
    destruct (sim_reduce fate now k w s p p1 x (mapJobs (mapLoop w) ++ allJobs (delete i (procs p)))) as (s1 & HR1 & HS1);
      [by apply (Hl i (Runs w))|done|destruct HR; split; try done; rewrite sh_jobs0, (allJobs_split _ i _ Hi); cbn;
       by rewrite !app_assoc, (Permutation_app_comm (mapJobs _))|].
    rewrite <-Hp in Hi, HS1. destruct x as [w'|code].
    + destruct (Hx w' eq_refl) as [Hf Hr]. destruct (shows_process s1 p1 i (Runs w) (Runs w') []) as (s2 & HR2 & HS2); [done| |].
      { cbn. rewrite Hr. destruct HS1; split; try done. rewrite sh_jobs0. cbn. by rewrite !app_assoc, (Permutation_app_comm (mapJobs _)). }
      exists s2. split_and!; [by etrans|done|]. cbn. rewrite Hp. apply Forall_insert; [done|]. cbn. rewrite Hf. by apply (Hl i (Runs w)); rewrite <-Hp.
    + destruct (shows_process s1 p1 i (Runs w) (Ended code) (mapJobs (mapLoop w))) as (s2 & HR2 & HS2); [done|done|].
      exists s2. split_and!; [by etrans|done|]. cbn. rewrite Hp. by apply Forall_insert.
  - destruct (procs p !! i) as [[[f u [] []]|]|] eqn:Hi; try done. injection HS as <-.
    destruct (shows_process s p i (Runs (mkWorker f u MapReturned ReduceReturned)) (Ended 0) []) as (s1 & HR1 & HS1); [done| |].
    { destruct HR; split; try done. by rewrite sh_jobs0, (allJobs_split _ i _ Hi). }
    exists s1. split_and!; [done|done|]. by apply Forall_insert.
  - destruct (procs p !! i) as [[w|]|] eqn:Hi; try done. destruct (code =? 0); [done|]. injection HS as <-.
    destruct (shows_process s p i (Runs w) (Ended code) (jobsOf (Runs w))) as (s1 & HR1 & HS1); [done| |].
    { destruct HR; split; try done. by rewrite sh_jobs0, (allJobs_split _ i _ Hi). }
    exists s1. split_and!; [done|done|]. by apply Forall_insert.
Qed.

(** ** The end of the job *)

Context (HO : valid_tasks ord).

Lemma Done_stays now args c : Done c = true → (DispatchTask ord now args c).1 = c.
Proof.
  rewrite Done_iff. intros [Hm Hr]. unfold DispatchTask.
  destruct (status_cases c) as [[? _]|[(_ & ? & _)|(_ & _ & ->)]]; [done|done|by cbn].
Qed.

Lemma call_done u fate now args p p' r : call u fate now args p = (p', r) → Done (coordinator p) = true → Done (coordinator p') = true.
Proof. intros HC HD. destruct (call_cases _ _ _ _ _ _ _ HC) as [[-> _]|[-> _]]; [done|]. cbn. by rewrite Done_stays. Qed.

Lemma mapStep_done fate now w p p' x :
  mapStep fate now w p = Some (p', x) → Done (coordinator p) = true → Done (coordinator p') = true.
Proof.
  intros HS HD. unfold mapStep in HS. destruct (mapLoop w) as [|f [|[name kvs] pending]|]; [..|done]; [| |by injection HS as <- <-];
    destruct (call _ _ _ _ _) as [p1 r] eqn:HC; injection HS as <- <-; by eapply call_done.
Qed.

Lemma reduceStep_done fate now k w p p' x :
  reduceStep fate now k w p = Some (p', x) →
  (Done (coordinator p) = true → Done (coordinator p') = true) ∧
  ∀ w', x = Runs w' → reduceLoop w' = ReduceReturned → Done (coordinator p') = true.
Proof.
  intros HS. unfold reduceStep in HS. destruct (reduceLoop w) as [|y n x0 result|y|] eqn:Hl; [..|done].
  - destruct (call _ _ _ _ _) as [p1 r] eqn:HC. injection HS as <- <-. split; [by eapply call_done|]. intros w' Hw Hret.
    destruct r as [| |reply]; [done..|]. cbn in Hw. destruct (Z.eqb_spec (MasterStatus reply) ShutDowned) as [Hm|];
      [|repeat case_match; injection Hw as <-; done].
    destruct (call_cases _ _ _ _ _ _ _ HC) as [[_ [?|?]]|[-> [?|[= ->]]]]; try done.
    pose proof (request_spec ord HO now reduceArgs (coordinator p) (or_intror eq_refl)) as Hspec.
    destruct (DispatchTask ord now reduceArgs (coordinator p)) as [c reply] eqn:HD. cbn in Hm.
    destruct Hspec as (_ & _ & _ & _ & _ & _ & _ & Hst & _). rewrite Hm in Hst.
    destruct (status_cases (coordinator p)) as [[_ Hs]|[(_ & _ & Hs)|(H1 & H2 & _)]]; [by rewrite Hs in Hst..|].
    assert (Done (coordinator p) = true) as Hdone by by apply Done_iff. change c with (c, reply).1. rewrite <-HD. cbn. by rewrite Done_stays.
  - repeat case_match; injection HS as <- <-; (split; [done|]); by intros w' [= <-].
  - destruct (call _ _ _ _ _) as [p1 r] eqn:HC. injection HS as <- <-. split; [by eapply call_done|]. by destruct r; intros w' [= <-].
Qed.

Record ends_done p : Prop := {
  ed_main : phase p ≠ Polling → Done (coordinator p) = true;
  ed_loop : ∀ i w, procs p !! i = Some (Runs w) → reduceLoop w = ReduceReturned → Done (coordinator p) = true;
  ed_exit : ∀ i, procs p !! i = Some (Ended 0) → Done (coordinator p) = true;
}.

Lemma loadPlugin_code f : loadPlugin plugins f ≠ inl 0.
Proof. unfold loadPlugin. by repeat case_match. Qed.

Lemma ends_done_step ev p p' : pstep ev p = Some p' → ends_done p → ends_done p'.
Proof.
  intros HS I. pose proof I as [I1 I2 I3]. destruct ev as [| |argv u|i fate now|i fate now k|i|i code]; cbn [pstep] in HS.
  - destruct (phase p) eqn:Hph; try done. injection HS as <-. destruct (Done (coordinator p)) eqn:HD; [|done]. by split.
  - destruct (phase p) eqn:Hph; try done. injection HS as <-. assert (Done (coordinator p) = true) by by apply I1. by split.
  - injection HS as <-. split; cbn; [done|..].
    + intros i w [?|[_ Hw]]%lookup_app_Some; [by eapply I2|]. apply list_lookup_singleton_Some in Hw as [_ Hw].
      destruct (mrworker _ _); [done|]. by injection Hw as <-.
    + intros i [?|[_ Hw]]%lookup_app_Some; [by eapply I3|]. apply list_lookup_singleton_Some in Hw as [_ Hw].
      unfold mrworker in Hw. destruct argv as [|a [|b [|]]]; try done. pose proof (loadPlugin_code b).
      destruct (loadPlugin plugins b); [injection Hw as ->; done|done].
  - destruct (procs p !! i) as [[w|]|] eqn:Hi; try done. inv_bind HS. destruct x as [p1 x]. injection HS as <-.
    destruct (mapStep_keeps _ _ _ _ _ _ E) as (Hp & Hph & Hne & Hx). pose proof (mapStep_done _ _ _ _ _ _ E) as HD.
    split; cbn; rewrite ?Hp, ?Hph; [auto|..].
    + intros j w' [[-> [-> _]]|[_ ?]]%list_lookup_insert_Some Hr; [|apply HD; by eapply I2]. destruct (Hx _ eq_refl) as [_ Hrl]. rewrite Hrl in Hr.
      apply HD. by eapply I2.
    + intros j [[-> [-> _]]|[_ ?]]%list_lookup_insert_Some; [done|]. apply HD. by eapply I3.
  - destruct (procs p !! i) as [[w|]|] eqn:Hi; try done. inv_bind HS. destruct x as [p1 x]. injection HS as <-.
    destruct (reduceStep_keeps _ _ _ _ _ _ _ E) as (Hp & Hph & Hne & Hx). destruct (reduceStep_done _ _ _ _ _ _ _ E) as [HD HD'].
    split; cbn; rewrite ?Hp, ?Hph; [auto|..].
    + intros j w' [[-> [-> _]]|[_ ?]]%list_lookup_insert_Some Hr; [by eapply HD'|]. apply HD. by eapply I2.
    + intros j [[-> [-> _]]|[_ ?]]%list_lookup_insert_Some; [done|]. apply HD. by eapply I3.
  - destruct (procs p !! i) as [[[f u [] []]|]|] eqn:Hi; try done. injection HS as <-.
    assert (Done (coordinator p) = true) as HD by by eapply (I2 i). by split.
  - destruct (procs p !! i) as [[w|]|] eqn:Hi; try done. destruct (Z.eqb_spec code 0); [done|]. injection HS as <-. split; cbn; [done|..].
    + intros j w' [[-> [[=] _]]|[_ ?]]%list_lookup_insert_Some. by eapply I2.
    + intros j [[-> [[= ->] _]]|[_ ?]]%list_lookup_insert_Some; [done|]. by eapply I3.
Qed.

Lemma procs_reached c p :
  rtc prun (startProcs c) p →
  ends_done p ∧ ∃ s, rtc mstep (mkMR c ∅ ∅ []) s ∧ shows s p (allJobs (procs p)) ∧ Forall loaded (procs p).
Proof.
  revert p. refine (rtc_ind_r (λ p, _) _ _ _).
  - split; [by split|]. exists (mkMR c ∅ ∅ []). split_and!; [done|by split|constructor].
  - intros p p' _ [ev HS] (I & s & HR & Hs & HL). split; [by eapply ends_done_step|].
    destruct (sim_process ev s p p' HS Hs HL) as (s' & HR' & Hs' & HL'). exists s'. split_and!; [by etrans|done|done].
Qed.

(** C16: when the coordinator's or a worker's process returns, the job is done.
    Start mrcoordinator on distinct input files and any number of mrworker processes
    with a plugin; let them work in any order, let requests and replies be lost, let
    processes be killed, started for another user or with a wrong command line.  When
    the coordinator has returned, or a worker process has ended with status 0, every
    input file could be read, and each of the ten output files exists and has one
    line for each key of its partition, with the reduce function applied to all
    values the map function emitted for the key, and no other line. *)
Theorem mrprocesses_correct now argv c p :
  (∀ l, sort l ≡ₚ l) → (∀ f d kv, kv ∈ mapf f d → json kv = kv) → NoDup (drop 1 argv) →
  mrcoordinator now argv = inr c → rtc prun (startProcs c) p →
  phase p = Returned ∨ (∃ i, procs p !! i = Some (Ended 0)) →
  (∀ f, f ∈ drop 1 argv → is_Some (content f)) ∧
  ∀ y, 0 <= y < 10 → ∃ lines, outputs p !! outname y = Some lines ∧ outputOk mapf reducef content (drop 1 argv) 10 y lines.
Proof.
  intros Hsort Hjson HND HM HR Hend. unfold mrcoordinator in HM. destruct (Z.ltb_spec (zlen argv) 2); [done|]. injection HM as <-.
  destruct (procs_reached _ _ HR) as ([I1 _ I3] & s & Hrun & [Hc _ Ho _] & _). rewrite <-Ho.
  assert (Done (coord s) = true) as [Hm Hr]%Done_iff.
  { rewrite Hc. destruct Hend as [Hp|[i Hi]]; [apply I1; by rewrite Hp|by eapply I3]. }
  assert (drop 1 argv ≠ []) as Hne.
  { intros E%(f_equal length). rewrite length_drop in E. unfold zlen in *. cbn in E. lia. }
  eapply (job_outputs mapf reducef sort content); [by eapply (job_reached ord HO mapf reducef sort Hsort json content Hjson _ 10 Hne HND)|done|done].
Qed.

(** *** Workers without a coordinator *)

Definition own (i : nat) (ev : Event) : Prop :=
  match ev with PMap j _ _ | PReduce j _ _ _ | PExit j => j = i | _ => False end.
#[export] Instance own_dec i ev : Decision (own i ev).
Proof. destruct ev; cbn; apply _. Defined.

Fixpoint runAll (evs : list Event) p : option Procs := match evs with [] => Some p | ev :: evs => p ← pstep ev p; runAll evs p end.

(** What a worker can still do by itself. *)
Definition rank w : nat :=
  (match mapLoop w with MapWrites _ l => length l | _ => 0 end +
   match reduceLoop w with ReduceReads _ n x _ => S (Z.to_nat (n - x)) | _ => 0 end)%nat.

Lemma call_refused u fate now args p : phase p = Returned → call u fate now args p = (p, DialFailed).
Proof. intros Hp. unfold call, listening. rewrite Hp. done. Qed.

(** One step of its own ends a worker or leaves it less to do. *)
Lemma worker_step p i w :
  phase p = Returned → procs p !! i = Some (Runs w) →
  ∃ ev p' x, own i ev ∧ pstep ev p = Some p' ∧ phase p' = Returned ∧ procs p' !! i = Some x ∧
    match x with Ended _ => True | Runs w' => (rank w' < rank w)%nat end.
Proof.
  intros Hp Hi. assert (i < length (procs p))%nat as Hlt by by eapply lookup_lt_Some.
  destruct (mapLoop w) as [|f [|[name kvs] l]|] eqn:HM.
  - exists (PMap i Delivered 0). cbn. rewrite Hi. unfold mapStep. rewrite HM, call_refused by done. cbn.
    do 2 eexists. split_and!; [done|done|done|by apply list_lookup_insert_eq|done].
  - exists (PMap i Delivered 0). cbn. rewrite Hi. unfold mapStep. rewrite HM, call_refused by done. cbn.
    do 2 eexists. split_and!; [done|done|done|by apply list_lookup_insert_eq|done].
  - exists (PMap i Delivered 0). cbn. rewrite Hi. unfold mapStep. rewrite HM. cbn.
    do 2 eexists. split_and!; [done|done|done|by apply list_lookup_insert_eq|]. unfold rank. rewrite HM. cbn. lia.
  - destruct (reduceLoop w) as [|y n x result|y|] eqn:HR.
    + exists (PReduce i Delivered 0 0). cbn. rewrite Hi. unfold reduceStep. rewrite HR, call_refused by done. cbn.
      do 2 eexists. split_and!; [done|done|done|by apply list_lookup_insert_eq|done].
    + exists (PReduce i Delivered 0 0). cbn. rewrite Hi. unfold reduceStep. rewrite HR.
      destruct (Z.ltb_spec x n); [destruct (interm p !! iname x y)|]; cbn; do 2 eexists;
        (split_and!; [done|done|done|by apply list_lookup_insert_eq|]); [|done|]; unfold rank; rewrite HM, HR; cbn -[Z.to_nat Z.sub Z.add]; rewrite ?HM; lia.
    + exists (PReduce i Delivered 0 0). cbn. rewrite Hi. unfold reduceStep. rewrite HR, call_refused by done. cbn.
      do 2 eexists. split_and!; [done|done|done|by apply list_lookup_insert_eq|done].
    + exists (PExit i). cbn. rewrite Hi. destruct w as [f u ml rl]. cbn in HM, HR. subst ml rl.
      do 2 eexists. split_and!; [done|done|done|by apply list_lookup_insert_eq|done].
Qed.

(** Whatever step of its own it is. *)
Lemma own_step p i w ev p' :
  phase p = Returned → procs p !! i = Some (Runs w) → own i ev → pstep ev p = Some p' →
  phase p' = Returned ∧ ∃ x, procs p' !! i = Some x ∧ match x with Ended code => code = fatal ∨ code = 0 | Runs w' => (rank w' < rank w)%nat end.
Proof.
  intros Hp Hi Hown HS. assert (i < length (procs p))%nat as Hlt by by eapply lookup_lt_Some.
  destruct ev as [| | |j fate now|j fate now k|j|]; cbn in Hown; try done; subst j; cbn in HS; rewrite Hi in HS.
  - unfold mapStep in HS. destruct (mapLoop w) as [|f [|[name kvs] l]|] eqn:HM; rewrite ?call_refused in HS by done; simplify_eq/=;
      (split; [done|]); (eexists; split; [by apply list_lookup_insert_eq|]); [by left..|]. unfold rank. rewrite HM. cbn. lia.
  - unfold reduceStep in HS. destruct (reduceLoop w) as [|y n x result|y|] eqn:HR; rewrite ?call_refused in HS by done.
    2: destruct (Z.ltb_spec x n); [destruct (interm p !! iname x y)|].
    all: simplify_eq/=; (split; [done|]); (eexists; split; [by apply list_lookup_insert_eq|]); first [by left|unfold rank; rewrite HR; cbn -[Z.to_nat Z.sub Z.add]; lia].
  - destruct w as [f u [] []]; simplify_eq/=. split; [done|]. eexists. split; [by apply list_lookup_insert_eq|by right].
Qed.

Lemma other_step p i x ev p' : phase p = Returned → procs p !! i = Some x → ¬ own i ev → pstep ev p = Some p' →
  phase p' = Returned ∧ (procs p' !! i = Some x ∨ ∃ code, ev = PDie i code ∧ procs p' !! i = Some (Ended code)).
Proof.
  intros Hp Hi Hown HS. destruct ev as [| |argv u|j fate now|j fate now k|j|j code]; cbn in Hown; cbn in HS.
  - by rewrite Hp in HS.
  - by rewrite Hp in HS.
  - injection HS as <-. split; [done|]. left. cbn. by apply lookup_app_l_Some.
  - destruct (procs p !! j) as [[w|]|] eqn:Hj; try done. inv_bind HS. destruct x0 as [p1 y]. injection HS as <-.
    destruct (mapStep_keeps _ _ _ _ _ _ E) as (Hpr & Hph & _). cbn. rewrite Hpr, Hph, list_lookup_insert_ne by done. auto.
  - destruct (procs p !! j) as [[w|]|] eqn:Hj; try done. inv_bind HS. destruct x0 as [p1 y]. injection HS as <-.
    destruct (reduceStep_keeps _ _ _ _ _ _ _ E) as (Hpr & Hph & _). cbn. rewrite Hpr, Hph, list_lookup_insert_ne by done. auto.
  - destruct (procs p !! j) as [[[f u [] []]|]|]; simplify_eq/=. rewrite list_lookup_insert_ne by done. auto.
  - destruct (procs p !! j) as [[w|]|] eqn:Hj; try done. destruct (code =? 0); [done|]. injection HS as <-. split; [done|]. cbn.
    destruct (decide (j = i)) as [->|]; [right; exists code; split; [done|]; apply list_lookup_insert_eq; by eapply lookup_lt_Some|].
    rewrite list_lookup_insert_ne by done. auto.
Qed.

Lemma own_ended p i code ev p' : procs p !! i = Some (Ended code) → own i ev → pstep ev p = Some p' → False.
Proof. intros Hi Hown HS. destruct ev; cbn in Hown; try done; subst; cbn in HS; by rewrite Hi in HS. Qed.

Lemma ended_stays i code evs p p' : phase p = Returned → procs p !! i = Some (Ended code) → runAll evs p = Some p' →
  filter (own i) evs = [] ∧ procs p' !! i = Some (Ended code).
Proof.
  revert p. induction evs as [|ev evs IH]; intros p Hp Hi HR; cbn in HR; [by simplify_eq|]. inv_bind HR. rewrite filter_cons.
  destruct (decide (own i ev)) as [Ho|Ho]; [exfalso; by eapply own_ended|].
  destruct (other_step p i _ ev x Hp Hi Ho E) as [Hx [Hi'|(code' & -> & _)]]; [by apply (IH x)|]. cbn in E. by rewrite Hi in E.
Qed.

(** C38: workers do not outlive the coordinator.  Once the coordinator has returned,
    in whatever order a worker's two loops and the other processes go on, the worker
    process takes at most one more step than the files it has left to write and to
    read and an output file; until it has ended, a step of its own is possible, and
    every one leaves it less to do; and when it has ended without being killed, it was
    by a fatal error (a call that finds no socket) or because both loops had returned. *)
Theorem mrworkers_end p i w evs p' :
  phase p = Returned → procs p !! i = Some (Runs w) → runAll evs p = Some p' →
  (length (filter (own i) evs) <= S (rank w))%nat ∧
  ((∃ w', procs p' !! i = Some (Runs w') ∧ (length (filter (own i) evs) + rank w' <= rank w)%nat ∧
      ∃ ev p'', own i ev ∧ pstep ev p' = Some p'') ∨
   (∃ code, procs p' !! i = Some (Ended code) ∧ (code = fatal ∨ code = 0 ∨ PDie i code ∈ evs))).
Proof.
  intros Hp. revert p w Hp. induction evs as [|ev evs IH]; intros p w Hp Hi HR; cbn in HR.
  { injection HR as <-. split; [cbn; lia|]. left. exists w. split_and!; [done|cbn; lia|].
    destruct (worker_step p i w Hp Hi) as (ev & p1 & x & ? & ? & _). eauto. }
  inv_bind HR. rename x into p1. rewrite filter_cons. destruct (decide (own i ev)) as [Ho|Ho]; cbn [length].
  - destruct (own_step p i w ev p1 Hp Hi Ho E) as [Hp1 ([w1|code] & Hi1 & Hx)].
    + destruct (IH p1 w1 Hp1 Hi1 HR) as [Hl [(w' & ? & ? & ?)|(code & ? & Hc)]]; (split; [lia|]); [left; exists w'|right; exists code].
      * split_and!; [done|lia|done].
      * split; [done|]. rewrite elem_of_cons. tauto.
    + destruct (ended_stays i code evs p1 p' Hp1 Hi1 HR) as [-> Hi']. split; [cbn; lia|]. right. exists code. tauto.
  - destruct (other_step p i _ ev p1 Hp Hi Ho E) as [Hp1 [Hi1|(code & -> & Hi1)]].
    + destruct (IH p1 w Hp1 Hi1 HR) as [Hl [?|(code & ? & Hc)]]; (split; [lia|]); [by left|right; exists code]. split; [done|]. rewrite elem_of_cons. tauto.
    + destruct (ended_stays i code evs p1 p' Hp1 Hi1 HR) as [-> Hi']. split; [cbn; lia|]. right. exists code. split; [done|]. rewrite elem_of_cons. tauto.
Qed.

Lemma runAll_prun evs p p' : runAll evs p = Some p' → rtc prun p p'.
Proof.
  revert p. induction evs as [|ev evs IH]; cbn; intros p HR; [by simplify_eq|]. inv_bind HR.
  eapply rtc_l; [by exists ev|by apply IH].
Qed.

End processes.

(** ** A run *)

Module ProcessExamples.

Definition oneKey : MapFn := λ _ contents, [mkKV "k" contents].
Definition firstOf : ReduceFn := λ _ values, default "" (head values).
Definition plugin (name : string) : option (string → option Symbol) :=
  if String.eqb name "app.so" then
    Some (λ s, if String.eqb s "Map" then Some (MapSymbol oneKey) else if String.eqb s "Reduce" then Some (ReduceSymbol firstOf) else None)
  else None.
Definition text (f : string) : option string := if String.eqb f "in" then Some "v" else None.

Lemma plugin_app f g : loadPlugin plugin f = inr g → g = (oneKey, firstOf).
Proof. unfold loadPlugin, plugin. destruct (String.eqb f "app.so"); [|done]. by intros [= <-]. Qed.

Definition inOrder (k : nat) (m : gmap string (list string)) := map_to_list m.
#[local] Notation run := (runAll plugin text MRExamples.plainTasks (λ l, l) (λ kv, kv) 7 inOrder).

Definition c0 : Coordinator := MakeCoordinator 0 ["in"] 10.

(** Two workers; the first does every task, the second was writing when the
    coordinator returned. *)
Definition job_run : list Event :=
  [PStart ["mrworker"] 7; PStart ["mrworker"; "app.so"] 7; PStart ["mrworker"; "app.so"] 7] ++
  [PMap 1 Delivered 0; PMap 2 Delivered (11 * Second)] ++ replicate 11 (PMap 1 Delivered 5) ++
  concat (replicate 10 (replicate 4 (PReduce 1 Delivered 20 0))) ++
  [PMap 1 Delivered 21; PReduce 1 Delivered 21 0; PExit 1; PMap 2 Delivered 0; PPoll; PReturn].
Definition p1 : Procs := default (startProcs c0) (run job_run (startProcs c0)).

Lemma p1_reached : rtc (prun plugin text MRExamples.plainTasks (λ l, l) (λ kv, kv) 7 inOrder) (startProcs c0) p1.
Proof. apply (runAll_prun _ _ _ _ _ _ _ job_run). vm_compute. reflexivity. Qed.

Lemma mrprocesses_correct_witness :
  phase p1 = Returned ∧ procs p1 !! 1%nat = Some (Ended 0) ∧
  ∃ lines, outputs p1 !! "mr-out-4" = Some lines ∧ outputOk oneKey firstOf text ["in"] 10 4 lines.
Proof.
  split; [vm_compute; reflexivity|]. split; [vm_compute; reflexivity|].
  destruct (mrprocesses_correct plugin text MRExamples.plainTasks (λ l, l) (λ kv, kv) 7 inOrder oneKey firstOf plugin_app
    (λ _ _, reflexivity _) MRExamples.plainTasks_valid 0 ["mrcoordinator"; "in"] c0 p1) as [_ Hout].
  - intros l. reflexivity.
  - reflexivity.
  - apply NoDup_singleton.
  - reflexivity.
  - apply p1_reached.
  - left. vm_compute. reflexivity.
  - apply (Hout 4). lia.
Defined.

Definition w2 : Worker := match procs p1 !! 2%nat with Some (Runs w) => w | _ => mkWorker (oneKey, firstOf) 7 MapReturned ReduceReturned end.

(** The second worker writes its files while a third process is started; its report ends it. *)
Definition last_steps : list Event :=
  PMap 2 Delivered 0 :: PStart ["mrworker"; "app.so"] 7 :: replicate 8 (PMap 2 Delivered 1) ++ [PMap 3 Delivered 2; PMap 2 Delivered 3].
Definition p2 : Procs := default p1 (run last_steps p1).

Lemma mrworkers_end_witness :
  rank w2 = 9%nat ∧ (length (filter (own 2) last_steps) <= S (rank w2))%nat ∧ procs p2 !! 2%nat = Some (Ended fatal) ∧ procs p2 !! 3%nat = Some (Ended fatal).
Proof.
  split; [vm_compute; reflexivity|]. split; [|split; vm_compute; reflexivity].
  apply (mrworkers_end plugin text MRExamples.plainTasks (λ l, l) (λ kv, kv) 7 inOrder p1 2 w2 last_steps p2); vm_compute; reflexivity.
Defined.

(** The user of the second worker has no coordinator. *)
Example other_user : ∃ p', run [PStart ["mrworker"; "app.so"] 8; PMap 0 Delivered 0] (startProcs c0) = Some p' ∧ procs p' = [Ended fatal].
Proof. eexists. split; vm_compute; reflexivity. Qed.

Example example_call : CallExample true = ("reply.Y 100" +:+ newline)%string.
Proof. vm_compute. reflexivity. Qed.

End ProcessExamples.
