(* ===== verification/MRApps.v ===== *)
(** * MapReduce applications ([mrapps/wc.go], [indexer.go], [nocrash.go], [crash.go],
      [early_exit.go])

    The map and reduce functions of the plugins, and what a job with them outputs:
    the number of occurrences of every word ([wc_counts]), the files every word is
    in ([indexer_lists]).  Their reduce functions do not depend on the order of the
    values ([apps_any_order]), so that the job computes what the sequential program
    does. *)

From stdpp Require Import pretty.
From S2P Require Import Prelude MapReduce MRSequential.

(** ** Words *)

Definition byteAt (s : string) (i : nat) : Z :=
  match String.get i s with Some c => Z.of_nat (Ascii.nat_of_ascii c) | None => -1 end.
Definition inRange (lo hi b : Z) : bool := (lo <=? b) && (b <=? hi).

(** The first rune of a string that is not empty, and its width; a byte that does not
    start a valid encoding is U+FFFD. *)
Definition decodeRune (s : string) : Z * nat :=
  let b0 := byteAt s 0 in let b1 := byteAt s 1 in let b2 := byteAt s 2 in let b3 := byteAt s 3 in
  let low b := Z.land b 63 in
  if inRange 0 127 b0 then (b0, 1%nat)
  else if inRange 194 223 b0 && inRange 128 191 b1 then (Z.lor (Z.shiftl (Z.land b0 31) 6) (low b1), 2%nat)
  else if inRange 224 239 b0 && inRange (if b0 =? 224 then 160 else 128) (if b0 =? 237 then 159 else 191) b1 && inRange 128 191 b2
  then (Z.lor (Z.lor (Z.shiftl (Z.land b0 15) 12) (Z.shiftl (low b1) 6)) (low b2), 3%nat)
  else if inRange 240 244 b0 && inRange (if b0 =? 240 then 144 else 128) (if b0 =? 244 then 143 else 191) b1
          && inRange 128 191 b2 && inRange 128 191 b3
  then (Z.lor (Z.lor (Z.lor (Z.shiftl (Z.land b0 7) 18) (Z.shiftl (low b1) 12)) (Z.shiftl (low b2) 6)) (low b3), 4%nat)
  else (65533, 1%nat).

Fixpoint dropString (n : nat) (s : string) : string :=
  match n, s with S n, String _ s => dropString n s | _, _ => s end.

(** [for _, r := range s]: the runes, each with its bytes. *)
Fixpoint runesFrom (fuel : nat) (s : string) : list (Z * string) :=
  match fuel, s with
  | S fuel, String _ _ => let '(r, w) := decodeRune s in (r, String.substring 0 w s) :: runesFrom fuel (dropString w s)
  | _, _ => []
  end.
Definition runes (s : string) : list (Z * string) := runesFrom (String.length s) s.

(** [strings.FieldsFunc]: the longest parts without separators. *)
Fixpoint fieldsFrom (sep : Z → bool) (rs : list (Z * string)) (word : string) : list string :=
  match rs with
  | [] => if bool_decide (word = "") then [] else [word]
  | (r, c) :: rs =>
    if sep r then (if bool_decide (word = "") then [] else [word]) ++ fieldsFrom sep rs ""
    else fieldsFrom sep rs (word +:+ c)
  end.
Definition FieldsFunc (s : string) (sep : Z → bool) : list string := fieldsFrom sep (runes s) "".

Definition joinAll (l : list string) : string := foldr String.append "" l.

Lemma append_cons a s t : (String a s) +:+ t = String a (s +:+ t).
Proof. done. Qed.

Lemma append_nil_r s : s +:+ "" = s.
Proof. induction s as [|a s IH]; [done|]. by rewrite append_cons, IH. Qed.

Lemma joinAll_app l1 l2 : joinAll (l1 ++ l2) = joinAll l1 +:+ joinAll l2.
Proof.
  unfold joinAll. induction l1 as [|s l1 IH]; [done|]. cbn [foldr app]. rewrite IH.
  induction s as [|a s IHs]; [done|]. by rewrite !append_cons, IHs.
Qed.

Lemma substring_drop n s : String.substring 0 n s +:+ dropString n s = s.
Proof.
  revert s. induction n as [|n IH]; intros [|a s]; try done. cbn [String.substring dropString]. by rewrite append_cons, IH.
Qed.

Lemma decodeRune_width s : (1 <= (decodeRune s).2)%nat.
Proof. unfold decodeRune. repeat case_match; cbn; lia. Qed.

Lemma dropString_length n s : (String.length (dropString n s) = String.length s - n)%nat.
Proof. revert s. induction n as [|n IH]; intros [|a s]; try done. cbn. apply IH. Qed.

Lemma runesFrom_bytes fuel s : (String.length s <= fuel)%nat → joinAll (runesFrom fuel s).*2 = s.
Proof.
  revert s. induction fuel as [|fuel IH]; intros [|a s] Hf; try done; [cbn in Hf; lia|]. cbn [runesFrom].
  pose proof (decodeRune_width (String a s)) as Hw. destruct (decodeRune (String a s)) as [r w]. cbn [snd] in Hw.
  unfold joinAll. cbn [fmap list_fmap foldr snd]. fold (joinAll (runesFrom fuel (dropString w (String a s))).*2).
  rewrite IH; [apply substring_drop|]. rewrite dropString_length. cbn in *. lia.
Qed.

Lemma fieldsFrom_bytes sep rs word :
  joinAll (fieldsFrom sep rs word) = word +:+ joinAll (filter (λ rc, sep rc.1 = false) rs).*2 ∧
  Forall (λ w, w ≠ "") (fieldsFrom sep rs word).
Proof.
  assert (∀ w : string, joinAll (if bool_decide (w = "") then [] else [w]) = w ∧
    Forall (λ w, w ≠ "") (if bool_decide (w = "") then [] else [w])) as Hone.
  { intros w. case_bool_decide as Hw; [by subst|]. split; [unfold joinAll; cbn [foldr]; apply append_nil_r|by repeat constructor]. }
  revert word. induction rs as [|[r c] rs IH]; intros word; cbn [fieldsFrom].
  - unfold joinAll at 2. cbn [fmap list_fmap filter list_filter foldr]. rewrite append_nil_r. apply Hone.
  - rewrite filter_cons. cbn [fst]. destruct (sep r) eqn:Hs.
    + rewrite decide_False by done. destruct (IH "") as [H1 H2]. rewrite joinAll_app, H1. destruct (Hone word) as [-> ?].
      split; [done|]. by apply Forall_app.
    + rewrite decide_True by done. destruct (IH (word +:+ c)) as [-> H2]. split; [|done].
      unfold joinAll at 2. cbn [fmap list_fmap foldr snd]. clear. induction word as [|a word IH]; [done|]. by rewrite !append_cons, IH.
Qed.

(** Splitting into words: the bytes of a string are those of its runes, and the
    words are not empty and have, one after another, the bytes of the runes that are
    not separators, with nothing lost or added. *)
Theorem FieldsFunc_correct s sep :
  joinAll (runes s).*2 = s ∧ Forall (λ w, w ≠ "") (FieldsFunc s sep) ∧
  joinAll (FieldsFunc s sep) = joinAll (filter (λ rc, sep rc.1 = false) (runes s)).*2.
Proof.
  destruct (fieldsFrom_bytes sep (runes s) "") as [H1 H2]. split_and!; [by apply runesFrom_bytes|exact H2|exact H1].
Qed.

Section apps.
(** [unicode.IsLetter] outside ASCII. *)
Context (otherLetter : Z → bool).

Definition IsLetter (r : Z) : bool :=
  if r <? 128 then inRange 65 90 r || inRange 97 122 r else otherLetter r.
Definition words (contents : string) : list string := FieldsFunc contents (λ r, negb (IsLetter r)).

(** ** The applications *)

Definition wcMap (filename contents : string) : list KeyValue := (λ w, mkKV w "1") <$> words contents.
Definition wcReduce (key : string) (values : list string) : string := pretty (zlen values).

(** [sort.Strings] and [strings.Join]. *)
Definition sortStrings (l : list string) : list string := merge_sort String.le l.
Fixpoint Join (l : list string) (sep : string) : string :=
  match l with [] => "" | [s] => s | s :: l => s +:+ sep +:+ Join l sep end.

(** [rangeSet] is the order in which the keys of the map come. *)
Definition indexerMap (rangeSet : gset string → list string) (document value : string) : list KeyValue :=
  (λ w, mkKV w document) <$> rangeSet (list_to_set (words value)).
Definition indexerReduce (key : string) (values : list string) : string :=
  let values := sortStrings values in pretty (zlen values) +:+ " " +:+ Join values ",".

Definition nocrashMap (filename contents : string) : list KeyValue :=
  [mkKV "a" filename; mkKV "b" (pretty (Z.of_nat (String.length filename)));
   mkKV "c" (pretty (Z.of_nat (String.length contents))); mkKV "d" "xyzzy"].
Definition nocrashReduce (key : string) (values : list string) : string := Join (sortStrings values) " ".

(** [rr] is random below 1000; the process exits, or goes on perhaps after a while. *)
Definition maybeCrash (rr : Z) : option unit := if rr <? 330 then None else Some tt.
Definition crashMap (rr : Z) (filename contents : string) : option (list KeyValue) :=
  _ ← maybeCrash rr; Some (nocrashMap filename contents).
Definition crashReduce (rr : Z) (key : string) (values : list string) : option string :=
  _ ← maybeCrash rr; Some (nocrashReduce key values).

Definition earlyExitMap (filename contents : string) : list KeyValue := [mkKV filename "1"].
Definition earlyExitReduce (key : string) (values : list string) : string := pretty (zlen values).

(** ** What they compute *)

Lemma sortStrings_perm l l' : l ≡ₚ l' → sortStrings l = sortStrings l'.
Proof.
  intros HP. eapply (Sorted_unique String.le); [apply Sorted_merge_sort; apply _..|].
  unfold sortStrings. by rewrite !merge_sort_Permutation.
Qed.

Lemma zlen_sortStrings l : zlen (sortStrings l) = zlen l.
Proof. unfold zlen, sortStrings. f_equal. apply Permutation_length, merge_sort_Permutation. Qed.

(** The reduce functions do not depend on the order of the values. *)
Lemma wc_any_order : any_order wcReduce.
Proof. intros k vs vs' HP. unfold wcReduce, zlen. by rewrite HP. Qed.
Lemma indexer_any_order : any_order indexerReduce.
Proof. intros k vs vs' HP. unfold indexerReduce. by rewrite (sortStrings_perm vs vs' HP). Qed.
Lemma nocrash_any_order : any_order nocrashReduce.
Proof. intros k vs vs' HP. unfold nocrashReduce. by rewrite (sortStrings_perm vs vs' HP). Qed.
Lemma earlyExit_any_order : any_order earlyExitReduce.
Proof. intros k vs vs' HP. unfold earlyExitReduce, zlen. by rewrite HP. Qed.

(** A run of the crashing plugin that goes through is one of the other. *)
Lemma crash_nocrash rr f c k vs :
  (crashMap rr f c = None ∨ crashMap rr f c = Some (nocrashMap f c)) ∧
  (crashReduce rr k vs = None ∨ crashReduce rr k vs = Some (nocrashReduce k vs)).
Proof. unfold crashMap, crashReduce, maybeCrash. destruct (rr <? 330); auto. Qed.

Section jobs.
Context (ord : TaskOrder) (HO : valid_tasks ord) (sort : list KeyValue → list KeyValue) (Hsort : ∀ l, sort l ≡ₚ l).
(** Keys and values go through JSON unchanged. *)
Context (json : KeyValue → KeyValue) (Hjson : ∀ kv, json kv = kv) (content : string → option string).
Context (fileList : list string) (nRed now : Z) (Hne : fileList ≠ []) (HND : NoDup fileList) (Hn : 0 < nRed).

(** The words of a file. *)
Definition wordsOf (f : string) : list string := match content f with Some d => words d | None => [] end.
(** How often a word occurs in the files. *)
Definition occurrences (w : string) : Z := zlen (filter (λ w', w' = w) (concat (wordsOf <$> fileList))).

Lemma emitted_wc : emitted wcMap content fileList = (λ w, mkKV w "1") <$> concat (wordsOf <$> fileList).
Proof.
  unfold emitted. rewrite concat_fmap_fmap. f_equal. apply list_fmap_ext. intros i f _. unfold wordsOf. by destruct (content f).
Qed.

(** a finished word count has, for each word of the files, one line with the word
    and the number of its occurrences, and no other line. *)
Theorem wc_counts s :
  rtc (mr_step ord wcMap wcReduce sort json content) (mkMR (MakeCoordinator now fileList nRed) ∅ ∅ []) s →
  Done (coord s) = true →
  ∃ ws, NoDup ws ∧ (∀ w, w ∈ ws ↔ w ∈ concat (wordsOf <$> fileList)) ∧
    allLines nRed s = (λ w, w +:+ " " +:+ pretty (occurrences w) +:+ newline) <$> ws.
Proof.
  intros Hrun Hdone.
  destruct (job_lines ord HO wcMap wcReduce wc_any_order sort Hsort json content (λ _ _ kv _, Hjson kv)
    fileList nRed now Hne HND Hn s Hrun Hdone) as [_ (ws & Hl & HN & Hk)].
  rewrite emitted_wc in Hk. exists ws. split_and!; [done| |].
  - intros w. rewrite Hk, <-list_fmap_compose. by rewrite list_fmap_id.
  - rewrite Hl. apply list_fmap_ext. intros i w _. unfold lineOf, line, wcReduce, occurrences, valuesOf. cbn [fst snd].
    rewrite emitted_wc, (list_filter_fmap (λ kv, Key kv = w)). unfold zlen. by rewrite !length_fmap.
Qed.

(** The files a word is in. *)
Definition filesWith (w : string) : list string := filter (λ f, w ∈ wordsOf f) fileList.

Context (rangeSet : gset string → list string) (Hrange : ∀ X, rangeSet X ≡ₚ elements X).

Lemma indexer_values w : valuesOf w (emitted (indexerMap rangeSet) content fileList) = filesWith w.
Proof.
  clear Hne HND Hn. unfold emitted, filesWith. induction fileList as [|f fs IH]; [done|]. cbn [fmap list_fmap concat].
  unfold valuesOf in *. rewrite filter_app, fmap_app, IH, filter_cons.
  assert (Value <$> filter (λ kv, Key kv = w) (match content f with Some d => indexerMap rangeSet f d | None => [] end) =
          if decide (w ∈ wordsOf f) then [f] else []) as ->; [|by destruct (decide (w ∈ wordsOf f))].
  unfold wordsOf. destruct (content f) as [d|]; [|by rewrite decide_False by apply not_elem_of_nil]. unfold indexerMap.
  set (X := list_to_set (words d) : gset string).
  assert (NoDup (rangeSet X) ∧ (w ∈ rangeSet X ↔ w ∈ words d)) as [HN Hin].
  { rewrite Hrange. split; [apply NoDup_elements|]. unfold X. by rewrite elem_of_elements, elem_of_list_to_set. }
  rewrite (list_filter_fmap (λ kv, Key kv = w)), <-list_fmap_compose. cbn [Key].
  destruct (decide (w ∈ words d)) as [Hw|Hw]; [apply Hin in Hw|].
  - apply elem_of_Permutation in Hw as [l HP]. assert (NoDup (w :: l)) as [Hn' _]%NoDup_cons by (by rewrite <-HP).
    assert (filter (λ w', w' = w) (rangeSet X) ≡ₚ [w]) as ->%Permutation_singleton_r; [|done].
    rewrite HP, filter_cons_True, filter_none by (done || by intros w' Hw' ->). done.
  - rewrite filter_none; [done|]. intros w' Hw' ->. by apply Hw, Hin.
Qed.

(** A finished index has, for each word of the files, one line with the word, the
    number of files it is in, and their names in order. *)
Theorem indexer_lists s :
  rtc (mr_step ord (indexerMap rangeSet) indexerReduce sort json content) (mkMR (MakeCoordinator now fileList nRed) ∅ ∅ []) s →
  Done (coord s) = true →
  ∃ ws, NoDup ws ∧ (∀ w, w ∈ ws ↔ w ∈ concat (wordsOf <$> fileList)) ∧
    allLines nRed s = (λ w, w +:+ " " +:+ (pretty (zlen (filesWith w)) +:+ " " +:+ Join (sortStrings (filesWith w)) ",") +:+ newline) <$> ws.
Proof.
  intros Hrun Hdone.
  destruct (job_lines ord HO (indexerMap rangeSet) indexerReduce indexer_any_order sort Hsort json content (λ _ _ kv _, Hjson kv)
    fileList nRed now Hne HND Hn s Hrun Hdone) as [_ (ws & Hl & HN & Hk)].
  exists ws. split_and!; [done| |].
  - intros w. rewrite Hk, elem_of_concat. rewrite <-(valuesOf_nonempty w (emitted (indexerMap rangeSet) content fileList)), indexer_values.
    unfold filesWith. split.
    + destruct (filter _ _) as [|f l] eqn:Hf; [done|]. intros _.
      assert (f ∈ filter (λ f, w ∈ wordsOf f) fileList) as [Hw Hin]%list_elem_of_filter by (rewrite Hf; by left).
      exists (wordsOf f). split; [by apply list_elem_of_fmap_2|done].
    + intros (l & (f & -> & Hf)%list_elem_of_fmap & Hw) Hnil.
      apply (not_elem_of_nil f). rewrite <-Hnil. by apply list_elem_of_filter.
  - rewrite Hl. apply list_fmap_ext. intros i w _. unfold lineOf, line, indexerReduce. cbn [fst snd]. rewrite indexer_values.
    by rewrite zlen_sortStrings.
Qed.

End jobs.
End apps.

(** ** Runs on two small files *)

Module AppExamples.

Definition noOther (_ : Z) : bool := false.
Definition text (f : string) : option string :=
  if String.eqb f "in1" then Some "a, b" else if String.eqb f "in2" then Some "b b!" else None.
Definition plain : TaskOrder := λ K _ _ m, map_to_list m.
Lemma plainOrder_valid : valid_tasks plain.
Proof. by intros K ? ? m. Qed.

Definition begin : MR := mkMR (MakeCoordinator 0 ["in1"; "in2"] 1) ∅ ∅ [].

Example words_ascii : words noOther "The quick,brown  fox." = ["The"; "quick"; "brown"; "fox"].
Proof. reflexivity. Qed.

(** One worker does every task. *)
Ltac one_worker :=
  eapply rtc_l; [eapply (mr_map_request _ _ _ _ _ _ 0); [vm_compute; reflexivity..|]; vm_compute; reflexivity|];
  eapply rtc_l; [eapply (mr_map_write _ _ _ _ _ _ _ _ _ [] [])|];
  eapply rtc_l; [eapply (mr_map_finish _ _ _ _ _ _ 1 _ _ _ [] [])|];
  eapply rtc_l; [eapply (mr_map_request _ _ _ _ _ _ 2); [vm_compute; reflexivity..|]; vm_compute; reflexivity|];
  eapply rtc_l; [eapply (mr_map_write _ _ _ _ _ _ _ _ _ [] [])|];
  eapply rtc_l; [eapply (mr_map_finish _ _ _ _ _ _ 3 _ _ _ [] [])|];
  eapply rtc_l; [eapply (mr_reduce_request _ _ _ _ _ _ 4); vm_compute; reflexivity|];
  eapply rtc_l; [eapply (mr_reduce_read _ _ _ _ _ _ _ _ _ [] []); vm_compute; reflexivity|];
  eapply rtc_l; [eapply (mr_reduce_read _ _ _ _ _ _ _ _ _ [] []); vm_compute; reflexivity|];
  eapply rtc_l; [eapply (mr_reduce_write _ _ _ _ _ _ _ _ _ [] []); [vm_compute; intros [=]|reflexivity]|];
  eapply rtc_l; [eapply (mr_reduce_finish _ _ _ _ _ _ 5 _ _ _ [] [])|];
  apply rtc_refl.

Lemma wc_runs : ∃ s, rtc (mr_step plain (wcMap noOther) wcReduce (λ l, l) (λ kv, kv) text) begin s ∧ Done (coord s) = true ∧
  allLines 1 s ≡ₚ ["a 1" +:+ newline; "b 3" +:+ newline].
Proof.
  eexists. split; [one_worker|]. split; [vm_compute; reflexivity|].
  match goal with |- ?l ≡ₚ _ => let v := eval vm_compute in l in change l with v end. apply Permutation_swap || done.
Qed.

Lemma files_distinct : NoDup ["in1"; "in2"].
Proof. repeat constructor; set_solver. Qed.

Lemma mapreduce_equals_sequential_witness :
  ∃ s, Done (coord s) = true ∧
    ∃ lines, mrsequential (wcMap noOther) wcReduce sortByKey text ["in1"; "in2"] = Some lines ∧ allLines 1 s ≡ₚ lines.
Proof.
  destruct wc_runs as (s & HR & HD & _). exists s. split; [exact HD|].
  apply (mapreduce_equals_sequential plain plainOrder_valid (wcMap noOther) wcReduce wc_any_order (λ l, l) (λ l, reflexivity l) (λ kv, kv)
    text (λ _ _ _ _, eq_refl) ["in1"; "in2"] 1 0 ltac:(discriminate) files_distinct ltac:(lia) s HR HD sortByKey sortByKey_sorts).
Defined.

Lemma wc_counts_witness :
  ∃ s, Done (coord s) = true ∧
    ∃ ws, NoDup ws ∧ (∀ w, w ∈ ws ↔ w ∈ ["a"; "b"; "b"; "b"]) ∧
      allLines 1 s = (λ w, w +:+ " " +:+ pretty (occurrences noOther text ["in1"; "in2"] w) +:+ newline) <$> ws.
Proof.
  destruct wc_runs as (s & HR & HD & _). exists s. split; [exact HD|].
  apply (wc_counts noOther plain plainOrder_valid (λ l, l) (λ l, reflexivity l) (λ kv, kv) (λ _, eq_refl) text ["in1"; "in2"] 1 0
    ltac:(discriminate) files_distinct ltac:(lia) s HR HD).
Defined.

Lemma indexer_runs :
  ∃ s, rtc (mr_step plain (indexerMap noOther elements) indexerReduce (λ l, l) (λ kv, kv) text) begin s ∧ Done (coord s) = true.
Proof. eexists. split; [one_worker|]. vm_compute; reflexivity. Qed.

Lemma indexer_lists_witness :
  ∃ s, Done (coord s) = true ∧ filesWith noOther text ["in1"; "in2"] "b" = ["in1"; "in2"] ∧
    ∃ ws, NoDup ws ∧ (∀ w, w ∈ ws ↔ w ∈ ["a"; "b"; "b"; "b"]) ∧
      allLines 1 s = (λ w, w +:+ " " +:+ (pretty (zlen (filesWith noOther text ["in1"; "in2"] w)) +:+ " " +:+
        Join (sortStrings (filesWith noOther text ["in1"; "in2"] w)) ",") +:+ newline) <$> ws.
Proof.
  destruct indexer_runs as (s & HR & HD). exists s. split; [exact HD|]. split; [vm_compute; reflexivity|].
  apply (indexer_lists noOther plain plainOrder_valid (λ l, l) (λ l, reflexivity l) (λ kv, kv) (λ _, eq_refl) text ["in1"; "in2"] 1 0
    ltac:(discriminate) files_distinct ltac:(lia) elements (λ X, reflexivity _) s HR HD).
Defined.

End AppExamples.
