(* ===== verification/MRTiming.v ===== *)
(** * The MapReduce applications that watch the workers (mrapps/mtiming.go,
    rtiming.go, jobcount.go)

    The first two count the workers that run at the same time: a call of [nparallel]
    leaves a file with its process's number, lists the directory, asks for each file of
    the phase whether its process lives, and removes its own file.  The third leaves a
    file for every call of its [Map] and counts them.  The directory, the numbers of
    live processes and the calls under way are the state.  Every system call of
    [nparallel] is a step of its own, between which processes start, die, and write and
    remove files; numbers of dead processes are given again.  A system call that fails
    panics, which ends the process. *)

From Stdlib Require Import Ascii.
From stdpp Require Import pretty.
From S2P Require Import Prelude Decimals MapReduce MRApps.

(** ** nparallel *)

Definition markerPrefix (phase : string) : string := ("mr-worker-" +:+ phase +:+ "-")%string.
Definition marker (phase : string) (pid : Z) : string := (markerPrefix phase +:+ pretty pid)%string.

(** One round of the loop over the names; [alive] is what [syscall.Kill(xpid, 0)] tells. *)
Definition probe (phase : string) (alive : gset Z) (name : string) (ret : Z) : Z :=
  match Sscanf_d (markerPrefix phase) name with
  | Some xpid => if decide (xpid ∈ alive) then ret + 1 else ret
  | None => ret
  end.

(** A call of [nparallel]: its file is there; the directory is open, with the files that
    have been there ever since and those that were at some time; it has the names,
    some of them still to go through; it has counted. *)
Inductive Stage :=
  | Marked
  | Opened (always ever : gset string)
  | Reading (todo : list string) (ret : Z)
  | Counted (ret : Z).

Record Timing := mkTiming {
  dir : gset string;
  alive : gset Z;
  callsOf : gmap (Z * string) Stage;   (* by process and phase *)
  panics : list (Z * string);
}.

(** What a [Readdirnames(1000000)] may return while files come and go: the files that
    were there all the time, perhaps some that were there at some time; at most 1000000,
    and fewer only when there are no more. *)
Definition listing (always ever : gset string) (names : list string) : Prop :=
  NoDup names ∧ Forall (λ name, name ∈ ever) names ∧ zlen names <= 1000000 ∧
  (zlen names < 1000000 → always ⊆ list_to_set names).
#[global] Instance listing_dec always ever names : Decision (listing always ever names).
Proof. unfold listing. apply _. Defined.

Definition watch (d : gset string) (st : Stage) : Stage :=
  match st with Opened always ever => Opened (always ∩ d) (ever ∪ d) | _ => st end.
Definition setDir (d : gset string) (t : Timing) : Timing := mkTiming d (alive t) (watch d <$> callsOf t) (panics t).
Definition setCall (pid : Z) (phase : string) (st : Stage) (t : Timing) : Timing :=
  mkTiming (dir t) (alive t) (<[(pid, phase) := st]> (callsOf t)) (panics t).

(** A process ends; its files stay. *)
Definition die (pid : Z) (t : Timing) : Timing :=
  mkTiming (dir t) (alive t ∖ {[pid]}) (filter (λ x, x.1.1 ≠ pid) (callsOf t)) (panics t).
Definition panic (pid : Z) (phase : string) (t : Timing) : Timing :=
  let t := die pid t in mkTiming (dir t) (alive t) (callsOf t) (panics t ++ [(pid, phase)]).

Inductive TEvent :=
  | TStart (pid : Z)
  | TDie (pid : Z)
  | TWrite (pid : Z) (phase : string) (created ok : bool)             (* ioutil.WriteFile *)
  | TOpen (pid : Z) (phase : string) (ok : bool)                      (* os.Open *)
  | TList (pid : Z) (phase : string) (names : option (list string))   (* dd.Readdirnames; None: an error *)
  | TProbe (pid : Z) (phase : string)                                 (* a round of the loop, or its end *)
  | TRemove (pid : Z) (phase : string) (ok : bool)                    (* os.Remove, and the call returns *)
  | TFile (name : string) (there : bool)                              (* another file is written or removed *).

Definition isPhase (phase : string) : Prop := phase = "map" ∨ phase = "reduce".

Definition tstep (ev : TEvent) (t : Timing) : option Timing :=
  match ev with
  | TStart pid => if decide (pid ∉ alive t) then Some (mkTiming (dir t) ({[pid]} ∪ alive t) (callsOf t) (panics t)) else None
  | TDie pid => if decide (pid ∈ alive t) then Some (die pid t) else None
  | TWrite pid phase created ok =>
    if decide (pid ∈ alive t ∧ 0 < pid < 2 ^ 31 ∧ isPhase phase ∧ callsOf t !! (pid, phase) = None) then
      let t := if created then setDir ({[marker phase pid]} ∪ dir t) t else t in
      if ok then if created then Some (setCall pid phase Marked t) else None else Some (panic pid phase t)
    else None
  | TOpen pid phase ok =>
    match callsOf t !! (pid, phase) with
    | Some Marked => Some (if ok then setCall pid phase (Opened (dir t) (dir t)) t else panic pid phase t)
    | _ => None
    end
  | TList pid phase names =>
    match callsOf t !! (pid, phase), names with
    | Some (Opened always ever), Some names =>
      if decide (listing always ever names) then
        Some (if zlen names =? 0 then panic pid phase t else setCall pid phase (Reading names 0) t)
      else None
    | Some (Opened _ _), None => Some (panic pid phase t)
    | _, _ => None
    end
  | TProbe pid phase =>
    match callsOf t !! (pid, phase) with
    | Some (Reading (name :: todo) ret) => Some (setCall pid phase (Reading todo (probe phase (alive t) name ret)) t)
    | Some (Reading [] ret) => Some (setCall pid phase (Counted ret) t)
    | _ => None
    end
  | TRemove pid phase ok =>
    match callsOf t !! (pid, phase) with
    | Some (Counted _) =>
      if ok then
        if decide (marker phase pid ∈ dir t) then
          let t := setDir (dir t ∖ {[marker phase pid]}) t in
          Some (mkTiming (dir t) (alive t) (delete (pid, phase) (callsOf t)) (panics t))
        else None
      else Some (panic pid phase t)
    | _ => None
    end
  | TFile name there =>
    if there then Some (setDir ({[name]} ∪ dir t) t)
    else if decide (map_Forall (λ x _, marker x.2 x.1 ≠ name) (callsOf t)) then Some (setDir (dir t ∖ {[name]}) t) else None
  end.

Definition trun (t t' : Timing) : Prop := ∃ ev, tstep ev t = Some t'.
Definition timing0 : Timing := mkTiming ∅ ∅ ∅ [].

(** The states of a run, from [t0] to the last. *)
Inductive visits (t0 : Timing) : list Timing → Timing → Prop :=
  | visits_one : visits t0 [t0] t0
  | visits_more ts t t' : visits t0 ts t → trun t t' → visits t0 (ts ++ [t']) t'.

(** ** The applications *)

(** [ts] is the time the call began, printed with %.1f, and [n] what [nparallel]
    returns. *)
Definition mtimingMap (pid : Z) (ts : string) (n : Z) : list KeyValue :=
  [mkKV ("times-" +:+ pretty pid)%string ts; mkKV ("parallel-" +:+ pretty pid)%string (pretty n)].
Definition mtimingReduce (key : string) (values : list string) : string := Join (sortStrings values) " ".

Definition rtimingMap (filename contents : string) : list KeyValue :=
  (λ k, mkKV k "1") <$> ["a"; "b"; "c"; "d"; "e"; "f"; "g"; "h"; "i"; "j"].
Definition rtimingReduce (n : Z) (key : string) (values : list string) : string := pretty n.

(** ** What nparallel counts *)

Lemma marker_scan phase pid : 0 <= pid < 2 ^ 31 → Sscanf_d (markerPrefix phase) (marker phase pid) = Some pid.
Proof. intros Hp. apply Sscanf_pretty. lia. Qed.

(** The files of one phase are not those of the other. *)
Lemma marker_other phase phase' pid :
  isPhase phase → isPhase phase' → phase ≠ phase' → Sscanf_d (markerPrefix phase') (marker phase pid) = None.
Proof. by intros [-> | ->] [-> | ->]. Qed.

Lemma marker_inj phase phase' pid pid' :
  isPhase phase → isPhase phase' → marker phase pid = marker phase' pid' → phase = phase' ∧ pid = pid'.
Proof.
  intros [-> | ->] [-> | ->] [= HE]; (split; [done|]);
    change (pretty pid = pretty pid') in HE; by apply (inj pretty) in HE.
Qed.

Record tinv (t : Timing) : Prop := {
  ti_calls : ∀ q phase st, callsOf t !! (q, phase) = Some st → q ∈ alive t ∧ 0 < q < 2 ^ 31 ∧ isPhase phase ∧ marker phase q ∈ dir t;
  ti_opened : ∀ q phase a e, callsOf t !! (q, phase) = Some (Opened a e) → marker phase q ∈ a ∧ a ⊆ dir t ∧ a ⊆ e;
}.

Lemma watch_some d t k st : (watch d <$> callsOf t) !! k = Some st → ∃ st', callsOf t !! k = Some st' ∧ st = watch d st'.
Proof. rewrite lookup_fmap, fmap_Some. naive_solver. Qed.

(** Files come and go, but not those of calls under way. *)
Lemma tinv_setDir d t : tinv t → (∀ q phase st, callsOf t !! (q, phase) = Some st → marker phase q ∈ d) → tinv (setDir d t).
Proof.
  intros [I1 I2] Hd. split; cbn.
  - intros q phase st (st' & Hc & _)%watch_some. destruct (I1 _ _ _ Hc) as (? & ? & ? & _). eauto.
  - intros q phase a e (st' & Hc & HE)%watch_some. destruct st' as [|a' e'| |]; cbn in HE; try done. injection HE as -> ->.
    destruct (I2 _ _ _ _ Hc) as (? & ? & ?). specialize (Hd _ _ _ Hc). set_solver.
Qed.

Lemma tinv_setCall pid phase st t : tinv t → pid ∈ alive t → 0 < pid < 2 ^ 31 → isPhase phase → marker phase pid ∈ dir t →
  (∀ a e, st = Opened a e → a = dir t ∧ e = dir t) → tinv (setCall pid phase st t).
Proof.
  intros [I1 I2] Ha Hp Hph Hm Hst. split; cbn.
  - intros q ph st' [[[= <- <-] <-]|[_ Hc]]%lookup_insert_Some; eauto.
  - intros q ph a e [[[= <- <-] ->]|[_ Hc]]%lookup_insert_Some; [|eauto]. destruct (Hst a e eq_refl) as [-> ->]. done.
Qed.

Lemma tinv_die pid t : tinv t → tinv (die pid t).
Proof.
  intros [I1 I2]. split; cbn.
  - intros q phase st [Hc Hne]%map_lookup_filter_Some. destruct (I1 _ _ _ Hc) as (? & ? & ? & ?). cbn in Hne. set_solver.
  - intros q phase a e [Hc _]%map_lookup_filter_Some. eauto.
Qed.

Lemma tinv_panic pid phase t : tinv t → tinv (panic pid phase t).
Proof. intros [I1 I2]%(tinv_die pid). by split. Qed.

Lemma tinv_step ev t t' : tinv t → tstep ev t = Some t' → tinv t'.
Proof.
  intros I HS. pose proof I as [I1 I2].
  destruct ev as [pid|pid|pid phase created ok|pid phase ok|pid phase names|pid phase|pid phase ok|name there]; cbn in HS.
  - destruct (decide _); [|done]. injection HS as <-. split; cbn; [|done]. intros q phase st Hc. destruct (I1 _ _ _ Hc) as (? & ? & ? & ?). set_solver.
  - destruct (decide _); [|done]. injection HS as <-. by apply tinv_die.
  - destruct (decide _) as [(Hp & Hr & Hph & Hc)|]; [|done]. assert (tinv (setDir ({[marker phase pid]} ∪ dir t) t)) as I'.
    { apply tinv_setDir; [done|]. intros q ph st Hst. destruct (I1 _ _ _ Hst) as (? & ? & ? & ?). set_solver. }
    destruct ok, created; simplify_eq; [|by apply tinv_panic..]. apply tinv_setCall; try done. cbn. set_solver.
  - destruct (callsOf t !! (pid, phase)) as [[]|] eqn:Hc; try done. destruct (I1 _ _ _ Hc) as (? & ? & ? & ?).
    destruct ok; injection HS as <-; [|by apply tinv_panic]. apply tinv_setCall; try done. by intros a e [= -> ->].
  - destruct (callsOf t !! (pid, phase)) as [[| | |]|] eqn:Hc; try (by destruct names). destruct (I1 _ _ _ Hc) as (? & ? & ? & ?).
    destruct names as [names|]; [|injection HS as <-; by apply tinv_panic]. destruct (decide _); [|done]. injection HS as <-.
    destruct (_ =? _); [by apply tinv_panic|by apply tinv_setCall].
  - destruct (callsOf t !! (pid, phase)) as [[| |[|name todo] ret|]|] eqn:Hc; try done; destruct (I1 _ _ _ Hc) as (? & ? & ? & ?);
      injection HS as <-; by apply tinv_setCall.
  - destruct (callsOf t !! (pid, phase)) as [[]|] eqn:Hc; try done. destruct ok; [|injection HS as <-; by apply tinv_panic].
    destruct (decide _) as [Hm|]; [|done]. injection HS as <-. destruct (I1 _ _ _ Hc) as (_ & _ & Hph & _). cbn.
    assert (tinv (setDir (dir t ∖ {[marker phase pid]}) (mkTiming (dir t) (alive t) (delete (pid, phase) (callsOf t)) (panics t)))) as I'.
    { apply tinv_setDir; [split; cbn; intros *; rewrite lookup_delete_Some; naive_solver|]. cbn.
      intros q ph st [Hne Hst]%lookup_delete_Some. destruct (I1 _ _ _ Hst) as (_ & _ & Hph' & ?). apply elem_of_difference. split; [done|].
      intros [-> ->]%elem_of_singleton%marker_inj; done. }
    unfold setDir in I'. cbn in I'. by rewrite fmap_delete in I'.
  - destruct there; [injection HS as <-; apply tinv_setDir; [done|]; intros q ph st Hst; destruct (I1 _ _ _ Hst) as (_ & _ & _ & ?); set_solver|].
    destruct (decide _) as [Hf|]; [|done]. injection HS as <-. apply tinv_setDir; [done|]. intros q ph st Hst.
    destruct (I1 _ _ _ Hst) as (_ & _ & _ & ?). specialize (Hf _ _ Hst). cbn in Hf. set_solver.
Qed.

Lemma tinv_reachable t : rtc trun timing0 t → tinv t.
Proof. revert t. apply rtc_ind_r; [by split|]. intros t t' _ [ev HS] I. by eapply tinv_step. Qed.

(** How the stage of a call changes in a step. *)
Inductive moves (phase : string) (t t' : Timing) : Stage → Stage → Prop :=
  | moves_same st : moves phase t t' st st
  | moves_watch st : moves phase t t' st (watch (dir t') st)
  | moves_open : moves phase t t' Marked (Opened (dir t) (dir t))
  | moves_list a e names : listing a e names → moves phase t t' (Opened a e) (Reading names 0)
  | moves_probe name todo ret : moves phase t t' (Reading (name :: todo) ret) (Reading todo (probe phase (alive t) name ret))
  | moves_count ret : moves phase t t' (Reading [] ret) (Counted ret).

Lemma moves_setCall phase t t1 k pid ph st st' new :
  callsOf t !! k = Some st → callsOf (setCall pid ph new t) !! k = Some st' → (k = (pid, ph) → moves phase t t1 st new) → moves phase t t1 st st'.
Proof. intros Hc Hc' Hm. cbn in Hc'. apply lookup_insert_Some in Hc' as [[<- <-]|[_ Hc']]; [auto|]. rewrite Hc in Hc'. injection Hc' as <-. constructor. Qed.

Lemma moves_die phase t t1 k pid st st' : callsOf t !! k = Some st → callsOf (die pid t) !! k = Some st' → moves phase t t1 st st'.
Proof. intros Hc Hc'. cbn in Hc'. apply map_lookup_filter_Some in Hc' as [Hc' _]. rewrite Hc in Hc'. injection Hc' as <-. constructor. Qed.

Lemma moves_panic phase t t1 k pid ph st st' : callsOf t !! k = Some st → callsOf (panic pid ph t) !! k = Some st' → moves phase t t1 st st'.
Proof. exact (moves_die phase t t1 k pid st st'). Qed.

Lemma moves_setDir t k d st st' :
  callsOf t !! k = Some st → callsOf (setDir d t) !! k = Some st' → st' = watch d st.
Proof. intros Hc Hc'. cbn in Hc'. apply watch_some in Hc' as (st1 & Hc1 & ->). by rewrite Hc in Hc1; injection Hc1 as <-. Qed.

Lemma tstep_moves ev t t' pid phase st st' : tstep ev t = Some t' →
  callsOf t !! (pid, phase) = Some st → callsOf t' !! (pid, phase) = Some st' → moves phase t t' st st'.
Proof.
  intros HS Hc Hc'.
  destruct ev as [q|q|q ph created ok|q ph ok|q ph names|q ph|q ph ok|name there]; cbn in HS.
  - destruct (decide _); [|done]. injection HS as <-. cbn in Hc'. rewrite Hc in Hc'. injection Hc' as <-. constructor.
  - destruct (decide _); [|done]. injection HS as <-. by eapply moves_die.
  - destruct (decide _) as [(_ & _ & _ & Hn)|]; [|done]. destruct ok, created; simplify_eq.
    + cbn in Hc'. apply lookup_insert_Some in Hc' as [[[= -> ->] _]|[_ Hc']]; [congruence|]. rewrite (moves_setDir t _ _ _ _ Hc Hc'). constructor.
    + cbn in Hc'. apply map_lookup_filter_Some in Hc' as [Hc' _]. rewrite (moves_setDir t _ _ _ _ Hc Hc'). constructor.
    + by eapply moves_panic.
  - destruct (callsOf t !! (q, ph)) as [[]|] eqn:Hq; try done. destruct ok; injection HS as <-; [|by eapply moves_panic].
    eapply moves_setCall; [done..|]. intros [= -> ->]. rewrite Hc in Hq. injection Hq as ->. constructor.
  - destruct (callsOf t !! (q, ph)) as [[| | |]|] eqn:Hq; try (by destruct names).
    destruct names as [names|]; [|injection HS as <-; by eapply moves_panic]. destruct (decide _); [|done]. injection HS as <-.
    destruct (_ =? _); [by eapply moves_panic|]. eapply moves_setCall; [done..|]. intros [= -> ->]. rewrite Hc in Hq. injection Hq as ->. by constructor.
  - destruct (callsOf t !! (q, ph)) as [[| |[|name todo] ret|]|] eqn:Hq; try done; injection HS as <-;
      (eapply moves_setCall; [done..|]; intros [= -> ->]; rewrite Hc in Hq; injection Hq as ->; constructor).
  - destruct (callsOf t !! (q, ph)) as [[]|] eqn:Hq; try done. destruct ok; [|injection HS as <-; by eapply moves_panic].
    destruct (decide _); [|done]. injection HS as <-. cbn in Hc'. apply lookup_delete_Some in Hc' as [_ Hc'].
    rewrite (moves_setDir t _ _ _ _ Hc Hc'). constructor.
  - destruct there; [|destruct (decide _); [|done]]; injection HS as <-; rewrite (moves_setDir t _ _ _ _ Hc Hc'); constructor.
Qed.

(** ** What nparallel has counted *)

Section scan.
Context (phase : string).

(** The number a file name of the phase carries. *)
Definition numberOf (name : string) : option Z := Sscanf_d (markerPrefix phase) name.

Definition throughout (ts : list Timing) (name : string) : Prop := ∀ t, t ∈ ts → name ∈ dir t.
Definition once (ts : list Timing) (name : string) : Prop := ∃ t, t ∈ ts ∧ name ∈ dir t.
Definition livesOn (ts : list Timing) (name : string) : Prop := ∃ q, numberOf name = Some q ∧ ∀ t, t ∈ ts → q ∈ alive t.
Definition lived (ts : list Timing) (name : string) : Prop := ∃ q t, numberOf name = Some q ∧ t ∈ ts ∧ q ∈ alive t.

(** [names] are those of a listing made during [ts]. *)
Record listed (ts : list Timing) (names : list string) : Prop := {
  ls_nodup : NoDup names;
  ls_all : ∀ name, throughout ts name → name ∈ names;
  ls_once : ∀ name, name ∈ names → once ts name;
}.
(** [hs] are the names among [seen] that counted. *)
Record hits (ts : list Timing) (seen hs : list string) : Prop := {
  hi_nodup : NoDup hs;
  hi_all : ∀ name, name ∈ seen → livesOn ts name → name ∈ hs;
  hi_lived : ∀ name, name ∈ hs → name ∈ seen ∧ lived ts name;
}.

Definition scanned (ts : list Timing) (st : Stage) : Prop :=
  match st with
  | Marked => False
  | Opened a e => (∀ name, throughout ts name → name ∈ a) ∧ ∀ name, name ∈ e → once ts name
  | Reading todo ret => ∃ seen hs, listed ts (seen ++ todo) ∧ hits ts seen hs ∧ ret = zlen hs
  | Counted ret => ∃ seen hs, listed ts seen ∧ hits ts seen hs ∧ ret = zlen hs
  end.

Lemma listed_snoc ts t names : listed ts names → listed (ts ++ [t]) names.
Proof.
  intros [L1 L2 L3]. split; [done| |].
  - intros name Hn. apply L2. intros t' Ht'. apply Hn. set_solver.
  - intros name (t' & ? & ?)%L3. exists t'. set_solver.
Qed.

Lemma hits_snoc ts t seen hs : hits ts seen hs → hits (ts ++ [t]) seen hs.
Proof.
  intros [H1 H2 H3]. split; [done| |].
  - intros name Hn (q & Hq & Ha). apply H2; [done|]. exists q. split; [done|]. intros t' Ht'. apply Ha. set_solver.
  - intros name [? (q & t' & ? & ? & ?)]%H3. split; [done|]. exists q, t'. set_solver.
Qed.

Lemma scanned_snoc ts t st : scanned ts st → scanned (ts ++ [t]) st.
Proof.
  destruct st as [|a e|todo ret|ret]; cbn; [done| |naive_solver eauto using listed_snoc, hits_snoc..].
  intros [Ha He]. split.
  - intros name Hn. apply Ha. intros t' Ht'. apply Hn. set_solver.
  - intros name (t' & ? & ?)%He. exists t'. set_solver.
Qed.

Lemma scanned_watch ts t st : scanned ts st → scanned (ts ++ [t]) (watch (dir t) st).
Proof.
  intros HS. destruct st as [|a e| |]; [done| |by apply scanned_snoc..]. apply (scanned_snoc _ t) in HS as [Ha He]. cbn. split.
  - intros name Hn. apply elem_of_intersection. split; [by apply Ha|]. apply Hn. set_solver.
  - intros name [Hn|Hn]%elem_of_union; [by apply He|]. exists t. set_solver.
Qed.

(** A file is probed. *)
Lemma hits_probe ts t seen hs name ret : t ∈ ts → hits ts seen hs → name ∉ seen → ret = zlen hs →
  ∃ hs', hits ts (seen ++ [name]) hs' ∧ probe phase (alive t) name ret = zlen hs'.
Proof.
  intros Ht [H1 H2 H3] Hnew ->. unfold probe. change (Sscanf_d _ name) with (numberOf name).
  assert (hits ts (seen ++ [name]) hs ∨ (∃ q, numberOf name = Some q ∧ q ∈ alive t)) as Hcase.
  { destruct (numberOf name) as [q|] eqn:Hq; [destruct (decide (q ∈ alive t)) as [|Hdead]; [right; eauto|]|]; left; split; try done.
    - intros n [Hn| ->%list_elem_of_singleton]%elem_of_app Hl; [auto|]. destruct Hl as (q' & Hq' & Ha). assert (q' = q) as -> by congruence. by specialize (Ha t Ht).
    - intros n [? ?]%H3. set_solver.
    - intros n [Hn| ->%list_elem_of_singleton]%elem_of_app Hl; [auto|]. destruct Hl as (q' & Hq' & _). congruence.
    - intros n [? ?]%H3. set_solver. }
  destruct (numberOf name) as [q|] eqn:Hq; [|exists hs; split; [|done]; destruct Hcase as [?|(? & ? & _)]; done].
  destruct (decide (q ∈ alive t)) as [Ha|Ha]; [|exists hs; split; [|done]; destruct Hcase as [?|(? & [= <-] & ?)]; done].
  exists (name :: hs). rewrite zlen_cons. split; [|lia]. split.
  - apply NoDup_cons. split; [|done]. by intros [? _]%H3.
  - intros n [Hn| ->%list_elem_of_singleton]%elem_of_app Hl; [|by left]. right. auto.
  - intros n [->|Hn]%elem_of_cons; [|destruct (H3 n Hn); set_solver]. split; [set_solver|]. exists q, t. done.
Qed.

Lemma scanned_moves ts t t' st st' D : t ∈ ts → (∀ t, t ∈ ts → dir t ⊆ D) → Z.of_nat (size D) < 1000000 →
  scanned ts st → moves phase t t' st st' → scanned (ts ++ [t']) st'.
Proof.
  intros Ht HD Hsz HS HM. destruct HM as [st|st| |a e names (Hnd & Hev & Hle & Hal)|name todo ret|ret]; [by apply scanned_snoc|by apply scanned_watch|done|..].
  - apply scanned_snoc. destruct HS as [Ha He]. exists [], []. split_and!; [|by split; [constructor|intros ? []%elem_of_nil|intros ? []%elem_of_nil]|done].
    rewrite Forall_forall in Hev. split; [done| |by auto].
    intros name Hn. assert (zlen names < 1000000) as Hlt; [|specialize (Hal Hlt); apply Ha in Hn; set_solver].
    eapply Z.le_lt_trans; [|exact Hsz]. unfold zlen. apply inj_le. rewrite <-(size_list_to_set (C := gset string)) by done. apply subseteq_size.
    intros n Hin%elem_of_list_to_set. destruct (He n (Hev n Hin)) as (t1 & Ht1 & Hd). by apply (HD t1).
  - destruct HS as (seen & hs & HL & HH & ->). assert (name ∉ seen) as Hnew.
    { pose proof (ls_nodup _ _ HL) as HN. apply NoDup_app in HN as (_ & Hd & _). intros Hin. apply (Hd name Hin). by left. }
    destruct (hits_probe ts t seen hs name _ Ht HH Hnew eq_refl) as (hs' & HH' & ->). apply scanned_snoc.
    exists (seen ++ [name]), hs'. rewrite <-app_assoc. done.
  - apply scanned_snoc. destruct HS as (seen & hs & HL & HH & ->). rewrite app_nil_r in HL. by exists seen, hs.
Qed.

(** A scan whose call is under way all the time. *)
Lemma scanned_visits t0 ts t pid D : visits t0 ts t → (∀ t, t ∈ ts → dir t ⊆ D) → Z.of_nat (size D) < 1000000 →
  (∀ t, t ∈ ts → is_Some (callsOf t !! (pid, phase))) → callsOf t0 !! (pid, phase) = Some (Opened (dir t0) (dir t0)) →
  t ∈ ts ∧ ∃ st, callsOf t !! (pid, phase) = Some st ∧ scanned ts st.
Proof.
  intros HV HD Hsz Hc H0. induction HV as [|ts t t' HV IH [ev HS]].
  - split; [by left|]. exists (Opened (dir t0) (dir t0)). split; [done|]. split.
    + intros name Hn. apply Hn. by left.
    + intros name Hn. exists t0. split; [by left|done].
  - destruct IH as [Ht (st & Hst & Hsc)]; [intros; apply HD; set_solver|intros; apply Hc; set_solver|]. split; [set_solver|].
    destruct (Hc t') as [st' Hst']; [set_solver|]. exists st'. split; [done|].
    eapply (scanned_moves ts t t' st st' D); [done|intros; apply HD; set_solver|done..|by eapply tstep_moves].
Qed.
End scan.

(** The next step of a call when nothing fails. *)
Definition nextOf (pid : Z) (phase : string) (st : Stage) : TEvent :=
  match st with
  | Marked => TOpen pid phase true
  | Opened always ever => TList pid phase (Some (take (Z.to_nat 1000000) (elements always)))
  | Reading _ _ => TProbe pid phase
  | Counted _ => TRemove pid phase true
  end.

Lemma listing_possible a e : a ⊆ e → listing a e (take (Z.to_nat 1000000) (elements a)).
Proof.
  intros Hae. pose proof (NoDup_elements a) as HN. rewrite <-(take_drop (Z.to_nat 1000000) (elements a)) in HN. apply NoDup_app in HN as (HN & _).
  unfold listing, zlen. rewrite length_take. split_and!; [done| |lia|].
  - apply Forall_forall. intros name Hn. apply Hae, elem_of_elements. eapply subseteq_take, Hn.
  - intros Hlt. rewrite take_ge by lia. intros name Hn. by apply elem_of_list_to_set, elem_of_elements.
Qed.

(** A call goes on to its end when no system call fails. *)
Lemma nextOf_enabled t pid phase st : tinv t → callsOf t !! (pid, phase) = Some st →
  ∃ t', tstep (nextOf pid phase st) t = Some t' ∧ panics t' = panics t.
Proof.
  intros I Hc. destruct (ti_calls _ I _ _ _ Hc) as (_ & _ & _ & Hm). destruct st as [|a e|[|name todo] ret|ret]; cbn; rewrite Hc; eauto.
  - destruct (ti_opened _ I _ _ _ _ Hc) as (Hma & _ & Hae). rewrite decide_True by by apply listing_possible.
    eexists. split; [reflexivity|]. destruct (Z.eqb_spec (zlen (take (Z.to_nat 1000000) (elements a))) 0) as [H0|]; [|done]. exfalso.
    unfold zlen in H0. rewrite length_take in H0. apply elem_of_elements in Hma. destruct (elements a); [by apply elem_of_nil in Hma|cbn [length] in H0; lia].
  - rewrite decide_True by done. eauto.
Qed.

Lemma visits_cons t0 t1 ts t : trun t0 t1 → visits t1 ts t → visits t0 (t0 :: ts) t.
Proof.
  intros Hr HV. induction HV as [|ts t t' _ IH Hr']; [by apply (visits_more t0 [t0] t0); [constructor|]|].
  change (t0 :: ts ++ [t']) with ((t0 :: ts) ++ [t']). by eapply visits_more.
Qed.

Lemma visits_last t0 ts t : visits t0 ts t → t ∈ ts.
Proof. intros []; set_solver. Qed.

Lemma visits_reachable t0 ts t : visits t0 ts t → rtc trun timing0 t0 → ∀ t, t ∈ ts → rtc trun timing0 t.
Proof.
  intros HV H0. assert (rtc trun timing0 t ∧ ∀ t, t ∈ ts → rtc trun timing0 t) as [_ H]; [|done].
  induction HV as [|ts t t' _ [IH1 IH2] Hr]; [split; [done|]; by intros t ->%list_elem_of_singleton|].
  assert (rtc trun timing0 t') by (eapply rtc_r; eauto). split; [done|]. intros t1 [?| ->%list_elem_of_singleton]%elem_of_app; auto.
Qed.

(** C39: [nparallel] counts the workers at work.  In every run of processes that
    start, die, are given numbers of dead ones, and call [nparallel], and whatever other
    files come and go: a call never panics unless a system call fails it; and when it
    has counted [n], every process that was in a call of the phase from its opening of
    the directory on is counted, itself among them, and only files are counted that
    were in the directory at some time of the scan and whose number was, at some time
    of the scan, that of a live process, not those that dead processes have left (as
    long as fewer than 1000000 files come and go). *)
Theorem nparallel_counts t pid phase :
  rtc trun timing0 t →
  (∀ st, callsOf t !! (pid, phase) = Some st → ∃ t', tstep (nextOf pid phase st) t = Some t' ∧ panics t' = panics t) ∧
  ∀ t0 ts t1 (D : gset string) n,
    tstep (TOpen pid phase true) t = Some t0 → visits t0 ts t1 →
    (∀ t, t ∈ ts → is_Some (callsOf t !! (pid, phase)) ∧ dir t ⊆ D) → Z.of_nat (size D) < 1000000 →
    callsOf t1 !! (pid, phase) = Some (Counted n) →
    (∀ W : gset Z, (∀ q t, q ∈ W → t ∈ ts → is_Some (callsOf t !! (q, phase))) → Z.of_nat (size W) <= n) ∧
    (∀ C : gset string, (∀ name q t t', t ∈ ts → t' ∈ ts → name ∈ dir t → numberOf phase name = Some q → q ∈ alive t' → name ∈ C) →
      n <= Z.of_nat (size C)) ∧
    1 <= n.
Proof.
  intros HR. pose proof (tinv_reachable t HR) as I. split; [intros st; by apply nextOf_enabled|].
  intros t0 ts t1 D n HO HV Hts HD Hn. assert (callsOf t0 !! (pid, phase) = Some (Opened (dir t0) (dir t0))) as H0.
  { cbn in HO. destruct (callsOf t !! (pid, phase)) as [[]|]; try done. injection HO as <-. apply lookup_insert_eq. }
  assert (∀ t, t ∈ ts → tinv t) as HI.
  { intros t' Ht'. apply tinv_reachable. eapply visits_reachable; [done| |done]. eapply rtc_r; [done|by eexists]. }
  destruct (scanned_visits phase t0 ts t1 pid D HV) as [_ (st & Hst & Hsc)]; [naive_solver..|].
  rewrite Hn in Hst. injection Hst as <-. destruct Hsc as (seen & hs & HL & HH & ->).
  assert (∀ W : gset Z, (∀ q t, q ∈ W → t ∈ ts → is_Some (callsOf t !! (q, phase))) → Z.of_nat (size W) <= zlen hs) as HW.
  { intros W HW. unfold size, set_size, zlen. cbn. rewrite <-(length_fmap (marker phase)). apply inj_le, submseteq_length, NoDup_submseteq.
    - apply NoDup_fmap_2_strong, NoDup_elements. intros q q' Hq _ HE. destruct (HW q t1) as [st Hst]; [by apply elem_of_elements|by eapply visits_last|].
      apply HI in Hst; [|by eapply visits_last]. destruct Hst as (_ & _ & Hph & _). by apply marker_inj in HE as [_ ?].
    - intros name (q & -> & Hq%elem_of_elements)%list_elem_of_fmap. apply (hi_all _ _ _ _ HH).
      + apply (ls_all _ _ HL). intros t' Ht'. destruct (HW q t' Hq Ht') as [st Hst]. by apply (HI t' Ht') in Hst as (_ & _ & _ & ?).
      + exists q. split.
        * destruct (HW q t1 Hq) as [st Hst]; [by eapply visits_last|]. apply HI in Hst as (_ & ? & _); [|by eapply visits_last]. apply marker_scan. lia.
        * intros t' Ht'. destruct (HW q t' Hq Ht') as [st Hst]. by apply (HI t' Ht') in Hst as (? & _). }
  split_and!; [done| |].
  - intros C HC. unfold zlen. rewrite <-(size_list_to_set (C := gset string) hs) by apply HH. apply inj_le, subseteq_size.
    intros name Hin%elem_of_list_to_set. destruct (hi_lived _ _ _ _ HH name Hin) as [Hseen (q & t' & Hq & Ht' & Ha)].
    destruct (ls_once _ _ HL name Hseen) as (t2 & Ht2 & Hd). by apply (HC name q t2 t').
  - specialize (HW {[pid]}). rewrite size_singleton in HW. apply HW. intros q t' ->%elem_of_singleton Ht'. by apply Hts.
Qed.

(** ** jobcount *)

Section jobcount.
(** The order in which a directory is read. *)
Context (readdir : gset string → list string) (Hreaddir : ∀ d, readdir d ≡ₚ elements d).

(** jobcount: [count] is the variable of the process [me]. *)
Definition jobName (me count : Z) : string := ("mr-worker-jobcount-" +:+ pretty me +:+ "-" +:+ pretty count)%string.
Definition jobcountMap (me count : Z) (d : gset string) : Z * gset string * list KeyValue :=
  (count + 1, {[jobName me count]} ∪ d, [mkKV "a" "x"]).
Definition HasPrefix (s prefix : string) : bool := bool_decide (is_Some (afterPrefix prefix s)).
Definition jobcountReduce (d : gset string) (key : string) (values : list string) : string :=
  pretty (foldl (λ invocations f, if HasPrefix f "mr-worker-jobcount" then invocations + 1 else invocations) 0 (readdir d)).

(** Calls of [Map] by processes, one after the other. *)
Definition jobStep (acc : gmap Z Z * gset string) (me : Z) : gmap Z Z * gset string :=
  let '(count, d, _) := jobcountMap me (default 0 (acc.1 !! me)) acc.2 in (<[me := count]> acc.1, d).
Definition jobRun (mes : list Z) (d : gset string) : gmap Z Z * gset string := foldl jobStep (∅, d) mes.

(** ** What jobcount counts *)

Lemma jobName_inj me me' n n' : 0 <= me → 0 <= me' → jobName me n = jobName me' n' → me = me' ∧ n = n'.
Proof.
  intros Hm Hm' [= H]. apply dash_split in H as [Hp Hq]; [|by apply pretty_nodash..]. by apply (inj pretty) in Hp, Hq.
Qed.

Definition ofJobs (d : gset string) : gset string := filter (λ f, HasPrefix f "mr-worker-jobcount" = true) d.

Lemma jobName_prefix me i : HasPrefix (jobName me i) "mr-worker-jobcount" = true.
Proof.
  apply bool_decide_eq_true_2. eexists. unfold jobName.
  apply (afterPrefix_app "mr-worker-jobcount" ("-" +:+ pretty me +:+ "-" +:+ pretty i)).
Qed.

Lemma jobcountReduce_size d key values : jobcountReduce d key values = pretty (Z.of_nat (size (ofJobs d))).
Proof.
  unfold jobcountReduce. f_equal. assert (∀ acc names, foldl (λ invocations f, if HasPrefix f "mr-worker-jobcount" then invocations + 1 else invocations) acc names =
    acc + zlen (filter (λ f, HasPrefix f "mr-worker-jobcount" = true) names)) as HF.
  { intros acc names. revert acc. induction names as [|f names IH]; intros acc; [unfold zlen; cbn; lia|]. cbn [foldl]. rewrite IH, filter_cons.
    destruct (HasPrefix f _); [rewrite decide_True by done; rewrite zlen_cons; lia|by rewrite decide_False]. }
  rewrite HF. unfold zlen. rewrite (Hreaddir d), Z.add_0_l. f_equal. unfold size, set_size. cbn.
  apply Permutation_length, NoDup_Permutation; [apply NoDup_filter, NoDup_elements|apply NoDup_elements|].
  intros f. unfold ofJobs. rewrite list_elem_of_filter, !elem_of_elements, elem_of_filter. done.
Qed.

Lemma jobRun_spec mes d :
  Forall (λ me, 0 <= me) mes → ofJobs d = ∅ →
  let '(c, d') := jobRun mes d in
  size (ofJobs d') = length mes ∧ (∀ me, 0 <= default 0 (c !! me)) ∧
  ∀ me i, 0 <= me → jobName me i ∈ d' → i < default 0 (c !! me).
Proof.
  intros Hmes Hd. induction mes as [|me mes IH] using rev_ind.
  - cbn. rewrite Hd. split_and!; [done|by intros me; rewrite lookup_empty|]. intros me i _ Hin.
    assert (jobName me i ∈ ofJobs d) as Hf by (apply elem_of_filter; by rewrite jobName_prefix). rewrite Hd in Hf. set_solver.
  - apply Forall_app in Hmes as [Hmes Hme]. apply Forall_inv in Hme. specialize (IH Hmes). unfold jobRun in *. rewrite foldl_app. cbn [foldl].
    destruct (foldl jobStep (∅, d) mes) as [c d']. destruct IH as (IH1 & IH2 & IH3). unfold jobStep, jobcountMap. cbn.
    set (n := default 0 (c !! me)). assert (jobName me n ∉ d') as Hnew by (intros Hin%IH3; [unfold n in *; lia|done]). split_and!.
    + assert (ofJobs ({[jobName me n]} ∪ d') = {[jobName me n]} ∪ ofJobs d') as ->.
      { apply set_eq. intros f. unfold ofJobs. rewrite elem_of_union, !elem_of_filter, elem_of_union, elem_of_singleton.
        pose proof (jobName_prefix me n). naive_solver. }
      rewrite size_union, size_singleton, IH1, length_app; [cbn; lia|].
      apply disjoint_singleton_l. unfold ofJobs. rewrite elem_of_filter. tauto.
    + intros m. destruct (decide (me = m)) as [->|]; [rewrite lookup_insert_eq; cbn; specialize (IH2 m); unfold n; lia|by rewrite lookup_insert_ne].
    + intros m i Hm [[-> ->]%elem_of_singleton%jobName_inj|Hin]%elem_of_union; [rewrite lookup_insert_eq; cbn; lia|done|done|].
      specialize (IH3 m i Hm Hin). destruct (decide (me = m)) as [->|]; [rewrite lookup_insert_eq; cbn; unfold n; lia|by rewrite lookup_insert_ne].
Qed.

(** The Reduce of jobcount prints how often Map was called, by whatever processes. *)
Theorem jobcount_counts mes d key values :
  Forall (λ me, 0 <= me) mes → ofJobs d = ∅ → jobcountReduce (jobRun mes d).2 key values = pretty (zlen mes).
Proof.
  intros Hmes Hd. rewrite jobcountReduce_size. pose proof (jobRun_spec mes d Hmes Hd) as HJ.
  destruct (jobRun mes d) as [c d']. destruct HJ as [HJ _]. cbn. by rewrite HJ.
Qed.

End jobcount.

(** ** A run *)

Module TimingExamples.

(** Processes 5, 6, 7 and 8 begin a map, and 6 a reduce too; 7 dies. *)
Definition busy : list TEvent :=
  [TStart 5; TStart 6; TStart 7; TStart 8; TFile "pg-x.txt" true; TWrite 7 "map" true true; TWrite 5 "map" true true;
   TWrite 6 "map" true true; TWrite 6 "reduce" true true; TWrite 8 "map" true true; TDie 7].

(** While 5 goes through the files, 8 dies, and a new process is given the number 7. *)
Definition scan : list TEvent :=
  [TList 5 "map" (Some [marker "map" 5; marker "map" 8; "pg-x.txt"; marker "map" 6; marker "reduce" 6; marker "map" 7]);
   TProbe 5 "map"; TDie 8; TProbe 5 "map"; TProbe 5 "map"; TProbe 5 "map"; TProbe 5 "map"; TStart 7; TProbe 5 "map"; TProbe 5 "map"].

Fixpoint states (evs : list TEvent) (t : Timing) : list Timing :=
  t :: match evs with
       | [] => []
       | ev :: evs => match tstep ev t with Some t' => states evs t' | None => [] end
       end.
Definition runAll (evs : list TEvent) (t : Timing) : option Timing := foldl (λ acc ev, t ← acc; tstep ev t) (Some t) evs.

Lemma runAll_None evs : foldl (λ acc ev, t ← acc; tstep ev t) None evs = None.
Proof. by induction evs. Qed.

Lemma runAll_trun evs t t' : runAll evs t = Some t' → rtc trun t t'.
Proof.
  unfold runAll. revert t. induction evs as [|ev evs IH]; cbn; intros t HR; [by simplify_eq|].
  destruct (tstep ev t) as [t1|] eqn:HS; [eapply rtc_l; [by exists ev|by apply IH]|]. by rewrite runAll_None in HR.
Qed.

Lemma runAll_visits evs t t' : runAll evs t = Some t' → visits t (states evs t) t'.
Proof.
  unfold runAll. revert t. induction evs as [|ev evs IH]; cbn; intros t HR; [simplify_eq; constructor|].
  destruct (tstep ev t) as [t1|] eqn:HS; [|by rewrite runAll_None in HR]. eapply visits_cons; [by exists ev|by apply IH].
Qed.

Definition t1 : Timing := default timing0 (runAll busy timing0).
Definition t2 : Timing := default timing0 (tstep (TOpen 5 "map" true) t1).
Definition t3 : Timing := default timing0 (runAll scan t2).

Lemma t1_reached : rtc trun timing0 t1.
Proof. apply (runAll_trun busy). vm_compute. reflexivity. Qed.

(** 5 counts itself, 6, and 7, which is a new process; not 8, which has died. *)
Lemma nparallel_counts_witness :
  callsOf t3 !! (5, "map") = Some (Counted 3) ∧ 2 <= 3 ∧
  ∃ t', tstep (TRemove 5 "map" true) t3 = Some t' ∧ panics t' = [].
Proof.
  assert (rtc trun timing0 t3) as H3.
  { etransitivity; [exact t1_reached|]. eapply rtc_l; [exists (TOpen 5 "map" true); vm_compute; reflexivity|].
    apply (runAll_trun scan). vm_compute. reflexivity. }
  split; [vm_compute; reflexivity|]. split.
  - destruct (nparallel_counts t1 5 "map" t1_reached) as [_ HC].
    destruct (HC t2 (states scan t2) t3 (dir t2) 3) as (HW & _ & _); [vm_compute; reflexivity|apply (runAll_visits scan); vm_compute; reflexivity| |vm_compute; reflexivity|vm_compute; reflexivity|].
    + intros t Ht. assert (Forall (λ t, is_Some (callsOf t !! (5, "map")) ∧ dir t ⊆ dir t2) (states scan t2)) as HF.
      { apply (bool_decide_unpack _). vm_compute. exact I. }
      rewrite Forall_forall in HF. by apply HF.
    + change 2 with (Z.of_nat (size ({[5; 6]} : gset Z))). apply HW. intros q t Hq Ht. assert (Forall (λ t, is_Some (callsOf t !! (5, "map")) ∧ is_Some (callsOf t !! (6, "map"))) (states scan t2)) as HF.
      { apply (bool_decide_unpack _). vm_compute. exact I. }
      rewrite Forall_forall in HF. destruct (HF t Ht). apply elem_of_union in Hq as [->%elem_of_singleton| ->%elem_of_singleton]; assumption.
  - destruct (nparallel_counts t3 5 "map" H3) as [HN _]. destruct (HN (Counted 3)) as (t' & HS & Hp); [vm_compute; reflexivity|].
    exists t'. split; [exact HS|]. rewrite Hp. vm_compute. reflexivity.
Defined.

Example two_calls : jobcountReduce elements (jobRun [5; 6; 5] ∅).2 "a" ["x"; "x"; "x"] = "3".
Proof. vm_compute. reflexivity. Qed.

End TimingExamples.
